(* ===== verification/_CoqProject ===== *)
-Q . S2P
Prelude.v
GoLib.v
Base64.v
Types.v
Platform.v
Keys.v
Store.v
Paging.v
Utils.v
StoreLogic.v
PagingProofs.v
Concrete.v
Archive.v
Progress.v
Frame.v
Success.v
StoreProofs.v
Computors.v
Quorum.v
QuorumProofs.v
Tick.v
TickProofs.v
Tx.v
TxProofs.v
TxStatus.v
TxStatusProofs.v
Chain.v
ChainProofs.v
Validator.v
EmptyTicksProofs.v
ValidatorProofs.v
QliService.v
Processor.v
ProcessorProofs.v
Main.v
Typed.v
Reads.v
Archived.v
Complete.v
Liveness.v
Cut.v
Restarts.v
Middleware.v
Rpc.v
RpcV2.v
PaginationProofs.v
RpcProofs.v
Service.v
Startup.v
Reader.v
ServiceProofs.v
Stages.v
Votes.v
Served.v
System.v
Interleave.v
Ledger.v
Torn.v
Gateway.v
GatewayProofs.v
GatewayServed.v
GatewayLocal.v
Samples.v
Reflect.v
Witnesses.v
WitnessesArchive.v
WitnessesData.v
WitnessesRuns.v
ConcreteGateway.v
WitnessesGateway.v
RepositoryTests.v
