(* ===== verification/Prelude.v ===== *)
(** * go-archiver: a verification development

    The archiver follows the Qubic network tick by tick.  It asks a node for
    the votes, the data and the transactions of the next tick, checks them
    against each other and against the computors' signatures, stores them in a
    pebble database, and answers gRPC requests from that database, which an HTTP
    gateway passes on to it.  This library models the Go code under src/ as
    functions and states what makes it correct.

    ** How the program is modelled

    A Go function that cannot touch the database is a function into
    [outcome A], a value, an error or a panic.  A function that can is a
    computation [M DB A]: it takes the database and yields an outcome and the
    database as it left it, so the writes made before an error stay.  Errors
    are values with their wrapping, and [errors_Is] looks through it as
    [errors.Is] does; the text of an error is the constant part of its format
    string.  Integers are [Z] with the wrap-around of their Go type written
    out ([uint32], [int64], ...); byte slices and arrays are lists of [Z]; maps
    are [gmap]s, and a loop over one visits the entries in an order given by the
    interface [GoRuntime] ([map_range]), of which only that it is a permutation
    is known.  Contexts, deadlines, logging and closing of handles have no
    counterpart.

    Code outside the repository is reached through the classes of Platform.v
    (pebble, protobuf, KangarooTwelve, the node connector with its signature
    check, grpc's status, HTTP clients, the Go runtime's map order and slice
    growth), of Gateway.v (grpc-gateway's runtime) and of Startup.v (options,
    opening the database, connecting the pool).  Each that theorems rely on has a class of laws, stating documented
    behaviour, that they name where they use it.  Concrete.v implements
    the classes, an in-memory database that can fail, a codec for every
    message, a small network, and proves the laws, so that every theorem with
    hypotheses is also run on sample data.

    ** The parts, from the bottom up

    - Prelude.v (this file): bytes, errors, the two monads, lists, tactics, the
      hint databases; GoLib.v and Base64.v: the parts of Go's standard library
      in use; Types.v: the protobuf messages ([pb]) and the connector's structures
      ([types]); Platform.v: the interfaces.
    - store/keys.go is Keys.v; store/store.go is Store.v, one definition per
      method, and Paging.v for the paged transfers.  StoreLogic.v has the
      rules for computations on a database that does not fail ([runs]),
      Frame.v those for one that may ([frame], [writes_only]), Success.v what a
      run that succeeded did.  Cut.v is a database that takes the process down
      after so many writes, and so a computation cut short between two of them;
      Stages.v: the contents at every such cut, for the status update; Reader.v derives from a computation the sequence of its reads.
    - utils/utils.go is Utils.v.  The packages below validator/ are Computors.v,
      Quorum.v, Tick.v, Tx.v, TxStatus.v and Chain.v, each with its models.go
      and validator.go; Tick.v also has empty_tick.go and what main.go does with
      the empty ticks before it serves.  validator/validator.go is Validator.v:
      [check] up to the first write of tick information, [store_tick] the rest,
      [ValidateTick] both; QliService.v is its query of the qli service.
    - processor/processor.go is Processor.v: [process_with] is a pass with a
      connected client, [processOneByOne] adds the pool and the deferred
      function, [run] is [Start] over the clients the pool hands out.
    - rpc/middleware.go is Middleware.v, rpc/rpc_server.go Rpc.v,
      rpc/v2_endpoints.go RpcV2.v: one definition per handler.  Service.v is the
      service as [Server.Start] and archive.proto put it together: [serve] takes
      a [call] through the interceptor ([let_through]) to its handler ([handle]).
    - protobuff/archive.pb.gw.go is Gateway.v: a pattern, a request function and
      a handler for each method, their registration, and [gateway], the proxy in
      front of [serve] as [Server.Start] connects it; GatewayLocal.v has the
      variants without a connection, which the program does not register.
    - main.go, from the opened database to the processing loop, is Main.v
      ([run_main]); Startup.v puts the options, the tuning and opening of the
      database before it and the wait for the end behind it ([Startup.run]).

    The processor calls the validator, which calls the packages below it, which
    call the store.  The rpc layer shares nothing with them but the database;
    the interceptor sees it through the class [ProcessedTicksStore], whose laws
    are proved for the pebble store.

    ** The abstract archive

    Archive.v says without keys and bytes what the database records of the
    archive's progress: the last processed tick, overall and per epoch, the
    processed intervals of each epoch and the skipped intervals.  [step] is one
    successful pass against a node that reports sane tick information, and
    [archive_ok] the invariant: intervals non-empty, ordered and disjoint,
    epochs in order, every tick up to the last one in exactly one of the
    processed and the skipped set.  Progress.v relates it to a database
    ([represents]).

    ** What is proved

    - From the nodes to the answers (Served.v): after any lives on one database,
      each a run of main.go with its own options and nodes, every processed
      tick is answered from its record and every other tick is refused
      ([lives_serve]), as long as no life is killed in a status update; Restarts.v:
      what start-up does, and the storing of a tick, keep what the processor relies on,
      wherever they are killed.  System.v is the archiver as a relation of steps: the
      single writes of a start, of a pass and of its status update, the checks and
      handlers of requests, and kills in the phases it is told.  Interleave.v says at every
      moment of every interleaving, also between two writes of a status update, what
      requests are shown, when the process is killed anywhere else
      ([interleaved_requests]); and that an answer, once given, is never replaced by
      another, wherever the process is killed, and stays given when it is not killed in a
      status update ([answers_final]).  Torn.v interleaves the reads of a request
      as well: a method that reads one record answers as at the moment of its
      last access ([requests_atomic]), and one that reads a list and what it lists
      answers with all of it ([lists_complete]).  Ledger.v is the specification of it all for those who
      ask: a ledger of ticks that grows by one tick at a time behind the last
      one; every step of the system leaves it or appends one tick, and
      the answers are always those of the ledger ([system_refines_ledger]).
    - The gateway (GatewayProofs.v, GatewayServed.v): a request decides alone
      what it does, one call or none ([gateway_dispatches]); every method has
      a path of its own ([gateway_reaches]); and so the answers over HTTP are
      those of the record ([lives_serve_http]).  GatewayLocal.v: the
      variants without a connection dispatch alike ([registrations_agree]).
    - Progress (ProcessorProofs.v): a pass refines [step] or leaves the
      represented archive as it was, and whatever nodes the loop is handed a
      database that started empty represents a reachable archive
      ([process_refines], [run_archive_ok]).  Liveness.v: on such a database a
      pass that has what it needs succeeds, so good passes advance the archive
      whatever comes in between ([run_progress]).
    - The contents of the database: every value has the type of its key
      (Typed.v: [run_main_well_typed]) and nothing that was archived is lost
      ([run_main_keeps]), also when the database fails; the getters therefore
      answer ([run_main_getters_answer] in Reads.v).  Archived.v: what a
      successful pass has stored ([ValidateTick_archives]); Complete.v: every
      processed tick has its complete record ([run_archives]).
    - ValidatorProofs.v: a pass writes no bookkeeping key and no other tick's
      records ([ValidateTick_frame]), and a rejected tick leaves no trace
      ([ValidateTick_rejected]).  StoreProofs.v: the last processed tick is
      written atomically.
    - Validation: what an accepted quorum means and when there is one
      (QuorumProofs.v: [Validate_sound], [Validate_complete]); tick data,
      transactions and statuses are accepted exactly when they should be
      (TickProofs.v, TxProofs.v, TxStatusProofs.v).
    - Commitments (ChainProofs.v): an epoch's chain digest determines every
      vote before it; the store digest does not depend on the order of the
      transactions.
    - Storage: computor lists, quorum data, tick data, empty ticks and transfers
      are read back as what was stored (Computors.v, QuorumProofs.v,
      RpcProofs.v, StoreProofs.v, EmptyTicksProofs.v, TxProofs.v).
    - Answers: the interceptor admits exactly the processed ticks
      (Middleware.v); pages partition what they page through (PagingProofs.v,
      PaginationProofs.v, RpcProofs.v); the interval questions, the status and
      the tick lists report the archive.  ServiceProofs.v: no request changes
      the database ([serve_reads_only]), and none makes the server panic while
      the contents have their types and stored votes stay within the stored
      computor list ([serve_never_panics]); Votes.v: which they do after every
      run of lives, killed anywhere, with nodes that report a key for each computor
      ([lives_never_panic]).
    - Where the code does something one would not expect, a theorem says so:
      [check_first_vote_decides], [Validate_index_panic],
      [Validate_duplicates], [GetStatus_without_count],
      [page_loop_loses_error], [GetTransactionsForEntityPaged_aliased],
      [CalculateEmptyTicks_stops], [mark_interval_diverges],
      [GetTxStatus_short_digest], and the runs at the end of WitnessesRuns.v.

    Samples.v, Reflect.v and the Witnesses files apply every property that has
    hypotheses to concrete data; ConcreteGateway.v has a gateway runtime for
    them.  RepositoryTests.v runs tests of the repository on the model.

    ** Assumptions and bounds

    [node_sane] is what progress assumes of a node: numbers in the range of
    their types, ticks below 2^32 - 1, and an epoch that does not go back when a
    new one starts.  [answers_wf] says that a digest has 32 bytes, as its Go type
    does.  [reports_consistent] asks of all reports of a run that their numbers are in
    range and that no later initial tick comes with an earlier epoch; without it a
    node that reports an old epoch can make [SetLastProcessedTick] extend that epoch's
    last interval over ticks that were never stored.  Theorems about what a run has stored assume that the database does
    not fail ([healthy]); those about types, losses and frames do not.  A good
    pass ([good_pass]) is one whose node has reached the next tick, whose
    answers pass validation and whose messages can be encoded.  Hashing is not
    assumed to be free of collisions: a theorem
    that would need it says "or two inputs collide" and names them.  Signatures
    are a predicate.

    Of grpc-gateway ([GatewayLaws]) it is assumed that a compiled template matches
    the paths it describes and no other plain path, that the handler of a
    request is a registered one whose pattern matches, that decimal numbers are
    read as such, and that a query leaves the fields of the path alone.
    Paths are those whose components need no escaping.

    Loops over lists and maps are structural.  The one loop that is not, in
    [GetEpochTickListV2], counts through the ticks of an interval and takes
    fuel; one unit per tick up to the last processed one is enough
    ([GetEpochTickListV2_exact]), and no fuel is when the interval ends at the
    largest 32-bit number ([mark_interval_diverges]).  [Processor.run] recurses on the
    sequence of clients, since [Start] does not return.

    ** What is not modelled

    The wire formats of protobuf and JSON and the stubs of grpc, which are
    generated; listening, metrics, profiles and the limits on the size of a
    message in main.go and [Server.Start], which are calls of libraries;
    store/event_listener.go, which logs.  A stored quorum message without its
    tick structure would make [GetQuorumTickData] dereference nil; the record of
    the model always has one, as everything the validator stores does.

    The slices that pebble returns are taken as copies.  [GetChainDigest] and
    [GetStoreDigest] hand theirs on after closing it, past its documented validity; what
    pebble does with that memory is outside the model.

    The writes of a status update are not one batch.  Between the commit of the last
    processed tick and the write of its interval, the first tick of an epoch that
    follows without a gap is answered although no interval holds it, and a process
    killed there leaves a database on which the tick is lost
    ([killed_update_loses_tick]).  The theorems about the represented archive
    ([lives_serve], [interleaved_requests], [system_refines_ledger], [requests_atomic],
    [lists_complete]) therefore leave out kills between two writes of a status
    update ([spared], [settled]), and only those; [lives_never_panic] and the first half of
    [answers_final] have them as well.  A write that fails there is left out by
    [healthy]; what it does is [repeated_pass_duplicates_interval].  These runs are at the
    end of WitnessesRuns.v.
    The methods that read several records of the bookkeeping are not
    atomic ([status_not_atomic]); what is proved of their answers is for
    a database nobody writes to while they read. *)

From stdpp Require Import sorting base strings numbers pretty gmap list.

(** ** Bytes, digests and strings

    A byte is a [Z]; a Go [[]byte] or [[n]byte] is a [list Z].  [wf_bytes]
    says every element is in range, and [is_array n] that the value is a
    possible [[n]byte]. *)
Abbreviation bytes := (list Z).

Definition wf_bytes (b : bytes) : Prop := Forall (λ x, (0 ≤ x < 256)%Z) b.

Definition is_array (n : nat) (b : bytes) : Prop := length b = n ∧ wf_bytes b.

(** The zero value of [[n]byte]. *)
Definition zero_array (n : nat) : bytes := replicate n 0%Z.

(** ** Go errors

    The error values the program distinguishes: the two sentinels
    ([store.ErrNotFound], [pebble.ErrNotFound]), wrapping with [%w], gRPC
    statuses, the processor's [TickInTheFutureError] and errors of code that
    is not part of the repository. *)
Inductive code :=
| NotFound
| Internal
| FailedPrecondition
| OutOfRange
| InvalidArgument.

Inductive error :=
| ErrorString (msg : string)
| WrapError (msg : string) (err : error)
| ErrNotFound
| PebbleErrNotFound
| TickInTheFutureError (requestedTick latestTick : Z)
| StatusError (c : code) (msg : string) (detail : option Z)
| ExternalError (n : nat).

#[export] Instance code_eq_dec : EqDecision code.
Proof. solve_decision. Defined.

#[export] Instance error_eq_dec : EqDecision error.
Proof. solve_decision. Defined.

(** [errors.Is(err, target)]: [target] is [err] or something [err] wraps. *)
Fixpoint errors_Is (err target : error) : bool :=
  bool_decide (err = target) ||
  match err with
  | WrapError _ e => errors_Is e target
  | _ => false
  end.

(** ** Results and stateful computations *)

(** What a Go call ends in: a value, a non-nil error, or a run-time panic. *)
Inductive outcome (A : Type) :=
| Ok (a : A)
| Err (e : error)
| Panic.
Arguments Ok {A} a.
Arguments Err {A} e.
Arguments Panic {A}.

#[export] Instance outcome_ret : MRet outcome := @Ok.
#[export] Instance outcome_bind : MBind outcome := λ A B k c,
  match c with Ok a => k a | Err e => Err e | Panic => Panic end.
#[export] Instance outcome_fmap : FMap outcome := λ A B f c,
  match c with Ok a => Ok (f a) | Err e => Err e | Panic => Panic end.

#[export] Instance outcome_eq_dec {A} `{EqDecision A} : EqDecision (outcome A).
Proof. solve_decision. Defined.

(** A computation over a state [S].  The state survives an error and a panic:
    what was written before the failure stays written. *)
Definition M (S A : Type) : Type := S → outcome A * S.

#[export] Instance M_ret {S} : MRet (M S) := λ A a s, (Ok a, s).
#[export] Instance M_bind {S} : MBind (M S) := λ A B k c s,
  match c s with
  | (Ok a, s') => k a s'
  | (Err e, s') => (Err e, s')
  | (Panic, s') => (Panic, s')
  end.

(** [if err != nil { return f(err) }] *)
Definition map_err {A} (f : error → error) (c : outcome A) : outcome A :=
  match c with Err e => Err (f e) | _ => c end.

(** [fmt.Errorf("msg: %w", err)] *)
Definition wrap {A} (msg : string) (c : outcome A) : outcome A :=
  map_err (WrapError msg) c.

(** The error as a value, for the callers that look at [err] and go on. *)
Definition attempt {A} (c : outcome A) : outcome (A + error) :=
  match c with Ok a => Ok (inl a) | Err e => Ok (inr e) | Panic => Panic end.

(** A bounds-checked element access: out of range is a run-time panic. *)
Definition index {A} (l : list A) (i : Z) : outcome A :=
  if bool_decide (0 ≤ i)%Z
  then match l !! Z.to_nat i with Some a => Ok a | None => Panic end
  else Panic.

Definition panic_if_none {A} (o : option A) : outcome A :=
  match o with Some a => Ok a | None => Panic end.

(** A loop over a slice whose body may return early with an error. *)
Fixpoint foldO {A B} (f : B → A → outcome B) (acc : B) (l : list A) : outcome B :=
  match l with
  | [] => Ok acc
  | x :: l => f acc x ≫= λ acc', foldO f acc' l
  end.

Section Monad.
Context {S : Type}.

Definition lift {A} (o : outcome A) : M S A := λ s, (o, s).
Definition mmap_err {A} (f : error → error) (c : M S A) : M S A := λ s,
  let '(o, s') := c s in (map_err f o, s').
Definition mwrap {A} (msg : string) (c : M S A) : M S A :=
  mmap_err (WrapError msg) c.
Definition mattempt {A} (c : M S A) : M S (A + error) := λ s,
  let '(o, s') := c s in (attempt o, s').
Definition throw {A} (e : error) : M S A := lift (Err e).

Fixpoint foldM {A B} (f : B → A → M S B) (acc : B) (l : list A) : M S B :=
  match l with
  | [] => mret acc
  | x :: l => f acc x ≫= λ acc', foldM f acc' l
  end.

Definition forM_ {A} (l : list A) (f : A → M S unit) : M S unit :=
  foldM (λ _ x, f x) tt l.
End Monad.

(** ** Lemmas and automation for results *)
Lemma bind_Ok {A B} (c : outcome A) (k : A → outcome B) b :
  c ≫= k = Ok b ↔ ∃ a, c = Ok a ∧ k a = Ok b.
Proof. destruct c; naive_solver. Qed.

Lemma map_err_Ok {A} f (c : outcome A) a : map_err f c = Ok a ↔ c = Ok a.
Proof. by destruct c. Qed.

Lemma map_err_Panic {A} f (c : outcome A) : map_err f c = Panic ↔ c = Panic.
Proof. by destruct c. Qed.

Lemma wrap_Ok {A} msg (c : outcome A) a : wrap msg c = Ok a ↔ c = Ok a.
Proof. apply map_err_Ok. Qed.

Lemma fmap_Ok {A B} (f : A → B) (c : outcome A) b :
  f <$> c = Ok b ↔ ∃ a, c = Ok a ∧ b = f a.
Proof. destruct c; naive_solver. Qed.

Lemma index_Ok {A} (l : list A) i a :
  index l i = Ok a ↔ (0 ≤ i)%Z ∧ l !! Z.to_nat i = Some a.
Proof. unfold index. case_bool_decide; [|naive_solver lia]. destruct (l !! _); naive_solver. Qed.

Lemma index_in_range {A} (l : list A) i :
  (0 ≤ i < Z.of_nat (length l))%Z → ∃ a, index l i = Ok a.
Proof.
  intros Hi. destruct (lookup_lt_is_Some_2 l (Z.to_nat i)) as [a Ha]; [lia|].
  exists a. apply index_Ok. split; [lia|done].
Qed.

Lemma mbind_M_Ok {S A B} (c : M S A) (k : A → M S B) s b s2 :
  (c ≫= k) s = (Ok b, s2) ↔ ∃ a s1, c s = (Ok a, s1) ∧ k a s1 = (Ok b, s2).
Proof.
  unfold mbind, M_bind. destruct (c s) as [[a|e|] s1]; split; try (by naive_solver).
Qed.

Lemma foldO_app {A B} (f : B → A → outcome B) acc l k :
  foldO f acc (l ++ k) = foldO f acc l ≫= λ acc', foldO f acc' k.
Proof.
  revert acc. induction l as [|x l IH]; intros acc; [done|].
  simpl. destruct (f acc x); simpl; auto.
Qed.

(** A loop that never fails is a fold. *)
Lemma foldO_Ok {A B} (f : B → A → outcome B) (g : B → A → B) acc l :
  (∀ acc x, x ∈ l → f acc x = Ok (g acc x)) → foldO f acc l = Ok (foldl g acc l).
Proof.
  revert acc. induction l as [|x l IH]; intros acc H; [done|].
  simpl. rewrite H by left. simpl. apply IH. intros. apply H. by right.
Qed.

(** [err] is neither of the two "not found" sentinels, wrapped or not. *)
Definition other_error (e : error) : Prop :=
  errors_Is e PebbleErrNotFound = false ∧ errors_Is e ErrNotFound = false.

(** Destruct the result of every successful bind among the hypotheses. *)
Ltac inv_ok :=
  repeat match goal with
  | H : (_ ≫= _) = Ok _ |- _ => apply bind_Ok in H; destruct H as (? & ? & ?)
  | H : wrap _ _ = Ok _ |- _ => apply wrap_Ok in H
  | H : map_err _ _ = Ok _ |- _ => apply map_err_Ok in H
  | H : _ <$> _ = Ok _ |- _ => apply fmap_Ok in H; destruct H as (? & ? & ?)
  | H : Ok _ = Ok _ |- _ => injection H as H
  | H : mret _ = Ok _ |- _ => injection H as H
  | H : Err _ = Ok _ |- _ => discriminate H
  | H : Panic = Ok _ |- _ => discriminate H
  end.

(** Compute the successful statements at the head of a sequence, and no more. *)
Ltac ok_step := cbn [wrap map_err mbind outcome_bind attempt fmap outcome_fmap mret outcome_ret].

Ltac bool_cases :=
  repeat match goal with
  | H : context [bool_decide ?P] |- _ => case_bool_decide
  | |- context [bool_decide ?P] => case_bool_decide
  | H : context [decide ?P] |- _ => destruct (decide P)
  end.

(** ** Generic list lemmas *)
Lemma length_zero_array n : length (zero_array n) = n.
Proof. apply length_replicate. Qed.

Lemma is_array_zero n : is_array n (zero_array n).
Proof.
  split; [apply length_zero_array|]. apply Forall_replicate. lia.
Qed.

Lemma Forall_concat_map {A B} (P : B → Prop) (f : A → list B) l :
  Forall (λ x, Forall P (f x)) l → Forall P (concat (f <$> l)).
Proof. induction 1; simpl; [constructor|]. by apply Forall_app. Qed.

Lemma list_filter_all {A} (P : A → Prop) `{∀ x, Decision (P x)} (l : list A) :
  (∀ x, x ∈ l → P x) → filter P l = l.
Proof.
  induction l as [|x l IH]; intros Hl; [done|].
  rewrite filter_cons_True by (apply Hl; by left). f_equal. apply IH. intros. apply Hl. by right.
Qed.

Lemma list_filter_length_le {A} (P : A → Prop) `{∀ x, Decision (P x)} (l : list A) :
  length (filter P l) ≤ length l.
Proof. apply length_filter. Qed.

Lemma Forall2_choice {A B} (R : A → B → Prop) l :
  (∀ x, x ∈ l → ∃ y, R x y) → ∃ k, Forall2 R l k.
Proof.
  induction l as [|x l IH]; intros Hx; [by exists []|].
  destruct (Hx x) as [y Hy]; [by left|].
  destruct IH as [k Hk]; [intros; apply Hx; by right|]. exists (y :: k). by constructor.
Qed.

(** Filling a map from entries with distinct keys, in any order. *)
Lemma foldl_insert_lookup `{Countable K} {A B} (g : K → A → B) (l : list (K * A))
    (acc : gmap K B) (k : K) : NoDup l.*1 →
  foldl (λ m '(k, x), <[k := g k x]> m) acc l !! k =
  match (list_to_map l : gmap K A) !! k with Some x => Some (g k x) | None => acc !! k end.
Proof.
  revert acc. induction l as [|[k0 x] l IH]; intros acc; csimpl; [by rewrite lookup_empty|].
  intros [Hk0 Hl]%NoDup_cons. rewrite IH by done.
  destruct (decide (k0 = k)) as [->|Hne].
  - by rewrite !lookup_insert_eq, not_elem_of_list_to_map_1.
  - by rewrite !lookup_insert_ne.
Qed.

Lemma foldl_insert_perm `{Countable K} {A B} (g : K → A → B) (m : gmap K A) l :
  l ≡ₚ map_to_list m → foldl (λ m '(k, x), <[k := g k x]> m) ∅ l = map_imap (λ k x, Some (g k x)) m.
Proof.
  intros Hl. assert (Hnd : NoDup l.*1) by (rewrite Hl; apply NoDup_fst_map_to_list).
  apply map_eq. intros k. rewrite foldl_insert_lookup by done.
  rewrite map_lookup_imap, lookup_empty, (list_to_map_proper l (map_to_list m)) by done.
  rewrite list_to_map_to_list. by destruct (m !! k).
Qed.

(** Writing a list into a map commutes with converting the values. *)
Lemma fmap_foldl_insert `{Countable K} {A V W} (key : A → K) (v : A → V) (f : V → W) l
    (acc : gmap K V) :
  f <$> foldl (λ m x, <[key x := v x]> m) acc l =
  foldl (λ m x, <[key x := f (v x)]> m) (f <$> acc) l.
Proof.
  revert acc. induction l as [|x l IH]; intros acc; simpl; [done|]. by rewrite IH, fmap_insert.
Qed.

Create HintDb wf.
Create HintDb keys.
#[export] Hint Resolve is_array_zero : wf.
