(* ===== verification/GoLib.v ===== *)
(** * The parts of Go and of its standard library the program uses

    Fixed-width integers, [encoding/binary], [encoding/hex], [bytes.Compare],
    [sort.SliceStable] on digests, [copy], and [time.Date(...).UnixMilli()]. *)

From stdpp Require Import sorting base strings numbers pretty gmap list.
From S2P Require Import Prelude.

Local Open Scope Z_scope.

(** ** Integers of a fixed width *)
Definition uint8 (x : Z) : Z := x mod 2 ^ 8.
Definition uint16 (x : Z) : Z := x mod 2 ^ 16.
Definition uint32 (x : Z) : Z := x mod 2 ^ 32.
Definition uint64 (x : Z) : Z := x mod 2 ^ 64.
Definition int32 (x : Z) : Z := (x + 2 ^ 31) mod 2 ^ 32 - 2 ^ 31.
Definition int64 (x : Z) : Z := (x + 2 ^ 63) mod 2 ^ 64 - 2 ^ 63.

(** ** encoding/binary *)
Fixpoint le_bytes (n : nat) (x : Z) : bytes :=
  match n with
  | O => []
  | S n => x mod 256 :: le_bytes n (x / 256)
  end.

Fixpoint le_value (b : bytes) : Z :=
  match b with
  | [] => 0
  | x :: b => x + 256 * le_value b
  end.

Definition be_bytes (n : nat) (x : Z) : bytes := reverse (le_bytes n x).
Definition be_value (b : bytes) : Z := le_value (reverse b).

(** [binary.LittleEndian.PutUint32] into a fresh 4-byte slice, and
    [binary.BigEndian.AppendUint32]/[AppendUint64]. *)
Definition LittleEndian_PutUint32 (x : Z) : bytes := le_bytes 4 x.
Definition BigEndian_AppendUint32 (b : bytes) (x : Z) : bytes := b ++ be_bytes 4 x.
Definition BigEndian_AppendUint64 (b : bytes) (x : Z) : bytes := b ++ be_bytes 8 x.

(** The readers panic on a slice that is too short. *)
Definition LittleEndian_Uint32 (b : bytes) : outcome Z :=
  if decide (4 ≤ length b)%nat then Ok (le_value (take 4 b)) else Panic.
Definition BigEndian_Uint32 (b : bytes) : outcome Z :=
  if decide (4 ≤ length b)%nat then Ok (be_value (take 4 b)) else Panic.
Definition BigEndian_Uint64 (b : bytes) : outcome Z :=
  if decide (8 ≤ length b)%nat then Ok (be_value (take 8 b)) else Panic.

(** ** strconv: decimal digits *)
Definition strconv_FormatUint (x : Z) : string := pretty (Z.to_N x).

(** ** Strings as byte slices *)
Fixpoint string_bytes (s : string) : bytes :=
  match s with
  | EmptyString => []
  | String c s => Z.of_N (Ascii.N_of_ascii c) :: string_bytes s
  end.

Fixpoint bytes_string (b : bytes) : string :=
  match b with
  | [] => EmptyString
  | x :: b => String (Ascii.ascii_of_N (Z.to_N x)) (bytes_string b)
  end.

(** ** encoding/hex *)
Definition hex_digit (x : Z) : Z := if bool_decide (x < 10) then 48 + x else 87 + x.

Definition hex_value (c : Z) : option Z :=
  if bool_decide (48 ≤ c ≤ 57) then Some (c - 48)
  else if bool_decide (97 ≤ c ≤ 102) then Some (c - 87)
  else if bool_decide (65 ≤ c ≤ 70) then Some (c - 55)
  else None.

Fixpoint hex_encode (b : bytes) : bytes :=
  match b with
  | [] => []
  | x :: b => hex_digit (x / 16) :: hex_digit (x mod 16) :: hex_encode b
  end.

Fixpoint hex_decode (b : bytes) : option bytes :=
  match b with
  | [] => Some []
  | [_] => None
  | h :: l :: b =>
      match hex_value h, hex_value l, hex_decode b with
      | Some h, Some l, Some r => Some (16 * h + l :: r)
      | _, _, _ => None
      end
  end.

Definition hex_EncodeToString (b : bytes) : string := bytes_string (hex_encode b).
Definition hex_DecodeString (s : string) : outcome bytes :=
  match hex_decode (string_bytes s) with
  | Some b => Ok b
  | None => Err (ErrorString "encoding/hex: invalid input")
  end.

(** ** Comparing and sorting byte slices *)
Fixpoint bytes_Compare (a b : bytes) : comparison :=
  match a, b with
  | [], [] => Eq
  | [], _ :: _ => Lt
  | _ :: _, [] => Gt
  | x :: a, y :: b =>
      match Z.compare x y with
      | Eq => bytes_Compare a b
      | c => c
      end
  end.

Definition bytes_lt (a b : bytes) : Prop := bytes_Compare a b = Lt.
Definition bytes_le (a b : bytes) : Prop := bytes_Compare a b ≠ Gt.

#[export] Instance comparison_eq_dec : EqDecision comparison.
Proof. solve_decision. Defined.
#[export] Instance bytes_lt_dec : RelDecision bytes_lt.
Proof. intros a b. unfold bytes_lt. apply _. Defined.
#[export] Instance bytes_le_dec : RelDecision bytes_le.
Proof. intros a b. unfold bytes_le. apply _. Defined.

(** [sort.SliceStable(s, bytes.Compare(s[i], s[j]) == -1)]: equal slices are
    indistinguishable values, so the sorted arrangement is unique. *)
Definition sort_bytes (l : list bytes) : list bytes := merge_sort bytes_le l.

(** ** copy *)
Definition copy_into {A} (dst src : list A) : list A :=
  take (length dst) src ++ drop (length src) dst.

(** ** time.Date(y, m, d, h, mi, s, 0, time.UTC).UnixMilli()

    Months outside 1..12 carry into the year; days, hours, minutes and seconds
    outside their range carry upwards, which makes the result linear in them. *)
Definition is_leap (y : Z) : bool :=
  (y mod 4 =? 0) && (negb (y mod 100 =? 0) || (y mod 400 =? 0)).

(** Days from 0001-01-01 to January 1st of year [y]. *)
Definition days_before_year (y : Z) : Z :=
  365 * (y - 1) + (y - 1) / 4 - (y - 1) / 100 + (y - 1) / 400.

(** Days before month [m] (0-based) in a year that is not a leap year. *)
Definition days_before_month (m : Z) : Z :=
  nth (Z.to_nat m) [0; 31; 59; 90; 120; 151; 181; 212; 243; 273; 304; 334] 0.

Definition unix_epoch_days : Z := 719162.

Definition date_days (year month day : Z) : Z :=
  let m := month - 1 in
  let y := year + m / 12 in
  let m' := m mod 12 in
  days_before_year y + days_before_month m' +
  (if is_leap y && (2 <=? m') then 1 else 0) + (day - 1) - unix_epoch_days.

Definition time_Date_UnixMilli (year month day hour minute sec : Z) : Z :=
  (date_days year month day * 86400 + hour * 3600 + minute * 60 + sec) * 1000.

(** ** Lemmas: fixed-width integers *)
Lemma uint32_small x : 0 ≤ x < 2 ^ 32 → uint32 x = x.
Proof. intros. by apply Z.mod_small. Qed.

Lemma uint64_small x : 0 ≤ x < 2 ^ 64 → uint64 x = x.
Proof. intros. by apply Z.mod_small. Qed.

Lemma uint16_small x : 0 ≤ x < 2 ^ 16 → uint16 x = x.
Proof. intros. by apply Z.mod_small. Qed.

Lemma int32_bounds x : - 2 ^ 31 ≤ int32 x < 2 ^ 31.
Proof. unfold int32. pose proof (Z.mod_pos_bound (x + 2 ^ 31) (2 ^ 32) ltac:(lia)). lia. Qed.

Lemma int32_small x : - 2 ^ 31 ≤ x < 2 ^ 31 → int32 x = x.
Proof. intros. unfold int32. rewrite Z.mod_small; lia. Qed.

Lemma int64_small x : - 2 ^ 63 ≤ x < 2 ^ 63 → int64 x = x.
Proof. intros. unfold int64. rewrite Z.mod_small; lia. Qed.

(** ** Lemmas: little and big endian *)
Lemma length_le_bytes n x : length (le_bytes n x) = n.
Proof. revert x. induction n; intros; simpl; auto. Qed.

Lemma length_be_bytes n x : length (be_bytes n x) = n.
Proof. unfold be_bytes. by rewrite length_reverse, length_le_bytes. Qed.

Lemma wf_le_bytes n x : wf_bytes (le_bytes n x).
Proof.
  revert x. induction n; intros x; simpl; constructor.
  - apply Z.mod_pos_bound. lia.
  - apply IHn.
Qed.

Lemma wf_reverse b : wf_bytes b → wf_bytes (reverse b).
Proof. unfold wf_bytes. intros. by apply Forall_reverse. Qed.

Lemma wf_be_bytes n x : wf_bytes (be_bytes n x).
Proof. apply wf_reverse, wf_le_bytes. Qed.

Lemma le_value_le_bytes n x :
  0 ≤ x < 256 ^ Z.of_nat n → le_value (le_bytes n x) = x.
Proof.
  revert x. induction n as [|n IH]; intros x Hx; simpl.
  - simpl in Hx. lia.
  - rewrite IH.
    + pose proof (Z.div_mod x 256 ltac:(lia)). lia.
    + rewrite Nat2Z.inj_succ, Z.pow_succ_r in Hx by lia.
      split; [apply Z.div_pos; lia|]. apply Z.div_lt_upper_bound; lia.
Qed.

Lemma le_bytes_le_value b : wf_bytes b → le_bytes (length b) (le_value b) = b.
Proof.
  induction 1 as [|x b Hx Hb IH]; simpl; [done|].
  replace (x + 256 * le_value b) with (le_value b * 256 + x) by lia.
  rewrite Z.div_add_l, (Z.div_small x), Z.add_0_r, IH by lia.
  rewrite Z.add_comm, Z.mod_add, Z.mod_small by lia. done.
Qed.

Lemma le_value_bound b : wf_bytes b → 0 ≤ le_value b < 256 ^ Z.of_nat (length b).
Proof.
  induction 1 as [|x b Hx Hb IH]; simpl length; [simpl; lia|].
  rewrite Nat2Z.inj_succ, Z.pow_succ_r by lia. simpl. lia.
Qed.

Lemma be_value_be_bytes n x :
  0 ≤ x < 256 ^ Z.of_nat n → be_value (be_bytes n x) = x.
Proof. intros. unfold be_value, be_bytes. by rewrite reverse_involutive, le_value_le_bytes. Qed.

Lemma be_value_bound b : wf_bytes b → 0 ≤ be_value b < 256 ^ Z.of_nat (length b).
Proof.
  intros H. unfold be_value. rewrite <-(length_reverse b). by apply le_value_bound, wf_reverse.
Qed.

Lemma le_bytes_inj n x y :
  0 ≤ x < 256 ^ Z.of_nat n → 0 ≤ y < 256 ^ Z.of_nat n → le_bytes n x = le_bytes n y → x = y.
Proof.
  intros Hx Hy H. by rewrite <-(le_value_le_bytes n x), <-(le_value_le_bytes n y), H.
Qed.

Lemma be_bytes_inj n x y :
  0 ≤ x < 256 ^ Z.of_nat n → 0 ≤ y < 256 ^ Z.of_nat n → be_bytes n x = be_bytes n y → x = y.
Proof.
  intros Hx Hy H. by rewrite <-(be_value_be_bytes n x), <-(be_value_be_bytes n y), H.
Qed.

Lemma be_bytes_S n x : be_bytes (S n) x = be_bytes n (x / 256) ++ [x mod 256].
Proof. unfold be_bytes. simpl le_bytes. by rewrite reverse_cons. Qed.

(** ** Lemmas: bytes.Compare is a total order *)
Lemma bytes_Compare_refl a : bytes_Compare a a = Eq.
Proof. induction a; simpl; [done|]. by rewrite Z.compare_refl. Qed.

Lemma bytes_Compare_eq a b : bytes_Compare a b = Eq ↔ a = b.
Proof.
  split; [|intros ->; apply bytes_Compare_refl].
  revert b. induction a as [|x a IH]; intros [|y b]; simpl; try done.
  destruct (Z.compare_spec x y); try done. intros ->%IH. by subst.
Qed.

Lemma bytes_Compare_antisym a b : bytes_Compare b a = CompOpp (bytes_Compare a b).
Proof.
  revert b. induction a as [|x a IH]; intros [|y b]; simpl; try done.
  rewrite (Z.compare_antisym x y). destruct (Z.compare x y); simpl; auto.
Qed.

Lemma bytes_Compare_lt_trans a b c :
  bytes_Compare a b = Lt → bytes_Compare b c = Lt → bytes_Compare a c = Lt.
Proof.
  revert b c. induction a as [|x a IH]; intros [|y b] [|z c]; simpl; try done.
  destruct (Z.compare_spec x y), (Z.compare_spec y z); intros; subst; try done.
  - rewrite Z.compare_refl. eauto.
  - by rewrite (proj2 (Z.compare_lt_iff _ _)).
  - by rewrite (proj2 (Z.compare_lt_iff _ _)).
  - rewrite (proj2 (Z.compare_lt_iff _ _)); [done|lia].
Qed.

#[export] Instance bytes_lt_trans : Transitive bytes_lt.
Proof. intros a b c. apply bytes_Compare_lt_trans. Qed.

#[export] Instance bytes_lt_irrefl : Irreflexive bytes_lt.
Proof. intros a. unfold bytes_lt, complement. by rewrite bytes_Compare_refl. Qed.

Lemma bytes_le_lt_or_eq a b : bytes_le a b ↔ bytes_lt a b ∨ a = b.
Proof.
  unfold bytes_le, bytes_lt. rewrite <-bytes_Compare_eq.
  destruct (bytes_Compare a b); naive_solver.
Qed.

#[export] Instance bytes_le_refl : Reflexive bytes_le.
Proof. intros a. unfold bytes_le. by rewrite bytes_Compare_refl. Qed.

#[export] Instance bytes_le_trans : Transitive bytes_le.
Proof.
  intros a b c. rewrite !bytes_le_lt_or_eq.
  intros [?|<-] [?|<-]; eauto. left. by etrans.
Qed.

#[export] Instance bytes_le_antisym : AntiSymm (=) bytes_le.
Proof.
  intros a b. unfold bytes_le. rewrite (bytes_Compare_antisym a b), <-bytes_Compare_eq.
  destruct (bytes_Compare a b); naive_solver.
Qed.

#[export] Instance bytes_le_total : Total bytes_le.
Proof.
  intros a b. unfold bytes_le. rewrite (bytes_Compare_antisym a b).
  destruct (bytes_Compare a b); naive_solver.
Qed.

Lemma bytes_le_not_lt a b : bytes_le a b ↔ ¬ bytes_lt b a.
Proof.
  unfold bytes_le, bytes_lt. rewrite (bytes_Compare_antisym a b).
  destruct (bytes_Compare a b); naive_solver.
Qed.

Lemma bytes_Compare_app a b c d : length a = length b →
  bytes_Compare (a ++ c) (b ++ d) =
  match bytes_Compare a b with Eq => bytes_Compare c d | r => r end.
Proof.
  revert b. induction a as [|x a IH]; intros [|y b]; simpl; intros H; try done.
  destruct (Z.compare x y); [|done..]. apply IH. lia.
Qed.

Lemma bytes_Compare_prefix p a b : bytes_Compare (p ++ a) (p ++ b) = bytes_Compare a b.
Proof. by rewrite bytes_Compare_app, bytes_Compare_refl. Qed.

(** Big-endian keys sort in numeric order. *)
Lemma be_bytes_Compare n x y :
  0 ≤ x < 256 ^ Z.of_nat n → 0 ≤ y < 256 ^ Z.of_nat n →
  bytes_Compare (be_bytes n x) (be_bytes n y) = Z.compare x y.
Proof.
  revert x y. induction n as [|n IH]; intros x y Hx Hy.
  - simpl in Hx, Hy. assert (x = 0) as -> by lia. assert (y = 0) as -> by lia. done.
  - rewrite Nat2Z.inj_succ, Z.pow_succ_r in Hx, Hy by lia.
    rewrite !be_bytes_S, bytes_Compare_app, IH by
      (rewrite ?length_be_bytes; done ||
       (split; [apply Z.div_pos|apply Z.div_lt_upper_bound]; lia)).
    pose proof (Z.div_mod x 256 ltac:(lia)). pose proof (Z.div_mod y 256 ltac:(lia)).
    pose proof (Z.mod_pos_bound x 256 ltac:(lia)). pose proof (Z.mod_pos_bound y 256 ltac:(lia)).
    simpl.
    destruct (Z.compare_spec (x / 256) (y / 256)), (Z.compare_spec (x mod 256) (y mod 256));
      symmetry; (apply Z.compare_eq_iff || apply Z.compare_lt_iff || apply Z.compare_gt_iff); lia.
Qed.

Lemma sort_bytes_perm l : sort_bytes l ≡ₚ l.
Proof. apply merge_sort_Permutation. Qed.

(** The order in which the digests arrive does not matter. *)
Lemma sort_bytes_unique l k : l ≡ₚ k → sort_bytes l = sort_bytes k.
Proof.
  intros H. apply (StronglySorted_unique bytes_le).
  - apply (StronglySorted_merge_sort _ _).
  - apply (StronglySorted_merge_sort _ _).
  - by rewrite !sort_bytes_perm.
Qed.

(** ** Lemmas: strings *)
Lemma bytes_string_bytes s : bytes_string (string_bytes s) = s.
Proof.
  induction s as [|c s IH]; simpl; [done|].
  by rewrite N2Z.id, Ascii.ascii_N_embedding, IH.
Qed.

Lemma string_bytes_string b : wf_bytes b → string_bytes (bytes_string b) = b.
Proof.
  induction 1 as [|x b Hx Hb IH]; simpl; [done|].
  rewrite Ascii.N_ascii_embedding, IH by lia. f_equal. lia.
Qed.

#[export] Instance string_bytes_inj : Inj (=) (=) string_bytes.
Proof. intros s t H. by rewrite <-(bytes_string_bytes s), H, bytes_string_bytes. Qed.

Lemma wf_string_bytes s : wf_bytes (string_bytes s).
Proof.
  induction s as [|c s IH]; simpl; constructor; [|done].
  pose proof (Ascii.N_ascii_bounded c). lia.
Qed.

Lemma length_string_bytes s : length (string_bytes s) = String.length s.
Proof. induction s; simpl; auto. Qed.

(** ** Lemmas: hex *)
Lemma hex_value_digit x : 0 ≤ x < 16 → hex_value (hex_digit x) = Some x.
Proof.
  intros Hx. unfold hex_digit, hex_value.
  repeat (case_bool_decide; try lia); f_equal; lia.
Qed.

Lemma hex_digit_bound x : 0 ≤ x < 16 → 0 ≤ hex_digit x < 256.
Proof. intros. unfold hex_digit. case_bool_decide; lia. Qed.

Lemma nibbles x : 0 ≤ x < 256 → 0 ≤ x / 16 < 16 ∧ 0 ≤ x mod 16 < 16 ∧ 16 * (x / 16) + x mod 16 = x.
Proof.
  intros. pose proof (Z.div_mod x 16 ltac:(lia)). pose proof (Z.mod_pos_bound x 16 ltac:(lia)). lia.
Qed.

Lemma wf_hex_encode b : wf_bytes b → wf_bytes (hex_encode b).
Proof.
  induction 1 as [|x b Hx Hb IH]; simpl; [constructor|].
  destruct (nibbles x Hx) as (?&?&?). repeat constructor; auto; by apply hex_digit_bound.
Qed.

Lemma hex_decode_encode b : wf_bytes b → hex_decode (hex_encode b) = Some b.
Proof.
  induction 1 as [|x b Hx Hb IH]; simpl; [done|].
  destruct (nibbles x Hx) as (?&?&?). rewrite !hex_value_digit, IH by done. by f_equal; f_equal.
Qed.

(** Decoding what was encoded gives the bytes back. *)
Lemma hex_DecodeString_EncodeToString b :
  wf_bytes b → hex_DecodeString (hex_EncodeToString b) = Ok b.
Proof.
  intros H. unfold hex_DecodeString, hex_EncodeToString.
  by rewrite string_bytes_string, hex_decode_encode by auto using wf_hex_encode.
Qed.

Lemma hex_EncodeToString_inj a b : wf_bytes a → wf_bytes b →
  hex_EncodeToString a = hex_EncodeToString b → a = b.
Proof.
  intros Ha Hb H. apply (f_equal hex_DecodeString) in H.
  rewrite !hex_DecodeString_EncodeToString in H by done. by injection H.
Qed.

(** ** Lemmas: copy *)
Lemma length_copy_into {A} (dst src : list A) : length (copy_into dst src) = length dst.
Proof. unfold copy_into. rewrite length_app, length_take, length_drop. lia. Qed.

Lemma copy_into_full {A} (dst src : list A) : length src = length dst → copy_into dst src = src.
Proof.
  intros H. unfold copy_into. rewrite take_ge, drop_ge by lia. by rewrite app_nil_r.
Qed.

(** ** Lemmas: structures written field by field

    Two serializations are equal when they agree field by field. *)
Definition fits (n : nat) (x : Z) : Prop := 0 ≤ x < 256 ^ Z.of_nat n.

Lemma field_int_inj n x y a b : fits n x → fits n y →
  le_bytes n x ++ a = le_bytes n y ++ b → x = y ∧ a = b.
Proof.
  intros Hx Hy H. apply app_inj_1 in H as [H ?]; [|by rewrite !length_le_bytes].
  split; [by apply (le_bytes_inj n)|done].
Qed.

Lemma field_array_inj n (x y a b : bytes) : is_array n x → is_array n y →
  x ++ a = y ++ b → x = y ∧ a = b.
Proof. intros [Hx _] [Hy _]. apply app_inj_1. congruence. Qed.

Ltac field_inj H :=
  first [ apply field_int_inj in H; [destruct H as [? H]|done|done]
        | eapply field_array_inj in H; [destruct H as [? H]|eassumption|eassumption] ].

Create Rewrite HintDb golen.
#[export] Hint Rewrite length_le_bytes length_be_bytes @length_copy_into length_string_bytes : golen.
#[export] Hint Resolve wf_le_bytes wf_be_bytes wf_string_bytes wf_hex_encode : wf.
