(* ===== verification/Base64.v ===== *)
(** * encoding/base64: the standard encoding, with padding

    [StdEncoding.DecodeString] skips line breaks, takes the rest in quanta of
    four characters, allows padding in the last one only and ignores its spare
    bits. *)

From stdpp Require Import sorting base strings numbers pretty gmap list.
From S2P Require Import Prelude GoLib.

Local Open Scope Z_scope.

Definition base64_digit (x : Z) : Z :=
  if bool_decide (x < 26) then 65 + x
  else if bool_decide (x < 52) then 71 + x
  else if bool_decide (x < 62) then x - 4
  else if bool_decide (x = 62) then 43 else 47.

Definition base64_value (c : Z) : option Z :=
  if bool_decide (65 ≤ c ≤ 90) then Some (c - 65)
  else if bool_decide (97 ≤ c ≤ 122) then Some (c - 71)
  else if bool_decide (48 ≤ c ≤ 57) then Some (c + 4)
  else if bool_decide (c = 43) then Some 62
  else if bool_decide (c = 47) then Some 63 else None.

Definition base64_pad : Z := 61.

Definition line_break (c : Z) : Prop := c = 10 ∨ c = 13.

#[export] Instance line_break_dec c : Decision (line_break c).
Proof. unfold line_break. apply _. Defined.

Fixpoint base64_encode (l : bytes) : bytes :=
  match l with
  | [] => []
  | [x] => [base64_digit (x / 4); base64_digit (x mod 4 * 16); base64_pad; base64_pad]
  | [x; y] =>
      [base64_digit (x / 4); base64_digit (x mod 4 * 16 + y / 16);
       base64_digit (y mod 16 * 4); base64_pad]
  | x :: y :: z :: rest =>
      base64_digit (x / 4) :: base64_digit (x mod 4 * 16 + y / 16) ::
      base64_digit (y mod 16 * 4 + z / 64) :: base64_digit (z mod 64) :: base64_encode rest
  end.

(** Four characters to three bytes; a padded quantum is the last one. *)
Fixpoint base64_decode (l : bytes) : option bytes :=
  match l with
  | [] => Some []
  | c0 :: c1 :: c2 :: c3 :: rest =>
      x0 ← base64_value c0;
      x1 ← base64_value c1;
      let b0 := x0 * 4 + x1 / 16 in
      if bool_decide (c2 = base64_pad)
      then if bool_decide (c3 = base64_pad ∧ rest = []) then Some [b0] else None
      else
        x2 ← base64_value c2;
        let b1 := x1 mod 16 * 16 + x2 / 4 in
        if bool_decide (c3 = base64_pad)
        then if bool_decide (rest = []) then Some [b0; b1] else None
        else
          x3 ← base64_value c3;
          tail ← base64_decode rest;
          Some (b0 :: b1 :: x2 mod 4 * 64 + x3 :: tail)
  | _ => None
  end.

Definition base64_EncodeToString (b : bytes) : string := bytes_string (base64_encode b).

Definition base64_DecodeString (s : string) : outcome bytes :=
  match base64_decode (filter (λ c, ¬ line_break c) (string_bytes s)) with
  | Some b => Ok b
  | None => Err (ErrorString "illegal base64 data at input byte")
  end.

(** The capacity [DecodeString] allocates for an input of [n] characters. *)
Definition base64_DecodedLen (n : Z) : Z := n / 4 * 3.

(** ** Round trip *)
Lemma base64_value_digit x : 0 ≤ x < 64 → base64_value (base64_digit x) = Some x.
Proof.
  intros Hx. unfold base64_digit, base64_value. repeat case_bool_decide; f_equal; lia.
Qed.

Lemma base64_digit_range x : 0 ≤ x < 64 → 43 ≤ base64_digit x ≤ 122 ∧ base64_digit x ≠ base64_pad.
Proof. intros Hx. unfold base64_digit, base64_pad. repeat case_bool_decide; lia. Qed.

(** Induction over quanta of three bytes. *)
Lemma quanta_ind (Q : bytes → Prop) : Q [] → (∀ x, Q [x]) → (∀ x y, Q [x; y]) →
  (∀ x y z l, Q l → Q (x :: y :: z :: l)) → ∀ l, Q l.
Proof.
  intros H0 H1 H2 H3. fix IH 1. intros [|x [|y [|z l]]]; [done|apply H1|apply H2|apply H3, IH].
Qed.

(** The arithmetic of one quantum. *)
Lemma quantum x y : 0 ≤ x < 256 → 0 ≤ y < 256 →
  0 ≤ x / 4 < 64 ∧ 0 ≤ x mod 4 * 16 < 64 ∧ 0 ≤ x mod 4 * 16 + y / 16 < 64 ∧
  0 ≤ y mod 16 * 4 < 64 ∧ x / 4 * 4 + x mod 4 * 16 / 16 = x ∧
  x / 4 * 4 + (x mod 4 * 16 + y / 16) / 16 = x ∧
  (x mod 4 * 16 + y / 16) mod 16 * 16 + y mod 16 * 4 / 4 = y.
Proof. intros. Z.div_mod_to_equations. lia. Qed.

Lemma quantum_end x y z : 0 ≤ x < 256 → 0 ≤ y < 256 → 0 ≤ z < 256 →
  0 ≤ y mod 16 * 4 + z / 64 < 64 ∧ 0 ≤ z mod 64 < 64 ∧
  (x mod 4 * 16 + y / 16) mod 16 * 16 + (y mod 16 * 4 + z / 64) / 4 = y ∧
  (y mod 16 * 4 + z / 64) mod 4 * 64 + z mod 64 = z.
Proof. intros. Z.div_mod_to_equations. lia. Qed.

Lemma base64_decode_encode l : wf_bytes l → base64_decode (base64_encode l) = Some l.
Proof.
  induction l as [|x|x y|x y z l IH] using quanta_ind; unfold wf_bytes; rewrite ?Forall_cons.
  - done.
  - intros [Hx _]. destruct (quantum x 0 Hx) as (H0 & H1 & _ & _ & E0 & _); [done|].
    cbn [base64_encode base64_decode]. rewrite !base64_value_digit by done. cbn [mbind option_bind].
    rewrite !bool_decide_true by done. by rewrite E0.
  - intros (Hx & Hy & _). destruct (quantum x y Hx Hy) as (H0 & _ & H1 & H2 & _ & E0 & E1).
    cbn [base64_encode base64_decode]. rewrite !base64_value_digit by done. cbn [mbind option_bind].
    rewrite bool_decide_false by (by apply base64_digit_range).
    rewrite !bool_decide_true by done. by rewrite E0, E1.
  - intros (Hx & Hy & Hz & Hl). destruct (quantum x y Hx Hy) as (H0 & _ & H1 & _ & _ & E0 & _).
    destruct (quantum_end x y z Hx Hy Hz) as (H2 & H3 & E1 & E2).
    cbn [base64_encode base64_decode]. rewrite !base64_value_digit by done. cbn [mbind option_bind].
    rewrite !bool_decide_false by (by apply base64_digit_range).
    rewrite IH by done. cbn [mbind option_bind]. by rewrite E0, E1, E2.
Qed.

Lemma base64_encode_chars l : wf_bytes l → Forall (λ c, 43 ≤ c ≤ 122) (base64_encode l).
Proof.
  assert (Hd : ∀ x, 0 ≤ x < 64 → 43 ≤ base64_digit x ≤ 122) by (intros; by apply base64_digit_range).
  induction l as [|x|x y|x y z l IH] using quanta_ind; unfold wf_bytes; rewrite ?Forall_cons.
  - intros _. constructor.
  - intros [Hx _]. destruct (quantum x 0 Hx) as (H0 & H1 & _); [done|].
    cbn [base64_encode]. rewrite !Forall_cons. unfold base64_pad. auto 10 with lia.
  - intros (Hx & Hy & _). destruct (quantum x y Hx Hy) as (H0 & _ & H1 & H2 & _).
    cbn [base64_encode]. rewrite !Forall_cons. unfold base64_pad. auto 10 with lia.
  - intros (Hx & Hy & Hz & Hl). destruct (quantum x y Hx Hy) as (H0 & _ & H1 & _).
    destruct (quantum_end x y z Hx Hy Hz) as (H2 & H3 & _).
    cbn [base64_encode]. rewrite !Forall_cons. auto 10.
Qed.

Lemma base64_Decode_Encode l : wf_bytes l → base64_DecodeString (base64_EncodeToString l) = Ok l.
Proof.
  intros Hl. unfold base64_DecodeString, base64_EncodeToString.
  pose proof (base64_encode_chars l Hl) as Hc. rewrite Forall_forall in Hc.
  rewrite string_bytes_string by (unfold wf_bytes; rewrite Forall_forall; intros c Hin%Hc; lia).
  rewrite list_filter_all; [by rewrite base64_decode_encode|].
  unfold line_break. intros c Hin%Hc. lia.
Qed.

Lemma length_base64_encode l : (length (base64_encode l) = 4 * ((length l + 2) / 3))%nat.
Proof.
  induction l as [|x|x y|x y z l IH] using quanta_ind; [done..|].
  cbn [base64_encode length]. rewrite IH.
  replace (S (S (S (length l))) + 2)%nat with (1 * 3 + (length l + 2))%nat by lia.
  rewrite Nat.div_add_l by done. lia.
Qed.
