(* ===== verification/Types.v ===== *)
(** * Data: protobuf messages and node-connector structures

    Module [pb] holds the messages of [protobuff/archive.pb.go] the program
    builds, stores and returns; module [types] the structures of the
    go-node-connector package, with the fields the program reads.  Unsigned and
    signed integers are [Z]; the width of a field is stated where a theorem
    needs it.  A [map] field is a [gmap]; the one whose nil-ness the program
    depends on is an [option (gmap _ _)].  A field whose name would repeat a
    record's name ends in an underscore. *)

From stdpp Require Import sorting base strings numbers pretty gmap list.
From S2P Require Import Prelude.

Module pb.

Record ProcessedTick := MkProcessedTick {
  ProcessedTick_TickNumber : Z;
  ProcessedTick_Epoch : Z
}.
#[global] Instance ProcessedTick_eq_dec : EqDecision ProcessedTick.
Proof. solve_decision. Defined.

Record ProcessedTickInterval := MkProcessedTickInterval {
  ProcessedTickInterval_InitialProcessedTick : Z;
  ProcessedTickInterval_LastProcessedTick : Z
}.
#[global] Instance ProcessedTickInterval_eq_dec : EqDecision ProcessedTickInterval.
Proof. solve_decision. Defined.

Record ProcessedTickIntervalsPerEpoch := MkProcessedTickIntervalsPerEpoch {
  ProcessedTickIntervalsPerEpoch_Epoch : Z;
  ProcessedTickIntervalsPerEpoch_Intervals : list ProcessedTickInterval
}.
#[global] Instance ProcessedTickIntervalsPerEpoch_eq_dec : EqDecision ProcessedTickIntervalsPerEpoch.
Proof. solve_decision. Defined.

Record SkippedTicksInterval := MkSkippedTicksInterval {
  SkippedTicksInterval_StartTick : Z;
  SkippedTicksInterval_EndTick : Z
}.
#[global] Instance SkippedTicksInterval_eq_dec : EqDecision SkippedTicksInterval.
Proof. solve_decision. Defined.

Record SkippedTicksIntervalList := MkSkippedTicksIntervalList {
  SkippedTicksIntervalList_SkippedTicks : list SkippedTicksInterval
}.
#[global] Instance SkippedTicksIntervalList_eq_dec : EqDecision SkippedTicksIntervalList.
Proof. solve_decision. Defined.

Record TickData := MkTickData {
  TickData_ComputorIndex : Z;
  TickData_Epoch : Z;
  TickData_TickNumber : Z;
  TickData_Timestamp : Z;
  TickData_VarStruct : bytes;
  TickData_TimeLock : bytes;
  TickData_TransactionIds : list string;
  TickData_ContractFees : list Z;
  TickData_SignatureHex : string
}.
#[global] Instance TickData_eq_dec : EqDecision TickData.
Proof. solve_decision. Defined.

Record Transaction := MkTransaction {
  Transaction_SourceId : string;
  Transaction_DestId : string;
  Transaction_Amount : Z;
  Transaction_TickNumber : Z;
  Transaction_InputType : Z;
  Transaction_InputSize : Z;
  Transaction_InputHex : string;
  Transaction_SignatureHex : string;
  Transaction_TxId : string
}.
#[global] Instance Transaction_eq_dec : EqDecision Transaction.
Proof. solve_decision. Defined.

Record TransactionStatus := MkTransactionStatus {
  TransactionStatus_TxId : string;
  TransactionStatus_MoneyFlew : bool
}.
#[global] Instance TransactionStatus_eq_dec : EqDecision TransactionStatus.
Proof. solve_decision. Defined.

Record TickTransactionsStatus := MkTickTransactionsStatus {
  TickTransactionsStatus_Transactions : list TransactionStatus
}.
#[global] Instance TickTransactionsStatus_eq_dec : EqDecision TickTransactionsStatus.
Proof. solve_decision. Defined.

Record TransferTransactionsPerTick := MkTransferTransactionsPerTick {
  TransferTransactionsPerTick_TickNumber : Z;
  TransferTransactionsPerTick_Identity : string;
  TransferTransactionsPerTick_Transactions : list Transaction
}.
#[global] Instance TransferTransactionsPerTick_eq_dec : EqDecision TransferTransactionsPerTick.
Proof. solve_decision. Defined.

Record QuorumTickStructure := MkQuorumTickStructure {
  QuorumTickStructure_Epoch : Z;
  QuorumTickStructure_TickNumber : Z;
  QuorumTickStructure_Timestamp : Z;
  QuorumTickStructure_PrevResourceTestingDigestHex : string;
  QuorumTickStructure_PrevSpectrumDigestHex : string;
  QuorumTickStructure_PrevUniverseDigestHex : string;
  QuorumTickStructure_PrevComputerDigestHex : string;
  QuorumTickStructure_TxDigestHex : string;
  QuorumTickStructure_PrevTransactionBodyHex : string
}.
#[global] Instance QuorumTickStructure_eq_dec : EqDecision QuorumTickStructure.
Proof. solve_decision. Defined.

Record QuorumDiff := MkQuorumDiff {
  QuorumDiff_SaltedResourceTestingDigestHex : string;
  QuorumDiff_SaltedSpectrumDigestHex : string;
  QuorumDiff_SaltedUniverseDigestHex : string;
  QuorumDiff_SaltedComputerDigestHex : string;
  QuorumDiff_ExpectedNextTickTxDigestHex : string;
  QuorumDiff_SignatureHex : string;
  QuorumDiff_SaltedTransactionBodyHex : string
}.
#[global] Instance QuorumDiff_eq_dec : EqDecision QuorumDiff.
Proof. solve_decision. Defined.

Record QuorumTickData := MkQuorumTickData {
  QuorumTickData_QuorumTickStructure_ : QuorumTickStructure;
  QuorumTickData_QuorumDiffPerComputor : gmap Z QuorumDiff
}.
#[global] Instance QuorumTickData_eq_dec : EqDecision QuorumTickData.
Proof. solve_decision. Defined.

Record QuorumDiffStored := MkQuorumDiffStored {
  QuorumDiffStored_ExpectedNextTickTxDigestHex : string;
  QuorumDiffStored_SignatureHex : string
}.
#[global] Instance QuorumDiffStored_eq_dec : EqDecision QuorumDiffStored.
Proof. solve_decision. Defined.

Record QuorumTickDataStored := MkQuorumTickDataStored {
  QuorumTickDataStored_QuorumTickStructure_ : QuorumTickStructure;
  QuorumTickDataStored_QuorumDiffPerComputor : gmap Z QuorumDiffStored
}.
#[global] Instance QuorumTickDataStored_eq_dec : EqDecision QuorumTickDataStored.
Proof. solve_decision. Defined.

Record LastTickQuorumDataPerEpochIntervals := MkLastTickQuorumDataPerEpochIntervals {
  LastTickQuorumDataPerEpochIntervals_QuorumDataPerInterval : option (gmap Z QuorumTickData)
}.
#[global] Instance LastTickQuorumDataPerEpochIntervals_eq_dec : EqDecision LastTickQuorumDataPerEpochIntervals.
Proof. solve_decision. Defined.

Record Computors := MkComputors {
  Computors_Epoch : Z;
  Computors_Identities : list string;
  Computors_SignatureHex : string
}.
#[global] Instance Computors_eq_dec : EqDecision Computors.
Proof. solve_decision. Defined.

(** Parts of the RPC responses. *)

Record GetStatusResponse := MkGetStatusResponse {
  GetStatusResponse_LastProcessedTick : ProcessedTick;
  GetStatusResponse_LastProcessedTicksPerEpoch : gmap Z Z;
  GetStatusResponse_SkippedTicks : list SkippedTicksInterval;
  GetStatusResponse_ProcessedTickIntervalsPerEpoch_ : list ProcessedTickIntervalsPerEpoch;
  GetStatusResponse_EmptyTicksPerEpoch : gmap Z Z
}.
#[global] Instance GetStatusResponse_eq_dec : EqDecision GetStatusResponse.
Proof. solve_decision. Defined.

Record TransactionData := MkTransactionData {
  TransactionData_Transaction_ : Transaction;
  TransactionData_Timestamp : Z;
  TransactionData_MoneyFlew : bool
}.
#[global] Instance TransactionData_eq_dec : EqDecision TransactionData.
Proof. solve_decision. Defined.

Record PerTickIdentityTransfers := MkPerTickIdentityTransfers {
  PerTickIdentityTransfers_TickNumber : Z;
  PerTickIdentityTransfers_Identity : string;
  PerTickIdentityTransfers_Transactions : list TransactionData
}.
#[global] Instance PerTickIdentityTransfers_eq_dec : EqDecision PerTickIdentityTransfers.
Proof. solve_decision. Defined.

Record SendManyTransfer := MkSendManyTransfer {
  SendManyTransfer_DestId : string;
  SendManyTransfer_Amount : Z
}.
#[global] Instance SendManyTransfer_eq_dec : EqDecision SendManyTransfer.
Proof. solve_decision. Defined.

Record SendManyTransaction := MkSendManyTransaction {
  SendManyTransaction_SourceId : string;
  SendManyTransaction_TickNumber : Z;
  SendManyTransaction_Transfers : list SendManyTransfer;
  SendManyTransaction_TotalAmount : Z;
  SendManyTransaction_SignatureHex : string;
  SendManyTransaction_TxId : string
}.
#[global] Instance SendManyTransaction_eq_dec : EqDecision SendManyTransaction.
Proof. solve_decision. Defined.

Record SendManyTransactionData := MkSendManyTransactionData {
  SendManyTransactionData_Transaction_ : SendManyTransaction;
  SendManyTransactionData_Timestamp : Z;
  SendManyTransactionData_MoneyFlew : bool
}.
#[global] Instance SendManyTransactionData_eq_dec : EqDecision SendManyTransactionData.
Proof. solve_decision. Defined.

Record Pagination := MkPagination {
  Pagination_TotalRecords : Z;
  Pagination_CurrentPage : Z;
  Pagination_TotalPages : Z;
  Pagination_PageSize : Z;
  Pagination_NextPage : Z;
  Pagination_PreviousPage : Z
}.
#[global] Instance Pagination_eq_dec : EqDecision Pagination.
Proof. solve_decision. Defined.

Record TickStatus := MkTickStatus {
  TickStatus_TickNumber : Z;
  TickStatus_IsEmpty : bool
}.
#[global] Instance TickStatus_eq_dec : EqDecision TickStatus.
Proof. solve_decision. Defined.

(** The message with no field set, which is what an empty buffer decodes to. *)
Definition emptyTickData : TickData :=
  MkTickData 0%Z 0%Z 0%Z 0%Z [] [] [] [] EmptyString.

End pb.

Module types.

Record QuorumTickVote := MkQuorumTickVote {
  QuorumTickVote_ComputorIndex : Z;
  QuorumTickVote_Epoch : Z;
  QuorumTickVote_Tick : Z;
  QuorumTickVote_Millisecond : Z;
  QuorumTickVote_Second : Z;
  QuorumTickVote_Minute : Z;
  QuorumTickVote_Hour : Z;
  QuorumTickVote_Day : Z;
  QuorumTickVote_Month : Z;
  QuorumTickVote_Year : Z;
  QuorumTickVote_PreviousResourceTestingDigest : Z;
  QuorumTickVote_SaltedResourceTestingDigest : Z;
  QuorumTickVote_PreviousTransactionBodyDigest : Z;
  QuorumTickVote_SaltedTransactionBodyDigest : Z;
  QuorumTickVote_PreviousSpectrumDigest : bytes;
  QuorumTickVote_PreviousUniverseDigest : bytes;
  QuorumTickVote_PreviousComputerDigest : bytes;
  QuorumTickVote_SaltedSpectrumDigest : bytes;
  QuorumTickVote_SaltedUniverseDigest : bytes;
  QuorumTickVote_SaltedComputerDigest : bytes;
  QuorumTickVote_TxDigest : bytes;
  QuorumTickVote_ExpectedNextTickTxDigest : bytes;
  QuorumTickVote_Signature : bytes
}.
#[global] Instance QuorumTickVote_eq_dec : EqDecision QuorumTickVote.
Proof. solve_decision. Defined.

Record TickData := MkTickData {
  TickData_ComputorIndex : Z;
  TickData_Epoch : Z;
  TickData_Tick : Z;
  TickData_Millisecond : Z;
  TickData_Second : Z;
  TickData_Minute : Z;
  TickData_Hour : Z;
  TickData_Day : Z;
  TickData_Month : Z;
  TickData_Year : Z;
  TickData_Timelock : bytes;
  TickData_TransactionDigests : list bytes;
  TickData_ContractFees : list Z;
  TickData_Signature : bytes
}.
#[global] Instance TickData_eq_dec : EqDecision TickData.
Proof. solve_decision. Defined.

Record Transaction := MkTransaction {
  Transaction_SourcePublicKey : bytes;
  Transaction_DestinationPublicKey : bytes;
  Transaction_Amount : Z;
  Transaction_Tick : Z;
  Transaction_InputType : Z;
  Transaction_InputSize : Z;
  Transaction_Input : bytes;
  Transaction_Signature : bytes
}.
#[global] Instance Transaction_eq_dec : EqDecision Transaction.
Proof. solve_decision. Defined.

Record TransactionStatus := MkTransactionStatus {
  TransactionStatus_CurrentTickOfNode : Z;
  TransactionStatus_Tick : Z;
  TransactionStatus_TxCount : Z;
  TransactionStatus_MoneyFlew : bytes;
  TransactionStatus_TransactionDigests : list bytes
}.
#[global] Instance TransactionStatus_eq_dec : EqDecision TransactionStatus.
Proof. solve_decision. Defined.

Record Computors := MkComputors {
  Computors_Epoch : Z;
  Computors_PubKeys : list bytes;
  Computors_Signature : bytes
}.
#[global] Instance Computors_eq_dec : EqDecision Computors.
Proof. solve_decision. Defined.

Record TickInfo := MkTickInfo {
  TickInfo_Epoch : Z;
  TickInfo_Tick : Z;
  TickInfo_InitialTick : Z
}.
#[global] Instance TickInfo_eq_dec : EqDecision TickInfo.
Proof. solve_decision. Defined.

Record SystemInfo := MkSystemInfo {
  SystemInfo_Epoch : Z;
  SystemInfo_TargetTickVoteSignature : Z
}.
#[global] Instance SystemInfo_eq_dec : EqDecision SystemInfo.
Proof. solve_decision. Defined.

(** Assignments to one field of a structure held by value. *)
Definition QuorumTickVote_set_ComputorIndex (i : Z) (v : QuorumTickVote) : QuorumTickVote :=
  match v with
  | MkQuorumTickVote _ a b c d e f g h j k l m n o p q r s t u w x =>
      MkQuorumTickVote i a b c d e f g h j k l m n o p q r s t u w x
  end.

Definition TickData_set_Epoch (e : Z) (d : TickData) : TickData :=
  match d with
  | MkTickData a _ c d e' f g h i j k l m n => MkTickData a e c d e' f g h i j k l m n
  end.

Definition TickData_set_ComputorIndex (x : Z) (d : TickData) : TickData :=
  match d with
  | MkTickData _ b c d e' f g h i j k l m n => MkTickData x b c d e' f g h i j k l m n
  end.

End types.
