(* ===== verification/Platform.v ===== *)
(** * What the program gets from code outside the repository

    Each dependency is a class of operations, which the models take as a
    parameter, and a class of laws stating the documented behaviour the
    theorems rely on.  Nothing here is a definition of third-party code; file
    Concrete.v gives instances that satisfy every law. *)

From stdpp Require Import sorting base strings numbers pretty gmap list.
From S2P Require Import Prelude GoLib Types.

Local Open Scope Z_scope.

(** ** The Go runtime: map iteration order and slice growth

    [for k, v := range m] visits the entries in an unspecified order:
    [map_range] permutes the entry list.  [grow n] is the capacity [append]
    gives a slice it has to reallocate to hold [n] bytes. *)
Class GoRuntime := {
  map_range : ∀ {A : Type}, list A → list A;
  grow : nat → nat
}.

Class GoRuntimeLaws (R : GoRuntime) : Prop := {
  map_range_perm {A} (l : list A) : map_range l ≡ₚ l;
  grow_enough n : (n ≤ grow n)%nat
}.

(** ** cockroachdb/pebble: an ordered key-value store *)
Class Pebble := {
  DB : Type;
  db_Get : DB → bytes → outcome bytes;
  db_Set : DB → bytes → bytes → outcome DB;
  db_Delete : DB → bytes → outcome DB;
  Batch : Type;
  NewBatch : Batch;
  Batch_Set : Batch → bytes → bytes → outcome Batch;
  Batch_Commit : DB → Batch → outcome DB;
  (** [NewIter] with the lower (inclusive) and upper (exclusive) bound: the
      entries in key order, each with the result of [ValueAndErr]. *)
  db_NewIter : DB → bytes → bytes → outcome (list (bytes * outcome bytes))
}.

(** What a batch does to the contents: its writes in order, all of them. *)
Definition apply_writes (m : gmap bytes bytes) (ws : list (bytes * bytes)) : gmap bytes bytes :=
  foldl (λ m '(k, v), <[k := v]> m) m ws.

Definition in_range (lo hi k : bytes) : Prop := bytes_le lo k ∧ bytes_lt k hi.

(** [contents] is the set of stored pairs.  The sound laws hold for every
    database, also one whose operations may fail; a [healthy] one has no I/O
    failures. *)
Class PebbleLaws (P : Pebble) := {
  contents : DB → gmap bytes bytes;
  healthy : DB → Prop;
  batch_writes : Batch → list (bytes * bytes);
  db_Get_sound db k v : db_Get db k = Ok v → contents db !! k = Some v;
  db_Get_not_found db k e :
    db_Get db k = Err e → errors_Is e PebbleErrNotFound = true → contents db !! k = None;
  db_Set_sound db k v db' : db_Set db k v = Ok db' → contents db' = <[k := v]> (contents db);
  db_Delete_sound db k db' : db_Delete db k = Ok db' → contents db' = delete k (contents db);
  Batch_Set_sound b k v b' :
    Batch_Set b k v = Ok b' → batch_writes b' = batch_writes b ++ [(k, v)];
  NewBatch_writes : batch_writes NewBatch = [];
  Batch_Commit_sound db b db' :
    Batch_Commit db b = Ok db' → contents db' = apply_writes (contents db) (batch_writes b);
  db_Get_healthy db k : healthy db →
    db_Get db k = match contents db !! k with
                  | Some v => Ok v
                  | None => Err PebbleErrNotFound
                  end;
  db_Set_healthy db k v : healthy db → ∃ db', db_Set db k v = Ok db' ∧ healthy db';
  db_Delete_healthy db k : healthy db → ∃ db', db_Delete db k = Ok db' ∧ healthy db';
  Batch_Set_total b k v : ∃ b', Batch_Set b k v = Ok b';
  Batch_Commit_healthy db b : healthy db → ∃ db', Batch_Commit db b = Ok db' ∧ healthy db';
  db_NewIter_healthy db lo hi : healthy db →
    ∃ l, db_NewIter db lo hi = Ok ((λ '(k, v), (k, Ok v)) <$> l) ∧
         StronglySorted bytes_lt l.*1 ∧
         (∀ k v, (k, v) ∈ l ↔ contents db !! k = Some v ∧ in_range lo hi k)
}.

(** ** google.golang.org/protobuf: marshalling *)
Class ProtoMsg (A : Type) := {
  Marshal : A → outcome bytes;
  (** [Marshal] of a nil message pointer *)
  Marshal_nil : outcome bytes;
  Unmarshal : bytes → outcome A;
  proto_Equal : A → A → bool
}.

(** [proto_valid]: integers within their field's width and strings in UTF-8;
    a message of Go whose strings are not is refused by [Marshal], and
    [Unmarshal] yields no such message.
    [proto_norm]: decoding yields the same message, an empty map being nil.
    [proto_zero]: the message with no field set; a nil message is marshalled as
    it, to the empty buffer. *)
Class ProtoLaws (A : Type) `{ProtoMsg A} := {
  proto_zero : A;
  proto_valid : A → Prop;
  proto_norm : A → A;
  Marshal_valid m : proto_valid m → ∃ b, Marshal m = Ok b;
  Marshal_refuses m b : Marshal m = Ok b → proto_valid m;
  Unmarshal_valid b m : Unmarshal b = Ok m → proto_valid m;
  Unmarshal_Marshal m b : proto_valid m → Marshal m = Ok b → Unmarshal b = Ok (proto_norm m);
  Marshal_zero : Marshal proto_zero = Ok [];
  Marshal_nil_ok : Marshal_nil = Ok [];
  proto_zero_valid : proto_valid proto_zero;
  proto_norm_zero : proto_norm proto_zero = proto_zero;
  proto_Equal_spec a b : proto_Equal a b = true ↔ a = b
}.

Class Protobuf := {
  #[export] ProcessedTick_msg :: ProtoMsg pb.ProcessedTick;
  #[export] ProcessedTickIntervalsPerEpoch_msg :: ProtoMsg pb.ProcessedTickIntervalsPerEpoch;
  #[export] SkippedTicksIntervalList_msg :: ProtoMsg pb.SkippedTicksIntervalList;
  #[export] TickData_msg :: ProtoMsg pb.TickData;
  #[export] Transaction_msg :: ProtoMsg pb.Transaction;
  #[export] TransactionStatus_msg :: ProtoMsg pb.TransactionStatus;
  #[export] TickTransactionsStatus_msg :: ProtoMsg pb.TickTransactionsStatus;
  #[export] TransferTransactionsPerTick_msg :: ProtoMsg pb.TransferTransactionsPerTick;
  #[export] QuorumTickDataStored_msg :: ProtoMsg pb.QuorumTickDataStored;
  #[export] LastTickQuorumDataPerEpochIntervals_msg ::
    ProtoMsg pb.LastTickQuorumDataPerEpochIntervals;
  #[export] Computors_msg :: ProtoMsg pb.Computors
}.

Definition is_uint32 (x : Z) : Prop := 0 ≤ x < 2 ^ 32.

Definition valid_interval (i : pb.ProcessedTickInterval) : Prop :=
  is_uint32 (pb.ProcessedTickInterval_InitialProcessedTick i) ∧
  is_uint32 (pb.ProcessedTickInterval_LastProcessedTick i).

Definition valid_skipped (i : pb.SkippedTicksInterval) : Prop :=
  is_uint32 (pb.SkippedTicksInterval_StartTick i) ∧
  is_uint32 (pb.SkippedTicksInterval_EndTick i).

(** Messages without strings are valid as soon as their integers are. *)
Class ProtobufLaws (P : Protobuf) := {
  #[export] ProcessedTick_laws :: ProtoLaws pb.ProcessedTick;
  #[export] ProcessedTickIntervalsPerEpoch_laws :: ProtoLaws pb.ProcessedTickIntervalsPerEpoch;
  #[export] SkippedTicksIntervalList_laws :: ProtoLaws pb.SkippedTicksIntervalList;
  #[export] TickData_laws :: ProtoLaws pb.TickData;
  #[export] Transaction_laws :: ProtoLaws pb.Transaction;
  #[export] TransactionStatus_laws :: ProtoLaws pb.TransactionStatus;
  #[export] TickTransactionsStatus_laws :: ProtoLaws pb.TickTransactionsStatus;
  #[export] TransferTransactionsPerTick_laws :: ProtoLaws pb.TransferTransactionsPerTick;
  #[export] QuorumTickDataStored_laws :: ProtoLaws pb.QuorumTickDataStored;
  #[export] LastTickQuorumDataPerEpochIntervals_laws ::
    ProtoLaws pb.LastTickQuorumDataPerEpochIntervals;
  #[export] Computors_laws :: ProtoLaws pb.Computors;
  ProcessedTick_valid t e :
    is_uint32 t → is_uint32 e → proto_valid (pb.MkProcessedTick t e);
  ProcessedTickIntervalsPerEpoch_valid e l :
    is_uint32 e → Forall valid_interval l → proto_valid (pb.MkProcessedTickIntervalsPerEpoch e l);
  SkippedTicksIntervalList_valid l :
    Forall valid_skipped l → proto_valid (pb.MkSkippedTicksIntervalList l);
  (** Only a map field distinguishes nil from empty. *)
  ProcessedTick_norm (m : pb.ProcessedTick) : proto_norm m = m;
  ProcessedTickIntervalsPerEpoch_norm (m : pb.ProcessedTickIntervalsPerEpoch) : proto_norm m = m;
  SkippedTicksIntervalList_norm (m : pb.SkippedTicksIntervalList) : proto_norm m = m;
  TickData_norm (m : pb.TickData) : proto_norm m = m;
  Transaction_norm (m : pb.Transaction) : proto_norm m = m;
  TransactionStatus_norm (m : pb.TransactionStatus) : proto_norm m = m;
  TickTransactionsStatus_norm (m : pb.TickTransactionsStatus) : proto_norm m = m;
  TransferTransactionsPerTick_norm (m : pb.TransferTransactionsPerTick) : proto_norm m = m;
  QuorumTickDataStored_norm (m : pb.QuorumTickDataStored) : proto_norm m = m;
  Computors_norm (m : pb.Computors) : proto_norm m = m;
  LastTickQuorumDataPerEpochIntervals_norm (o : option (gmap Z pb.QuorumTickData)) :
    proto_norm (pb.MkLastTickQuorumDataPerEpochIntervals o) =
    pb.MkLastTickQuorumDataPerEpochIntervals
      (match o with Some m => if decide (m = ∅) then None else Some m | None => None end);
  TickData_zero_eq : proto_zero = pb.emptyTickData;
  (** A map field is valid when its keys and values are. *)
  LastTickQuorumDataPerEpochIntervals_insert_valid m i j q : - 2 ^ 31 ≤ i < 2 ^ 31 →
    proto_valid (pb.MkLastTickQuorumDataPerEpochIntervals (Some m)) →
    proto_valid (pb.MkLastTickQuorumDataPerEpochIntervals (Some {[j := q]})) →
    proto_valid (pb.MkLastTickQuorumDataPerEpochIntervals (Some (<[i := q]> m)));
  LastTickQuorumDataPerEpochIntervals_empty_valid :
    proto_valid (pb.MkLastTickQuorumDataPerEpochIntervals (Some ∅))
}.

(** ** cloudflare/circl/xof/k12: the KangarooTwelve hash *)
Class K12 := {
  k12_state : Type;
  k12_NewDraft10 : bytes → k12_state;
  k12_Write : k12_state → bytes → outcome k12_state;
  k12_Read : k12_state → nat → outcome bytes
}.

Class K12Laws (K : K12) : Prop := {
  k12_Write_total s b : ∃ s', k12_Write s b = Ok s';
  k12_Read_total s n : ∃ out, k12_Read s n = Ok out ∧ is_array n out
}.

(** ** qubic/go-node-connector/v2/types and schnorrq *)
Class NodeConnector := {
  NumberOfComputors : nat;
  MinimumQuorumVotes : nat;
  NumberOfTransactionsPerTick : nat;
  MaxNumberOfContracts : nat;
  QutilAddress : string;
  (** [FromPubKey(key, isLowerCase)] and [ToPubKey(isLowerCase)] *)
  Identity_FromPubKey : bytes → bool → outcome string;
  Identity_ToPubKey : string → bool → outcome bytes;
  Transaction_Digest : types.Transaction → outcome bytes;
  Transaction_ID : types.Transaction → outcome string;
  Transaction_MarshallBinary : types.Transaction → outcome bytes;
  TickData_IsEmpty : types.TickData → bool;
  (** [binary.Write] of the structures whose layout is the package's. *)
  QuorumTickVote_Write : types.QuorumTickVote → outcome bytes;
  TickData_Write : types.TickData → outcome bytes;
  Computors_Write : types.Computors → outcome bytes;
  SendManyTransferPayload : Type;
  SendMany_UnmarshallBinary : bytes → outcome SendManyTransferPayload;
  (** The transfers: destination identity and amount. *)
  SendMany_GetTransfers : SendManyTransferPayload → outcome (list (string * Z));
  SendMany_GetTotalAmount : SendManyTransferPayload → Z;
  schnorrq_Verify : bytes → bytes → bytes → outcome unit
}.

Class NodeConnectorLaws (N : NodeConnector) : Prop := {
  MinimumQuorumVotes_pos : (0 < MinimumQuorumVotes)%nat;
  Identity_FromPubKey_total pk lower : is_array 32 pk →
    ∃ id, Identity_FromPubKey pk lower = Ok id ∧ String.length id = 60%nat;
  Identity_ToPubKey_FromPubKey pk lower id : is_array 32 pk →
    Identity_FromPubKey pk lower = Ok id → Identity_ToPubKey id lower = Ok pk;
  (** A fixed-size structure is written without error. *)
  QuorumTickVote_Write_total v :
    ∃ b, QuorumTickVote_Write v = Ok b ∧ (64 ≤ length b)%nat;
  TickData_Write_total d : ∃ b, TickData_Write d = Ok b ∧ (64 ≤ length b)%nat;
  Computors_Write_total c : ∃ b, Computors_Write c = Ok b ∧ (64 ≤ length b)%nat
}.

(** ** qubic/go-node-connector/v2: the client of one node

    What the node answers to each request of one pass. *)
Record Client := {
  Client_GetTickInfo : outcome types.TickInfo;
  Client_GetQuorumVotes : Z → outcome (list types.QuorumTickVote);
  Client_GetComputors : outcome types.Computors;
  Client_GetSystemInfo : outcome types.SystemInfo;
  Client_GetTickData : Z → outcome types.TickData;
  Client_GetTickTransactions : Z → outcome (list types.Transaction);
  Client_GetTxStatus : Z → outcome types.TransactionStatus
}.

(** ** google.golang.org/grpc/status: attaching a detail to a status *)
Class GrpcStatus := {
  status_WithDetails : error → Z → outcome error
}.

Class GrpcStatusLaws (G : GrpcStatus) : Prop := {
  status_WithDetails_ok c msg d :
    status_WithDetails (StatusError c msg None) d = Ok (StatusError c msg (Some d))
}.

(** ** net/http: requests to other services, and encoding/json for the bodies
    the archiver decodes *)
Class HttpClient := {
  Request : Type;
  Response : Type;
  http_NewRequest : string → outcome Request;
  http_Do : Request → outcome Response;
  http_StatusCode : Response → Z;
  io_ReadAll : Response → outcome bytes;
  (** the [max_tick] field of the body of the health check *)
  json_max_tick : bytes → outcome Z;
  (** a body that lists transactions: [digest] and [moneyFlew] *)
  json_transactions : Response → outcome (list (string * bool))
}.
