(* ===== verification/Store.v ===== *)
(** * store/store.go: the archive's operations on the database

    Each operation is a computation [M DB] over the database: it returns a
    value, an error or a panic, and the database as it left it.  A returned
    pointer to a message is the message.  Error texts are the constant part of
    the source's format strings.  Contexts, closers and logging have no
    counterpart. *)

From stdpp Require Import sorting base strings numbers pretty gmap list.
From S2P Require Import Prelude GoLib Types Platform Keys.

Local Open Scope Z_scope.

(** ** Single database operations as computations *)
Section Operations.
Context {P : Pebble}.

Definition pebble_Get (key : bytes) : M DB bytes := λ db, (db_Get db key, db).

Definition pebble_NewIter (lower upper : bytes) : M DB (list (bytes * outcome bytes)) :=
  λ db, (db_NewIter db lower upper, db).

(** A write that fails leaves the database as it was. *)
Definition db_write (w : DB → outcome DB) : M DB unit := λ db,
  match w db with
  | Ok db' => (Ok tt, db')
  | Err e => (Err e, db)
  | Panic => (Panic, db)
  end.

Definition pebble_Set (key value : bytes) : M DB unit := db_write (λ db, db_Set db key value).
Definition pebble_Delete (key : bytes) : M DB unit := db_write (λ db, db_Delete db key).
Definition pebble_Commit (batch : Batch) : M DB unit := db_write (λ db, Batch_Commit db batch).
End Operations.

(** [if errors.Is(err, pebble.ErrNotFound) { return ErrNotFound }; return
    fmt.Errorf(msg, err)] *)
Definition not_found_or (msg : string) (err : error) : error :=
  if errors_Is err PebbleErrNotFound then ErrNotFound else WrapError msg err.

(** [if errors.Is(err, ErrNotFound) { return ErrNotFound }; return
    fmt.Errorf(msg, err)] *)
Definition keep_not_found (msg : string) (err : error) : error :=
  if errors_Is err ErrNotFound then ErrNotFound else WrapError msg err.

(** [if errors.Is(err, pebble.ErrNotFound) { return err }; return
    fmt.Errorf(msg, err)] *)
Definition keep_pebble_not_found (msg : string) (err : error) : error :=
  if errors_Is err PebbleErrNotFound then err else WrapError msg err.

Section Store.
Context {P : Pebble} {PR : Protobuf} {R : GoRuntime}.

(** *** Tick data, quorum data, computors *)
Definition GetTickData (tickNumber : Z) : M DB pb.TickData :=
  value ← mmap_err (not_found_or "getting tick data") (pebble_Get (tickDataKey tickNumber));
  lift (wrap "unmarshalling tick data to protobuff type" (Unmarshal value)).

(** [td] may be a nil pointer: an empty tick is stored as one. *)
Definition SetTickData (tickNumber : Z) (td : option pb.TickData) : M DB unit :=
  serialized ← lift (wrap "serializing td proto"
    (match td with Some td => Marshal td | None => Marshal_nil (A := pb.TickData) end));
  mwrap "setting tick data" (pebble_Set (tickDataKey tickNumber) serialized).

Definition SetQuorumTickData (tickNumber : Z) (qtd : pb.QuorumTickDataStored) : M DB unit :=
  serialized ← lift (wrap "serializing qtdV2 proto" (Marshal qtd));
  mwrap "setting quorum tick data" (pebble_Set (quorumTickDataKey tickNumber) serialized).

Definition GetQuorumTickData (tickNumber : Z) : M DB pb.QuorumTickDataStored :=
  value ← mmap_err (not_found_or "getting quorum tick data")
    (pebble_Get (quorumTickDataKey tickNumber));
  lift (wrap "unmarshalling qtdV2 to protobuf type" (Unmarshal value)).

Definition GetComputors (epoch : Z) : M DB pb.Computors :=
  value ← mmap_err (not_found_or "getting quorum tick data") (pebble_Get (computorsKey epoch));
  lift (wrap "unmarshalling computors to protobuff type" (Unmarshal value)).

Definition SetComputors (epoch : Z) (computors : pb.Computors) : M DB unit :=
  serialized ← lift (wrap "serializing computors proto" (Marshal computors));
  mwrap "setting computors" (pebble_Set (computorsKey epoch) serialized).

(** *** Transactions *)
Definition SetTransactions_step (batch : Batch) (tx : pb.Transaction) : M DB Batch :=
  key ← lift (wrap "creating tx key for id" (tickTxKey (pb.Transaction_TxId tx)));
  serialized ← lift (wrap "serializing tx proto" (Marshal tx));
  lift (wrap "getting tick data" (Batch_Set batch key serialized)).

Definition SetTransactions (txs : list pb.Transaction) : M DB unit :=
  batch ← foldM SetTransactions_step NewBatch txs;
  mwrap "committing batch" (pebble_Commit batch).

Definition GetTransaction (txID : string) : M DB pb.Transaction :=
  key ← lift (wrap "getting tx key" (tickTxKey txID));
  value ← mmap_err (not_found_or "getting tx") (pebble_Get key);
  lift (wrap "unmarshalling tx to protobuff type" (Unmarshal value)).

Definition GetTickTransactions (tickNumber : Z) : M DB (list pb.Transaction) :=
  td ← mmap_err (keep_not_found "getting tick data") (GetTickData tickNumber);
  foldM (λ txs txID,
    tx ← mmap_err (keep_not_found "getting tx for id") (GetTransaction txID);
    mret (txs ++ [tx])) [] (pb.TickData_TransactionIds td).

Definition GetTickTransferTransactions (tickNumber : Z) : M DB (list pb.Transaction) :=
  td ← mmap_err (keep_not_found "getting tick data") (GetTickData tickNumber);
  foldM (λ txs txID,
    tx ← mmap_err (keep_not_found "getting tx for id") (GetTransaction txID);
    if bool_decide (pb.Transaction_Amount tx ≤ 0) then mret txs
    else mret (txs ++ [tx])) [] (pb.TickData_TransactionIds td).

(** *** Processed tick intervals *)
Definition getProcessedTickIntervalsPerEpoch (epoch : Z) :
    M DB pb.ProcessedTickIntervalsPerEpoch :=
  r ← mattempt (pebble_Get (processedTickIntervalsPerEpochKey epoch));
  match r with
  | inr err =>
      if errors_Is err PebbleErrNotFound
      then mret (pb.MkProcessedTickIntervalsPerEpoch epoch [])
      else throw (WrapError "getting processed tick intervals per epoch from store" err)
  | inl value =>
      lift (wrap "unmarshalling processed tick intervals per epoch" (Unmarshal value))
  end.

Definition SetProcessedTickIntervalPerEpoch (epoch : Z)
    (ptie : pb.ProcessedTickIntervalsPerEpoch) : M DB unit :=
  serialized ← lift (wrap "serializing ptie proto" (Marshal ptie));
  mwrap "setting ptie" (pebble_Set (processedTickIntervalsPerEpochKey epoch) serialized).

Definition AppendProcessedTickInterval (epoch : Z) (pti : pb.ProcessedTickInterval) :
    M DB unit :=
  existing ← mwrap "getting existing processed tick intervals"
    (getProcessedTickIntervalsPerEpoch epoch);
  mwrap "setting ptie" (SetProcessedTickIntervalPerEpoch epoch
    (pb.MkProcessedTickIntervalsPerEpoch
      (pb.ProcessedTickIntervalsPerEpoch_Epoch existing)
      (pb.ProcessedTickIntervalsPerEpoch_Intervals existing ++ [pti]))).

Definition GetProcessedTickIntervals : M DB (list pb.ProcessedTickIntervalsPerEpoch) :=
  iter ← mwrap "creating iter"
    (pebble_NewIter [ProcessedTickIntervals] (perEpochUpperBound ProcessedTickIntervals));
  foldM (λ processedTickIntervals entry,
    value ← lift (wrap "getting value from iter" entry.2);
    ptie ← lift (wrap "unmarshalling iter ptie" (Unmarshal value));
    mret (processedTickIntervals ++ [ptie])) [] iter.

(** *** The last processed tick *)

(** [ptie.Intervals[len(ptie.Intervals)-1].LastProcessedTick = tickNumber] *)
Definition extend_last_interval (tickNumber : Z) (l : list pb.ProcessedTickInterval) :
    list pb.ProcessedTickInterval :=
  alter (λ i, pb.MkProcessedTickInterval
                (pb.ProcessedTickInterval_InitialProcessedTick i) tickNumber)
        (length l - 1)%nat l.

Definition SetLastProcessedTick (lastProcessedTick : pb.ProcessedTick) : M DB unit :=
  let tickNumber := pb.ProcessedTick_TickNumber lastProcessedTick in
  let epoch := pb.ProcessedTick_Epoch lastProcessedTick in
  batch ← lift (wrap "setting last processed tick"
    (Batch_Set NewBatch (lastProcessedTickKeyPerEpoch epoch) (LittleEndian_PutUint32 tickNumber)));
  serialized ← lift (wrap "serializing skipped tick proto" (Marshal lastProcessedTick));
  batch ← lift (wrap "setting last processed tick"
    (Batch_Set batch lastProcessedTickKey serialized));
  _ ← mwrap "committing batch" (pebble_Commit batch);
  ptie ← mwrap "getting ptie" (getProcessedTickIntervalsPerEpoch epoch);
  let ptie :=
    if decide (length (pb.ProcessedTickIntervalsPerEpoch_Intervals ptie) = 0%nat)
    then pb.MkProcessedTickIntervalsPerEpoch epoch
           [pb.MkProcessedTickInterval tickNumber tickNumber]
    else pb.MkProcessedTickIntervalsPerEpoch
           (pb.ProcessedTickIntervalsPerEpoch_Epoch ptie)
           (extend_last_interval tickNumber (pb.ProcessedTickIntervalsPerEpoch_Intervals ptie)) in
  mwrap "setting ptie" (SetProcessedTickIntervalPerEpoch epoch ptie).

Definition GetLastProcessedTick : M DB pb.ProcessedTick :=
  value ← mmap_err (not_found_or "getting last processed tick") (pebble_Get lastProcessedTickKey);
  lift (wrap "unmarshalling lpt to protobuff type" (Unmarshal value)).

Definition GetLastProcessedTicksPerEpoch : M DB (gmap Z Z) :=
  iter ← mwrap "creating iter"
    (pebble_NewIter [LastProcessedTickPerEpoch] (perEpochUpperBound LastProcessedTickPerEpoch));
  foldM (λ ticksPerEpoch entry,
    value ← lift (wrap "getting value from iter" entry.2);
    epochNumber ← lift (BigEndian_Uint32 (drop 1 entry.1));
    tickNumber ← lift (LittleEndian_Uint32 value);
    mret (<[epochNumber := tickNumber]> (ticksPerEpoch : gmap Z Z))) ∅ iter.

(** *** Skipped ticks *)
Definition GetSkippedTicksInterval : M DB pb.SkippedTicksIntervalList :=
  value ← mmap_err (not_found_or "getting skipped tick interval")
    (pebble_Get skippedTicksIntervalKey);
  lift (wrap "unmarshalling skipped tick interval to protobuff type" (Unmarshal value)).

Definition SetSkippedTicksInterval (skippedTick : pb.SkippedTicksInterval) : M DB unit :=
  current ← mattempt GetSkippedTicksInterval;
  skipped ← match current with
    | inr err =>
        if errors_Is err ErrNotFound then mret []
        else throw (WrapError "getting skipped tick interval" err)
    | inl current => mret (pb.SkippedTicksIntervalList_SkippedTicks current)
    end;
  serialized ← lift (wrap "serializing skipped tick proto"
    (Marshal (pb.MkSkippedTicksIntervalList (skipped ++ [skippedTick]))));
  mwrap "setting skipped tick interval" (pebble_Set skippedTicksIntervalKey serialized).

(** *** Digests

    The two getters return the slice that pebble handed out, after the deferred
    [closer.Close()] ended its documented validity; the other getters decode it
    before.  Here the slice is its contents when it was read: what becomes of memory
    that pebble may reuse is not modelled. *)
Definition PutChainDigest (tickNumber : Z) (digest : bytes) : M DB unit :=
  mwrap "setting chain digest" (pebble_Set (chainDigestKey tickNumber) digest).

Definition GetChainDigest (tickNumber : Z) : M DB bytes :=
  mmap_err (not_found_or "getting chain digest") (pebble_Get (chainDigestKey tickNumber)).

Definition PutStoreDigest (tickNumber : Z) (digest : bytes) : M DB unit :=
  mwrap "setting chain digest" (pebble_Set (storeDigestKey tickNumber) digest).

Definition GetStoreDigest (tickNumber : Z) : M DB bytes :=
  mmap_err (not_found_or "getting chain digest") (pebble_Get (storeDigestKey tickNumber)).

(** *** Transaction statuses *)
Definition GetTickTransactionsStatus (tickNumber : Z) : M DB pb.TickTransactionsStatus :=
  value ← mmap_err (not_found_or "getting transactions status")
    (pebble_Get (tickTxStatusKey tickNumber));
  lift (wrap "unmarshalling tick transactions status" (Unmarshal value)).

Definition GetTransactionStatus (txID : string) : M DB pb.TransactionStatus :=
  value ← mmap_err (not_found_or "getting transaction status") (pebble_Get (txStatusKey txID));
  lift (wrap "unmarshalling transaction status" (Unmarshal value)).

Definition SetTickTransactionsStatus_step (batch : Batch) (tx : pb.TransactionStatus) :
    M DB Batch :=
  serialized ← lift (wrap "serializing tx status proto" (Marshal tx));
  lift (wrap "setting tx status data"
    (Batch_Set batch (txStatusKey (pb.TransactionStatus_TxId tx)) serialized)).

Definition SetTickTransactionsStatus (tickNumber : Z) (tts : pb.TickTransactionsStatus) :
    M DB unit :=
  serialized ← lift (wrap "serializing tts proto" (Marshal tts));
  batch ← lift (wrap "setting tts data"
    (Batch_Set NewBatch (tickTxStatusKey tickNumber) serialized));
  batch ← foldM SetTickTransactionsStatus_step batch
    (pb.TickTransactionsStatus_Transactions tts);
  mwrap "committing batch" (pebble_Commit batch).

(** *** Empty ticks *)
Definition SetEmptyTicksForEpoch (epoch emptyTicksCount : Z) : M DB unit :=
  mwrap "saving emptyTickCount"
    (pebble_Set (emptyTicksPerEpochKey epoch) (LittleEndian_PutUint32 emptyTicksCount)).

(** Returns pebble's own [ErrNotFound], not the store's. *)
Definition GetEmptyTicksForEpoch (epoch : Z) : M DB Z :=
  value ← mmap_err (keep_pebble_not_found "getting emptyTickCount")
    (pebble_Get (emptyTicksPerEpochKey epoch));
  lift (LittleEndian_Uint32 value).

Definition GetEmptyTicksForEpochs (firstEpoch lastEpoch : Z) : M DB (gmap Z Z) :=
  iter ← mwrap "creating iter"
    (pebble_NewIter (emptyTicksPerEpochKey firstEpoch)
                    (emptyTicksPerEpochKey (uint32 (lastEpoch + 1))));
  foldM (λ emptyTickMap entry,
    value ← lift (wrap "getting value from iter" entry.2);
    epochNumber ← lift (BigEndian_Uint64 (drop 1 entry.1));
    emptyTicksCount ← lift (LittleEndian_Uint32 value);
    mret (<[uint32 epochNumber := emptyTicksCount]> (emptyTickMap : gmap Z Z))) ∅ iter.

Definition DeleteEmptyTicksKeyForEpoch (epoch : Z) : M DB unit :=
  mwrap "deleting empty ticks key" (pebble_Delete (emptyTicksPerEpochKey epoch)).

Definition SetEmptyTickListPerEpoch (epoch : Z) (emptyTicks : list Z) : M DB unit :=
  mwrap "saving empty tick list"
    (pebble_Set (emptyTickListPerEpochKey epoch)
                (concat (LittleEndian_PutUint32 <$> emptyTicks))).

(** The four-byte groups of the stored value. *)
Fixpoint decode_ticks (n : nat) (value : bytes) : list Z :=
  match n with
  | O => []
  | S n => le_value (take 4 value) :: decode_ticks n (drop 4 value)
  end.

Definition GetEmptyTickListPerEpoch (epoch : Z) : M DB (list Z) :=
  value ← mmap_err (keep_pebble_not_found "getting empty tick list")
    (pebble_Get (emptyTickListPerEpochKey epoch));
  if bool_decide (Z.of_nat (length value) mod 4 ≠ 0)
  then throw (ErrorString "corrupted empty tick list: array length mod 4 != 0")
  else mret (decode_ticks (length value / 4) value).

Definition AppendEmptyTickToEmptyTickListPerEpoch (epoch tickNumber : Z) : M DB unit :=
  emptyTicks ← mwrap "getting empty tick list" (GetEmptyTickListPerEpoch epoch);
  mwrap "saving appended empty tick list"
    (SetEmptyTickListPerEpoch epoch (emptyTicks ++ [tickNumber])).

Definition DeleteEmptyTickListKeyForEpoch (epoch : Z) : M DB unit :=
  mwrap "deleting empty tick list key" (pebble_Delete (emptyTickListPerEpochKey epoch)).

(** *** Quorum data of the last tick of each interval *)
Definition SetLastTickQuorumDataPerEpochIntervals (epoch : Z)
    (lastQuorumDataPerEpochIntervals : pb.LastTickQuorumDataPerEpochIntervals) : M DB unit :=
  value ← lift (wrap "serializing last quorum data per epoch intervals"
    (Marshal lastQuorumDataPerEpochIntervals));
  mwrap "setting last quorum data per epoch intervals"
    (pebble_Set (lastTickQuorumDataPerEpochIntervalKey epoch) value).

Definition GetLastTickQuorumDataListPerEpochInterval (epoch : Z) :
    M DB pb.LastTickQuorumDataPerEpochIntervals :=
  r ← mattempt (pebble_Get (lastTickQuorumDataPerEpochIntervalKey epoch));
  match r with
  | inr err =>
      if errors_Is err PebbleErrNotFound
      then mret (pb.MkLastTickQuorumDataPerEpochIntervals (Some ∅))
      else throw (WrapError "getting quorum data list for the intervals" err)
  | inl value =>
      lift (wrap "de-serializing last quorum data per epoch intervals" (Unmarshal value))
  end.

(** Writing into a nil map is a run-time panic. *)
Definition SetQuorumDataForCurrentEpochInterval (epoch : Z) (quorumData : pb.QuorumTickData) :
    M DB unit :=
  processedIntervals ← mwrap "getting processed tick intervals"
    (getProcessedTickIntervalsPerEpoch epoch);
  let intervalIndex :=
    Z.of_nat (length (pb.ProcessedTickIntervalsPerEpoch_Intervals processedIntervals)) - 1 in
  let intervalIndex := if bool_decide (intervalIndex < 0) then 0 else intervalIndex in
  quorumDataPerIntervals ← mwrap "getting last quorum data list for epoch intervals"
    (GetLastTickQuorumDataListPerEpochInterval epoch);
  m ← lift (panic_if_none
    (pb.LastTickQuorumDataPerEpochIntervals_QuorumDataPerInterval quorumDataPerIntervals));
  mwrap "setting last quorum data list for epoch intervals"
    (SetLastTickQuorumDataPerEpochIntervals epoch
      (pb.MkLastTickQuorumDataPerEpochIntervals
        (Some (<[int32 intervalIndex := quorumData]> m)))).

(** *** Target tick vote signature *)
Definition SetTargetTickVoteSignature (epoch value : Z) : M DB unit :=
  mwrap "saving target tick vote signature"
    (pebble_Set (targetTickVoteSignatureKey epoch) (LittleEndian_PutUint32 value)).

Definition GetTargetTickVoteSignature (epoch : Z) : M DB Z :=
  value ← mmap_err (not_found_or "getting target tick vote signature")
    (pebble_Get (targetTickVoteSignatureKey epoch));
  lift (LittleEndian_Uint32 value).

(** *** Transfers of an identity *)
Definition PutTransferTransactionsPerTick (identity : string) (tickNumber : Z)
    (txs : pb.TransferTransactionsPerTick) : M DB unit :=
  serialized ← lift (wrap "serializing tx proto" (Marshal txs));
  mwrap "setting transfer tx"
    (pebble_Set (identityTransferTransactionsPerTickKey identity tickNumber) serialized).
End Store.
