(* ===== verification/Paging.v ===== *)
(** * store/store.go: the paged transfers of an identity

    The iterator bounds, with the aliasing of the two appended slices; the
    per-tick page step; and the loop, which keeps only the error of its last
    iteration. *)

From stdpp Require Import sorting base strings numbers pretty gmap list.
From S2P Require Import Prelude GoLib Types Platform Keys Store.

Local Open Scope Z_scope.

Record Pageable := MkPageable { Pageable_Page : Z; Pageable_Size : Z }.
Record Sortable := MkSortable { Sortable_Descending : bool }.
Record Filterable := MkFilterable { Filterable_ScOnly : bool }.

Definition filterTransactions (filter_ : Filterable) (perTick : pb.TransferTransactionsPerTick) :
    list pb.Transaction :=
  if Filterable_ScOnly filter_
  then filter (λ tx, pb.Transaction_InputType tx ≠ 0)
         (pb.TransferTransactionsPerTick_Transactions perTick)
  else pb.TransferTransactionsPerTick_Transactions perTick.

(** [l[i:j]] within bounds. *)
Definition slice {A} (l : list A) (i j : Z) : outcome (list A) :=
  if bool_decide (0 ≤ i ≤ j ∧ j ≤ Z.of_nat (length l))
  then Ok (take (Z.to_nat (j - i)) (drop (Z.to_nat i) l))
  else Panic.

Section Paging.
Context {P : Pebble} {PR : Protobuf} {R : GoRuntime}.

(** The lower and the upper bound, as the iterator sees them.  Both are
    appended to the same slice: when its spare capacity holds the eight bytes,
    the second append overwrites the first. *)
Definition entityRangeBounds (identity : string) (startTick endTick : Z) : bytes * bytes :=
  let partialKey := identityTransferTransactions identity in
  let lower := BigEndian_AppendUint64 partialKey startTick in
  let upper := BigEndian_AppendUint64 partialKey (uint64 (endTick + 1)) in
  if decide (length partialKey + 8 ≤ grow (length partialKey))%nat
  then (upper, upper)
  else (lower, upper).

Definition getTransfersPage (value : outcome bytes) (index : Z)
    (transferTxs : list pb.TransferTransactionsPerTick) (pageStart pageEnd : Z)
    (filter_ : Filterable) : outcome (Z * list pb.TransferTransactionsPerTick) :=
  value ← wrap "getting value from iter" value;
  perTick ← wrap "unmarshalling transfer tx per tick to protobuff type" (Unmarshal value);
  let transactions := filterTransactions filter_ perTick in
  let count := Z.of_nat (length transactions) in
  transferTxs ←
    (if bool_decide (count > 0 ∧ index + count >= pageStart ∧ index < pageEnd) then
       let startIndex := Z.max (pageStart - index) 0 in
       let endIndex := Z.min (pageEnd - index) count in
       if bool_decide (index + count >= pageStart ∧ endIndex > startIndex) then
         sliced ← slice transactions startIndex endIndex;
         Ok (transferTxs ++
               [pb.MkTransferTransactionsPerTick
                  (pb.TransferTransactionsPerTick_TickNumber perTick)
                  (pb.TransferTransactionsPerTick_Identity perTick) sliced])
       else Ok transferTxs
     else Ok transferTxs);
  Ok (index + count, transferTxs).

(** The loop's variables: the index, the page so far, and [err], which each
    iteration overwrites. *)
Definition page_step (pageStart pageEnd : Z) (filter_ : Filterable)
    (acc : Z * list pb.TransferTransactionsPerTick * option error) (value : outcome bytes) :
    outcome (Z * list pb.TransferTransactionsPerTick * option error) :=
  let '(index, transferTxs, _) := acc in
  r ← attempt (getTransfersPage value index transferTxs pageStart pageEnd filter_);
  Ok (match r with
      | inl (index, transferTxs) => (index, transferTxs, None)
      | inr err => (-1, [], Some err)
      end).

Definition GetTransactionsForEntityPaged (identity : string) (startTick endTick : Z)
    (page : Pageable) (sort : Sortable) (filter_ : Filterable) :
    M DB (list pb.TransferTransactionsPerTick * Z) :=
  let start := int64 (Pageable_Page page * Pageable_Size page) in
  let end_ := int64 (start + Pageable_Size page) in
  let '(lower, upper) := entityRangeBounds identity startTick endTick in
  iter ← mwrap "creating iterator" (pebble_NewIter lower upper);
  let entries := if Sortable_Descending sort then reverse iter else iter in
  '(index, transferTxs, err) ← lift (foldO (page_step start end_ filter_) (0, [], None)
                                       entries.*2);
  match err with
  | Some err => throw (WrapError "getting transfers page" err)
  | None => mret (transferTxs, index)
  end.

Definition GetTransactionsForEntity (identity : string) (startTick endTick : Z) :
    M DB (list pb.TransferTransactionsPerTick) :=
  '(transfers, _) ← GetTransactionsForEntityPaged identity startTick endTick
    (MkPageable 0 1000) (MkSortable false) (MkFilterable false);
  mret transfers.
End Paging.
