(* ===== verification/Utils.v ===== *)
(** * utils/utils.go: hashing and serialization

    [K12Hash] and the two uses of [BinarySerialize]: of a structure of the node
    connector, whose layout is that package's, and of the program's own
    structures, which list their fields ([vote] in Quorum.v, [Chain] in
    Chain.v).  [binary.Write] writes the fields of a structure in order, little
    endian and without padding. *)

From stdpp Require Import sorting base strings numbers pretty gmap list.
From S2P Require Import Prelude GoLib Types Platform.

Local Open Scope Z_scope.

(** [type SigVerifierFunc]: public key, digest and signature. *)
Definition SigVerifierFunc : Type := bytes → bytes → bytes → outcome unit.

(** A slice expression [b[:n]] within the length of [b]; beyond it panics. *)
Definition slice_to (b : bytes) (n : Z) : outcome bytes :=
  if bool_decide (0 ≤ n ≤ Z.of_nat (length b)) then Ok (take (Z.to_nat n) b) else Panic.

(** Everything but the signature at the end. *)
Lemma slice_to_unsigned b : (64 ≤ length b)%nat →
  slice_to b (Z.of_nat (length b) - 64) = Ok (take (length b - 64) b).
Proof.
  intros H. unfold slice_to. rewrite bool_decide_true by lia.
  by replace (Z.to_nat _) with (length b - 64)%nat by lia.
Qed.

Section Utils.
Context {K : K12}.

Definition K12Hash (data : bytes) : outcome bytes :=
  h ← wrap "k12 hashing" (k12_Write (k12_NewDraft10 []) data);
  wrap "reading k12 digest" (k12_Read h 32).

(** The write into the buffer, with the error the program wraps it in. *)
Definition BinarySerialize (write : outcome bytes) : outcome bytes :=
  wrap "writing data to buff" write.

(** The digests over everything but the trailing 64-byte signature. *)
Definition hash_without_signature (sData : bytes) : outcome bytes :=
  data ← slice_to sData (Z.of_nat (length sData) - 64);
  K12Hash data.

(** go-node-connector: the digest of a transaction is the hash of its binary
    form, and its identifier the digest as an identity in lower case. *)
Class TransactionLaws (N : NodeConnector) : Prop := {
  Transaction_Digest_hash tx b :
    Transaction_MarshallBinary tx = Ok b → Transaction_Digest tx = K12Hash b;
  Transaction_ID_identity tx d id :
    Transaction_Digest tx = Ok d → Transaction_ID tx = Ok id → Identity_FromPubKey d true = Ok id
}.

Context {KL : K12Laws K}.

Lemma K12Hash_total b : ∃ d, K12Hash b = Ok d ∧ is_array 32 d.
Proof.
  unfold K12Hash. destruct (k12_Write_total (k12_NewDraft10 []) b) as [s ->]. simpl.
  destruct (k12_Read_total s 32) as (out & -> & Hout). simpl. eauto.
Qed.

Lemma K12Hash_array b d : K12Hash b = Ok d → is_array 32 d.
Proof. intros H. destruct (K12Hash_total b) as (d' & H' & Hd). congruence. Qed.

Lemma hash_without_signature_total b : (64 ≤ length b)%nat →
  ∃ d, hash_without_signature b = Ok d ∧ is_array 32 d.
Proof.
  intros H. unfold hash_without_signature. rewrite slice_to_unsigned by done. apply K12Hash_total.
Qed.

(** Two different inputs with one digest. *)
Definition k12_collision (x y : bytes) : Prop :=
  x ≠ y ∧ ∃ d, K12Hash x = Ok d ∧ K12Hash y = Ok d.

(** The digest as a function, for statements. *)
Definition hash_of (b : bytes) : bytes :=
  match K12Hash b with Ok d => d | _ => [] end.

Lemma K12Hash_hash_of b : K12Hash b = Ok (hash_of b).
Proof. unfold hash_of. by destruct (K12Hash_total b) as (d & -> & _). Qed.

Lemma hash_of_array b : is_array 32 (hash_of b).
Proof. apply (K12Hash_array b), K12Hash_hash_of. Qed.

(** Equal digests: equal inputs or a collision. *)
Lemma K12Hash_eq_cases x y d : K12Hash x = Ok d → K12Hash y = Ok d → x = y ∨ k12_collision x y.
Proof. destruct (decide (x = y)); [by left|]. right. split; eauto. Qed.
End Utils.

#[export] Hint Resolve hash_of_array : wf.
