(* ===== verification/StoreLogic.v ===== *)
(** * Reasoning about computations on a healthy database

    [runs m c o m']: on every healthy database whose contents are [m], the
    computation [c] ends in the outcome [o] and leaves the contents [m'].  The
    rules follow the structure of the computation, so a proof about an
    operation reads like its code.  [preserves] is the partial counterpart for
    databases that may fail. *)

From stdpp Require Import sorting base strings numbers pretty gmap list.
From S2P Require Import Prelude GoLib Types Platform Keys Store.

Local Open Scope Z_scope.

(** ** Sorted entry lists are determined by their elements *)
Definition key_lt (p q : bytes * bytes) : Prop := bytes_lt p.1 q.1.
Definition key_le (p q : bytes * bytes) : Prop := bytes_le p.1 q.1.

#[export] Instance key_le_dec : RelDecision key_le.
Proof. intros p q. unfold key_le. apply _. Defined.
#[export] Instance key_le_trans : Transitive key_le.
Proof. intros p q r. unfold key_le. apply transitivity. Qed.
#[export] Instance key_le_total : Total key_le.
Proof. intros p q. unfold key_le. apply (total bytes_le). Qed.

Lemma StronglySorted_key_lt (l : list (bytes * bytes)) :
  StronglySorted bytes_lt l.*1 ↔ StronglySorted key_lt l.
Proof.
  induction l as [|p l IH]; csimpl; [split; constructor|].
  split; intros [H1 H2]%StronglySorted_inv; constructor.
  - apply IH. exact H1.
  - by rewrite Forall_fmap in H2.
  - by apply IH.
  - by rewrite Forall_fmap.
Qed.

Lemma StronglySorted_key_lt_NoDup l : StronglySorted key_lt l → NoDup l.
Proof.
  induction 1 as [|p l Hl IH Hp]; constructor; [|done].
  intros Hin. rewrite Forall_forall in Hp. specialize (Hp _ Hin).
  by apply (bytes_lt_irrefl p.1).
Qed.

Lemma sorted_entries_unique (l k : list (bytes * bytes)) :
  StronglySorted bytes_lt l.*1 → StronglySorted bytes_lt k.*1 → (∀ p, p ∈ l ↔ p ∈ k) → l = k.
Proof.
  rewrite !StronglySorted_key_lt. intros Hl Hk Hin.
  assert (AntiSymm (=) key_lt).
  { intros p q Hpq Hqp. exfalso. eapply (bytes_lt_irrefl p.1). by etrans. }
  apply (StronglySorted_unique key_lt); [done..|].
  apply NoDup_Permutation; eauto using StronglySorted_key_lt_NoDup.
Qed.

(** The entries an iterator over [lo, hi) yields. *)
Definition iter_entries (m : gmap bytes bytes) (lo hi : bytes) : list (bytes * bytes) :=
  merge_sort key_le
    (filter (λ p : bytes * bytes, bytes_le lo p.1 ∧ bytes_lt p.1 hi) (map_to_list m)).

Lemma elem_of_iter_entries m lo hi k v :
  (k, v) ∈ iter_entries m lo hi ↔ m !! k = Some v ∧ in_range lo hi k.
Proof.
  unfold iter_entries, in_range. rewrite merge_sort_Permutation.
  rewrite list_elem_of_filter, elem_of_map_to_list. simpl. naive_solver.
Qed.

Lemma sorted_iter_entries m lo hi : StronglySorted bytes_lt (iter_entries m lo hi).*1.
Proof.
  unfold iter_entries. set (l := filter _ _).
  assert (Hnd : NoDup (merge_sort key_le l).*1).
  { rewrite merge_sort_Permutation. unfold l. eapply NoDup_fmap_fst.
    - intros x y1 y2. rewrite !list_elem_of_filter, !elem_of_map_to_list. naive_solver.
    - apply NoDup_filter, NoDup_map_to_list. }
  pose proof (StronglySorted_merge_sort key_le l) as Hs. revert Hnd Hs.
  generalize (merge_sort key_le l). clear.
  intros l. induction l as [|p l IH]; csimpl; intros Hnd Hs; [constructor|].
  apply NoDup_cons in Hnd as [Hp Hnd]. apply StronglySorted_inv in Hs as [Hs Hle].
  constructor; [by apply IH|]. apply Forall_fmap. rewrite Forall_forall in *.
  intros q Hq. destruct (proj1 (bytes_le_lt_or_eq _ _) (Hle q Hq)) as [|Heq]; [done|].
  exfalso. apply Hp. rewrite Heq. by apply list_elem_of_fmap_2.
Qed.

(** ** The judgement *)
Section Runs.
Context {P : Pebble} {PL : PebbleLaws P}.
Implicit Types m : gmap bytes bytes.

Definition runs {A} m (c : M DB A) (o : outcome A) m' : Prop :=
  ∀ db, healthy db → contents db = m →
  ∃ db', c db = (o, db') ∧ healthy db' ∧ contents db' = m'.

Lemma runs_ret {A} m (a : A) : runs m (mret a) (Ok a) m.
Proof. intros db. eauto. Qed.

Lemma runs_lift {A} m (o : outcome A) : runs m (lift o) o m.
Proof. intros db. unfold lift. eauto. Qed.

Lemma runs_throw {A} m e : runs m (throw (A := A) e) (Err e) m.
Proof. apply runs_lift. Qed.

Lemma runs_bind {A B} m m1 m2 (c : M DB A) (k : A → M DB B) a o :
  runs m c (Ok a) m1 → runs m1 (k a) o m2 → runs m (c ≫= k) o m2.
Proof.
  intros Hc Hk db Hh Hm. destruct (Hc db Hh Hm) as (db1 & E & Hh1 & Hm1).
  unfold mbind, M_bind. rewrite E. eauto.
Qed.

Lemma runs_bind_err {A B} m m1 (c : M DB A) (k : A → M DB B) e :
  runs m c (Err e) m1 → runs m (c ≫= k) (Err e) m1.
Proof.
  intros Hc db Hh Hm. destruct (Hc db Hh Hm) as (db1 & E & Hh1 & Hm1).
  unfold mbind, M_bind. rewrite E. eauto.
Qed.

Lemma runs_bind_panic {A B} m m1 (c : M DB A) (k : A → M DB B) :
  runs m c Panic m1 → runs m (c ≫= k) Panic m1.
Proof.
  intros Hc db Hh Hm. destruct (Hc db Hh Hm) as (db1 & E & Hh1 & Hm1).
  unfold mbind, M_bind. rewrite E. eauto.
Qed.

Lemma runs_map_err {A} m m' f (c : M DB A) o o' :
  runs m c o m' → o' = map_err f o → runs m (mmap_err f c) o' m'.
Proof.
  intros Hc -> db Hh Hm. destruct (Hc db Hh Hm) as (db1 & E & ?).
  unfold mmap_err. rewrite E. eauto.
Qed.

Lemma runs_wrap_ok {A} m m' msg (c : M DB A) a :
  runs m c (Ok a) m' → runs m (mwrap msg c) (Ok a) m'.
Proof. intros. by eapply runs_map_err. Qed.

Lemma runs_attempt {A} m m' (c : M DB A) o o' :
  runs m c o m' → o' = attempt o → runs m (mattempt c) o' m'.
Proof.
  intros Hc -> db Hh Hm. destruct (Hc db Hh Hm) as (db1 & E & ?).
  unfold mattempt. rewrite E. eauto.
Qed.

(** A loop that only reads, with an invariant relating the accumulator to the
    elements seen so far. *)
Lemma runs_foldM_read {A B} m (f : B → A → M DB B) (g : B → A → B) acc l :
  (∀ acc x, x ∈ l → runs m (f acc x) (Ok (g acc x)) m) →
  runs m (foldM f acc l) (Ok (foldl g acc l)) m.
Proof.
  revert acc. induction l as [|x l IH]; intros acc H; simpl; [apply runs_ret|].
  eapply runs_bind; [apply H; by left|]. apply IH. intros. apply H. by right.
Qed.

Lemma runs_Get m k :
  runs m (pebble_Get k)
    (match m !! k with Some v => Ok v | None => Err PebbleErrNotFound end) m.
Proof.
  intros db Hh <-. exists db. unfold pebble_Get. by rewrite db_Get_healthy.
Qed.

Lemma runs_Get_Some m k v : m !! k = Some v → runs m (pebble_Get k) (Ok v) m.
Proof. intros H. pose proof (runs_Get m k) as G. by rewrite H in G. Qed.

Lemma runs_Get_None m k : m !! k = None → runs m (pebble_Get k) (Err PebbleErrNotFound) m.
Proof. intros H. pose proof (runs_Get m k) as G. by rewrite H in G. Qed.

Lemma runs_Set m k v : runs m (pebble_Set k v) (Ok tt) (<[k := v]> m).
Proof.
  intros db Hh <-. destruct (db_Set_healthy db k v Hh) as (db' & E & Hh').
  exists db'. unfold pebble_Set, db_write. rewrite E. eauto using db_Set_sound.
Qed.

Lemma runs_Delete m k : runs m (pebble_Delete k) (Ok tt) (delete k m).
Proof.
  intros db Hh <-. destruct (db_Delete_healthy db k Hh) as (db' & E & Hh').
  exists db'. unfold pebble_Delete, db_write. rewrite E. eauto using db_Delete_sound.
Qed.

Lemma runs_Commit m b : runs m (pebble_Commit b) (Ok tt) (apply_writes m (batch_writes b)).
Proof.
  intros db Hh <-. destruct (Batch_Commit_healthy db b Hh) as (db' & E & Hh').
  exists db'. unfold pebble_Commit, db_write. rewrite E. eauto using Batch_Commit_sound.
Qed.

Lemma runs_NewIter m lo hi :
  runs m (pebble_NewIter lo hi)
    (Ok ((λ '(k, v), (k, Ok v)) <$> iter_entries m lo hi)) m.
Proof.
  intros db Hh <-. destruct (db_NewIter_healthy db lo hi Hh) as (l & E & Hs & Hin).
  exists db. unfold pebble_NewIter. rewrite E. split; [|done]. do 3 f_equal.
  apply sorted_entries_unique; [done|apply sorted_iter_entries|].
  intros [k v]. by rewrite Hin, elem_of_iter_entries.
Qed.

(** A batch step always succeeds, with a known effect on the writes. *)
Lemma Batch_Set_ok b k v :
  ∃ b', Batch_Set b k v = Ok b' ∧ batch_writes b' = batch_writes b ++ [(k, v)].
Proof. destruct (Batch_Set_total b k v) as [b' E]. eauto using Batch_Set_sound. Qed.
End Runs.

(** Run the next statement of a sequence, which succeeds. *)
Tactic Notation "runs_step" tactic3(t) := eapply runs_bind; [t|cbn beta iota].
Ltac runs_wrapped := apply runs_wrap_ok.

(** ** Stored messages *)
Section Stored.
Context {P : Pebble} {PL : PebbleLaws P} {A : Type} {PM : ProtoMsg A} {PA : ProtoLaws A}.

(** Key [k] holds a buffer that decodes to [a]. *)
Definition stored (m : gmap bytes bytes) (k : bytes) (a : A) : Prop :=
  ∃ b, m !! k = Some b ∧ Unmarshal b = Ok a.

Lemma stored_insert m k b (a : A) : Unmarshal b = Ok a → stored (<[k := b]> m) k a.
Proof. intros. exists b. by rewrite lookup_insert_eq. Qed.

Lemma stored_insert_ne m k k' b (a : A) :
  k ≠ k' → stored m k' a → stored (<[k := b]> m) k' a.
Proof. intros ? (b' & ? & ?). exists b'. by rewrite lookup_insert_ne. Qed.

Lemma stored_fun m k (a a' : A) : stored m k a → stored m k a' → a = a'.
Proof. intros (b & H1 & H2) (b' & H3 & H4). congruence. Qed.

(** The shape of every getter: look a key up and decode. *)
Lemma runs_get_stored m k msg msg' (a : A) :
  stored m k a →
  runs m (value ← mmap_err (not_found_or msg) (pebble_Get k);
          lift (wrap msg' (Unmarshal value))) (Ok a) m.
Proof.
  intros (b & Hb & Hu). runs_step (eapply runs_map_err; [by apply runs_Get_Some|done]).
  rewrite Hu. apply runs_lift.
Qed.

Lemma runs_get_missing m k msg msg' :
  m !! k = None →
  runs m (value ← mmap_err (not_found_or msg) (pebble_Get k);
          lift (wrap msg' (Unmarshal (A := A) value))) (Err ErrNotFound) m.
Proof.
  intros H. apply runs_bind_err. eapply runs_map_err; [by apply runs_Get_None|done].
Qed.

(** The shape of every setter: encode and write. *)
Lemma runs_set_message m k msg msg' (a : A) b :
  Marshal a = Ok b →
  runs m (serialized ← lift (wrap msg (Marshal a)); mwrap msg' (pebble_Set k serialized))
    (Ok tt) (<[k := b]> m).
Proof.
  intros H. runs_step (rewrite H; apply runs_lift). runs_wrapped. apply runs_Set.
Qed.
End Stored.
