(* ===== verification/PagingProofs.v ===== *)
(** * Paged transfers: theorems

    A page is the window of the identity's filtered transfers that page number
    and size describe, and the total is their number; the pages of a query
    partition its transfers. *)

From stdpp Require Import sorting base strings numbers pretty gmap list.
From S2P Require Import Prelude GoLib Types Platform Keys Store StoreLogic.
From S2P Require Import Paging.

Local Open Scope Z_scope.

(** [l[s:e]] of a list, clipped to it. *)
Definition window {A} (s e : nat) (l : list A) : list A := drop s (take e l).

Lemma window_app {A} s e (l k : list A) :
  window s e (l ++ k) = window s e l ++ window (s - length l) (e - length l) k.
Proof.
  unfold window. rewrite take_app, drop_app, length_take. f_equal.
  destruct (decide (length l ≤ e)%nat).
  - by rewrite Nat.min_r by lia.
  - replace (e - length l)%nat with 0%nat by lia. by rewrite !take_0, !drop_nil.
Qed.


(** The transactions of a page's elements, concatenated. *)
Definition flat (l : list pb.TransferTransactionsPerTick) : list pb.Transaction :=
  concat (pb.TransferTransactionsPerTick_Transactions <$> l).

Section Page.
Context {P : Pebble} {PR : Protobuf} {R : GoRuntime}.
Context (s e : nat) (fl : Filterable).

(** A transaction passes when no filter is asked for, or when it calls a contract:
    its input type is not 0. *)
Definition passes (tx : pb.Transaction) : Prop :=
  Filterable_ScOnly fl = true → pb.Transaction_InputType tx ≠ 0.

(** The transactions of the rows that pass, in their order. *)
Definition kept (rows : list pb.TransferTransactionsPerTick) : list pb.Transaction :=
  filter passes (concat (pb.TransferTransactionsPerTick_Transactions <$> rows)).

Lemma filterTransactions_passes row :
  filterTransactions fl row = filter passes (pb.TransferTransactionsPerTick_Transactions row).
Proof.
  unfold filterTransactions, passes. destruct (Filterable_ScOnly fl).
  - apply list_filter_iff. naive_solver.
  - symmetry. by apply list_filter_all.
Qed.

Lemma kept_cons row rows : kept (row :: rows) = filterTransactions fl row ++ kept rows.
Proof. unfold kept. by rewrite fmap_cons, concat_cons, filter_app, filterTransactions_passes. Qed.


Lemma slice_window {A} (l : list A) (i : nat) :
  (Z.min (Z.of_nat e - Z.of_nat i) (Z.of_nat (length l)) > Z.max (Z.of_nat s - Z.of_nat i) 0)%Z →
  slice l (Z.max (Z.of_nat s - Z.of_nat i) 0)
          (Z.min (Z.of_nat e - Z.of_nat i) (Z.of_nat (length l))) =
  Ok (window (s - i) (e - i) l).
Proof.
  intros H. unfold slice. rewrite bool_decide_true by lia. f_equal. unfold window.
  replace (Z.to_nat (Z.max (Z.of_nat s - Z.of_nat i) 0)) with (s - i)%nat by lia.
  rewrite take_drop_commute. f_equal.
  destruct (decide (e - i ≤ length l)%nat).
  - f_equal. lia.
  - rewrite !take_ge; [done|lia|lia].
Qed.

Lemma window_empty {A} (l : list A) (i : nat) :
  ¬ (Z.min (Z.of_nat e - Z.of_nat i) (Z.of_nat (length l)) > Z.max (Z.of_nat s - Z.of_nat i) 0)%Z →
  window (s - i) (e - i) l = [].
Proof. intros H. unfold window. apply drop_ge. rewrite length_take. lia. Qed.

(** One tick: the index moves on by the kept transactions, and the page grows
    by the window's part of them. *)
Lemma getTransfersPage_ok value row (i : nat) txs :
  value = Ok row.1 → Unmarshal row.1 = Ok row.2 →
  let all := filterTransactions fl row.2 in
  ∃ txs', getTransfersPage value (Z.of_nat i) txs (Z.of_nat s) (Z.of_nat e) fl =
      Ok (Z.of_nat (i + length all), txs') ∧
    flat txs' = flat txs ++ window (s - i) (e - i) all ∧
    (Forall (λ t, pb.TransferTransactionsPerTick_Transactions t ≠ []) txs →
     Forall (λ t, pb.TransferTransactionsPerTick_Transactions t ≠ []) txs').
Proof.
  intros -> Hu all. unfold getTransfersPage. ok_step. rewrite Hu. ok_step. fold all.
  rewrite Nat2Z.inj_add.
  destruct (decide (Z.min (Z.of_nat e - Z.of_nat i) (Z.of_nat (length all)) >
                    Z.max (Z.of_nat s - Z.of_nat i) 0)) as [Hw|Hw].
  - rewrite bool_decide_true by lia. rewrite bool_decide_true by lia.
    rewrite slice_window by done. ok_step. eexists. split; [done|]. split.
    + unfold flat. rewrite fmap_app, concat_app. csimpl. by rewrite app_nil_r.
    + intros Hne. apply Forall_app. split; [done|]. constructor; [|done]. simpl.
      unfold window. intros Hnil. apply (f_equal length) in Hnil.
      rewrite length_drop, length_take in Hnil. simpl in Hnil. lia.
  - rewrite window_empty by done. exists txs. rewrite app_nil_r. split; [|done].
    case_bool_decide; [|done]. by rewrite bool_decide_false by (intros [_ ?]; done).
Qed.

Lemma page_loop_ok (rows : list (bytes * pb.TransferTransactionsPerTick)) (i : nat) txs :
  Forall (λ row, Unmarshal row.1 = Ok row.2) rows →
  Forall (λ t, pb.TransferTransactionsPerTick_Transactions t ≠ []) txs →
  ∃ txs', foldO (page_step (Z.of_nat s) (Z.of_nat e) fl) (Z.of_nat i, txs, None)
      ((λ row, Ok row.1) <$> rows) =
      Ok (Z.of_nat (i + length (kept rows.*2)), txs', None) ∧
    flat txs' = flat txs ++ window (s - i) (e - i) (kept rows.*2) ∧
    Forall (λ t, pb.TransferTransactionsPerTick_Transactions t ≠ []) txs'.
Proof.
  intros H. revert i txs. induction H as [|row rows Hu _ IH]; intros i txs Hne.
  - exists txs. unfold window. change (kept [].*2) with (@nil pb.Transaction). csimpl. rewrite take_nil, drop_nil, app_nil_r, Nat.add_0_r.
    done.
  - destruct (getTransfersPage_ok (Ok row.1) row i txs eq_refl Hu)
      as (txs1 & E & Hflat & Hne1).
    destruct (IH (i + length (filterTransactions fl row.2))%nat txs1 (Hne1 Hne))
      as (txs' & Eloop & Hflat' & Hne').
    exists txs'. csimpl. rewrite kept_cons, length_app, Nat.add_assoc. split; [|split; [|done]].
    + unfold page_step at 1. rewrite E. ok_step. exact Eloop.
    + by rewrite Hflat', Hflat, window_app, <-app_assoc, !Nat.sub_add_distr.
Qed.
End Page.

(** ** The rows of an identity *)
Section Rows.
Context {P : Pebble} {PL : PebbleLaws P} {PR : Protobuf} {PRL : ProtobufLaws PR} {R : GoRuntime}.
Implicit Types m : gmap bytes bytes.

(** The transfer index holds decodable messages under the keys of identities of
    the same length as [id], which is 60 for every identity of the network. *)
Definition transfer_index m (id : string) : Prop :=
  ∀ k, key_kind k = Some IdentityTransferTransactions → is_Some (m !! k) →
  ∃ id' t (msg : pb.TransferTransactionsPerTick), String.length id' = String.length id ∧
    is_uint32 t ∧ k = identityTransferTransactionsPerTickKey id' t ∧ stored m k msg.

(** The identity's rows between two ticks, in tick order. *)
Definition rows_between m (id : string) (lo hi : Z)
    (rows : list (Z * pb.TransferTransactionsPerTick)) : Prop :=
  StronglySorted Z.lt rows.*1 ∧
  ∀ t msg, (t, msg) ∈ rows ↔
    is_uint32 t ∧ lo ≤ t ≤ hi ∧ stored m (identityTransferTransactionsPerTickKey id t) msg.

Lemma transfer_key_compare id id' t t' : String.length id = String.length id' →
  0 ≤ t < 2 ^ 64 → 0 ≤ t' < 2 ^ 64 →
  bytes_Compare (BigEndian_AppendUint64 (identityTransferTransactions id) t)
                (BigEndian_AppendUint64 (identityTransferTransactions id') t') =
  match bytes_Compare (string_bytes id) (string_bytes id') with
  | Eq => Z.compare t t'
  | r => r
  end.
Proof.
  intros Hlen Ht Ht'. unfold BigEndian_AppendUint64, identityTransferTransactions.
  rewrite bytes_Compare_app by (rewrite !length_app, !length_string_bytes; simpl; lia).
  rewrite bytes_Compare_prefix. by rewrite be_bytes_Compare by (simpl; lia).
Qed.

Lemma transfer_key_in_range id id' lo hi t : String.length id' = String.length id →
  0 ≤ lo < 2 ^ 64 → 0 ≤ hi < 2 ^ 64 - 1 → is_uint32 t →
  in_range (BigEndian_AppendUint64 (identityTransferTransactions id) lo)
           (BigEndian_AppendUint64 (identityTransferTransactions id) (hi + 1))
           (identityTransferTransactionsPerTickKey id' t) ↔
  id' = id ∧ lo ≤ t ≤ hi.
Proof.
  intros Hlen Hlo Hhi Ht. unfold is_uint32 in Ht.
  assert (E : identityTransferTransactionsPerTickKey id' t =
    BigEndian_AppendUint64 (identityTransferTransactions id') t).
  { unfold identityTransferTransactionsPerTickKey, identityTransferTransactions.
    by rewrite uint64_small by lia. }
  rewrite E. unfold in_range, bytes_le, bytes_lt.
  rewrite !transfer_key_compare by (done || lia).
  rewrite (bytes_Compare_antisym (string_bytes id')).
  destruct (bytes_Compare (string_bytes id') (string_bytes id)) eqn:C; simpl.
  - apply bytes_Compare_eq, string_bytes_inj in C as ->.
    destruct (Z.compare_spec lo t), (Z.compare_spec t (hi + 1)); naive_solver lia.
  - split; [naive_solver|]. intros [-> _]. by rewrite bytes_Compare_refl in C.
  - split; [naive_solver|]. intros [-> _]. by rewrite bytes_Compare_refl in C.
Qed.

(** What an entry of the iterator over an identity's range decodes to. *)
Definition row_of (id : string) (entry : bytes * bytes)
    (row : Z * pb.TransferTransactionsPerTick) : Prop :=
  entry.1 = identityTransferTransactionsPerTickKey id row.1 ∧ is_uint32 row.1 ∧
  Unmarshal entry.2 = Ok row.2.

Lemma row_of_sorted id es rows : Forall2 (row_of id) es rows →
  StronglySorted bytes_lt es.*1 → StronglySorted Z.lt rows.*1.
Proof.
  induction 1 as [|e r es rows (Hk & Ht & _) Hes IH]; csimpl; intros Hs; [constructor|].
  apply StronglySorted_inv in Hs as [Hs Hlt]. constructor; [by apply IH|].
  clear IH Hs. induction Hes as [|e' r' es rows (Hk' & Ht' & _) _ IH]; csimpl; [constructor|].
  inversion Hlt as [|?? H1 H2]; subst. constructor; [|by apply IH].
  rewrite Hk, Hk' in H1. unfold bytes_lt, identityTransferTransactionsPerTickKey,
    BigEndian_AppendUint64 in H1. rewrite !uint32_uint64 in H1 by done. unfold is_uint32 in *.
  rewrite bytes_Compare_prefix, be_bytes_Compare in H1 by (simpl; lia).
  by apply Z.compare_lt_iff.
Qed.

Lemma entity_rows m id lo hi : transfer_index m id → 0 ≤ lo < 2 ^ 64 → 0 ≤ hi < 2 ^ 64 - 1 →
  ∃ rows, rows_between m id lo hi rows ∧
    Forall2 (row_of id)
      (iter_entries m (BigEndian_AppendUint64 (identityTransferTransactions id) lo)
                      (BigEndian_AppendUint64 (identityTransferTransactions id) (hi + 1))) rows.
Proof.
  intros Hidx Hlo Hhi. set (es := iter_entries _ _ _).
  destruct (Forall2_choice (row_of id) es) as [rows Hrows].
  { intros [k v] [Hk Hr]%elem_of_iter_entries.
    assert (Hkind : key_kind k = Some IdentityTransferTransactions).
    { unfold BigEndian_AppendUint64, identityTransferTransactions in Hr.
      rewrite <-!app_assoc in Hr. by eapply key_kind_in_range. }
    destruct (Hidx k Hkind ltac:(eauto)) as (id' & t & msg & Hlen & Ht & -> & b & Hb & Hu).
    apply transfer_key_in_range in Hr as [-> _]; [|done..].
    exists (t, msg). split_and!; [done|done|]. simpl in *. congruence. }
  exists rows. split; [|done]. split; [by eapply row_of_sorted, sorted_iter_entries|].
  intros t msg. split.
  - intros Hin. apply list_elem_of_lookup in Hin as [i Hi].
    destruct (Forall2_lookup_r _ _ _ _ _ Hrows Hi) as ([k v] & Hkv & Hk & Ht & Hu). simpl in *.
    apply list_elem_of_lookup_2, elem_of_iter_entries in Hkv as [Hkv Hr]. subst k.
    apply transfer_key_in_range in Hr as [_ ?]; [|done..]. split_and!; [done|lia|lia|].
    by exists v.
  - intros (Ht & Hb & v & Hv & Hu).
    assert (Hin : (identityTransferTransactionsPerTickKey id t, v) ∈ es).
    { apply elem_of_iter_entries. split; [done|]. by apply transfer_key_in_range. }
    apply list_elem_of_lookup in Hin as [i Hi].
    destruct (Forall2_lookup_l _ _ _ _ _ Hrows Hi) as ([t' msg'] & Hrow & Hk & Ht' & Hu').
    simpl in *. apply identity_key_inj in Hk as [_ <-]; [|done..].
    assert (msg' = msg) as -> by congruence. by eapply list_elem_of_lookup_2.
Qed.
End Rows.

(** ** The paged query *)
Section Query.
Context {P : Pebble} {PL : PebbleLaws P} {PR : Protobuf} {PRL : ProtobufLaws PR} {R : GoRuntime}.

(** Appending eight bytes to the identity's key prefix reallocates it. *)
Definition no_spare_capacity (id : string) : Prop :=
  (grow (length (identityTransferTransactions id)) <
   length (identityTransferTransactions id) + 8)%nat.

(** The rows in the order the loop visits them. *)
Definition visited (sort : Sortable) {A} (rows : list A) : list A :=
  if Sortable_Descending sort then reverse rows else rows.

Lemma visited_entries sort id (es : list (bytes * bytes))
    (rows : list (Z * pb.TransferTransactionsPerTick)) :
  Forall2 (row_of id) es rows →
  ∃ l : list (bytes * pb.TransferTransactionsPerTick),
    Forall (λ row, Unmarshal row.1 = Ok row.2) l ∧ l.*2 = visited sort rows.*2 ∧
    (visited sort ((λ '(k, v), (k, Ok v)) <$> es)).*2 = (λ row, Ok row.1) <$> l.
Proof.
  intros H.
  assert (Hz : ∃ l : list (bytes * pb.TransferTransactionsPerTick),
    Forall (λ row, Unmarshal row.1 = Ok row.2) l ∧ l.*2 = rows.*2 ∧
    ((λ '(k, v), (k, Ok (A := bytes) v)) <$> es).*2 = (λ row, Ok row.1) <$> l).
  { induction H as [|[k v] [t msg] es rows (_ & _ & Hu) _ (l & H1 & H2 & H3)].
    - by exists [].
    - exists ((v, msg) :: l). csimpl. split_and!; [by constructor|by f_equal|by f_equal]. }
  destruct Hz as (l & H1 & H2 & H3). unfold visited. destruct (Sortable_Descending sort).
  - exists (reverse l). split_and!.
    + by apply Forall_reverse.
    + by rewrite <-H2, fmap_reverse.
    + by rewrite !fmap_reverse, H3.
  - by exists l.
Qed.

Lemma sorted_rows_unique (rows rows' : list (Z * pb.TransferTransactionsPerTick)) :
  StronglySorted Z.lt rows.*1 → StronglySorted Z.lt rows'.*1 →
  (∀ r, r ∈ rows ↔ r ∈ rows') → rows = rows'.
Proof.
  revert rows'. induction rows as [|[t msg] rows IH]; intros [|[t' msg'] rows'] Hs Hs' Hin.
  - done.
  - exfalso. eapply elem_of_nil, Hin. by left.
  - exfalso. eapply elem_of_nil, Hin. by left.
  - csimpl in *. apply StronglySorted_inv in Hs as [Hs Hlt]. apply StronglySorted_inv in Hs' as [Hs' Hlt'].
    rewrite Forall_forall in Hlt, Hlt'.
    assert (Hl : ∀ r, r ∈ rows → t < r.1) by (intros r Hr; by apply Hlt, list_elem_of_fmap_2).
    assert (Hl' : ∀ r, r ∈ rows' → t' < r.1) by (intros r Hr; by apply Hlt', list_elem_of_fmap_2).
    assert (E : (t, msg) = (t', msg')).
    { destruct (proj1 (elem_of_cons _ _ _) (proj1 (Hin (t, msg)) ltac:(by left))) as [E|H1]; [done|].
      destruct (proj1 (elem_of_cons _ _ _) (proj2 (Hin (t', msg')) ltac:(by left))) as [E|H2]; [done|].
      apply Hl' in H1. apply Hl in H2. simpl in *. lia. }
    injection E as <- <-. f_equal. apply IH; [done..|]. intros r. split; intros Hr.
    + destruct (proj1 (elem_of_cons _ _ _) (proj1 (Hin r) ltac:(by right))) as [->|]; [|done].
      apply Hl in Hr. simpl in Hr. lia.
    + destruct (proj1 (elem_of_cons _ _ _) (proj2 (Hin r) ltac:(by right))) as [->|]; [|done].
      apply Hl' in Hr. simpl in Hr. lia.
Qed.

Lemma GetTransactionsForEntityPaged_page m id lo hi (page size : nat) sort fl :
  transfer_index m id → no_spare_capacity id →
  0 ≤ lo < 2 ^ 64 → 0 ≤ hi < 2 ^ 64 - 1 → Z.of_nat (page * size + size) < 2 ^ 63 →
  ∃ rows txs, rows_between m id lo hi rows ∧
    runs m (GetTransactionsForEntityPaged id lo hi
              (MkPageable (Z.of_nat page) (Z.of_nat size)) sort fl)
      (Ok (txs, Z.of_nat (length (kept fl (visited sort rows.*2))))) m ∧
    flat txs = window (page * size) (page * size + size) (kept fl (visited sort rows.*2)) ∧
    Forall (λ t, pb.TransferTransactionsPerTick_Transactions t ≠ []) txs.
Proof.
  intros Hidx Hcap Hlo Hhi Hsize.
  destruct (entity_rows m id lo hi Hidx Hlo Hhi) as (rows & Hbetween & Hrows).
  destruct (visited_entries sort id _ _ Hrows) as (l & Hl & Hl2 & Hentries).
  destruct (page_loop_ok (page * size) (page * size + size) fl l 0 [] Hl (List.Forall_nil _))
    as (txs & Eloop & Hflat & Hne).
  rewrite Hl2 in Eloop, Hflat. rewrite !Nat.sub_0_r in Hflat.
  exists rows, txs. split; [done|]. split; [|done].
  unfold GetTransactionsForEntityPaged, entityRangeBounds. unfold no_spare_capacity in Hcap.
  rewrite decide_False by lia. simpl Pageable_Page. simpl Pageable_Size.
  rewrite <-Nat2Z.inj_mul, int64_small, <-Nat2Z.inj_add, int64_small, uint64_small by lia.
  runs_step (runs_wrapped; apply runs_NewIter).
  fold (visited sort ((λ '(k, v), (k, Ok (A := bytes) v)) <$>
    iter_entries m (BigEndian_AppendUint64 (identityTransferTransactions id) lo)
      (BigEndian_AppendUint64 (identityTransferTransactions id) (hi + 1)))).
  change (Z.of_nat 0) with 0 in Eloop.
  runs_step (rewrite Hentries, Eloop; apply runs_lift).
  apply runs_ret.
Qed.

(** C24: A page of an identity's transfers between two ticks is exactly the
    window [page * size, page * size + size) of its stored transfers that pass
    the filter (all of them, or those of an input type that is not 0), ascending or
    descending by tick; the total is their number; and no returned tick is without
    transactions. *)
Theorem GetTransactionsForEntityPaged_window m id lo hi (page size : nat) sort fl :
  transfer_index m id → no_spare_capacity id →
  0 ≤ lo < 2 ^ 64 → 0 ≤ hi < 2 ^ 64 - 1 → Z.of_nat (page * size + size) < 2 ^ 63 →
  ∃ rows txs, rows_between m id lo hi rows ∧
    runs m (GetTransactionsForEntityPaged id lo hi
              (MkPageable (Z.of_nat page) (Z.of_nat size)) sort fl)
      (Ok (txs, Z.of_nat (length (kept fl (visited sort rows.*2))))) m ∧
    flat txs = window (page * size) (page * size + size) (kept fl (visited sort rows.*2)) ∧
    Forall (λ t, pb.TransferTransactionsPerTick_Transactions t ≠ []) txs.
Proof. apply GetTransactionsForEntityPaged_page. Qed.

(** The first [n] pages of a list, one after the other. *)
Lemma windows_take {A} (size n : nat) (l : list A) :
  concat ((λ p, window (p * size) (p * size + size) l) <$> seq 0 n) = take (n * size) l.
Proof.
  induction n as [|n IH]; [by rewrite take_0|].
  rewrite seq_S, fmap_app, concat_app, IH. csimpl. rewrite app_nil_r. unfold window.
  replace (size + n * size)%nat with (n * size + size)%nat by lia.
  rewrite <-(take_drop (n * size) (take (n * size + size) l)) at 2.
  by rewrite take_take, Nat.min_l by lia.
Qed.

(** The pages of a query partition its transfers: enough pages, one after
    the other, list every kept transfer once and in order. *)
Theorem pages_partition m id lo hi (size n : nat) sort fl :
  transfer_index m id → no_spare_capacity id →
  0 ≤ lo < 2 ^ 64 → 0 ≤ hi < 2 ^ 64 - 1 → Z.of_nat (n * size + size) < 2 ^ 63 →
  ∃ rows pages, rows_between m id lo hi rows ∧ length pages = n ∧
    (∀ p txs, pages !! p = Some txs →
       ∃ total, runs m (GetTransactionsForEntityPaged id lo hi
         (MkPageable (Z.of_nat p) (Z.of_nat size)) sort fl) (Ok (txs, total)) m) ∧
    concat (flat <$> pages) = take (n * size) (kept fl (visited sort rows.*2)).
Proof.
  intros Hidx Hcap Hlo Hhi Hsize.
  destruct (entity_rows m id lo hi Hidx Hlo Hhi) as (rows & Hbetween & _).
  assert (Huniq : ∀ rows', rows_between m id lo hi rows' → rows' = rows).
  { intros rows' [Hs' Hin']. destruct Hbetween as [Hs Hin].
    apply (sorted_rows_unique rows' rows Hs' Hs). intros [t msg]. by rewrite Hin, Hin'. }
  destruct (Forall2_choice (λ p txs, ∃ total, runs m (GetTransactionsForEntityPaged id lo hi
      (MkPageable (Z.of_nat p) (Z.of_nat size)) sort fl) (Ok (txs, total)) m ∧
      flat txs = window (p * size) (p * size + size) (kept fl (visited sort rows.*2))) (seq 0 n))
    as [pages Hpages].
  { intros p Hp%elem_of_seq.
    destruct (GetTransactionsForEntityPaged_page m id lo hi p size sort fl)
      as (rows' & txs & Hb' & Hrun & Hflat & _); [done..|nia|].
    apply Huniq in Hb' as ->. eauto. }
  exists rows, pages. split; [done|]. split; [|split].
  - apply Forall2_length in Hpages. by rewrite length_seq in Hpages.
  - intros p txs Hp. destruct (Forall2_lookup_r _ _ _ _ _ Hpages Hp) as (p' & Hp' & total & Hrun & _).
    apply lookup_seq in Hp' as [-> _]. eauto.
  - rewrite <-windows_take. f_equal. clear -Hpages.
    induction Hpages as [|p txs ps pages (total & _ & Hflat) _ IH]; csimpl; [done|].
    by rewrite Hflat, IH.
Qed.

(** An identity whose key prefix has spare capacity for eight bytes gets an
    empty answer, with no error, whatever is stored: the two bounds share one
    array. *)
Theorem GetTransactionsForEntityPaged_aliased m id lo hi page sort fl :
  (length (identityTransferTransactions id) + 8 ≤
   grow (length (identityTransferTransactions id)))%nat →
  runs m (GetTransactionsForEntityPaged id lo hi page sort fl) (Ok ([], 0)) m.
Proof.
  intros Hcap. unfold GetTransactionsForEntityPaged, entityRangeBounds.
  rewrite decide_True by done. runs_step (runs_wrapped; apply runs_NewIter).
  set (b := BigEndian_AppendUint64 _ _).
  assert (E : iter_entries m b b = []).
  { apply elem_of_nil_inv. intros [k v] [_ [Hlo Hhi]]%elem_of_iter_entries.
    by apply bytes_le_not_lt in Hlo. }
  rewrite E. runs_step (destruct (Sortable_Descending sort); apply runs_lift).
  cbn. apply runs_ret.
Qed.

(** A row that cannot be decoded goes unnoticed when another row follows:
    the loop keeps only the error of its last iteration, drops the page built so
    far and counts on from -1. *)
Theorem page_loop_loses_error s e fl index txs err v msg :
  Unmarshal v = Ok msg →
  ∃ txs', foldO (page_step s e fl) (index, txs, None) [Err err; Ok v] =
    Ok (-1 + Z.of_nat (length (filterTransactions fl msg)), txs', None).
Proof.
  intros Hu. cbn [foldO]. unfold page_step at 1. unfold getTransfersPage at 1. ok_step.
  unfold page_step, getTransfersPage. ok_step. rewrite Hu. ok_step.
  set (all := filterTransactions fl msg).
  case_bool_decide as H1; [|by eexists].
  case_bool_decide as H2; [|by eexists].
  unfold slice. rewrite bool_decide_true by lia. by eexists.
Qed.
End Query.
