(* ===== verification/Concrete.v ===== *)
(** * Concrete instances of the interfaces

    An in-memory database (with a set of keys whose writes fail), a codec for
    every message, a polynomial hash in place of KangarooTwelve, and a small
    network.  They satisfy every law of Platform.v, so the laws can hold, and
    the witnesses of the theorems run on them. *)

From stdpp Require Import sorting base strings numbers pretty gmap list countable.
From S2P Require Import Prelude GoLib Types Platform Keys Store StoreLogic Utils.

Local Open Scope Z_scope.

(** ** Go runtime: entries visited in list order, capacity rounded up to 16 *)
#[export] Instance go_runtime : GoRuntime := {|
  map_range A l := l;
  grow n := ((n + 15) / 16 * 16)%nat
|}.

#[export] Instance go_runtime_laws : GoRuntimeLaws go_runtime.
Proof.
  split; [done|]. intros n. unfold grow, go_runtime.
  pose proof (Nat.div_mod (n + 15) 16 ltac:(lia)).
  pose proof (Nat.mod_upper_bound (n + 15) 16 ltac:(lia)). lia.
Qed.

(** ** A database in memory *)
Record mapdb := MkMapDB { mapdb_contents : gmap bytes bytes; mapdb_broken : gset bytes }.

Definition io_error : error := ExternalError 1.

Definition mapdb_write (k : bytes) (f : gmap bytes bytes → gmap bytes bytes) (db : mapdb) :
    outcome mapdb :=
  if bool_decide (k ∈ mapdb_broken db) then Err io_error
  else Ok (MkMapDB (f (mapdb_contents db)) (mapdb_broken db)).

Definition mapdb_commit (db : mapdb) (ws : list (bytes * bytes)) : outcome mapdb :=
  if bool_decide (Exists (λ w : bytes * bytes, w.1 ∈ mapdb_broken db) ws) then Err io_error
  else Ok (MkMapDB (apply_writes (mapdb_contents db) ws) (mapdb_broken db)).

#[export] Instance map_pebble : Pebble := {|
  DB := mapdb;
  db_Get db k := match mapdb_contents db !! k with
                 | Some v => Ok v
                 | None => Err PebbleErrNotFound
                 end;
  db_Set db k v := mapdb_write k <[k := v]> db;
  db_Delete db k := mapdb_write k (delete k) db;
  Batch := list (bytes * bytes);
  NewBatch := [];
  Batch_Set b k v := Ok (b ++ [(k, v)]);
  Batch_Commit := mapdb_commit;
  db_NewIter db lo hi :=
    Ok ((λ '(k, v), (k, Ok v)) <$> iter_entries (mapdb_contents db) lo hi)
|}.

#[export] Instance map_pebble_laws : PebbleLaws map_pebble.
Proof.
  refine {| contents := mapdb_contents;
            healthy := λ db, mapdb_broken db = ∅;
            batch_writes := λ b : list (bytes * bytes), b |}; simpl; unfold mapdb_write, mapdb_commit.
  - intros db k v. destruct (_ !! _); naive_solver.
  - intros db k e. destruct (_ !! _); naive_solver.
  - intros db k v db'. case_bool_decide; naive_solver.
  - intros db k db'. case_bool_decide; naive_solver.
  - naive_solver.
  - done.
  - intros db b db'. case_bool_decide; naive_solver.
  - done.
  - intros db k v ->. rewrite bool_decide_eq_false_2 by set_solver. eauto.
  - intros db k ->. rewrite bool_decide_eq_false_2 by set_solver. eauto.
  - eauto.
  - intros db b ->. rewrite bool_decide_eq_false_2; [eauto|].
    rewrite Exists_exists. set_solver.
  - intros db lo hi _. eexists. split; [done|]. split; [apply sorted_iter_entries|].
    apply elem_of_iter_entries.
Defined.

(** A database with contents and no failures. *)
Definition fresh_db (m : gmap bytes bytes) : mapdb := MkMapDB m ∅.

(** ** A codec for every message

    Numbers are written bit by bit with a terminator, lists and strings with
    their length, records field by field; the empty message is the empty
    buffer. *)
Fixpoint pos_bits (p : positive) : bytes :=
  match p with
  | xH => [2]
  | xO p => 0 :: pos_bits p
  | xI p => 1 :: pos_bits p
  end.

Fixpoint bits_pos (b : bytes) : option (positive * bytes) :=
  match b with
  | 0 :: b => '(p, b) ← bits_pos b; Some (xO p, b)
  | 1 :: b => '(p, b) ← bits_pos b; Some (xI p, b)
  | 2 :: b => Some (xH, b)
  | _ => None
  end.

Lemma bits_pos_bits p b : bits_pos (pos_bits p ++ b) = Some (p, b).
Proof. induction p as [p IH|p IH|]; simpl; [by rewrite IH..|done]. Qed.

Class Codec (A : Type) := {
  enc : A → bytes;
  dec : bytes → option (A * bytes);
  dec_enc a b : dec (enc a ++ b) = Some (a, b)
}.

#[export] Instance codec_Z : Codec Z.
Proof.
  refine {| enc z := match z with
                     | 0 => [0]
                     | Zpos p => 1 :: pos_bits p
                     | Zneg p => 2 :: pos_bits p
                     end;
            dec b := match b with
                     | 0 :: b => Some (0, b)
                     | 1 :: b => '(p, b) ← bits_pos b; Some (Zpos p, b)
                     | 2 :: b => '(p, b) ← bits_pos b; Some (Zneg p, b)
                     | _ => None
                     end |}.
  intros [|p|p] b; simpl; [done|by rewrite bits_pos_bits..].
Defined.

Definition codec_iso {A B} `{Codec B} (f : A → B) (g : B → A) (Hgf : ∀ a, g (f a) = a) : Codec A.
Proof.
  refine {| enc a := enc (f a); dec b := '(x, b) ← dec b; Some (g x, b) |}.
  intros a b. rewrite dec_enc. simpl. by rewrite Hgf.
Defined.

#[export] Instance codec_prod {A B} `{Codec A, Codec B} : Codec (A * B).
Proof.
  refine {| enc p := enc p.1 ++ enc p.2;
            dec b := '(x, b) ← dec b; '(y, b) ← dec b; Some ((x, y), b) |}.
  intros [x y] b. rewrite <-app_assoc, dec_enc. simpl. by rewrite dec_enc.
Defined.

#[export] Instance codec_bool : Codec bool :=
  codec_iso (λ b : bool, if b then 1 else 0) (λ z, bool_decide (z = 1))
    (λ b, match b with true => eq_refl | false => eq_refl end).

Fixpoint dec_list {A} `{Codec A} (n : nat) (b : bytes) : option (list A * bytes) :=
  match n with
  | O => Some ([], b)
  | S n => '(x, b) ← dec b; '(l, b) ← dec_list n b; Some (x :: l, b)
  end.

Lemma dec_list_enc {A} `{Codec A} (l : list A) b :
  dec_list (length l) (concat (enc <$> l) ++ b) = Some (l, b).
Proof.
  induction l as [|x l IH]; csimpl; [done|]. rewrite <-app_assoc, dec_enc. simpl. by rewrite IH.
Qed.

#[export] Instance codec_list {A} `{Codec A} : Codec (list A).
Proof.
  refine {| enc l := enc (Z.of_nat (length l)) ++ concat (enc <$> l);
            dec b := '(n, b) ← dec b; dec_list (Z.to_nat n) b |}.
  intros l b. rewrite <-app_assoc, dec_enc. simpl. by rewrite Nat2Z.id, dec_list_enc.
Defined.

#[export] Instance codec_string : Codec string :=
  codec_iso string_bytes bytes_string bytes_string_bytes.

#[export] Instance codec_gmap {A} `{Codec A} : Codec (gmap Z A) :=
  codec_iso map_to_list list_to_map list_to_map_to_list.

#[export] Instance codec_option {A} `{Codec A} : Codec (option A).
Proof.
  refine (codec_iso (λ o : option A, match o with Some a => [a] | None => [] end)
                    (λ l, match l with a :: _ => Some a | [] => None end) _).
  by intros [a|].
Defined.

Section Codec.
Context {A : Type} `{EqDecision A} `{Codec A} (zero : A) (norm : A → A).

Definition codec_Marshal (a : A) : outcome bytes :=
  if decide (a = zero) then Ok [] else Ok (1 :: enc a).

Definition codec_Unmarshal (b : bytes) : outcome A :=
  match b with
  | [] => Ok zero
  | 1 :: b =>
      match dec b with
      | Some (a, []) => Ok (norm a)
      | _ => Err (ErrorString "proto: cannot parse invalid wire-format data")
      end
  | _ => Err (ErrorString "proto: cannot parse invalid wire-format data")
  end.

Definition codec_msg : ProtoMsg A := {|
  Marshal := codec_Marshal;
  Marshal_nil := Ok [];
  Unmarshal := codec_Unmarshal;
  proto_Equal a b := bool_decide (a = b)
|}.

Lemma codec_roundtrip a b : norm zero = zero →
  codec_Marshal a = Ok b → codec_Unmarshal b = Ok (norm a).
Proof.
  intros Hz. unfold codec_Marshal, codec_Unmarshal. case_decide; subst; intros [= <-].
  - by rewrite Hz.
  - rewrite <-(app_nil_r (enc a)). by rewrite dec_enc.
Qed.

Definition codec_laws (Hz : norm zero = zero) : @ProtoLaws A codec_msg.
Proof.
  refine (@Build_ProtoLaws A codec_msg zero (λ _, True) norm _ _ _ _ _ _ I Hz _); simpl.
  - intros m _. unfold codec_Marshal. case_decide; eauto.
  - done.
  - done.
  - intros m b _. by apply codec_roundtrip.
  - unfold codec_Marshal. by rewrite decide_True.
  - done.
  - intros a b. by rewrite bool_decide_eq_true.
Defined.
End Codec.

Ltac record_codec := intros []; reflexivity.

#[export] Instance ProcessedTick_codec : Codec pb.ProcessedTick.
Proof.
  refine (codec_iso (λ r : pb.ProcessedTick, (pb.ProcessedTick_TickNumber r, pb.ProcessedTick_Epoch r))
    (λ '(x0, x1), pb.MkProcessedTick x0 x1) _).
  record_codec.
Defined.
#[export] Instance ProcessedTickInterval_codec : Codec pb.ProcessedTickInterval.
Proof.
  refine (codec_iso (λ r : pb.ProcessedTickInterval, (pb.ProcessedTickInterval_InitialProcessedTick r, pb.ProcessedTickInterval_LastProcessedTick r))
    (λ '(x0, x1), pb.MkProcessedTickInterval x0 x1) _).
  record_codec.
Defined.
#[export] Instance ProcessedTickIntervalsPerEpoch_codec : Codec pb.ProcessedTickIntervalsPerEpoch.
Proof.
  refine (codec_iso (λ r : pb.ProcessedTickIntervalsPerEpoch, (pb.ProcessedTickIntervalsPerEpoch_Epoch r, pb.ProcessedTickIntervalsPerEpoch_Intervals r))
    (λ '(x0, x1), pb.MkProcessedTickIntervalsPerEpoch x0 x1) _).
  record_codec.
Defined.
#[export] Instance SkippedTicksInterval_codec : Codec pb.SkippedTicksInterval.
Proof.
  refine (codec_iso (λ r : pb.SkippedTicksInterval, (pb.SkippedTicksInterval_StartTick r, pb.SkippedTicksInterval_EndTick r))
    (λ '(x0, x1), pb.MkSkippedTicksInterval x0 x1) _).
  record_codec.
Defined.
#[export] Instance SkippedTicksIntervalList_codec : Codec pb.SkippedTicksIntervalList.
Proof.
  refine (codec_iso (λ r : pb.SkippedTicksIntervalList, pb.SkippedTicksIntervalList_SkippedTicks r)
    (λ x0, pb.MkSkippedTicksIntervalList x0) _).
  record_codec.
Defined.
#[export] Instance TickData_codec : Codec pb.TickData.
Proof.
  refine (codec_iso (λ r : pb.TickData, (pb.TickData_ComputorIndex r, pb.TickData_Epoch r, pb.TickData_TickNumber r, pb.TickData_Timestamp r, pb.TickData_VarStruct r, pb.TickData_TimeLock r, pb.TickData_TransactionIds r, pb.TickData_ContractFees r, pb.TickData_SignatureHex r))
    (λ '(x0, x1, x2, x3, x4, x5, x6, x7, x8), pb.MkTickData x0 x1 x2 x3 x4 x5 x6 x7 x8) _).
  record_codec.
Defined.
#[export] Instance Transaction_codec : Codec pb.Transaction.
Proof.
  refine (codec_iso (λ r : pb.Transaction, (pb.Transaction_SourceId r, pb.Transaction_DestId r, pb.Transaction_Amount r, pb.Transaction_TickNumber r, pb.Transaction_InputType r, pb.Transaction_InputSize r, pb.Transaction_InputHex r, pb.Transaction_SignatureHex r, pb.Transaction_TxId r))
    (λ '(x0, x1, x2, x3, x4, x5, x6, x7, x8), pb.MkTransaction x0 x1 x2 x3 x4 x5 x6 x7 x8) _).
  record_codec.
Defined.
#[export] Instance TransactionStatus_codec : Codec pb.TransactionStatus.
Proof.
  refine (codec_iso (λ r : pb.TransactionStatus, (pb.TransactionStatus_TxId r, pb.TransactionStatus_MoneyFlew r))
    (λ '(x0, x1), pb.MkTransactionStatus x0 x1) _).
  record_codec.
Defined.
#[export] Instance TickTransactionsStatus_codec : Codec pb.TickTransactionsStatus.
Proof.
  refine (codec_iso (λ r : pb.TickTransactionsStatus, pb.TickTransactionsStatus_Transactions r)
    (λ x0, pb.MkTickTransactionsStatus x0) _).
  record_codec.
Defined.
#[export] Instance TransferTransactionsPerTick_codec : Codec pb.TransferTransactionsPerTick.
Proof.
  refine (codec_iso (λ r : pb.TransferTransactionsPerTick, (pb.TransferTransactionsPerTick_TickNumber r, pb.TransferTransactionsPerTick_Identity r, pb.TransferTransactionsPerTick_Transactions r))
    (λ '(x0, x1, x2), pb.MkTransferTransactionsPerTick x0 x1 x2) _).
  record_codec.
Defined.
#[export] Instance QuorumTickStructure_codec : Codec pb.QuorumTickStructure.
Proof.
  refine (codec_iso (λ r : pb.QuorumTickStructure, (pb.QuorumTickStructure_Epoch r, pb.QuorumTickStructure_TickNumber r, pb.QuorumTickStructure_Timestamp r, pb.QuorumTickStructure_PrevResourceTestingDigestHex r, pb.QuorumTickStructure_PrevSpectrumDigestHex r, pb.QuorumTickStructure_PrevUniverseDigestHex r, pb.QuorumTickStructure_PrevComputerDigestHex r, pb.QuorumTickStructure_TxDigestHex r, pb.QuorumTickStructure_PrevTransactionBodyHex r))
    (λ '(x0, x1, x2, x3, x4, x5, x6, x7, x8), pb.MkQuorumTickStructure x0 x1 x2 x3 x4 x5 x6 x7 x8) _).
  record_codec.
Defined.
#[export] Instance QuorumDiff_codec : Codec pb.QuorumDiff.
Proof.
  refine (codec_iso (λ r : pb.QuorumDiff, (pb.QuorumDiff_SaltedResourceTestingDigestHex r, pb.QuorumDiff_SaltedSpectrumDigestHex r, pb.QuorumDiff_SaltedUniverseDigestHex r, pb.QuorumDiff_SaltedComputerDigestHex r, pb.QuorumDiff_ExpectedNextTickTxDigestHex r, pb.QuorumDiff_SignatureHex r, pb.QuorumDiff_SaltedTransactionBodyHex r))
    (λ '(x0, x1, x2, x3, x4, x5, x6), pb.MkQuorumDiff x0 x1 x2 x3 x4 x5 x6) _).
  record_codec.
Defined.
#[export] Instance QuorumTickData_codec : Codec pb.QuorumTickData.
Proof.
  refine (codec_iso (λ r : pb.QuorumTickData, (pb.QuorumTickData_QuorumTickStructure_ r, pb.QuorumTickData_QuorumDiffPerComputor r))
    (λ '(x0, x1), pb.MkQuorumTickData x0 x1) _).
  record_codec.
Defined.
#[export] Instance QuorumDiffStored_codec : Codec pb.QuorumDiffStored.
Proof.
  refine (codec_iso (λ r : pb.QuorumDiffStored, (pb.QuorumDiffStored_ExpectedNextTickTxDigestHex r, pb.QuorumDiffStored_SignatureHex r))
    (λ '(x0, x1), pb.MkQuorumDiffStored x0 x1) _).
  record_codec.
Defined.
#[export] Instance QuorumTickDataStored_codec : Codec pb.QuorumTickDataStored.
Proof.
  refine (codec_iso (λ r : pb.QuorumTickDataStored, (pb.QuorumTickDataStored_QuorumTickStructure_ r, pb.QuorumTickDataStored_QuorumDiffPerComputor r))
    (λ '(x0, x1), pb.MkQuorumTickDataStored x0 x1) _).
  record_codec.
Defined.
#[export] Instance LastTickQuorumDataPerEpochIntervals_codec : Codec pb.LastTickQuorumDataPerEpochIntervals.
Proof.
  refine (codec_iso (λ r : pb.LastTickQuorumDataPerEpochIntervals, pb.LastTickQuorumDataPerEpochIntervals_QuorumDataPerInterval r)
    (λ x0, pb.MkLastTickQuorumDataPerEpochIntervals x0) _).
  record_codec.
Defined.
#[export] Instance Computors_codec : Codec pb.Computors.
Proof.
  refine (codec_iso (λ r : pb.Computors, (pb.Computors_Epoch r, pb.Computors_Identities r, pb.Computors_SignatureHex r))
    (λ '(x0, x1, x2), pb.MkComputors x0 x1 x2) _).
  record_codec.
Defined.

(** The only message whose nil and empty map the program distinguishes. *)
Definition norm_intervals (l : pb.LastTickQuorumDataPerEpochIntervals) :
    pb.LastTickQuorumDataPerEpochIntervals :=
  pb.MkLastTickQuorumDataPerEpochIntervals
    match pb.LastTickQuorumDataPerEpochIntervals_QuorumDataPerInterval l with
    | Some m => if decide (m = ∅) then None else Some m
    | None => None
    end.

#[export] Instance codec_protobuf : Protobuf := {|
  ProcessedTick_msg := codec_msg (pb.MkProcessedTick 0 0) id;
  ProcessedTickIntervalsPerEpoch_msg := codec_msg (pb.MkProcessedTickIntervalsPerEpoch 0 []) id;
  SkippedTicksIntervalList_msg := codec_msg (pb.MkSkippedTicksIntervalList []) id;
  TickData_msg := codec_msg pb.emptyTickData id;
  Transaction_msg := codec_msg
    (pb.MkTransaction EmptyString EmptyString 0 0 0 0 EmptyString EmptyString EmptyString) id;
  TransactionStatus_msg := codec_msg (pb.MkTransactionStatus EmptyString false) id;
  TickTransactionsStatus_msg := codec_msg (pb.MkTickTransactionsStatus []) id;
  TransferTransactionsPerTick_msg :=
    codec_msg (pb.MkTransferTransactionsPerTick 0 EmptyString []) id;
  QuorumTickDataStored_msg := codec_msg
    (pb.MkQuorumTickDataStored
       (pb.MkQuorumTickStructure 0 0 0 EmptyString EmptyString EmptyString EmptyString
          EmptyString EmptyString) ∅) id;
  LastTickQuorumDataPerEpochIntervals_msg :=
    codec_msg (pb.MkLastTickQuorumDataPerEpochIntervals None) norm_intervals;
  Computors_msg := codec_msg (pb.MkComputors 0 [] EmptyString) id
|}.

#[export] Instance codec_protobuf_laws : ProtobufLaws codec_protobuf.
Proof.
  unshelve refine (Build_ProtobufLaws codec_protobuf
    (codec_laws _ _ _) (codec_laws _ _ _) (codec_laws _ _ _) (codec_laws _ _ _)
    (codec_laws _ _ _) (codec_laws _ _ _) (codec_laws _ _ _) (codec_laws _ _ _)
    (codec_laws _ _ _) (codec_laws _ _ _) (codec_laws _ _ _)
    _ _ _ _ _ _ _ _ _ _ _ _ _ _ _ _ _); try reflexivity; done.
Defined.

(** ** A polynomial hash with as many bytes as asked for *)
Definition toy_hash (b : bytes) : Z :=
  foldl (λ h x, Z.land (h * 1000003 + x + 1) (Z.ones 256)) 7 b.

#[export] Instance toy_k12 : K12 := {|
  k12_state := bytes;
  k12_NewDraft10 c := c;
  k12_Write s b := Ok (s ++ b);
  k12_Read s n := Ok (le_bytes n (toy_hash s))
|}.

#[export] Instance toy_k12_laws : K12Laws toy_k12.
Proof.
  split; simpl; [by eauto|]. intros s n. eexists. split; [done|].
  split; [apply length_le_bytes|apply wf_le_bytes].
Qed.

(** ** A network of four computors in which three votes are a quorum

    An identity is the key followed by 28 letters, lower or upper case; a
    signature is good when its fifth byte is not 255. *)
Definition toy_suffix (lower : bool) : bytes := replicate 28 (if lower then 97 else 65).

Definition toy_MarshallBinary (tx : types.Transaction) : bytes :=
  types.Transaction_SourcePublicKey tx ++ types.Transaction_DestinationPublicKey tx ++
  le_bytes 8 (types.Transaction_Amount tx) ++ le_bytes 4 (types.Transaction_Tick tx) ++
  le_bytes 2 (types.Transaction_InputType tx) ++ le_bytes 2 (types.Transaction_InputSize tx) ++
  types.Transaction_Input tx ++ types.Transaction_Signature tx.

Definition toy_FromPubKey (pk : bytes) (lower : bool) : outcome string :=
  if decide (length pk = 32%nat) then Ok (bytes_string (pk ++ toy_suffix lower))
  else Err (ExternalError 2).

Definition toy_ToPubKey (id : string) (lower : bool) : outcome bytes :=
  if decide (String.length id = 60%nat) then Ok (take 32 (string_bytes id))
  else Err (ExternalError 3).

Definition toy_Digest (tx : types.Transaction) : bytes :=
  le_bytes 32 (toy_hash (toy_MarshallBinary tx)).

Definition vote_header (v : types.QuorumTickVote) : bytes :=
  le_bytes 2 (types.QuorumTickVote_ComputorIndex v) ++ le_bytes 2 (types.QuorumTickVote_Epoch v) ++
  le_bytes 4 (types.QuorumTickVote_Tick v) ++ types.QuorumTickVote_TxDigest v.

(** The signature field, as a 64-byte array. *)
Definition sig64 (s : bytes) : bytes := take 64 (s ++ zero_array 64).

#[export] Instance toy_network : NodeConnector := {|
  NumberOfComputors := 4;
  MinimumQuorumVotes := 3;
  NumberOfTransactionsPerTick := 4;
  MaxNumberOfContracts := 4;
  QutilAddress := "EAAAAAAAAAAAAAAAAAAAAAAAAAAAAAAAAAAAAAAAAAAAAAAAAAAAAAAAVWRF";
  Identity_FromPubKey := toy_FromPubKey;
  Identity_ToPubKey := toy_ToPubKey;
  Transaction_Digest tx := Ok (toy_Digest tx);
  Transaction_ID tx := toy_FromPubKey (toy_Digest tx) true;
  Transaction_MarshallBinary tx := Ok (toy_MarshallBinary tx);
  TickData_IsEmpty d := bool_decide (types.TickData_Epoch d = 0 ∧ types.TickData_Tick d = 0);
  QuorumTickVote_Write v := Ok (vote_header v ++ sig64 (types.QuorumTickVote_Signature v));
  TickData_Write d := Ok (le_bytes 2 (types.TickData_ComputorIndex d) ++
    le_bytes 2 (types.TickData_Epoch d) ++ le_bytes 4 (types.TickData_Tick d) ++
    concat (types.TickData_TransactionDigests d) ++ sig64 (types.TickData_Signature d));
  Computors_Write c := Ok (le_bytes 2 (types.Computors_Epoch c) ++
    concat (types.Computors_PubKeys c) ++ sig64 (types.Computors_Signature c));
  SendManyTransferPayload := list (string * Z);
  SendMany_UnmarshallBinary b := Ok [];
  SendMany_GetTransfers p := Ok p;
  SendMany_GetTotalAmount p := foldr (λ t, Z.add t.2) 0 p;
  schnorrq_Verify pk digest sig :=
    if bool_decide (sig !! 4%nat = Some 255) then Err (ExternalError 4) else Ok tt
|}.

Lemma length_sig64 s : length (sig64 s) = 64%nat.
Proof. unfold sig64. rewrite length_take, length_app, length_zero_array. lia. Qed.

Lemma sig64_ends a s : (64 ≤ length (a ++ sig64 s))%nat.
Proof. rewrite length_app, length_sig64. lia. Qed.

#[export] Instance toy_network_laws : NodeConnectorLaws toy_network.
Proof.
  split.
  - simpl. lia.
  - intros pk lower [Hl Hw]. cbn [Identity_FromPubKey toy_network]. unfold toy_FromPubKey. rewrite decide_True by done.
    eexists. split; [done|]. rewrite <-length_string_bytes, string_bytes_string.
    + rewrite length_app, Hl. unfold toy_suffix. by rewrite length_replicate.
    + apply Forall_app. split; [done|]. unfold toy_suffix. apply Forall_replicate.
      destruct lower; lia.
  - intros pk lower id [Hl Hw]. cbn [Identity_FromPubKey Identity_ToPubKey toy_network].
    unfold toy_FromPubKey, toy_ToPubKey.
    rewrite decide_True by done. intros [= <-].
    assert (Hwf : wf_bytes (pk ++ toy_suffix lower)).
    { apply Forall_app. split; [done|]. unfold toy_suffix. apply Forall_replicate.
      destruct lower; lia. }
    rewrite decide_True.
    + by rewrite string_bytes_string, take_app_length'.
    + rewrite <-length_string_bytes, string_bytes_string, length_app, Hl by done.
      unfold toy_suffix. by rewrite length_replicate.
  - intros v. eexists. split; [done|]. apply (sig64_ends (vote_header v)).
  - intros d. eexists. split; [done|]. cbn [TickData_Write toy_network]. rewrite !app_assoc. apply sig64_ends.
  - intros c. eexists. split; [done|]. rewrite !app_assoc. apply sig64_ends.
Qed.

(** The digest of a transaction is the hash of its binary form. *)
#[export] Instance toy_transaction_laws : TransactionLaws toy_network.
Proof. split; [by intros tx b [= <-]|by intros tx d id [= <-]]. Qed.

#[export] Instance toy_grpc : GrpcStatus := {|
  status_WithDetails e d :=
    match e with
    | StatusError c msg _ => Ok (StatusError c msg (Some d))
    | _ => Err (ExternalError 5)
    end
|}.

#[export] Instance toy_grpc_laws : GrpcStatusLaws toy_grpc.
Proof. done. Qed.
