(* ===== verification/Archive.v ===== *)
(** * Abstract specification of the archive's bookkeeping

    What the database says about progress, without keys and bytes: the last
    processed tick, the processed intervals of each epoch, the skipped
    intervals and the last tick of each epoch.  The processor's status update
    is a function on this state; [step] is one successful pass against a node
    that reports sane tick information.  Processor.v proves that the code
    refines it. *)

From stdpp Require Import sorting base strings numbers pretty gmap list.
From S2P Require Import Prelude GoLib Types Platform Store.

Local Open Scope Z_scope.

Record archive := MkArchive {
  ar_last : option pb.ProcessedTick;
  ar_intervals : gmap Z (list pb.ProcessedTickInterval);
  ar_skipped : option (list pb.SkippedTicksInterval);
  ar_lastPerEpoch : gmap Z Z
}.

Definition empty_archive : archive := MkArchive None ∅ None ∅.

(** ** The status update *)
Definition append_interval (e : Z) (i : pb.ProcessedTickInterval) (a : archive) : archive :=
  MkArchive (ar_last a) (<[e := default [] (ar_intervals a !! e) ++ [i]]> (ar_intervals a))
    (ar_skipped a) (ar_lastPerEpoch a).

Definition record_skipped (s : pb.SkippedTicksInterval) (a : archive) : archive :=
  MkArchive (ar_last a) (ar_intervals a) (Some (default [] (ar_skipped a) ++ [s]))
    (ar_lastPerEpoch a).

(** The intervals of the tick's epoch after the tick was processed. *)
Definition extended (t : Z) (l : list pb.ProcessedTickInterval) : list pb.ProcessedTickInterval :=
  match l with
  | [] => [pb.MkProcessedTickInterval t t]
  | _ => extend_last_interval t l
  end.

Definition set_last (pt : pb.ProcessedTick) (a : archive) : archive :=
  let t := pb.ProcessedTick_TickNumber pt in
  let e := pb.ProcessedTick_Epoch pt in
  MkArchive (Some pt)
    (<[e := extended t (default [] (ar_intervals a !! e))]> (ar_intervals a))
    (ar_skipped a) (<[e := t]> (ar_lastPerEpoch a)).

Definition update_status (last next : pb.ProcessedTick) (a : archive) : archive :=
  let l := pb.ProcessedTick_TickNumber last in
  let n := pb.ProcessedTick_TickNumber next in
  if bool_decide (n - l = 1) then set_last next a
  else set_last next
    (record_skipped (pb.MkSkippedTicksInterval (l + 1) (n - 1))
      (append_interval (pb.ProcessedTick_Epoch next) (pb.MkProcessedTickInterval n n) a)).

(** ** One pass of the processor *)

(** On the first run the last tick is 0, in the epoch the node reports. *)
Definition last_tick (info : types.TickInfo) (a : archive) : pb.ProcessedTick :=
  default (pb.MkProcessedTick 0 (types.TickInfo_Epoch info)) (ar_last a).

Definition next_tick (info : types.TickInfo) (last : pb.ProcessedTick) : pb.ProcessedTick :=
  if bool_decide (types.TickInfo_InitialTick info > pb.ProcessedTick_TickNumber last)
  then pb.MkProcessedTick (types.TickInfo_InitialTick info) (types.TickInfo_Epoch info)
  else pb.MkProcessedTick (pb.ProcessedTick_TickNumber last + 1) (pb.ProcessedTick_Epoch last).

(** What is assumed of the node: numbers in range, and an epoch that does not
    go back when its initial tick is ahead of the archive. *)
Definition node_sane (info : types.TickInfo) (a : archive) : Prop :=
  0 ≤ types.TickInfo_InitialTick info < 2 ^ 32 ∧
  0 ≤ types.TickInfo_Tick info < 2 ^ 32 - 1 ∧
  0 ≤ types.TickInfo_Epoch info < 2 ^ 16 ∧
  (types.TickInfo_InitialTick info > pb.ProcessedTick_TickNumber (last_tick info a) →
   pb.ProcessedTick_Epoch (last_tick info a) ≤ types.TickInfo_Epoch info).

Inductive step : archive → archive → Prop :=
| step_tick a info :
    node_sane info a →
    pb.ProcessedTick_TickNumber (next_tick info (last_tick info a)) ≤ types.TickInfo_Tick info →
    step a (update_status (last_tick info a) (next_tick info (last_tick info a)) a).

Definition reachable (a : archive) : Prop := rtc step empty_archive a.

(** ** What the archive says about a tick *)
Definition in_interval (t : Z) (i : pb.ProcessedTickInterval) : Prop :=
  pb.ProcessedTickInterval_InitialProcessedTick i ≤ t ≤ pb.ProcessedTickInterval_LastProcessedTick i.

Definition processed_in (a : archive) (e t : Z) : Prop :=
  ∃ l i, ar_intervals a !! e = Some l ∧ i ∈ l ∧ in_interval t i.

Definition skipped_in (t : Z) (s : pb.SkippedTicksInterval) : Prop :=
  pb.SkippedTicksInterval_StartTick s ≤ t ≤ pb.SkippedTicksInterval_EndTick s.

Definition skipped (a : archive) (t : Z) : Prop :=
  ∃ l s, ar_skipped a = Some l ∧ s ∈ l ∧ skipped_in t s.

Definition last_number (a : archive) : Z :=
  match ar_last a with Some pt => pb.ProcessedTick_TickNumber pt | None => 0 end.

Definition interval_before (i j : pb.ProcessedTickInterval) : Prop :=
  pb.ProcessedTickInterval_LastProcessedTick i < pb.ProcessedTickInterval_InitialProcessedTick j.

Definition interval_nonempty (i : pb.ProcessedTickInterval) : Prop :=
  pb.ProcessedTickInterval_InitialProcessedTick i ≤ pb.ProcessedTickInterval_LastProcessedTick i.

(** ** The invariant *)
Record archive_ok (a : archive) : Prop := {
  (** every epoch has intervals: non-empty, ordered, disjoint *)
  ok_epoch e l : ar_intervals a !! e = Some l →
    l ≠ [] ∧ Forall interval_nonempty l ∧ StronglySorted interval_before l;
  (** the intervals of an earlier epoch come before those of a later one *)
  ok_epochs e e' l l' i i' : ar_intervals a !! e = Some l → ar_intervals a !! e' = Some l' →
    e < e' → i ∈ l → i' ∈ l' → interval_before i i';
  (** the last processed tick closes the last interval of the last epoch *)
  ok_last pt : ar_last a = Some pt →
    1 ≤ pb.ProcessedTick_TickNumber pt < 2 ^ 32 - 1 ∧ 0 ≤ pb.ProcessedTick_Epoch pt < 2 ^ 16 ∧
    (∀ e, is_Some (ar_intervals a !! e) → 0 ≤ e ≤ pb.ProcessedTick_Epoch pt) ∧
    ∃ l i, ar_intervals a !! pb.ProcessedTick_Epoch pt = Some l ∧ last l = Some i ∧
           pb.ProcessedTickInterval_LastProcessedTick i = pb.ProcessedTick_TickNumber pt;
  ok_none : ar_last a = None → ar_intervals a = ∅ ∧ ar_skipped a = None;
  (** every interval lies between tick 1 and the last tick *)
  ok_bounds e t : processed_in a e t → 1 ≤ t ≤ last_number a;
  ok_skipped_bounds t : skipped a t → 1 ≤ t < last_number a;
  (** every tick up to the last one is processed or skipped, never both *)
  ok_cover t : 1 ≤ t ≤ last_number a → (∃ e, processed_in a e t) ∨ skipped a t;
  ok_exclusive e t : processed_in a e t → ¬ skipped a t;
  (** the per-epoch table holds the end of each epoch's last interval *)
  ok_per_epoch e t : ar_lastPerEpoch a !! e = Some t ↔
    ∃ l i, ar_intervals a !! e = Some l ∧ last l = Some i ∧
           pb.ProcessedTickInterval_LastProcessedTick i = t
}.

(** ** Lemmas on the interval lists *)
Lemma extend_last_interval_snoc t l i :
  extend_last_interval t (l ++ [i]) =
  l ++ [pb.MkProcessedTickInterval (pb.ProcessedTickInterval_InitialProcessedTick i) t].
Proof.
  unfold extend_last_interval. rewrite length_app. simpl.
  replace (length l + 1 - 1)%nat with (length l + 0)%nat by lia.
  induction l as [|j l IH]; simpl; [done|]. f_equal. apply IH.
Qed.

Lemma extended_snoc t l i :
  extended t (l ++ [i]) =
  l ++ [pb.MkProcessedTickInterval (pb.ProcessedTickInterval_InitialProcessedTick i) t].
Proof.
  unfold extended. destruct (l ++ [i]) eqn:E; [by destruct l|]. rewrite <-E.
  apply extend_last_interval_snoc.
Qed.

Lemma extended_fresh t l :
  extended t (l ++ [pb.MkProcessedTickInterval t t]) = l ++ [pb.MkProcessedTickInterval t t].
Proof. by rewrite extended_snoc. Qed.

Lemma last_snoc_inv {A} (l : list A) x : last l = Some x → ∃ l', l = l' ++ [x].
Proof. intros [l' H]%last_Some. eauto. Qed.

Lemma StronglySorted_snoc {A} (R : relation A) (l : list A) x :
  StronglySorted R (l ++ [x]) ↔ StronglySorted R l ∧ Forall (λ y, R y x) l.
Proof.
  induction l as [|y l IH]; simpl.
  - split; [by repeat constructor|]. repeat constructor.
  - split.
    + intros [H1 H2]%StronglySorted_inv. apply IH in H1 as [H1 H3].
      apply Forall_app in H2 as [H2 H4]. inversion H4; subst. split; by constructor.
    + intros [[H1 H2]%StronglySorted_inv H3]. inversion H3; subst. constructor.
      * apply IH. done.
      * apply Forall_app. split; [done|]. by constructor.
Qed.

(** Replacing the end of the last interval moves only that end. *)
Definition interval_to (i : pb.ProcessedTickInterval) (t : Z) : pb.ProcessedTickInterval :=
  pb.MkProcessedTickInterval (pb.ProcessedTickInterval_InitialProcessedTick i) t.

(** The two ways the list of the current epoch grows when tick [n] follows the
    last tick [T]: a new interval, or the last interval extended by one. *)
Definition grown (T n : Z) (old new : list pb.ProcessedTickInterval) : Prop :=
  new = old ++ [pb.MkProcessedTickInterval n n] ∨
  ∃ l i, old = l ++ [i] ∧ pb.ProcessedTickInterval_LastProcessedTick i = T ∧ n = T + 1 ∧
         new = l ++ [interval_to i n].

Section Grown.
Context (T n : Z) (old new : list pb.ProcessedTickInterval).
Context (Hgrown : grown T n old new) (HTn : T < n).
Context (Hne : Forall interval_nonempty old) (Hsorted : StronglySorted interval_before old).
Context (Hbound : ∀ i, i ∈ old → pb.ProcessedTickInterval_LastProcessedTick i ≤ T).

Lemma grown_nonempty : new ≠ [] ∧ Forall interval_nonempty new.
Proof.
  destruct Hgrown as [->|(l & i & -> & HT & -> & ->)].
  - split; [by destruct old|]. apply Forall_app. split; [done|].
    constructor; [unfold interval_nonempty; simpl; lia|done].
  - split; [by destruct l|]. apply Forall_app in Hne as [Hl Hi]. apply Forall_app.
    inversion Hi; subst. split; [done|]. constructor; [|done].
    unfold interval_nonempty in *. simpl. lia.
Qed.

Lemma grown_sorted : StronglySorted interval_before new.
Proof.
  destruct Hgrown as [->|(l & i & -> & HT & -> & ->)]; apply StronglySorted_snoc.
  - split; [done|]. apply Forall_forall. intros j Hj%Hbound.
    unfold interval_before. simpl. lia.
  - by apply StronglySorted_snoc in Hsorted.
Qed.

Lemma grown_covers t :
  (∃ i, i ∈ new ∧ in_interval t i) ↔ (∃ i, i ∈ old ∧ in_interval t i) ∨ t = n.
Proof.
  unfold in_interval. destruct Hgrown as [->|(l & i & -> & HT & -> & ->)].
  - setoid_rewrite elem_of_app. setoid_rewrite list_elem_of_singleton. split.
    + intros (j & [Hj| ->] & Ht); simpl in *; [eauto|right; lia].
    + intros [(j & Hj & Ht)| ->]; [by eauto|].
      eexists. split; [by right|]. simpl. lia.
  - apply Forall_app in Hne as [_ Hi]. inversion Hi as [|?? Hi' _]; subst.
    unfold interval_nonempty in Hi'.
    setoid_rewrite elem_of_app. setoid_rewrite list_elem_of_singleton. split.
    + intros (j & [Hj| ->] & Ht); simpl in *; [eauto|].
      destruct (decide (t ≤ pb.ProcessedTickInterval_LastProcessedTick i)).
      * left. exists i. split; [by right|lia].
      * right. lia.
    + intros [(j & [Hj| ->] & Ht)| ->]; [by eauto| |].
      * eexists. split; [by right|]. simpl. lia.
      * eexists. split; [by right|]. simpl. lia.
Qed.

(** What starts after an earlier epoch still does. *)
Lemma grown_after i' :
  pb.ProcessedTickInterval_LastProcessedTick i' ≤ T →
  (∀ i, i ∈ old → interval_before i' i) → ∀ i, i ∈ new → interval_before i' i.
Proof.
  intros Hi' Hold i. destruct Hgrown as [->|(l & j & -> & HT & -> & ->)];
    rewrite elem_of_app, list_elem_of_singleton; intros [Hi| ->].
  - by apply Hold.
  - unfold interval_before. simpl. lia.
  - apply Hold, elem_of_app. by left.
  - apply (Hold j), elem_of_app. right. by apply list_elem_of_singleton.
Qed.

Lemma grown_last :
  ∃ i, last new = Some i ∧ pb.ProcessedTickInterval_LastProcessedTick i = n.
Proof.
  destruct Hgrown as [->|(l & i & -> & HT & -> & ->)]; rewrite last_snoc; eauto.
Qed.
End Grown.

(** ** Preservation of the invariant *)
Lemma interval_bounds a e l i : archive_ok a →
  ar_intervals a !! e = Some l → i ∈ l →
  interval_nonempty i ∧ 1 ≤ pb.ProcessedTickInterval_InitialProcessedTick i ∧
  pb.ProcessedTickInterval_LastProcessedTick i ≤ last_number a.
Proof.
  intros Hok Hl Hi. destruct (ok_epoch _ Hok _ _ Hl) as (_ & Hne & _).
  rewrite Forall_forall in Hne. pose proof (Hne _ Hi) as Hi'. split; [done|].
  unfold interval_nonempty in Hi'.
  split; eapply (ok_bounds _ Hok e); exists l, i; unfold in_interval; eauto with lia.
Qed.

Lemma last_number_nonneg a : archive_ok a → 0 ≤ last_number a.
Proof.
  intros Hok. unfold last_number. destruct (ar_last a) eqn:E; [|lia].
  apply (ok_last _ Hok) in E as [? _]. lia.
Qed.

(** An archive whose last epoch grew to tick [n], the ticks in between being
    skipped, is still well-formed. *)
Section Advance.
Context (a a' : archive) (pt : pb.ProcessedTick) (old new : list pb.ProcessedTickInterval).
Let n := pb.ProcessedTick_TickNumber pt.
Let e' := pb.ProcessedTick_Epoch pt.
Let T := last_number a.
Context (Hok : archive_ok a) (Hlast : ar_last a' = Some pt).
Context (Hn : T < n < 2 ^ 32 - 1) (He' : 0 ≤ e' < 2 ^ 16).
Context (Hepochs : ∀ e, is_Some (ar_intervals a !! e) → 0 ≤ e ≤ e').
Context (Hold : old = default [] (ar_intervals a !! e')) (Hgrown : grown T n old new).
Context (Hintervals : ar_intervals a' = <[e' := new]> (ar_intervals a)).
Context (Hskipped : ∀ t, skipped a' t ↔ skipped a t ∨ T < t < n).
Context (Hper : ar_lastPerEpoch a' = <[e' := n]> (ar_lastPerEpoch a)).

Lemma old_cases : old = [] ∧ ar_intervals a !! e' = None ∨ ar_intervals a !! e' = Some old.
Proof. rewrite Hold. destruct (ar_intervals a !! e'); simpl; eauto. Qed.

Lemma old_ok : Forall interval_nonempty old ∧ StronglySorted interval_before old ∧
  ∀ i, i ∈ old → pb.ProcessedTickInterval_LastProcessedTick i ≤ T.
Proof.
  destruct old_cases as [[-> _]|Hl].
  - split; [done|]. split; [constructor|]. set_solver.
  - destruct (ok_epoch _ Hok _ _ Hl) as (_ & ? & ?). split; [done|]. split; [done|].
    intros i Hi. by eapply interval_bounds.
Qed.

Lemma processed_advance e t : processed_in a' e t ↔ processed_in a e t ∨ (e = e' ∧ t = n).
Proof.
  destruct old_ok as (Hne & Hso & Hbo).
  unfold processed_in. rewrite Hintervals. destruct (decide (e = e')) as [->|Hee].
  - rewrite lookup_insert_eq. pose proof (grown_covers T n old new Hgrown (proj1 Hn) Hne Hso Hbo t) as Hc.
    split.
    + intros (l & i & [= <-] & Hi & Ht).
      destruct (proj1 Hc) as [(j & Hj & Hjt)| ->]; [by eauto| |by auto].
      left. destruct old_cases as [[-> _]|Hl]; [set_solver|]. eauto.
    + intros H. destruct (proj2 Hc) as (i & Hi & Ht); [|by eauto].
      destruct H as [(l & i & Hl & Hi & Ht)|[_ ->]]; [|by auto].
      left. exists i. rewrite Hold, Hl. done.
  - rewrite lookup_insert_ne by done. naive_solver.
Qed.

Lemma epochs_advance e e2 l l2 i i2 :
  ar_intervals a' !! e = Some l → ar_intervals a' !! e2 = Some l2 →
  e < e2 → i ∈ l → i2 ∈ l2 → interval_before i i2.
Proof.
  rewrite Hintervals. intros Hl Hl2 Hee Hi Hi2.
  destruct (decide (e = e')) as [->|Hne1].
  { rewrite lookup_insert_ne in Hl2 by lia.
    assert (0 ≤ e2 ≤ e') by eauto. lia. }
  rewrite lookup_insert_ne in Hl by done.
  destruct (decide (e2 = e')) as [->|Hne2].
  - rewrite lookup_insert_eq in Hl2. injection Hl2 as <-.
    destruct old_ok as (Hne & Hso & Hbo).
    eapply (grown_after T n old new Hgrown (proj1 Hn) Hne Hso Hbo); [|intros j Hj|exact Hi2].
    + by eapply interval_bounds.
    + destruct old_cases as [[-> _]|Ho]; [set_solver|].
      by apply (ok_epochs _ Hok e e' l old).
  - rewrite lookup_insert_ne in Hl2 by done. by apply (ok_epochs _ Hok e e2 l l2).
Qed.

Lemma archive_ok_advance : archive_ok a'.
Proof.
  destruct old_ok as (Hne & Hso & Hbo).
  assert (Hnum : last_number a' = n) by (unfold last_number; by rewrite Hlast).
  pose proof (last_number_nonneg _ Hok) as HT. fold T in HT.
  split.
  - intros e l. rewrite Hintervals. destruct (decide (e = e')) as [->|Hee].
    + rewrite lookup_insert_eq. intros [= <-]. split; [|split].
      * apply (grown_nonempty T n old new Hgrown (proj1 Hn) Hne Hso Hbo).
      * apply (grown_nonempty T n old new Hgrown (proj1 Hn) Hne Hso Hbo).
      * apply (grown_sorted T n old new Hgrown (proj1 Hn) Hne Hso Hbo).
    + rewrite lookup_insert_ne by done. apply (ok_epoch _ Hok).
  - apply epochs_advance.
  - intros pt' Hpt. rewrite Hlast in Hpt. injection Hpt as <-. fold n e'.
    split; [lia|]. split; [done|]. split.
    + intros e [l Hl]. rewrite Hintervals in Hl. apply lookup_insert_Some in Hl.
      destruct Hl as [[<- _]|[_ Hl]]; [lia|by eauto].
    + exists new. destruct (grown_last T n old new Hgrown (proj1 Hn) Hne Hso Hbo) as (i & Hi & Hin).
      exists i. rewrite Hintervals. by rewrite lookup_insert_eq.
  - congruence.
  - intros e t. rewrite processed_advance, Hnum. intros [H| [-> ->]]; [|lia].
    apply (ok_bounds _ Hok) in H. fold T in H. lia.
  - intros t. rewrite Hskipped, Hnum. intros [H|?]; [|lia].
    apply (ok_skipped_bounds _ Hok) in H. fold T in H. lia.
  - intros t Ht. rewrite Hnum in Ht. rewrite Hskipped.
    destruct (decide (t ≤ T)) as [HtT|HtT].
    + destruct (ok_cover _ Hok t) as [[e He]|Hs]; [fold T; lia| |by auto].
      left. exists e. rewrite processed_advance. by left.
    + destruct (decide (t = n)) as [->|]; [|right; right; lia].
      left. exists e'. rewrite processed_advance. by right.
  - intros e t. rewrite processed_advance, Hskipped. intros [H| [-> ->]] [Hs|Hs].
    + by eapply (ok_exclusive _ Hok).
    + apply (ok_bounds _ Hok) in H. fold T in H. lia.
    + apply (ok_skipped_bounds _ Hok) in Hs. fold T in Hs. lia.
    + lia.
  - intros e t. rewrite Hper, Hintervals. destruct (decide (e = e')) as [->|Hee].
    + rewrite !lookup_insert_eq. destruct (grown_last T n old new Hgrown (proj1 Hn) Hne Hso Hbo) as (i & Hi & Hin).
      split; [intros [= <-]; eauto|]. intros (l & j & [= <-] & Hj & <-). congruence.
    + rewrite !lookup_insert_ne by done. apply (ok_per_epoch _ Hok).
Qed.
(** Well-formed again, with one processed tick more. *)
Lemma advance : archive_ok a' ∧ ∀ e t, processed_in a' e t ↔ processed_in a e t ∨ (e = e' ∧ t = n).
Proof. split; [apply archive_ok_advance|apply processed_advance]. Qed.
End Advance.

Lemma archive_ok_empty : archive_ok empty_archive.
Proof.
  assert (Hp : ∀ e t, ¬ processed_in empty_archive e t).
  { intros e t (l & i & Hl & _). simpl in Hl. by rewrite lookup_empty in Hl. }
  assert (Hs : ∀ t, ¬ skipped empty_archive t) by (intros t (l & s & Hl & _); done).
  split; simpl; try (intros *; rewrite ?lookup_empty; naive_solver).
  - intros t Ht. unfold last_number in Ht. simpl in Ht. lia.
Qed.

(** ** The two kinds of pass *)
Lemma last_tick_number info a :
  pb.ProcessedTick_TickNumber (last_tick info a) = last_number a.
Proof. unfold last_tick, last_number. by destruct (ar_last a). Qed.

Lemma last_tick_epoch info a : archive_ok a → node_sane info a →
  0 ≤ pb.ProcessedTick_Epoch (last_tick info a) < 2 ^ 16 ∧
  ∀ e, is_Some (ar_intervals a !! e) → 0 ≤ e ≤ pb.ProcessedTick_Epoch (last_tick info a).
Proof.
  intros Hok (_ & _ & Hep & _). unfold last_tick. destruct (ar_last a) as [pt|] eqn:E; simpl.
  - apply (ok_last _ Hok) in E as (_ & ? & ? & _). done.
  - split; [done|]. intros e [l Hl]. apply (ok_none _ Hok) in E as [E _].
    rewrite E in Hl. by rewrite lookup_empty in Hl.
Qed.

Lemma next_tick_after info a : node_sane info a → archive_ok a →
  let last := last_tick info a in
  let next := next_tick info last in
  pb.ProcessedTick_TickNumber last < pb.ProcessedTick_TickNumber next ∧
  pb.ProcessedTick_Epoch last ≤ pb.ProcessedTick_Epoch next ∧
  0 ≤ pb.ProcessedTick_Epoch next < 2 ^ 16.
Proof.
  intros Hsane Hok last next. pose proof (last_tick_epoch info a Hok Hsane) as [He _].
  destruct Hsane as (_ & _ & Hep & Hmono). fold last in He, Hmono.
  unfold next, next_tick. case_bool_decide; simpl; [|lia].
  pose proof (Hmono ltac:(lia)). lia.
Qed.

(** The last interval of the last epoch ends at the last tick. *)
Lemma current_epoch_last info a l : archive_ok a →
  ar_intervals a !! pb.ProcessedTick_Epoch (last_tick info a) = Some l →
  ∃ l0 i, l = l0 ++ [i] ∧ pb.ProcessedTickInterval_LastProcessedTick i = last_number a.
Proof.
  intros Hok Hl. unfold last_tick, last_number in *. destruct (ar_last a) as [pt|] eqn:E.
  - apply (ok_last _ Hok) in E as (_ & _ & _ & l' & i & Hl' & Hi & HiT).
    simpl in Hl. assert (l = l') as -> by congruence.
    apply last_snoc_inv in Hi as [l0 ->]. eauto.
  - apply (ok_none _ Hok) in E as [E _]. rewrite E in Hl. by rewrite lookup_empty in Hl.
Qed.

Section Step.
Context (a : archive) (info : types.TickInfo) (Hok : archive_ok a) (Hsane : node_sane info a).
Let last := last_tick info a.
Let next := next_tick info last.
Context (Htick : pb.ProcessedTick_TickNumber next ≤ types.TickInfo_Tick info).
Let n := pb.ProcessedTick_TickNumber next.
Let e' := pb.ProcessedTick_Epoch next.

Lemma next_facts : last_number a < n < 2 ^ 32 - 1 ∧ 0 ≤ e' < 2 ^ 16 ∧
  ∀ e, is_Some (ar_intervals a !! e) → 0 ≤ e ≤ e'.
Proof.
  destruct (next_tick_after info a Hsane Hok) as (H1 & H2 & H3).
  rewrite last_tick_number in H1. destruct Hsane as (_ & Ht & _).
  split; [unfold n, next, last in *; lia|]. split; [done|].
  intros e He. apply (last_tick_epoch info a Hok Hsane) in He.
  unfold e', next, last in *. lia.
Qed.

(** What a pass makes of the archive. *)
Definition advanced (a' : archive) : Prop :=
  archive_ok a' ∧ ∀ e t, processed_in a' e t ↔ processed_in a e t ∨ (e = e' ∧ t = n).

(** The tick right after the last one: no tick is skipped. *)
Lemma advanced_adjacent : n = last_number a + 1 → advanced (set_last next a).
Proof.
  intros Hn. destruct next_facts as (Hlt & He' & Hep).
  eapply (advance a _ next (default [] (ar_intervals a !! e'))
    (extended n (default [] (ar_intervals a !! e')))); try done.
  - destruct (ar_intervals a !! e') as [l|] eqn:El; simpl; [|by left]. right.
    assert (e' = pb.ProcessedTick_Epoch last) as Heq.
    { assert (pb.ProcessedTick_Epoch last ≤ e')
        by exact (proj1 (proj2 (next_tick_after info a Hsane Hok))).
      assert (0 ≤ e' ≤ pb.ProcessedTick_Epoch last)
        by (apply (last_tick_epoch info a Hok Hsane); eauto). lia. }
    rewrite Heq in El. apply (current_epoch_last info a l Hok) in El as (l0 & i & -> & Hi).
    exists l0, i. by rewrite extended_snoc.
  - intros t. unfold skipped, set_last. simpl. fold n. naive_solver lia.
Qed.

(** The node's initial tick is further ahead: the ticks before it are
    recorded as skipped and a new interval starts. *)
Lemma advanced_jump :
  advanced (set_last next
    (record_skipped (pb.MkSkippedTicksInterval (last_number a + 1) (n - 1))
      (append_interval e' (pb.MkProcessedTickInterval n n) a))).
Proof.
  destruct next_facts as (Hlt & He' & Hep).
  eapply (advance a _ next (default [] (ar_intervals a !! e'))
    (default [] (ar_intervals a !! e') ++ [pb.MkProcessedTickInterval n n])); try done.
  - by left.
  - unfold set_last, record_skipped, append_interval. simpl. fold n e'.
    rewrite lookup_insert_eq. simpl. by rewrite extended_fresh, insert_insert_eq.
  - intros t. unfold skipped, set_last, record_skipped. simpl. fold n. split.
    + intros (l & s & [= <-] & [Hs|Hs%list_elem_of_singleton]%elem_of_app & Ht); [|right].
      * left. destruct (ar_skipped a); [by eauto|set_solver].
      * subst s. unfold skipped_in in Ht. simpl in Ht. lia.
    + intros [(l & s & Hl & Hs & Ht)|Ht].
      * rewrite Hl. eexists _, s. split; [done|]. split; [|done].
        apply elem_of_app. by left.
      * eexists _, (pb.MkSkippedTicksInterval (last_number a + 1) (n - 1)). split; [done|].
        split; [apply elem_of_app; right; by apply list_elem_of_singleton|].
        unfold skipped_in. simpl. lia.
Qed.

Lemma advanced_status : advanced (update_status last next a).
Proof.
  unfold update_status, last. rewrite last_tick_number. case_bool_decide.
  - apply advanced_adjacent. unfold n, next, last in *. lia.
  - apply advanced_jump.
Qed.
End Step.

(** One pass keeps the invariant. *)
Lemma archive_ok_step a a' : archive_ok a → step a a' → archive_ok a'.
Proof. intros Hok Hstep. destruct Hstep. by apply advanced_status. Qed.

Lemma archive_ok_reachable a : reachable a → archive_ok a.
Proof.
  intros H. apply (rtc_ind_r (R := step) archive_ok empty_archive); [apply archive_ok_empty| |done].
  intros x y _ Hstep Hx. by eapply archive_ok_step.
Qed.

(** ** The processed ticks after a pass *)
Lemma update_status_last_number l n a :
  last_number (update_status l n a) = pb.ProcessedTick_TickNumber n.
Proof. unfold update_status. by case_bool_decide. Qed.

(** A pass processes one tick more. *)
Lemma step_processed info a e t : archive_ok a → node_sane info a →
  let next := next_tick info (last_tick info a) in
  pb.ProcessedTick_TickNumber next ≤ types.TickInfo_Tick info →
  processed_in (update_status (last_tick info a) next a) e t ↔
  processed_in a e t ∨ (e = pb.ProcessedTick_Epoch next ∧ t = pb.ProcessedTick_TickNumber next).
Proof. intros Hok Hsane next Hle. by apply advanced_status. Qed.
