(* ===== verification/Progress.v ===== *)
(** * The database represents an archive

    [represents m a]: the contents [m] hold the bookkeeping keys of the
    abstract archive [a].  The lemmas say how the store operations of the
    status update act on both sides, and that the interval iterator returns
    exactly the archive's intervals in epoch order. *)

From stdpp Require Import sorting base strings numbers pretty gmap list.
From S2P Require Import Prelude GoLib Types Platform Keys Store StoreLogic Archive.

Local Open Scope Z_scope.

Definition valid_tick (t : pb.ProcessedTick) : Prop :=
  is_uint32 (pb.ProcessedTick_TickNumber t) ∧ is_uint32 (pb.ProcessedTick_Epoch t).

(** The integers of an archive fit the fields that store them. *)
Record archive_valid (a : archive) : Prop := {
  valid_intervals e l : ar_intervals a !! e = Some l → is_uint32 e ∧ Forall valid_interval l;
  valid_skips l : ar_skipped a = Some l → Forall valid_skipped l;
  valid_last pt : ar_last a = Some pt → valid_tick pt
}.

Section Represents.
Context {P : Pebble} {PL : PebbleLaws P} {PR : Protobuf} {PRL : ProtobufLaws PR}.

Record represents (m : gmap bytes bytes) (a : archive) : Prop := {
  rep_last :
    match ar_last a with
    | Some pt => stored m lastProcessedTickKey pt
    | None => m !! lastProcessedTickKey = None
    end;
  rep_intervals e : is_uint32 e →
    match ar_intervals a !! e with
    | Some l => stored m (processedTickIntervalsPerEpochKey e)
                  (pb.MkProcessedTickIntervalsPerEpoch e l)
    | None => m !! processedTickIntervalsPerEpochKey e = None
    end;
  (** no other key has the interval prefix *)
  rep_interval_keys k : key_kind k = Some ProcessedTickIntervals → is_Some (m !! k) →
    ∃ e, is_uint32 e ∧ k = processedTickIntervalsPerEpochKey e;
  rep_skipped :
    match ar_skipped a with
    | Some l => stored m skippedTicksIntervalKey (pb.MkSkippedTicksIntervalList l)
    | None => m !! skippedTicksIntervalKey = None
    end;
  rep_per_epoch e : is_uint32 e →
    m !! lastProcessedTickKeyPerEpoch e = LittleEndian_PutUint32 <$> ar_lastPerEpoch a !! e;
  rep_per_epoch_keys k : key_kind k = Some LastProcessedTickPerEpoch → is_Some (m !! k) →
    ∃ e, is_uint32 e ∧ k = lastProcessedTickKeyPerEpoch e
}.

Lemma represents_empty : represents ∅ empty_archive.
Proof.
  split; simpl; intros; rewrite ?lookup_empty; try done.
  all: match goal with H : is_Some _ |- _ => rewrite lookup_empty in H; by destruct H end.
Qed.

(** Keys of other kinds are not part of the bookkeeping. *)
Definition bookkeeping_kind (x : Z) : Prop :=
  x = LastProcessedTick ∨ x = LastProcessedTickPerEpoch ∨ x = SkippedTicksInterval ∨
  x = ProcessedTickIntervals.

Lemma stored_agree {A} {PM : ProtoMsg A} (m m' : gmap bytes bytes) k (a : A) :
  m' !! k = m !! k → stored m k a → stored m' k a.
Proof. intros E (b & Hb & Hu). exists b. by rewrite E. Qed.

(** Only the bookkeeping keys matter. *)
Lemma represents_agree m m' a :
  (∀ k x, key_kind k = Some x → bookkeeping_kind x → m' !! k = m !! k) →
  represents m a → represents m' a.
Proof.
  intros Hag [H1 H2 H3 H4 H5 H6].
  assert (A1 : m' !! lastProcessedTickKey = m !! lastProcessedTickKey)
    by (eapply Hag; [done|by left]).
  assert (A2 : ∀ e, m' !! processedTickIntervalsPerEpochKey e =
                    m !! processedTickIntervalsPerEpochKey e)
    by (intros e; eapply Hag; [done|unfold bookkeeping_kind; auto]).
  assert (A4 : m' !! skippedTicksIntervalKey = m !! skippedTicksIntervalKey)
    by (eapply Hag; [done|unfold bookkeeping_kind; auto]).
  split.
  - destruct (ar_last a); [eapply stored_agree; [apply A1|done]|congruence].
  - intros e He. specialize (H2 e He).
    destruct (ar_intervals a !! e); [eapply stored_agree; [apply A2|done]|by rewrite A2].
  - intros k Hk Hs. rewrite (Hag k _ Hk) in Hs; [by apply H3|unfold bookkeeping_kind; auto].
  - destruct (ar_skipped a); [eapply stored_agree; [apply A4|done]|congruence].
  - intros e He. rewrite (Hag _ LastProcessedTickPerEpoch); [by apply H5|done|].
    unfold bookkeeping_kind; auto.
  - intros k Hk Hs. rewrite (Hag k _ Hk) in Hs; [by apply H6|unfold bookkeeping_kind; auto].
Qed.

Lemma interval_key_inj e e' : is_uint32 e → is_uint32 e' →
  processedTickIntervalsPerEpochKey e = processedTickIntervalsPerEpochKey e' → e = e'.
Proof. apply append32_inj. Qed.

(** ** Reading the intervals of an epoch *)
Lemma runs_getIntervals m a e : represents m a → is_uint32 e →
  runs m (getProcessedTickIntervalsPerEpoch e)
    (Ok (pb.MkProcessedTickIntervalsPerEpoch e (default [] (ar_intervals a !! e)))) m.
Proof.
  intros Hrep He. pose proof (rep_intervals _ _ Hrep e He) as H.
  unfold getProcessedTickIntervalsPerEpoch. destruct (ar_intervals a !! e) as [l|]; simpl.
  - destruct H as (b & Hb & Hu).
    runs_step (eapply runs_attempt; [by apply runs_Get_Some|done]).
    rewrite Hu. apply runs_lift.
  - runs_step (eapply runs_attempt; [by apply runs_Get_None|done]). apply runs_ret.
Qed.

(** ** Writing the intervals of an epoch *)
Definition with_intervals (e : Z) (l : list pb.ProcessedTickInterval) (a : archive) : archive :=
  MkArchive (ar_last a) (<[e := l]> (ar_intervals a)) (ar_skipped a) (ar_lastPerEpoch a).

Lemma runs_setIntervals m a e l : represents m a → is_uint32 e → Forall valid_interval l →
  ∃ m', runs m (SetProcessedTickIntervalPerEpoch e (pb.MkProcessedTickIntervalsPerEpoch e l))
          (Ok tt) m' ∧ represents m' (with_intervals e l a).
Proof.
  intros Hrep He Hl.
  pose proof (ProcessedTickIntervalsPerEpoch_valid e l He Hl) as Hv.
  destruct (Marshal_valid _ Hv) as [b Hb].
  pose proof (Unmarshal_Marshal _ _ Hv Hb) as Hu.
  rewrite ProcessedTickIntervalsPerEpoch_norm in Hu.
  eexists. split; [by eapply runs_set_message|].
  destruct Hrep as [H1 H2 H3 H4 H5 H6]. split; simpl.
  - destruct (ar_last a); [|by rewrite lookup_insert_ne by auto with keys].
    by apply stored_insert_ne; [auto with keys|].
  - intros e' He'. destruct (decide (e = e')) as [->|Hne].
    + rewrite lookup_insert_eq. by apply stored_insert.
    + rewrite lookup_insert_ne by done. specialize (H2 e' He').
      assert (processedTickIntervalsPerEpochKey e ≠ processedTickIntervalsPerEpochKey e').
      { intros Heq. apply Hne. by apply interval_key_inj. }
      destruct (ar_intervals a !! e'); [by apply stored_insert_ne|by rewrite lookup_insert_ne].
  - intros k Hk [v Hs]. apply lookup_insert_Some in Hs as [[<- _]|[_ Hs]]; [by eauto|].
    apply H3; [done|]. by eexists.
  - destruct (ar_skipped a); [|by rewrite lookup_insert_ne by auto with keys].
    by apply stored_insert_ne; [auto with keys|].
  - intros e' He'. rewrite lookup_insert_ne by auto with keys. by apply H5.
  - intros k Hk [v Hs]. apply lookup_insert_Some in Hs as [[<- _]|[_ Hs]]; [done|].
    apply H6; [done|]. by eexists.
Qed.

(** ** AppendProcessedTickInterval *)
Lemma runs_AppendProcessedTickInterval m a e i :
  represents m a → archive_valid a → is_uint32 e → valid_interval i →
  ∃ m', runs m (AppendProcessedTickInterval e i) (Ok tt) m' ∧
        represents m' (append_interval e i a).
Proof.
  intros Hrep Hval He Hi.
  destruct (runs_setIntervals m a e (default [] (ar_intervals a !! e) ++ [i]))
    as (m' & Hrun & Hrep'); [done..| |].
  { apply Forall_app. split; [|by constructor].
    destruct (ar_intervals a !! e) eqn:E; simpl; [|constructor].
    by eapply valid_intervals. }
  exists m'. split; [|done]. unfold AppendProcessedTickInterval.
  runs_step (runs_wrapped; by apply runs_getIntervals). runs_wrapped. exact Hrun.
Qed.
(** ** GetLastProcessedTick *)
Lemma runs_GetLastProcessedTick m a : represents m a →
  runs m GetLastProcessedTick
    (match ar_last a with Some pt => Ok pt | None => Err ErrNotFound end) m.
Proof.
  intros Hrep. pose proof (rep_last _ _ Hrep) as H. unfold GetLastProcessedTick.
  destruct (ar_last a); [by apply runs_get_stored|by apply runs_get_missing].
Qed.

(** ** SetSkippedTicksInterval *)
Lemma runs_SetSkippedTicksInterval m a s :
  represents m a → archive_valid a → valid_skipped s →
  ∃ m', runs m (SetSkippedTicksInterval s) (Ok tt) m' ∧ represents m' (record_skipped s a).
Proof.
  intros Hrep Hval Hs.
  set (l := default [] (ar_skipped a) ++ [s]).
  assert (Hl : Forall valid_skipped l).
  { apply Forall_app. split; [|by constructor].
    destruct (ar_skipped a) eqn:E; simpl; [by eapply valid_skips|constructor]. }
  pose proof (SkippedTicksIntervalList_valid l Hl) as Hv.
  destruct (Marshal_valid _ Hv) as [b Hb]. pose proof (Unmarshal_Marshal _ _ Hv Hb) as Hu.
  rewrite SkippedTicksIntervalList_norm in Hu.
  exists (<[skippedTicksIntervalKey := b]> m). split.
  - unfold SetSkippedTicksInterval.
    eapply (runs_bind _ m _ _ _
      (match ar_skipped a with
       | Some l => inl (pb.MkSkippedTicksIntervalList l)
       | None => inr ErrNotFound
       end)).
    { pose proof (rep_skipped _ _ Hrep) as H. unfold GetSkippedTicksInterval.
      destruct (ar_skipped a).
      - eapply runs_attempt; [by apply runs_get_stored|done].
      - eapply runs_attempt; [by apply runs_get_missing|done]. }
    eapply (runs_bind _ m _ _ _ (default [] (ar_skipped a))).
    { destruct (ar_skipped a); apply runs_ret. }
    runs_step (fold l; rewrite Hb; apply runs_lift). runs_wrapped. apply runs_Set.
  - destruct Hrep as [H1 H2 H3 H4 H5 H6]. split; simpl.
    + destruct (ar_last a); [|by rewrite lookup_insert_ne by auto with keys].
      by apply stored_insert_ne; [auto with keys|].
    + intros e He. specialize (H2 e He). destruct (ar_intervals a !! e).
      * by apply stored_insert_ne; [auto with keys|].
      * by rewrite lookup_insert_ne by auto with keys.
    + intros k Hk [v Hv']. apply lookup_insert_Some in Hv' as [[<- _]|[_ Hv']]; [done|].
      apply H3; [done|]. by eexists.
    + by apply stored_insert.
    + intros e He. rewrite lookup_insert_ne by auto with keys. by apply H5.
    + intros k Hk [v Hv']. apply lookup_insert_Some in Hv' as [[<- _]|[_ Hv']]; [done|].
      apply H6; [done|]. by eexists.
Qed.

(** ** SetLastProcessedTick *)
Definition with_last (pt : pb.ProcessedTick) (a : archive) : archive :=
  MkArchive (Some pt) (ar_intervals a) (ar_skipped a)
    (<[pb.ProcessedTick_Epoch pt := pb.ProcessedTick_TickNumber pt]> (ar_lastPerEpoch a)).

(** The batch writes the two last-tick keys together. *)
Lemma represents_with_last m a pt b :
  represents m a → valid_tick pt → Unmarshal b = Ok pt →
  represents
    (<[lastProcessedTickKey := b]>
       (<[lastProcessedTickKeyPerEpoch (pb.ProcessedTick_Epoch pt) :=
            LittleEndian_PutUint32 (pb.ProcessedTick_TickNumber pt)]> m))
    (with_last pt a).
Proof.
  intros [H1 H2 H3 H4 H5 H6] [Ht He] Hu. split; simpl.
  - by apply stored_insert.
  - intros e He'. specialize (H2 e He'). destruct (ar_intervals a !! e).
    + by do 2 (apply stored_insert_ne; [auto with keys|]).
    + by rewrite !lookup_insert_ne by auto with keys.
  - intros k Hk [v Hs]. apply lookup_insert_Some in Hs as [[<- _]|[_ Hs]]; [done|].
    apply lookup_insert_Some in Hs as [[<- _]|[_ Hs]]; [done|].
    apply H3; [done|]. by eexists.
  - destruct (ar_skipped a).
    + by do 2 (apply stored_insert_ne; [auto with keys|]).
    + by rewrite !lookup_insert_ne by auto with keys.
  - intros e He'. rewrite lookup_insert_ne by auto with keys.
    destruct (decide (pb.ProcessedTick_Epoch pt = e)) as [->|Hne].
    + by rewrite !lookup_insert_eq.
    + rewrite !lookup_insert_ne; [by apply H5|done|].
      intros Heq. by apply Hne, (append32_inj [LastProcessedTickPerEpoch]).
  - intros k Hk [v Hs]. apply lookup_insert_Some in Hs as [[<- _]|[_ Hs]]; [done|].
    apply lookup_insert_Some in Hs as [[<- _]|[_ Hs]]; [by eauto|].
    apply H6; [done|]. by eexists.
Qed.

Lemma extended_valid t l : is_uint32 t → Forall valid_interval l →
  Forall valid_interval (extended t l).
Proof.
  intros Ht Hl. destruct l as [|i l] using rev_ind.
  - constructor; [|constructor]. done.
  - rewrite extended_snoc. apply Forall_app in Hl as [Hl Hi]. apply Forall_app.
    split; [done|]. inversion Hi as [|?? [? ?]]; subst. constructor; [|constructor]. done.
Qed.

Lemma runs_SetLastProcessedTick m a pt :
  represents m a → archive_valid a → valid_tick pt →
  ∃ m', runs m (SetLastProcessedTick pt) (Ok tt) m' ∧ represents m' (set_last pt a).
Proof.
  intros Hrep Hval Hpt. destruct Hpt as [Ht He].
  pose proof (ProcessedTick_valid _ _ Ht He) as Hv.
  destruct pt as [t e]; simpl in *.
  destruct (Marshal_valid _ Hv) as [b Hb]. pose proof (Unmarshal_Marshal _ _ Hv Hb) as Hu.
  rewrite ProcessedTick_norm in Hu.
  destruct (Batch_Set_ok NewBatch (lastProcessedTickKeyPerEpoch e) (LittleEndian_PutUint32 t))
    as (b1 & E1 & W1).
  destruct (Batch_Set_ok b1 lastProcessedTickKey b) as (b2 & E2 & W2).
  rewrite W1, NewBatch_writes in W2.
  pose proof (represents_with_last m a (pb.MkProcessedTick t e) b Hrep (conj Ht He) Hu) as Hrep1.
  simpl in Hrep1. set (m1 := <[_ := b]> _) in Hrep1.
  destruct (runs_setIntervals m1 (with_last (pb.MkProcessedTick t e) a) e
    (extended t (default [] (ar_intervals a !! e)))) as (m' & Hset & Hrep'); [done..| |].
  { apply extended_valid; [done|]. destruct (ar_intervals a !! e) eqn:E; simpl; [|constructor].
    by eapply valid_intervals. }
  exists m'. split; [|done].
  unfold SetLastProcessedTick. cbn [pb.ProcessedTick_TickNumber pb.ProcessedTick_Epoch].
  runs_step (rewrite E1; apply runs_lift). runs_step (rewrite Hb; apply runs_lift).
  runs_step (rewrite E2; apply runs_lift).
  eapply (runs_bind _ m1).
  { runs_wrapped. pose proof (runs_Commit m b2) as Hc. by rewrite W2 in Hc. }
  runs_step (runs_wrapped; by apply (runs_getIntervals m1 _ e Hrep1)).
  cbn [pb.ProcessedTickIntervalsPerEpoch_Intervals pb.ProcessedTickIntervalsPerEpoch_Epoch].
  simpl (ar_intervals _). runs_wrapped.
  destruct (default [] (ar_intervals a !! e)) as [|i l] eqn:El; exact Hset.
Qed.

(** ** Validity of the updated archives *)
Lemma append_interval_valid a e i :
  archive_valid a → is_uint32 e → valid_interval i → archive_valid (append_interval e i a).
Proof.
  intros [V1 V2 V3] He Hi. split; simpl; [|done|done].
  intros e' l [[<- <-]|[_ Hl]]%lookup_insert_Some; [|by eauto]. split; [done|].
  apply Forall_app. split; [|by constructor].
  destruct (ar_intervals a !! e) eqn:E; simpl; [by eapply V1|constructor].
Qed.

Lemma record_skipped_valid a s :
  archive_valid a → valid_skipped s → archive_valid (record_skipped s a).
Proof.
  intros [V1 V2 V3] Hs. split; simpl; [done| |done].
  intros l [= <-]. apply Forall_app. split; [|by constructor].
  destruct (ar_skipped a); simpl; [by apply V2|constructor].
Qed.

Lemma set_last_valid a pt : archive_valid a → valid_tick pt → archive_valid (set_last pt a).
Proof.
  intros [V1 V2 V3] [Ht He]. split; simpl; [|done|by intros ? [= <-]].
  intros e' l [[<- <-]|[_ Hl]]%lookup_insert_Some; [|by eauto]. split; [done|].
  apply extended_valid; [done|].
  destruct (ar_intervals a !! _) eqn:E; simpl; [by eapply V1|constructor].
Qed.

(** ** GetProcessedTickIntervals

    The iterator visits the epochs below the digit bound in numeric order. *)
Definition interval_list (a : archive) (l : list pb.ProcessedTickIntervalsPerEpoch) : Prop :=
  StronglySorted Z.lt (pb.ProcessedTickIntervalsPerEpoch_Epoch <$> l) ∧
  ∀ p, p ∈ l ↔ ar_intervals a !! pb.ProcessedTickIntervalsPerEpoch_Epoch p =
               Some (pb.ProcessedTickIntervalsPerEpoch_Intervals p).

(** The entries of the interval iterator and the messages they decode to. *)
Definition decodes (e : bytes * bytes) (p : pb.ProcessedTickIntervalsPerEpoch) : Prop :=
  e.1 = processedTickIntervalsPerEpochKey (pb.ProcessedTickIntervalsPerEpoch_Epoch p) ∧
  is_uint32 (pb.ProcessedTickIntervalsPerEpoch_Epoch p) ∧ Unmarshal e.2 = Ok p.

Lemma runs_decode_entries m es l acc : Forall2 decodes es l →
  runs m (foldM (λ processedTickIntervals entry,
      value ← lift (wrap "getting value from iter" entry.2);
      ptie ← lift (wrap "unmarshalling iter ptie" (Unmarshal value));
      mret (processedTickIntervals ++ [ptie])) acc ((λ '(k, v), (k, Ok v)) <$> es))
    (Ok (acc ++ l)) m.
Proof.
  intros H. revert acc. induction H as [|[k v] p es l (_ & _ & Hu) _ IH]; intros acc; csimpl.
  - rewrite app_nil_r. apply runs_ret.
  - eapply runs_bind.
    + runs_step (apply runs_lift). runs_step (simpl in Hu; rewrite Hu; apply runs_lift).
      apply runs_ret.
    + replace (acc ++ p :: l) with ((acc ++ [p]) ++ l) by by rewrite <-app_assoc. apply IH.
Qed.

Lemma decodes_sorted es l : Forall2 decodes es l → StronglySorted bytes_lt es.*1 →
  StronglySorted Z.lt (pb.ProcessedTickIntervalsPerEpoch_Epoch <$> l).
Proof.
  induction 1 as [|e p es l (Hk & He & _) Hes IH]; csimpl; intros Hs; [constructor|].
  apply StronglySorted_inv in Hs as [Hs Hlt]. constructor; [by apply IH|].
  clear IH Hs. induction Hes as [|e' p' es l (Hk' & He' & _) _ IH]; csimpl; [constructor|].
  inversion Hlt as [|?? H1 H2]; subst. constructor; [|by apply IH].
  rewrite Hk, Hk' in H1. unfold bytes_lt, processedTickIntervalsPerEpochKey,
    BigEndian_AppendUint32 in H1. unfold is_uint32 in *.
  rewrite bytes_Compare_prefix, be_bytes_Compare in H1 by (simpl; lia).
  by apply Z.compare_lt_iff.
Qed.

Lemma interval_entries_decode m a : represents m a →
  (∀ e, is_Some (ar_intervals a !! e) → 0 ≤ e < 0x31000000) →
  ∃ l, Forall2 decodes
         (iter_entries m [ProcessedTickIntervals] (perEpochUpperBound ProcessedTickIntervals)) l ∧
       interval_list a l.
Proof.
  intros Hrep Hsmall.
  destruct (Forall2_choice decodes (iter_entries m [ProcessedTickIntervals]
    (perEpochUpperBound ProcessedTickIntervals))) as [l Hl].
  { intros [k v] [Hk Hr]%elem_of_iter_entries.
    apply (in_range_prefix _ ProcessedTickIntervals) in Hr; [|done].
    destruct (rep_interval_keys _ _ Hrep k Hr ltac:(eauto)) as (e & He & ->).
    pose proof (rep_intervals _ _ Hrep e He) as Hi.
    destruct (ar_intervals a !! e) as [ivs|]; [|congruence]. destruct Hi as (b & Hb & Hu).
    exists (pb.MkProcessedTickIntervalsPerEpoch e ivs). split; [done|]. split; [done|].
    simpl. congruence. }
  exists l. split; [done|]. split; [by eapply decodes_sorted, sorted_iter_entries|].
  intros p. split.
  - intros Hp. apply list_elem_of_lookup in Hp as [i Hi].
    destruct (Forall2_lookup_r _ _ _ _ _ Hl Hi) as ([k v] & Hkv & Hk & He & Hu).
    simpl in *. apply list_elem_of_lookup_2 in Hkv. apply elem_of_iter_entries in Hkv as [Hkv _].
    subst k. pose proof (rep_intervals _ _ Hrep _ He) as Hs.
    destruct (ar_intervals a !! _) as [ivs|]; [|congruence]. destruct Hs as (b & Hb & Hub).
    rewrite Hb in Hkv. injection Hkv as ->. rewrite Hu in Hub. injection Hub as Hub.
    rewrite Hub. done.
  - intros Hp. set (e := pb.ProcessedTickIntervalsPerEpoch_Epoch p) in *.
    assert (He : 0 ≤ e < 0x31000000) by eauto.
    assert (Hu32 : is_uint32 e) by (unfold is_uint32; lia).
    pose proof (rep_intervals _ _ Hrep e Hu32) as Hs. rewrite Hp in Hs.
    destruct Hs as (b & Hb & Hub).
    assert (Hin : (processedTickIntervalsPerEpochKey e, b) ∈ iter_entries m
      [ProcessedTickIntervals] (perEpochUpperBound ProcessedTickIntervals)).
    { apply elem_of_iter_entries. split; [done|]. by apply per_epoch_key_in_range. }
    apply list_elem_of_lookup in Hin as [i Hi].
    destruct (Forall2_lookup_l _ _ _ _ _ Hl Hi) as (p' & Hp' & _ & _ & Hu').
    simpl in Hu'. rewrite Hub in Hu'. injection Hu' as <-.
    replace p with (pb.MkProcessedTickIntervalsPerEpoch e
      (pb.ProcessedTickIntervalsPerEpoch_Intervals p)) by (unfold e; by destruct p).
    by eapply list_elem_of_lookup_2.
Qed.

Lemma runs_GetProcessedTickIntervals m a : represents m a →
  (∀ e, is_Some (ar_intervals a !! e) → 0 ≤ e < 0x31000000) →
  ∃ l, runs m GetProcessedTickIntervals (Ok l) m ∧ interval_list a l.
Proof.
  intros Hrep Hsmall. destruct (interval_entries_decode m a Hrep Hsmall) as (l & Hl & Hil).
  exists l. split; [|done]. unfold GetProcessedTickIntervals.
  runs_step (runs_wrapped; apply runs_NewIter). by apply (runs_decode_entries m _ l []).
Qed.
End Represents.
