(* ===== verification/Frame.v ===== *)
(** * What a computation may write

    [frame W c Q]: on any database, failing or not, every key whose value [c]
    changes satisfies [W] together with its new value ([None] for a deleted
    one), [c] keeps a healthy database healthy, and a value it returns
    satisfies [Q].  [on own] is the relation that restricts the keys only.  The
    rules follow the structure of the computation; [frame_steps] runs them. *)

From stdpp Require Import sorting base strings numbers pretty gmap list.
From S2P Require Import Prelude GoLib Types Platform Keys Store.

Local Open Scope Z_scope.

Definition on (own : bytes → Prop) : bytes → option bytes → Prop := λ k _, own k.

Section Frame.
Context {P : Pebble} {PL : PebbleLaws P}.
Implicit Types W : bytes → option bytes → Prop.

Definition frame W {A} (c : M DB A) (Q : A → Prop) : Prop := ∀ db,
  (healthy db → healthy (c db).2) ∧
  (∀ k, contents (c db).2 !! k = contents db !! k ∨ W k (contents (c db).2 !! k)) ∧
  (∀ a, (c db).1 = Ok a → Q a).

Definition writes_only W {A} (c : M DB A) : Prop := frame W c (λ _, True).

Lemma frame_lift W {A} (o : outcome A) (Q : A → Prop) :
  (∀ a, o = Ok a → Q a) → frame W (lift o) Q.
Proof. intros H db. split; [done|]. split; [by left|done]. Qed.

Lemma frame_ret W {A} (a : A) (Q : A → Prop) : Q a → frame W (mret a) Q.
Proof. intros H. apply frame_lift. by intros ? [= <-]. Qed.

Lemma frame_bind W {A B} (c : M DB A) (k : A → M DB B) (Q : A → Prop) (S : B → Prop) :
  frame W c Q → (∀ a, Q a → frame W (k a) S) → frame W (c ≫= k) S.
Proof.
  intros Hc Hk db. destruct (Hc db) as (Hh & Hf & Hq). unfold mbind, M_bind.
  destruct (c db) as [[a|e|] db1]; simpl in *; try (by split_and!).
  destruct (Hk a (Hq a eq_refl) db1) as (Hh' & Hf' & Hq').
  split; [by auto|]. split; [|done]. intros x. destruct (Hf' x) as [->|Hx]; [apply Hf|by right].
Qed.

Lemma frame_consequence W W' {A} (c : M DB A) (Q Q' : A → Prop) :
  frame W c Q → (∀ k v, W k v → W' k v) → (∀ a, Q a → Q' a) → frame W' c Q'.
Proof.
  intros Hc Ho HQ db. destruct (Hc db) as (H1 & H2 & H3). split; [done|]. split; [|by auto].
  intros k. destruct (H2 k) as [H|H]; [by left|right; by apply Ho].
Qed.

(** Keys outside [own] keep their values. *)
Lemma frame_outside own {A} (c : M DB A) (Q : A → Prop) db k :
  frame (on own) c Q → ¬ own k → contents (c db).2 !! k = contents db !! k.
Proof. intros Hc Hk. destruct (Hc db) as (_ & H & _). by destruct (H k). Qed.

Lemma frame_map_err W {A} f (c : M DB A) (Q : A → Prop) :
  frame W c Q → frame W (mmap_err f c) Q.
Proof.
  intros Hc db. destruct (Hc db) as (H1 & H2 & H3). unfold mmap_err.
  destruct (c db) as [[a|e|] db1]; simpl in *; by split_and!.
Qed.

Lemma writes_attempt W {A} (c : M DB A) :
  writes_only W c → writes_only W (mattempt c).
Proof.
  intros Hc db. destruct (Hc db) as (H1 & H2 & _). unfold mattempt.
  destruct (c db) as [o db1]; simpl in *; by split_and!.
Qed.

Lemma writes_bind W {A B} (c : M DB A) (k : A → M DB B) :
  writes_only W c → (∀ a, writes_only W (k a)) → writes_only W (c ≫= k).
Proof. intros Hc Hk. eapply frame_bind; [exact Hc|]. intros a _. apply Hk. Qed.

(** The continuation knows where the value came from. *)
Lemma frame_bind_lift W {A B} msg (o : outcome A) (k : A → M DB B) (S : B → Prop) :
  (∀ a, o = Ok a → frame W (k a) S) → frame W (lift (wrap msg o) ≫= k) S.
Proof.
  intros Hk. eapply frame_bind; [|exact Hk]. apply frame_lift. intros a H. by apply wrap_Ok in H.
Qed.

Lemma writes_bind_lift W {A B} msg (o : outcome A) (k : A → M DB B) :
  (∀ a, o = Ok a → writes_only W (k a)) → writes_only W (lift (wrap msg o) ≫= k).
Proof. apply frame_bind_lift. Qed.

Lemma writes_ret W {A} (a : A) : writes_only W (mret a).
Proof. by apply frame_ret. Qed.

Lemma writes_lift W {A} (o : outcome A) : writes_only W (lift o).
Proof. by apply frame_lift. Qed.

Lemma writes_throw W {A} e : writes_only W (throw (A := A) e).
Proof. apply writes_lift. Qed.

Lemma writes_map_err W {A} f (c : M DB A) :
  writes_only W c → writes_only W (mmap_err f c).
Proof. apply frame_map_err. Qed.

Lemma writes_wrap W {A} msg (c : M DB A) : writes_only W c → writes_only W (mwrap msg c).
Proof. apply frame_map_err. Qed.

Lemma writes_foldM W {A B} (f : B → A → M DB B) acc l :
  (∀ acc x, x ∈ l → writes_only W (f acc x)) → writes_only W (foldM f acc l).
Proof.
  revert acc. induction l as [|x l IH]; intros acc Hf; simpl; [apply writes_ret|].
  apply writes_bind; [apply Hf; by left|]. intros b. apply IH. intros. apply Hf. by right.
Qed.

Lemma writes_forM W {A} (l : list A) (f : A → M DB unit) :
  (∀ x, x ∈ l → writes_only W (f x)) → writes_only W (forM_ l f).
Proof. intros Hf. apply writes_foldM. auto. Qed.

Lemma writes_Get W k : writes_only W (pebble_Get k).
Proof. intros db. split; [done|]. split; [by left|done]. Qed.

Lemma writes_NewIter W lo hi : writes_only W (pebble_NewIter lo hi).
Proof. intros db. split; [done|]. split; [by left|done]. Qed.

Lemma writes_Set W k v : W k (Some v) → writes_only W (pebble_Set k v).
Proof.
  intros Hk db. unfold pebble_Set, db_write. destruct (db_Set db k v) as [db'|e|] eqn:E; simpl;
    [|by split; [|split; [left|]]..].
  split; [|split; [|done]].
  - intros Hh. destruct (db_Set_healthy db k v Hh) as (db1 & E1 & Hh1). congruence.
  - intros k'. rewrite (db_Set_sound _ _ _ _ E). destruct (decide (k = k')) as [<-|Hne].
    + right. by rewrite lookup_insert_eq.
    + left. by apply lookup_insert_ne.
Qed.

Lemma writes_Delete W k : W k None → writes_only W (pebble_Delete k).
Proof.
  intros Hk db. unfold pebble_Delete, db_write. destruct (db_Delete db k) as [db'|e|] eqn:E; simpl;
    [|by split; [|split; [left|]]..].
  split; [|split; [|done]].
  - intros Hh. destruct (db_Delete_healthy db k Hh) as (db1 & E1 & Hh1). congruence.
  - intros k'. rewrite (db_Delete_sound _ _ _ E). destruct (decide (k = k')) as [<-|Hne].
    + right. by rewrite lookup_delete_eq.
    + left. by apply lookup_delete_ne.
Qed.

(** A key after a batch: as before, or the last value the batch gives it. *)
Lemma apply_writes_cases m ws k :
  (apply_writes m ws !! k = m !! k ∧ k ∉ ws.*1) ∨
  ∃ v, (k, v) ∈ ws ∧ apply_writes m ws !! k = Some v.
Proof.
  unfold apply_writes. revert m. induction ws as [|[k' v'] ws IH]; intros m; csimpl.
  { left. split; [done|]. apply not_elem_of_nil. }
  destruct (IH (<[k' := v']> m)) as [[E Hn]|(v & Hin & E)].
  - rewrite E. destruct (decide (k' = k)) as [->|Hne].
    + right. exists v'. split; [by left|]. by rewrite lookup_insert_eq.
    + left. rewrite lookup_insert_ne by done. split; [done|]. by rewrite not_elem_of_cons.
  - right. exists v. split; [by right|done].
Qed.

Lemma apply_writes_other m ws k : k ∉ ws.*1 → apply_writes m ws !! k = m !! k.
Proof.
  intros Hk. destruct (apply_writes_cases m ws k) as [[E _]|(v & Hin & _)]; [done|].
  destruct Hk. by apply (list_elem_of_fmap_2 fst ws (k, v)).
Qed.

(** What a batch is about to write. *)
Definition batch_owned W (b : Batch) : Prop :=
  ∀ k v, (k, v) ∈ batch_writes b → W k (Some v).

Lemma writes_Commit W b : batch_owned W b → writes_only W (pebble_Commit b).
Proof.
  intros Hb db. unfold pebble_Commit, db_write.
  destruct (Batch_Commit db b) as [db'|e|] eqn:E; simpl; [|by split; [|split; [left|]]..].
  split; [|split; [|done]].
  - intros Hh. destruct (Batch_Commit_healthy db b Hh) as (db1 & E1 & Hh1). congruence.
  - intros k. rewrite (Batch_Commit_sound _ _ _ E).
    destruct (apply_writes_cases (contents db) (batch_writes b) k) as [[-> _]|(v & Hin & ->)];
      [by left|right; by apply Hb].
Qed.

Lemma batch_owned_new W : batch_owned W NewBatch.
Proof. intros k v. rewrite NewBatch_writes. by intros ?%elem_of_nil. Qed.

Lemma batch_owned_set W b k v b' :
  batch_owned W b → W k (Some v) → Batch_Set b k v = Ok b' → batch_owned W b'.
Proof.
  intros Hb Hk E k' v'. rewrite (Batch_Set_sound _ _ _ _ E), elem_of_app, list_elem_of_singleton.
  intros [H|[= -> ->]]; [by apply Hb|done].
Qed.

Lemma frame_Batch_Set W b k v msg :
  batch_owned W b → W k (Some v) → frame W (lift (wrap msg (Batch_Set b k v))) (batch_owned W).
Proof. intros Hb Hk. apply frame_lift. intros b' E%wrap_Ok. by eapply batch_owned_set. Qed.

Lemma frame_foldM W {A B} (f : B → A → M DB B) acc l (Q : B → Prop) :
  Q acc → (∀ acc x, x ∈ l → Q acc → frame W (f acc x) Q) → frame W (foldM f acc l) Q.
Proof.
  revert acc. induction l as [|x l IH]; intros acc Hacc Hf; simpl; [by apply frame_ret|].
  eapply frame_bind; [apply Hf; [by left|done]|]. intros b Hb. apply IH; [done|].
  intros. apply Hf; [by right|done].
Qed.
End Frame.

Create HintDb frame.
#[export] Hint Resolve writes_ret writes_lift writes_throw writes_map_err writes_wrap
  writes_attempt writes_Get writes_NewIter writes_bind writes_forM : frame.

(** One structural step: the first rule that applies, or a case analysis. *)
Ltac frame_step :=
  match goal with
  | |- writes_only _ (lift (wrap _ _) ≫= _) => apply writes_bind_lift; intros ? ?
  | |- writes_only _ (_ ≫= _) => apply writes_bind; [|intros ?]
  | |- writes_only _ (mret _) => apply writes_ret
  | |- writes_only _ (lift _) => apply writes_lift
  | |- writes_only _ (throw _) => apply writes_throw
  | |- writes_only _ (mwrap _ _) => apply writes_wrap
  | |- writes_only _ (mmap_err _ _) => apply writes_map_err
  | |- writes_only _ (mattempt _) => apply writes_attempt
  | |- writes_only _ (pebble_Get _) => apply writes_Get
  | |- writes_only _ (pebble_NewIter _ _) => apply writes_NewIter
  | |- writes_only _ (pebble_Set _ _) => apply writes_Set
  | |- writes_only _ (pebble_Delete _) => apply writes_Delete
  | |- writes_only _ (forM_ _ _) => apply writes_forM; intros ? ?
  | |- writes_only _ (foldM _ _ _) => apply writes_foldM; intros ? ? ?
  | |- writes_only _ (match ?x with _ => _ end) => destruct x
  | |- writes_only _ (let '_ := ?x in _) => destruct x
  end.
Ltac frame_steps := repeat frame_step.
