(* ===== verification/Success.v ===== *)
(** * What a successful computation tells

    Inversion of [c db = (Ok a, db')] on any database, failing or not: the
    statements before the last one succeeded too, a value that was read is
    stored, and a value that was written is there. *)

From stdpp Require Import sorting base strings numbers pretty gmap list.
From S2P Require Import Prelude GoLib Types Platform Keys Store StoreLogic Frame.

Local Open Scope Z_scope.

Section Success.
Context {P : Pebble} {PL : PebbleLaws P}.

Lemma lift_success {S A} (o : outcome A) (s : S) a s' : lift o s = (Ok a, s') ↔ o = Ok a ∧ s' = s.
Proof. unfold lift. naive_solver. Qed.

Lemma map_err_success {S A} f (c : M S A) s a s' :
  mmap_err f c s = (Ok a, s') ↔ c s = (Ok a, s').
Proof.
  unfold mmap_err. destruct (c s) as [[b|e|] s1]; simpl; naive_solver.
Qed.

Lemma wrap_success {S A} msg (c : M S A) s a s' : mwrap msg c s = (Ok a, s') ↔ c s = (Ok a, s').
Proof. apply map_err_success. Qed.

Lemma attempt_success {S A} (c : M S A) s r s' : mattempt c s = (Ok r, s') →
  (∃ a, r = inl a ∧ c s = (Ok a, s')) ∨ (∃ e, r = inr e ∧ c s = (Err e, s')).
Proof. unfold mattempt. destruct (c s) as [[b|e|] s1]; simpl; naive_solver. Qed.

Lemma Get_success k db v db' : pebble_Get k db = (Ok v, db') → db' = db ∧ contents db !! k = Some v.
Proof. unfold pebble_Get. intros [= E <-]. split; [done|]. by apply db_Get_sound. Qed.

Lemma Set_success k v db u db' :
  pebble_Set k v db = (Ok u, db') → contents db' = <[k := v]> (contents db).
Proof.
  unfold pebble_Set, db_write. destruct (db_Set db k v) as [db1|e|] eqn:E; [|done..].
  intros [= <- <-]. by apply db_Set_sound.
Qed.

Lemma Commit_success b db u db' :
  pebble_Commit b db = (Ok u, db') → contents db' = apply_writes (contents db) (batch_writes b).
Proof.
  unfold pebble_Commit, db_write. destruct (Batch_Commit db b) as [db1|e|] eqn:E; [|done..].
  intros [= <- <-]. by apply Batch_Commit_sound.
Qed.

(** What [c] does not own is as before. *)
Lemma unchanged own {A} (c : M DB A) o db db' k :
  c db = (o, db') → writes_only (on own) c → ¬ own k → contents db' !! k = contents db !! k.
Proof. intros E Hc Hk. pose proof (frame_outside own c _ db k Hc Hk) as H. by rewrite E in H. Qed.

(** A getter that succeeds found the message. *)
Lemma getter_success {A} {PM : ProtoMsg A} k f msg db (x : A) db' :
  (value ← mmap_err f (pebble_Get k); lift (wrap msg (Unmarshal value))) db = (Ok x, db') →
  db' = db ∧ stored (contents db) k x.
Proof.
  intros (v & db1 & E1%map_err_success & [E2 ->]%lift_success)%mbind_M_Ok.
  apply Get_success in E1 as [-> Hk]. apply wrap_Ok in E2. split; [done|]. by exists v.
Qed.

(** A setter that succeeds stored the message, as it will be read. *)
Lemma setter_success {A} {PM : ProtoMsg A} {PA : ProtoLaws A} k msg msg' (x : A) db u db' :
  (serialized ← lift (wrap msg (Marshal x)); mwrap msg' (pebble_Set k serialized)) db = (Ok u, db') →
  stored (contents db') k (proto_norm x).
Proof.
  intros (b & db1 & [E1%wrap_Ok ->]%lift_success & E2%wrap_success)%mbind_M_Ok.
  rewrite (Set_success _ _ _ _ _ E2). apply stored_insert.
  apply Unmarshal_Marshal; [by eapply Marshal_refuses|done].
Qed.
End Success.

(** Take a successful sequence apart. *)
Ltac success :=
  repeat match goal with
  | H : (_ ≫= _) _ = (Ok _, _) |- _ => apply mbind_M_Ok in H as (? & ? & ? & H)
  | H : lift _ _ = (Ok _, _) |- _ => apply lift_success in H as [? ->]
  | H : mwrap _ _ _ = (Ok _, _) |- _ => apply wrap_success in H
  | H : mmap_err _ _ _ = (Ok _, _) |- _ => apply map_err_success in H
  | H : mret _ _ = (Ok _, _) |- _ => injection H as ? ?; subst
  | H : throw _ _ = (Ok _, _) |- _ => discriminate H
  | H : pebble_Get _ _ = (Ok _, _) |- _ => apply Get_success in H as [-> ?]
  | H : wrap _ _ = Ok _ |- _ => apply wrap_Ok in H
  end.
