(* ===== verification/StoreProofs.v ===== *)
(** * store/store.go: theorems

    The list of empty ticks survives encoding; the two per-epoch tables are
    read back as the maps they stand for; the two records of the last processed
    tick change together or not at all, whatever the database does. *)

From stdpp Require Import sorting base strings numbers pretty gmap list.
From S2P Require Import Prelude GoLib Types Platform Keys Store StoreLogic Archive Progress Frame.

Local Open Scope Z_scope.

(** ** Four-byte groups *)
Lemma LittleEndian_Uint32_Put x : is_uint32 x →
  LittleEndian_Uint32 (LittleEndian_PutUint32 x) = Ok x.
Proof.
  intros Hx. unfold LittleEndian_Uint32, LittleEndian_PutUint32. rewrite decide_True.
  - rewrite take_ge by by rewrite length_le_bytes. by rewrite le_value_le_bytes.
  - by rewrite length_le_bytes.
Qed.

Lemma BigEndian_Uint32_key p e : is_uint32 e →
  BigEndian_Uint32 (drop 1 (BigEndian_AppendUint32 [p] e)) = Ok e.
Proof.
  intros He. unfold BigEndian_Uint32, BigEndian_AppendUint32.
  rewrite drop_app_length' by done. rewrite decide_True by by rewrite length_be_bytes.
  rewrite take_ge by by rewrite length_be_bytes. by rewrite be_value_be_bytes.
Qed.

Lemma BigEndian_Uint64_key p e : is_uint32 e →
  BigEndian_Uint64 (drop 1 (BigEndian_AppendUint64 [p] (uint64 e))) = Ok e.
Proof.
  intros He. unfold BigEndian_Uint64, BigEndian_AppendUint64. rewrite uint32_uint64 by done.
  rewrite drop_app_length' by done. rewrite decide_True by by rewrite length_be_bytes.
  rewrite take_ge by by rewrite length_be_bytes. unfold is_uint32 in He.
  rewrite be_value_be_bytes; [done|]. simpl Z.of_nat. lia.
Qed.

Lemma length_encode_ticks L : length (concat (LittleEndian_PutUint32 <$> L)) = (4 * length L)%nat.
Proof.
  induction L as [|x L IH]; [done|]. rewrite fmap_cons. cbn [concat length]. rewrite length_app, IH.
  unfold LittleEndian_PutUint32. rewrite length_le_bytes. lia.
Qed.

Lemma decode_encode_ticks L : Forall is_uint32 L →
  decode_ticks (length L) (concat (LittleEndian_PutUint32 <$> L)) = L.
Proof.
  induction 1 as [|x L Hx _ IH]; [done|]. rewrite fmap_cons. cbn [length decode_ticks concat].
  rewrite take_app_length', drop_app_length' by (symmetry; apply length_le_bytes).
  rewrite IH. f_equal. by apply le_value_le_bytes.
Qed.

Section StoreProofs.
Context {P : Pebble} {PL : PebbleLaws P} {PR : Protobuf} {PRL : ProtobufLaws PR}.
Implicit Types m : gmap bytes bytes.

(** ** The list of empty ticks *)
Definition encoded_list (L : list Z) : bytes := concat (LittleEndian_PutUint32 <$> L).

Lemma runs_SetEmptyTickList m e L :
  runs m (SetEmptyTickListPerEpoch e L) (Ok tt) (<[emptyTickListPerEpochKey e := encoded_list L]> m).
Proof. unfold SetEmptyTickListPerEpoch. runs_wrapped. apply runs_Set. Qed.

Lemma runs_GetEmptyTickList m e L : Forall is_uint32 L →
  m !! emptyTickListPerEpochKey e = Some (encoded_list L) →
  runs m (GetEmptyTickListPerEpoch e) (Ok L) m.
Proof.
  intros HL Hm. unfold GetEmptyTickListPerEpoch.
  runs_step (eapply runs_map_err; [by apply runs_Get_Some|done]).
  unfold encoded_list. rewrite length_encode_ticks.
  replace (4 * length L / 4)%nat with (length L)
    by (rewrite Nat.mul_comm, Nat.div_mul; done).
  rewrite Nat2Z.inj_mul, Z.mul_comm, Z.mod_mul by done.
  rewrite decode_encode_ticks by done. apply runs_ret.
Qed.

Lemma runs_AppendEmptyTick m e L t : Forall is_uint32 L →
  m !! emptyTickListPerEpochKey e = Some (encoded_list L) →
  runs m (AppendEmptyTickToEmptyTickListPerEpoch e t) (Ok tt)
    (<[emptyTickListPerEpochKey e := encoded_list (L ++ [t])]> m).
Proof.
  intros HL Hm. unfold AppendEmptyTickToEmptyTickListPerEpoch.
  runs_step (runs_wrapped; by apply runs_GetEmptyTickList).
  runs_wrapped. apply runs_SetEmptyTickList.
Qed.

(** A list of empty ticks that is written is read back unchanged, after
    further ticks were appended to it one by one. *)
Theorem empty_tick_list_roundtrip m e L K : Forall is_uint32 (L ++ K) →
  ∃ m', runs m (_ ← SetEmptyTickListPerEpoch e L;
                _ ← forM_ K (AppendEmptyTickToEmptyTickListPerEpoch e);
                GetEmptyTickListPerEpoch e) (Ok (L ++ K)) m' ∧
        ∀ k, k ≠ emptyTickListPerEpochKey e → m' !! k = m !! k.
Proof.
  set (m1 := <[emptyTickListPerEpochKey e := encoded_list L]> m). intros HLK.
  assert (Happ : ∀ K L m, Forall is_uint32 (L ++ K) →
    m !! emptyTickListPerEpochKey e = Some (encoded_list L) →
    ∃ m', runs m (forM_ K (AppendEmptyTickToEmptyTickListPerEpoch e)) (Ok tt) m' ∧
      m' !! emptyTickListPerEpochKey e = Some (encoded_list (L ++ K)) ∧
      ∀ k, k ≠ emptyTickListPerEpochKey e → m' !! k = m !! k).
  { clear. intros K. induction K as [|t K IH]; intros L m HLK Hm.
    - exists m. rewrite app_nil_r. split; [apply runs_ret|done].
    - destruct (IH (L ++ [t]) (<[emptyTickListPerEpochKey e := encoded_list (L ++ [t])]> m))
        as (m' & Hrun & Hm' & Hk).
      + by rewrite <-app_assoc.
      + by rewrite lookup_insert_eq.
      + rewrite <-app_assoc in Hm'. exists m'. split; [|split; [done|]].
        * eapply runs_bind; [|exact Hrun]. apply runs_AppendEmptyTick; [|done].
          by apply Forall_app in HLK as [? _].
        * intros k Hne. rewrite Hk by done. by apply lookup_insert_ne. }
  destruct (Happ K L m1 HLK) as (m' & Hrun & Hm' & Hk); [by apply lookup_insert_eq|].
  exists m'. split.
  - runs_step (apply runs_SetEmptyTickList). runs_step (exact Hrun).
    by apply runs_GetEmptyTickList.
  - intros k Hne. rewrite Hk by done. by apply lookup_insert_ne.
Qed.

(** ** Tables of numbers per epoch *)

(** The keys [key e] hold the table [c], and no other key is of their kind. *)
Definition table (key : Z → bytes) (kind : Z) (c : gmap Z Z) m : Prop :=
  (∀ e, is_uint32 e → m !! key e = LittleEndian_PutUint32 <$> c !! e) ∧
  (∀ k, key_kind k = Some kind → is_Some (m !! k) → ∃ e, is_uint32 e ∧ k = key e) ∧
  (∀ e t, c !! e = Some t → is_uint32 e ∧ is_uint32 t).

(** An entry of the iterator stands for an entry of the table. *)
Definition entry_of (key : Z → bytes) (c : gmap Z Z) (e : bytes * bytes) (p : Z * Z) : Prop :=
  e.1 = key p.1 ∧ e.2 = LittleEndian_PutUint32 p.2 ∧ c !! p.1 = Some p.2.

Lemma bytes_sorted_NoDup l : StronglySorted bytes_lt l → NoDup l.
Proof.
  induction 1 as [|x k _ IH Hx]; constructor; [|done].
  rewrite Forall_forall in Hx. intros Hin%Hx. by apply bytes_lt_irrefl in Hin.
Qed.

Lemma runs_read_table m key dk (f : Z → Z) (c c' : gmap Z Z) lo hi :
  (∀ e, is_uint32 e → dk (key e) = Ok e ∧ f e = e) →
  (∀ e t, c !! e = Some t → is_uint32 e ∧ is_uint32 t) → c' ⊆ c →
  (∀ k v, (k, v) ∈ iter_entries m lo hi ↔ ∃ e t, k = key e ∧ v = LittleEndian_PutUint32 t ∧
     c' !! e = Some t) →
  runs m (foldM (λ acc (entry : bytes * outcome bytes),
      value ← lift (wrap "getting value from iter" entry.2);
      epochNumber ← lift (dk entry.1);
      tickNumber ← lift (LittleEndian_Uint32 value);
      mret (<[f epochNumber := tickNumber]> (acc : gmap Z Z))) ∅
    ((λ '(k, v), (k, Ok v)) <$> iter_entries m lo hi)) (Ok c') m.
Proof.
  intros Hdk Hc' Hsub Hin.
  assert (Hc : ∀ e t, c' !! e = Some t → is_uint32 e ∧ is_uint32 t)
    by (intros e t He; by apply Hc', (lookup_weaken c')).
  destruct (Forall2_choice (entry_of key c') (iter_entries m lo hi)) as [l Hl].
  { intros [k v] (e & t & -> & -> & He)%Hin. by exists (e, t). }
  assert (Hnd : NoDup l.*1).
  { apply (NoDup_fmap_1 key). replace (key <$> l.*1) with (iter_entries m lo hi).*1.
    - apply bytes_sorted_NoDup, sorted_iter_entries.
    - clear -Hl. induction Hl as [|[k v] [e t] es l (Hk & _) _ IH]; csimpl; [done|].
      simpl in Hk. by rewrite Hk, IH. }
  assert (Hrun : ∀ es l acc, Forall2 (entry_of key c') es l →
    runs m (foldM (λ acc (entry : bytes * outcome bytes),
      value ← lift (wrap "getting value from iter" entry.2);
      epochNumber ← lift (dk entry.1);
      tickNumber ← lift (LittleEndian_Uint32 value);
      mret (<[f epochNumber := tickNumber]> (acc : gmap Z Z))) acc
      ((λ '(k, v), (k, Ok v)) <$> es))
    (Ok (foldl (λ acc '(e, t), <[e := t]> acc) acc l)) m).
  { clear -Hdk Hc PL. intros es l acc H. revert acc.
    induction H as [|[k v] [e t] es l (Hk & Hv & He) _ IH]; intros acc; csimpl; [apply runs_ret|].
    simpl in *. subst k v. destruct (Hc e t) as [Hue Hut]; [by eapply lookup_weaken|].
    destruct (Hdk e Hue) as [Hd Hf].
    eapply runs_bind; [|apply IH]. runs_step (apply runs_lift). simpl.
    runs_step (rewrite Hd; apply runs_lift).
    runs_step (rewrite LittleEndian_Uint32_Put by done; apply runs_lift).
    rewrite Hf. apply runs_ret. }
  replace c' with (foldl (λ acc '(e, t), <[e := t]> acc) ∅ l : gmap Z Z); [by apply Hrun|].
  apply map_eq. intros e. rewrite (foldl_insert_lookup (λ _ t, t)) by done.
  rewrite lookup_empty. destruct (c' !! e) as [t|] eqn:E.
  - assert (Hkv : (key e, LittleEndian_PutUint32 t) ∈ iter_entries m lo hi) by (apply Hin; eauto).
    apply list_elem_of_lookup in Hkv as [i Hi].
    destruct (Forall2_lookup_l _ _ _ _ _ Hl Hi) as ([e' t'] & Hp & Hk & Hv & He').
    simpl in *.
    assert (e = e') as <-.
    { destruct (Hdk e) as [H1 _]; [by apply (Hc e t)|].
      destruct (Hdk e') as [H2 _]; [by apply (Hc e' t')|]. rewrite Hk in H1. congruence. }
    assert (t = t') as <- by congruence.
    by rewrite (elem_of_list_to_map_1 l e t Hnd (list_elem_of_lookup_2 _ _ _ Hp)).
  - rewrite not_elem_of_list_to_map_1; [done|].
    intros ([e' t] & -> & He)%list_elem_of_fmap. apply list_elem_of_lookup in He as [i Hi].
    destruct (Forall2_lookup_r _ _ _ _ _ Hl Hi) as (x & _ & _ & _ & He'). simpl in *. congruence.
Qed.

(** ** The last processed tick of each epoch *)
Lemma represents_table m a : represents m a →
  (∀ e t, ar_lastPerEpoch a !! e = Some t → is_uint32 e ∧ is_uint32 t) →
  table lastProcessedTickKeyPerEpoch LastProcessedTickPerEpoch (ar_lastPerEpoch a) m.
Proof.
  intros Hrep Hc. split; [apply (rep_per_epoch _ _ Hrep)|].
  split; [apply (rep_per_epoch_keys _ _ Hrep)|done].
Qed.

Lemma runs_GetLastProcessedTicksPerEpoch m c :
  table lastProcessedTickKeyPerEpoch LastProcessedTickPerEpoch c m →
  (∀ e t, c !! e = Some t → 0 ≤ e < 0x31000000) →
  runs m GetLastProcessedTicksPerEpoch (Ok c) m.
Proof.
  intros (H1 & H2 & H3) Hsmall. unfold GetLastProcessedTicksPerEpoch.
  runs_step (runs_wrapped; apply runs_NewIter).
  apply (runs_read_table m lastProcessedTickKeyPerEpoch (λ k, BigEndian_Uint32 (drop 1 k)) (λ e, e) c c);
    [|done..|].
  - intros e He. split; [|done]. by apply BigEndian_Uint32_key.
  - intros k v. rewrite elem_of_iter_entries. split.
    + intros [Hk Hr]. apply (in_range_prefix _ LastProcessedTickPerEpoch) in Hr; [|done].
      destruct (H2 k Hr ltac:(eauto)) as (e & He & ->). rewrite H1 in Hk by done.
      apply fmap_Some in Hk as (t & Ht & ->). eauto.
    + intros (e & t & -> & -> & Ht). split.
      * rewrite H1 by by apply (H3 e t). by rewrite Ht.
      * apply per_epoch_key_in_range. by apply (Hsmall e t).
Qed.

(** ** The counts of empty ticks of a range of epochs *)
Definition epochs_between (first last : Z) (c : gmap Z Z) : gmap Z Z :=
  filter (λ p : Z * Z, first ≤ p.1 ≤ last) c.

Lemma append64_in_range p x y z : 0 ≤ x < 2 ^ 64 → 0 ≤ y < 2 ^ 64 → 0 ≤ z < 2 ^ 64 →
  in_range (BigEndian_AppendUint64 [p] x) (BigEndian_AppendUint64 [p] z)
    (BigEndian_AppendUint64 [p] y) ↔ x ≤ y < z.
Proof.
  intros Hx Hy Hz. unfold in_range, bytes_le, bytes_lt, BigEndian_AppendUint64.
  rewrite !bytes_Compare_prefix, !be_bytes_Compare by (simpl Z.of_nat; lia).
  rewrite Z.compare_le_iff, Z.compare_lt_iff. lia.
Qed.

(** The counts of empty ticks of a range of epochs are read back as the
    part of the table between the two epochs, both included. *)
Theorem GetEmptyTicksForEpochs_exact m c first last_ :
  table emptyTicksPerEpochKey EmptyTicksPerEpoch c m →
  is_uint32 first → 0 ≤ last_ < 2 ^ 32 - 1 →
  runs m (GetEmptyTicksForEpochs first last_) (Ok (epochs_between first last_ c)) m.
Proof.
  intros (H1 & H2 & H3) Hf Hl. unfold GetEmptyTicksForEpochs.
  rewrite (uint32_small (last_ + 1)) by lia.
  runs_step (runs_wrapped; apply runs_NewIter).
  assert (Hrange : ∀ e, is_uint32 e → in_range (emptyTicksPerEpochKey first)
    (emptyTicksPerEpochKey (last_ + 1)) (emptyTicksPerEpochKey e) ↔ first ≤ e ≤ last_).
  { unfold is_uint32 in *. intros e He. unfold emptyTicksPerEpochKey.
    rewrite !uint64_small by lia. rewrite append64_in_range by lia. lia. }
  apply (runs_read_table m emptyTicksPerEpochKey (λ k, BigEndian_Uint64 (drop 1 k)) uint32 c).
  - intros e He. split; [by apply BigEndian_Uint64_key|]. by apply uint32_small.
  - done.
  - apply map_filter_subseteq.
  - intros k v. rewrite elem_of_iter_entries. unfold epochs_between.
    setoid_rewrite map_lookup_filter_Some. simpl. split.
    + intros [Hk Hr]. apply key_kind_in_range in Hr as Hkind.
      destruct (H2 k Hkind ltac:(eauto)) as (e & He & ->). rewrite H1 in Hk by done.
      apply fmap_Some in Hk as (t & Ht & ->). apply Hrange in Hr; [|done].
      exists e, t. split_and!; done || lia.
    + intros (e & t & -> & -> & Ht & Hr). split.
      * rewrite H1 by by apply (H3 e t). by rewrite Ht.
      * apply Hrange; [by apply (H3 e t)|done].
Qed.

(** ** The two records of the last processed tick *)
(** Whatever fails on the way, [SetLastProcessedTick] writes the last
    processed tick and the epoch's last processed tick together or not at all. *)
Theorem SetLastProcessedTick_atomic db pt :
  let db' := (SetLastProcessedTick pt db).2 in
  let perEpoch := lastProcessedTickKeyPerEpoch (pb.ProcessedTick_Epoch pt) in
  (contents db' !! lastProcessedTickKey = contents db !! lastProcessedTickKey ∧
   contents db' !! perEpoch = contents db !! perEpoch) ∨
  (∃ b, Marshal pt = Ok b ∧ contents db' !! lastProcessedTickKey = Some b ∧
   contents db' !! perEpoch = Some (LittleEndian_PutUint32 (pb.ProcessedTick_TickNumber pt))).
Proof.
  destruct (SetLastProcessedTick pt db) as [o d] eqn:E. intros db' perEpoch. simpl in db'.
  unfold db'. clear db'. unfold SetLastProcessedTick in E. fold perEpoch in E.
  destruct (Batch_Set_ok NewBatch perEpoch (LittleEndian_PutUint32 (pb.ProcessedTick_TickNumber pt)))
    as (b1 & E1 & W1).
  unfold mbind at 1, M_bind at 1, lift at 1 in E. rewrite E1 in E. cbn [wrap map_err] in E.
  unfold mbind at 1, M_bind at 1, lift at 1 in E.
  destruct (Marshal pt) as [b|e|] eqn:Eb; cbn [wrap map_err] in E;
    [|injection E as <- <-; by left|injection E as <- <-; by left].
  destruct (Batch_Set_ok b1 lastProcessedTickKey b) as (b2 & E2 & W2).
  rewrite W1, NewBatch_writes in W2.
  unfold mbind at 1, M_bind at 1, lift at 1 in E. rewrite E2 in E. cbn [wrap map_err] in E.
  unfold mbind at 1, M_bind at 1, mwrap at 1, mmap_err at 1, pebble_Commit at 1, db_write at 1 in E.
  destruct (Batch_Commit db b2) as [db1|e|] eqn:E3; cbn [map_err] in E;
    [|injection E as <- <-; by left|injection E as <- <-; by left].
  pose proof (Batch_Commit_sound _ _ _ E3) as Hc. rewrite W2 in Hc.
  match type of E with ?c db1 = _ =>
    assert (Hw : writes_only (on (λ k, key_kind k = Some ProcessedTickIntervals)) c) end.
  { unfold getProcessedTickIntervalsPerEpoch, SetProcessedTickIntervalPerEpoch. frame_steps; done. }
  assert (Hrest : ∀ k, key_kind k ≠ Some ProcessedTickIntervals → contents d !! k = contents db1 !! k).
  { intros k Hk. pose proof (frame_outside _ _ _ db1 k Hw Hk) as H. by rewrite E in H. }
  right. exists b. split; [done|].
  rewrite !Hrest by done. rewrite Hc. unfold apply_writes. simpl. split.
  - by rewrite lookup_insert_eq.
  - rewrite lookup_insert_ne by (unfold perEpoch; auto with keys). by rewrite lookup_insert_eq.
Qed.
End StoreProofs.
