(* ===== verification/Computors.v ===== *)
(** * validator/computors: the computor list of an epoch

    Its validation (the arbitrator's signature over the serialized list), its
    stored form (the identities of the non-zero keys) and its way back. *)

From stdpp Require Import sorting base strings numbers pretty gmap list.
From S2P Require Import Prelude GoLib Types Platform Keys Store StoreLogic Utils.

Local Open Scope Z_scope.

Section Computors.
Context {P : Pebble} {PR : Protobuf} {R : GoRuntime} {K : K12} {N : NodeConnector}.

(** ** models.go *)
Definition pubKeysToIdentities_step (identities : list string) (identity : bytes) :
    outcome (list string) :=
  if bool_decide (identity = zero_array 32) then Ok identities
  else id ← wrap "getting identity from pubKey hex" (Identity_FromPubKey identity false);
       Ok (identities ++ [id]).

Definition pubKeysToIdentities (pubKeys : list bytes) : outcome (list string) :=
  foldO pubKeysToIdentities_step [] pubKeys.

Definition qubicToProto (computors : types.Computors) : outcome pb.Computors :=
  identities ← wrap "converting pubKeys to identities"
    (pubKeysToIdentities (types.Computors_PubKeys computors));
  Ok (pb.MkComputors (types.Computors_Epoch computors) identities
        (hex_EncodeToString (types.Computors_Signature computors))).

(** [pubKeys[i] = v] in an array: out of range is a run-time panic. *)
Definition array_set (l : list bytes) (i : nat) (v : bytes) : outcome (list bytes) :=
  if decide (i < length l)%nat then Ok (<[i := v]> l) else Panic.

Definition identitiesToPubKeys_step (pubKeys : list bytes) (entry : nat * string) :
    outcome (list bytes) :=
  let '(i, identity) := entry in
  if bool_decide (String.length identity = 0%nat) then Ok pubKeys
  else pubKeyBytes ← wrap "converting identity to pubkey" (Identity_ToPubKey identity false);
       array_set pubKeys i pubKeyBytes.

Definition identitiesToPubKeys (identities : list string) : outcome (list bytes) :=
  foldO identitiesToPubKeys_step (replicate NumberOfComputors (zero_array 32)) (imap pair identities).

Definition protoToQubic (computors : pb.Computors) : outcome types.Computors :=
  pubKeys ← wrap "converting proto identities to qubic model"
    (identitiesToPubKeys (pb.Computors_Identities computors));
  sigBytes ← wrap "decoding signature" (hex_DecodeString (pb.Computors_SignatureHex computors));
  Ok (types.MkComputors (uint16 (pb.Computors_Epoch computors)) pubKeys
        (copy_into (zero_array 64) sigBytes)).

(** ** validator.go *)
Definition getDigestFromComputors (data : types.Computors) : outcome bytes :=
  sData ← wrap "serializing data" (BinarySerialize (Computors_Write data));
  computorsData ← slice_to sData (Z.of_nat (length sData) - 64);
  wrap "hashing computors data" (K12Hash computorsData).

Definition Validate (sigVerifierFunc : SigVerifierFunc) (computors : types.Computors)
    (arbitratorPubKey : bytes) : outcome unit :=
  digest ← wrap "getting digest from computors" (getDigestFromComputors computors);
  wrap "verifying computors signature"
    (sigVerifierFunc arbitratorPubKey digest (types.Computors_Signature computors)).

Definition Store (epoch : Z) (computors : types.Computors) : M DB unit :=
  protoModel ← lift (wrap "qubic to proto" (qubicToProto computors));
  mwrap "set computors" (SetComputors epoch protoModel).

Definition Get (epoch : Z) : M DB types.Computors :=
  protoModel ← mwrap "get computors" (GetComputors epoch);
  lift (wrap "proto to qubic" (protoToQubic protoModel)).

(** ** The stored form determines the list

    As long as the non-zero keys come first, which is how the network fills
    the array. *)
Context {NL : NodeConnectorLaws N}.

Definition is_key (k : bytes) : Prop := is_array 32 k ∧ k ≠ zero_array 32.

(** A list as the network sends it: the keys, then unused slots. *)
Definition well_formed (c : types.Computors) : Prop :=
  0 ≤ types.Computors_Epoch c < 2 ^ 16 ∧ is_array 64 (types.Computors_Signature c) ∧
  ∃ keys unused, types.Computors_PubKeys c = keys ++ replicate unused (zero_array 32) ∧
    (length keys + unused = NumberOfComputors)%nat ∧ Forall is_key keys.

Definition identity_of (key : bytes) (id : string) : Prop :=
  Identity_FromPubKey key false = Ok id ∧ Identity_ToPubKey id false = Ok key ∧
  String.length id = 60%nat.

Lemma is_key_identity key : is_key key → ∃ id, identity_of key id.
Proof.
  intros [Hk _]. destruct (Identity_FromPubKey_total key false Hk) as (id & Hid & Hlen).
  exists id. split; [done|]. split; [by apply Identity_ToPubKey_FromPubKey|done].
Qed.

Lemma keys_identities keys : Forall is_key keys → ∃ ids, Forall2 identity_of keys ids.
Proof.
  induction 1 as [|key keys Hk _ [ids IH]]; [by exists []|].
  destruct (is_key_identity key Hk) as [id Hid]. exists (id :: ids). by constructor.
Qed.

Lemma pubKeysToIdentities_step_key acc key id : key ≠ zero_array 32 → identity_of key id →
  pubKeysToIdentities_step acc key = Ok (acc ++ [id]).
Proof.
  intros Hnz (Hf & _). unfold pubKeysToIdentities_step.
  rewrite bool_decide_false by done. by rewrite Hf.
Qed.

Lemma identitiesToPubKeys_step_key l i key id : identity_of key id → (i < length l)%nat →
  identitiesToPubKeys_step l (i, id) = Ok (<[i := key]> l).
Proof.
  intros (_ & Ht & Hlen) Hi. unfold identitiesToPubKeys_step.
  rewrite bool_decide_false by lia. rewrite Ht. simpl. unfold array_set. by rewrite decide_True.
Qed.

Lemma pubKeysToIdentities_app keys ids unused acc :
  Forall is_key keys → Forall2 identity_of keys ids →
  foldO pubKeysToIdentities_step acc (keys ++ replicate unused (zero_array 32)) =
  Ok (acc ++ ids).
Proof.
  intros Hk H. revert acc. induction H as [|key id keys ids Hid _ IH]; intros acc.
  - rewrite app_nil_r. induction unused as [|n IH]; [done|exact IH].
  - inversion Hk as [|?? [_ Hnz] Hk']; subst. cbn [app foldO].
    rewrite (pubKeysToIdentities_step_key _ _ id) by done. simpl.
    rewrite IH by done. by rewrite <-app_assoc.
Qed.

(** Filling slots [j, j+1, ...] of an array with the keys of the identities. *)
Lemma identitiesToPubKeys_fill keys ids done_ unused : Forall2 identity_of keys ids →
  foldO identitiesToPubKeys_step
    (done_ ++ replicate (length keys + unused) (zero_array 32))
    (imap (λ i, pair (length done_ + i)%nat) ids) =
  Ok (done_ ++ keys ++ replicate unused (zero_array 32)).
Proof.
  intros H. revert done_. induction H as [|key id keys ids Hid _ IH]; intros done_; [done|].
  cbn [length imap foldO]. rewrite (identitiesToPubKeys_step_key _ _ key) by
    (done || rewrite length_app; simpl; rewrite length_replicate; lia).
  simpl. rewrite Nat.add_0_r, insert_app_r_alt by lia. rewrite Nat.sub_diag. simpl.
  specialize (IH (done_ ++ [key])). rewrite <-!app_assoc in IH. simpl in IH.
  rewrite <-IH. f_equal. apply imap_ext. intros i x _. simpl.
  rewrite length_app. simpl. f_equal. lia.
Qed.

(** Zero keys are skipped, wherever they are. *)
Definition used (keys : list bytes) : list bytes := filter (λ k, k ≠ zero_array 32) keys.

Lemma pubKeysToIdentities_used keys acc :
  foldO pubKeysToIdentities_step acc keys = foldO pubKeysToIdentities_step acc (used keys).
Proof.
  unfold used. revert acc. induction keys as [|key keys IH]; intros acc; [done|].
  rewrite filter_cons. destruct (decide (key = zero_array 32)) as [Hk|Hk];
    [rewrite decide_False by naive_solver|rewrite decide_True by done]; cbn [foldO].
  2: destruct (pubKeysToIdentities_step acc key); simpl; auto.
  subst key. apply IH.
Qed.

(** A list of the network: the right number of keys of the right size. *)
Record sized (c : types.Computors) : Prop := {
  sized_epoch : 0 ≤ types.Computors_Epoch c < 2 ^ 16;
  sized_signature : is_array 64 (types.Computors_Signature c);
  sized_length : length (types.Computors_PubKeys c) = NumberOfComputors;
  sized_keys : Forall (is_array 32) (types.Computors_PubKeys c)
}.

(** The list with its non-zero keys moved to the front. *)
Definition compacted (c : types.Computors) : types.Computors :=
  let keys := used (types.Computors_PubKeys c) in
  types.MkComputors (types.Computors_Epoch c)
    (keys ++ replicate (NumberOfComputors - length keys) (zero_array 32))
    (types.Computors_Signature c).

Lemma roundtrip_compacted c : sized c →
  ∃ p, qubicToProto c = Ok p ∧ protoToQubic p = Ok (compacted c).
Proof.
  intros [He [Hs Hws] Hlen Hk].
  assert (Hkeys : Forall is_key (used (types.Computors_PubKeys c))).
  { apply Forall_forall. intros k [Hnz Hin]%list_elem_of_filter. split; [|done].
    rewrite Forall_forall in Hk. by apply Hk. }
  assert (Hle : (length (used (types.Computors_PubKeys c)) ≤ NumberOfComputors)%nat)
    by (rewrite <-Hlen; apply length_filter).
  destruct (keys_identities _ Hkeys) as [ids Hids].
  exists (pb.MkComputors (types.Computors_Epoch c) ids
            (hex_EncodeToString (types.Computors_Signature c))). split.
  - unfold qubicToProto, pubKeysToIdentities. rewrite pubKeysToIdentities_used.
    pose proof (pubKeysToIdentities_app _ ids 0 [] Hkeys Hids) as E.
    simpl replicate in E. rewrite app_nil_r in E. by rewrite E.
  - unfold protoToQubic, identitiesToPubKeys. simpl.
    pose proof (identitiesToPubKeys_fill _ ids []
      (NumberOfComputors - length (used (types.Computors_PubKeys c))) Hids) as Hfill.
    simpl in Hfill. rewrite Nat.add_comm, Nat.sub_add in Hfill by done.
    change (λ i : nat, pair i) with (@pair nat string) in Hfill.
    rewrite Hfill. simpl. rewrite hex_DecodeString_EncodeToString by done. simpl.
    by rewrite uint16_small, copy_into_full by (done || (rewrite length_zero_array; done)).
Qed.

(** C34: Converting a computor list to its stored form and back keeps the epoch,
    the signature and the non-zero keys in their order; zero keys are dropped
    and the array is filled up at its end. *)
Theorem protoToQubic_qubicToProto c : sized c →
  ∃ p, qubicToProto c = Ok p ∧ protoToQubic p = Ok (compacted c).
Proof. apply roundtrip_compacted. Qed.

(** A list whose keys come first is its own compaction. *)
Lemma compacted_well_formed c : well_formed c → sized c ∧ compacted c = c.
Proof.
  intros (He & Hs & keys & unused & Hpk & Hlen & Hk).
  assert (Hused : used (types.Computors_PubKeys c) = keys).
  { unfold used. rewrite Hpk, filter_app, list_filter_all.
    - replace (filter _ (replicate unused _)) with (@nil bytes); [by rewrite app_nil_r|].
      symmetry. apply elem_of_nil_inv. intros k [Hnz Hin]%list_elem_of_filter.
      by apply elem_of_replicate in Hin as [-> _].
    - intros k Hin. rewrite Forall_forall in Hk. by apply Hk. }
  split.
  - split; [done|done| |].
    + by rewrite Hpk, length_app, length_replicate.
    + rewrite Hpk. apply Forall_app. split; [by eapply Forall_impl; [exact Hk|intros k []]|].
      apply Forall_replicate, is_array_zero.
  - unfold compacted. rewrite Hused. replace (NumberOfComputors - length keys)%nat with unused by lia.
    rewrite <-Hpk. by destruct c.
Qed.

Context {PL : PebbleLaws P} {PRL : ProtobufLaws PR}.

Lemma runs_Computors_Store m epoch c p : qubicToProto c = Ok p → proto_valid p →
  ∃ b, Marshal p = Ok b ∧ Unmarshal b = Ok p ∧
       runs m (Store epoch c) (Ok tt) (<[computorsKey epoch := b]> m).
Proof.
  intros Hp Hv. destruct (Marshal_valid p Hv) as [b Hb]. exists b. split; [done|]. split.
  - by rewrite (Unmarshal_Marshal p b Hv Hb), Computors_norm.
  - unfold Store. runs_step (rewrite Hp; apply runs_lift). runs_wrapped. by apply runs_set_message.
Qed.

Lemma runs_Computors_Get m epoch c p : protoToQubic p = Ok c → stored m (computorsKey epoch) p →
  runs m (Get epoch) (Ok c) m.
Proof.
  intros Hc Hp. unfold Get. runs_step (runs_wrapped; by apply runs_get_stored).
  rewrite Hc. apply runs_lift.
Qed.

(** C33: A computor list stored for an epoch is read back unchanged, when its
    keys come first. *)
Theorem Computors_Store_Get m epoch c p : well_formed c → qubicToProto c = Ok p → proto_valid p →
  ∃ m', runs m (Store epoch c) (Ok tt) m' ∧ runs m' (Get epoch) (Ok c) m'.
Proof.
  intros Hwf Hp Hv. destruct (compacted_well_formed c Hwf) as [Hsz Hc].
  destruct (roundtrip_compacted c Hsz) as (p' & Hp' & Hback). rewrite Hc in Hback.
  assert (p' = p) as -> by congruence.
  destruct (runs_Computors_Store m epoch c p Hp Hv) as (b & _ & Hu & Hrun).
  exists (<[computorsKey epoch := b]> m). split; [done|].
  apply (runs_Computors_Get _ _ _ p); [done|]. by apply stored_insert.
Qed.

Lemma runs_Computors_Get_missing m epoch : m !! computorsKey epoch = None →
  runs m (Get epoch) (Err (WrapError "get computors" ErrNotFound)) m.
Proof.
  intros Hm. unfold Get. apply runs_bind_err. eapply runs_map_err; [by apply runs_get_missing|done].
Qed.
End Computors.
