(* ===== verification/Quorum.v ===== *)
(** * validator/quorum: the votes on a tick

    [Validate] groups the votes by a digest of what they say about the tick,
    takes the largest group and counts the signatures in it that verify.  The
    stored form keeps the common part once and a difference per computor; the
    salted digests are dropped and reconstructed from the next tick. *)

From stdpp Require Import sorting base strings numbers pretty gmap list.
From S2P Require Import Prelude GoLib Types Platform Keys Store StoreLogic Utils Computors.

Local Open Scope Z_scope.

(** ** validator.go: aligned votes *)
Record vote := MkVote {
  vote_Epoch : Z;
  vote_Tick : Z;
  vote_Millisecond : Z;
  vote_Second : Z;
  vote_Minute : Z;
  vote_Hour : Z;
  vote_Day : Z;
  vote_Month : Z;
  vote_Year : Z;
  vote_PreviousResourceTestingDigest : Z;
  vote_PreviousSpectrumDigest : bytes;
  vote_PreviousUniverseDigest : bytes;
  vote_PreviousComputerDigest : bytes;
  vote_TxDigest : bytes
}.

#[export] Instance vote_eq_dec : EqDecision vote.
Proof. solve_decision. Defined.

(** The literal built from a received vote. *)
Definition to_vote (qv : types.QuorumTickVote) : vote := {|
  vote_Epoch := types.QuorumTickVote_Epoch qv;
  vote_Tick := types.QuorumTickVote_Tick qv;
  vote_Millisecond := types.QuorumTickVote_Millisecond qv;
  vote_Second := types.QuorumTickVote_Second qv;
  vote_Minute := types.QuorumTickVote_Minute qv;
  vote_Hour := types.QuorumTickVote_Hour qv;
  vote_Day := types.QuorumTickVote_Day qv;
  vote_Month := types.QuorumTickVote_Month qv;
  vote_Year := types.QuorumTickVote_Year qv;
  vote_PreviousResourceTestingDigest := types.QuorumTickVote_PreviousResourceTestingDigest qv;
  vote_PreviousSpectrumDigest := types.QuorumTickVote_PreviousSpectrumDigest qv;
  vote_PreviousUniverseDigest := types.QuorumTickVote_PreviousUniverseDigest qv;
  vote_PreviousComputerDigest := types.QuorumTickVote_PreviousComputerDigest qv;
  vote_TxDigest := types.QuorumTickVote_TxDigest qv
|}.

(** [binary.Write] of the structure. *)
Definition vote_write (v : vote) : bytes :=
  le_bytes 2 (vote_Epoch v) ++ le_bytes 4 (vote_Tick v) ++ le_bytes 2 (vote_Millisecond v) ++
  le_bytes 1 (vote_Second v) ++ le_bytes 1 (vote_Minute v) ++ le_bytes 1 (vote_Hour v) ++
  le_bytes 1 (vote_Day v) ++ le_bytes 1 (vote_Month v) ++ le_bytes 1 (vote_Year v) ++
  le_bytes 4 (vote_PreviousResourceTestingDigest v) ++ vote_PreviousSpectrumDigest v ++
  vote_PreviousUniverseDigest v ++ vote_PreviousComputerDigest v ++ vote_TxDigest v.

(** [swapBytes] *)
Definition swapBytes (input : bytes) : bytes := reverse input.

Section Quorum.
Context {P : Pebble} {PR : Protobuf} {R : GoRuntime} {K : K12} {N : NodeConnector}.

Definition digest (v : vote) : outcome bytes :=
  b ← wrap "serializing vote" (BinarySerialize (Ok (vote_write v)));
  wrap "hashing vote" (K12Hash b).

Definition getAlignedVotes_step (votesHeatMap : gmap bytes (list types.QuorumTickVote))
    (qv : types.QuorumTickVote) : outcome (gmap bytes (list types.QuorumTickVote)) :=
  digest ← wrap "getting digest" (digest (to_vote qv));
  Ok (match votesHeatMap !! digest with
      | None => <[digest := [qv]]> votesHeatMap
      | Some votes => <[digest := votes ++ [qv]]> votesHeatMap
      end).

(** The first group, in the map's iteration order, that is larger than every
    group before it. *)
Definition largest (groups : list (bytes * list types.QuorumTickVote)) :
    list types.QuorumTickVote :=
  foldl (λ alignedVotes '(_, votes),
    if bool_decide (length alignedVotes < length votes)%nat then votes else alignedVotes)
    [] groups.

Definition getAlignedVotes (quorumVotes : list types.QuorumTickVote) :
    outcome (list types.QuorumTickVote) :=
  votesHeatMap ← foldO getAlignedVotes_step ∅ quorumVotes;
  Ok (largest (map_range (map_to_list votesHeatMap))).

(** ** validator.go: signatures *)
Definition getDigestFromQuorumTickData (data : types.QuorumTickVote) : outcome bytes :=
  let data := types.QuorumTickVote_set_ComputorIndex
                (Z.lxor (types.QuorumTickVote_ComputorIndex data) 3) data in
  sData ← wrap "serializing data" (BinarySerialize (QuorumTickVote_Write data));
  tickData ← slice_to sData (Z.of_nat (length sData) - 64);
  wrap "hashing tick data" (K12Hash tickData).

Definition verifyTickVoteSignature (sigVerifierFunc : SigVerifierFunc)
    (computorPubKey digest signature : bytes) (targetTickVoteSignature : Z) : outcome unit :=
  score ← LittleEndian_Uint32 (swapBytes (take 4 signature));
  if bool_decide (score > targetTickVoteSignature)
  then Err (ErrorString "vote signature score over target tick vote signature")
  else sigVerifierFunc computorPubKey digest signature.

(** The loop's variables: successful votes, failed indexes and identities. *)
Definition quorumTickSigVerify_step (sigVerifierFunc : SigVerifierFunc)
    (computors : types.Computors) (targetTickVoteSignature : Z)
    (acc : Z * list Z * list string) (quorumTickData : types.QuorumTickVote) :
    outcome (Z * list Z * list string) :=
  let '(successVotes, failedIndexes, failedIdentites) := acc in
  let computorIndex := types.QuorumTickVote_ComputorIndex quorumTickData in
  digest ← wrap "getting digest from tick data" (getDigestFromQuorumTickData quorumTickData);
  computorPubKey ← index (types.Computors_PubKeys computors) computorIndex;
  r ← attempt (verifyTickVoteSignature sigVerifierFunc computorPubKey digest
                 (types.QuorumTickVote_Signature quorumTickData) targetTickVoteSignature);
  match r with
  | inr _ =>
      badComputor ← wrap "getting bad computor" (Identity_FromPubKey computorPubKey false);
      Ok (successVotes, failedIndexes ++ [computorIndex], failedIdentites ++ [badComputor])
  | inl _ => Ok (successVotes + 1, failedIndexes, failedIdentites)
  end.

Definition quorumTickSigVerify (sigVerifierFunc : SigVerifierFunc)
    (quorumVotes : list types.QuorumTickVote) (computors : types.Computors)
    (targetTickVoteSignature : Z) : outcome unit :=
  '(successVotes, _, _) ←
    foldO (quorumTickSigVerify_step sigVerifierFunc computors targetTickVoteSignature)
      (0, [], []) quorumVotes;
  if bool_decide (successVotes < Z.of_nat MinimumQuorumVotes)
  then Err (ErrorString "not enough sucessful quorum votes")
  else Ok tt.

Definition Validate (sigVerifierFunc : SigVerifierFunc)
    (quorumVotes : list types.QuorumTickVote) (computors : types.Computors)
    (targetTickVoteSignature : Z) : outcome (list types.QuorumTickVote) :=
  if bool_decide (length quorumVotes < MinimumQuorumVotes)%nat
  then Err (ErrorString "not enough quorum votes")
  else
    alignedVotes ← wrap "getting aligned votes" (getAlignedVotes quorumVotes);
    if bool_decide (length alignedVotes < MinimumQuorumVotes)%nat
    then Err (ErrorString "Not enough aligned quorum votes")
    else
      _ ← wrap "quorum tick signature verification failed"
        (quorumTickSigVerify sigVerifierFunc alignedVotes computors targetTickVoteSignature);
      Ok alignedVotes.

(** ** models.go: stored form *)
Definition convertUint32ToHex (value : Z) : string :=
  hex_EncodeToString (LittleEndian_PutUint32 value).

Definition convertHexToUint32 (value : string) : outcome Z :=
  b ← wrap "decoding string value" (hex_DecodeString value);
  LittleEndian_Uint32 b.

Definition convertUint64ToHex (value : Z) : string := hex_EncodeToString (le_bytes 8 value).

Definition convertUint32ToBytes (value : Z) : bytes := LittleEndian_PutUint32 value.

Definition qubicTickStructureToProto (tickVote : types.QuorumTickVote) :
    pb.QuorumTickStructure :=
  let date := time_Date_UnixMilli (2000 + types.QuorumTickVote_Year tickVote)
    (types.QuorumTickVote_Month tickVote) (types.QuorumTickVote_Day tickVote)
    (types.QuorumTickVote_Hour tickVote) (types.QuorumTickVote_Minute tickVote)
    (types.QuorumTickVote_Second tickVote) in
  let timestamp := date + types.QuorumTickVote_Millisecond tickVote in
  {| pb.QuorumTickStructure_Epoch := types.QuorumTickVote_Epoch tickVote;
     pb.QuorumTickStructure_TickNumber := types.QuorumTickVote_Tick tickVote;
     pb.QuorumTickStructure_Timestamp := uint64 timestamp;
     pb.QuorumTickStructure_PrevResourceTestingDigestHex :=
       convertUint32ToHex (types.QuorumTickVote_PreviousResourceTestingDigest tickVote);
     pb.QuorumTickStructure_PrevTransactionBodyHex :=
       convertUint32ToHex (types.QuorumTickVote_PreviousTransactionBodyDigest tickVote);
     pb.QuorumTickStructure_PrevSpectrumDigestHex :=
       hex_EncodeToString (types.QuorumTickVote_PreviousSpectrumDigest tickVote);
     pb.QuorumTickStructure_PrevUniverseDigestHex :=
       hex_EncodeToString (types.QuorumTickVote_PreviousUniverseDigest tickVote);
     pb.QuorumTickStructure_PrevComputerDigestHex :=
       hex_EncodeToString (types.QuorumTickVote_PreviousComputerDigest tickVote);
     pb.QuorumTickStructure_TxDigestHex :=
       hex_EncodeToString (types.QuorumTickVote_TxDigest tickVote) |}.

Definition qubicDiffToProto (tickVote : types.QuorumTickVote) : pb.QuorumDiff :=
  {| pb.QuorumDiff_SaltedResourceTestingDigestHex :=
       convertUint32ToHex (types.QuorumTickVote_SaltedResourceTestingDigest tickVote);
     pb.QuorumDiff_SaltedTransactionBodyHex :=
       convertUint32ToHex (types.QuorumTickVote_SaltedTransactionBodyDigest tickVote);
     pb.QuorumDiff_SaltedSpectrumDigestHex :=
       hex_EncodeToString (types.QuorumTickVote_SaltedSpectrumDigest tickVote);
     pb.QuorumDiff_SaltedUniverseDigestHex :=
       hex_EncodeToString (types.QuorumTickVote_SaltedUniverseDigest tickVote);
     pb.QuorumDiff_SaltedComputerDigestHex :=
       hex_EncodeToString (types.QuorumTickVote_SaltedComputerDigest tickVote);
     pb.QuorumDiff_ExpectedNextTickTxDigestHex :=
       hex_EncodeToString (types.QuorumTickVote_ExpectedNextTickTxDigest tickVote);
     pb.QuorumDiff_SignatureHex :=
       hex_EncodeToString (types.QuorumTickVote_Signature tickVote) |}.

Definition qubicDiffToProtoStored (tickVote : types.QuorumTickVote) : pb.QuorumDiffStored :=
  {| pb.QuorumDiffStored_ExpectedNextTickTxDigestHex :=
       hex_EncodeToString (types.QuorumTickVote_ExpectedNextTickTxDigest tickVote);
     pb.QuorumDiffStored_SignatureHex :=
       hex_EncodeToString (types.QuorumTickVote_Signature tickVote) |}.

(** [votes[0]] panics when there is no vote. *)
Definition qubicToProto (votes : list types.QuorumTickVote) : outcome pb.QuorumTickData :=
  firstQuorumTickData ← index votes 0;
  Ok (pb.MkQuorumTickData (qubicTickStructureToProto firstQuorumTickData)
        (foldl (λ m v, <[types.QuorumTickVote_ComputorIndex v := qubicDiffToProto v]> m)
           ∅ votes)).

Definition qubicToProtoStored (votes : list types.QuorumTickVote) :
    outcome pb.QuorumTickDataStored :=
  firstQuorumTickData ← index votes 0;
  Ok (pb.MkQuorumTickDataStored (qubicTickStructureToProto firstQuorumTickData)
        (foldl (λ m v, <[types.QuorumTickVote_ComputorIndex v := qubicDiffToProtoStored v]> m)
           ∅ votes)).

Definition Store (tickNumber : Z) (quorumVotes : list types.QuorumTickVote) : M DB unit :=
  protoModel ← lift (qubicToProtoStored quorumVotes);
  _ ← mwrap "set quorum votes" (SetQuorumTickData tickNumber protoModel);
  fullProtoModel ← lift (qubicToProto quorumVotes);
  mwrap "setting last quorum tick data" (SetQuorumDataForCurrentEpochInterval
    (pb.QuorumTickStructure_Epoch (pb.QuorumTickData_QuorumTickStructure_ fullProtoModel))
    fullProtoModel).

(** ** models.go: reconstruction *)

(** [copy(dst[32:], src)] *)
Definition copy_at_32 (dst src : bytes) : bytes := take 32 dst ++ copy_into (drop 32 dst) src.

Definition reconstructShortSaltedDigest (computorPubkey prevDigest : bytes) (newFormat : bool) :
    outcome bytes :=
  let buf := copy_into (zero_array 32) computorPubkey ++ zero_array 8 in
  let buf := copy_at_32 buf prevDigest in
  let buf2 := if newFormat then take 36 buf else buf in
  wrap "hashing salted digest" (K12Hash buf2).

Section Reconstruct.
Variables (spectrumDigest universeDigest computerDigest resourceDigest
           transactionBodyDigest : bytes) (epoch : Z) (computors : pb.Computors).

(** The body of the loop over the stored differences. *)
Definition reconstruct_diff (id : Z) (voteDiff : pb.QuorumDiffStored) :
    outcome pb.QuorumDiff :=
  identity ← index (pb.Computors_Identities computors) id;
  computorPublicKey ← wrap "obtaining public key for computor id"
    (Identity_ToPubKey identity false);
  let tmp := copy_into (zero_array 32) computorPublicKey ++ zero_array 32 in
  let tmp := copy_at_32 tmp spectrumDigest in
  saltedSpectrumDigest ← wrap "hashing salted spectrum digest" (K12Hash tmp);
  let tmp := copy_at_32 tmp universeDigest in
  saltedUniverseDigest ← wrap "hashing salted universe digest" (K12Hash tmp);
  let tmp := copy_at_32 tmp computerDigest in
  saltedComputerDigest ← wrap "hashing salted computer digest" (K12Hash tmp);
  let newFormat := bool_decide (epoch >= 151) in
  let digestSize := if newFormat then 4%nat else 8%nat in
  saltedResourceTestingDigestBytes ← wrap "reconstructing salted resource testing digest"
    (reconstructShortSaltedDigest computorPublicKey resourceDigest newFormat);
  let saltedResourceTestingDigest :=
    hex_EncodeToString (take digestSize saltedResourceTestingDigestBytes) in
  saltedTransactionBodyDigest ←
    (if newFormat then
       saltedTransactionBodyDigestBytes ←
         wrap "reconstructing salted transaction body digest"
           (reconstructShortSaltedDigest computorPublicKey transactionBodyDigest true);
       Ok (hex_EncodeToString (take digestSize saltedTransactionBodyDigestBytes))
     else Ok EmptyString);
  Ok {| pb.QuorumDiff_SaltedResourceTestingDigestHex := saltedResourceTestingDigest;
        pb.QuorumDiff_SaltedTransactionBodyHex := saltedTransactionBodyDigest;
        pb.QuorumDiff_SaltedSpectrumDigestHex := hex_EncodeToString saltedSpectrumDigest;
        pb.QuorumDiff_SaltedUniverseDigestHex := hex_EncodeToString saltedUniverseDigest;
        pb.QuorumDiff_SaltedComputerDigestHex := hex_EncodeToString saltedComputerDigest;
        pb.QuorumDiff_ExpectedNextTickTxDigestHex :=
          pb.QuorumDiffStored_ExpectedNextTickTxDigestHex voteDiff;
        pb.QuorumDiff_SignatureHex := pb.QuorumDiffStored_SignatureHex voteDiff |}.

Definition reconstruct_step (acc : gmap Z pb.QuorumDiff)
    (entry : Z * pb.QuorumDiffStored) : outcome (gmap Z pb.QuorumDiff) :=
  let '(id, voteDiff) := entry in
  diff ← reconstruct_diff id voteDiff;
  Ok (<[id := diff]> acc).
End Reconstruct.

Definition ReconstructQuorumData (currentTickQuorumData nextTickQuorumData :
    pb.QuorumTickDataStored) (computors : pb.Computors) : outcome pb.QuorumTickData :=
  let current := pb.QuorumTickDataStored_QuorumTickStructure_ currentTickQuorumData in
  let next := pb.QuorumTickDataStored_QuorumTickStructure_ nextTickQuorumData in
  let epoch := pb.QuorumTickStructure_Epoch current in
  spectrumDigest ← wrap "obtaining spectrum digest from next tick quorum data"
    (hex_DecodeString (pb.QuorumTickStructure_PrevSpectrumDigestHex next));
  universeDigest ← wrap "obtaining universe digest from next tick quorum data"
    (hex_DecodeString (pb.QuorumTickStructure_PrevUniverseDigestHex next));
  computerDigest ← wrap "obtaining computer digest from next tick quorum data"
    (hex_DecodeString (pb.QuorumTickStructure_PrevComputerDigestHex next));
  resourceDigest ← wrap "obtaining resource testing digest from next tick quorum data"
    (hex_DecodeString (pb.QuorumTickStructure_PrevResourceTestingDigestHex next));
  transactionBodyDigest ←
    wrap "obtaining transaction body digest from the next tick quorum data"
      (hex_DecodeString (pb.QuorumTickStructure_PrevTransactionBodyHex next));
  diffs ← foldO (reconstruct_step spectrumDigest universeDigest computerDigest resourceDigest
                   transactionBodyDigest epoch computors) ∅
    (map_range (map_to_list
      (pb.QuorumTickDataStored_QuorumDiffPerComputor currentTickQuorumData)));
  Ok (pb.MkQuorumTickData current diffs).
End Quorum.
