(* ===== verification/QuorumProofs.v ===== *)
(** * validator/quorum: theorems

    What a successful validation guarantees, when it succeeds, and that the
    result does not depend on the iteration order of the heat map; that the
    stored form of the votes is enough to rebuild them. *)

From stdpp Require Import sorting base strings numbers pretty gmap list.
From S2P Require Import Prelude GoLib Types Platform Keys Store StoreLogic Utils Computors.
From S2P Require Import Quorum.

Local Open Scope Z_scope.

(** A vote with its integers and arrays within their field's size. *)
Record vote_wf (v : vote) : Prop := {
  wf_Epoch : fits 2 (vote_Epoch v);
  wf_Tick : fits 4 (vote_Tick v);
  wf_Millisecond : fits 2 (vote_Millisecond v);
  wf_Second : fits 1 (vote_Second v);
  wf_Minute : fits 1 (vote_Minute v);
  wf_Hour : fits 1 (vote_Hour v);
  wf_Day : fits 1 (vote_Day v);
  wf_Month : fits 1 (vote_Month v);
  wf_Year : fits 1 (vote_Year v);
  wf_ResourceTesting : fits 4 (vote_PreviousResourceTestingDigest v);
  wf_Spectrum : is_array 32 (vote_PreviousSpectrumDigest v);
  wf_Universe : is_array 32 (vote_PreviousUniverseDigest v);
  wf_Computer : is_array 32 (vote_PreviousComputerDigest v);
  wf_TxDigest : is_array 32 (vote_TxDigest v)
}.

Lemma vote_write_inj v w : vote_wf v → vote_wf w → vote_write v = vote_write w → v = w.
Proof.
  intros Wv Ww E. unfold vote_write in E. destruct Wv, Ww.
  do 13 field_inj E. destruct v, w. simpl in *. by subst.
Qed.

Section Aligned.
Context {R : GoRuntime} {RL : GoRuntimeLaws R} {K : K12} {KL : K12Laws K}.
Implicit Types votes : list types.QuorumTickVote.

Definition vote_digest (v : types.QuorumTickVote) : bytes := hash_of (vote_write (to_vote v)).

Lemma digest_vote_digest v : digest (to_vote v) = Ok (vote_digest v).
Proof. unfold digest. simpl. by rewrite K12Hash_hash_of. Qed.

(** The votes whose digest is [d], in the order they came. *)
Definition group votes (d : bytes) : list types.QuorumTickVote :=
  filter (λ v, vote_digest v = d) votes.

Lemma elem_of_group votes d v : v ∈ group votes d ↔ v ∈ votes ∧ vote_digest v = d.
Proof. unfold group. rewrite list_elem_of_filter. naive_solver. Qed.

Lemma heat_map votes :
  ∃ m, foldO getAlignedVotes_step ∅ votes = Ok m ∧
    ∀ d, m !! d = if decide (group votes d = []) then None else Some (group votes d).
Proof.
  induction votes as [|v votes (m & Hm & Hlook)] using rev_ind.
  - exists ∅. split; [done|]. intros d. by rewrite lookup_empty, decide_True.
  - rewrite foldO_app, Hm. cbn [mbind outcome_bind foldO]. unfold getAlignedVotes_step.
    rewrite digest_vote_digest. cbn [wrap map_err mbind outcome_bind].
    eexists. split; [done|]. intros d. unfold group. rewrite filter_app. fold (group votes d).
    destruct (decide (vote_digest v = d)) as [<-|Hne].
    + rewrite filter_cons_True, filter_nil by done. rewrite decide_False by (by destruct (group _ _)).
      rewrite Hlook. case_decide as Hg; rewrite lookup_insert_eq; [by rewrite Hg|done].
    + rewrite filter_cons_False, filter_nil, app_nil_r by done. rewrite <-Hlook.
      destruct (m !! vote_digest v); by rewrite lookup_insert_ne.
Qed.

Lemma largest_spec groups :
  (largest groups = [] ∨ largest groups ∈ groups.*2) ∧
  ∀ g, g ∈ groups.*2 → (length g ≤ length (largest groups))%nat.
Proof.
  unfold largest. induction groups as [|[d g] groups [IH1 IH2]] using rev_ind.
  - split; [by left|]. intros g Hg. by apply elem_of_nil in Hg.
  - rewrite foldl_app, fmap_app. cbn [foldl fmap list_fmap snd]. case_bool_decide.
    + split; [right; set_solver|]. intros g' [Hg'| ->%list_elem_of_singleton]%elem_of_app; [|done].
      apply IH2 in Hg'. lia.
    + split; [set_solver|]. intros g' [Hg'| ->%list_elem_of_singleton]%elem_of_app; [|lia].
      by apply IH2.
Qed.

(** The aligned votes are a largest group. *)
Lemma getAlignedVotes_spec votes :
  ∃ d, getAlignedVotes votes = Ok (group votes d) ∧
    ∀ d', (length (group votes d') ≤ length (group votes d))%nat.
Proof.
  destruct (heat_map votes) as (m & Hm & Hlook). unfold getAlignedVotes. rewrite Hm. simpl.
  destruct (largest_spec (map_range (map_to_list m))) as [H1 H2].
  set (l := largest _) in *.
  assert (Hmax : ∀ d', (length (group votes d') ≤ length l)%nat).
  { intros d'. destruct (decide (group votes d' = [])) as [->|Hg]; [simpl; lia|].
    apply H2. rewrite map_range_perm. apply list_elem_of_fmap. exists (d', group votes d').
    split; [done|]. apply elem_of_map_to_list. by rewrite Hlook, decide_False. }
  destruct H1 as [Hl|Hl].
  - exists []. assert (group votes [] = []) as ->
      by (apply length_zero_iff_nil; specialize (Hmax []); rewrite Hl in Hmax; simpl in Hmax; lia).
    rewrite Hl in *. done.
  - rewrite map_range_perm in Hl. apply list_elem_of_fmap in Hl as ([d g] & Hg & Hin).
    apply elem_of_map_to_list in Hin. rewrite Hlook in Hin. simpl in Hg. subst g.
    exists d. case_decide; [done|]. injection Hin as ->. done.
Qed.

Lemma group_strict votes d :
  (∀ d', d' ≠ d → (length (group votes d') < length (group votes d))%nat) →
  getAlignedVotes votes = Ok (group votes d).
Proof.
  intros Hd. destruct (getAlignedVotes_spec votes) as (d' & -> & Hmax).
  destruct (decide (d' = d)) as [->|Hne]; [done|].
  specialize (Hd d' Hne). specialize (Hmax d). lia.
Qed.

(** Two groups share no vote. *)
Lemma group_disjoint votes d d' : d ≠ d' →
  (length (group votes d) + length (group votes d') ≤ length votes)%nat.
Proof.
  intros Hne. unfold group. induction votes as [|v votes IH]; [done|].
  rewrite !filter_cons. repeat case_decide; simpl; try lia. congruence.
Qed.

Lemma group_majority votes d : (length votes < 2 * length (group votes d))%nat →
  getAlignedVotes votes = Ok (group votes d).
Proof.
  intros H. apply group_strict. intros d' Hd'.
  pose proof (group_disjoint votes d d' (not_eq_sym Hd')). lia.
Qed.

(** The members of a group say the same about the tick, or there is a collision. *)
Lemma group_agree votes d v w : v ∈ group votes d → w ∈ group votes d →
  vote_wf (to_vote v) → vote_wf (to_vote w) →
  to_vote v = to_vote w ∨ k12_collision (vote_write (to_vote v)) (vote_write (to_vote w)).
Proof.
  intros [_ Hv]%elem_of_group [_ Hw]%elem_of_group Wv Ww.
  destruct (K12Hash_eq_cases (vote_write (to_vote v)) (vote_write (to_vote w)) d) as [H|H].
  - rewrite K12Hash_hash_of. by f_equal.
  - rewrite K12Hash_hash_of. by f_equal.
  - left. by apply vote_write_inj.
  - by right.
Qed.
End Aligned.

Section Validate.
Context {R : GoRuntime} {RL : GoRuntimeLaws R} {K : K12} {KL : K12Laws K}.
Context {N : NodeConnector} {NL : NodeConnectorLaws N}.
Context (f : SigVerifierFunc) (comps : types.Computors) (target : Z).
Implicit Types votes : list types.QuorumTickVote.

(** The score of a signature: its first four bytes, as a big-endian number. *)
Definition score (signature : bytes) : Z := be_value (take 4 signature).

(** The vote's score is not over the target, and its signature verifies under the
    key of the computor it names, over the hash of the vote's bytes with the index
    xor 3 and without the 64 bytes of the signature. *)
Definition accepted (v : types.QuorumTickVote) : bool :=
  match index (types.Computors_PubKeys comps) (types.QuorumTickVote_ComputorIndex v),
        QuorumTickVote_Write (types.QuorumTickVote_set_ComputorIndex
          (Z.lxor (types.QuorumTickVote_ComputorIndex v) 3) v) with
  | Ok key, Ok b =>
      bool_decide (score (types.QuorumTickVote_Signature v) ≤ target) &&
      bool_decide (f key (hash_of (take (length b - 64) b)) (types.QuorumTickVote_Signature v) = Ok tt)
  | _, _ => false
  end.

Definition accepted_count votes : nat := length (filter (λ v, accepted v = true) votes).

(** What the deployment and the decoding of votes guarantee. *)
Record inputs_ok votes : Prop := {
  ok_votes v : v ∈ votes → vote_wf (to_vote v) ∧ is_array 64 (types.QuorumTickVote_Signature v);
  ok_keys : Forall (is_array 32) (types.Computors_PubKeys comps);
  ok_verifier key d s : f key d s ≠ Panic
}.

Definition index_known (v : types.QuorumTickVote) : Prop :=
  0 ≤ types.QuorumTickVote_ComputorIndex v < Z.of_nat (length (types.Computors_PubKeys comps)).

Lemma vote_getDigest_signed v : ∃ b,
  QuorumTickVote_Write (types.QuorumTickVote_set_ComputorIndex
    (Z.lxor (types.QuorumTickVote_ComputorIndex v) 3) v) = Ok b ∧
  getDigestFromQuorumTickData v = Ok (hash_of (take (length b - 64) b)).
Proof.
  unfold getDigestFromQuorumTickData.
  destruct (QuorumTickVote_Write_total (types.QuorumTickVote_set_ComputorIndex
    (Z.lxor (types.QuorumTickVote_ComputorIndex v) 3) v)) as (b & -> & Hb).
  exists b. split; [done|]. simpl. rewrite slice_to_unsigned by done. simpl.
  by rewrite K12Hash_hash_of.
Qed.

Lemma getDigest_total v : ∃ d, getDigestFromQuorumTickData v = Ok d ∧ is_array 32 d.
Proof. destruct (vote_getDigest_signed v) as (b & _ & ->). eauto with wf. Qed.

(** The code's check, where it does not panic. *)
Lemma verify_score key d s : verifyTickVoteSignature f key d s target ≠ Panic →
  verifyTickVoteSignature f key d s target = Ok tt ↔ score s ≤ target ∧ f key d s = Ok tt.
Proof.
  unfold verifyTickVoteSignature, LittleEndian_Uint32, swapBytes, score, be_value.
  case_decide as Hlen; [|done]. intros _. simpl. rewrite length_reverse in Hlen.
  rewrite take_ge by (rewrite length_reverse, length_take in *; lia).
  case_bool_decide; [|naive_solver lia]. split; [done|lia].
Qed.

Lemma verify_no_panic key d s : is_array 64 s → (∀ key d s, f key d s ≠ Panic) →
  verifyTickVoteSignature f key d s target ≠ Panic.
Proof.
  intros [Hs _] Hf. unfold verifyTickVoteSignature, LittleEndian_Uint32, swapBytes.
  rewrite decide_True by (rewrite length_reverse, length_take; lia). simpl.
  by case_bool_decide.
Qed.

Notation step := (quorumTickSigVerify_step f comps target).

Lemma step_accepted acc v acc' : step acc v = Ok acc' →
  acc'.1.1 = acc.1.1 + (if accepted v then 1 else 0).
Proof.
  unfold quorumTickSigVerify_step, accepted. destruct acc as [[s is_] ids].
  destruct (vote_getDigest_signed v) as (b & -> & ->). simpl.
  destruct (index _ _) as [key| |]; simpl; [|done|done].
  set (d := hash_of _). set (sg := types.QuorumTickVote_Signature v).
  pose proof (verify_score key d sg) as Hv. rewrite <-bool_decide_and.
  destruct (verifyTickVoteSignature f key d sg target) as [[]|e|]; simpl; [| |done].
  - intros [= <-]. rewrite bool_decide_true by (by apply Hv). done.
  - intros H. inv_ok. subst. simpl. rewrite bool_decide_false; [lia|].
    by intros ?%Hv.
Qed.

Lemma loop_accepted votes acc acc' : foldO step acc votes = Ok acc' →
  acc'.1.1 = acc.1.1 + Z.of_nat (accepted_count votes).
Proof.
  unfold accepted_count. revert acc. induction votes as [|v votes IH]; intros acc.
  - intros [= <-]. simpl. lia.
  - cbn [foldO]. intros H. inv_ok. rewrite filter_cons.
    erewrite (IH _ H0), (step_accepted _ _ _ H).
    destruct (accepted v); case_decide; simpl; lia || congruence.
Qed.

Lemma step_total votes acc v : inputs_ok votes → v ∈ votes → index_known v →
  ∃ acc', step acc v = Ok acc'.
Proof.
  intros Hok Hv Hi. unfold quorumTickSigVerify_step. destruct acc as [[s is_] ids].
  destruct (getDigest_total v) as (d & -> & _). simpl.
  destruct (index_in_range _ _ Hi) as [key Hkey]. rewrite Hkey. simpl.
  destruct (verifyTickVoteSignature _ _ _ _ _) eqn:E; simpl; [by eauto| |].
  - apply index_Ok in Hkey as [_ Hkey]. apply list_elem_of_lookup_2 in Hkey.
    pose proof (ok_keys _ Hok) as Hkeys. rewrite Forall_forall in Hkeys.
    destruct (Identity_FromPubKey_total key false (Hkeys _ Hkey)) as (id & -> & _). simpl. eauto.
  - exfalso. eapply verify_no_panic; [|apply (ok_verifier _ Hok)|exact E].
    by apply (ok_votes _ Hok).
Qed.

Lemma step_unknown acc v : ¬ index_known v → step acc v = Panic.
Proof.
  intros Hi. unfold quorumTickSigVerify_step. destruct acc as [[s is_] ids].
  destruct (getDigest_total v) as (d & -> & _). simpl.
  unfold index. case_bool_decide; [|done].
  rewrite lookup_ge_None_2; [done|]. unfold index_known in Hi. lia.
Qed.

Lemma loop_total votes votes' acc : inputs_ok votes → votes' ⊆ votes →
  Forall index_known votes' → ∃ acc', foldO step acc votes' = Ok acc'.
Proof.
  intros Hok Hsub Hi. revert acc. induction Hi as [|v votes' Hv _ IH]; intros acc; [by exists acc|].
  destruct (step_total votes acc v) as [acc' Hstep]; [done|apply Hsub; by left|done|].
  cbn [foldO]. rewrite Hstep. apply IH. intros w Hw. apply Hsub. by right.
Qed.

Lemma loop_unknown votes votes' acc : inputs_ok votes → votes' ⊆ votes →
  (∃ v, v ∈ votes' ∧ ¬ index_known v) → foldO step acc votes' = Panic.
Proof.
  intros Hok. revert acc. induction votes' as [|v votes' IH]; intros acc Hsub (w & Hw & Hi).
  - by apply elem_of_nil in Hw.
  - cbn [foldO]. destruct (decide (index_known v)) as [Hk|Hk]; [|by rewrite step_unknown].
    destruct (step_total votes acc v) as [acc' ->]; [done|apply Hsub; by left|done|].
    simpl. apply IH; [intros x Hx; apply Hsub; by right|].
    exists w. split; [|done]. apply elem_of_cons in Hw as [->|Hw]; done.
Qed.
(** ** The three outcomes of the signature check *)
Lemma sigVerify_Ok votes : quorumTickSigVerify f votes comps target = Ok tt →
  (MinimumQuorumVotes ≤ accepted_count votes)%nat.
Proof.
  unfold quorumTickSigVerify. intros H. inv_ok. destruct x as [[s is_] ids].
  apply loop_accepted in H. simpl in *. case_bool_decide; [done|]. lia.
Qed.

Lemma sigVerify_total votes votes' : inputs_ok votes → votes' ⊆ votes →
  Forall index_known votes' → (MinimumQuorumVotes ≤ accepted_count votes')%nat →
  quorumTickSigVerify f votes' comps target = Ok tt.
Proof.
  intros Hok Hsub Hi Hmin. unfold quorumTickSigVerify.
  destruct (loop_total votes votes' (0, [], []) Hok Hsub Hi) as ([[s is_] ids] & E).
  rewrite E. apply loop_accepted in E. simpl in *. by rewrite bool_decide_false by lia.
Qed.

Lemma accepted_count_le votes : (accepted_count votes ≤ length votes)%nat.
Proof. apply length_filter. Qed.
End Validate.

(** The votes that say the same as [v] about the tick. *)
Definition agreeing (v : types.QuorumTickVote) (votes : list types.QuorumTickVote) :
    list types.QuorumTickVote := filter (λ w, to_vote w = to_vote v) votes.

Lemma filter_length_mono {A} (Q S : A → Prop) `{∀ x, Decision (Q x)} `{∀ x, Decision (S x)} l :
  (∀ x, x ∈ l → Q x → S x) → (length (filter Q l) ≤ length (filter S l))%nat.
Proof.
  induction l as [|x l IH]; intros HQS; [done|].
  assert (length (filter Q l) ≤ length (filter S l))%nat by (apply IH; set_solver).
  rewrite !filter_cons. repeat case_decide; simpl; try lia. exfalso.
  match goal with H : ¬ S x |- _ => apply H end. apply HQS; [by left|done].
Qed.

Lemma agreeing_group {K : K12} {KL : K12Laws K} v votes :
  agreeing v votes ⊆ group votes (vote_digest v).
Proof.
  intros w. unfold agreeing. rewrite list_elem_of_filter, elem_of_group. intros [E Hw].
  split; [done|]. unfold vote_digest. by rewrite E.
Qed.

Lemma agreeing_group_length {K : K12} {KL : K12Laws K} v votes :
  (length (agreeing v votes) ≤ length (group votes (vote_digest v)))%nat.
Proof. apply filter_length_mono. intros w _ E. unfold vote_digest. by rewrite E. Qed.

Lemma agreeing_accepted {K : K12} {KL : K12Laws K} {N : NodeConnector} f comps target v votes :
  (accepted_count f comps target (agreeing v votes) ≤
   accepted_count f comps target (group votes (vote_digest v)))%nat.
Proof.
  unfold accepted_count, agreeing, group. rewrite !list_filter_filter.
  apply filter_length_mono. intros w _ [Ha E]. split; [done|]. unfold vote_digest. by rewrite E.
Qed.

(** ** The theorems on Validate *)
Section Validate_theorems.
Context {R : GoRuntime} {RL : GoRuntimeLaws R} {K : K12} {KL : K12Laws K}.
Context {N : NodeConnector} {NL : NodeConnectorLaws N}.
Context (f : SigVerifierFunc) (comps : types.Computors) (target : Z).

Lemma Validate_inv votes aligned : Validate f votes comps target = Ok aligned →
  ∃ d, aligned = group votes d ∧ (∀ d', (length (group votes d') ≤ length aligned)%nat) ∧
       (MinimumQuorumVotes ≤ accepted_count f comps target aligned)%nat.
Proof.
  unfold Validate. case_bool_decide; [done|].
  destruct (getAlignedVotes_spec votes) as (d & -> & Hmax). simpl.
  case_bool_decide; [done|]. intros E. inv_ok. subst aligned.
  exists d. split; [done|]. split; [done|]. eapply sigVerify_Ok. by destruct x.
Qed.

Lemma Validate_group votes d : getAlignedVotes votes = Ok (group votes d) →
  (MinimumQuorumVotes ≤ length (group votes d))%nat →
  Validate f votes comps target =
    (_ ← wrap "quorum tick signature verification failed"
       (quorumTickSigVerify f (group votes d) comps target);
     Ok (group votes d)).
Proof.
  intros Hg Hlen. unfold Validate.
  pose proof (length_filter (λ v, vote_digest v = d) votes) as Hle.
  rewrite bool_decide_false by (unfold group in Hlen; lia). rewrite Hg. simpl.
  by rewrite bool_decide_false by lia.
Qed.

(** C12: When [Validate] succeeds, the votes it returns are received votes;
    at least [MinimumQuorumVotes] of them have a score that is not over the target
    and a signature that verifies, over the hash of the vote's bytes with the index
    xor 3, under the key of the computor they name; any two of them say the same
    about the tick, unless two serialized votes collide under the hash; no received
    vote that agrees with a returned one is left out; and no larger set of
    agreeing votes was received. *)
Theorem Validate_sound votes aligned :
  Forall (λ v, vote_wf (to_vote v)) votes →
  Validate f votes comps target = Ok aligned →
  sublist aligned votes ∧
  (MinimumQuorumVotes ≤ accepted_count f comps target aligned)%nat ∧
  (∀ v w, v ∈ aligned → w ∈ aligned →
     to_vote v = to_vote w ∨
     k12_collision (vote_write (to_vote v)) (vote_write (to_vote w))) ∧
  (∀ v w, v ∈ aligned → w ∈ votes → to_vote w = to_vote v → w ∈ aligned) ∧
  (∀ v, length (agreeing v votes) ≤ length aligned)%nat.
Proof.
  intros Hwf Hval. rewrite Forall_forall in Hwf.
  destruct (Validate_inv _ _ Hval) as (d & -> & Hmax & Hmin).
  split; [apply sublist_filter|]. split; [done|]. split; [|split].
  - intros v w Hv Hw. eapply group_agree; [done..| |]; apply Hwf;
      eapply elem_of_group; eassumption.
  - intros v w [_ Hd]%elem_of_group Hw E. apply elem_of_group. split; [done|].
    rewrite <-Hd. unfold vote_digest. by rewrite E.
  - intros v. etrans; [apply agreeing_group_length|apply Hmax].
Qed.

(** C13: If more than half of the received votes agree with [v] and at least
    [MinimumQuorumVotes] of those verify, then [Validate] succeeds, whatever
    the iteration order of the heat map, and returns every vote that agrees
    with [v].  The votes name existing computors. *)
Theorem Validate_complete votes v :
  inputs_ok f comps votes → Forall (index_known comps) votes →
  (length votes < 2 * length (agreeing v votes))%nat →
  (MinimumQuorumVotes ≤ accepted_count f comps target (agreeing v votes))%nat →
  Validate f votes comps target = Ok (group votes (vote_digest v)) ∧
  agreeing v votes ⊆ group votes (vote_digest v).
Proof.
  intros Hok Hidx Hmaj Hmin. split; [|apply agreeing_group].
  pose proof (agreeing_group_length v votes) as Hle.
  pose proof (agreeing_accepted f comps target v votes) as Hacc.
  pose proof (accepted_count_le f comps target (group votes (vote_digest v))) as Hcnt.
  rewrite (Validate_group votes (vote_digest v)); [|apply group_majority; lia|lia].
  rewrite (sigVerify_total f comps target votes); [done|done| | |lia].
  - intros w [Hw _]%elem_of_group. done.
  - rewrite Forall_forall in *. intros w [Hw _]%elem_of_group. by apply Hidx.
Qed.

(** A vote among the aligned ones whose computor index is outside the
    computor list makes [Validate] panic: the index a node sends is used
    without a bounds check. *)
Theorem Validate_index_panic votes v w :
  inputs_ok f comps votes →
  (length votes < 2 * length (agreeing v votes))%nat →
  (MinimumQuorumVotes ≤ length (agreeing v votes))%nat →
  w ∈ agreeing v votes → ¬ index_known comps w →
  Validate f votes comps target = Panic.
Proof.
  intros Hok Hmaj Hmin Hw Hidx.
  pose proof (agreeing_group_length v votes) as Hle.
  rewrite (Validate_group votes (vote_digest v)); [|apply group_majority; lia|lia].
  unfold quorumTickSigVerify. rewrite (loop_unknown f comps target votes); [done|done| |].
  - intros x [Hx _]%elem_of_group. done.
  - exists w. split; [by apply agreeing_group|done].
Qed.

(** The quorum counts votes, not computors: one verified vote repeated
    [MinimumQuorumVotes] times passes. *)
Theorem Validate_duplicates v :
  inputs_ok f comps [v] → accepted f comps target v = true →
  Validate f (replicate MinimumQuorumVotes v) comps target =
    Ok (replicate MinimumQuorumVotes v).
Proof.
  intros Hok Hacc. pose proof MinimumQuorumVotes_pos as Hpos.
  assert (Hgroup : group (replicate MinimumQuorumVotes v) (vote_digest v) =
    replicate MinimumQuorumVotes v).
  { apply list_filter_all. intros w [-> _]%elem_of_replicate. done. }
  assert (Hidx : index_known comps v).
  { unfold accepted in Hacc. destruct (index _ _) as [key| |] eqn:E; [|done..]. apply index_Ok in E as [? E].
    apply lookup_lt_Some in E. unfold index_known. lia. }
  rewrite (Validate_group _ (vote_digest v)); rewrite ?Hgroup, ?length_replicate; [|..|done].
  - rewrite (sigVerify_total f comps target [v]); [done|done| | |].
    + intros w [-> _]%elem_of_replicate. by left.
    + by apply Forall_replicate.
    + unfold accepted_count. rewrite list_filter_all, length_replicate; [done|].
      by intros w [-> _]%elem_of_replicate.
  - rewrite <-Hgroup at 2. apply group_majority. rewrite Hgroup, length_replicate. lia.
Qed.
End Validate_theorems.

(** ** The stored votes determine the votes *)
Section Reconstruct.
Context {R : GoRuntime} {RL : GoRuntimeLaws R} {K : K12} {KL : K12Laws K}.
Context {N : NodeConnector} {NL : NodeConnectorLaws N}.

Lemma copy_at_32_key (key x y : bytes) : length key = 32%nat → length y = length x →
  copy_at_32 (key ++ x) y = key ++ y.
Proof.
  intros Hk Hy. unfold copy_at_32. rewrite take_app_length', drop_app_length' by done.
  by rewrite copy_into_full.
Qed.

(** The vote's salted digests are those the protocol prescribes: the hash of
    the computor's key and the state digest the next tick reports. *)
Record salted (key : bytes) (v nv : types.QuorumTickVote) : Prop := {
  salted_spectrum : types.QuorumTickVote_SaltedSpectrumDigest v =
    hash_of (key ++ types.QuorumTickVote_PreviousSpectrumDigest nv);
  salted_universe : types.QuorumTickVote_SaltedUniverseDigest v =
    hash_of (key ++ types.QuorumTickVote_PreviousUniverseDigest nv);
  salted_computer : types.QuorumTickVote_SaltedComputerDigest v =
    hash_of (key ++ types.QuorumTickVote_PreviousComputerDigest nv);
  salted_resource : le_bytes 4 (types.QuorumTickVote_SaltedResourceTestingDigest v) =
    take 4 (hash_of (key ++ le_bytes 4 (types.QuorumTickVote_PreviousResourceTestingDigest nv)));
  salted_body : le_bytes 4 (types.QuorumTickVote_SaltedTransactionBodyDigest v) =
    take 4 (hash_of (key ++ le_bytes 4 (types.QuorumTickVote_PreviousTransactionBodyDigest nv)))
}.

Lemma short_salted key x : length key = 32%nat →
  reconstructShortSaltedDigest key (le_bytes 4 x) true = Ok (hash_of (key ++ le_bytes 4 x)).
Proof.
  intros Hk. unfold reconstructShortSaltedDigest.
  rewrite copy_into_full by (by rewrite length_zero_array). unfold copy_at_32.
  rewrite (take_app_length' _ _ 32), (drop_app_length' _ _ 32) by done.
  change (copy_into (zero_array 8) (le_bytes 4 x)) with (le_bytes 4 x ++ zero_array 4).
  rewrite app_assoc, take_app_length' by (rewrite length_app, length_le_bytes; lia).
  by rewrite K12Hash_hash_of.
Qed.

Section Vote.
Context (v nv : types.QuorumTickVote) (key : bytes) (id : string) (pcomps : pb.Computors).
Context (Hid : identity_of key id) (Hkey : is_array 32 key) (Hsalted : salted key v nv).
Context (Hpc : index (pb.Computors_Identities pcomps) (types.QuorumTickVote_ComputorIndex v) =
               Ok id).
Context (Hspectrum : is_array 32 (types.QuorumTickVote_PreviousSpectrumDigest nv)).
Context (Huniverse : is_array 32 (types.QuorumTickVote_PreviousUniverseDigest nv)).
Context (Hcomputer : is_array 32 (types.QuorumTickVote_PreviousComputerDigest nv)).

Lemma reconstruct_diff_ok epoch : epoch >= 151 →
  reconstruct_diff (types.QuorumTickVote_PreviousSpectrumDigest nv)
    (types.QuorumTickVote_PreviousUniverseDigest nv)
    (types.QuorumTickVote_PreviousComputerDigest nv)
    (le_bytes 4 (types.QuorumTickVote_PreviousResourceTestingDigest nv))
    (le_bytes 4 (types.QuorumTickVote_PreviousTransactionBodyDigest nv)) epoch pcomps
    (types.QuorumTickVote_ComputorIndex v) (qubicDiffToProtoStored v) =
  Ok (qubicDiffToProto v).
Proof using All.
  intros He. unfold reconstruct_diff. rewrite Hpc. ok_step.
  destruct Hid as (_ & -> & _). ok_step.
  destruct Hkey as [Hk _], Hspectrum as [Hs _], Huniverse as [Hu _], Hcomputer as [Hc _].
  rewrite copy_into_full by (by rewrite length_zero_array).
  rewrite !copy_at_32_key by (rewrite ?length_zero_array; congruence).
  rewrite !K12Hash_hash_of. ok_step. rewrite (bool_decide_true (epoch >= 151)) by done.
  rewrite !short_salted by done. ok_step.
  destruct Hsalted as [<- <- <- <- <-]. done.
Qed.
End Vote.

(** The last vote of each computor index. *)
Definition votes_by_index (votes : list types.QuorumTickVote) : gmap Z types.QuorumTickVote :=
  foldl (λ m v, <[types.QuorumTickVote_ComputorIndex v := v]> m) ∅ votes.

Lemma votes_by_index_Some votes i v : votes_by_index votes !! i = Some v →
  v ∈ votes ∧ types.QuorumTickVote_ComputorIndex v = i.
Proof.
  unfold votes_by_index. induction votes as [|w votes IH] using rev_ind; [done|].
  rewrite foldl_app. simpl. intros [[<- <-]|[_ Hv]]%lookup_insert_Some.
  - split; [set_solver|done].
  - destruct (IH Hv). split; [set_solver|done].
Qed.

Lemma proto_by_index {A} (g : types.QuorumTickVote → A) votes :
  foldl (λ m v, <[types.QuorumTickVote_ComputorIndex v := g v]> m) ∅ votes =
  g <$> votes_by_index votes.
Proof.
  unfold votes_by_index.
  by rewrite (fmap_foldl_insert types.QuorumTickVote_ComputorIndex (λ v, v) g), fmap_empty.
Qed.

Lemma reconstruct_diffs (f : Z → pb.QuorumDiffStored → outcome pb.QuorumDiff) votes
    (l : list (Z * pb.QuorumDiffStored)) :
  (∀ v, v ∈ votes → f (types.QuorumTickVote_ComputorIndex v) (qubicDiffToProtoStored v) =
                    Ok (qubicDiffToProto v)) →
  l ≡ₚ map_to_list (qubicDiffToProtoStored <$> votes_by_index votes) →
  foldO (λ acc '(id, d), diff ← f id d; Ok (<[id := diff]> acc)) ∅ l =
  Ok (qubicDiffToProto <$> votes_by_index votes).
Proof.
  intros Hf Hl. destruct votes as [|v0 votes'] eqn:Ev.
  { unfold votes_by_index in *. simpl in *. rewrite fmap_empty, map_to_list_empty in Hl.
    apply symmetry, Permutation_nil in Hl as ->. by rewrite fmap_empty. }
  rewrite <-Ev in *. clear Ev votes'.
  set (G := λ (k : Z) (d : pb.QuorumDiffStored),
    qubicDiffToProto (default v0 (votes_by_index votes !! k))).
  rewrite (foldO_Ok _ (λ acc '(id, d), <[id := G id d]> acc)).
  - rewrite (foldl_insert_perm G _ l Hl). f_equal. apply map_eq. intros k.
    rewrite map_lookup_imap, !lookup_fmap. unfold G. by destruct (votes_by_index votes !! k).
  - intros acc [k d] Hin. rewrite Hl in Hin. apply elem_of_map_to_list in Hin.
    rewrite lookup_fmap_Some in Hin. destruct Hin as (v & <- & Hv).
    pose proof (votes_by_index_Some _ _ _ Hv) as [Hin <-].
    rewrite (Hf v Hin). simpl. unfold G. by rewrite Hv.
Qed.

Lemma ReconstructQuorumData_full votes nvotes nv comps pcomps cur nxt :
  Computors.well_formed comps → Computors.qubicToProto comps = Ok pcomps →
  nvotes !! 0%nat = Some nv → vote_wf (to_vote nv) →
  (∀ v, v ∈ votes → types.QuorumTickVote_Epoch v >= 151 ∧
     ∃ key, index (types.Computors_PubKeys comps) (types.QuorumTickVote_ComputorIndex v) = Ok key ∧
            key ≠ zero_array 32 ∧ salted key v nv) →
  qubicToProtoStored votes = Ok cur → qubicToProtoStored nvotes = Ok nxt →
  ∃ full, qubicToProto votes = Ok full ∧ ReconstructQuorumData cur nxt pcomps = Ok full.
Proof.
  intros (_ & _ & keys & unused & Hpk & _ & Hkeys) Hpc Hnv Hwf Hv Hcur Hnxt.
  destruct (keys_identities keys Hkeys) as [ids Hids].
  assert (pb.Computors_Identities pcomps = ids) as Hpids.
  { unfold Computors.qubicToProto, pubKeysToIdentities in Hpc.
    rewrite Hpk, (pubKeysToIdentities_app keys ids unused []) in Hpc by done.
    simpl in Hpc. by injection Hpc as <-. }
  unfold qubicToProtoStored in Hnxt. rewrite (proj2 (index_Ok _ _ _) (conj (Z.le_refl 0) Hnv)) in Hnxt.
  simpl in Hnxt. injection Hnxt as <-.
  unfold qubicToProtoStored in Hcur. unfold qubicToProto.
  destruct (index votes 0) as [v0| |] eqn:E0; simpl in Hcur; [|done..]. injection Hcur as <-.
  eexists. split; [done|]. unfold ReconstructQuorumData.
  cbn [pb.QuorumTickDataStored_QuorumTickStructure_ pb.QuorumTickDataStored_QuorumDiffPerComputor
       qubicTickStructureToProto pb.QuorumTickStructure_PrevSpectrumDigestHex
       pb.QuorumTickStructure_PrevUniverseDigestHex pb.QuorumTickStructure_PrevComputerDigestHex
       pb.QuorumTickStructure_PrevResourceTestingDigestHex pb.QuorumTickStructure_Epoch
       pb.QuorumTickStructure_PrevTransactionBodyHex].
  destruct Hwf. unfold convertUint32ToHex. simpl in wf_Spectrum0, wf_Universe0, wf_Computer0.
  rewrite !hex_DecodeString_EncodeToString by (apply wf_le_bytes || apply wf_Spectrum0 ||
    apply wf_Universe0 || apply wf_Computer0).
  ok_step.
  assert (He : types.QuorumTickVote_Epoch v0 >= 151).
  { apply index_Ok in E0 as [_ E0]. apply list_elem_of_lookup_2 in E0. by apply Hv. }
  unfold reconstruct_step. rewrite (reconstruct_diffs _ votes).
  - by rewrite proto_by_index.
  - intros v Hin. destruct (Hv v Hin) as (_ & key & Hkey & Hnz & Hs).
    apply index_Ok in Hkey as [Hi Hkey]. rewrite Hpk in Hkey.
    apply lookup_app_Some in Hkey as [Hkey|[_ Hkey]];
      [|apply lookup_replicate in Hkey as [-> _]; done].
    destruct (Forall2_lookup_l _ _ _ _ _ Hids Hkey) as (id & Hid & Hident).
    apply (reconstruct_diff_ok v nv key id); try done.
    + rewrite Forall_forall in Hkeys. apply list_elem_of_lookup_2 in Hkey.
      by apply Hkeys in Hkey as [? _].
    + apply index_Ok. by rewrite Hpids.
  - by rewrite map_range_perm, proto_by_index.
Qed.

(** C16: For votes of epoch 151 or later that carry the right salts, the stored votes
    of a tick together with those of the next tick and the computor list rebuild the
    full quorum data of the tick, salted digests included, in whatever order the map is
    visited.  The right salts ([salted]) are a condition on the votes: each salted
    digest is the hash of the voter's key and the digest that the next tick's first
    vote gives, and the archiver's validation never checks it.  The computor list has
    its keys before its unused slots ([well_formed]), the voters' keys are among them
    and not zero, and the fields of the next tick's first vote have their sizes. *)
Theorem ReconstructQuorumData_recovers votes nvotes nv comps pcomps cur nxt :
  Computors.well_formed comps → Computors.qubicToProto comps = Ok pcomps →
  nvotes !! 0%nat = Some nv → vote_wf (to_vote nv) →
  (∀ v, v ∈ votes → types.QuorumTickVote_Epoch v >= 151 ∧
     ∃ key, index (types.Computors_PubKeys comps) (types.QuorumTickVote_ComputorIndex v) = Ok key ∧
            key ≠ zero_array 32 ∧ salted key v nv) →
  qubicToProtoStored votes = Ok cur → qubicToProtoStored nvotes = Ok nxt →
  ∃ full, qubicToProto votes = Ok full ∧ ReconstructQuorumData cur nxt pcomps = Ok full.
Proof. apply ReconstructQuorumData_full. Qed.
End Reconstruct.
