(* ===== verification/Tick.v ===== *)
(** * validator/tick: tick data, its intervals and the empty ticks

    Validation of a tick's data against an aligned vote, its stored form, the
    questions the RPC layer asks about the processed intervals (models.go), and
    the count and list of empty ticks of an epoch (empty_tick.go). *)

From stdpp Require Import sorting base strings numbers pretty gmap list.
From S2P Require Import Prelude GoLib Types Platform Keys Store Utils.

Local Open Scope Z_scope.

Section Tick.
Context {P : Pebble} {PR : Protobuf} {R : GoRuntime} {K : K12} {N : NodeConnector}.

(** ** models.go: stored form *)
Definition digestsToIdentities_step (identities : list string) (digest : bytes) :
    outcome (list string) :=
  if bool_decide (digest = zero_array 32) then Ok identities
  else id ← wrap "getting identity from digest hex" (Identity_FromPubKey digest true);
       Ok (identities ++ [id]).

Definition digestsToIdentities (digests : list bytes) : outcome (list string) :=
  foldO digestsToIdentities_step [] digests.

Definition contractFeesToProto (contractFees : list Z) : list Z :=
  filter (λ fee, fee ≠ 0) contractFees.

(** A nil message for an empty tick. *)
Definition qubicToProto (tickData : types.TickData) : outcome (option pb.TickData) :=
  if TickData_IsEmpty tickData then Ok None
  else
    let date := time_Date_UnixMilli (2000 + types.TickData_Year tickData)
      (types.TickData_Month tickData) (types.TickData_Day tickData)
      (types.TickData_Hour tickData) (types.TickData_Minute tickData)
      (types.TickData_Second tickData) in
    let timestamp := date + types.TickData_Millisecond tickData in
    transactionIds ← wrap "getting transaction ids from digests"
      (digestsToIdentities (types.TickData_TransactionDigests tickData));
    Ok (Some {|
      pb.TickData_ComputorIndex := types.TickData_ComputorIndex tickData;
      pb.TickData_Epoch := types.TickData_Epoch tickData;
      pb.TickData_TickNumber := types.TickData_Tick tickData;
      pb.TickData_Timestamp := uint64 timestamp;
      pb.TickData_VarStruct := [];
      pb.TickData_TimeLock := types.TickData_Timelock tickData;
      pb.TickData_TransactionIds := transactionIds;
      pb.TickData_ContractFees := contractFeesToProto (types.TickData_ContractFees tickData);
      pb.TickData_SignatureHex := hex_EncodeToString (types.TickData_Signature tickData) |}).

(** ** models.go: the processed intervals *)

(** The inner loop: [Some] is an early return. *)
Fixpoint WasSkippedByArchive_intervals (tick : Z) (l : list pb.ProcessedTickInterval) :
    option (bool * Z) :=
  match l with
  | [] => None
  | interval :: l =>
      if bool_decide (tick < pb.ProcessedTickInterval_InitialProcessedTick interval)
      then Some (true, pb.ProcessedTickInterval_InitialProcessedTick interval)
      else if bool_decide (pb.ProcessedTickInterval_InitialProcessedTick interval ≤ tick ≤
                           pb.ProcessedTickInterval_LastProcessedTick interval)
      then Some (false, 0)
      else WasSkippedByArchive_intervals tick l
  end.

Fixpoint WasSkippedByArchive (tick : Z)
    (processedTicksIntervalPerEpoch : list pb.ProcessedTickIntervalsPerEpoch) : bool * Z :=
  match processedTicksIntervalPerEpoch with
  | [] => (false, 0)
  | epochInterval :: l =>
      match WasSkippedByArchive_intervals tick
              (pb.ProcessedTickIntervalsPerEpoch_Intervals epochInterval) with
      | Some r => r
      | None => WasSkippedByArchive tick l
      end
  end.

Definition tick_in_interval (tick : Z) (interval : pb.ProcessedTickInterval) : bool :=
  bool_decide (pb.ProcessedTickInterval_InitialProcessedTick interval ≤ tick ≤
               pb.ProcessedTickInterval_LastProcessedTick interval).

Fixpoint GetTickEpoch_loop (tickNumber : Z) (l : list pb.ProcessedTickIntervalsPerEpoch) :
    outcome Z :=
  match l with
  | [] => Err (ErrorString "unable to find the epoch for tick")
  | epochInterval :: l =>
      if existsb (tick_in_interval tickNumber)
           (pb.ProcessedTickIntervalsPerEpoch_Intervals epochInterval)
      then Ok (pb.ProcessedTickIntervalsPerEpoch_Epoch epochInterval)
      else GetTickEpoch_loop tickNumber l
  end.

Definition GetTickEpoch (tickNumber : Z) (intervals : list pb.ProcessedTickIntervalsPerEpoch) :
    outcome Z :=
  if bool_decide (length intervals = 0%nat)
  then Err (ErrorString "processed tick interval list is empty")
  else GetTickEpoch_loop tickNumber intervals.

Fixpoint GetProcessedTickIntervalsForEpoch (epoch : Z)
    (intervals : list pb.ProcessedTickIntervalsPerEpoch) :
    outcome pb.ProcessedTickIntervalsPerEpoch :=
  match intervals with
  | [] => Err (ErrorString "unable to find processed tick intervals for epoch")
  | interval :: l =>
      if bool_decide (pb.ProcessedTickIntervalsPerEpoch_Epoch interval ≠ epoch)
      then GetProcessedTickIntervalsForEpoch epoch l
      else Ok interval
  end.

Fixpoint IsTickLast_loop (tickNumber index : Z) (l : list pb.ProcessedTickInterval) :
    bool * Z :=
  match l with
  | [] => (false, -1)
  | interval :: l =>
      if bool_decide (pb.ProcessedTickInterval_LastProcessedTick interval = tickNumber)
      then (true, index)
      else IsTickLast_loop tickNumber (index + 1) l
  end.

Definition IsTickLastInAnyEpochInterval (tickNumber epoch : Z)
    (intervals : list pb.ProcessedTickIntervalsPerEpoch) : outcome (bool * Z) :=
  epochIntervals ← wrap "getting processed tick intervals per epoch"
    (GetProcessedTickIntervalsForEpoch epoch intervals);
  Ok (IsTickLast_loop tickNumber 0 (pb.ProcessedTickIntervalsPerEpoch_Intervals epochIntervals)).

(** ** validator.go *)
Definition getDigestFromTickData (data : types.TickData) : outcome bytes :=
  let data := types.TickData_set_ComputorIndex
                (Z.lxor (types.TickData_ComputorIndex data) 8) data in
  sData ← wrap "serializing data" (BinarySerialize (TickData_Write data));
  tickData ← slice_to sData (Z.of_nat (length sData) - 64);
  wrap "hashing tick data" (K12Hash tickData).

Definition getFullDigestFromTickData (data : types.TickData) : outcome bytes :=
  sData ← wrap "serializing data" (BinarySerialize (TickData_Write data));
  wrap "hashing tick data" (K12Hash sData).

Definition Validate (sigVerifierFunc : SigVerifierFunc) (data : types.TickData)
    (quorumTickVote : types.QuorumTickVote) (comps : types.Computors) : outcome unit :=
  let data := if bool_decide (types.TickData_Epoch data = 0xffff)
              then types.TickData_set_Epoch 0 data else data in
  if TickData_IsEmpty data &&
     bool_decide (types.QuorumTickVote_TxDigest quorumTickVote = zero_array 32)
  then Ok tt
  else
    let data := if bool_decide (types.TickData_Epoch data = 0)
                then types.TickData_set_Epoch (types.QuorumTickVote_Epoch quorumTickVote) data
                else data in
    computorPubKey ← index (types.Computors_PubKeys comps) (types.TickData_ComputorIndex data);
    digest ← wrap "getting partial tick data digest" (getDigestFromTickData data);
    _ ← wrap "verifying tick signature"
      (sigVerifierFunc computorPubKey digest (types.TickData_Signature data));
    fullDigest ← wrap "getting full tick data digest" (getFullDigestFromTickData data);
    if bool_decide (fullDigest ≠ types.QuorumTickVote_TxDigest quorumTickVote)
    then Err (ErrorString "quorum tx digest mismatch")
    else Ok tt.

Definition Store (tickNumber : Z) (tickData : types.TickData) : M DB unit :=
  protoTickData ← lift (wrap "converting qubic tick data to proto" (qubicToProto tickData));
  mwrap "set tick data" (SetTickData tickNumber protoTickData).

(** ** empty_tick.go *)
Definition CheckIfTickIsEmptyProto (tickData : option pb.TickData) : bool :=
  match tickData with
  | None => true
  | Some td => proto_Equal td pb.emptyTickData
  end.

Definition CheckIfTickIsEmpty (tickData : types.TickData) : outcome bool :=
  data ← wrap "converting tick data to protobuf format" (qubicToProto tickData);
  Ok (CheckIfTickIsEmptyProto data).

(** The tick numbers of one interval, in the order of the loop. *)
Definition interval_ticks (interval : pb.ProcessedTickInterval) : list Z :=
  (λ tickOffset, uint32 (tickOffset + pb.ProcessedTickInterval_InitialProcessedTick interval)) <$>
    seqZ 0 (uint32 (pb.ProcessedTickInterval_LastProcessedTick interval -
                    pb.ProcessedTickInterval_InitialProcessedTick interval + 1)).

Definition CalculateEmptyTicks_tick (emptyTicks : list Z) (tickNumber : Z) : M DB (list Z) :=
  tickData ← mwrap "getting tick data for tick" (GetTickData tickNumber);
  if CheckIfTickIsEmptyProto (Some tickData)
  then mret (emptyTicks ++ [tickNumber])
  else mret emptyTicks.

Definition CalculateEmptyTicks_interval (emptyTicks : list Z)
    (interval : pb.ProcessedTickInterval) : M DB (list Z) :=
  foldM CalculateEmptyTicks_tick emptyTicks (interval_ticks interval).

Definition CalculateEmptyTicksForEpoch (epoch : Z) : M DB (list Z) :=
  epochs ← mwrap "getting stored epochs" GetProcessedTickIntervals;
  match list_find (λ e, pb.ProcessedTickIntervalsPerEpoch_Epoch e = epoch) epochs with
  | Some (_, e) =>
      foldM CalculateEmptyTicks_interval [] (pb.ProcessedTickIntervalsPerEpoch_Intervals e)
  | None => mret []
  end.

(** The loop returns, with no error, at the first epoch whose count exists. *)
Fixpoint CalculateEmptyTicks_epochs (epochs : list Z) : M DB unit :=
  match epochs with
  | [] => mret tt
  | epoch :: epochs =>
      r ← mattempt (GetEmptyTicksForEpoch epoch);
      match r with
      | inl _ => mret tt
      | inr err =>
          if negb (errors_Is err PebbleErrNotFound)
          then throw (WrapError "checking if epoch has empty ticks" err)
          else
            emptyTicksPerEpoch ← mwrap "calculating empty ticks for epoch"
              (CalculateEmptyTicksForEpoch epoch);
            _ ← mwrap "saving emptyTickCount to database"
              (SetEmptyTicksForEpoch epoch (uint32 (Z.of_nat (length emptyTicksPerEpoch))));
            _ ← mwrap "saving empty tick list to database"
              (SetEmptyTickListPerEpoch epoch emptyTicksPerEpoch);
            CalculateEmptyTicks_epochs epochs
      end
  end.

Definition CalculateEmptyTicksForAllEpochs : M DB unit :=
  epochs ← mwrap "getting epoch list from db" GetLastProcessedTicksPerEpoch;
  CalculateEmptyTicks_epochs (map_range (map_to_list epochs).*1).

Definition ResetEmptyTicksForAllEpochs : M DB unit :=
  epochs ← mwrap "getting epoch list from db" GetLastProcessedTicksPerEpoch;
  forM_ (map_range (map_to_list epochs).*1) (λ epoch,
    _ ← mwrap "deleting empty tick key" (DeleteEmptyTicksKeyForEpoch epoch);
    mwrap "deleting empty tick list key" (DeleteEmptyTickListKeyForEpoch epoch)).

(** main.go: the empty ticks at start-up. *)
Definition prepare_empty_ticks (ResetEmptyTickKeys : bool) : M DB unit :=
  _ ← (if ResetEmptyTickKeys
       then mwrap "resetting empty ticks keys" ResetEmptyTicksForAllEpochs
       else mret tt);
  mwrap "calculating empty ticks for all epochs" CalculateEmptyTicksForAllEpochs.
End Tick.
