(* ===== verification/TickProofs.v ===== *)
(** * validator/tick: theorems

    What validated tick data guarantees; that the interval questions of the RPC
    layer are answered correctly on the intervals of a well-formed archive; and
    that the recomputed empty ticks are exactly the processed ticks stored
    without data. *)

From stdpp Require Import sorting base strings numbers pretty gmap list.
From S2P Require Import Prelude GoLib Types Platform Keys Store StoreLogic Archive Progress Utils.
From S2P Require Import Tick.

Local Open Scope Z_scope.

(** ** Validation of tick data *)
Section Validation.
Context {K : K12} {KL : K12Laws K} {N : NodeConnector} {NL : NodeConnectorLaws N}.
Context (f : SigVerifierFunc).

(** The epoch marker 0xffff counts as 0. *)
Definition unmarked (data : types.TickData) : types.TickData :=
  if bool_decide (types.TickData_Epoch data = 0xffff)
  then types.TickData_set_Epoch 0 data else data.

(** The data as it is hashed: an epoch of 0 is replaced by the vote's. *)
Definition hashed_data (data : types.TickData) (qv : types.QuorumTickVote) : types.TickData :=
  let data := unmarked data in
  if bool_decide (types.TickData_Epoch data = 0)
  then types.TickData_set_Epoch (types.QuorumTickVote_Epoch qv) data else data.

(** The bytes that are signed: the data as it is written with its computor index
    xor 8, without the 64 bytes of the signature at their end. *)
Definition signed_bytes (data : types.TickData) (s : bytes) : Prop := ∃ b,
  TickData_Write (types.TickData_set_ComputorIndex
    (Z.lxor (types.TickData_ComputorIndex data) 8) data) = Ok b ∧ s = take (length b - 64) b.

(** The computor whose index the data names (the data itself says which, and nothing
    relates it to the tick) signed the data, and the digest of the data as it is, the
    signature included, is [d]. *)
Definition signed_with_digest (data : types.TickData) (comps : types.Computors) (d : bytes) :
    Prop :=
  ∃ key s b, index (types.Computors_PubKeys comps) (types.TickData_ComputorIndex data) = Ok key ∧
    signed_bytes data s ∧ f key (hash_of s) (types.TickData_Signature data) = Ok tt ∧
    TickData_Write data = Ok b ∧ hash_of b = d.

Lemma tick_getDigest_signed data dg : getDigestFromTickData data = Ok dg ↔
  ∃ s, signed_bytes data s ∧ hash_of s = dg.
Proof.
  unfold getDigestFromTickData, signed_bytes.
  destruct (TickData_Write_total (types.TickData_set_ComputorIndex
    (Z.lxor (types.TickData_ComputorIndex data) 8) data)) as (b & -> & Hb).
  unfold BinarySerialize. ok_step. rewrite slice_to_unsigned by done. ok_step.
  rewrite K12Hash_hash_of. split.
  - intros [= <-]. eexists. split; [by exists b|done].
  - by intros (s & (b' & [= <-] & ->) & <-).
Qed.

Lemma getFullDigest_write data b : TickData_Write data = Ok b →
  getFullDigestFromTickData data = Ok (hash_of b).
Proof.
  intros Hb. unfold getFullDigestFromTickData. unfold BinarySerialize. rewrite Hb. ok_step.
  by rewrite K12Hash_hash_of.
Qed.

Lemma Validate_iff data qv comps :
  Tick.Validate f data qv comps = Ok tt ↔
  (TickData_IsEmpty (unmarked data) = true ∧ types.QuorumTickVote_TxDigest qv = zero_array 32) ∨
  (¬ (TickData_IsEmpty (unmarked data) = true ∧
      types.QuorumTickVote_TxDigest qv = zero_array 32) ∧
   signed_with_digest (hashed_data data qv) comps (types.QuorumTickVote_TxDigest qv)).
Proof.
  unfold Tick.Validate. fold (unmarked data).
  destruct (TickData_IsEmpty (unmarked data) &&
    bool_decide (types.QuorumTickVote_TxDigest qv = zero_array 32)) eqn:E.
  - apply andb_true_iff in E as [? ?%bool_decide_eq_true]. naive_solver.
  - assert (Hn : ¬ (TickData_IsEmpty (unmarked data) = true ∧
      types.QuorumTickVote_TxDigest qv = zero_array 32)).
    { intros [Ha Hb]. rewrite Ha, (bool_decide_true _ Hb) in E. done. }
    fold (hashed_data data qv). set (d := hashed_data data qv).
    destruct (TickData_Write_total d) as (b & Hb & _).
    rewrite (getFullDigest_write d b Hb). ok_step.
    split.
    + intros H. right. split; [done|]. apply bind_Ok in H as (key & Hkey & H).
      apply bind_Ok in H as (dg & Hdg%wrap_Ok & H). apply bind_Ok in H as ([] & Hf%wrap_Ok & H).
      case_bool_decide as Hd; [done|].
      apply tick_getDigest_signed in Hdg as (s & Hs & <-). exists key, s, b. by split_and!.
    + intros [?|[_ (key & s & b' & Hkey & Hs & Hf & Hb' & Hd)]]; [done|].
      assert (b' = b) as -> by congruence.
      assert (Hdg : getDigestFromTickData d = Ok (hash_of s)) by (apply tick_getDigest_signed; eauto).
      rewrite Hkey. ok_step. rewrite Hdg. ok_step. rewrite Hf. ok_step.
      by rewrite bool_decide_false by (intros ?; done).
Qed.

(** C30: Tick data passes for an aligned vote exactly when either both are
    empty, or the data names an index of the computor list, its signature verifies
    under the key at that index, over the hash of the data's bytes with the index
    xor 8 and without the signature, and the hash of the data's bytes is the digest
    the vote carries.  That the index is the tick leader's is not checked. *)
Theorem Tick_Validate_exact data qv comps :
  Tick.Validate f data qv comps = Ok tt ↔
  (TickData_IsEmpty (unmarked data) = true ∧ types.QuorumTickVote_TxDigest qv = zero_array 32) ∨
  (¬ (TickData_IsEmpty (unmarked data) = true ∧
      types.QuorumTickVote_TxDigest qv = zero_array 32) ∧
   signed_with_digest (hashed_data data qv) comps (types.QuorumTickVote_TxDigest qv)).
Proof. apply Validate_iff. Qed.

(** An aligned vote with a transaction digest admits one tick data: two
    that pass for it are written to the same bytes, or two written structures
    collide under the hash. *)
Theorem Tick_Validate_unique data data' qv comps comps' :
  types.QuorumTickVote_TxDigest qv ≠ zero_array 32 →
  Tick.Validate f data qv comps = Ok tt → Tick.Validate f data' qv comps' = Ok tt →
  ∃ b b', TickData_Write (hashed_data data qv) = Ok b ∧
          TickData_Write (hashed_data data' qv) = Ok b' ∧ (b = b' ∨ k12_collision b b').
Proof.
  intros Hnz H H'. apply Validate_iff in H as [[_ ?]|[_ (k & dg & b & _ & _ & _ & Hb & Hd)]]; [done|].
  apply Validate_iff in H' as [[_ ?]|[_ (k' & dg' & b' & _ & _ & _ & Hb' & Hd')]]; [done|].
  exists b, b'. split; [done|]. split; [done|].
  apply (K12Hash_eq_cases b b' (hash_of b)); rewrite K12Hash_hash_of; congruence.
Qed.
End Validation.

(** ** Questions about the processed intervals *)
Definition all_intervals (l : list pb.ProcessedTickIntervalsPerEpoch) :
    list pb.ProcessedTickInterval :=
  mjoin (pb.ProcessedTickIntervalsPerEpoch_Intervals <$> l).

Lemma WasSkipped_app t l k :
  WasSkippedByArchive_intervals t (l ++ k) =
  match WasSkippedByArchive_intervals t l with
  | Some r => Some r
  | None => WasSkippedByArchive_intervals t k
  end.
Proof.
  induction l as [|i l IH]; simpl; [done|]. rewrite IH. by repeat case_match.
Qed.

Lemma WasSkipped_flat t l :
  WasSkippedByArchive t l = default (false, 0) (WasSkippedByArchive_intervals t (all_intervals l)).
Proof.
  unfold all_intervals. induction l as [|p l IH]; csimpl; [done|].
  rewrite WasSkipped_app, IH. by repeat case_match.
Qed.

(** The answer on an ordered list of intervals. *)
Lemma WasSkipped_sorted t L :
  Forall interval_nonempty L → StronglySorted interval_before L →
  match WasSkippedByArchive_intervals t L with
  | Some (true, n) => t < n ∧ (∃ i, i ∈ L ∧ in_interval n i) ∧
                      ∀ t', t ≤ t' < n → ∀ i, i ∈ L → ¬ in_interval t' i
  | Some (false, n) => n = 0 ∧ ∃ i, i ∈ L ∧ in_interval t i
  | None => ∀ i, i ∈ L → pb.ProcessedTickInterval_LastProcessedTick i < t
  end.
Proof.
  intros Hne Hs. induction Hs as [|i L Hs IH Hlt]; simpl; [set_solver|].
  apply Forall_cons in Hne as [Hi Hne]. specialize (IH Hne). unfold interval_nonempty in Hi.
  rewrite Forall_forall in Hlt. unfold interval_before in Hlt.
  case_bool_decide as H1; [|case_bool_decide as H2].
  - split; [done|]. split.
    + exists i. split; [by left|]. unfold in_interval. lia.
    + intros t' Ht' j [->|Hj]%elem_of_cons; unfold in_interval; [lia|].
      apply Hlt in Hj. lia.
  - split; [done|]. exists i. split; [by left|]. done.
  - destruct (WasSkippedByArchive_intervals t L) as [[[] n]|].
    + destruct IH as (Hn & (j & Hj & Hjn) & Hno). split; [done|]. split.
      * exists j. split; [by right|done].
      * intros t' Ht' j' [->|Hj']%elem_of_cons; [|by apply Hno]. unfold in_interval. lia.
    + destruct IH as (-> & j & Hj & Hjt). split; [done|]. exists j. split; [by right|done].
    + intros j [->|Hj]%elem_of_cons; [lia|by apply IH].
Qed.

(** The intervals of an archive's list, one after the other. *)
Section Questions.
Context (a : archive) (l : list pb.ProcessedTickIntervalsPerEpoch).
Context (Hok : archive_ok a) (Hl : interval_list a l).

Lemma interval_list_entry p : p ∈ l →
  ar_intervals a !! pb.ProcessedTickIntervalsPerEpoch_Epoch p =
  Some (pb.ProcessedTickIntervalsPerEpoch_Intervals p).
Proof. apply Hl. Qed.

Lemma elem_of_all_intervals i :
  i ∈ all_intervals l ↔ ∃ e l', ar_intervals a !! e = Some l' ∧ i ∈ l'.
Proof.
  unfold all_intervals. rewrite list_elem_of_join. split.
  - intros (l' & Hi & (p & -> & Hp)%list_elem_of_fmap). eauto using interval_list_entry.
  - intros (e & l' & He & Hi). exists l'. split; [done|]. apply list_elem_of_fmap.
    exists (pb.MkProcessedTickIntervalsPerEpoch e l'). split; [done|]. by apply Hl.
Qed.

Lemma processed_all_intervals t :
  (∃ e, processed_in a e t) ↔ ∃ i, i ∈ all_intervals l ∧ in_interval t i.
Proof.
  setoid_rewrite elem_of_all_intervals. unfold processed_in. naive_solver.
Qed.

Lemma all_intervals_nonempty : Forall interval_nonempty (all_intervals l).
Proof.
  apply Forall_forall. intros i (e & l' & He & Hi)%elem_of_all_intervals.
  by eapply interval_bounds.
Qed.

Lemma StronglySorted_mjoin {A} (R : relation A) (ls : list (list A)) :
  Forall (StronglySorted R) ls →
  StronglySorted (λ k k', ∀ x y, x ∈ k → y ∈ k' → R x y) ls →
  StronglySorted R (mjoin ls).
Proof.
  induction ls as [|k ls IH]; simpl; intros Hk Hs; [constructor|].
  apply Forall_cons in Hk as [Hk Hls]. apply StronglySorted_inv in Hs as [Hs Hf].
  rewrite Forall_forall in Hf. apply StronglySorted_app_2; [| |by apply IH].
  - intros x y Hx (k' & Hy & Hk')%list_elem_of_join. eauto.
  - done.
Qed.

Lemma entries_sorted k : (∀ p, p ∈ k →
    ar_intervals a !! pb.ProcessedTickIntervalsPerEpoch_Epoch p =
    Some (pb.ProcessedTickIntervalsPerEpoch_Intervals p)) →
  StronglySorted Z.lt (pb.ProcessedTickIntervalsPerEpoch_Epoch <$> k) →
  StronglySorted (λ k k', ∀ x y, x ∈ k → y ∈ k' → interval_before x y)
    (pb.ProcessedTickIntervalsPerEpoch_Intervals <$> k).
Proof.
  induction k as [|p k IH]; csimpl; intros Hin Hs; [constructor|].
  apply StronglySorted_inv in Hs as [Hs Hlt]. constructor.
  - apply IH; [|done]. intros q Hq. apply Hin. by right.
  - apply Forall_fmap, Forall_forall. intros q Hq x y Hx Hy.
    rewrite Forall_fmap, Forall_forall in Hlt.
    eapply (ok_epochs a Hok); [apply Hin; by left|apply Hin; by right|by apply Hlt|done|done].
Qed.

Lemma all_intervals_sorted : StronglySorted interval_before (all_intervals l).
Proof.
  unfold all_intervals. apply StronglySorted_mjoin.
  - apply Forall_fmap, Forall_forall. intros p Hp%interval_list_entry.
    by eapply ok_epoch.
  - apply entries_sorted; [apply interval_list_entry|apply Hl].
Qed.

(** The last interval of the list ends at the last tick. *)
Lemma all_intervals_last t : 1 ≤ t →
  (∀ i, i ∈ all_intervals l → pb.ProcessedTickInterval_LastProcessedTick i < t) →
  last_number a < t.
Proof.
  intros Ht H. unfold last_number. destruct (ar_last a) as [pt|] eqn:E; [|lia].
  destruct (ok_last a Hok pt E) as (_ & _ & _ & l' & i & Hl' & Hi & <-).
  apply H, elem_of_all_intervals. apply last_Some_elem_of in Hi. eauto.
Qed.

Lemma processed_epoch_unique e e' t : processed_in a e t → processed_in a e' t → e = e'.
Proof.
  intros (l1 & i & H1 & Hi & Hit) (l2 & j & H2 & Hj & Hjt). unfold in_interval in *.
  destruct (Z.lt_trichotomy e e') as [He|[->|He]]; [exfalso|done|exfalso].
  - pose proof (ok_epochs a Hok _ _ _ _ _ _ H1 H2 He Hi Hj) as Hb. unfold interval_before in Hb. lia.
  - pose proof (ok_epochs a Hok _ _ _ _ _ _ H2 H1 He Hj Hi) as Hb. unfold interval_before in Hb. lia.
Qed.

Lemma GetTickEpoch_loop_spec t k :
  (∀ e, GetTickEpoch_loop t k = Ok e → ∃ p i, p ∈ k ∧ e = pb.ProcessedTickIntervalsPerEpoch_Epoch p ∧
     i ∈ pb.ProcessedTickIntervalsPerEpoch_Intervals p ∧ in_interval t i) ∧
  ((∃ p i, p ∈ k ∧ i ∈ pb.ProcessedTickIntervalsPerEpoch_Intervals p ∧ in_interval t i) →
   ∃ e, GetTickEpoch_loop t k = Ok e).
Proof.
  induction k as [|p k [IH1 IH2]]; simpl; [split; [done|set_solver]|].
  destruct (existsb (tick_in_interval t) _) eqn:E.
  - apply existsb_exists in E as (i & Hi%list_elem_of_In & Hit%bool_decide_eq_true).
    split; [|by eauto]. intros e [= <-]. exists p, i. split_and!; [by left|done..].
  - split.
    + intros e (q & i & Hq & ?)%IH1. exists q, i. split; [by right|done].
    + intros (q & i & [->|Hq]%elem_of_cons & Hi & Hit); [|by apply IH2; eauto].
      assert (Ht : existsb (tick_in_interval t)
        (pb.ProcessedTickIntervalsPerEpoch_Intervals p) = true).
      { apply existsb_exists. exists i. split; [by apply list_elem_of_In|].
        by apply bool_decide_eq_true. }
      congruence.
Qed.

Lemma WasSkipped_answer t : 1 ≤ t →
  match WasSkippedByArchive t l with
  | (true, n) => skipped a t ∧ t < n ∧ (∃ e, processed_in a e n) ∧
                 ∀ t' e, t ≤ t' < n → ¬ processed_in a e t'
  | (false, n) => n = 0 ∧ ((∃ e, processed_in a e t) ∨ last_number a < t)
  end.
Proof.
  intros Ht. rewrite WasSkipped_flat.
  pose proof (WasSkipped_sorted t _ all_intervals_nonempty all_intervals_sorted) as H.
  destruct (WasSkippedByArchive_intervals _ _) as [[[] n]|]; simpl.
  - destruct H as (Htn & Hn & Hno). apply processed_all_intervals in Hn as [e Hn].
    assert (Hno' : ∀ t' e, t ≤ t' < n → ¬ processed_in a e t').
    { intros t' e' Ht' Hp. destruct (proj1 (processed_all_intervals t')) as (i & Hi & Hit);
        [by eauto|]. by eapply Hno. }
    split_and!; [|done|by eauto|done].
    apply (ok_bounds a Hok) in Hn as Hb.
    destruct (ok_cover a Hok t) as [[e' He']|]; [lia| |done]. by destruct (Hno' t e'); [lia|].
  - destruct H as [-> H]. split; [done|]. left. by apply processed_all_intervals.
  - split; [done|]. right. by apply all_intervals_last.
Qed.

(** For a tick from 1 on, the answer of [WasSkippedByArchive] on the
    intervals of a well-formed archive: [(true, n)] says the tick was skipped and
    [n] is the next processed tick; [(false, 0)] says the tick was processed or
    is beyond the last processed one. *)
Theorem WasSkippedByArchive_spec t : 1 ≤ t →
  match WasSkippedByArchive t l with
  | (true, n) => skipped a t ∧ t < n ∧ (∃ e, processed_in a e n) ∧
                 ∀ t' e, t ≤ t' < n → ¬ processed_in a e t'
  | (false, n) => n = 0 ∧ ((∃ e, processed_in a e t) ∨ last_number a < t)
  end.
Proof. apply WasSkipped_answer. Qed.

Lemma GetTickEpoch_iff t e : GetTickEpoch t l = Ok e ↔ processed_in a e t.
Proof.
  destruct (GetTickEpoch_loop_spec t l) as [H1 H2].
  assert (Hproc : ∀ p i, p ∈ l → i ∈ pb.ProcessedTickIntervalsPerEpoch_Intervals p →
    in_interval t i → processed_in a (pb.ProcessedTickIntervalsPerEpoch_Epoch p) t).
  { intros p i Hp Hi Hit. exists (pb.ProcessedTickIntervalsPerEpoch_Intervals p), i.
    split; [by apply interval_list_entry|done]. }
  unfold GetTickEpoch. destruct (decide (length l = 0%nat)) as [H0|H0].
  - rewrite bool_decide_true by done. split; [done|]. intros Hp.
    apply length_zero_iff_nil in H0.
    destruct (proj1 (processed_all_intervals t)) as (i & Hi & _); [by eauto|].
    rewrite H0 in Hi. by apply elem_of_nil in Hi.
  - rewrite bool_decide_false by done. split.
    + intros (p & i & Hp & -> & Hi & Hit)%H1. by eapply Hproc.
    + intros Hp. destruct H2 as [e' He'].
      { destruct Hp as (l' & i & Hl' & Hi & Hit).
        exists (pb.MkProcessedTickIntervalsPerEpoch e l'), i. split; [by apply Hl|done]. }
      rewrite He'. f_equal. apply H1 in He' as (p & i & Hpin & -> & Hi & Hit).
      eapply processed_epoch_unique; [|exact Hp]. by eapply Hproc.
Qed.

(** [GetTickEpoch] finds an epoch exactly for the processed ticks, and the
    epoch is the one the tick was processed in. *)
Theorem GetTickEpoch_exact t e : GetTickEpoch t l = Ok e ↔ processed_in a e t.
Proof. apply GetTickEpoch_iff. Qed.

Lemma IsTickLast_loop_spec t k n :
  match IsTickLast_loop t n k with
  | (true, i) => n ≤ i ∧ ∃ x, k !! Z.to_nat (i - n) = Some x ∧
                 pb.ProcessedTickInterval_LastProcessedTick x = t
  | (false, i) => i = -1 ∧ ∀ x, x ∈ k → pb.ProcessedTickInterval_LastProcessedTick x ≠ t
  end.
Proof.
  revert n. induction k as [|x k IH]; intros n; simpl; [set_solver|].
  case_bool_decide as Hx.
  - split; [lia|]. exists x. by rewrite Z.sub_diag.
  - specialize (IH (n + 1)). destruct (IsTickLast_loop t (n + 1) k) as [[] i].
    + destruct IH as (Hi & y & Hy & Hyt). split; [lia|]. exists y. split; [|done].
      by replace (Z.to_nat (i - n)) with (S (Z.to_nat (i - (n + 1)))) by lia.
    + destruct IH as [-> Hno]. split; [done|]. intros y [->|Hy]%elem_of_cons; [done|by apply Hno].
Qed.

Lemma intervals_of_epoch e :
  GetProcessedTickIntervalsForEpoch e l =
  match ar_intervals a !! e with
  | Some l' => Ok (pb.MkProcessedTickIntervalsPerEpoch e l')
  | None => Err (ErrorString "unable to find processed tick intervals for epoch")
  end.
Proof.
  assert (Hfind : ∀ k, (∀ p, GetProcessedTickIntervalsForEpoch e k = Ok p →
      p ∈ k ∧ pb.ProcessedTickIntervalsPerEpoch_Epoch p = e) ∧
    (GetProcessedTickIntervalsForEpoch e k =
       Err (ErrorString "unable to find processed tick intervals for epoch") ∧
     (∀ p, p ∈ k → pb.ProcessedTickIntervalsPerEpoch_Epoch p ≠ e) ∨
     ∃ p, GetProcessedTickIntervalsForEpoch e k = Ok p)).
  { induction k as [|p k [IH1 IH2]]; simpl; [set_solver|]. case_bool_decide as He.
    - split; [set_solver|]. destruct IH2 as [[Hn Hno]|]; [left|by right].
      split; [done|]. intros q [->|Hq]%elem_of_cons; [done|by apply Hno].
    - split; [|by eauto]. intros q [= <-]. split; [by left|done]. }
  destruct (Hfind l) as [H1 [[Hn Hno]|[p Hp]]].
  - rewrite Hn. destruct (ar_intervals a !! e) as [l'|] eqn:E; [|done].
    destruct (Hno (pb.MkProcessedTickIntervalsPerEpoch e l')); [|done]. by apply Hl.
  - rewrite Hp. apply H1 in Hp as [Hp <-]. rewrite (interval_list_entry p Hp). by destruct p.
Qed.

Lemma IsTickLast_cases t e :
  match IsTickLastInAnyEpochInterval t e l with
  | Ok (true, i) => ∃ l' x, ar_intervals a !! e = Some l' ∧ l' !! Z.to_nat i = Some x ∧ 0 ≤ i ∧
                    pb.ProcessedTickInterval_LastProcessedTick x = t
  | Ok (false, i) => i = -1 ∧ ∃ l', ar_intervals a !! e = Some l' ∧
                     ∀ x, x ∈ l' → pb.ProcessedTickInterval_LastProcessedTick x ≠ t
  | _ => ar_intervals a !! e = None
  end.
Proof.
  unfold IsTickLastInAnyEpochInterval. rewrite intervals_of_epoch.
  destruct (ar_intervals a !! e) as [l'|]; ok_step; [|done]. simpl.
  pose proof (IsTickLast_loop_spec t l' 0) as H. destruct (IsTickLast_loop t 0 l') as [[] i].
  - destruct H as (Hi & x & Hx & Hxt). rewrite Z.sub_0_r in Hx. by exists l', x.
  - destruct H as [-> Hno]. eauto.
Qed.

(** [IsTickLastInAnyEpochInterval] answers with the index of the interval
    of the epoch that ends at the tick; it fails exactly for an epoch without
    intervals. *)
Theorem IsTickLast_exact t e :
  match IsTickLastInAnyEpochInterval t e l with
  | Ok (true, i) => ∃ l' x, ar_intervals a !! e = Some l' ∧ l' !! Z.to_nat i = Some x ∧ 0 ≤ i ∧
                    pb.ProcessedTickInterval_LastProcessedTick x = t
  | Ok (false, i) => i = -1 ∧ ∃ l', ar_intervals a !! e = Some l' ∧
                     ∀ x, x ∈ l' → pb.ProcessedTickInterval_LastProcessedTick x ≠ t
  | _ => ar_intervals a !! e = None
  end.
Proof. apply IsTickLast_cases. Qed.
End Questions.

(** ** The empty ticks of an epoch *)
Lemma interval_ticks_seqZ i : 1 ≤ pb.ProcessedTickInterval_InitialProcessedTick i →
  interval_nonempty i → pb.ProcessedTickInterval_LastProcessedTick i < 2 ^ 32 - 1 →
  interval_ticks i = seqZ (pb.ProcessedTickInterval_InitialProcessedTick i)
    (pb.ProcessedTickInterval_LastProcessedTick i -
     pb.ProcessedTickInterval_InitialProcessedTick i + 1).
Proof.
  unfold interval_nonempty, interval_ticks. intros H1 H2 H3.
  set (s := pb.ProcessedTickInterval_InitialProcessedTick i) in *.
  set (n := pb.ProcessedTickInterval_LastProcessedTick i) in *.
  rewrite (uint32_small (n - s + 1)) by lia.
  replace (seqZ s (n - s + 1)) with (Z.add s <$> seqZ 0 (n - s + 1)).
  - apply list_fmap_ext. intros j x Hx%lookup_seqZ. rewrite uint32_small by lia. lia.
  - rewrite fmap_add_seqZ. f_equal. lia.
Qed.

Lemma seqZ_sorted s n : StronglySorted Z.lt (seqZ s n).
Proof.
  destruct (decide (n < 0)); [rewrite seqZ_nil by lia; constructor|].
  rewrite <-(Z2Nat.id n) by lia. revert s. induction (Z.to_nat n) as [|k IH]; intros s; [constructor|].
  rewrite seqZ_cons by lia. constructor.
  - replace (Z.pred (Z.of_nat (S k))) with (Z.of_nat k) by lia. apply IH.
  - apply Forall_forall. intros x Hx%elem_of_seqZ. lia.
Qed.

Lemma StronglySorted_filter {A} (R : relation A) (p : A → bool) l :
  StronglySorted R l → StronglySorted R (filter p l).
Proof.
  induction 1 as [|x l _ IH Hx]; [constructor|].
  rewrite filter_cons. destruct (decide (p x)); [|done]. constructor; [done|].
  rewrite Forall_forall in *. intros y [_ Hy]%list_elem_of_filter. by apply Hx.
Qed.

Lemma foldl_app_filter {A} (p : A → bool) (l acc : list A) :
  foldl (λ acc x, if p x then acc ++ [x] else acc) acc l = acc ++ filter p l.
Proof.
  revert acc. induction l as [|x l IH]; intros acc; simpl; [by rewrite app_nil_r|].
  rewrite IH, filter_cons. destruct (p x); simpl; [|done]. by rewrite <-app_assoc.
Qed.

Lemma foldl_app_mjoin {A B} (g : A → list B) (l : list A) acc :
  foldl (λ acc x, acc ++ g x) acc l = acc ++ mjoin (g <$> l).
Proof.
  revert acc. induction l as [|x l IH]; intros acc; csimpl; [by rewrite app_nil_r|].
  by rewrite IH, <-app_assoc.
Qed.

Lemma archive_ok_small a e : archive_ok a → is_Some (ar_intervals a !! e) → 0 ≤ e < 0x31000000.
Proof.
  intros Hok He. destruct (ar_last a) as [pt|] eqn:E.
  - destruct (ok_last a Hok pt E) as (_ & Hp & Hb & _). specialize (Hb e He). lia.
  - apply (ok_none a Hok) in E as [E _]. rewrite E, lookup_empty in He. by destruct He.
Qed.

Lemma last_number_lt a : archive_ok a → last_number a < 2 ^ 32 - 1.
Proof.
  intros Hok. unfold last_number. destruct (ar_last a) eqn:E; [|lia].
  apply (ok_last a Hok) in E as [? _]. lia.
Qed.

Section EmptyTicks.
Context {P : Pebble} {PL : PebbleLaws P} {PR : Protobuf} {PRL : ProtobufLaws PR}.
Context (m : gmap bytes bytes) (a : archive) (Hrep : represents m a) (Hok : archive_ok a).

(** The stored tick data decodes to the message with no field set. *)
Definition tick_empty (t : Z) : bool :=
  match m !! tickDataKey t with
  | Some b => bool_decide (Unmarshal b = Ok pb.emptyTickData)
  | None => false
  end.

Lemma tick_empty_stored t : tick_empty t = true ↔ stored m (tickDataKey t) pb.emptyTickData.
Proof.
  unfold tick_empty, stored. destruct (m !! tickDataKey t) as [b|]; [|naive_solver].
  rewrite bool_decide_eq_true. naive_solver.
Qed.

Lemma runs_CalculateEmptyTicks_tick acc t :
  (∃ td : pb.TickData, stored m (tickDataKey t) td) →
  runs m (CalculateEmptyTicks_tick acc t) (Ok (if tick_empty t then acc ++ [t] else acc)) m.
Proof.
  intros [td Htd]. unfold CalculateEmptyTicks_tick.
  runs_step (runs_wrapped; by apply runs_get_stored). simpl.
  destruct (tick_empty t) eqn:E.
  - apply tick_empty_stored in E. rewrite (stored_fun _ _ _ _ Htd E).
    rewrite (proj2 (proto_Equal_spec _ _) eq_refl). apply runs_ret.
  - destruct (proto_Equal td pb.emptyTickData) eqn:Ee; [|apply runs_ret].
    apply proto_Equal_spec in Ee as ->. apply tick_empty_stored in Htd. congruence.
Qed.

Lemma runs_CalculateEmptyTicks_intervals acc l :
  (∀ i t, i ∈ l → t ∈ interval_ticks i → ∃ td : pb.TickData, stored m (tickDataKey t) td) →
  runs m (foldM CalculateEmptyTicks_interval acc l)
    (Ok (acc ++ mjoin ((λ i, filter tick_empty (interval_ticks i)) <$> l))) m.
Proof.
  intros Hst. rewrite <-foldl_app_mjoin. apply runs_foldM_read. intros acc' i Hi.
  rewrite <-foldl_app_filter. apply runs_foldM_read. intros acc'' t Ht.
  apply runs_CalculateEmptyTicks_tick. eauto.
Qed.

(** The ticks of an interval of the archive. *)
Lemma elem_of_interval_ticks e l i t : ar_intervals a !! e = Some l → i ∈ l →
  t ∈ interval_ticks i ↔ in_interval t i.
Proof.
  intros Hl Hi. destruct (interval_bounds a e l i Hok Hl Hi) as (Hne & H1 & H2).
  pose proof (last_number_lt a Hok).
  rewrite interval_ticks_seqZ, elem_of_seqZ by (done || lia). unfold in_interval. lia.
Qed.

Lemma interval_ticks_sorted e l i : ar_intervals a !! e = Some l → i ∈ l →
  StronglySorted Z.lt (interval_ticks i).
Proof.
  intros Hl Hi. destruct (interval_bounds a e l i Hok Hl Hi) as (Hne & H1 & H2).
  pose proof (last_number_lt a Hok).
  rewrite interval_ticks_seqZ by (done || lia). apply seqZ_sorted.
Qed.

Lemma empty_ticks_sorted e l k : ar_intervals a !! e = Some l → (∀ i, i ∈ k → i ∈ l) →
  StronglySorted interval_before k →
  StronglySorted Z.lt (mjoin ((λ i, filter tick_empty (interval_ticks i)) <$> k)).
Proof.
  intros Hl Hk Hs. apply StronglySorted_mjoin.
  - apply Forall_fmap, Forall_forall. intros i Hi.
    by eapply StronglySorted_filter, interval_ticks_sorted, Hk.
  - revert Hk. induction Hs as [|i k Hs IH Hi]; csimpl; intros Hk; [constructor|].
    constructor; [apply IH; intros; apply Hk; by right|]. apply Forall_fmap, Forall_forall.
    intros j Hj x y [_ Hx]%list_elem_of_filter [_ Hy]%list_elem_of_filter.
    rewrite Forall_forall in Hi. specialize (Hi j Hj). unfold interval_before in Hi.
    apply (elem_of_interval_ticks e l) in Hx; [|done|apply Hk; by left].
    apply (elem_of_interval_ticks e l) in Hy; [|done|apply Hk; by right].
    unfold in_interval in *. lia.
Qed.

Lemma list_find_epoch l e : interval_list a l →
  match list_find (λ p, pb.ProcessedTickIntervalsPerEpoch_Epoch p = e) l with
  | Some (_, p) => ar_intervals a !! e = Some (pb.ProcessedTickIntervalsPerEpoch_Intervals p)
  | None => ar_intervals a !! e = None
  end.
Proof.
  intros Hl. destruct (list_find _ l) as [[n p]|] eqn:E.
  - apply list_find_Some in E as (Hp%list_elem_of_lookup_2 & <- & _).
    by apply interval_list_entry with l.
  - apply list_find_None in E. rewrite Forall_forall in E.
    destruct (ar_intervals a !! e) as [l'|] eqn:El; [|done].
    destruct (E (pb.MkProcessedTickIntervalsPerEpoch e l')); [|done]. by apply Hl.
Qed.

Lemma runs_CalculateEmptyTicksForEpoch e :
  (∀ t, processed_in a e t → ∃ td : pb.TickData, stored m (tickDataKey t) td) →
  ∃ L, runs m (CalculateEmptyTicksForEpoch e) (Ok L) m ∧ StronglySorted Z.lt L ∧
       ∀ t, t ∈ L ↔ processed_in a e t ∧ stored m (tickDataKey t) pb.emptyTickData.
Proof.
  intros Hst. destruct (runs_GetProcessedTickIntervals m a Hrep) as (l & Hrun & Hl).
  { intros e'. by apply archive_ok_small. }
  pose proof (list_find_epoch l e Hl) as Hf.
  eassert (Hcalc : ∀ o, runs m _ o m → runs m (CalculateEmptyTicksForEpoch e) o m).
  { intros o Ho. unfold CalculateEmptyTicksForEpoch. runs_step (runs_wrapped; exact Hrun). exact Ho. }
  destruct (list_find _ l) as [[n p]|].
  - set (ivs := pb.ProcessedTickIntervalsPerEpoch_Intervals p) in *.
    eexists. split; [|split].
    + apply Hcalc. apply runs_CalculateEmptyTicks_intervals. intros i t Hi Ht.
      apply Hst. exists ivs, i. split_and!; [done..|]. by eapply elem_of_interval_ticks.
    + eapply empty_ticks_sorted; [done|done|]. by eapply ok_epoch.
    + intros t. rewrite app_nil_l, list_elem_of_join. split.
      * intros (k & Hk & (i & -> & Hi)%list_elem_of_fmap).
        apply list_elem_of_filter in Hk as [He Ht]. split.
        -- exists ivs, i. split_and!; [done..|]. by eapply elem_of_interval_ticks.
        -- apply tick_empty_stored. by apply Is_true_eq_true.
      * intros [(l' & i & Hl' & Hi & Hit) He]. rewrite Hf in Hl'. injection Hl' as <-.
        eexists. split; [|by apply list_elem_of_fmap_2]. apply list_elem_of_filter.
        split; [by apply Is_true_eq_left, tick_empty_stored|]. by eapply elem_of_interval_ticks.
  - exists []. split; [apply Hcalc, runs_ret|]. split; [constructor|].
    intros t. split; [by intros ?%elem_of_nil|]. intros [(l' & i & Hl' & _) _]. congruence.
Qed.

(** The recomputation of an epoch's empty ticks, on a database that holds
    the data of every processed tick of the epoch, returns in increasing order
    and once each exactly the processed ticks whose stored data is the empty
    message. *)
Theorem CalculateEmptyTicksForEpoch_exact e :
  (∀ t, processed_in a e t → ∃ td : pb.TickData, stored m (tickDataKey t) td) →
  ∃ L, runs m (CalculateEmptyTicksForEpoch e) (Ok L) m ∧ StronglySorted Z.lt L ∧
       ∀ t, t ∈ L ↔ processed_in a e t ∧ stored m (tickDataKey t) pb.emptyTickData.
Proof. apply runs_CalculateEmptyTicksForEpoch. Qed.
End EmptyTicks.
