(* ===== verification/Tx.v ===== *)
(** * validator/tx: the transactions of a tick

    Validation against the digests of the tick data, the stored form, and the
    index of transfers per identity. *)

From stdpp Require Import sorting base strings numbers pretty gmap list.
From S2P Require Import Prelude GoLib Types Platform Keys Store Utils.

Local Open Scope Z_scope.

Section Tx.
Context {P : Pebble} {PR : Protobuf} {R : GoRuntime} {K : K12} {N : NodeConnector}.

(** ** models.go *)
Definition txToProto (tx : types.Transaction) : outcome pb.Transaction :=
  digest ← wrap "getting tx digest" (Transaction_Digest tx);
  txID ← wrap "getting tx id" (Identity_FromPubKey digest true);
  sourceID ← wrap "getting source id"
    (Identity_FromPubKey (types.Transaction_SourcePublicKey tx) false);
  destID ← wrap "getting dest id"
    (Identity_FromPubKey (types.Transaction_DestinationPublicKey tx) false);
  Ok {| pb.Transaction_SourceId := sourceID;
        pb.Transaction_DestId := destID;
        pb.Transaction_Amount := types.Transaction_Amount tx;
        pb.Transaction_TickNumber := types.Transaction_Tick tx;
        pb.Transaction_InputType := types.Transaction_InputType tx;
        pb.Transaction_InputSize := types.Transaction_InputSize tx;
        pb.Transaction_InputHex := hex_EncodeToString (types.Transaction_Input tx);
        pb.Transaction_SignatureHex := hex_EncodeToString (types.Transaction_Signature tx);
        pb.Transaction_TxId := txID |}.

Definition qubicToProto (txs : list types.Transaction) : outcome (list pb.Transaction) :=
  foldO (λ protoTxs tx,
    txProto ← wrap "converting tx to proto" (txToProto tx);
    Ok (protoTxs ++ [txProto])) [] txs.

(** ** validator.go: validation *)
Definition getDigestFromTransaction (tx : types.Transaction) : outcome bytes :=
  txDataMarshalledBytes ← wrap "marshalling" (Transaction_MarshallBinary tx);
  wrap "hashing tx tx" (K12Hash txDataMarshalledBytes).

(** A Go [map[string]struct{}] is a set of strings. *)
Definition createTxDigestsMap_step (digestsMap : gset string) (digest : bytes) : gset string :=
  if bool_decide (digest = zero_array 32) then digestsMap
  else {[hex_EncodeToString digest]} ∪ digestsMap.

Definition createTxDigestsMap (tickData : types.TickData) : gset string :=
  foldl createTxDigestsMap_step ∅ (types.TickData_TransactionDigests tickData).

Definition validateTransactions_step (sigVerifierFunc : SigVerifierFunc)
    (acc : list types.Transaction * gset string) (tx : types.Transaction) :
    outcome (list types.Transaction * gset string) :=
  let '(validTransactions, digestsMap) := acc in
  txDigest ← wrap "getting digest from tx data" (getDigestFromTransaction tx);
  txId ← wrap "getting tx id" (Transaction_ID tx);
  let hexDigest := hex_EncodeToString txDigest in
  if negb (bool_decide (hexDigest ∈ digestsMap))
  then Err (ErrorString "tx id not found in digests map")
  else
    txDataBytes ← wrap "marshalling tx data" (Transaction_MarshallBinary tx);
    data ← slice_to txDataBytes (Z.of_nat (length txDataBytes) - 64);
    constructedDigest ← wrap "constructing digest from tx data" (K12Hash data);
    _ ← wrap "verifying tx signature"
      (sigVerifierFunc (types.Transaction_SourcePublicKey tx) constructedDigest
                       (types.Transaction_Signature tx));
    Ok (validTransactions ++ [tx], digestsMap ∖ {[hexDigest]}).

Definition validateTransactions (sigVerifierFunc : SigVerifierFunc)
    (transactions : list types.Transaction) (digestsMap : gset string) :
    outcome (list types.Transaction) :=
  '(validTransactions, digestsMap) ←
    foldO (validateTransactions_step sigVerifierFunc) ([], digestsMap) transactions;
  if bool_decide (0 < size digestsMap)%nat
  then Err (ErrorString "not all digests were matched")
  else Ok validTransactions.

Definition Validate (sigVerifierFunc : SigVerifierFunc)
    (transactions : list types.Transaction) (tickData : types.TickData) :
    outcome (list types.Transaction) :=
  let digestsMap := createTxDigestsMap tickData in
  if bool_decide (size digestsMap = 0%nat) then Ok []
  else wrap "validating transactions"
         (validateTransactions sigVerifierFunc transactions digestsMap).

(** ** validator.go: storing *)
Definition storeTickTransactions (transactions : list types.Transaction) : M DB unit :=
  protoModel ← lift (wrap "converting to proto" (qubicToProto transactions));
  mwrap "storing tick transactions" (SetTransactions protoModel).

Definition removeNonTransferTransactionsAndConvert (transactions : list types.Transaction) :
    outcome (list pb.Transaction) :=
  foldO (λ transferTransactions tx,
    if bool_decide (types.Transaction_Amount tx = 0) then Ok transferTransactions
    else protoTx ← wrap "converting to proto" (txToProto tx);
         Ok (transferTransactions ++ [protoTx])) [] transactions.

(** [m[id] = append(m[id], tx)] *)
Definition append_tx (id : string) (tx : pb.Transaction)
    (m : gmap string (list pb.Transaction)) : gmap string (list pb.Transaction) :=
  <[id := default [] (m !! id) ++ [tx]]> m.

(** [if _, ok := m[id]; !ok { m[id] = make([]*Transaction, 0) }] *)
Definition ensure_id (id : string) (m : gmap string (list pb.Transaction)) :
    gmap string (list pb.Transaction) :=
  match m !! id with Some _ => m | None => <[id := []]> m end.

(** Returns an error in its signature and never a non-nil one. *)
Definition createTransferTransactionsIdentityMap (txs : list pb.Transaction) :
    outcome (gmap string (list pb.Transaction)) :=
  Ok (foldl (λ txsPerIdentity tx,
        let txsPerIdentity := ensure_id (pb.Transaction_DestId tx) txsPerIdentity in
        let txsPerIdentity := ensure_id (pb.Transaction_SourceId tx) txsPerIdentity in
        let txsPerIdentity := append_tx (pb.Transaction_DestId tx) tx txsPerIdentity in
        append_tx (pb.Transaction_SourceId tx) tx txsPerIdentity) ∅ txs).

Definition storeTransferTransactions (tickNumber : Z) (transactions : list types.Transaction) :
    M DB unit :=
  transferTransactions ← lift (wrap "removing non transfer transactions"
    (removeNonTransferTransactionsAndConvert transactions));
  txsPerIdentity ← lift (wrap "filtering transfer transactions"
    (createTransferTransactionsIdentityMap transferTransactions));
  forM_ (map_range (map_to_list txsPerIdentity)) (λ '(id, txs),
    mwrap "storing transfer transactions"
      (PutTransferTransactionsPerTick id tickNumber
         (pb.MkTransferTransactionsPerTick tickNumber id txs))).

Definition Store (tickNumber : Z) (transactions : list types.Transaction) : M DB unit :=
  _ ← mwrap "storing tick transactions" (storeTickTransactions transactions);
  mwrap "storing transfer transactions" (storeTransferTransactions tickNumber transactions).
End Tx.
