(* ===== verification/TxProofs.v ===== *)
(** * validator/tx: theorems

    Validation accepts a list of transactions exactly when their digests are
    the tick's non-zero digests, each once, and every signature verifies; the
    transfer index lists each identity's transfers in order. *)

From stdpp Require Import sorting base strings numbers pretty gmap list.
From S2P Require Import Prelude GoLib Types Platform Keys Store StoreLogic Utils.
From S2P Require Import Tx.

Local Open Scope Z_scope.

Section Validation.
Context {K : K12} {KL : K12Laws K} {N : NodeConnector} (f : SigVerifierFunc).

(** The transaction serializes, has [d] as its digest, and its signature over
    everything but the signature verifies. *)
Definition verified (tx : types.Transaction) (d : bytes) : Prop :=
  ∃ b id, Transaction_MarshallBinary tx = Ok b ∧ Transaction_ID tx = Ok id ∧ d = hash_of b ∧
    (64 ≤ length b)%nat ∧
    f (types.Transaction_SourcePublicKey tx) (hash_of (take (length b - 64) b))
      (types.Transaction_Signature tx) = Ok tt.

Notation step := (validateTransactions_step f).

Lemma step_verified acc S tx d : verified tx d →
  step (acc, S) tx =
    if bool_decide (hex_EncodeToString d ∈ S) then Ok (acc ++ [tx], S ∖ {[hex_EncodeToString d]})
    else Err (ErrorString "tx id not found in digests map").
Proof.
  intros (b & id & Hb & Hid & -> & Hlen & Hf).
  unfold validateTransactions_step, getDigestFromTransaction.
  rewrite Hb. ok_step. rewrite K12Hash_hash_of, Hid. ok_step.
  case_bool_decide as Hin; [|done]. cbn [negb]. rewrite slice_to_unsigned by done. ok_step.
  rewrite K12Hash_hash_of. ok_step. by rewrite Hf.
Qed.

Lemma step_inv acc S tx r : step (acc, S) tx = Ok r →
  ∃ d, verified tx d ∧ hex_EncodeToString d ∈ S ∧
       r = (acc ++ [tx], S ∖ {[hex_EncodeToString d]}).
Proof.
  unfold validateTransactions_step, getDigestFromTransaction. intros H.
  apply bind_Ok in H as (txd & H1 & H). apply wrap_Ok, bind_Ok in H1 as (b & Hb & H1).
  apply wrap_Ok in Hb, H1. apply bind_Ok in H as (id & Hid & H). apply wrap_Ok in Hid.
  rewrite K12Hash_hash_of in H1. injection H1 as <-.
  case_bool_decide as Hin; [|done]. cbn [negb] in H. rewrite Hb in H. ok_step.
  apply bind_Ok in H as (b' & Hb' & H). apply wrap_Ok in Hb'. injection Hb' as <-.
  apply bind_Ok in H as (data & Hd & H). unfold slice_to in Hd.
  case_bool_decide as Hlen; [|done]. injection Hd as <-.
  rewrite K12Hash_hash_of in H. apply bind_Ok in H as (dg & Hdg & H). injection Hdg as <-.
  apply bind_Ok in H as ([] & Hf & H). apply wrap_Ok in Hf. injection H as <-.
  exists (hash_of b). split; [|done]. exists b, id. split_and!; try done; [lia|].
  by replace (length b - 64)%nat with (Z.to_nat (Z.of_nat (length b) - 64)) by lia.
Qed.

(** The loop: digests are removed from the set one by one. *)
Lemma loop_iff txs acc S out S' :
  foldO step (acc, S) txs = Ok (out, S') ↔
  out = acc ++ txs ∧ ∃ ds, Forall2 verified txs ds ∧ NoDup (hex_EncodeToString <$> ds) ∧
    (∀ h, h ∈ hex_EncodeToString <$> ds → h ∈ S) ∧
    S' = S ∖ list_to_set (hex_EncodeToString <$> ds).
Proof.
  revert acc S. induction txs as [|tx txs IH]; intros acc S; cbn [foldO].
  - split.
    + intros [= <- <-]. rewrite app_nil_r. split; [done|]. exists []. csimpl.
      split_and!; [constructor|constructor|set_solver|set_solver].
    + intros (-> & ds & Hds & _ & _ & ->). inversion Hds; subst. csimpl.
      rewrite app_nil_r. do 2 f_equal. set_solver.
  - split.
    + intros H. apply bind_Ok in H as (r & Hr & H). apply step_inv in Hr as (d & Hd & Hin & ->).
      apply IH in H as (-> & ds & Hds & Hnd & Hsub & ->).
      split; [by rewrite <-app_assoc|]. exists (d :: ds). csimpl. split_and!.
      * by constructor.
      * constructor; [|done]. intros Hd'%Hsub. set_solver.
      * set_solver.
      * set_solver.
    + intros (-> & ds & Hds & Hnd & Hsub & ->). inversion Hds as [|? d ? ds' Hd Hds']; subst.
      rewrite fmap_cons in Hnd, Hsub |- *. apply NoDup_cons in Hnd as [Hni Hnd].
      rewrite (step_verified _ _ _ _ Hd), bool_decide_true by set_solver. ok_step.
      apply IH. split; [by rewrite <-app_assoc|]. exists ds'. split_and!; [done|done| |set_solver].
      intros h Hh. assert (h ≠ hex_EncodeToString d) by (intros ->; done). set_solver.
Qed.

Lemma validateTransactions_iff txs S out :
  validateTransactions f txs S = Ok out ↔
  out = txs ∧ ∃ ds, Forall2 verified txs ds ∧ NoDup (hex_EncodeToString <$> ds) ∧
    list_to_set (hex_EncodeToString <$> ds) = S.
Proof.
  unfold validateTransactions. split.
  - intros H. apply bind_Ok in H as ([out' S'] & H1 & H).
    case_bool_decide as Hs; [done|]. injection H as <-.
    apply loop_iff in H1 as (-> & ds & Hds & Hnd & Hsub & ->). split; [done|].
    exists ds. split_and!; [done..|].
    assert (E : S ∖ list_to_set (hex_EncodeToString <$> ds) ≡ ∅) by (apply size_empty_inv; lia).
    apply set_eq. intros h. rewrite elem_of_list_to_set. split; [apply Hsub|]. intros Hh.
    destruct (decide (h ∈ hex_EncodeToString <$> ds)) as [|Hn]; [done|]. exfalso.
    apply (not_elem_of_empty (C := gset string) h). rewrite <-E, elem_of_difference.
    by rewrite elem_of_list_to_set.
  - intros (-> & ds & Hds & Hnd & HS).
    rewrite (proj2 (loop_iff txs [] S txs (S ∖ list_to_set (hex_EncodeToString <$> ds)))).
    + ok_step. rewrite HS, difference_diag_L. by rewrite bool_decide_false by (rewrite size_empty; lia).
    + split; [done|]. exists ds. split_and!; try done. intros h Hh. rewrite <-HS.
      by apply elem_of_list_to_set.
Qed.

Lemma elem_of_digests_map td h :
  h ∈ createTxDigestsMap td ↔
  ∃ d, d ∈ types.TickData_TransactionDigests td ∧ d ≠ zero_array 32 ∧ h = hex_EncodeToString d.
Proof.
  unfold createTxDigestsMap. induction (types.TickData_TransactionDigests td) as [|d l IH]
    using rev_ind; [set_solver|].
  rewrite foldl_app. cbn [foldl]. unfold createTxDigestsMap_step at 1. case_bool_decide.
  - rewrite IH. set_solver.
  - rewrite elem_of_union, elem_of_singleton, IH. set_solver.
Qed.

Lemma hex_digests_iff txs td ds :
  Forall (is_array 32) (types.TickData_TransactionDigests td) → Forall2 verified txs ds →
  (NoDup (hex_EncodeToString <$> ds) ∧
   list_to_set (hex_EncodeToString <$> ds) = createTxDigestsMap td) ↔
  (NoDup ds ∧ ∀ d, d ∈ ds ↔ d ∈ types.TickData_TransactionDigests td ∧ d ≠ zero_array 32).
Proof.
  rewrite Forall_forall. intros Hwf Hds.
  assert (Harr : ∀ d, d ∈ ds → wf_bytes d).
  { intros d Hd. apply list_elem_of_lookup in Hd as [i Hi].
    destruct (Forall2_lookup_r _ _ _ _ _ Hds Hi) as (tx & _ & b & id & _ & _ & -> & _).
    apply hash_of_array. }
  assert (Hinj : ∀ d d', d ∈ ds → wf_bytes d' → hex_EncodeToString d = hex_EncodeToString d' → d = d').
  { intros d d' Hd Hd'. apply hex_EncodeToString_inj; auto. }
  split.
  - intros [Hnd Hset]. split; [by eapply NoDup_fmap_1|].
    assert (Hin : ∀ h, h ∈ hex_EncodeToString <$> ds ↔ h ∈ createTxDigestsMap td)
      by (intros h; by rewrite <-Hset, elem_of_list_to_set).
    intros d. split.
    + intros Hd. destruct (proj1 (elem_of_digests_map td (hex_EncodeToString d)))
        as (d' & Hd' & Hn & E); [by apply Hin, list_elem_of_fmap_2|].
      apply Hinj in E as ->; [done|done|]. by apply Hwf.
    + intros [Hd Hn]. assert (hex_EncodeToString d ∈ hex_EncodeToString <$> ds) as Hh
        by (apply Hin, elem_of_digests_map; eauto).
      apply list_elem_of_fmap in Hh as (d' & E & Hd'). symmetry in E.
      apply Hinj in E as ->; [done|done|]. by apply Hwf.
  - intros [Hnd Hiff]. split.
    + apply NoDup_fmap_2_strong; [|done]. intros d d' Hd Hd' E. apply Hinj; [done| |done].
      by apply Harr.
    + apply set_eq. intros h. rewrite elem_of_list_to_set, list_elem_of_fmap, elem_of_digests_map.
      split.
      * intros (d & -> & [? ?]%Hiff). eauto.
      * intros (d & ? & ? & ->). exists d. split; [done|]. by apply Hiff.
Qed.
(** C22: For a tick with digests, validation succeeds exactly when the
    transactions' digests are pairwise different and are precisely the non-zero
    digests of the tick data, and every signature verifies; it then returns the
    transactions unchanged. *)
Theorem Validate_exact txs td out :
  Forall (is_array 32) (types.TickData_TransactionDigests td) →
  (∃ d, d ∈ types.TickData_TransactionDigests td ∧ d ≠ zero_array 32) →
  Validate f txs td = Ok out ↔
  out = txs ∧ ∃ ds, Forall2 verified txs ds ∧ NoDup ds ∧
    ∀ d, d ∈ ds ↔ d ∈ types.TickData_TransactionDigests td ∧ d ≠ zero_array 32.
Proof.
  intros Hwf (d0 & Hd0 & Hnz). unfold Validate. rewrite bool_decide_false.
  2:{ intros Hs%size_empty_inv. assert (hex_EncodeToString d0 ∈ createTxDigestsMap td)
        by (apply elem_of_digests_map; eauto). set_solver. }
  rewrite wrap_Ok, validateTransactions_iff. pose proof (hex_digests_iff txs td) as Hiff.
  split; intros [-> (ds & Hds & H)]; (split; [done|]); exists ds; (split; [done|]);
    by apply (Hiff ds Hwf Hds).
Qed.
End Validation.

(** ** The transfer index *)

(** The transfers of an identity, in order: a transaction to it, then one from
    it; a transfer to oneself is listed twice. *)
Definition transfers_of (id : string) (txs : list pb.Transaction) : list pb.Transaction :=
  concat ((λ tx, (if bool_decide (pb.Transaction_DestId tx = id) then [tx] else []) ++
                 (if bool_decide (pb.Transaction_SourceId tx = id) then [tx] else [])) <$> txs).

Lemma transfers_of_snoc id txs tx :
  transfers_of id (txs ++ [tx]) = transfers_of id txs ++
    (if bool_decide (pb.Transaction_DestId tx = id) then [tx] else []) ++
    (if bool_decide (pb.Transaction_SourceId tx = id) then [tx] else []).
Proof. unfold transfers_of. rewrite fmap_app, concat_app. csimpl. by rewrite app_nil_r. Qed.

Lemma lookup_append_tx k tx m id :
  append_tx k tx m !! id =
  if decide (k = id) then Some (default [] (m !! id) ++ [tx]) else m !! id.
Proof.
  unfold append_tx. case_decide as E; [|by apply lookup_insert_ne].
  subst. by rewrite lookup_insert_eq.
Qed.

Lemma lookup_ensure_id k m id :
  ensure_id k m !! id = if decide (k = id) then Some (default [] (m !! id)) else m !! id.
Proof.
  unfold ensure_id. case_decide as E.
  - subst. destruct (m !! id) eqn:Em; simpl; [done|by rewrite lookup_insert_eq].
  - destruct (m !! k); [done|]. by apply lookup_insert_ne.
Qed.

Lemma transfer_map_lookup txs m id :
  createTransferTransactionsIdentityMap txs = Ok m →
  m !! id = if decide (transfers_of id txs = []) then None else Some (transfers_of id txs).
Proof.
  intros [= <-]. induction txs as [|tx txs IH] using rev_ind; [done|].
  rewrite foldl_app. cbn [foldl]. rewrite transfers_of_snoc, !lookup_append_tx, !lookup_ensure_id.
  rewrite IH. clear IH. generalize (transfers_of id txs). intros l.
  destruct (decide (pb.Transaction_DestId tx = id)) as [Hd|Hd],
    (decide (pb.Transaction_SourceId tx = id)) as [Hs|Hs];
    repeat first [rewrite (bool_decide_true (_ = id)) by done
                 |rewrite (bool_decide_false (_ = id)) by done
                 |rewrite (decide_True (P := _ = id)) by done
                 |rewrite (decide_False (P := _ = id)) by done].
  all: destruct l; simpl; rewrite ?app_nil_r, <-?app_assoc; done.
Qed.

Section Storing.
Context {P : Pebble} {PL : PebbleLaws P} {PR : Protobuf} {PRL : ProtobufLaws PR}.
Context {R : GoRuntime} {RL : GoRuntimeLaws R} {N : NodeConnector}.

(** What a transaction is stored as. *)
Record converted (tx : types.Transaction) (ptx : pb.Transaction) : Prop := {
  converted_id : ∃ d, Transaction_Digest tx = Ok d ∧
    Identity_FromPubKey d true = Ok (pb.Transaction_TxId ptx);
  converted_source : Identity_FromPubKey (types.Transaction_SourcePublicKey tx) false =
    Ok (pb.Transaction_SourceId ptx);
  converted_dest : Identity_FromPubKey (types.Transaction_DestinationPublicKey tx) false =
    Ok (pb.Transaction_DestId ptx);
  converted_amount : pb.Transaction_Amount ptx = types.Transaction_Amount tx;
  converted_tick : pb.Transaction_TickNumber ptx = types.Transaction_Tick tx;
  converted_input :
    (pb.Transaction_InputType ptx, pb.Transaction_InputSize ptx, pb.Transaction_InputHex ptx) =
    (types.Transaction_InputType tx, types.Transaction_InputSize tx,
     hex_EncodeToString (types.Transaction_Input tx));
  converted_signature :
    pb.Transaction_SignatureHex ptx = hex_EncodeToString (types.Transaction_Signature tx)
}.

Lemma txToProto_converted tx ptx : txToProto tx = Ok ptx ↔ converted tx ptx.
Proof.
  unfold txToProto. split.
  - intros H. inv_ok. subst. split; simpl; eauto.
  - intros [(d & -> & Hid) -> -> Ha Ht Hi Hs]. simpl. rewrite Hid. simpl.
    destruct ptx; simpl in *. naive_solver.
Qed.

(** What is indexed of a tick's transactions: those that move an amount that is not
    zero. *)
Definition tick_transfers (txs : list types.Transaction) (ptxs : list pb.Transaction) : Prop :=
  Forall2 converted (filter (λ tx, types.Transaction_Amount tx ≠ 0) txs) ptxs.

(** The code's loop keeps just these. *)
Lemma tick_transfers_kept txs ptxs :
  removeNonTransferTransactionsAndConvert txs = Ok ptxs ↔ tick_transfers txs ptxs.
Proof.
  unfold tick_transfers, removeNonTransferTransactionsAndConvert.
  set (step := λ (acc : list pb.Transaction) tx, _).
  assert (Hstep : ∀ acc tx, step acc tx = if bool_decide (types.Transaction_Amount tx = 0) then Ok acc
    else protoTx ← wrap "converting to proto" (txToProto tx); Ok (acc ++ [protoTx])) by done.
  clearbody step.
  assert (Hloop : ∀ acc out, foldO step acc txs = Ok out ↔ ∃ l, out = acc ++ l ∧
    Forall2 converted (filter (λ tx, types.Transaction_Amount tx ≠ 0) txs) l).
  { induction txs as [|tx txs IH]; intros acc out; cbn [foldO].
    { split; [intros [= <-]; exists []; by rewrite app_nil_r|].
      intros (l & -> & Hl%Forall2_nil_inv_l). by rewrite Hl, app_nil_r. }
    rewrite Hstep. destruct (bool_decide_reflect (types.Transaction_Amount tx = 0)) as [Hz|Hz].
    - rewrite filter_cons_False by (intros ?; done). ok_step. apply IH.
    - rewrite filter_cons_True by done. split.
      + intros (acc' & (ptx & Hc%wrap_Ok%txToProto_converted & [= <-])%bind_Ok & E)%bind_Ok.
        apply IH in E as (l & -> & Hl). exists (ptx :: l). rewrite <-app_assoc. by split; [|constructor].
      + intros (l & -> & (ptx & l' & Hc%txToProto_converted & Hl & ->)%Forall2_cons_inv_l).
        rewrite Hc. ok_step. apply IH. exists l'. by rewrite <-app_assoc. }
  rewrite Hloop. naive_solver.
Qed.

(** The message stored for an identity at a tick. *)
Definition transfers_msg (n : Z) (id : string) (txs : list pb.Transaction) :
    pb.TransferTransactionsPerTick := pb.MkTransferTransactionsPerTick n id txs.

Lemma runs_put_transfers m n id txs : proto_valid (transfers_msg n id txs) →
  ∃ b, Unmarshal b = Ok (transfers_msg n id txs) ∧
    runs m (PutTransferTransactionsPerTick id n (transfers_msg n id txs)) (Ok tt)
      (<[identityTransferTransactionsPerTickKey id n := b]> m).
Proof.
  intros Hv. destruct (Marshal_valid _ Hv) as [b Hb]. exists b. split.
  - by rewrite (Unmarshal_Marshal _ b Hv Hb), TransferTransactionsPerTick_norm.
  - by apply runs_set_message.
Qed.

Lemma runs_put_all m n l : is_uint32 n → NoDup l.*1 →
  (∀ id txs, (id, txs) ∈ l → proto_valid (transfers_msg n id txs)) →
  ∃ m', runs m (forM_ l (λ '(id, txs), mwrap "storing transfer transactions"
      (PutTransferTransactionsPerTick id n (pb.MkTransferTransactionsPerTick n id txs))))
      (Ok tt) m' ∧
    (∀ id txs, (id, txs) ∈ l →
       stored m' (identityTransferTransactionsPerTickKey id n) (transfers_msg n id txs)) ∧
    (∀ k, (∀ id, id ∈ l.*1 → k ≠ identityTransferTransactionsPerTickKey id n) →
       m' !! k = m !! k).
Proof.
  intros Hn. unfold forM_. revert m. induction l as [|[id txs] l IH]; intros m Hnd Hv.
  - exists m. split; [apply runs_ret|]. split; [set_solver|done].
  - rewrite fmap_cons in Hnd. apply NoDup_cons in Hnd as [Hid Hnd]. simpl in Hid.
    destruct (runs_put_transfers m n id txs) as (b & Hu & Hrun); [apply Hv; by left|].
    destruct (IH (<[identityTransferTransactionsPerTickKey id n := b]> m)) as (m' & Hall & Hst & Hoth);
      [done|intros; apply Hv; by right|].
    exists m'. split; [|split].
    + cbn [foldM]. eapply runs_bind; [by apply runs_wrap_ok, Hrun|exact Hall].
    + intros id' txs' [[= -> ->]|Hin]%elem_of_cons; [|by apply Hst].
      exists b. split; [|done]. rewrite Hoth; [apply lookup_insert_eq|].
      intros id' Hid' [-> _]%identity_key_inj; done.
    + intros k Hk. rewrite Hoth by (intros; apply Hk; rewrite fmap_cons; by right).
      apply lookup_insert_ne. intros E. symmetry in E. revert E. apply Hk. rewrite fmap_cons. by left.
Qed.

(** C23: After the transfers of a tick are stored, which are the transactions with an
    amount that is not zero, converted field by field, the key of an identity and
    the tick holds exactly that identity's transfers, those to it and those from it in
    the order of the tick, for every identity that has any; no other key changed,
    whatever the order in which the map of identities was visited. *)
Theorem storeTransferTransactions_index m n txs ptxs :
  is_uint32 n → tick_transfers txs ptxs →
  (∀ id, transfers_of id ptxs ≠ [] → proto_valid (transfers_msg n id (transfers_of id ptxs))) →
  ∃ m', runs m (storeTransferTransactions n txs) (Ok tt) m' ∧
    (∀ id, transfers_of id ptxs ≠ [] →
       stored m' (identityTransferTransactionsPerTickKey id n)
         (transfers_msg n id (transfers_of id ptxs))) ∧
    (∀ k, (∀ id, transfers_of id ptxs ≠ [] → k ≠ identityTransferTransactionsPerTickKey id n) →
       m' !! k = m !! k).
Proof.
  intros Hn Hconv%tick_transfers_kept Hval.
  destruct (createTransferTransactionsIdentityMap ptxs) as [tm| |] eqn:Etm; [|done..].
  assert (Hin : ∀ id l, (id, l) ∈ map_range (map_to_list tm) ↔
                        transfers_of id ptxs ≠ [] ∧ l = transfers_of id ptxs).
  { intros id l. rewrite map_range_perm, elem_of_map_to_list, (transfer_map_lookup _ _ _ Etm).
    case_decide; naive_solver. }
  assert (Hfst : ∀ id, id ∈ (map_range (map_to_list tm)).*1 ↔ transfers_of id ptxs ≠ []).
  { intros id. rewrite list_elem_of_fmap. split.
    - intros ([id' l] & -> & [? _]%Hin). done.
    - intros Hne. exists (id, transfers_of id ptxs). split; [done|]. by apply Hin. }
  destruct (runs_put_all m n (map_range (map_to_list tm))) as (m' & Hrun & Hst & Hoth); [done| | |].
  - rewrite map_range_perm. apply NoDup_fst_map_to_list.
  - intros id l [Hne ->]%Hin. by apply Hval.
  - exists m'. split; [|split].
    + unfold storeTransferTransactions. runs_step (rewrite Hconv; apply runs_lift).
      runs_step (rewrite Etm; apply runs_lift). exact Hrun.
    + intros id Hne. apply Hst, Hin. done.
    + intros k Hk. apply Hoth. intros id Hid. by apply Hk, Hfst.
Qed.
End Storing.
