(* ===== verification/TxStatus.v ===== *)
(** * validator/txstatus: did a transaction's money move

    The node's bit vector over its list of digests, turned into a status per
    known transaction.  [getTickTxDigests], [equalDigests] and their helpers
    are not called by [Validate] any more. *)

From stdpp Require Import sorting base strings numbers pretty gmap list.
From S2P Require Import Prelude GoLib Types Platform Keys Store.

Local Open Scope Z_scope.

Section TxStatus.
Context {P : Pebble} {PR : Protobuf} {N : NodeConnector}.

(** ** models.go *)
Definition createTxsIdMap_step (txsIdMap : gset string) (tx : types.Transaction) :
    outcome (gset string) :=
  _ ← wrap "creating tx digest for tx" (Transaction_Digest tx);
  id ← wrap "converting tx with digest to id" (Transaction_ID tx);
  Ok ({[id]} ∪ txsIdMap).

Definition createTxsIdMap (txs : list types.Transaction) : outcome (gset string) :=
  foldO createTxsIdMap_step ∅ txs.

Definition getNthBit (input bitIndex : Z) : bool :=
  let shifted := Z.shiftr input bitIndex in
  bool_decide (Z.land shifted 1 = 1).

Definition getMoneyFlewFromBits (input : bytes) (digestIndex : Z) : outcome bool :=
  let pos := digestIndex / 8 in
  let bitIndex := digestIndex mod 8 in
  byte ← index input pos;
  Ok (getNthBit byte bitIndex).

Definition qubicToProto_step (txsIdMap : gset string) (moneyFlew : bytes)
    (tickTransactions : list pb.TransactionStatus) (entry : nat * bytes) :
    outcome (list pb.TransactionStatus) :=
  let '(index, txDigest) := entry in
  id ← wrap "converting digest to id" (Identity_FromPubKey txDigest true);
  if negb (bool_decide (id ∈ txsIdMap)) then Ok tickTransactions
  else
    moneyFlew ← getMoneyFlewFromBits moneyFlew (Z.of_nat index);
    Ok (tickTransactions ++ [pb.MkTransactionStatus id moneyFlew]).

Definition qubicToProto (txs : list types.Transaction) (model : types.TransactionStatus) :
    outcome pb.TickTransactionsStatus :=
  txsIdMap ← wrap "error creating txs id map" (createTxsIdMap txs);
  tickTransactions ←
    foldO (qubicToProto_step txsIdMap (types.TransactionStatus_MoneyFlew model)) []
      (imap pair (types.TransactionStatus_TransactionDigests model));
  Ok (pb.MkTickTransactionsStatus tickTransactions).

(** ** validator.go *)
Definition Validate (tickTxStatus : types.TransactionStatus) (tickTxs : list types.Transaction) :
    outcome pb.TickTransactionsStatus :=
  wrap "qubic to proto" (qubicToProto tickTxs tickTxStatus).

Definition getTickTxDigests (tickTxs : list types.Transaction) : outcome (list bytes) :=
  foldO (λ tickTxDigests tx,
    digest ← wrap "creating digest for tx on index" (Transaction_Digest tx);
    Ok (tickTxDigests ++ [digest])) [] tickTxs.

(** A fresh slice with the same elements. *)
Definition copySlice (slice : list bytes) : list bytes :=
  copy_into (replicate (length slice) (zero_array 32)) slice.

Definition sortByteSlices (slice : list bytes) : list bytes := sort_bytes slice.

(** The element-by-element comparison: the second slice being shorter is a
    run-time panic, its being longer goes unnoticed. *)
Fixpoint equalDigests_loop (a b : list bytes) : outcome bool :=
  match a, b with
  | [], _ => Ok true
  | x :: a, y :: b => if bool_decide (x = y) then equalDigests_loop a b else Ok false
  | _ :: _, [] => Panic
  end.

Definition equalDigests (tickTxsDigests tickTxStatusDigests : list bytes) : outcome bool :=
  let copyTxsDigests := sortByteSlices (copySlice tickTxsDigests) in
  let copyTxStatusDigests := sortByteSlices (copySlice tickTxStatusDigests) in
  equalDigests_loop copyTxsDigests copyTxStatusDigests.

Definition Store (tickNumber : Z) (approvedTxs : pb.TickTransactionsStatus) : M DB unit :=
  mwrap "setting tts" (SetTickTransactionsStatus (uint64 tickNumber) approvedTxs).
End TxStatus.
