(* ===== verification/TxStatusProofs.v ===== *)
(** * validator/txstatus: theorems

    The money-flew bits are read as the bits of one little-endian number; the
    statuses are those of the validated transactions, in the node's order; the
    two digest lists are compared as multisets. *)

From stdpp Require Import sorting base strings numbers pretty gmap list.
From S2P Require Import Prelude GoLib Types Platform Keys Store.
From S2P Require Import TxStatus.

Local Open Scope Z_scope.

(** ** The bit vector *)
Lemma getNthBit_testbit x n : 0 ≤ n → getNthBit x n = Z.testbit x n.
Proof.
  intros Hn. unfold getNthBit. rewrite Z.testbit_odd, <-Z.bit0_odd.
  destruct (Z.testbit (Z.shiftr x n) 0) eqn:E.
  - apply bool_decide_eq_true. apply Z.bits_inj_iff'. intros i Hi. rewrite Z.land_spec.
    destruct (decide (i = 0)) as [->|]; [by rewrite E|].
    by rewrite (Z.bits_above_log2 1 i), andb_false_r by (simpl; lia).
  - apply bool_decide_eq_false. intros H. apply (f_equal (λ y, Z.testbit y 0)) in H.
    rewrite Z.land_spec, E in H. done.
Qed.

Lemma byte_testbit x y n : 0 ≤ x < 256 → 0 ≤ n →
  Z.testbit (x + 256 * y) n = if decide (n < 8) then Z.testbit x n else Z.testbit y (n - 8).
Proof.
  intros Hx Hn. destruct (decide (n < 8)).
  - rewrite <-(Z.mod_pow2_bits_low (x + 256 * y) 8 n) by lia. f_equal.
    change (2 ^ 8) with 256. rewrite Z.mul_comm, Z.mod_add, Z.mod_small; lia.
  - replace n with (n - 8 + 8) at 1 by lia. rewrite <-Z.div_pow2_bits by lia. f_equal.
    change (2 ^ 8) with 256. rewrite Z.mul_comm, Z.div_add, Z.div_small; lia.
Qed.

Lemma le_value_testbit b i n : wf_bytes b → (i < length b)%nat → 0 ≤ n < 8 →
  Z.testbit (le_value b) (8 * Z.of_nat i + n) = Z.testbit (default 0 (b !! i)) n.
Proof.
  intros Hb. revert i. induction Hb as [|x b Hx Hb IH]; intros i Hi Hn; [simpl in Hi; lia|].
  cbn [le_value]. rewrite byte_testbit by lia. destruct i as [|i]; simpl default.
  - rewrite decide_True by lia. by replace (8 * Z.of_nat 0 + n) with n by lia.
  - rewrite decide_False by lia.
    replace (8 * Z.of_nat (S i) + n - 8) with (8 * Z.of_nat i + n) by lia.
    apply IH; [simpl in Hi; lia|done].
Qed.

Lemma getMoneyFlewFromBits_eq input i : wf_bytes input → 0 ≤ i →
  getMoneyFlewFromBits input i =
  if decide (i < 8 * Z.of_nat (length input)) then Ok (Z.testbit (le_value input) i) else Panic.
Proof.
  intros Hin Hi. unfold getMoneyFlewFromBits.
  pose proof (Z.div_mod i 8 ltac:(lia)) as Hdm. pose proof (Z.mod_pos_bound i 8 ltac:(lia)) as Hmod.
  assert (Hpos : 0 ≤ i / 8) by (apply Z.div_pos; lia).
  destruct (decide (i < 8 * Z.of_nat (length input))) as [Hlt|Hge].
  - destruct (index_in_range input (i / 8)) as [x Hx]; [lia|]. rewrite Hx. ok_step. f_equal.
    apply index_Ok in Hx as [_ Hx]. rewrite getNthBit_testbit by lia.
    rewrite Hdm at 2. rewrite <-(Z2Nat.id (i / 8)) at 1 by done.
    rewrite le_value_testbit; [by rewrite Hx|done|lia|done].
  - unfold index. rewrite bool_decide_true by done.
    by rewrite (lookup_ge_None_2 input) by lia.
Qed.

(** The money-flew flag of the [i]-th transaction of a tick is bit [i] of the
    node's bit vector read as a little-endian number; an index past the vector
    is a run-time panic. *)
Theorem getMoneyFlewFromBits_exact input i : wf_bytes input → 0 ≤ i →
  getMoneyFlewFromBits input i =
  if decide (i < 8 * Z.of_nat (length input)) then Ok (Z.testbit (le_value input) i) else Panic.
Proof. apply getMoneyFlewFromBits_eq. Qed.

Section TxStatusProofs.
Context {P : Pebble} {PR : Protobuf} {N : NodeConnector} {NL : NodeConnectorLaws N}.

(** ** The statuses *)

(** The identifier of a digest. *)
Definition id_of (digest : bytes) : string :=
  match Identity_FromPubKey digest true with Ok id => id | _ => EmptyString end.

Lemma id_of_Ok d : is_array 32 d → Identity_FromPubKey d true = Ok (id_of d).
Proof. intros Hd. unfold id_of. by destruct (Identity_FromPubKey_total d true Hd) as (id & -> & _). Qed.

(** The identifiers of the validated transactions. *)
Definition has_id (txs : list types.Transaction) (id : string) : Prop :=
  ∃ tx, tx ∈ txs ∧ Transaction_ID tx = Ok id.

(** Digest and identifier of every transaction can be computed. *)
Definition hashable (txs : list types.Transaction) : Prop :=
  ∀ tx, tx ∈ txs → ∃ d id, Transaction_Digest tx = Ok d ∧ Transaction_ID tx = Ok id.

Lemma createTxsIdMap_ids txs : hashable txs →
  ∃ ids, createTxsIdMap txs = Ok ids ∧ ∀ id, id ∈ ids ↔ has_id txs id.
Proof.
  intros H. unfold createTxsIdMap.
  assert (Hgen : ∀ acc, ∃ ids, foldO createTxsIdMap_step acc txs = Ok ids ∧
    ∀ id, id ∈ ids ↔ id ∈ acc ∨ has_id txs id).
  { unfold has_id. induction txs as [|tx txs IH]; intros acc; cbn [foldO].
    { exists acc. split; [done|]. set_solver. }
    destruct (H tx) as (d & i & Hd & Hi); [by left|].
    destruct IH with (acc := {[i]} ∪ acc) as (ids & E & Hids); [intros x Hx; apply H; by right|].
    assert (createTxsIdMap_step acc tx = Ok ({[i]} ∪ acc)) as ->
      by (unfold createTxsIdMap_step; by rewrite Hd, Hi).
    exists ids. split; [done|].
    intros id. rewrite Hids, elem_of_union, elem_of_singleton. setoid_rewrite elem_of_cons. split.
    - intros [[->|?]|(x & ? & ?)]; [right; exists tx; by auto|by left|right; exists x; by auto].
    - intros [?|(x & [->|?] & Hx)]; [by left; right| |by right; exists x].
      left. left. congruence. }
  destruct (Hgen ∅) as (ids & E & Hids). exists ids. split; [done|]. set_solver.
Qed.

(** The status of the [i]-th digest, when its transaction is known. *)
Definition status_at (ids : gset string) (bits : bytes) (entry : nat * bytes) :
    option pb.TransactionStatus :=
  if decide (id_of entry.2 ∈ ids)
  then Some (pb.MkTransactionStatus (id_of entry.2) (Z.testbit (le_value bits) (Z.of_nat entry.1)))
  else None.

Lemma statuses_fold ids bits l acc : wf_bytes bits →
  (∀ i d, (i, d) ∈ l → is_array 32 d ∧ Z.of_nat i < 8 * Z.of_nat (length bits)) →
  foldO (qubicToProto_step ids bits) acc l = Ok (acc ++ omap (status_at ids bits) l).
Proof.
  intros Hb. revert acc. induction l as [|[i d] l IH]; intros acc Hl.
  { simpl. by rewrite app_nil_r. }
  cbn [foldO omap list_omap]. destruct (Hl i d) as [Hd Hi]; [by left|].
  unfold status_at at 1. cbn [fst snd].
  set (s := pb.MkTransactionStatus (id_of d) (Z.testbit (le_value bits) (Z.of_nat i))).
  assert (qubicToProto_step ids bits acc (i, d) =
          Ok (if decide (id_of d ∈ ids) then acc ++ [s] else acc)) as ->.
  { unfold qubicToProto_step. rewrite (id_of_Ok d Hd). ok_step.
    case_bool_decide; simpl; [|by rewrite decide_False].
    by rewrite getMoneyFlewFromBits_eq, !decide_True by (done || lia). }
  ok_step. rewrite IH by (intros; apply Hl; by right).
  destruct (decide _); [|done]. by rewrite <-app_assoc.
Qed.

(** C37: For transactions whose identifiers can be computed, and a bit vector that
    covers the node's list of digests, validation returns one status per digest
    of a validated transaction, in the order of the digests, each with its bit. *)
Theorem TxStatus_Validate_exact model txs :
  hashable txs → wf_bytes (types.TransactionStatus_MoneyFlew model) →
  Forall (is_array 32) (types.TransactionStatus_TransactionDigests model) →
  (length (types.TransactionStatus_TransactionDigests model) ≤
   8 * length (types.TransactionStatus_MoneyFlew model))%nat →
  ∃ ids, (∀ id, id ∈ ids ↔ has_id txs id) ∧
    Validate model txs = Ok (pb.MkTickTransactionsStatus
      (omap (status_at ids (types.TransactionStatus_MoneyFlew model))
            (imap pair (types.TransactionStatus_TransactionDigests model)))).
Proof.
  intros Hh Hb Hd Hlen. destruct (createTxsIdMap_ids txs Hh) as (ids & E & Hids).
  exists ids. split; [done|]. unfold Validate, qubicToProto. rewrite E. ok_step.
  rewrite statuses_fold; [done|done|].
  intros i d Hid. apply list_elem_of_lookup in Hid as [j Hj].
  rewrite list_lookup_imap in Hj. apply fmap_Some in Hj as (d' & Hd' & [= -> ->]).
  rewrite Forall_lookup in Hd. split; [by eapply Hd|]. apply lookup_lt_Some in Hd'. lia.
Qed.

(** ** Comparing digests *)
Lemma copySlice_id l : copySlice l = l.
Proof. unfold copySlice. apply copy_into_full. by rewrite length_replicate. Qed.

Lemma equalDigests_loop_same a b : length a = length b →
  equalDigests_loop a b = Ok (bool_decide (a = b)).
Proof.
  revert b. induction a as [|x a IH]; intros [|y b] Hlen; try done.
  simpl. injection Hlen as Hlen. case_bool_decide as Hxy.
  - rewrite IH by done. f_equal. apply bool_decide_ext. naive_solver.
  - rewrite bool_decide_false; [done|naive_solver].
Qed.

(** On lists of one length, [equalDigests] decides whether they hold the same
    digests the same number of times. *)
Theorem equalDigests_exact a b : length a = length b →
  ∃ r, equalDigests a b = Ok r ∧ (r = true ↔ a ≡ₚ b).
Proof.
  intros Hlen. unfold equalDigests, sortByteSlices. rewrite !copySlice_id.
  rewrite equalDigests_loop_same.
  - eexists. split; [done|]. rewrite bool_decide_eq_true. split.
    + intros H. by rewrite <-(sort_bytes_perm a), <-(sort_bytes_perm b), H.
    + apply sort_bytes_unique.
  - by rewrite !(Permutation_length (sort_bytes_perm _)).
Qed.
End TxStatusProofs.
