(* ===== verification/Chain.v ===== *)
(** * validator/chain: the digest chains

    Each tick's chain digest covers the vote and the digest of the tick before
    it; the store digest covers the stored transactions and statuses. *)

From stdpp Require Import sorting base strings numbers pretty gmap list.
From S2P Require Import Prelude GoLib Types Platform Keys Store Utils.

Local Open Scope Z_scope.

(** ** models.go *)
Record Chain := MkChain {
  Chain_Epoch : Z;
  Chain_Tick : Z;
  Chain_Millisecond : Z;
  Chain_Second : Z;
  Chain_Minute : Z;
  Chain_Hour : Z;
  Chain_Day : Z;
  Chain_Month : Z;
  Chain_Year : Z;
  Chain_PreviousResourceTestingDigest : Z;
  Chain_PreviousTransactionBodyDigest : Z;
  Chain_PreviousSpectrumDigest : bytes;
  Chain_PreviousUniverseDigest : bytes;
  Chain_PreviousComputerDigest : bytes;
  Chain_TxDigest : bytes;
  Chain_PreviousTickChainDigest : bytes
}.

#[export] Instance Chain_eq_dec : EqDecision Chain.
Proof. solve_decision. Defined.

(** [binary.Write] of the structure; the blank padding field is written as
    zero. *)
Definition Chain_write (c : Chain) : bytes :=
  le_bytes 2 0 ++ le_bytes 2 (Chain_Epoch c) ++ le_bytes 4 (Chain_Tick c) ++
  le_bytes 2 (Chain_Millisecond c) ++ le_bytes 1 (Chain_Second c) ++
  le_bytes 1 (Chain_Minute c) ++ le_bytes 1 (Chain_Hour c) ++ le_bytes 1 (Chain_Day c) ++
  le_bytes 1 (Chain_Month c) ++ le_bytes 1 (Chain_Year c) ++
  le_bytes 4 (Chain_PreviousResourceTestingDigest c) ++
  le_bytes 4 (Chain_PreviousTransactionBodyDigest c) ++
  Chain_PreviousSpectrumDigest c ++ Chain_PreviousUniverseDigest c ++
  Chain_PreviousComputerDigest c ++ Chain_TxDigest c ++ Chain_PreviousTickChainDigest c.

Record Store := MkStore {
  Store_PreviousTickStoreDigest : bytes;
  Store_ValidTxs : list types.Transaction;
  Store_TickTxsStatus : pb.TickTransactionsStatus
}.

Section Chain.
Context {P : Pebble} {PR : Protobuf} {R : GoRuntime} {K : K12} {N : NodeConnector}.

Definition Chain_MarshallBinary (c : Chain) : outcome bytes :=
  wrap "serializing vote" (BinarySerialize (Ok (Chain_write c))).

Definition Chain_Digest (c : Chain) : outcome bytes :=
  b ← wrap "serializing vote" (Chain_MarshallBinary c);
  wrap "hashing vote" (K12Hash b).

Definition sortByteSlices (slice : list bytes) : list bytes := sort_bytes slice.

Definition Store_MarshallBinary (s : Store) : outcome bytes :=
  let buff := Store_PreviousTickStoreDigest s in
  digests ← foldO (λ digests tx,
    digest ← wrap "marshalling tx" (Transaction_Digest tx);
    Ok (digests ++ [digest])) [] (Store_ValidTxs s);
  let digests := sortByteSlices digests in
  let buff := foldl (λ buff digest, buff ++ digest) buff digests in
  b ← wrap "marshalling tickTxsStatus" (Marshal (Store_TickTxsStatus s));
  Ok (buff ++ b).

Definition Store_Digest (s : Store) : outcome bytes :=
  b ← wrap "serializing store" (Store_MarshallBinary s);
  wrap "hashing vote" (K12Hash b).

(** ** chain.go *)
Definition chain_of (vote : types.QuorumTickVote) (previousTickChainDigest : bytes) : Chain := {|
  Chain_Epoch := types.QuorumTickVote_Epoch vote;
  Chain_Tick := types.QuorumTickVote_Tick vote;
  Chain_Millisecond := types.QuorumTickVote_Millisecond vote;
  Chain_Second := types.QuorumTickVote_Second vote;
  Chain_Minute := types.QuorumTickVote_Minute vote;
  Chain_Hour := types.QuorumTickVote_Hour vote;
  Chain_Day := types.QuorumTickVote_Day vote;
  Chain_Month := types.QuorumTickVote_Month vote;
  Chain_Year := types.QuorumTickVote_Year vote;
  Chain_PreviousResourceTestingDigest :=
    types.QuorumTickVote_PreviousResourceTestingDigest vote;
  Chain_PreviousTransactionBodyDigest :=
    types.QuorumTickVote_PreviousTransactionBodyDigest vote;
  Chain_PreviousSpectrumDigest := types.QuorumTickVote_PreviousSpectrumDigest vote;
  Chain_PreviousUniverseDigest := types.QuorumTickVote_PreviousUniverseDigest vote;
  Chain_PreviousComputerDigest := types.QuorumTickVote_PreviousComputerDigest vote;
  Chain_TxDigest := types.QuorumTickVote_TxDigest vote;
  Chain_PreviousTickChainDigest := previousTickChainDigest
|}.

Definition computeCurrentTickDigest (vote : types.QuorumTickVote)
    (previousTickChainDigest : bytes) : outcome bytes :=
  wrap "computing chain digest" (Chain_Digest (chain_of vote previousTickChainDigest)).

Definition computeCurrentTickStoreDigest (validTxs : list types.Transaction)
    (tickTxsStatus : pb.TickTransactionsStatus) (previousTickChainDigest : bytes) :
    outcome bytes :=
  wrap "computing store digest"
    (Store_Digest (MkStore previousTickChainDigest validTxs tickTxsStatus)).

(** The stored digest copied into an array. *)
Definition getPrevChainDigest (initialEpochTick tickNumber : Z) : M DB bytes :=
  if bool_decide (tickNumber = initialEpochTick) then mret (zero_array 32)
  else
    previousTickChainDigestStored ← mwrap "getting chain digest for last tick"
      (GetChainDigest (uint32 (tickNumber - 1)));
    mret (copy_into (zero_array 32) previousTickChainDigestStored).

(** A missing or unreadable previous store digest counts as the zero one. *)
Definition getPrevStoreDigest (initialEpochTick tickNumber : Z) : M DB bytes :=
  if bool_decide (tickNumber = initialEpochTick) then mret (zero_array 32)
  else
    r ← mattempt (GetStoreDigest (uint32 (tickNumber - 1)));
    match r with
    | inr _ => mret (zero_array 32)
    | inl previousTickStoreDigestStored =>
        mret (copy_into (zero_array 32) previousTickStoreDigestStored)
    end.

Definition ComputeAndSave (initialEpochTick tickNumber : Z)
    (quorumVote : types.QuorumTickVote) : M DB unit :=
  prevDigest ← mwrap "getting prev chain digest" (getPrevChainDigest initialEpochTick tickNumber);
  currentDigest ← lift (wrap "computing current tick digest"
    (computeCurrentTickDigest quorumVote prevDigest));
  mwrap "storing chain digest for tick" (PutChainDigest tickNumber currentDigest).

Definition ComputeStoreAndSave (initialEpochTick tickNumber : Z)
    (validTxs : list types.Transaction) (tickTxsStatus : pb.TickTransactionsStatus) :
    M DB unit :=
  if bool_decide (tickNumber < 13752150) then mret tt
  else
    prevDigest ← mwrap "getting prev chain digest"
      (getPrevStoreDigest initialEpochTick tickNumber);
    currentDigest ← lift (wrap "computing current tick digest"
      (computeCurrentTickStoreDigest validTxs tickTxsStatus prevDigest));
    mwrap "storing store digest for tick" (PutStoreDigest tickNumber currentDigest).
End Chain.
