(* ===== verification/ChainProofs.v ===== *)
(** * validator/chain: theorems

    The chain digest of a tick determines every vote before it: two archives
    that agree on one chain digest agree on the whole history from the epoch's
    first tick, or two of the hashed structures collide.  The store digest does
    not depend on the order of the transactions. *)

From stdpp Require Import sorting base strings numbers pretty gmap list.
From S2P Require Import Prelude GoLib Types Platform Keys Store StoreLogic Utils.
From S2P Require Import Chain.

Local Open Scope Z_scope.

(** ** The hashed structure *)

(** The fields fit their types. *)
Record Chain_wf (c : Chain) : Prop := {
  wf_Epoch : fits 2 (Chain_Epoch c);
  wf_Tick : fits 4 (Chain_Tick c);
  wf_Millisecond : fits 2 (Chain_Millisecond c);
  wf_Second : fits 1 (Chain_Second c);
  wf_Minute : fits 1 (Chain_Minute c);
  wf_Hour : fits 1 (Chain_Hour c);
  wf_Day : fits 1 (Chain_Day c);
  wf_Month : fits 1 (Chain_Month c);
  wf_Year : fits 1 (Chain_Year c);
  wf_ResourceTesting : fits 4 (Chain_PreviousResourceTestingDigest c);
  wf_TransactionBody : fits 4 (Chain_PreviousTransactionBodyDigest c);
  wf_Spectrum : is_array 32 (Chain_PreviousSpectrumDigest c);
  wf_Universe : is_array 32 (Chain_PreviousUniverseDigest c);
  wf_Computer : is_array 32 (Chain_PreviousComputerDigest c);
  wf_TxDigest : is_array 32 (Chain_TxDigest c);
  wf_PreviousChain : is_array 32 (Chain_PreviousTickChainDigest c)
}.

Lemma Chain_write_inj c d : Chain_wf c → Chain_wf d → Chain_write c = Chain_write d → c = d.
Proof.
  intros Wc Wd E. unfold Chain_write in E. apply app_inv_head in E. destruct Wc, Wd.
  do 15 field_inj E. destruct c, d. simpl in *. by subst.
Qed.

Section ChainProofs.
Context {P : Pebble} {PL : PebbleLaws P} {PR : Protobuf} {PRL : ProtobufLaws PR}.
Context {R : GoRuntime} {K : K12} {KL : K12Laws K} {N : NodeConnector}.
Implicit Types m : gmap bytes bytes.
Implicit Types v w : types.QuorumTickVote.

(** The digest of a vote chained to the digest before it. *)
Definition link (prev : bytes) v : bytes := hash_of (Chain_write (chain_of v prev)).

Lemma computeCurrentTickDigest_link v prev : computeCurrentTickDigest v prev = Ok (link prev v).
Proof.
  unfold computeCurrentTickDigest, Chain_Digest, Chain_MarshallBinary, BinarySerialize.
  ok_step. by rewrite K12Hash_hash_of.
Qed.

Lemma link_array prev v : is_array 32 (link prev v).
Proof. apply hash_of_array. Qed.

(** The digest after a list of votes, from the zero digest of an epoch's first
    tick. *)
Definition chain_digest (votes : list types.QuorumTickVote) : bytes :=
  foldl link (zero_array 32) votes.

Lemma chain_digest_snoc votes v : chain_digest (votes ++ [v]) = link (chain_digest votes) v.
Proof. unfold chain_digest. by rewrite foldl_app. Qed.

Lemma chain_digest_array votes : is_array 32 (chain_digest votes).
Proof.
  destruct votes as [|v votes] using rev_ind; [apply is_array_zero|].
  rewrite chain_digest_snoc. apply link_array.
Qed.

(** ** What is stored *)
Lemma runs_ComputeAndSave_first m t v :
  runs m (ComputeAndSave t t v) (Ok tt) (<[chainDigestKey t := link (zero_array 32) v]> m).
Proof.
  unfold ComputeAndSave, getPrevChainDigest. rewrite bool_decide_true by done.
  runs_step (runs_wrapped; apply runs_ret).
  rewrite computeCurrentTickDigest_link. runs_step (apply runs_lift).
  runs_wrapped. unfold PutChainDigest. runs_wrapped. apply runs_Set.
Qed.

Lemma runs_ComputeAndSave_next m init t v d : t ≠ init → 0 < t < 2 ^ 32 → is_array 32 d →
  m !! chainDigestKey (t - 1) = Some d →
  runs m (ComputeAndSave init t v) (Ok tt) (<[chainDigestKey t := link d v]> m).
Proof.
  intros Hne Ht [Hd _] Hm. unfold ComputeAndSave, getPrevChainDigest.
  rewrite bool_decide_false by done. rewrite uint32_small by lia.
  runs_step (runs_wrapped; runs_step (runs_wrapped; unfold GetChainDigest;
    eapply runs_map_err; [by apply runs_Get_Some|done]); apply runs_ret).
  rewrite copy_into_full by (by rewrite length_zero_array).
  rewrite computeCurrentTickDigest_link. runs_step (apply runs_lift).
  runs_wrapped. unfold PutChainDigest. runs_wrapped. apply runs_Set.
Qed.

(** The ticks from [t] on, one after the other. *)
Fixpoint save_votes (init t : Z) (votes : list types.QuorumTickVote) : M DB unit :=
  match votes with
  | [] => mret tt
  | v :: votes => _ ← ComputeAndSave init t v; save_votes init (t + 1) votes
  end.

Lemma chainDigestKey_inj t t' : is_uint32 t → is_uint32 t' →
  chainDigestKey t = chainDigestKey t' → t = t'.
Proof. apply append64_uint32_inj. Qed.

(** The digests of the ticks [init], [init + 1], ... are those of [votes]. *)
Definition holds_chain m (init : Z) (votes : list types.QuorumTickVote) : Prop :=
  ∀ i, (i < length votes)%nat →
    m !! chainDigestKey (init + Z.of_nat i) = Some (chain_digest (take (S i) votes)).

Lemma holds_chain_snoc m init votes v : 0 < init →
  init + Z.of_nat (length votes) < 2 ^ 32 → holds_chain m init votes →
  holds_chain (<[chainDigestKey (init + Z.of_nat (length votes)) := chain_digest (votes ++ [v])]> m)
    init (votes ++ [v]).
Proof.
  intros Hi Hlen Hm i Hlt. rewrite length_app in Hlt. simpl in Hlt.
  destruct (decide (i = length votes)) as [->|Hne].
  - rewrite lookup_insert_eq. rewrite take_ge; [done|]. rewrite length_app. simpl. lia.
  - rewrite lookup_insert_ne.
    + rewrite take_app_le by lia. apply Hm. lia.
    + intros Heq%chainDigestKey_inj; unfold is_uint32; lia.
Qed.

Lemma runs_save_votes m init pre votes : 0 < init →
  init + Z.of_nat (length pre + length votes) ≤ 2 ^ 32 → holds_chain m init pre →
  ∃ m', runs m (save_votes init (init + Z.of_nat (length pre)) votes) (Ok tt) m' ∧
        holds_chain m' init (pre ++ votes) ∧
        ∀ k, key_kind k ≠ Some ChainDigest → m' !! k = m !! k.
Proof.
  intros Hi. revert m pre. induction votes as [|v votes IH]; intros m pre Hlen Hm.
  { exists m. rewrite app_nil_r. split; [apply runs_ret|done]. }
  simpl in Hlen. set (t := init + Z.of_nat (length pre)).
  set (m1 := <[chainDigestKey t := chain_digest (pre ++ [v])]> m).
  assert (Hone : runs m (ComputeAndSave init t v) (Ok tt) m1).
  { unfold m1. rewrite chain_digest_snoc. destruct pre as [|w pre] using rev_ind.
    - unfold t. simpl. rewrite Z.add_0_r. apply runs_ComputeAndSave_first.
    - clear IHpre. unfold t. rewrite length_app in *. simpl in *.
      apply runs_ComputeAndSave_next; [lia|lia|apply chain_digest_array|].
      replace (init + Z.of_nat (length pre + 1) - 1) with (init + Z.of_nat (length pre)) by lia.
      rewrite (Hm (length pre)) by (rewrite length_app; simpl; lia).
      by rewrite take_ge by (rewrite length_app; simpl; lia). }
  destruct (IH m1 (pre ++ [v])) as (m' & Hrun & Hm' & Hk).
  - rewrite length_app. simpl. lia.
  - apply holds_chain_snoc; [done| |done]. lia.
  - exists m'. split; [|split].
    + simpl. runs_step (exact Hone).
      replace (t + 1) with (init + Z.of_nat (length (pre ++ [v])))
        by (rewrite length_app; unfold t; simpl; lia). exact Hrun.
    + by rewrite <-app_assoc in Hm'.
    + intros k Hne. rewrite Hk by done. unfold m1. apply lookup_insert_ne.
      intros <-. by apply Hne.
Qed.

(** ** Tamper evidence *)

(** What the chain commits to of a vote. *)
Definition chained v : Chain := chain_of v (zero_array 32).

(** The structure hashed for the [i]-th tick. *)
Definition chain_input (votes : list types.QuorumTickVote) (i : nat) : option bytes :=
  v ← votes !! i; Some (Chain_write (chain_of v (chain_digest (take i votes)))).

Lemma chain_of_wf v prev : Chain_wf (chained v) → is_array 32 prev → Chain_wf (chain_of v prev).
Proof. by intros [] Hp; split. Qed.

Lemma chain_of_chained v w prev prev' : chain_of v prev = chain_of w prev' → chained v = chained w.
Proof. unfold chained, chain_of. by intros [= -> -> -> -> -> -> -> -> -> -> -> -> -> -> -> ->]. Qed.

(** The hashed structures of some tick differ and have the same digest. *)
Definition chains_collide (votes votes' : list types.QuorumTickVote) : Prop :=
  ∃ i x y, chain_input votes i = Some x ∧ chain_input votes' i = Some y ∧ k12_collision x y.

Lemma chains_collide_snoc votes votes' v w : length votes = length votes' →
  chains_collide votes votes' → chains_collide (votes ++ [v]) (votes' ++ [w]).
Proof.
  intros Hlen (i & x & y & Hx & Hy & Hc). exists i, x, y. unfold chain_input in *.
  destruct (votes !! i) as [vi|] eqn:E; [|done]. destruct (votes' !! i) as [wi|] eqn:E'; [|done].
  apply lookup_lt_Some in E as Hi.
  rewrite !lookup_app_l by lia. rewrite E, E', !take_app_le by lia. done.
Qed.

Lemma chain_digest_determines votes votes' : length votes = length votes' →
  Forall (λ v, Chain_wf (chained v)) votes → Forall (λ v, Chain_wf (chained v)) votes' →
  chain_digest votes = chain_digest votes' →
  Forall2 (λ v w, chained v = chained w) votes votes' ∨ chains_collide votes votes'.
Proof.
  revert votes'. induction votes as [|v votes IH] using rev_ind; intros votes' Hlen Hw Hw' Hd.
  { destruct votes'; [|done]. left. constructor. }
  destruct votes' as [|w votes' _] using rev_ind; [rewrite length_app in Hlen; simpl in Hlen; lia|].
  rewrite !length_app in Hlen. simpl in Hlen. assert (Hl : length votes = length votes') by lia.
  rewrite Forall_app, Forall_singleton in Hw, Hw'. destruct Hw as [Hw Hv], Hw' as [Hw' Hv'].
  rewrite !chain_digest_snoc in Hd. unfold link in Hd.
  destruct (K12Hash_eq_cases (Chain_write (chain_of v (chain_digest votes)))
    (Chain_write (chain_of w (chain_digest votes'))) (hash_of (Chain_write (chain_of v (chain_digest votes)))))
    as [Heq|Hc].
  - apply K12Hash_hash_of.
  - rewrite Hd. apply K12Hash_hash_of.
  - apply Chain_write_inj in Heq; [|apply chain_of_wf; [done|apply chain_digest_array]..].
    destruct (IH votes' Hl Hw Hw') as [?|?].
    + by apply (f_equal Chain_PreviousTickChainDigest) in Heq.
    + left. apply Forall2_app; [done|]. constructor; [|constructor]. by eapply chain_of_chained.
    + right. by apply chains_collide_snoc.
  - right. exists (length votes), (Chain_write (chain_of v (chain_digest votes))),
      (Chain_write (chain_of w (chain_digest votes'))). unfold chain_input.
    rewrite !lookup_app_r, Hl, Nat.sub_diag by lia. simpl.
    rewrite take_app_length' by lia. rewrite take_app_length' by lia. done.
Qed.

(** C15: Saving the chain digests of an epoch's ticks commits to all of them: two
    databases that went through the same ticks with votes of which any chained
    field differs anywhere in the history store different digests for the last
    tick, or the structures hashed for one of the ticks collide. *)
Theorem chain_tamper_evident m1 m2 init votes votes' : 0 < init →
  votes ≠ [] → length votes = length votes' → init + Z.of_nat (length votes) ≤ 2 ^ 32 →
  Forall (λ v, Chain_wf (chained v)) votes → Forall (λ v, Chain_wf (chained v)) votes' →
  ∃ m1' m2', runs m1 (save_votes init init votes) (Ok tt) m1' ∧
             runs m2 (save_votes init init votes') (Ok tt) m2' ∧
  let last := chainDigestKey (init + Z.of_nat (length votes) - 1) in
  is_Some (m1' !! last) ∧
  (m1' !! last = m2' !! last →
   Forall2 (λ v w, chained v = chained w) votes votes' ∨ chains_collide votes votes').
Proof.
  intros Hi Hne Hlen Hb Hw Hw'.
  destruct (runs_save_votes m1 init [] votes Hi) as (m1' & H1 & Hc1 & _); [done|by intros ? ?%Nat.nlt_0_r|].
  destruct (runs_save_votes m2 init [] votes' Hi) as (m2' & H2 & Hc2 & _);
    [simpl; lia|by intros ? ?%Nat.nlt_0_r|].
  simpl in H1, H2. rewrite Z.add_0_r in H1, H2. exists m1', m2'. split; [done|]. split; [done|].
  destruct (length votes) as [|n] eqn:En; [by apply length_zero_iff_nil in En|].
  replace (init + Z.of_nat (S n) - 1) with (init + Z.of_nat n) by lia.
  intros last. unfold last. rewrite (Hc1 n), (Hc2 n) by (simpl; lia). simpl ([] ++ _).
  rewrite !take_ge by lia. split; [by eexists|]. intros [= Hd].
  apply chain_digest_determines; try done. congruence.
Qed.

(** ** The store digest *)
Lemma digests_collected txs acc : (∀ tx, tx ∈ txs → ∃ d, Transaction_Digest tx = Ok d) →
  ∃ ds, Forall2 (λ tx d, Transaction_Digest tx = Ok d) txs ds ∧
    foldO (λ digests tx, digest ← wrap "marshalling tx" (Transaction_Digest tx);
                         Ok (digests ++ [digest])) acc txs = Ok (acc ++ ds).
Proof.
  revert acc. induction txs as [|tx txs IH]; intros acc H.
  { exists []. rewrite app_nil_r. split; [constructor|done]. }
  destruct (H tx) as [d Hd]; [by left|].
  destruct (IH (acc ++ [d])) as (ds & Hds & E); [intros; apply H; by right|].
  exists (d :: ds). split; [by constructor|]. cbn [foldO]. rewrite Hd. ok_step.
  by rewrite E, <-app_assoc.
Qed.

Lemma Forall2_Permutation_fun {A B} (f : A → outcome B) l l' k k' : l ≡ₚ l' →
  Forall2 (λ x y, f x = Ok y) l k → Forall2 (λ x y, f x = Ok y) l' k' → k ≡ₚ k'.
Proof.
  intros Hp Hk Hk'.
  assert (Hmap : ∀ l k, Forall2 (λ x y, f x = Ok y) l k →
    k = omap (λ x, match f x with Ok y => Some y | _ => None end) l).
  { induction 1 as [|x y l0 k0 Hxy _ IH]; csimpl; [done|]. by rewrite Hxy, <-IH. }
  rewrite (Hmap _ _ Hk), (Hmap _ _ Hk'). by rewrite Hp.
Qed.

(** C38: The store digest, and what is saved of it, do not depend on the order in
    which the node lists the transactions of the tick. *)
Theorem ComputeStoreAndSave_order init t txs txs' status db :
  (∀ tx, tx ∈ txs → ∃ d, Transaction_Digest tx = Ok d) → txs ≡ₚ txs' →
  ComputeStoreAndSave init t txs status db = ComputeStoreAndSave init t txs' status db.
Proof.
  intros Hd Hp. unfold ComputeStoreAndSave, computeCurrentTickStoreDigest, Store_Digest.
  assert (E : ∀ prev, Store_MarshallBinary (MkStore prev txs status) =
                      Store_MarshallBinary (MkStore prev txs' status)).
  { intros prev. unfold Store_MarshallBinary, sortByteSlices. simpl Store_ValidTxs.
    destruct (digests_collected txs [] Hd) as (ds & Hds & ->).
    destruct (digests_collected txs' []) as (ds' & Hds' & ->).
    { intros tx Htx. apply Hd. by rewrite Hp. }
    ok_step. rewrite (sort_bytes_unique ([] ++ ds) ([] ++ ds')); [done|].
    simpl. by eapply Forall2_Permutation_fun. }
  case_bool_decide; [done|]. unfold mbind, M_bind.
  destruct (mwrap _ _ db) as [[prev|e|] db']; [|done|done]. by rewrite E.
Qed.
End ChainProofs.
