(* ===== verification/Validator.v ===== *)
(** * validator/validator.go: one tick, validated and stored

    [ValidateTick] obtains the computors and the target signature (from the
    store, else from the node), validates quorum, tick data, transactions and
    statuses, and then writes everything.  [check] is the part before the first
    write of tick information, [store_tick] the rest. *)

From stdpp Require Import sorting base strings numbers pretty gmap list.
From S2P Require Import Prelude GoLib Types Platform Keys Store Utils.
From S2P Require Computors Quorum Tick Tx TxStatus Chain.

Local Open Scope Z_scope.

Section Validator.
Context {P : Pebble} {PR : Protobuf} {R : GoRuntime} {K : K12} {N : NodeConnector}.

Definition GoSchnorrqVerify : SigVerifierFunc := schnorrq_Verify.

(** What validation yields for storing. *)
Record checked := MkChecked {
  checked_epoch : Z;
  checked_votes : list types.QuorumTickVote;
  checked_tickData : types.TickData;
  checked_validTxs : list types.Transaction;
  checked_approvedTxs : pb.TickTransactionsStatus
}.

(** [types.TickData{}]: every array zeroed. *)
Definition zero_TickData : types.TickData :=
  types.MkTickData 0 0 0 0 0 0 0 0 0 0 (zero_array 32)
    (replicate NumberOfTransactionsPerTick (zero_array 32))
    (replicate MaxNumberOfContracts 0) (zero_array 64).

Section Pass.
Variables (qu : Client) (arbitratorPubKey : bytes).

Definition get_computors (epoch : Z) : M DB types.Computors :=
  r ← mattempt (Computors.Get epoch);
  match r with
  | inl comps => mret comps
  | inr err =>
      if negb (errors_Is err ErrNotFound)
      then throw (WrapError "getting computors from store" err)
      else lift (wrap "getting computors from qubic" (Client_GetComputors qu))
  end.

Definition get_targetTickVoteSignature (epoch : Z) : M DB Z :=
  r ← mattempt (GetTargetTickVoteSignature epoch);
  match r with
  | inl target => mret target
  | inr err =>
      if negb (errors_Is err ErrNotFound)
      then throw (WrapError "getting target tick vote signature" err)
      else
        systemInfo ← lift (wrap "fetching system info" (Client_GetSystemInfo qu));
        _ ← mwrap "storing target tick vote signature"
          (SetTargetTickVoteSignature (types.SystemInfo_Epoch systemInfo)
             (types.SystemInfo_TargetTickVoteSignature systemInfo));
        mret (types.SystemInfo_TargetTickVoteSignature systemInfo)
  end.

(** The tick data, transactions and statuses of a tick that has data. *)
Definition check_tick (tickNumber : Z) (disableStatusAddon : bool)
    (alignedVotes : list types.QuorumTickVote) (comps : types.Computors) :
    outcome (types.TickData * list types.Transaction * pb.TickTransactionsStatus) :=
  tickData ← wrap "getting tick data" (Client_GetTickData qu tickNumber);
  first ← index alignedVotes 0;
  _ ← wrap "validating tick data" (Tick.Validate GoSchnorrqVerify tickData first comps);
  transactions ← wrap "getting tick transactions" (Client_GetTickTransactions qu tickNumber);
  validTxs ← wrap "validating transactions"
    (Tx.Validate GoSchnorrqVerify transactions tickData);
  tickTxStatus ←
    (if disableStatusAddon
     then Ok (types.MkTransactionStatus tickNumber tickNumber
                (uint32 (Z.of_nat (length validTxs)))
                (zero_array ((NumberOfTransactionsPerTick + 7) / 8)) [])
     else wrap "getting tx status" (Client_GetTxStatus qu tickNumber));
  approvedTxs ← wrap "validating tx status" (TxStatus.Validate tickTxStatus validTxs);
  Ok (tickData, validTxs, approvedTxs).

Definition check (tickNumber : Z) (disableStatusAddon : bool) : M DB checked :=
  quorumVotes ← lift (wrap "getting quorum tick data" (Client_GetQuorumVotes qu tickNumber));
  if bool_decide (length quorumVotes = 0%nat)
  then throw (ErrorString "no quorum votes fetched")
  else
    firstVote ← lift (index quorumVotes 0);
    let epoch := types.QuorumTickVote_Epoch firstVote in
    comps ← get_computors epoch;
    _ ← lift (wrap "validating comps"
      (Computors.Validate GoSchnorrqVerify comps arbitratorPubKey));
    _ ← mwrap "storing computors" (Computors.Store epoch comps);
    targetTickVoteSignature ← get_targetTickVoteSignature epoch;
    alignedVotes ← lift (wrap "validating quorum"
      (Quorum.Validate GoSchnorrqVerify quorumVotes comps targetTickVoteSignature));
    '(tickData, validTxs, approvedTxs) ←
      (if bool_decide (types.QuorumTickVote_TxDigest firstVote ≠ zero_array 32)
       then lift (check_tick tickNumber disableStatusAddon alignedVotes comps)
       else mret (zero_TickData, [], pb.MkTickTransactionsStatus []));
    mret (MkChecked epoch alignedVotes tickData validTxs approvedTxs).
End Pass.

(** The count and the list of the epoch's empty ticks. *)
Definition record_empty_tick (epoch tickNumber : Z) : M DB unit :=
  r ← mattempt (GetEmptyTicksForEpoch epoch);
  emptyTicks ← match r with
    | inl n => mret n
    | inr err =>
        if negb (errors_Is err PebbleErrNotFound)
        then throw (WrapError "getting empty ticks for current epoch" err)
        else mret 0
    end;
  _ ← (if bool_decide (emptyTicks = 0)
       then mwrap "initializing empty tick list for epoch" (SetEmptyTickListPerEpoch epoch [])
       else mret tt);
  let emptyTicks := uint32 (emptyTicks + 1) in
  _ ← mwrap "setting current ticks for current epoch" (SetEmptyTicksForEpoch epoch emptyTicks);
  mwrap "appending tick to empty tick list"
    (AppendEmptyTickToEmptyTickListPerEpoch epoch tickNumber).

Definition store_tick (initialEpochTick tickNumber : Z) (c : checked) : M DB unit :=
  _ ← mwrap "storing quorum votes" (Quorum.Store tickNumber (checked_votes c));
  _ ← mwrap "storing tick data" (Tick.Store tickNumber (checked_tickData c));
  _ ← mwrap "storing transactions" (Tx.Store tickNumber (checked_validTxs c));
  _ ← mwrap "storing tx status" (TxStatus.Store tickNumber (checked_approvedTxs c));
  first ← lift (index (checked_votes c) 0);
  _ ← mwrap "computing and saving chain digest"
    (Chain.ComputeAndSave initialEpochTick tickNumber first);
  _ ← mwrap "computing and saving store digest"
    (Chain.ComputeStoreAndSave initialEpochTick tickNumber (checked_validTxs c)
       (checked_approvedTxs c));
  isEmpty ← lift (wrap "checking if tick is empty" (Tick.CheckIfTickIsEmpty (checked_tickData c)));
  if isEmpty : bool then record_empty_tick (checked_epoch c) tickNumber else mret tt.

Definition ValidateTick (qu : Client) (arbitratorPubKey : bytes)
    (initialEpochTick tickNumber : Z) (disableStatusAddon : bool) : M DB unit :=
  c ← check qu arbitratorPubKey tickNumber disableStatusAddon;
  store_tick initialEpochTick tickNumber c.
End Validator.
