(* ===== verification/EmptyTicksProofs.v ===== *)
(** * Empty ticks: theorems

    The count and the list of an epoch's empty ticks agree: they do after every
    empty tick the validator records, and after the recomputation at start-up,
    which yields exactly the processed ticks stored without data. *)

From stdpp Require Import sorting base strings numbers pretty gmap list.
From S2P Require Import Prelude GoLib Types Platform Keys Store StoreLogic Archive Progress.
From S2P Require Import Frame StoreProofs TickProofs.
From S2P Require Tick Validator.

Local Open Scope Z_scope.

Section EmptyTicks.
Context {P : Pebble} {PL : PebbleLaws P} {PR : Protobuf} {PRL : ProtobufLaws PR}.
Implicit Types m : gmap bytes bytes.

(** The two keys of epoch [e] record the list [L] of empty ticks. *)
Definition records m (e : Z) (L : list Z) : Prop :=
  Forall is_uint32 L ∧
  m !! emptyTicksPerEpochKey e = Some (LittleEndian_PutUint32 (Z.of_nat (length L))) ∧
  m !! emptyTickListPerEpochKey e = Some (encoded_list L).

Lemma runs_GetEmptyTicks m e n : is_uint32 n →
  m !! emptyTicksPerEpochKey e = Some (LittleEndian_PutUint32 n) →
  runs m (GetEmptyTicksForEpoch e) (Ok n) m.
Proof.
  intros Hn Hm. unfold GetEmptyTicksForEpoch.
  runs_step (eapply runs_map_err; [by apply runs_Get_Some|done]).
  rewrite LittleEndian_Uint32_Put by done. apply runs_lift.
Qed.

Lemma runs_GetEmptyTicks_missing m e : m !! emptyTicksPerEpochKey e = None →
  runs m (GetEmptyTicksForEpoch e) (Err PebbleErrNotFound) m.
Proof.
  intros Hm. unfold GetEmptyTicksForEpoch. apply runs_bind_err.
  eapply runs_map_err; [by apply runs_Get_None|done].
Qed.

(** The count and list of epoch [e] before the tick: recorded, or no count. *)
Definition before m (e : Z) (L : list Z) : Prop :=
  records m e L ∨ L = [] ∧ m !! emptyTicksPerEpochKey e = None.

Lemma keys_differ e e' : emptyTicksPerEpochKey e ≠ emptyTickListPerEpochKey e'.
Proof. auto with keys. Qed.

(** C25: Recording an empty tick appends it to the epoch's list and keeps the
    count equal to the list's length; no other epoch and no other data is
    touched. *)
Theorem record_empty_tick_appends m e t L :
  before m e L → is_uint32 t → Z.of_nat (length L) < 2 ^ 32 - 1 →
  ∃ m', runs m (Validator.record_empty_tick e t) (Ok tt) m' ∧ records m' e (L ++ [t]) ∧
        ∀ k, k ≠ emptyTicksPerEpochKey e → k ≠ emptyTickListPerEpochKey e → m' !! k = m !! k.
Proof.
  intros Hbefore Ht Hlen. set (n := Z.of_nat (length L)) in *.
  assert (Hn : is_uint32 n) by (unfold is_uint32; lia).
  assert (HL : Forall is_uint32 L) by (destruct Hbefore as [[? _]|[-> _]]; [done|constructor]).
  set (m1 := if bool_decide (n = 0) then <[emptyTickListPerEpochKey e := encoded_list []]> m else m).
  assert (Hm1 : m1 !! emptyTickListPerEpochKey e = Some (encoded_list L)).
  { unfold m1. case_bool_decide as Hz.
    - rewrite lookup_insert_eq. by destruct L.
    - destruct Hbefore as [(_ & _ & ?)|[-> _]]; [done|]. by destruct Hz. }
  set (m2 := <[emptyTicksPerEpochKey e := LittleEndian_PutUint32 (n + 1)]> m1).
  exists (<[emptyTickListPerEpochKey e := encoded_list (L ++ [t])]> m2).
  assert (Hm2 : m2 !! emptyTickListPerEpochKey e = Some (encoded_list L))
    by (unfold m2; by rewrite lookup_insert_ne by apply keys_differ).
  split; [|split].
  - unfold Validator.record_empty_tick.
    eapply (runs_bind _ m _ _ _ (if decide (m !! emptyTicksPerEpochKey e = None)
                                 then inr PebbleErrNotFound else inl n)).
    { destruct Hbefore as [(_ & Hc & _)|[_ Hc]].
      - rewrite decide_False by (by rewrite Hc).
        eapply runs_attempt; [by eapply (runs_GetEmptyTicks m e n)|done].
      - rewrite decide_True by done.
        eapply runs_attempt; [by apply runs_GetEmptyTicks_missing|done]. }
    eapply (runs_bind _ m _ _ _ n).
    { destruct (decide _) as [Hc|Hc]; simpl; [|apply runs_ret].
      destruct Hbefore as [(_ & Hc' & _)|[-> _]]; [congruence|]. apply runs_ret. }
    eapply (runs_bind _ m1).
    { unfold m1. case_bool_decide; [|apply runs_ret]. runs_wrapped. apply runs_SetEmptyTickList. }
    rewrite uint32_small by lia.
    eapply (runs_bind _ m2); [runs_wrapped; unfold SetEmptyTicksForEpoch; runs_wrapped; apply runs_Set|].
    runs_wrapped. by apply runs_AppendEmptyTick.
  - split; [apply Forall_app; split; [done|by constructor]|]. split.
    + rewrite lookup_insert_ne by (symmetry; apply keys_differ). unfold m2.
      rewrite lookup_insert_eq, length_app. simpl. do 2 f_equal. unfold n. lia.
    + by rewrite lookup_insert_eq.
  - intros k H1 H2. unfold m2, m1. rewrite !lookup_insert_ne by done.
    case_bool_decide; [|done]. by rewrite lookup_insert_ne.
Qed.

(** ** The recomputation at start-up *)
Definition epoch_keys (es : list Z) (k : bytes) : Prop :=
  ∃ e, e ∈ es ∧ (k = emptyTicksPerEpochKey e ∨ k = emptyTickListPerEpochKey e).

(** Every processed tick of the archive has its data stored. *)
Definition ticks_stored m a : Prop :=
  ∀ e t, processed_in a e t → ∃ td : pb.TickData, stored m (tickDataKey t) td.

Lemma outside_kind k es : key_kind k ≠ Some EmptyTicksPerEpoch →
  key_kind k ≠ Some EmptyTickListPerEpoch → ¬ epoch_keys es k.
Proof. intros H1 H2 (e & _ & [->| ->]); done. Qed.

Lemma represents_outside m m' a es : represents m a →
  (∀ k, ¬ epoch_keys es k → m' !! k = m !! k) → represents m' a.
Proof.
  intros Hrep Hk. apply (represents_agree m); [|done]. intros k x Hx Hb. apply Hk.
  apply outside_kind; rewrite Hx; unfold bookkeeping_kind in Hb;
    intros [= ->]; by repeat destruct Hb as [Hb|Hb].
Qed.

Lemma stored_outside m m' t (td : pb.TickData) es :
  (∀ k, ¬ epoch_keys es k → m' !! k = m !! k) →
  stored m' (tickDataKey t) td ↔ stored m (tickDataKey t) td.
Proof.
  intros Hk. assert (E : m' !! tickDataKey t = m !! tickDataKey t) by (apply Hk, outside_kind; done).
  split; apply stored_agree; congruence.
Qed.

Lemma distinct_bounded (L : list Z) n : StronglySorted Z.lt L → (∀ t, t ∈ L → 1 ≤ t ≤ n) →
  Z.of_nat (length L) ≤ Z.max 0 n.
Proof.
  intros Hs Hb. assert (Hnd : NoDup L).
  { clear Hb. induction Hs as [|x L _ IH Hx]; constructor; [|done].
    rewrite Forall_forall in Hx. intros Hin%Hx. lia. }
  assert (Hsub : L ⊆+ seqZ 1 n).
  { apply NoDup_submseteq; [done|]. intros t Ht%Hb. apply elem_of_seqZ. lia. }
  apply submseteq_length in Hsub. rewrite length_seqZ in Hsub. lia.
Qed.

(** The result recorded for one epoch. *)
Definition recomputed m m' a (e : Z) : Prop :=
  ∃ L, records m' e L ∧ StronglySorted Z.lt L ∧
       ∀ t, t ∈ L ↔ processed_in a e t ∧ stored m (tickDataKey t) pb.emptyTickData.

Lemma runs_recompute m a e : represents m a → archive_ok a → ticks_stored m a →
  ∃ L, runs m (Tick.CalculateEmptyTicksForEpoch e) (Ok L) m ∧ Forall is_uint32 L ∧
       Z.of_nat (length L) < 2 ^ 32 ∧ StronglySorted Z.lt L ∧
       ∀ t, t ∈ L ↔ processed_in a e t ∧ stored m (tickDataKey t) pb.emptyTickData.
Proof.
  intros Hrep Hok Hst.
  destruct (runs_CalculateEmptyTicksForEpoch m a Hrep Hok e (Hst e)) as (L & Hrun & Hs & HL).
  pose proof (last_number_lt a Hok) as Hlt.
  assert (Hb : ∀ t, t ∈ L → 1 ≤ t ≤ last_number a).
  { intros t [Hp _]%HL. by apply (ok_bounds a Hok e). }
  exists L. split; [done|]. split; [|split; [|done]].
  - apply Forall_forall. intros t Ht%Hb. unfold is_uint32. lia.
  - pose proof (distinct_bounded L _ Hs Hb). lia.
Qed.

Lemma epoch_key_inj e e' k : is_uint32 e → is_uint32 e' → epoch_keys [e] k → epoch_keys [e'] k → e = e'.
Proof.
  intros He He' (x & ->%list_elem_of_singleton & Hx) (y & ->%list_elem_of_singleton & Hy).
  destruct Hx as [->| ->], Hy as [Hy|Hy]; try (by apply append64_uint32_inj in Hy).
  - by apply keys_differ in Hy.
  - by symmetry in Hy; apply keys_differ in Hy.
Qed.

Lemma runs_CalculateEmptyTicks_epochs es m a :
  represents m a → archive_ok a → ticks_stored m a →
  NoDup es → Forall is_uint32 es →
  (∀ e, e ∈ es → m !! emptyTicksPerEpochKey e = None) →
  ∃ m', runs m (Tick.CalculateEmptyTicks_epochs es) (Ok tt) m' ∧
        (∀ k, ¬ epoch_keys es k → m' !! k = m !! k) ∧ ∀ e, e ∈ es → recomputed m m' a e.
Proof.
  intros Hrep Hok Hst Hnd Hes Hno. revert m Hrep Hst Hno.
  induction es as [|e es IH]; intros m Hrep Hst Hno.
  { exists m. split; [apply runs_ret|]. split; [done|]. by intros ? ?%elem_of_nil. }
  apply NoDup_cons in Hnd as [He Hnd]. apply Forall_cons in Hes as [Hue Hes].
  destruct (runs_recompute m a e Hrep Hok Hst) as (L & Hrun & HL & Hlen & Hs & Hspec).
  set (m1 := <[emptyTicksPerEpochKey e := LittleEndian_PutUint32 (Z.of_nat (length L))]> m).
  set (m2 := <[emptyTickListPerEpochKey e := encoded_list L]> m1).
  assert (Hm2 : ∀ k, ¬ epoch_keys [e] k → m2 !! k = m !! k).
  { intros k Hk. unfold m2, m1. rewrite !lookup_insert_ne; [done|..]; intros <-; apply Hk;
      exists e; split; (by left) || auto. }
  assert (Hother : ∀ e' k, e' ∈ es → epoch_keys [e'] k → ¬ epoch_keys [e] k).
  { intros e' k He' Hk' Hk. rewrite Forall_forall in Hes.
    by rewrite (epoch_key_inj e e' k Hue (Hes e' He') Hk Hk') in He. }
  destruct (IH Hnd Hes m2) as (m' & Hrun' & Hk' & Hrec).
  - by eapply represents_outside.
  - intros e' t [td Htd]%Hst. exists td. by eapply stored_outside.
  - intros e' He'. rewrite Hm2; [apply Hno; by right|].
    apply (Hother e'); [done|]. exists e'. split; [by left|by left].
  - exists m'. split; [|split].
    + simpl. runs_step (eapply runs_attempt;
        [apply runs_GetEmptyTicks_missing, Hno; by left|done]). simpl.
      runs_step (runs_wrapped; exact Hrun). rewrite uint32_small by lia.
      eapply (runs_bind _ m1); [runs_wrapped; unfold SetEmptyTicksForEpoch; runs_wrapped; apply runs_Set|].
      eapply (runs_bind _ m2); [runs_wrapped; apply runs_SetEmptyTickList|]. exact Hrun'.
    + intros k Hk. rewrite Hk'.
      * apply Hm2. intros (x & ->%list_elem_of_singleton & Hx). apply Hk. exists e. split; [by left|done].
      * intros (x & Hx & ?). apply Hk. exists x. split; [by right|done].
    + intros e' [->|He']%elem_of_cons.
      * exists L. split; [|done]. split; [done|].
        assert (Hout : ∀ k, epoch_keys [e] k → m' !! k = m2 !! k).
        { intros k Hk. apply Hk'. intros (x & Hx & Hxk). eapply Hother; [exact Hx| |exact Hk].
          exists x. split; [by left|done]. }
        rewrite !Hout by (exists e; split; [by left|by auto]). unfold m2, m1.
        rewrite lookup_insert_eq, lookup_insert_ne by (symmetry; apply keys_differ).
        by rewrite lookup_insert_eq.
      * destruct (Hrec e' He') as (L' & H1 & H2 & H3). exists L'. split; [done|]. split; [done|].
        intros t. rewrite H3. by rewrite (stored_outside m m2 t _ [e] Hm2).
Qed.

(** The epochs the recomputation visits are those with processed ticks. *)
Context {R : GoRuntime} {RL : GoRuntimeLaws R}.

Definition visited_epochs (a : archive) : list Z := map_range (map_to_list (ar_lastPerEpoch a)).*1.

Lemma elem_of_visited_epochs a e :
  e ∈ visited_epochs a ↔ is_Some (ar_lastPerEpoch a !! e).
Proof.
  unfold visited_epochs. rewrite map_range_perm. rewrite list_elem_of_fmap. split.
  - intros ([e' t] & -> & H%elem_of_map_to_list). by eexists.
  - intros [t H]. exists (e, t). split; [done|]. by apply elem_of_map_to_list.
Qed.

Lemma per_epoch_intervals a e : archive_ok a →
  is_Some (ar_lastPerEpoch a !! e) ↔ is_Some (ar_intervals a !! e).
Proof.
  intros Hok. split.
  - intros [t Ht]. apply (ok_per_epoch a Hok) in Ht as (l & i & Hl & _). by eexists.
  - intros [l Hl]. destruct (ok_epoch a Hok e l Hl) as (Hne & _ & _).
    destruct (last l) as [i|] eqn:E; [|by apply last_None in E].
    eexists. apply (ok_per_epoch a Hok). eauto.
Qed.

Lemma per_epoch_bounds a e t : archive_ok a → ar_lastPerEpoch a !! e = Some t →
  0 ≤ e < 0x31000000 ∧ is_uint32 e ∧ is_uint32 t.
Proof.
  intros Hok Ht.
  assert (He : 0 ≤ e < 0x31000000) by (apply (archive_ok_small a), per_epoch_intervals; eauto).
  split; [done|]. split; [unfold is_uint32; lia|].
  apply (ok_per_epoch a Hok) in Ht as (l & i & Hl & Hi & <-). apply last_Some_elem_of in Hi.
  destruct (interval_bounds a e l i Hok Hl Hi) as (Hne & H1 & H2).
  pose proof (last_number_lt a Hok). unfold interval_nonempty, is_uint32 in *. lia.
Qed.

Lemma runs_visited m a : represents m a → archive_ok a →
  runs m GetLastProcessedTicksPerEpoch (Ok (ar_lastPerEpoch a)) m.
Proof.
  intros Hrep Hok. apply runs_GetLastProcessedTicksPerEpoch.
  - apply represents_table; [done|]. intros e t Ht. apply (per_epoch_bounds a e t Hok Ht).
  - intros e t Ht. apply (per_epoch_bounds a e t Hok Ht).
Qed.

Lemma visited_NoDup a : NoDup (visited_epochs a).
Proof. unfold visited_epochs. rewrite map_range_perm. apply NoDup_fst_map_to_list. Qed.

Lemma visited_uint32 a : archive_ok a → Forall is_uint32 (visited_epochs a).
Proof.
  intros Hok. apply Forall_forall. intros e [t Ht]%elem_of_visited_epochs.
  by destruct (per_epoch_bounds a e t Hok Ht) as (_ & ? & _).
Qed.

Lemma runs_CalculateAll m a : represents m a → archive_ok a → ticks_stored m a →
  (∀ e, e ∈ visited_epochs a → m !! emptyTicksPerEpochKey e = None) →
  ∃ m', runs m Tick.CalculateEmptyTicksForAllEpochs (Ok tt) m' ∧
        (∀ k, ¬ epoch_keys (visited_epochs a) k → m' !! k = m !! k) ∧
        ∀ e, e ∈ visited_epochs a → recomputed m m' a e.
Proof.
  intros Hrep Hok Hst Hno.
  destruct (runs_CalculateEmptyTicks_epochs (visited_epochs a) m a Hrep Hok Hst
    (visited_NoDup a) (visited_uint32 a Hok) Hno) as (m' & Hrun & H1 & H2).
  exists m'. split; [|done]. unfold Tick.CalculateEmptyTicksForAllEpochs.
  runs_step (runs_wrapped; by apply runs_visited). exact Hrun.
Qed.

(** The reset deletes both keys of every epoch. *)
Lemma runs_Reset m a : represents m a → archive_ok a →
  ∃ m', runs m Tick.ResetEmptyTicksForAllEpochs (Ok tt) m' ∧
        (∀ k, epoch_keys (visited_epochs a) k → m' !! k = None) ∧
        (∀ k, ¬ epoch_keys (visited_epochs a) k → m' !! k = m !! k).
Proof.
  intros Hrep Hok.
  assert (Hloop : ∀ es m, ∃ m', runs m (forM_ es (λ epoch,
      _ ← mwrap "deleting empty tick key" (DeleteEmptyTicksKeyForEpoch epoch);
      mwrap "deleting empty tick list key" (DeleteEmptyTickListKeyForEpoch epoch))) (Ok tt) m' ∧
    (∀ k, epoch_keys es k → m' !! k = None) ∧ (∀ k, ¬ epoch_keys es k → m' !! k = m !! k)).
  { clear. intros es. induction es as [|e es IH]; intros m.
    { exists m. split; [apply runs_ret|]. split; [|done]. by intros k (e & ?%elem_of_nil & _). }
    destruct (IH (delete (emptyTickListPerEpochKey e) (delete (emptyTicksPerEpochKey e) m)))
      as (m' & Hrun & H1 & H2).
    assert (Hdec : ∀ k, epoch_keys es k ∨ ¬ epoch_keys es k).
    { intros k. destruct (decide (k ∈ (emptyTicksPerEpochKey <$> es) ++ (emptyTickListPerEpochKey <$> es)))
        as [H|H]; [left|right].
      - apply elem_of_app in H as [(x & -> & ?)%list_elem_of_fmap|(x & -> & ?)%list_elem_of_fmap];
          exists x; auto.
      - intros (x & Hx & [->| ->]); apply H, elem_of_app; [left|right]; by apply list_elem_of_fmap_2. }
    exists m'. split; [|split].
    - eapply runs_bind; [|exact Hrun]. eapply runs_bind.
      + runs_wrapped. unfold DeleteEmptyTicksKeyForEpoch. runs_wrapped. apply runs_Delete.
      + runs_wrapped. unfold DeleteEmptyTickListKeyForEpoch. runs_wrapped. apply runs_Delete.
    - intros k (x & [->|Hx]%elem_of_cons & Hk); [|by apply H1; exists x].
      destruct (Hdec k) as [?|Hn]; [by apply H1|]. rewrite (H2 k Hn).
      destruct Hk as [->| ->]; [rewrite lookup_delete_ne by (symmetry; apply keys_differ)|];
        by rewrite lookup_delete_eq.
    - intros k Hk. rewrite H2.
      + rewrite !lookup_delete_ne; [done|..]; intros <-; apply Hk; exists e; split; (by left) || auto.
      + intros (x & Hx & ?). apply Hk. exists x. split; [by right|done]. }
  destruct (Hloop (visited_epochs a) m) as (m' & Hrun & H). exists m'. split; [|exact H].
  unfold Tick.ResetEmptyTicksForAllEpochs.
  runs_step (runs_wrapped; by apply runs_visited). exact Hrun.
Qed.

(** C26: Resetting and recomputing the empty ticks rebuilds, for every epoch with
    processed ticks, the count and the ordered list of exactly the processed
    ticks stored without data, whatever the two keys held before, and changes
    nothing else. *)
Theorem reset_and_calculate_rebuilds m a :
  represents m a → archive_ok a → ticks_stored m a →
  ∃ m', runs m (Tick.prepare_empty_ticks true) (Ok tt) m' ∧
        (∀ e, is_Some (ar_intervals a !! e) → recomputed m m' a e) ∧
        represents m' a ∧ ∀ k, ¬ epoch_keys (visited_epochs a) k → m' !! k = m !! k.
Proof.
  intros Hrep Hok Hst. destruct (runs_Reset m a Hrep Hok) as (m1 & Hrun1 & Hnone & Hout1).
  destruct (runs_CalculateAll m1 a) as (m' & Hrun & Hout & Hrec).
  - by eapply represents_outside.
  - done.
  - intros e t [td Htd]%Hst. exists td. by eapply stored_outside.
  - intros e He. apply Hnone. exists e. auto.
  - assert (Hall : ∀ k, ¬ epoch_keys (visited_epochs a) k → m' !! k = m !! k)
      by (intros k Hk; by rewrite Hout, Hout1).
    exists m'. split; [|split; [|split]].
    + unfold Tick.prepare_empty_ticks. runs_step (runs_wrapped; exact Hrun1). runs_wrapped. exact Hrun.
    + intros e He%(per_epoch_intervals a e Hok)%elem_of_visited_epochs.
      destruct (Hrec e He) as (L & H1 & H2 & H3). exists L. split; [done|]. split; [done|].
      intros t. rewrite H3. by rewrite (stored_outside m m1 t _ (visited_epochs a) Hout1).
    + by eapply represents_outside.
    + done.
Qed.

(** The loop over the epochs ends, without an error, at the first epoch whose
    count exists: the epochs after it in the iteration order of the map are not
    recomputed. *)
Theorem CalculateEmptyTicks_stops m e es n : is_uint32 n →
  m !! emptyTicksPerEpochKey e = Some (LittleEndian_PutUint32 n) →
  runs m (Tick.CalculateEmptyTicks_epochs (e :: es)) (Ok tt) m.
Proof.
  intros Hn Hm. simpl.
  runs_step (eapply runs_attempt; [by eapply runs_GetEmptyTicks|done]). apply runs_ret.
Qed.
End EmptyTicks.
