(* ===== verification/ValidatorProofs.v ===== *)
(** * validator/validator.go: what a pass writes *)

From stdpp Require Import sorting base strings numbers pretty gmap list.
From S2P Require Import Prelude GoLib Types Platform Keys Store Utils Frame.
From S2P Require Computors Quorum Tick Tx TxStatus Chain.
From S2P Require Import Validator.

Local Open Scope Z_scope.

(** The keys a step may write: some keys, and the keys of some kinds. *)
Definition own_keys (keys : list bytes) (kinds : list Z) (k : bytes) : Prop :=
  k ∈ keys ∨ ∃ x, key_kind k = Some x ∧ x ∈ kinds.

Lemma own_keys_kind keys kinds k x :
  key_kind k = Some x → bool_decide (x ∈ kinds) = true → own_keys keys kinds k.
Proof. intros Hk Hx%bool_decide_eq_true. right. by exists x. Qed.

Lemma own_keys_mono keys kinds keys' kinds' k :
  keys ⊆ keys' → kinds ⊆ kinds' → own_keys keys kinds k → own_keys keys' kinds' k.
Proof. intros H1 H2 [H|(x & Hk & Hx)]; [left|right; exists x]; auto. Qed.

Lemma not_own_keys keys kinds k x :
  key_kind k = Some x → bool_decide (x ∈ kinds) = false → k ∉ keys → ¬ own_keys keys kinds k.
Proof.
  intros Hk Hx%bool_decide_eq_false Hkeys [H|(y & Hy & Hin)]; [done|].
  assert (x = y) as <- by congruence. done.
Qed.

Ltac own_key :=
  first [ left; repeat first [by left | right]; fail
        | left; apply list_elem_of_singleton; reflexivity
        | eapply own_keys_kind; [reflexivity|vm_compute; reflexivity] ].

(** A key of another kind than all that may be written. *)
Ltac not_own :=
  eapply not_own_keys; [reflexivity|vm_compute; reflexivity|];
  repeat first [apply not_elem_of_nil | apply not_elem_of_cons; split; [key_ne|]].

(** The keys of a list are of other kinds than [k]. *)
Ltac key_other Hk :=
  repeat first [apply not_elem_of_nil
               | apply not_elem_of_cons; split; [intros ->; discriminate Hk|]].

(** The records of one tick, and the kinds of keys its storing shares with
    other ticks. *)
Definition tick_records (n : Z) : list bytes :=
  [tickDataKey n; quorumTickDataKey n; tickTxStatusKey (uint64 n); chainDigestKey n;
   storeDigestKey n].

Definition shared_kinds : list Z :=
  [ComputorList; Keys.Transaction; IdentityTransferTransactions; Keys.TransactionStatus;
   EmptyTicksPerEpoch; LastTickQuorumDataPerEpochInterval; EmptyTickListPerEpoch;
   TargetTickVoteSignature].

Section Writes.
Context {P : Pebble} {PL : PebbleLaws P} {PR : Protobuf} {R : GoRuntime} {K : K12}.
Context {N : NodeConnector}.

Lemma writes_more keys kinds keys' kinds' {A} (c : M DB A) :
  writes_only (on (own_keys keys kinds)) c → keys ⊆ keys' → kinds ⊆ kinds' →
  writes_only (on (own_keys keys' kinds')) c.
Proof.
  intros Hc Hk Hx. eapply frame_consequence; [exact Hc| |done].
  intros k v. by apply own_keys_mono.
Qed.

Lemma writes_SetTransactions txs :
  writes_only (on (own_keys [] [Keys.Transaction])) (SetTransactions txs).
Proof.
  unfold SetTransactions. eapply frame_bind.
  - apply frame_foldM; [apply batch_owned_new|]. intros b tx _ Hb. unfold SetTransactions_step.
    apply frame_bind_lift. intros key [= <-]. apply frame_bind_lift. intros s _.
    apply frame_Batch_Set; [done|own_key].
  - intros b Hb. by apply writes_wrap, writes_Commit.
Qed.

Lemma writes_SetTickTransactionsStatus n tts :
  writes_only (on (own_keys [tickTxStatusKey n] [Keys.TransactionStatus]))
    (SetTickTransactionsStatus n tts).
Proof.
  unfold SetTickTransactionsStatus. apply writes_bind_lift. intros s _.
  eapply frame_bind; [apply frame_Batch_Set; [apply batch_owned_new|own_key]|]. intros b Hb.
  eapply frame_bind.
  - apply frame_foldM; [exact Hb|]. intros b' tx _ Hb'. unfold SetTickTransactionsStatus_step.
    apply frame_bind_lift. intros s' _. apply frame_Batch_Set; [done|own_key].
  - intros b' Hb'. by apply writes_wrap, writes_Commit.
Qed.

Lemma writes_TxStatus_Store n tts :
  writes_only (on (own_keys [tickTxStatusKey (uint64 n)] [Keys.TransactionStatus]))
    (TxStatus.Store n tts).
Proof. apply writes_wrap, writes_SetTickTransactionsStatus. Qed.

Lemma writes_SetQuorumDataForCurrentEpochInterval e q :
  writes_only (on (own_keys [] [LastTickQuorumDataPerEpochInterval]))
    (SetQuorumDataForCurrentEpochInterval e q).
Proof.
  unfold SetQuorumDataForCurrentEpochInterval, getProcessedTickIntervalsPerEpoch,
    GetLastTickQuorumDataListPerEpochInterval, SetLastTickQuorumDataPerEpochIntervals.
  frame_steps; own_key.
Qed.

Lemma writes_Quorum_Store n votes :
  writes_only (on (own_keys [quorumTickDataKey n] [LastTickQuorumDataPerEpochInterval]))
    (Quorum.Store n votes).
Proof.
  unfold Quorum.Store, SetQuorumTickData, SetQuorumDataForCurrentEpochInterval,
    getProcessedTickIntervalsPerEpoch, GetLastTickQuorumDataListPerEpochInterval,
    SetLastTickQuorumDataPerEpochIntervals.
  frame_steps; own_key.
Qed.

Lemma writes_Tick_Store n d : writes_only (on (own_keys [tickDataKey n] [])) (Tick.Store n d).
Proof. unfold Tick.Store, SetTickData. frame_steps; own_key. Qed.

Lemma writes_Tx_Store n txs :
  writes_only (on (own_keys [] [Keys.Transaction; IdentityTransferTransactions]))
    (Tx.Store n txs).
Proof.
  unfold Tx.Store, Tx.storeTickTransactions, Tx.storeTransferTransactions,
    PutTransferTransactionsPerTick.
  repeat first [eapply writes_more; [apply writes_SetTransactions|set_solver..] | frame_step].
  own_key.
Qed.

Lemma writes_ComputeAndSave i n v :
  writes_only (on (own_keys [chainDigestKey n] [])) (Chain.ComputeAndSave i n v).
Proof.
  unfold Chain.ComputeAndSave, Chain.getPrevChainDigest, GetChainDigest, PutChainDigest.
  frame_steps; own_key.
Qed.

Lemma writes_ComputeStoreAndSave i n txs s :
  writes_only (on (own_keys [storeDigestKey n] [])) (Chain.ComputeStoreAndSave i n txs s).
Proof.
  unfold Chain.ComputeStoreAndSave, Chain.getPrevStoreDigest, GetStoreDigest, PutStoreDigest.
  frame_steps; own_key.
Qed.

Lemma writes_record_empty_tick e n :
  writes_only (on (own_keys [] [EmptyTicksPerEpoch; EmptyTickListPerEpoch]))
    (record_empty_tick e n).
Proof.
  unfold record_empty_tick, GetEmptyTicksForEpoch, SetEmptyTickListPerEpoch,
    SetEmptyTicksForEpoch, AppendEmptyTickToEmptyTickListPerEpoch, GetEmptyTickListPerEpoch,
    SetEmptyTickListPerEpoch.
  frame_steps; own_key.
Qed.

Notation own n := (on (own_keys (tick_records n) shared_kinds)).

Lemma writes_store_tick i n c : writes_only (own n) (store_tick i n c).
Proof.
  unfold store_tick.
  repeat first
    [ eapply writes_more;
        [first [apply writes_Quorum_Store | apply writes_Tick_Store | apply writes_Tx_Store
         | apply writes_TxStatus_Store | apply writes_ComputeAndSave
         | apply writes_ComputeStoreAndSave | apply writes_record_empty_tick]
        |set_solver|apply (bool_decide_unpack _); by vm_compute]
    | frame_step].
Qed.

(** Validation caches the computors and the target signature, and nothing
    else. *)
Lemma writes_check qu arb n d :
  writes_only (on (own_keys [] [ComputorList; TargetTickVoteSignature])) (check qu arb n d).
Proof.
  unfold check, get_computors, Computors.Get, GetComputors, Computors.Store, SetComputors,
    get_targetTickVoteSignature, GetTargetTickVoteSignature, SetTargetTickVoteSignature.
  frame_steps; own_key.
Qed.

Lemma writes_ValidateTick qu arb i n d : writes_only (own n) (ValidateTick qu arb i n d).
Proof.
  unfold ValidateTick. apply writes_bind; [|intros c; apply writes_store_tick].
  eapply writes_more; [apply writes_check|set_solver|apply (bool_decide_unpack _); by vm_compute].
Qed.

(** A record of another tick is out of reach. *)
Lemma tick_records_other n t k : is_uint32 n → is_uint32 t → n ≠ t →
  k ∈ tick_records t → ¬ own_keys (tick_records n) shared_kinds k.
Proof.
  intros Hn Ht Hnt Hk.
  assert (H64 : ∀ p, BigEndian_AppendUint64 p (uint64 n) ≠ BigEndian_AppendUint64 p (uint64 t))
    by (intros p E; by apply Hnt, (append64_uint32_inj p)).
  assert (Hst : tickTxStatusKey (uint64 n) ≠ tickTxStatusKey (uint64 t)) by apply H64.
  unfold tick_records in Hk |- *.
  repeat (apply elem_of_cons in Hk as [->|Hk]; [
    eapply not_own_keys; [reflexivity|vm_compute; reflexivity|];
    repeat first [apply not_elem_of_nil
                 | apply not_elem_of_cons; split; [first [key_ne | apply not_eq_sym, H64 | by apply not_eq_sym]|]]|]).
  by apply elem_of_nil in Hk.
Qed.

Lemma tick_writes_unchanged {A} (c : M DB A) n db k : writes_only (own n) c →
  (∃ x, key_kind k = Some x ∧
        x ∈ [LastProcessedTick; LastProcessedTickPerEpoch; Keys.SkippedTicksInterval;
             ProcessedTickIntervals]) ∨
  (∃ t, is_uint32 n ∧ is_uint32 t ∧ n ≠ t ∧ k ∈ tick_records t) →
  contents (c db).2 !! k = contents db !! k.
Proof.
  intros Hw Hk. eapply frame_outside; [exact Hw|].
  destruct Hk as [(x & Hk & Hx)|(t & Hn & Ht & Hnt & Hk)]; [|by eapply tick_records_other].
  set_unfold in Hx. intros [Hin|(y & Hy & Hin)].
  - unfold tick_records in Hin. set_unfold in Hin.
    destruct_or! Hin; subst k; injection Hk as <-; destruct_or! Hx; discriminate.
  - assert (x = y) as <- by congruence. unfold shared_kinds in Hin. set_unfold in Hin.
    destruct_or! Hx; subst x; destruct_or! Hin; discriminate.
Qed.

Lemma ValidateTick_unchanged qu arb i n d db k :
  (∃ x, key_kind k = Some x ∧
        x ∈ [LastProcessedTick; LastProcessedTickPerEpoch; Keys.SkippedTicksInterval;
             ProcessedTickIntervals]) ∨
  (∃ t, is_uint32 n ∧ is_uint32 t ∧ n ≠ t ∧ k ∈ tick_records t) →
  contents (ValidateTick qu arb i n d db).2 !! k = contents db !! k.
Proof. apply tick_writes_unchanged, writes_ValidateTick. Qed.

(** C31: On any database, failing or not, and whatever the node answers, a
    pass over a tick changes no bookkeeping key and no record of another tick:
    the last processed ticks, the processed intervals and the skipped intervals
    stay as they were, and so do the tick data, the quorum data, the statuses
    and the digests of every other tick, in every outcome. *)
Theorem ValidateTick_frame qu arb i n d db k :
  (∃ x, key_kind k = Some x ∧
        x ∈ [LastProcessedTick; LastProcessedTickPerEpoch; Keys.SkippedTicksInterval;
             ProcessedTickIntervals]) ∨
  (∃ t, is_uint32 n ∧ is_uint32 t ∧ n ≠ t ∧ k ∈ tick_records t) →
  contents (ValidateTick qu arb i n d db).2 !! k = contents db !! k.
Proof. apply ValidateTick_unchanged. Qed.

(** C32: A tick that fails validation leaves no trace: when a check rejects it,
    the pass ends in that error, and only the cached computor list and target
    signature may have been written. *)
Theorem ValidateTick_rejected qu arb i n d db e k :
  (check qu arb n d db).1 = Err e →
  ¬ own_keys [] [ComputorList; TargetTickVoteSignature] k →
  (ValidateTick qu arb i n d db).1 = Err e ∧
  contents (ValidateTick qu arb i n d db).2 !! k = contents db !! k.
Proof.
  intros He Hk. pose proof (frame_outside _ _ _ db k (writes_check qu arb n d) Hk) as Hf.
  unfold ValidateTick, mbind, M_bind. destruct (check qu arb n d db) as [o db']; simpl in *.
  by subst o.
Qed.

(** C40: Whether a tick has data is decided by the first vote the node sent,
    not by the aligned votes: when its transaction digest is zero, the tick is
    taken for empty, whatever the quorum says. *)
Theorem check_first_vote_decides qu arb n d db db' first rest c :
  Client_GetQuorumVotes qu n = Ok (first :: rest) →
  types.QuorumTickVote_TxDigest first = zero_array 32 →
  check qu arb n d db = (Ok c, db') →
  checked_tickData c = zero_TickData ∧ checked_validTxs c = [].
Proof.
  intros Hv Hz. unfold check. rewrite Hv. simpl length.
  intros H. apply mbind_M_Ok in H as (votes & db1 & Hl & H). injection Hl as <- <-.
  rewrite bool_decide_false in H by done.
  apply mbind_M_Ok in H as (v & db1 & Hl & H). injection Hl as <- <-.
  do 5 (apply mbind_M_Ok in H as (? & ? & _ & H)).
  apply mbind_M_Ok in H as ([[td txs] st] & db2 & Hl & H).
  rewrite bool_decide_false in Hl by (by intros []). injection Hl as <- <- <- <-.
  by injection H as <- <-.
Qed.
End Writes.
