(* ===== verification/QliService.v ===== *)
(** * validator/validator.go: transaction statuses from the qli service

    [GetTxStatus] asks a public service for the transactions of a tick and
    turns the digests it lists into transaction identifiers. *)

From stdpp Require Import sorting base strings numbers pretty gmap list.
From S2P Require Import Prelude GoLib Base64 Types Platform.

Local Open Scope Z_scope.

Section QliService.
Context {N : NodeConnector} {H : HttpClient}.

(** [strconv.Itoa(int(tickNumber))] *)
Definition strconv_Itoa (x : Z) : string := pretty (int64 x).

Definition qli_url (tickNumber : Z) : string :=
  ("https://api.qubic.li/Public/TickTransaction/" +:+ strconv_Itoa tickNumber)%string.

Definition queryQliServicesForTransactions (tickNumber : Z) : outcome (list (string * bool)) :=
  req ← wrap "creating new request" (http_NewRequest (qli_url tickNumber));
  httpRes ← wrap "sending request" (http_Do req);
  if bool_decide (http_StatusCode httpRes ≠ 200)
  then Err (ErrorString "got non 200 status code")
  else wrap "decoding response" (json_transactions httpRes).

(** [decoded[:32]] copied into an array: the slice may reach past the decoded
    bytes, into the zeroed rest of the buffer, but not past its capacity. *)
Definition copied_key (digest : string) (decoded : bytes) : outcome bytes :=
  if bool_decide (base64_DecodedLen (Z.of_nat (String.length digest)) < 32)
  then Panic
  else Ok (take 32 (decoded ++ zero_array 32)).

Definition GetTxStatus_step (transactions : list pb.TransactionStatus) (transaction : string * bool) :
    outcome (list pb.TransactionStatus) :=
  decoded ← wrap "base64 decoding digest" (base64_DecodeString transaction.1);
  pubKey ← copied_key transaction.1 decoded;
  id ← wrap "creating identity from public key" (Identity_FromPubKey pubKey true);
  Ok (transactions ++ [pb.MkTransactionStatus id transaction.2]).

Definition GetTxStatus (tickNumber : Z) : outcome pb.TickTransactionsStatus :=
  qliServicesTransactions ← wrap "querying qli services for transactions"
    (queryQliServicesForTransactions tickNumber);
  transactions ← foldO GetTxStatus_step [] qliServicesTransactions;
  Ok (pb.MkTickTransactionsStatus transactions).

(** ** Theorems *)

(** What an entry of the service's answer becomes. *)
Definition listed (entry : string * bool) (st : pb.TransactionStatus) : Prop :=
  ∃ decoded key id, base64_DecodeString entry.1 = Ok decoded ∧ copied_key entry.1 decoded = Ok key ∧
    Identity_FromPubKey key true = Ok id ∧ st = pb.MkTransactionStatus id entry.2.

Lemma GetTxStatus_step_iff acc e r : GetTxStatus_step acc e = Ok r ↔ ∃ st, listed e st ∧ r = acc ++ [st].
Proof.
  unfold GetTxStatus_step, listed. split.
  - intros (b & Hb%wrap_Ok & (k & Hk & (id & Hid%wrap_Ok & [= <-])%bind_Ok)%bind_Ok)%bind_Ok. eauto 10.
  - intros (? & (b & k & id & -> & Hk & Hid & ->) & ->). cbn. rewrite Hk. cbn. by rewrite Hid.
Qed.

Lemma foldO_GetTxStatus entries acc r : foldO GetTxStatus_step acc entries = Ok r ↔
  ∃ sts, r = acc ++ sts ∧ Forall2 listed entries sts.
Proof.
  revert acc. induction entries as [|e entries IH]; intros acc; cbn [foldO].
  - split.
    + intros [= ->]. exists []. by rewrite app_nil_r.
    + intros (sts & -> & ->%Forall2_nil_inv_l). by rewrite app_nil_r.
  - split.
    + intros (acc' & (st & Hst & ->)%GetTxStatus_step_iff & (sts & -> & Hsts)%IH)%bind_Ok.
      exists (st :: sts). rewrite <-app_assoc. by split; [|constructor].
    + intros (sts & -> & (st & sts' & Hst & Hsts & ->)%Forall2_cons_inv_l).
      replace (GetTxStatus_step acc e) with (Ok (acc ++ [st])).
      * cbn. apply IH. exists sts'. by rewrite <-app_assoc.
      * symmetry. apply GetTxStatus_step_iff. eauto.
Qed.

(** The statuses obtained from the service are exactly those of the
    entries it lists, in their order: the answer has status 200 and decodes,
    and each entry's digest is base64, long enough for the 32 bytes taken from
    it, and those are the identity the status carries. *)
Theorem GetTxStatus_exact tickNumber st :
  GetTxStatus tickNumber = Ok st ↔
  ∃ req res entries, http_NewRequest (qli_url tickNumber) = Ok req ∧ http_Do req = Ok res ∧
    http_StatusCode res = 200 ∧ json_transactions res = Ok entries ∧
    Forall2 listed entries (pb.TickTransactionsStatus_Transactions st).
Proof.
  unfold GetTxStatus, queryQliServicesForTransactions. split.
  - intros (es & (req & Hreq%wrap_Ok & (res & Hres%wrap_Ok & E)%bind_Ok)%wrap_Ok%bind_Ok &
      (sts & (? & -> & Hl)%foldO_GetTxStatus & [= <-])%bind_Ok)%bind_Ok.
    case_bool_decide as Hs; [done|]. apply wrap_Ok in E.
    exists req, res, es. by split_and!.
  - destruct st as [sts]. intros (req & res & es & -> & Hdo & Hs & Hj & Hl). simpl in Hl. cbn.
    rewrite Hdo. cbn. rewrite bool_decide_false by (by intros []). rewrite Hj. cbn.
    assert (Hf : foldO GetTxStatus_step [] es = Ok sts) by (apply foldO_GetTxStatus; by exists sts).
    by rewrite Hf.
Qed.

(** A digest of 32 bytes, listed in base64, is taken as it is. *)
Theorem listed_digest d flew id : is_array 32 d → Identity_FromPubKey d true = Ok id →
  listed (base64_EncodeToString d, flew) (pb.MkTransactionStatus id flew).
Proof.
  intros [Hd Hw] Hid. exists d, d, id. split; [by apply base64_Decode_Encode|]. split; [|done].
  assert (Hlen : String.length (base64_EncodeToString d) = 44%nat).
  { unfold base64_EncodeToString. rewrite <-length_string_bytes, string_bytes_string.
    - by rewrite length_base64_encode, Hd.
    - unfold wf_bytes. eapply Forall_impl; [by apply base64_encode_chars|]. simpl. lia. }
  unfold copied_key. cbn [fst]. rewrite Hlen. cbn. rewrite take_app_le by lia.
  by rewrite take_ge by lia.
Qed.

(** An entry whose digest decodes but is too short ends the call in a
    panic: nothing compares the length with 32 before the slice is taken. *)
Theorem GetTxStatus_short_digest tickNumber req res digest flew rest b :
  http_NewRequest (qli_url tickNumber) = Ok req → http_Do req = Ok res →
  http_StatusCode res = 200 → json_transactions res = Ok ((digest, flew) :: rest) →
  base64_DecodeString digest = Ok b → (String.length digest < 44)%nat →
  GetTxStatus tickNumber = Panic.
Proof.
  intros Hreq Hdo Hs Hj Hb Hlen. unfold GetTxStatus, queryQliServicesForTransactions.
  rewrite Hreq. cbn. rewrite Hdo. cbn. rewrite bool_decide_false by (by intros []).
  rewrite Hj. cbn. unfold GetTxStatus_step. cbn. rewrite Hb. cbn. unfold copied_key.
  rewrite bool_decide_true; [done|]. unfold base64_DecodedLen. Z.div_mod_to_equations. lia.
Qed.
End QliService.
