(* ===== verification/Processor.v ===== *)
(** * processor/processor.go: one tick after the other

    A pass asks a node for its tick information, decides which tick comes next,
    validates and stores it, and updates the bookkeeping.  [Start] repeats
    passes: [run] is the loop over the nodes the pool hands out. *)

From stdpp Require Import sorting base strings numbers pretty gmap list.
From S2P Require Import Prelude GoLib Types Platform Keys Store.
From S2P Require Validator.

Local Open Scope Z_scope.

(** What happens to the pooled connection after a pass. *)
Inductive connection_fate := PutBack | Closed.

Section Processor.
Context {P : Pebble} {PR : Protobuf} {R : GoRuntime} {K : K12} {N : NodeConnector}.
Variables (arbitratorPubKey : bytes) (disableStatusAddon : bool).

Definition getNextProcessingTick (lastTick : pb.ProcessedTick)
    (currentTickInfo : types.TickInfo) : outcome pb.ProcessedTick :=
  if bool_decide (types.TickInfo_InitialTick currentTickInfo >
                  pb.ProcessedTick_TickNumber lastTick)
  then Ok (pb.MkProcessedTick (types.TickInfo_InitialTick currentTickInfo)
             (types.TickInfo_Epoch currentTickInfo))
  else Ok (pb.MkProcessedTick (uint32 (pb.ProcessedTick_TickNumber lastTick + 1))
             (pb.ProcessedTick_Epoch lastTick)).

Definition getLastProcessedTick (currentTickInfo : types.TickInfo) : M DB pb.ProcessedTick :=
  r ← mattempt GetLastProcessedTick;
  match r with
  | inl lastTick => mret lastTick
  | inr err =>
      if errors_Is err ErrNotFound
      then mret (pb.MkProcessedTick 0 (types.TickInfo_Epoch currentTickInfo))
      else throw (WrapError "getting last processed tick" err)
  end.

Definition processSkippedTicks (lastTick nextTick : pb.ProcessedTick) : M DB unit :=
  let next := pb.ProcessedTick_TickNumber nextTick in
  let last := pb.ProcessedTick_TickNumber lastTick in
  if bool_decide (uint32 (next - last) = 1) then mret tt
  else if bool_decide (uint32 (next - last) = 0)
  then throw (ErrorString "Next tick should not be equal to last tick")
  else
    _ ← mwrap "appending processed tick interval"
      (AppendProcessedTickInterval (pb.ProcessedTick_Epoch nextTick)
         (pb.MkProcessedTickInterval next next));
    mwrap "setting skipped ticks interval"
      (SetSkippedTicksInterval
         (pb.MkSkippedTicksInterval (uint32 (last + 1)) (uint32 (next - 1)))).

Definition processStatus (lastTick nextTick : pb.ProcessedTick) : M DB unit :=
  _ ← mwrap "processing skipped ticks" (processSkippedTicks lastTick nextTick);
  mwrap "setting last processed tick" (SetLastProcessedTick nextTick).

Definition newTickInTheFutureError (requestedTick latestTick : Z) : error :=
  TickInTheFutureError requestedTick latestTick.

(** The pass with a connected client. *)
Definition process_with (client : Client) : M DB unit :=
  tickInfo ← lift (wrap "getting tick info" (Client_GetTickInfo client));
  lastTick ← mwrap "getting last processed tick" (getLastProcessedTick tickInfo);
  nextTick ← lift (wrap "getting next processing tick"
    (getNextProcessingTick lastTick tickInfo));
  let number := pb.ProcessedTick_TickNumber nextTick in
  if bool_decide (types.TickInfo_Tick tickInfo < number)
  then throw (newTickInTheFutureError number (types.TickInfo_Tick tickInfo))
  else
    _ ← mwrap "validating tick"
      (Validator.ValidateTick client arbitratorPubKey (types.TickInfo_InitialTick tickInfo)
         number disableStatusAddon);
    mwrap "processing status for lastTick and nextTick" (processStatus lastTick nextTick).

(** The deferred function looks at [err]: nil unless the pass returned an
    error, also while a panic unwinds. *)
Definition deferred (result : outcome unit) : connection_fate :=
  match result with Err _ => Closed | _ => PutBack end.

Definition processOneByOne (pool_Get : outcome Client) (db : DB) :
    outcome unit * option connection_fate * DB :=
  match pool_Get with
  | Err e => (Err (WrapError "getting qubic pooled client connection" e), None, db)
  | Panic => (Panic, None, db)
  | Ok client =>
      let '(result, db') := process_with client db in
      (result, Some (deferred result), db')
  end.

(** [Start]: an error is logged and the loop goes on; a panic ends the
    process. *)
Fixpoint run (passes : list (outcome Client)) (db : DB) : DB :=
  match passes with
  | [] => db
  | pool_Get :: passes =>
      match processOneByOne pool_Get db with
      | (Panic, _, db') => db'
      | (_, _, db') => run passes db'
      end
  end.
End Processor.
