(* ===== verification/ProcessorProofs.v ===== *)
(** * processor/processor.go: theorems

    The status update refines the abstract one of Archive.v, a pass refines one
    step of it, and whatever sequence of passes starts from an empty database
    ends in a database that represents a reachable archive. *)

From stdpp Require Import sorting base strings numbers pretty gmap list.
From S2P Require Import Prelude GoLib Types Platform Keys Store StoreLogic Archive Progress.
From S2P Require Import Frame.
From S2P Require Validator ValidatorProofs.
From S2P Require Import Processor.

Local Open Scope Z_scope.

Section Status.
Context {P : Pebble} {PL : PebbleLaws P} {PR : Protobuf} {PRL : ProtobufLaws PR}.

(** The status update of the code is the abstract one. *)
Lemma runs_processStatus m a last next :
  represents m a → archive_valid a → valid_tick next →
  0 ≤ pb.ProcessedTick_TickNumber last < pb.ProcessedTick_TickNumber next →
  ∃ m', runs m (processStatus last next) (Ok tt) m' ∧
        represents m' (update_status last next a) ∧ archive_valid (update_status last next a).
Proof.
  intros Hrep Hval [Ht He] Hlt. unfold is_uint32 in Ht, He.
  unfold update_status, processStatus, processSkippedTicks.
  set (l := pb.ProcessedTick_TickNumber last) in *.
  set (n := pb.ProcessedTick_TickNumber next) in *.
  rewrite (uint32_small (n - l)) by lia. case_bool_decide as Hadj.
  - destruct (runs_SetLastProcessedTick m a next) as (m' & Hrun & Hrep'); [done..|].
    exists m'. split; [|by split; [|apply set_last_valid]].
    runs_step (runs_wrapped; apply runs_ret). by runs_wrapped.
  - rewrite bool_decide_false by lia.
    set (i := pb.MkProcessedTickInterval n n).
    set (s := pb.MkSkippedTicksInterval (l + 1) (n - 1)).
    assert (Hi : valid_interval i) by (unfold valid_interval, is_uint32; simpl; lia).
    assert (Hs : valid_skipped s) by (unfold valid_skipped, is_uint32; simpl; lia).
    destruct (runs_AppendProcessedTickInterval m a (pb.ProcessedTick_Epoch next) i)
      as (m1 & Hrun1 & Hrep1); [done..|].
    pose proof (append_interval_valid a (pb.ProcessedTick_Epoch next) i Hval He Hi) as Hval1.
    destruct (runs_SetSkippedTicksInterval m1 _ s Hrep1 Hval1 Hs) as (m2 & Hrun2 & Hrep2).
    pose proof (record_skipped_valid _ s Hval1 Hs) as Hval2.
    destruct (runs_SetLastProcessedTick m2 _ next Hrep2 Hval2 (conj Ht He))
      as (m3 & Hrun3 & Hrep3).
    exists m3. split; [|by split; [|apply set_last_valid]].
    rewrite !uint32_small by lia. fold i s.
    runs_step (runs_wrapped; runs_step (runs_wrapped; exact Hrun1); runs_wrapped; exact Hrun2).
    by runs_wrapped.
Qed.

Lemma runs_getLastProcessedTick m a info : represents m a →
  runs m (getLastProcessedTick info) (Ok (last_tick info a)) m.
Proof.
  intros Hrep. unfold getLastProcessedTick, last_tick.
  pose proof (runs_GetLastProcessedTick m a Hrep) as H. destruct (ar_last a) as [pt|].
  - runs_step (by eapply runs_attempt). apply runs_ret.
  - runs_step (by eapply runs_attempt). apply runs_ret.
Qed.

(** When the next tick equals the last one, the status update refuses and
    writes nothing. *)
Theorem processStatus_same_tick m last next :
  pb.ProcessedTick_TickNumber last = pb.ProcessedTick_TickNumber next →
  runs m (processStatus last next)
    (Err (WrapError "processing skipped ticks"
            (ErrorString "Next tick should not be equal to last tick"))) m.
Proof.
  intros E. unfold processStatus, processSkippedTicks. rewrite E, Z.sub_diag.
  apply runs_bind_err. eapply runs_map_err; [apply runs_throw|done].
Qed.
End Status.

Section Pass.
Context {P : Pebble} {PL : PebbleLaws P} {PR : Protobuf} {PRL : ProtobufLaws PR}.
Context {R : GoRuntime} {K : K12} {N : NodeConnector}.
Context (arbitratorPubKey : bytes) (disableStatusAddon : bool).

Lemma step_valid a info : archive_ok a → archive_valid a → node_sane info a →
  pb.ProcessedTick_TickNumber (next_tick info (last_tick info a)) ≤ types.TickInfo_Tick info →
  valid_tick (next_tick info (last_tick info a)) ∧
  0 ≤ pb.ProcessedTick_TickNumber (last_tick info a) <
      pb.ProcessedTick_TickNumber (next_tick info (last_tick info a)).
Proof.
  intros Hok Hval Hsane Htick. destruct (next_tick_after info a Hsane Hok) as (H1 & _ & H3).
  pose proof (last_number_nonneg a Hok) as H0. rewrite <-(last_tick_number info) in H0.
  destruct Hsane as (_ & Hi & _). unfold valid_tick, is_uint32. lia.
Qed.

Lemma getNextProcessingTick_next info a : archive_ok a → node_sane info a →
  getNextProcessingTick (last_tick info a) info = Ok (next_tick info (last_tick info a)).
Proof.
  intros Hok Hsane. unfold getNextProcessingTick, next_tick. case_bool_decide; [done|].
  rewrite uint32_small; [done|]. rewrite last_tick_number.
  pose proof (last_number_nonneg a Hok). destruct (ar_last a) as [pt|] eqn:E.
  - apply (ok_last _ Hok) in E as E'. unfold last_number in *. rewrite E in *. lia.
  - unfold last_number. rewrite E. lia.
Qed.

(** What a tick's validation and storing write does not disturb what the
    database represents. *)
Lemma tick_writes_represents {A} (c : M DB A) n db a :
  writes_only (on (ValidatorProofs.own_keys (ValidatorProofs.tick_records n)
    ValidatorProofs.shared_kinds)) c →
  healthy db → represents (contents db) a →
  healthy (c db).2 ∧ represents (contents (c db).2) a.
Proof.
  intros Hw Hh Hrep. split; [destruct (Hw db) as (Hh' & _); by auto|].
  eapply represents_agree; [|exact Hrep]. intros k x Hk Hx.
  eapply ValidatorProofs.tick_writes_unchanged; [exact Hw|].
  left. exists x. unfold bookkeeping_kind in Hx. set_solver.
Qed.

Lemma ValidateTick_represents client i n db a :
  healthy db → represents (contents db) a →
  let '(_, db') := Validator.ValidateTick client arbitratorPubKey i n disableStatusAddon db in
  healthy db' ∧ represents (contents db') a.
Proof.
  intros Hh Hrep. pose proof (tick_writes_represents _ n db a
    (ValidatorProofs.writes_ValidateTick client arbitratorPubKey i n disableStatusAddon) Hh Hrep) as H.
  by destruct (Validator.ValidateTick _ _ _ _ _ db).
Qed.

Lemma mwrap_run {A} msg (c : M DB A) db :
  mwrap msg c db = (map_err (WrapError msg) (c db).1, (c db).2).
Proof. unfold mwrap, mmap_err. by destruct (c db). Qed.

(** Reading the last tick leaves the database as it is. *)
Lemma getLastProcessedTick_reads info db : (getLastProcessedTick info db).2 = db.
Proof.
  assert (Hr : (GetLastProcessedTick db).2 = db).
  { unfold GetLastProcessedTick, mbind, M_bind, mmap_err, pebble_Get.
    by destruct (db_Get db lastProcessedTickKey). }
  unfold getLastProcessedTick, mattempt, mbind, M_bind.
  destruct (GetLastProcessedTick db) as [o db']. simpl in Hr. subst db'.
  destruct o as [a|e|]; simpl; [done| |done]. by destruct (errors_Is e ErrNotFound).
Qed.

Lemma getLastProcessedTick_archive db a info : healthy db → represents (contents db) a →
  getLastProcessedTick info db = (Ok (last_tick info a), db).
Proof.
  intros Hh Hrep. destruct (runs_getLastProcessedTick _ a info Hrep db Hh eq_refl) as (db1 & E & _).
  pose proof (getLastProcessedTick_reads info db) as Hr. rewrite E in *. simpl in Hr. by subst.
Qed.

(** The course of a pass: it ends before validation, or validation fails, or
    the status update follows and succeeds. *)
Lemma process_cases client db a :
  healthy db → represents (contents db) a → archive_valid a → archive_ok a →
  (∀ info, Client_GetTickInfo client = Ok info → node_sane info a) →
  let '(o, db') := process_with arbitratorPubKey disableStatusAddon client db in
  (healthy db' ∧ contents db' = contents db ∧ (∀ u, o ≠ Ok u) ∧
   ∀ info, Client_GetTickInfo client = Ok info → types.TickInfo_Tick info <
     pb.ProcessedTick_TickNumber (next_tick info (last_tick info a))) ∨
  ∃ info, Client_GetTickInfo client = Ok info ∧
    let last := last_tick info a in let next := next_tick info last in
    pb.ProcessedTick_TickNumber next ≤ types.TickInfo_Tick info ∧
    ∃ o2 db2,
      Validator.ValidateTick client arbitratorPubKey (types.TickInfo_InitialTick info)
        (pb.ProcessedTick_TickNumber next) disableStatusAddon db = (o2, db2) ∧
      healthy db2 ∧ represents (contents db2) a ∧
      ((∀ u, o2 ≠ Ok u) ∧ (∀ u, o ≠ Ok u) ∧ db' = db2 ∨
       o2 = Ok tt ∧ o = Ok tt ∧ processStatus last next db2 = (Ok tt, db') ∧ healthy db' ∧
       let a' := update_status last next a in
       step a a' ∧ represents (contents db') a' ∧ archive_valid a').
Proof.
  intros Hh Hrep Hval Hok Hinfo. unfold process_with, mbind at 1, M_bind at 1, lift at 1.
  destruct (Client_GetTickInfo client) as [info|e|]; [|by left; split_and!..]. ok_step.
  specialize (Hinfo info eq_refl). unfold mbind at 1, M_bind at 1. rewrite mwrap_run.
  rewrite (getLastProcessedTick_archive db a info Hh Hrep). cbn [fst snd map_err].
  unfold mbind at 1, M_bind at 1, lift at 1. rewrite getNextProcessingTick_next by done.
  ok_step. case_bool_decide as Htick.
  { left. split_and!; [done|done|discriminate|]. intros info' [= <-]. lia. }
  assert (Hle : pb.ProcessedTick_TickNumber (next_tick info (last_tick info a)) ≤
                types.TickInfo_Tick info) by lia.
  destruct (step_valid a info Hok Hval Hinfo Hle) as [Hvalid Hlt].
  set (last := last_tick info a) in *. set (next := next_tick info last) in *.
  unfold mbind, M_bind. rewrite mwrap_run.
  pose proof (ValidateTick_represents client (types.TickInfo_InitialTick info)
    (pb.ProcessedTick_TickNumber next) db a Hh Hrep) as Hv.
  destruct (Validator.ValidateTick _ _ _ _ _ _) as [o db2] eqn:Ev. destruct Hv as [Hh2 Hrep2].
  destruct o as [[]|e|]; cbn [fst snd map_err].
  2-3: right; exists info; do 2 (split; [done|]); eexists _, db2; split_and!; try done; left; by split_and!.
  rewrite mwrap_run. destruct (runs_processStatus _ a last next Hrep2 Hval Hvalid Hlt)
    as (m' & Hrun & Hrep' & Hval').
  destruct (Hrun db2 Hh2 eq_refl) as (db3 & E & Hh3 & <-). rewrite E. cbn [fst snd map_err].
  right. exists info. do 2 (split; [done|]). exists (Ok tt), db2. split_and!; try done.
  right. split_and!; done || by apply step_tick.
Qed.

Lemma process_step client db a :
  healthy db → represents (contents db) a → archive_valid a → archive_ok a →
  (∀ info, Client_GetTickInfo client = Ok info → node_sane info a) →
  let '(o, db') := process_with arbitratorPubKey disableStatusAddon client db in
  healthy db' ∧
  match o with
  | Ok _ => ∃ info, Client_GetTickInfo client = Ok info ∧
      pb.ProcessedTick_TickNumber (next_tick info (last_tick info a)) ≤ types.TickInfo_Tick info ∧
      let a' := update_status (last_tick info a) (next_tick info (last_tick info a)) a in
      step a a' ∧ represents (contents db') a' ∧ archive_valid a'
  | _ => represents (contents db') a
  end.
Proof.
  intros Hh Hrep Hval Hok Hinfo. pose proof (process_cases client db a Hh Hrep Hval Hok Hinfo) as H.
  destruct (process_with _ _ client db) as [o db'].
  destruct H as [(Hh' & Hc & Ho & _)|(info & Hi & Hle & o2 & db2 & _ & Hh2 & Hrep2 & H)].
  - split; [done|]. rewrite Hc. destruct o as [u|e|]; [|done..]. by destruct (Ho u).
  - destruct H as [(_ & Ho & ->)|(_ & -> & _ & Hh' & H)].
    + split; [done|]. destruct o as [u|e|]; [|done..]. by destruct (Ho u).
    + split; [done|]. by exists info.
Qed.

(** C2: On a database whose operations do not fail, one pass against a node that
    reports sane tick information refines the abstract archive: if it succeeds, the
    database represents the archive after one step; if it fails or panics, which on
    such a database it does before the status update (at a call to the node, a check or a
    conversion), the database represents the archive it represented before.  A write
    that fails is out of scope. *)
Theorem process_refines client db a :
  healthy db → represents (contents db) a → archive_valid a → archive_ok a →
  (∀ info, Client_GetTickInfo client = Ok info → node_sane info a) →
  let '(o, db') := process_with arbitratorPubKey disableStatusAddon client db in
  healthy db' ∧
  match o with
  | Ok _ => ∃ info, Client_GetTickInfo client = Ok info ∧
      pb.ProcessedTick_TickNumber (next_tick info (last_tick info a)) ≤ types.TickInfo_Tick info ∧
      let a' := update_status (last_tick info a) (next_tick info (last_tick info a)) a in
      step a a' ∧ represents (contents db') a' ∧ archive_valid a'
  | _ => represents (contents db') a
  end.
Proof. apply process_step. Qed.

(** ** The processing loop *)

(** The tick information some node answers with during the passes. *)
Definition report (passes : list (outcome Client)) (info : types.TickInfo) : Prop :=
  ∃ client, Ok client ∈ passes ∧ Client_GetTickInfo client = Ok info.

(** Reports in range, and ordered: an epoch that starts later is not an
    earlier epoch. *)
Record reports_consistent (passes : list (outcome Client)) : Prop := {
  reports_range info : report passes info →
    0 ≤ types.TickInfo_InitialTick info < 2 ^ 32 ∧ 0 ≤ types.TickInfo_Tick info < 2 ^ 32 - 1 ∧
    0 ≤ types.TickInfo_Epoch info < 2 ^ 16;
  reports_ordered i j : report passes i → report passes j →
    types.TickInfo_InitialTick i < types.TickInfo_InitialTick j →
    types.TickInfo_Epoch i ≤ types.TickInfo_Epoch j
}.

(** The last tick's epoch was reported, with an initial tick not after it. *)
Definition last_reported (passes : list (outcome Client)) (a : archive) : Prop :=
  ∀ pt, ar_last a = Some pt → ∃ info, report passes info ∧
    pb.ProcessedTick_Epoch pt = types.TickInfo_Epoch info ∧
    types.TickInfo_InitialTick info ≤ pb.ProcessedTick_TickNumber pt.

Lemma reported_sane passes a info : reports_consistent passes → last_reported passes a →
  report passes info → node_sane info a.
Proof.
  intros Hc Hl Hr. destruct (reports_range _ Hc info Hr) as (H1 & H2 & H3).
  split; [done|]. split; [done|]. split; [done|].
  unfold last_tick. destruct (ar_last a) as [pt|] eqn:E; simpl; [|lia].
  destruct (Hl pt E) as (i & Hi & -> & Hle). intros Hgt.
  apply (reports_ordered _ Hc); [done..|lia].
Qed.

Lemma update_status_last l n a : ar_last (update_status l n a) = Some n.
Proof. unfold update_status. by case_bool_decide. Qed.

Lemma last_reported_step passes a info : last_reported passes a → report passes info →
  last_reported passes
    (update_status (last_tick info a) (next_tick info (last_tick info a)) a).
Proof.
  intros Hl Hr pt. rewrite update_status_last. intros [= <-].
  unfold next_tick. case_bool_decide as Hgt; simpl; [exists info; split_and!; done|].
  unfold last_tick in *. destruct (ar_last a) as [pt|] eqn:E; simpl in *.
  - destruct (Hl pt E) as (i & Hi & He & Hle). exists i. split_and!; [done..|lia].
  - exists info. split_and!; [done..|lia].
Qed.

(** A relation between contents and archive that every pass keeps, whatever
    its outcome. *)
Definition pass_keeps (I : gmap bytes bytes → archive → Prop) (client : Client) : Prop :=
  ∀ db a, healthy db → represents (contents db) a → archive_valid a → archive_ok a →
  (∀ info, Client_GetTickInfo client = Ok info → node_sane info a) → I (contents db) a →
  let '(o, db') := process_with arbitratorPubKey disableStatusAddon client db in
  match o with
  | Ok _ => ∀ info, Client_GetTickInfo client = Ok info →
      I (contents db') (update_status (last_tick info a) (next_tick info (last_tick info a)) a)
  | _ => I (contents db') a
  end.

Lemma run_invariant I all passes db a :
  (∀ client, Ok client ∈ all → pass_keeps I client) →
  (∀ x, x ∈ passes → x ∈ all) → reports_consistent all →
  healthy db → represents (contents db) a → archive_valid a → reachable a →
  last_reported all a → I (contents db) a →
  let db' := run arbitratorPubKey disableStatusAddon passes db in
  healthy db' ∧ ∃ a', reachable a' ∧ rtc step a a' ∧ archive_valid a' ∧
    represents (contents db') a' ∧ I (contents db') a'.
Proof.
  intros Hkeeps Hsub Hcon. revert db a. induction passes as [|get passes IH];
    intros db a Hh Hrep Hval Hreach Hlast HI; simpl.
  { split; [done|]. exists a. split_and!; done. }
  assert (Hsub' : ∀ x, x ∈ passes → x ∈ all) by (intros; apply Hsub; by right).
  unfold processOneByOne. destruct get as [client|e|].
  - assert (Hin : Ok client ∈ all) by (apply Hsub; by left).
    assert (Hr : ∀ info, Client_GetTickInfo client = Ok info → report all info)
      by (intros info Hi; by exists client).
    pose proof (archive_ok_reachable a Hreach) as Hok.
    assert (Hsane : ∀ info, Client_GetTickInfo client = Ok info → node_sane info a)
      by (intros info Hi; exact (reported_sane all a info Hcon Hlast (Hr info Hi))).
    pose proof (process_step client db a Hh Hrep Hval Hok Hsane) as Href.
    pose proof (Hkeeps client Hin db a Hh Hrep Hval Hok Hsane HI) as HI'.
    destruct (process_with _ _ client db) as [o db']. destruct Href as [Hh' Href].
    destruct o as [u|e|].
    + destruct Href as (info & Hi & _ & Hstep & Hrep' & Hval').
      destruct (IH Hsub' db' _ Hh' Hrep' Hval') as (H0 & a' & H1 & H2 & H3 & H4 & H5).
      * by eapply rtc_r.
      * apply last_reported_step; [done|by apply Hr].
      * by apply HI'.
      * split; [done|]. exists a'. split; [done|]. split; [by eapply rtc_l|done].
    + by apply (IH Hsub' db').
    + split; [done|]. exists a. split_and!; done.
  - by apply IH.
  - split; [done|]. exists a. split_and!; done.
Qed.

Lemma empty_archive_valid : archive_valid empty_archive.
Proof. split; simpl; intros *; rewrite ?lookup_empty; done. Qed.

(** C1: On a database that was empty at first and whose operations do not fail,
    whatever nodes the loop is handed and however their passes end on the nodes' side
    (an error or a panic of any call to a node, a check that does not pass), as long
    as the nodes' tick reports are in range and consistent with each other, the
    database always represents a well-formed archive: the processed intervals are
    non-empty, ordered and disjoint, every tick up to the last one is in exactly one of
    the processed and skipped sets, and the per-epoch table agrees with the intervals.
    (A database that fails in the middle of a status update is out of scope, and there
    the claim is false: the repeated pass appends the same interval again.) *)
Theorem run_archive_ok passes db :
  healthy db → contents db = ∅ → reports_consistent passes →
  ∃ a, represents (contents (run arbitratorPubKey disableStatusAddon passes db)) a ∧
       archive_valid a ∧ reachable a ∧ archive_ok a.
Proof.
  intros Hh He Hcon.
  destruct (run_invariant (λ _ _, True) passes passes db empty_archive)
    as (_ & a & Hr & _ & Hv & Hrep & _).
  - intros client _ db' a _ _ _ _ _ _. by destruct (process_with _ _ client db') as [[] ?].
  - done.
  - done.
  - done.
  - rewrite He. apply represents_empty.
  - apply empty_archive_valid.
  - apply rtc_refl.
  - by intros pt Hpt.
  - done.
  - exists a. split_and!; try done. by apply archive_ok_reachable.
Qed.
End Pass.
