(* ===== verification/Main.v ===== *)
(** * main.go: from the configuration to the processing loop

    [run] of main.go opens the database, brings the empty-tick tables up to
    date, connects the pool, starts the servers and runs the processor.  The
    options it parses are the record [config]; what the pool and the
    configuration library give it are arguments. *)

From stdpp Require Import sorting base strings numbers pretty gmap list.
From S2P Require Import Prelude GoLib Types Platform Keys Store.
From S2P Require Tick Processor.

Local Open Scope Z_scope.

(** The options the modelled parts depend on. *)
Record config := MkConfig {
  cfg_DisableTransactionStatusAddon : bool;
  cfg_ArbitratorIdentity : string;
  cfg_ResetEmptyTickKeys : bool
}.

Section Main.
Context {P : Pebble} {PR : Protobuf} {R : GoRuntime} {K : K12} {N : NodeConnector}.

(** [proc.Start()] on the clients the pool hands out. *)
Definition start_processor (arbitratorPubKey : bytes) (cfg : config)
    (passes : list (outcome Client)) : M DB unit := λ db,
  (Ok tt, Processor.run arbitratorPubKey (cfg_DisableTransactionStatusAddon cfg) passes db).

(** From the opened database on.  [pool] is the result of connecting the
    pool: the clients it will hand out, one per pass; the servers only read
    the database. *)
Definition run_main (cfg : config) (pool : outcome (list (outcome Client))) : M DB unit :=
  _ ← Tick.prepare_empty_ticks (cfg_ResetEmptyTickKeys cfg);
  passes ← lift (wrap "creating qubic pool" pool);
  arbitratorPubKey ← lift (wrap "getting arbitrator public key from"
    (Identity_ToPubKey (cfg_ArbitratorIdentity cfg) false));
  start_processor arbitratorPubKey cfg passes.
End Main.
