(* ===== verification/Typed.v ===== *)
(** * The type of what the database holds

    [typed_entry k v]: the value [v] has the type the program gives to key
    [k], a message that decodes, a four-byte count, a list of four-byte tick
    numbers or a 32-byte digest.  Everything the program writes is typed, on
    any database and whatever the nodes answer, and the only keys it deletes
    are those of the empty ticks; so a typed database stays typed, nothing that
    was archived is lost, and what reads a typed database finds what it
    expects. *)

From stdpp Require Import sorting base strings numbers pretty gmap list.
From S2P Require Import Prelude GoLib Types Platform Keys Store StoreLogic Frame Utils Paging.
From S2P Require Computors Quorum Tick Tx TxStatus Chain Validator Processor Main.

Local Open Scope Z_scope.

Section Typed.
Context {P : Pebble} {PL : PebbleLaws P} {PR : Protobuf} {PRL : ProtobufLaws PR}.

Definition decodes (A : Type) `{ProtoMsg A} (v : bytes) : Prop := ∃ a : A, Unmarshal v = Ok a.

Inductive typed_entry : bytes → bytes → Prop :=
| typed_TickData n v : decodes pb.TickData v → typed_entry (tickDataKey n) v
| typed_QuorumData n v : decodes pb.QuorumTickDataStored v → typed_entry (quorumTickDataKey n) v
| typed_Computors e v : decodes pb.Computors v → typed_entry (computorsKey e) v
  (** under its own identifier, and so for statuses and transfers *)
| typed_Transaction tx v : Unmarshal v = Ok tx →
    typed_entry ([Keys.Transaction] ++ string_bytes (pb.Transaction_TxId tx)) v
| typed_LastProcessedTick v : decodes pb.ProcessedTick v → typed_entry lastProcessedTickKey v
| typed_LastProcessedTickPerEpoch e n :
    typed_entry (lastProcessedTickKeyPerEpoch e) (LittleEndian_PutUint32 n)
| typed_SkippedTicks v :
    decodes pb.SkippedTicksIntervalList v → typed_entry skippedTicksIntervalKey v
| typed_Transfers p v : Unmarshal v = Ok p →
    typed_entry (identityTransferTransactionsPerTickKey
      (pb.TransferTransactionsPerTick_Identity p) (pb.TransferTransactionsPerTick_TickNumber p)) v
| typed_ChainDigest n v : is_array 32 v → typed_entry (chainDigestKey n) v
| typed_StoreDigest n v : is_array 32 v → typed_entry (storeDigestKey n) v
| typed_Intervals e v : decodes pb.ProcessedTickIntervalsPerEpoch v →
    typed_entry (processedTickIntervalsPerEpochKey e) v
| typed_TickTransactionsStatus n v : decodes pb.TickTransactionsStatus v →
    typed_entry (tickTxStatusKey n) v
| typed_TransactionStatus st v : Unmarshal v = Ok st →
    typed_entry (txStatusKey (pb.TransactionStatus_TxId st)) v
| typed_EmptyTicks e n : typed_entry (emptyTicksPerEpochKey e) (LittleEndian_PutUint32 n)
| typed_EmptyTickList e l :
    typed_entry (emptyTickListPerEpochKey e) (concat (LittleEndian_PutUint32 <$> l))
  (** never the message with a nil map *)
| typed_LastTickQuorumData e v m :
    Unmarshal v = Ok (pb.MkLastTickQuorumDataPerEpochIntervals (Some m)) →
    typed_entry (lastTickQuorumDataPerEpochIntervalKey e) v
| typed_TargetSignature e n :
    typed_entry (targetTickVoteSignatureKey e) (LittleEndian_PutUint32 n).

Definition well_typed (m : gmap bytes bytes) : Prop := map_Forall typed_entry m.

(** The only keys that are ever deleted. *)
Definition erasable (k : bytes) : Prop :=
  key_kind k = Some EmptyTicksPerEpoch ∨ key_kind k = Some EmptyTickListPerEpoch.

Definition typed_write (k : bytes) (o : option bytes) : Prop :=
  match o with Some v => typed_entry k v | None => erasable k end.

(** ** What follows from writing typed values only *)
Lemma typed_writes_preserve {A} (c : M DB A) db :
  writes_only typed_write c → well_typed (contents db) → well_typed (contents (c db).2).
Proof.
  intros Hc Ht k v Hk. destruct (Hc db) as (_ & Hw & _).
  destruct (Hw k) as [E|H]; [apply Ht; congruence|]. by rewrite Hk in H.
Qed.

Lemma typed_writes_keep {A} (c : M DB A) db k :
  writes_only typed_write c → ¬ erasable k → is_Some (contents db !! k) →
  is_Some (contents (c db).2 !! k).
Proof.
  intros Hc Hk Hs. destruct (Hc db) as (_ & Hw & _).
  destruct (Hw k) as [->|H]; [done|]. destruct (contents (c db).2 !! k); [by eauto|done].
Qed.

(** What was encoded is decoded as it was. *)
Lemma Marshal_Unmarshal {A} {PM : ProtoMsg A} {PA : ProtoLaws A} (a : A) b :
  Marshal a = Ok b → Unmarshal b = Ok (proto_norm a).
Proof. intros H. apply Unmarshal_Marshal; [by eapply Marshal_refuses|done]. Qed.

Lemma Marshal_decodes {A} {PM : ProtoMsg A} {PA : ProtoLaws A} (a : A) b :
  Marshal a = Ok b → decodes A b.
Proof. intros H. eexists. by apply Marshal_Unmarshal. Qed.

Lemma Marshal_nil_decodes {A} {PM : ProtoMsg A} {PA : ProtoLaws A} b :
  Marshal_nil (A := A) = Ok b → decodes A b.
Proof.
  rewrite Marshal_nil_ok. intros [= <-]. apply (Marshal_decodes proto_zero). apply Marshal_zero.
Qed.
End Typed.

Create HintDb typed.
#[export] Hint Extern 1 (decodes _ _) =>
  first [eapply Marshal_decodes; eassumption | eapply Marshal_nil_decodes; eassumption] : typed.
#[export] Hint Constructors typed_entry : typed.

(** Run the structure, then type each write. *)
Ltac typed_steps := frame_steps; simpl typed_write; eauto with typed.

Section Writes.
Context {P : Pebble} {PL : PebbleLaws P} {PR : Protobuf} {PRL : ProtobufLaws PR}.
Context {R : GoRuntime} {K : K12} {KL : K12Laws K} {N : NodeConnector}.

Abbreviation typed := (writes_only typed_write).

(** ** The store *)
Lemma typed_SetTickData n td : typed (SetTickData n td).
Proof. unfold SetTickData. destruct td; typed_steps. Qed.

Lemma typed_SetQuorumTickData n q : typed (SetQuorumTickData n q).
Proof. unfold SetQuorumTickData. typed_steps. Qed.

Lemma typed_SetComputors e c : typed (SetComputors e c).
Proof. unfold SetComputors. typed_steps. Qed.

Lemma typed_SetProcessedTickIntervalPerEpoch e l : typed (SetProcessedTickIntervalPerEpoch e l).
Proof. unfold SetProcessedTickIntervalPerEpoch. typed_steps. Qed.

Lemma typed_AppendProcessedTickInterval e i : typed (AppendProcessedTickInterval e i).
Proof.
  unfold AppendProcessedTickInterval, getProcessedTickIntervalsPerEpoch,
    SetProcessedTickIntervalPerEpoch. typed_steps.
Qed.

Lemma typed_SetSkippedTicksInterval s : typed (SetSkippedTicksInterval s).
Proof. unfold SetSkippedTicksInterval, GetSkippedTicksInterval. typed_steps. Qed.

Lemma typed_SetLastProcessedTick pt : typed (SetLastProcessedTick pt).
Proof.
  unfold SetLastProcessedTick, getProcessedTickIntervalsPerEpoch, SetProcessedTickIntervalPerEpoch.
  eapply frame_bind; [apply frame_Batch_Set; [apply batch_owned_new|simpl; eauto with typed]|].
  intros b Hb. apply writes_bind_lift. intros s Hs.
  eapply frame_bind; [apply frame_Batch_Set; [done|simpl; eauto with typed]|].
  intros b' Hb'. apply writes_bind; [by apply writes_wrap, writes_Commit|]. intros _. typed_steps.
Qed.

Lemma typed_SetTransactions txs : typed (SetTransactions txs).
Proof.
  unfold SetTransactions. eapply frame_bind.
  - apply frame_foldM; [apply batch_owned_new|]. intros b tx _ Hb. unfold SetTransactions_step.
    apply frame_bind_lift. intros key [= <-]. apply frame_bind_lift. intros s Hs.
    apply frame_Batch_Set; [done|]. apply typed_Transaction.
    rewrite <-(Transaction_norm tx). by apply Marshal_Unmarshal.
  - intros b Hb. by apply writes_wrap, writes_Commit.
Qed.

Lemma typed_SetTickTransactionsStatus n tts : typed (SetTickTransactionsStatus n tts).
Proof.
  unfold SetTickTransactionsStatus. apply frame_bind_lift. intros s Hs. eapply frame_bind.
  { apply frame_Batch_Set; [apply batch_owned_new|]. simpl.
    apply typed_TickTransactionsStatus. eauto with typed. }
  intros b Hb. eapply frame_bind.
  - apply frame_foldM; [exact Hb|]. intros b' tx _ Hb'. unfold SetTickTransactionsStatus_step.
    apply frame_bind_lift. intros s' Hs'.
    apply frame_Batch_Set; [done|]. apply typed_TransactionStatus.
    rewrite <-(TransactionStatus_norm tx). by apply Marshal_Unmarshal.
  - intros b' Hb'. by apply writes_wrap, writes_Commit.
Qed.

Lemma typed_TxStatus_Store n tts : typed (TxStatus.Store n tts).
Proof. apply writes_wrap, typed_SetTickTransactionsStatus. Qed.

(** What is stored has an interval in its map, so it is not decoded as nil. *)
Lemma typed_SetQuorumDataForCurrentEpochInterval e q :
  typed (SetQuorumDataForCurrentEpochInterval e q).
Proof.
  unfold SetQuorumDataForCurrentEpochInterval, getProcessedTickIntervalsPerEpoch,
    GetLastTickQuorumDataListPerEpochInterval, SetLastTickQuorumDataPerEpochIntervals.
  frame_steps. simpl.
  match goal with H : Marshal (pb.MkLastTickQuorumDataPerEpochIntervals (Some ?m)) = Ok _ |- _ =>
    apply (typed_LastTickQuorumData _ _ m);
    rewrite (Marshal_Unmarshal _ _ H) end.
  rewrite LastTickQuorumDataPerEpochIntervals_norm. rewrite decide_False; [done|].
  apply insert_non_empty.
Qed.

(** ** The validator *)
Lemma typed_Quorum_Store n votes : typed (Quorum.Store n votes).
Proof.
  unfold Quorum.Store. frame_steps.
  - apply typed_SetQuorumTickData.
  - apply typed_SetQuorumDataForCurrentEpochInterval.
Qed.

Lemma typed_Tick_Store n d : typed (Tick.Store n d).
Proof. unfold Tick.Store. frame_steps. apply typed_SetTickData. Qed.

Lemma typed_Tx_Store n txs : typed (Tx.Store n txs).
Proof.
  unfold Tx.Store, Tx.storeTickTransactions, Tx.storeTransferTransactions,
    PutTransferTransactionsPerTick.
  repeat (apply typed_SetTransactions || frame_step).
  match goal with H : Marshal ?p = Ok _ |- _ => apply (typed_Transfers p) end.
  rewrite <-(TransferTransactionsPerTick_norm _). by apply Marshal_Unmarshal.
Qed.

Lemma typed_ComputeAndSave i n v : typed (Chain.ComputeAndSave i n v).
Proof.
  unfold Chain.ComputeAndSave, Chain.getPrevChainDigest, GetChainDigest, PutChainDigest.
  frame_steps; simpl; apply typed_ChainDigest; unfold Chain.computeCurrentTickDigest,
    Chain.Chain_Digest in *; inv_ok; eauto using K12Hash_array.
Qed.

Lemma typed_ComputeStoreAndSave i n txs s : typed (Chain.ComputeStoreAndSave i n txs s).
Proof.
  unfold Chain.ComputeStoreAndSave, Chain.getPrevStoreDigest, GetStoreDigest, PutStoreDigest.
  frame_steps; simpl; apply typed_StoreDigest; unfold Chain.computeCurrentTickStoreDigest,
    Chain.Store_Digest in *; inv_ok; eauto using K12Hash_array.
Qed.

Lemma typed_record_empty_tick e n : typed (Validator.record_empty_tick e n).
Proof.
  unfold Validator.record_empty_tick, GetEmptyTicksForEpoch, SetEmptyTicksForEpoch,
    AppendEmptyTickToEmptyTickListPerEpoch, GetEmptyTickListPerEpoch, SetEmptyTickListPerEpoch.
  typed_steps. apply (typed_EmptyTickList e []).
Qed.

Lemma typed_store_tick i n c : typed (Validator.store_tick i n c).
Proof.
  unfold Validator.store_tick, TxStatus.Store.
  repeat first [apply typed_Quorum_Store | apply typed_Tick_Store | apply typed_Tx_Store
    | apply typed_SetTickTransactionsStatus | apply typed_ComputeAndSave
    | apply typed_ComputeStoreAndSave | apply typed_record_empty_tick | frame_step].
Qed.

Lemma typed_check qu arb n d : typed (Validator.check qu arb n d).
Proof.
  unfold Validator.check, Validator.get_computors, Computors.Get, GetComputors, Computors.Store,
    SetComputors, Validator.get_targetTickVoteSignature, GetTargetTickVoteSignature,
    SetTargetTickVoteSignature.
  typed_steps.
Qed.

Lemma typed_ValidateTick qu arb i n d : typed (Validator.ValidateTick qu arb i n d).
Proof.
  unfold Validator.ValidateTick. apply writes_bind; [apply typed_check|].
  intros c. apply typed_store_tick.
Qed.

(** ** The processor and the start-up *)
Lemma typed_processStatus last next : typed (Processor.processStatus last next).
Proof.
  unfold Processor.processStatus, Processor.processSkippedTicks.
  repeat first [apply typed_AppendProcessedTickInterval | apply typed_SetSkippedTicksInterval
    | apply typed_SetLastProcessedTick | frame_step].
Qed.

Lemma typed_process_with arb d client : typed (Processor.process_with arb d client).
Proof.
  unfold Processor.process_with, Processor.getLastProcessedTick, GetLastProcessedTick.
  repeat first [apply typed_ValidateTick | apply typed_processStatus | frame_step].
Qed.

Lemma typed_CalculateEmptyTicks_epochs epochs : typed (Tick.CalculateEmptyTicks_epochs epochs).
Proof.
  induction epochs as [|e epochs IH]; simpl; [apply writes_ret|].
  unfold GetEmptyTicksForEpoch, Tick.CalculateEmptyTicksForEpoch, GetProcessedTickIntervals,
    SetEmptyTicksForEpoch, SetEmptyTickListPerEpoch, Tick.CalculateEmptyTicks_interval,
    Tick.CalculateEmptyTicks_tick, GetTickData.
  repeat first [exact IH | frame_step]; simpl; eauto with typed.
Qed.

Lemma typed_prepare_empty_ticks reset : typed (Tick.prepare_empty_ticks reset).
Proof.
  unfold Tick.prepare_empty_ticks, Tick.ResetEmptyTicksForAllEpochs,
    Tick.CalculateEmptyTicksForAllEpochs, GetLastProcessedTicksPerEpoch,
    DeleteEmptyTicksKeyForEpoch, DeleteEmptyTickListKeyForEpoch.
  repeat first [apply typed_CalculateEmptyTicks_epochs | frame_step]; simpl; unfold erasable; auto.
Qed.
End Writes.

Section Lifetime.
Context {P : Pebble} {PL : PebbleLaws P} {PR : Protobuf} {PRL : ProtobufLaws PR}.
Context {R : GoRuntime} {K : K12} {KL : K12Laws K} {N : NodeConnector}.

(** The loop writes typed values only: its passes do, one after the other. *)
Lemma typed_start_processor arb cfg passes :
  writes_only typed_write (Main.start_processor arb cfg passes).
Proof.
  unfold Main.start_processor. set (d := Main.cfg_DisableTransactionStatusAddon cfg).
  induction passes as [|get passes IH]; [apply (writes_ret _ tt)|].
  intros db. cbn [Processor.run]. unfold Processor.processOneByOne.
  destruct get as [client|e|]; [|apply IH|by split; [|split; [left|]]].
  pose proof (typed_process_with arb d client db) as (Hh & Hw & _).
  destruct (Processor.process_with arb d client db) as [o db1]. simpl in Hh, Hw.
  assert (Hrest : ∀ db2, (healthy db1 → healthy db2) →
    (∀ k, contents db2 !! k = contents db1 !! k ∨ typed_write k (contents db2 !! k)) →
    (healthy db → healthy db2) ∧
    (∀ k, contents db2 !! k = contents db !! k ∨ typed_write k (contents db2 !! k))).
  { intros db2 Hh2 Hw2. split; [by auto|]. intros k.
    destruct (Hw2 k) as [->|]; [apply Hw|by right]. }
  destruct o as [u|e|]; simpl.
  - destruct (IH db1) as (Hh2 & Hw2 & _). destruct (Hrest _ Hh2 Hw2). by split_and!.
  - destruct (IH db1) as (Hh2 & Hw2 & _). destruct (Hrest _ Hh2 Hw2). by split_and!.
  - by split_and!.
Qed.

Lemma run_typed arb dis passes db :
  well_typed (contents db) → well_typed (contents (Processor.run arb dis passes db)).
Proof.
  intros Ht. pose proof (typed_writes_preserve _ db
    (typed_start_processor arb (Main.MkConfig dis "" false) passes) Ht) as H. exact H.
Qed.

Lemma typed_run_main cfg pool : writes_only typed_write (Main.run_main cfg pool).
Proof.
  unfold Main.run_main. apply writes_bind; [apply typed_prepare_empty_ticks|]. intros _.
  frame_steps. apply typed_start_processor.
Qed.

(** C21: Type invariant of the database: from a database whose every value
    has the type of its key, an empty one for instance, the archiver only ever
    reaches such databases: whatever nodes it talks to, whatever they answer,
    however passes end, also when operations of the database fail. *)
Theorem run_main_well_typed cfg pool db :
  well_typed (contents db) → well_typed (contents (Main.run_main cfg pool db).2).
Proof. apply typed_writes_preserve, typed_run_main. Qed.

(** C28: Nothing that was archived is lost: a key that is present stays
    present, and a value that is replaced is replaced by one of the key's type,
    through start-up and any sequence of passes; the counts and lists of empty
    ticks, which start-up may reset, are the only exception. *)
Theorem run_main_keeps cfg pool db k v :
  contents db !! k = Some v → ¬ erasable k →
  ∃ v', contents (Main.run_main cfg pool db).2 !! k = Some v' ∧ (v' = v ∨ typed_entry k v').
Proof.
  intros Hk He. destruct (typed_run_main cfg pool db) as (_ & Hw & _).
  destruct (Hw k) as [->|H]; [by eauto|]. destruct (contents (Main.run_main cfg pool db).2 !! k); [by eauto|done].
Qed.
End Lifetime.
