(* ===== verification/Reads.v ===== *)
(** * Reading a typed database

    [yields m c Q]: on every healthy database with contents [m], [c] changes
    nothing and its outcome satisfies [Q].  On typed contents every getter of
    the store finds its value or reports it missing: it neither fails to decode
    nor panics. *)

From stdpp Require Import sorting base strings numbers pretty gmap list.
From S2P Require Import Prelude GoLib Types Platform Keys Store StoreLogic Paging Typed.
From S2P Require Main.

Local Open Scope Z_scope.

Ltac typed_inv H :=
  inversion H; subst;
  try match goal with E : _ = _ :> bytes |- _ => apply (f_equal key_kind) in E; discriminate E end.

Section Yields.
Context {P : Pebble} {PL : PebbleLaws P}.

Definition yields (m : gmap bytes bytes) {A} (c : M DB A) (Q : outcome A → Prop) : Prop :=
  ∃ o, runs m c o m ∧ Q o.

Definition not_panic {A} (o : outcome A) : Prop := o ≠ Panic.

(** The outcome of a getter that reports absence with the error [e]. *)
Definition found_or {A} (e : error) (o : outcome A) : Prop := (∃ a, o = Ok a) ∨ o = Err e.

Definition found {A} (o : outcome A) : Prop := ∃ a, o = Ok a.

Lemma yields_bind m {A B} (c : M DB A) (k : A → M DB B) (Q : outcome A → Prop) S :
  yields m c Q → (∀ a, Q (Ok a) → yields m (k a) S) → (∀ e, Q (Err e) → S (Err e)) →
  (Q Panic → S Panic) → yields m (c ≫= k) S.
Proof.
  intros (o & Hc & Hq) Hk He Hp. destruct o as [a|e|].
  - destruct (Hk a Hq) as (o & Ho & Hs). exists o. split; [by eapply runs_bind|done].
  - exists (Err e). split; [by apply runs_bind_err|by apply He].
  - exists Panic. split; [by apply runs_bind_panic|by apply Hp].
Qed.

Lemma yields_lift m {A} (o : outcome A) (Q : outcome A → Prop) : Q o → yields m (lift o) Q.
Proof. intros H. exists o. split; [apply runs_lift|done]. Qed.

Lemma yields_map_err m f {A} (c : M DB A) (Q S : outcome A → Prop) :
  yields m c Q → (∀ o, Q o → S (map_err f o)) → yields m (mmap_err f c) S.
Proof. intros (o & Hc & Hq) HS. eexists. split; [by eapply runs_map_err|by apply HS]. Qed.

Lemma yields_attempt m {A B} (c : M DB A) (k : A + error → M DB B) (Q : outcome A → Prop) S :
  yields m c Q → (∀ a, Q (Ok a) → yields m (k (inl a)) S) →
  (∀ e, Q (Err e) → yields m (k (inr e)) S) → (Q Panic → S Panic) →
  yields m (mattempt c ≫= k) S.
Proof.
  intros (o & Hc & Hq) Hk He Hp. destruct o as [a|e|].
  - destruct (Hk a Hq) as (o & Ho & Hs). exists o. split; [|done].
    eapply runs_bind; [by eapply runs_attempt|done].
  - destruct (He e Hq) as (o & Ho & Hs). exists o. split; [|done].
    eapply runs_bind; [by eapply runs_attempt|done].
  - exists Panic. split; [|by apply Hp]. apply runs_bind_panic. by eapply runs_attempt.
Qed.

Lemma yields_mono m {A} (c : M DB A) (Q S : outcome A → Prop) :
  yields m c Q → (∀ o, Q o → S o) → yields m c S.
Proof. intros (o & Hc & Hq) HS. exists o. auto. Qed.

Lemma yields_foldM m {A B} (f : B → A → M DB B) acc l :
  (∀ acc x, x ∈ l → yields m (f acc x) not_panic) → yields m (foldM f acc l) not_panic.
Proof.
  revert acc. induction l as [|x l IH]; intros acc Hf; simpl; [by apply yields_lift|].
  eapply yields_bind; [apply Hf; by left| |done|done]. intros. apply IH. intros. apply Hf. by right.
Qed.

Lemma yields_foldM_found m {A B} (f : B → A → M DB B) acc l :
  (∀ acc x, x ∈ l → yields m (f acc x) found) → yields m (foldM f acc l) found.
Proof.
  revert acc. induction l as [|x l IH]; intros acc Hf; simpl; [apply yields_lift; by eexists|].
  eapply yields_bind; [apply Hf; by left| |by intros ? []|by intros []].
  intros. apply IH. intros. apply Hf. by right.
Qed.

Lemma yields_foldM_found_or m {A B} err (f : B → A → M DB B) acc l :
  (∀ acc x, yields m (f acc x) (found_or err)) → yields m (foldM f acc l) (found_or err).
Proof.
  intros Hf. revert acc. induction l as [|x l IH]; intros acc; simpl;
    [apply yields_lift; left; by eexists|].
  eapply yields_bind; [apply Hf|by intros| |by intros [[? [=]]|[=]]].
  intros e [[? [=]]|[= ->]]. by right.
Qed.

Lemma yields_Get m k : yields m (pebble_Get k)
  (λ o, (∃ v, m !! k = Some v ∧ o = Ok v) ∨ o = Err PebbleErrNotFound).
Proof.
  eexists. split; [apply runs_Get|]. destruct (m !! k); [left; by eexists|by right].
Qed.

Lemma yields_NewIter m lo hi : yields m (pebble_NewIter lo hi)
  (λ o, ∃ l, o = Ok l ∧ ∀ k ov, (k, ov) ∈ l → ∃ v, ov = Ok v ∧ m !! k = Some v ∧ in_range lo hi k).
Proof.
  eexists. split; [apply runs_NewIter|]. eexists. split; [done|]. intros k ov Hin.
  apply list_elem_of_fmap in Hin as ([k' v] & [= -> ->] & Hin).
  apply elem_of_iter_entries in Hin as [? ?]. eauto.
Qed.
End Yields.

Section Getters.
Context {P : Pebble} {PL : PebbleLaws P} {PR : Protobuf} {PRL : ProtobufLaws PR}.
Context (m : gmap bytes bytes) (Htyped : well_typed m).

Lemma yields_get_value k msg (T : bytes → Prop) :
  (∀ v, typed_entry k v → T v) →
  yields m (mmap_err (not_found_or msg) (pebble_Get k))
    (λ o, (∃ v, o = Ok v ∧ T v) ∨ o = Err ErrNotFound).
Proof.
  intros HT. eapply yields_map_err; [apply yields_Get|].
  intros o [(v & Hv & ->)| ->]; simpl; [left|by right]. exists v. split; [done|]. by apply HT, Htyped.
Qed.

(** What a getter finds is what is stored. *)
Lemma yields_get_stored {A} {PM : ProtoMsg A} k msg msg' :
  (∀ v, typed_entry k v → decodes A v) →
  yields m (value ← mmap_err (not_found_or msg) (pebble_Get k);
            lift (wrap msg' (Unmarshal (A := A) value)))
    (λ o, (∃ a, o = Ok a ∧ stored m k a) ∨ o = Err ErrNotFound).
Proof.
  intros HT. destruct (m !! k) as [v|] eqn:E.
  - destruct (HT v (Htyped _ _ E)) as [a Ha]. assert (stored m k a) by (by exists v).
    eexists. split; [by apply runs_get_stored|]. left. eauto.
  - eexists. split; [by apply runs_get_missing|]. by right.
Qed.

Lemma yields_get_message {A} {PM : ProtoMsg A} k msg msg' :
  (∀ v, typed_entry k v → decodes A v) →
  yields m (value ← mmap_err (not_found_or msg) (pebble_Get k);
            lift (wrap msg' (Unmarshal (A := A) value))) (found_or ErrNotFound).
Proof.
  intros HT. eapply yields_mono; [by apply yields_get_stored|].
  intros o [(a & -> & _)| ->]; [left; by eexists|by right].
Qed.

Lemma yields_GetTickData n : yields m (GetTickData n) (found_or ErrNotFound).
Proof. apply yields_get_message. intros v Hv. by typed_inv Hv. Qed.

Lemma yields_GetQuorumTickData n : yields m (GetQuorumTickData n) (found_or ErrNotFound).
Proof. apply yields_get_message. intros v Hv. by typed_inv Hv. Qed.

Lemma stored_GetQuorumTickData n : yields m (GetQuorumTickData n)
  (λ o, (∃ q, o = Ok q ∧ stored m (quorumTickDataKey n) q) ∨ o = Err ErrNotFound).
Proof. apply yields_get_stored. intros v Hv. by typed_inv Hv. Qed.

Lemma stored_GetComputors e : yields m (GetComputors e)
  (λ o, (∃ c, o = Ok c ∧ stored m (computorsKey e) c) ∨ o = Err ErrNotFound).
Proof. apply yields_get_stored. intros v Hv. by typed_inv Hv. Qed.

Lemma yields_GetComputors e : yields m (GetComputors e) (found_or ErrNotFound).
Proof. apply yields_get_message. intros v Hv. by typed_inv Hv. Qed.

(** Under an identifier there is a transaction with that identifier. *)
Lemma yields_GetTransaction txID : yields m (GetTransaction txID)
  (λ o, (∃ tx, o = Ok tx ∧ pb.Transaction_TxId tx = txID) ∨ o = Err ErrNotFound).
Proof.
  apply (yields_bind m _ _ (λ o, o = tickTxKey txID)); [by apply yields_lift| |done|done].
  intros key [= ->]. eapply yields_mono; [apply yields_get_stored|]; simpl.
  - intros v Hv. typed_inv Hv. by eexists.
  - intros o [(tx & -> & v & Hv & Htx)| ->]; [left|by right]. exists tx. split; [done|].
    apply Htyped in Hv. typed_inv Hv. simpl in *.
    match goal with H : _ = string_bytes _ |- _ => apply string_bytes_inj in H end. congruence.
Qed.

Lemma yields_GetLastProcessedTick : yields m GetLastProcessedTick (found_or ErrNotFound).
Proof. apply yields_get_message. intros v Hv. by typed_inv Hv. Qed.

Lemma yields_GetSkippedTicksInterval : yields m GetSkippedTicksInterval (found_or ErrNotFound).
Proof. apply yields_get_message. intros v Hv. by typed_inv Hv. Qed.

Lemma yields_GetTickTransactionsStatus n :
  yields m (GetTickTransactionsStatus n) (found_or ErrNotFound).
Proof. apply yields_get_message. intros v Hv. by typed_inv Hv. Qed.

Lemma yields_GetTransactionStatus txID : yields m (GetTransactionStatus txID)
  (λ o, (∃ st, o = Ok st ∧ pb.TransactionStatus_TxId st = txID) ∨ o = Err ErrNotFound).
Proof.
  eapply yields_mono; [apply yields_get_stored|]; simpl.
  - intros v Hv. typed_inv Hv. by eexists.
  - intros o [(st & -> & v & Hv & Hst)| ->]; [left|by right]. exists st. split; [done|].
    apply Htyped in Hv. typed_inv Hv. simpl in *.
    match goal with H : _ = string_bytes _ |- _ => apply string_bytes_inj in H end. congruence.
Qed.

(** The getters with a value of their own. *)
Lemma yields_get_found {A} k msg (T : bytes → Prop) (f : bytes → outcome A) :
  (∀ v, typed_entry k v → T v) → (∀ v, T v → found (f v)) →
  yields m (value ← mmap_err (not_found_or msg) (pebble_Get k); lift (f value))
    (found_or ErrNotFound).
Proof.
  intros HT Hf. eapply yields_bind; [by apply (yields_get_value k msg T)| | |].
  - intros v [(? & [= <-] & Hv)|[=]]. apply yields_lift. left. by apply Hf.
  - intros e [(? & [=] & _)|[= ->]]. by right.
  - intros [(? & [=] & _)|[=]].
Qed.

Lemma yields_GetChainDigest n : yields m (GetChainDigest n)
  (λ o, (∃ d, o = Ok d ∧ is_array 32 d) ∨ o = Err ErrNotFound).
Proof. apply yields_get_value. intros v Hv. by typed_inv Hv. Qed.

Lemma yields_GetStoreDigest n : yields m (GetStoreDigest n)
  (λ o, (∃ d, o = Ok d ∧ is_array 32 d) ∨ o = Err ErrNotFound).
Proof. apply yields_get_value. intros v Hv. by typed_inv Hv. Qed.

Lemma Uint32_Put_found n : found (LittleEndian_Uint32 (LittleEndian_PutUint32 n)).
Proof. by eexists. Qed.

Lemma yields_GetTargetTickVoteSignature e :
  yields m (GetTargetTickVoteSignature e) (found_or ErrNotFound).
Proof.
  apply (yields_get_found _ _ (λ v, ∃ n, v = LittleEndian_PutUint32 n)).
  - intros v Hv. typed_inv Hv. by eexists.
  - intros v [n ->]. apply Uint32_Put_found.
Qed.

Lemma yields_get_pebble k msg (T : bytes → Prop) :
  (∀ v, typed_entry k v → T v) →
  yields m (mmap_err (keep_pebble_not_found msg) (pebble_Get k))
    (λ o, (∃ v, o = Ok v ∧ T v) ∨ o = Err PebbleErrNotFound).
Proof.
  intros HT. eapply yields_map_err; [apply yields_Get|].
  intros o [(v & Hv & ->)| ->]; simpl; [left|by right]. exists v. split; [done|]. by apply HT, Htyped.
Qed.

Lemma yields_GetEmptyTicksForEpoch e :
  yields m (GetEmptyTicksForEpoch e) (found_or PebbleErrNotFound).
Proof.
  eapply yields_bind; [apply (yields_get_pebble _ _ (λ v, ∃ n, v = LittleEndian_PutUint32 n))| | |].
  - intros v Hv. typed_inv Hv. by eexists.
  - intros v [(? & [= <-] & n & ->)|[=]]. apply yields_lift. left.
    apply Uint32_Put_found.
  - intros err [(? & [=] & _)|[= ->]]. by right.
  - intros [(? & [=] & _)|[=]].
Qed.

Lemma encoded_ticks_mod l :
  Z.of_nat (length (concat (LittleEndian_PutUint32 <$> l))) mod 4 = 0.
Proof.
  induction l as [|n l IH]; [done|]. cbn [fmap list_fmap concat]. rewrite length_app.
  change (length (LittleEndian_PutUint32 n)) with 4%nat.
  rewrite Nat2Z.inj_add, Z.add_comm. change (Z.of_nat 4) with (1 * 4).
  by rewrite Z_mod_plus_full.
Qed.

(** The length check of the list never fires. *)
Lemma yields_GetEmptyTickListPerEpoch e :
  yields m (GetEmptyTickListPerEpoch e) (found_or PebbleErrNotFound).
Proof.
  eapply yields_bind;
    [apply (yields_get_pebble _ _ (λ v, ∃ l, v = concat (LittleEndian_PutUint32 <$> l)))| | |].
  - intros v Hv. typed_inv Hv. by eexists.
  - intros v [(? & [= <-] & l & ->)|[=]]. rewrite bool_decide_false.
    + apply yields_lift. left. by eexists.
    + intros Hne. apply Hne, encoded_ticks_mod.
  - intros err [(? & [=] & _)|[= ->]]. by right.
  - intros [(? & [=] & _)|[=]].
Qed.

(** Absent lists are empty, and a stored map of votes is not nil. *)
Lemma yields_getProcessedTickIntervalsPerEpoch e :
  yields m (getProcessedTickIntervalsPerEpoch e) found.
Proof.
  eapply yields_attempt; [apply yields_Get| | |].
  - intros v [(? & Hv & [= <-])|[=]]. apply Htyped in Hv. typed_inv Hv.
    match goal with H : decodes _ _ |- _ => destruct H as [a Ha] end.
    apply yields_lift. rewrite Ha. by eexists.
  - intros err [(? & _ & [=])|[= ->]]. apply yields_lift. by eexists.
  - intros [(? & _ & [=])|[=]].
Qed.

Lemma valid_GetLastTickQuorumDataListPerEpochInterval e :
  yields m (GetLastTickQuorumDataListPerEpochInterval e)
    (λ o, ∃ q, o = Ok (pb.MkLastTickQuorumDataPerEpochIntervals (Some q)) ∧
               proto_valid (pb.MkLastTickQuorumDataPerEpochIntervals (Some q))).
Proof.
  eapply yields_attempt; [apply yields_Get| | |].
  - intros v [(? & Hv & [= <-])|[=]]. apply Htyped in Hv. typed_inv Hv.
    match goal with H : Unmarshal _ = Ok _ |- _ =>
      rewrite H; apply Unmarshal_valid in H end.
    apply yields_lift. by eexists.
  - intros err [(? & _ & [=])|[= ->]]. apply yields_lift. eexists. split; [done|].
    apply LastTickQuorumDataPerEpochIntervals_empty_valid.
  - intros [(? & _ & [=])|[=]].
Qed.

Lemma yields_GetLastTickQuorumDataListPerEpochInterval e :
  yields m (GetLastTickQuorumDataListPerEpochInterval e)
    (λ o, ∃ q, o = Ok (pb.MkLastTickQuorumDataPerEpochIntervals (Some q))).
Proof.
  eapply yields_mono; [apply valid_GetLastTickQuorumDataListPerEpochInterval|].
  intros o (q & -> & _). by exists q.
Qed.

(** An iterator over one kind of key: every entry it yields is typed. *)
Lemma yields_iter {B} msg x lo hi (f : B → bytes * outcome bytes → M DB B) acc :
  (∀ acc k v, key_kind k = Some x → typed_entry k v → yields m (f acc (k, Ok v)) found) →
  yields m (iter ← mwrap msg (pebble_NewIter (x :: lo) (x :: hi)); foldM f acc iter) found.
Proof.
  intros Hf. eapply yields_bind.
  - eapply yields_map_err; [apply yields_NewIter|]. intros o (l & -> & Hl).
    instantiate (1 := λ o, ∃ l, o = Ok l ∧
      ∀ k ov, (k, ov) ∈ l → ∃ v, ov = Ok v ∧ m !! k = Some v ∧ in_range (x :: lo) (x :: hi) k).
    by eexists.
  - intros l (? & [= <-] & Hl). apply yields_foldM_found. intros acc' [k ov] Hin.
    destruct (Hl _ _ Hin) as (v & -> & Hv & Hk). apply Hf; [by eapply key_kind_in_range|].
    by apply Htyped.
  - intros e (? & [=] & _).
  - intros (? & [=] & _).
Qed.

Lemma yields_GetProcessedTickIntervals : yields m GetProcessedTickIntervals found.
Proof.
  apply yields_iter. intros acc k v Hk Hv. destruct Hv; try discriminate Hk.
  match goal with H : decodes _ _ |- _ => destruct H as [a Ha] end.
  eexists. split; [|by eexists]. simpl.
  runs_step (apply runs_lift). runs_step (rewrite Ha; apply runs_lift). apply runs_ret.
Qed.

Lemma yields_GetLastProcessedTicksPerEpoch : yields m GetLastProcessedTicksPerEpoch found.
Proof.
  apply yields_iter. intros acc k v Hk Hv. destruct Hv; try discriminate Hk.
  eexists. split; [|by eexists]. simpl.
  runs_step (apply runs_lift). runs_step (apply runs_lift). runs_step (apply runs_lift).
  apply runs_ret.
Qed.

Lemma yields_GetEmptyTicksForEpochs first last : yields m (GetEmptyTicksForEpochs first last) found.
Proof.
  apply yields_iter. intros acc k v Hk Hv. destruct Hv; try discriminate Hk.
  eexists. split; [|by eexists]. simpl.
  runs_step (apply runs_lift). runs_step (apply runs_lift). runs_step (apply runs_lift).
  apply runs_ret.
Qed.

(** The transactions of a tick, if its data and each of them is there. *)
Lemma yields_tx_list n (f : list pb.Transaction → string → pb.Transaction → M DB (list pb.Transaction)) :
  (∀ txs txID tx, yields m (f txs txID tx) found) →
  yields m (td ← mmap_err (keep_not_found "getting tick data") (GetTickData n);
    foldM (λ txs txID, tx ← mmap_err (keep_not_found "getting tx for id") (GetTransaction txID);
      f txs txID tx) [] (pb.TickData_TransactionIds td)) (found_or ErrNotFound).
Proof.
  intros Hf. eapply (yields_bind m _ _ (found_or ErrNotFound)).
  - eapply yields_map_err; [apply yields_GetTickData|]. intros o [[td ->]| ->]; [left; by eexists|by right].
  - intros td _. apply yields_foldM_found_or. intros txs txID.
    eapply (yields_bind m _ _ (found_or ErrNotFound)).
    + eapply yields_map_err; [apply yields_GetTransaction|].
      intros o [(tx & -> & _)| ->]; [left; by eexists|by right].
    + intros tx _. eapply yields_mono; [apply Hf|]. intros o [l ->]. left. by eexists.
    + intros e [[? [=]]|[= ->]]. by right.
    + by intros [[? [=]]|[=]].
  - intros e [[? [=]]|[= ->]]. by right.
  - by intros [[? [=]]|[=]].
Qed.

Lemma yields_GetTickTransactions n : yields m (GetTickTransactions n) (found_or ErrNotFound).
Proof. apply yields_tx_list. intros txs txID tx. apply yields_lift. by eexists. Qed.

Lemma yields_GetTickTransferTransactions n :
  yields m (GetTickTransferTransactions n) (found_or ErrNotFound).
Proof.
  apply yields_tx_list. intros txs txID tx. case_bool_decide; apply yields_lift; by eexists.
Qed.

(** *** The transfers of an identity *)
Context {R : GoRuntime}.

(** One row of a page: the slice is within its bounds. *)
Lemma getTransfersPage_found v i txs lo hi fl :
  decodes pb.TransferTransactionsPerTick v → found (getTransfersPage (Ok v) i txs lo hi fl).
Proof.
  intros [row Hrow]. unfold getTransfersPage. ok_step. rewrite Hrow. ok_step.
  case_bool_decide; [|by eexists]. case_bool_decide; [|by eexists].
  unfold slice. rewrite bool_decide_true by lia. by eexists.
Qed.

Lemma page_loop_found lo hi fl values acc :
  (∀ ov, ov ∈ values → ∃ v, ov = Ok v ∧ decodes pb.TransferTransactionsPerTick v) →
  acc.2 = None → ∃ i txs, foldO (page_step lo hi fl) acc values = Ok (i, txs, None).
Proof.
  revert acc. induction values as [|ov values IH]; intros [[i txs] err] Hv He; simpl in He; subst err.
  { by exists i, txs. }
  destruct (Hv ov) as (v & -> & Hd); [by left|].
  destruct (getTransfersPage_found v i txs lo hi fl Hd) as [[i' txs'] E].
  assert (page_step lo hi fl (i, txs, None) (Ok v) = Ok (i', txs', None)) as Estep
    by (unfold page_step; by rewrite E).
  cbn [foldO]. rewrite Estep. ok_step.
  apply IH; [|done]. intros ov Hov. apply Hv. by right.
Qed.

(** Whatever the page and the range, and whether or not the bounds share memory. *)
Lemma yields_GetTransactionsForEntityPaged id lo hi page sort fl :
  yields m (GetTransactionsForEntityPaged id lo hi page sort fl) found.
Proof.
  unfold GetTransactionsForEntityPaged.
  destruct (entityRangeBounds id lo hi) as [lower upper] eqn:Eb.
  assert (Hkind : ∀ k, in_range lower upper k → key_kind k = Some IdentityTransferTransactions).
  { intros k Hk. unfold entityRangeBounds in Eb.
    case_decide; injection Eb as <- <-; exact (key_kind_in_range _ _ _ _ Hk). }
  eapply (yields_bind m _ _ (λ o, ∃ l, o = Ok l ∧
    ∀ k ov, (k, ov) ∈ l → ∃ v, ov = Ok v ∧ decodes pb.TransferTransactionsPerTick v)).
  - eapply yields_map_err; [apply yields_NewIter|]. intros o (l & -> & Hl).
    exists l. split; [done|]. intros k ov Hin. destruct (Hl k ov Hin) as (v & -> & Hv & Hk).
    exists v. split; [done|]. apply Hkind in Hk. apply Htyped in Hv.
    destruct Hv; try discriminate Hk. by eexists.
  - intros iter (l & [= <-] & Hl).
    destruct (page_loop_found (int64 (Pageable_Page page * Pageable_Size page))
      (int64 (int64 (Pageable_Page page * Pageable_Size page) + Pageable_Size page)) fl
      (if Sortable_Descending sort then reverse iter else iter).*2 (0, [], None)) as (i & txs & E);
      [|done|].
    { intros ov Hin. assert (Hin' : ov ∈ iter.*2).
      { destruct (Sortable_Descending sort); [|done].
        by rewrite fmap_reverse, elem_of_reverse in Hin. }
      apply list_elem_of_fmap in Hin' as ([k ov'] & -> & Hp). by eapply Hl. }
    rewrite E. apply yields_lift. by eexists.
  - by intros e (? & [=] & _).
  - by intros (? & [=] & _).
Qed.

Lemma yields_GetTransactionsForEntity id lo hi : yields m (GetTransactionsForEntity id lo hi) found.
Proof.
  eapply yields_bind; [apply yields_GetTransactionsForEntityPaged| |by intros ? []|by intros []].
  intros [transfers total] _. apply yields_lift. by eexists.
Qed.
End Getters.

(** The getters of the store, every one of store.go, on contents [m]. *)
Record getters_answer {P : Pebble} {PL : PebbleLaws P} {PR : Protobuf} {R : GoRuntime}
    (m : gmap bytes bytes) : Prop := {
  answer_TickData n : yields m (GetTickData n) (found_or ErrNotFound);
  answer_QuorumTickData n : yields m (GetQuorumTickData n) (found_or ErrNotFound);
  answer_Computors e : yields m (GetComputors e) (found_or ErrNotFound);
  (** never one with another identifier *)
  answer_Transaction txID : yields m (GetTransaction txID)
    (λ o, (∃ tx, o = Ok tx ∧ pb.Transaction_TxId tx = txID) ∨ o = Err ErrNotFound);
  answer_LastProcessedTick : yields m GetLastProcessedTick (found_or ErrNotFound);
  answer_SkippedTicksInterval : yields m GetSkippedTicksInterval (found_or ErrNotFound);
  answer_TickTransactionsStatus n : yields m (GetTickTransactionsStatus n) (found_or ErrNotFound);
  answer_TransactionStatus txID : yields m (GetTransactionStatus txID)
    (λ o, (∃ st, o = Ok st ∧ pb.TransactionStatus_TxId st = txID) ∨ o = Err ErrNotFound);
  answer_TargetTickVoteSignature e :
    yields m (GetTargetTickVoteSignature e) (found_or ErrNotFound);
  (** 32 bytes, as the callers assume that copy them into an array *)
  answer_ChainDigest n : yields m (GetChainDigest n)
    (λ o, (∃ d, o = Ok d ∧ is_array 32 d) ∨ o = Err ErrNotFound);
  answer_StoreDigest n : yields m (GetStoreDigest n)
    (λ o, (∃ d, o = Ok d ∧ is_array 32 d) ∨ o = Err ErrNotFound);
  answer_EmptyTicks e : yields m (GetEmptyTicksForEpoch e) (found_or PebbleErrNotFound);
  answer_EmptyTickList e : yields m (GetEmptyTickListPerEpoch e) (found_or PebbleErrNotFound);
  (** never missing: an absent list is empty *)
  answer_Intervals e : yields m (getProcessedTickIntervalsPerEpoch e) found;
  answer_AllIntervals : yields m GetProcessedTickIntervals found;
  answer_LastTicksPerEpoch : yields m GetLastProcessedTicksPerEpoch found;
  (** never a nil map, which the next write would panic on *)
  answer_LastQuorumData e : yields m (GetLastTickQuorumDataListPerEpochInterval e)
    (λ o, ∃ q, o = Ok (pb.MkLastTickQuorumDataPerEpochIntervals (Some q)));
  (** the tick's data or one of its transactions may be missing *)
  answer_TickTransactions n : yields m (GetTickTransactions n) (found_or ErrNotFound);
  answer_TickTransferTransactions n :
    yields m (GetTickTransferTransactions n) (found_or ErrNotFound);
  (** never missing: what there is between the bounds, if anything *)
  answer_EmptyTicksForEpochs first last : yields m (GetEmptyTicksForEpochs first last) found;
  answer_TransactionsForEntity id first last :
    yields m (GetTransactionsForEntity id first last) found;
  answer_TransactionsForEntityPaged id first last page sort fl :
    yields m (GetTransactionsForEntityPaged id first last page sort fl) found
}.

Section Answers.
Context {P : Pebble} {PL : PebbleLaws P} {PR : Protobuf} {PRL : ProtobufLaws PR} {R : GoRuntime}.

Lemma typed_getters_answer m : well_typed m → getters_answer m.
Proof.
  intros Ht. split; intros; eauto using yields_GetTickData, yields_GetQuorumTickData,
    yields_GetComputors, yields_GetTransaction, yields_GetLastProcessedTick,
    yields_GetSkippedTicksInterval, yields_GetTickTransactionsStatus, yields_GetTransactionStatus,
    yields_GetTargetTickVoteSignature, yields_GetChainDigest, yields_GetStoreDigest,
    yields_GetEmptyTicksForEpoch, yields_GetEmptyTickListPerEpoch,
    yields_getProcessedTickIntervalsPerEpoch, yields_GetProcessedTickIntervals,
    yields_GetLastProcessedTicksPerEpoch, yields_GetLastTickQuorumDataListPerEpochInterval,
    yields_GetTickTransactions, yields_GetTickTransferTransactions, yields_GetEmptyTicksForEpochs,
    yields_GetTransactionsForEntity, yields_GetTransactionsForEntityPaged.
Qed.

Context {K : K12} {KL : K12Laws K} {N : NodeConnector}.

(** C29: On a database the archiver filled, starting from an empty one and
    whatever nodes it talked to, every getter of the store, the ones that gather a
    tick's transactions, the empty ticks of a range of epochs or an identity's transfers
    included, finds its value or reports it missing, for any arguments: no stored value
    fails to decode, has the wrong length or makes the getter panic. *)
Theorem run_main_getters_answer cfg pool db :
  contents db = ∅ → getters_answer (contents (Main.run_main cfg pool db).2).
Proof.
  intros He. apply typed_getters_answer. apply typed_writes_preserve; [apply typed_run_main|].
  rewrite He. apply map_Forall_empty.
Qed.
End Answers.
