(* ===== verification/Archived.v ===== *)
(** * What a successful pass leaves in the database

    [tick_stored m n c]: the contents [m] hold, under the keys of tick [n], what
    validation found ([c]): the votes, the tick data, every transaction, the
    statuses and the digests.  A pass that succeeds leaves exactly that, on any
    database.  Passes over other ticks do not touch it, so after any run every
    processed tick has its records. *)

From stdpp Require Import sorting base strings numbers pretty gmap list.
From S2P Require Import Prelude GoLib Types Platform Keys Store StoreLogic Frame Success Utils.
From S2P Require Import Archive Progress Typed Reads.
From S2P Require Import ValidatorProofs ProcessorProofs.
From S2P Require Computors Quorum Tick Tx TxStatus Chain Validator Processor.

Local Open Scope Z_scope.

Section Stored.
Context {P : Pebble} {PL : PebbleLaws P} {PR : Protobuf} {PRL : ProtobufLaws PR}.
Context {R : GoRuntime} {K : K12} {N : NodeConnector}.
Implicit Types m : gmap bytes bytes.

(** A batch leaves under each of its keys one of the values it gives the key. *)
Lemma apply_writes_in m ws k : k ∈ ws.*1 → ∃ v, (k, v) ∈ ws ∧ apply_writes m ws !! k = Some v.
Proof. intros Hk. destruct (apply_writes_cases m ws k) as [[_ Hn]|H]; [done|exact H]. Qed.

(** ** The parts of storing *)
Lemma Quorum_Store_stored n votes db u db' : Quorum.Store n votes db = (Ok u, db') →
  ∃ q, Quorum.qubicToProtoStored votes = Ok q ∧ stored (contents db') (quorumTickDataKey n) q.
Proof.
  unfold Quorum.Store. intros (q & db1 & [Hq ->]%lift_success & E)%mbind_M_Ok.
  apply mbind_M_Ok in E as (u1 & db2 & E1%wrap_success & E2). exists q. split; [done|].
  apply setter_success in E1. rewrite QuorumTickDataStored_norm in E1.
  eapply stored_agree; [|exact E1].
  eapply (unchanged (own_keys [] [LastTickQuorumDataPerEpochInterval])); [exact E2| |not_own].
  unfold SetQuorumDataForCurrentEpochInterval, getProcessedTickIntervalsPerEpoch,
    GetLastTickQuorumDataListPerEpochInterval, SetLastTickQuorumDataPerEpochIntervals.
  frame_steps; own_key.
Qed.

(** An empty tick is stored as the empty message. *)
Lemma Tick_Store_stored n d db u db' : Tick.Store n d db = (Ok u, db') →
  ∃ td, Tick.qubicToProto d = Ok td ∧
        stored (contents db') (tickDataKey n) (default pb.emptyTickData td).
Proof.
  unfold Tick.Store. intros (td & db1 & [Hd%wrap_Ok ->]%lift_success & E%wrap_success)%mbind_M_Ok.
  exists td. split; [done|]. destruct td as [td|]; simpl.
  - apply setter_success in E. by rewrite TickData_norm in E.
  - unfold SetTickData in E. rewrite Marshal_nil_ok in E.
    apply mbind_M_Ok in E as (b & db1 & [[= <-] ->]%lift_success & E%wrap_success).
    rewrite (Set_success _ _ _ _ _ E). apply stored_insert. rewrite <-TickData_zero_eq.
    pose proof (Unmarshal_Marshal (A := pb.TickData) proto_zero [] proto_zero_valid Marshal_zero) as Hz.
    by rewrite proto_norm_zero in Hz.
Qed.

(** Under the identifier of every transaction, a transaction with that
    identifier. *)
Definition txs_stored m (txs : list pb.Transaction) : Prop := ∀ tx, tx ∈ txs → ∃ tx', tx' ∈ txs ∧
  pb.Transaction_TxId tx' = pb.Transaction_TxId tx ∧
  stored m ([Keys.Transaction] ++ string_bytes (pb.Transaction_TxId tx)) tx'.

(** The writes a batch gathers from a list of messages. *)
Definition gathered {A} {PM : ProtoMsg A} (key : A → bytes) (l : list A)
    (ws : list (bytes * bytes)) : Prop :=
  Forall2 (λ a w, w.1 = key a ∧ Marshal a = Ok w.2) l ws.

Lemma gathered_stored {A} {PM : ProtoMsg A} {PA : ProtoLaws A} (key : A → bytes) l ws m :
  gathered key l ws → (∀ a : A, proto_norm a = a) →
  ∀ a, a ∈ l → ∃ a', a' ∈ l ∧ key a' = key a ∧ stored (apply_writes m ws) (key a) a'.
Proof.
  intros Hg Hn a Ha. assert (Hk : key a ∈ ws.*1).
  { apply list_elem_of_lookup in Ha as [i Hi].
    destruct (Forall2_lookup_l _ _ _ _ _ Hg Hi) as (w & Hw & <- & _).
    apply list_elem_of_fmap. exists w. split; [done|]. by eapply list_elem_of_lookup_2. }
  destruct (apply_writes_in m ws _ Hk) as (v & Hv & E).
  apply list_elem_of_lookup in Hv as [i Hi].
  destruct (Forall2_lookup_r _ _ _ _ _ Hg Hi) as (a' & Ha' & Hka & Hm). simpl in Hka, Hm.
  exists a'. split; [by eapply list_elem_of_lookup_2|]. split; [done|].
  exists v. split; [done|]. rewrite <-(Hn a'). by apply Marshal_Unmarshal.
Qed.

Lemma foldM_gathered {A} {PM : ProtoMsg A} (key : A → bytes) (f : Batch → A → M DB Batch) l :
  (∀ b a db b' db', f b a db = (Ok b', db') →
     db' = db ∧ ∃ v, Marshal a = Ok v ∧ batch_writes b' = batch_writes b ++ [(key a, v)]) →
  ∀ b db b' db', foldM f b l db = (Ok b', db') →
  db' = db ∧ ∃ ws, batch_writes b' = batch_writes b ++ ws ∧ gathered key l ws.
Proof.
  intros Hf. induction l as [|a l IH]; intros b db b' db'; simpl.
  - intros [= -> ->]. split; [done|]. exists []. split; [by rewrite app_nil_r|constructor].
  - intros (b1 & db1 & E1 & E2)%mbind_M_Ok. apply Hf in E1 as (-> & v & Hv & Hb1).
    apply IH in E2 as (-> & ws & Hb' & Hg). split; [done|]. exists ((key a, v) :: ws). split.
    + by rewrite Hb', Hb1, <-app_assoc.
    + constructor; [done|exact Hg].
Qed.

Lemma SetTransactions_stored txs db u db' : SetTransactions txs db = (Ok u, db') →
  txs_stored (contents db') txs.
Proof.
  unfold SetTransactions. intros (b & db1 & E1 & E2%wrap_success)%mbind_M_Ok.
  apply (foldM_gathered (λ tx, [Keys.Transaction] ++ string_bytes (pb.Transaction_TxId tx)))
    in E1 as (-> & ws & Hb & Hg).
  - rewrite (Commit_success _ _ _ _ E2), Hb, NewBatch_writes. intros tx Htx.
    destruct (gathered_stored _ _ _ (contents db) Hg Transaction_norm tx Htx)
      as (tx' & Htx' & Hk & Hs).
    exists tx'. split; [done|]. split; [|exact Hs].
    apply app_inv_head in Hk. by apply string_bytes_inj.
  - clear. intros b tx db b' db'. unfold SetTransactions_step. intros E. success.
    match goal with H : tickTxKey _ = Ok _ |- _ => injection H as <- end.
    split; [done|]. eexists. split; [done|]. by apply Batch_Set_sound.
Qed.

Lemma Tx_Store_stored n txs db u db' : Tx.Store n txs db = (Ok u, db') →
  ∃ ptxs, Tx.qubicToProto txs = Ok ptxs ∧ txs_stored (contents db') ptxs.
Proof.
  unfold Tx.Store. intros (u1 & db1 & E1%wrap_success & E2%wrap_success)%mbind_M_Ok.
  unfold Tx.storeTickTransactions in E1.
  apply mbind_M_Ok in E1 as (ptxs & db2 & [Hp%wrap_Ok ->]%lift_success & E1%wrap_success).
  exists ptxs. split; [done|]. apply SetTransactions_stored in E1.
  intros tx Htx. destruct (E1 tx Htx) as (tx' & Htx' & Hid & Hs). exists tx'. do 2 (split; [done|]).
  eapply stored_agree; [|exact Hs].
  eapply (unchanged (own_keys [] [IdentityTransferTransactions])); [exact E2| |not_own].
  unfold Tx.storeTransferTransactions, PutTransferTransactionsPerTick. frame_steps; own_key.
Qed.

Definition statuses_stored m (n : Z) (tts : pb.TickTransactionsStatus) : Prop :=
  stored m (tickTxStatusKey (uint64 n)) tts ∧
  ∀ st, st ∈ pb.TickTransactionsStatus_Transactions tts → ∃ st',
    st' ∈ pb.TickTransactionsStatus_Transactions tts ∧
    pb.TransactionStatus_TxId st' = pb.TransactionStatus_TxId st ∧
    stored m (txStatusKey (pb.TransactionStatus_TxId st)) st'.

Lemma TxStatus_Store_stored n tts db u db' : TxStatus.Store n tts db = (Ok u, db') →
  statuses_stored (contents db') n tts.
Proof.
  unfold TxStatus.Store, SetTickTransactionsStatus.
  intros (s & db1 & [Hs%wrap_Ok ->]%lift_success & E)%wrap_success%mbind_M_Ok.
  apply mbind_M_Ok in E as (b0 & db1 & [Hb0%wrap_Ok ->]%lift_success & E).
  apply Batch_Set_sound in Hb0. rewrite NewBatch_writes in Hb0.
  apply mbind_M_Ok in E as (b & db1 & E1 & E2%wrap_success).
  apply (foldM_gathered (λ st, txStatusKey (pb.TransactionStatus_TxId st)))
    in E1 as (-> & ws & Hb & Hg).
  2: { clear. intros b st db b' db'. unfold SetTickTransactionsStatus_step. intros E. success.
       split; [done|]. eexists. split; [done|]. by apply Batch_Set_sound. }
  rewrite (Commit_success _ _ _ _ E2), Hb, Hb0. clear E2. split.
  - exists s. split.
    + simpl. destruct (apply_writes_cases
        (<[tickTxStatusKey (uint64 n) := s]> (contents db)) ws (tickTxStatusKey (uint64 n)))
        as [[E _]|(v & Hin & _)].
      * unfold apply_writes in E |- *. simpl. rewrite E. by rewrite lookup_insert_eq.
      * apply list_elem_of_lookup in Hin as [i Hi].
        destruct (Forall2_lookup_r _ _ _ _ _ Hg Hi) as (st & _ & Hk & _). simpl in Hk.
        by apply (f_equal key_kind) in Hk.
    + rewrite <-(TickTransactionsStatus_norm tts). by apply Marshal_Unmarshal.
  - intros st Hst. destruct (gathered_stored _ _ _
      (<[tickTxStatusKey (uint64 n) := s]> (contents db)) Hg TransactionStatus_norm st Hst)
      as (st' & Hst' & Hk & Hs'). exists st'. split; [done|]. split; [|exact Hs'].
    apply app_inv_head in Hk. by apply string_bytes_inj.
Qed.

(** The digest of the vote and of the digest stored for the tick before. *)
Lemma ComputeAndSave_stored i n v db u db' : Chain.ComputeAndSave i n v db = (Ok u, db') →
  ∃ prev d, Chain.getPrevChainDigest i n db = (Ok prev, db) ∧
    Chain.computeCurrentTickDigest v prev = Ok d ∧
    contents db' !! chainDigestKey n = Some d.
Proof.
  unfold Chain.ComputeAndSave. intros (prev & db1 & E1%wrap_success & E)%mbind_M_Ok.
  assert (db1 = db) as ->.
  { revert E1. unfold Chain.getPrevChainDigest. case_bool_decide; intros E1; [by injection E1|].
    unfold GetChainDigest in E1. by success. }
  apply mbind_M_Ok in E as (d & db1 & [Hd%wrap_Ok ->]%lift_success & E%wrap_success).
  exists prev, d. split; [done|]. split; [done|].
  unfold PutChainDigest in E. apply wrap_success, Set_success in E. rewrite E.
  apply lookup_insert_eq.
Qed.

Lemma ComputeStoreAndSave_stored i n txs s db u db' :
  Chain.ComputeStoreAndSave i n txs s db = (Ok u, db') →
  n < 13752150 ∨ is_Some (contents db' !! storeDigestKey n).
Proof.
  unfold Chain.ComputeStoreAndSave. case_bool_decide; [by left|]. intros E. right.
  apply mbind_M_Ok in E as (prev & db1 & E1 & E). apply mbind_M_Ok in E as (d & db2 & _ & E).
  unfold PutStoreDigest in E. apply wrap_success, wrap_success, Set_success in E. rewrite E.
  rewrite lookup_insert_eq. by eexists.
Qed.

(** ** The whole tick *)
Record tick_stored m (n : Z) (c : Validator.checked) : Prop := {
  stored_votes : ∃ q, Quorum.qubicToProtoStored (Validator.checked_votes c) = Ok q ∧
    stored m (quorumTickDataKey n) q;
  stored_data : ∃ td, Tick.qubicToProto (Validator.checked_tickData c) = Ok td ∧
    stored m (tickDataKey n) (default pb.emptyTickData td);
  stored_txs : ∃ ptxs, Tx.qubicToProto (Validator.checked_validTxs c) = Ok ptxs ∧
    txs_stored m ptxs;
  stored_statuses : statuses_stored m n (Validator.checked_approvedTxs c);
  stored_chain : ∃ first prev d, Validator.checked_votes c !! 0%nat = Some first ∧
    Chain.computeCurrentTickDigest first prev = Ok d ∧ m !! chainDigestKey n = Some d;
  stored_store : n < 13752150 ∨ is_Some (m !! storeDigestKey n)
}.

(** Later steps of the pass leave the records written before as they are. *)
Lemma txs_stored_agree m m' txs :
  (∀ k, key_kind k = Some Keys.Transaction → m' !! k = m !! k) →
  txs_stored m txs → txs_stored m' txs.
Proof.
  intros Hm H tx Htx. destruct (H tx Htx) as (tx' & ? & ? & Hs). exists tx'.
  do 2 (split; [done|]). eapply stored_agree; [|exact Hs]. by apply Hm.
Qed.

Lemma statuses_stored_agree m m' n tts :
  m' !! tickTxStatusKey (uint64 n) = m !! tickTxStatusKey (uint64 n) →
  (∀ k, key_kind k = Some Keys.TransactionStatus → m' !! k = m !! k) →
  statuses_stored m n tts → statuses_stored m' n tts.
Proof.
  intros Hn Hm [H1 H2]. split; [by eapply stored_agree|]. intros st Hst.
  destruct (H2 st Hst) as (st' & ? & ? & Hs). exists st'. do 2 (split; [done|]).
  eapply stored_agree; [|exact Hs]. by apply Hm.
Qed.

Lemma store_tick_stored i n c db u db' : Validator.store_tick i n c db = (Ok u, db') →
  tick_stored (contents db') n c.
Proof.
  unfold Validator.store_tick. intros E.
  apply mbind_M_Ok in E as (u1 & db1 & E1%wrap_success & E).
  apply mbind_M_Ok in E as (u2 & db2 & E2%wrap_success & E).
  apply mbind_M_Ok in E as (u3 & db3 & E3%wrap_success & E).
  apply mbind_M_Ok in E as (u4 & db4 & E4%wrap_success & E).
  apply mbind_M_Ok in E as (first & db5 & [Hfirst ->]%lift_success & E).
  apply mbind_M_Ok in E as (u5 & db5 & E5%wrap_success & E).
  apply mbind_M_Ok in E as (u6 & db6 & E6%wrap_success & E).
  apply mbind_M_Ok in E as (isEmpty & db7 & [_ ->]%lift_success & E7).
  pose proof (λ k, unchanged _ _ _ _ _ k E2 (writes_Tick_Store n _)) as F2.
  pose proof (λ k, unchanged _ _ _ _ _ k E3 (writes_Tx_Store n _)) as F3.
  pose proof (λ k, unchanged _ _ _ _ _ k E4 (writes_TxStatus_Store n _)) as F4.
  pose proof (λ k, unchanged _ _ _ _ _ k E5 (writes_ComputeAndSave i n first)) as F5.
  pose proof (λ k, unchanged _ _ _ _ _ k E6 (writes_ComputeStoreAndSave i n _ _)) as F6.
  assert (F7 : ∀ k, ¬ own_keys [] [EmptyTicksPerEpoch; EmptyTickListPerEpoch] k →
    contents db' !! k = contents db6 !! k).
  { intros k. eapply unchanged; [exact E7|]. destruct isEmpty; [apply writes_record_empty_tick|].
    apply writes_ret. }
  apply Quorum_Store_stored in E1 as (q & Hq & Sq).
  apply Tick_Store_stored in E2 as (td & Htd & Std).
  apply Tx_Store_stored in E3 as (ptxs & Hptxs & Stx).
  apply TxStatus_Store_stored in E4.
  apply ComputeAndSave_stored in E5 as (prev & d & _ & Hd & Sd).
  apply ComputeStoreAndSave_stored in E6.
  split.
  - exists q. split; [done|]. eapply stored_agree; [|exact Sq].
    by rewrite F7, F6, F5, F4, F3, F2 by not_own.
  - exists td. split; [done|]. eapply stored_agree; [|exact Std].
    by rewrite F7, F6, F5, F4, F3 by not_own.
  - exists ptxs. split; [done|]. eapply txs_stored_agree; [|exact Stx]. intros k Hk.
    rewrite F7, F6, F5, F4; [done|eapply not_own_keys; [exact Hk|done|]; key_other Hk..].
  - eapply statuses_stored_agree; [| |exact E4].
    + by rewrite F7, F6, F5 by not_own.
    + intros k Hk.
      rewrite F7, F6, F5; [done|eapply not_own_keys; [exact Hk|done|]; key_other Hk..].
  - apply index_Ok in Hfirst as [_ Hfirst]. exists first, prev, d. do 2 (split; [done|]).
    by rewrite F7, F6 by not_own.
  - destruct E6 as [|Hs]; [by left|right]. by rewrite F7 by not_own.
Qed.

Lemma ValidateTick_stored qu arb i n d db u db' :
  Validator.ValidateTick qu arb i n d db = (Ok u, db') →
  ∃ c db1, Validator.check qu arb n d db = (Ok c, db1) ∧ tick_stored (contents db') n c.
Proof.
  unfold Validator.ValidateTick. intros (c & db1 & E1 & E2)%mbind_M_Ok.
  exists c, db1. split; [done|]. by eapply store_tick_stored.
Qed.

(** C18: A pass over a tick that succeeds found the tick valid and stored it:
    [check] accepted the node's answers, and what it found is in the database
    under the tick's keys: the votes, the tick data, a transaction under every
    identifier, the statuses and the chain digest of the first aligned vote.
    The database may be one that fails. *)
Theorem ValidateTick_archives qu arb i n d db u db' :
  Validator.ValidateTick qu arb i n d db = (Ok u, db') →
  ∃ c db1, Validator.check qu arb n d db = (Ok c, db1) ∧ tick_stored (contents db') n c.
Proof. apply ValidateTick_stored. Qed.
End Stored.
