(* ===== verification/Complete.v ===== *)
(** * Every processed tick has its records

    [archived m t]: the records of tick [t] are in the database, and so is
    every transaction its tick data lists.  A pass that succeeds archives its
    tick, and no later pass takes anything away, so after any run every tick of
    a processed interval is archived and its requests are answered. *)

From stdpp Require Import sorting base strings numbers pretty gmap list.
From S2P Require Import Prelude GoLib Types Platform Keys Store StoreLogic Frame Success Utils.
From S2P Require Import Archive Progress Typed Reads Archived.
From S2P Require Import ValidatorProofs ProcessorProofs.
From S2P Require Computors Quorum Tick Tx TxProofs TxStatus Chain Validator Processor.

Local Open Scope Z_scope.

Section Complete.
Context {P : Pebble} {PL : PebbleLaws P} {PR : Protobuf} {PRL : ProtobufLaws PR}.
Context {R : GoRuntime} {K : K12} {KL : K12Laws K} {N : NodeConnector} {TL : TransactionLaws N}.
Implicit Types m : gmap bytes bytes.

(** ** The transactions of a tick are those its data lists *)

Lemma digestsToIdentities_elem ds acc ids : foldO Tick.digestsToIdentities_step acc ds = Ok ids →
  ∀ id, id ∈ ids → id ∈ acc ∨
    ∃ d, d ∈ ds ∧ d ≠ zero_array 32 ∧ Identity_FromPubKey d true = Ok id.
Proof.
  revert acc. induction ds as [|d ds IH]; intros acc; cbn [foldO]; [intros [= <-]; auto|].
  intros (acc' & E1 & E)%bind_Ok id Hid. unfold Tick.digestsToIdentities_step in E1.
  case_bool_decide as Hd.
  - injection E1 as <-. destruct (IH _ E id Hid) as [?|(d' & ? & ?)]; [by left|right].
    exists d'. split; [by right|done].
  - apply bind_Ok in E1 as (id' & Hid'%wrap_Ok & [= <-]).
    destruct (IH _ E id Hid) as [[?| ->%list_elem_of_singleton]%elem_of_app|(d' & ? & ?)].
    + by left.
    + right. exists d. split; [by left|done].
    + right. exists d'. split; [by right|done].
Qed.

(** The identifier under which a transaction is stored. *)
Lemma qubicToProto_ids txs ptxs : Tx.qubicToProto txs = Ok ptxs → ∀ tx, tx ∈ txs →
  ∃ ptx d, ptx ∈ ptxs ∧ Transaction_Digest tx = Ok d ∧
           Identity_FromPubKey d true = Ok (pb.Transaction_TxId ptx).
Proof.
  unfold Tx.qubicToProto. assert (G : ∀ acc, foldO (λ protoTxs tx,
      txProto ← wrap "converting tx to proto" (Tx.txToProto tx);
      Ok (protoTxs ++ [txProto])) acc txs = Ok ptxs →
    (∀ ptx, ptx ∈ acc → ptx ∈ ptxs) ∧ ∀ tx, tx ∈ txs → ∃ ptx d, ptx ∈ ptxs ∧
      Transaction_Digest tx = Ok d ∧ Identity_FromPubKey d true = Ok (pb.Transaction_TxId ptx)).
  { induction txs as [|tx txs IH]; intros acc; simpl.
    { intros [= ->]. split; [done|]. by intros tx ?%elem_of_nil. }
    intros (acc' & (ptx & Hp%wrap_Ok & [= <-])%bind_Ok & E)%bind_Ok.
    destruct (IH _ E) as [H1 H2]. split.
    - intros q Hq. apply H1, elem_of_app. by left.
    - intros tx' [->|Hin]%elem_of_cons; [|by apply H2].
      unfold Tx.txToProto in Hp. apply bind_Ok in Hp as (d & Hd%wrap_Ok & Hp).
      apply bind_Ok in Hp as (id & Hid%wrap_Ok & Hp). inv_ok. subst.
      eexists _, d. split; [apply H1, elem_of_app; right; by left|]. split; [done|]. done. }
  intros E tx. by apply (G [] E).
Qed.

(** Validation leaves no digest without its transaction. *)
Lemma Validate_covers f txs td out :
  Forall (is_array 32) (types.TickData_TransactionDigests td) → Tx.Validate f txs td = Ok out →
  ∀ d, d ∈ types.TickData_TransactionDigests td → d ≠ zero_array 32 →
  ∃ tx b, tx ∈ out ∧ Transaction_MarshallBinary tx = Ok b ∧ K12Hash b = Ok d.
Proof.
  intros Hwf. unfold Tx.Validate. case_bool_decide as Hs; intros E d Hd Hnz.
  { apply size_empty_inv in Hs. exfalso.
    apply (not_elem_of_empty (C := gset string) (hex_EncodeToString d)). rewrite <-Hs.
    apply TxProofs.elem_of_digests_map. eauto. }
  apply wrap_Ok in E. apply TxProofs.validateTransactions_iff in E as (-> & ds & Hds & Hset).
  apply (TxProofs.hex_digests_iff f txs td ds Hwf Hds) in Hset as [_ Hin].
  assert (Hd' : d ∈ ds) by (by apply Hin). apply list_elem_of_lookup in Hd' as [i Hi].
  destruct (Forall2_lookup_r _ _ _ _ _ Hds Hi) as (tx & Htx & b & id & Hb & _ & -> & _).
  exists tx, b. split; [by eapply list_elem_of_lookup_2|]. split; [done|]. apply K12Hash_hash_of.
Qed.

(** The statuses validation accepts are those of the tick's transactions. *)
Lemma createTxsIdMap_elem txs acc ids : foldO TxStatus.createTxsIdMap_step acc txs = Ok ids →
  ∀ id, id ∈ ids → id ∈ acc ∨
    ∃ tx d, tx ∈ txs ∧ Transaction_Digest tx = Ok d ∧ Identity_FromPubKey d true = Ok id.
Proof.
  revert acc. induction txs as [|tx txs IH]; intros acc; cbn [foldO]; [intros [= <-]; auto|].
  intros (acc' & E1 & E)%bind_Ok id Hid. unfold TxStatus.createTxsIdMap_step in E1.
  apply bind_Ok in E1 as (d & Hd%wrap_Ok & E1). apply bind_Ok in E1 as (i & Hi%wrap_Ok & [= <-]).
  destruct (IH _ E id Hid) as [[->%elem_of_singleton|?]%elem_of_union|(tx' & d' & ? & ?)].
  - right. exists tx, d. split; [by left|]. split; [done|]. by eapply Transaction_ID_identity.
  - by left.
  - right. exists tx', d'. split; [by right|done].
Qed.

Lemma statuses_elem ids flew ds acc sts : foldO (TxStatus.qubicToProto_step ids flew) acc ds = Ok sts →
  ∀ st, st ∈ sts → st ∈ acc ∨ pb.TransactionStatus_TxId st ∈ ids.
Proof.
  revert acc. induction ds as [|[i d] ds IH]; intros acc; cbn [foldO]; [intros [= <-]; auto|].
  intros (acc' & E1 & E)%bind_Ok st Hst. unfold TxStatus.qubicToProto_step in E1.
  apply bind_Ok in E1 as (id & _ & E1).
  destruct (bool_decide_reflect (id ∈ ids)) as [Hin|_]; simpl in E1.
  - apply bind_Ok in E1 as (f & _ & [= <-]).
    destruct (IH _ E st Hst) as [[?| ->%list_elem_of_singleton]%elem_of_app|?]; auto.
  - injection E1 as <-. by eapply IH.
Qed.

Lemma TxStatus_Validate_ids model txs tts : TxStatus.Validate model txs = Ok tts →
  ∀ st, st ∈ pb.TickTransactionsStatus_Transactions tts → ∃ tx d, tx ∈ txs ∧
    Transaction_Digest tx = Ok d ∧ Identity_FromPubKey d true = Ok (pb.TransactionStatus_TxId st).
Proof.
  intros E%wrap_Ok st Hst. unfold TxStatus.qubicToProto in E.
  apply bind_Ok in E as (ids & Hids%wrap_Ok & E). apply bind_Ok in E as (sts & Hsts & [= <-]).
  destruct (statuses_elem _ _ _ _ _ Hsts st Hst) as [?%elem_of_nil|Hin]; [done|].
  by destruct (createTxsIdMap_elem _ _ _ Hids _ Hin) as [?%elem_of_empty|?].
Qed.

(** What validation found has a transaction for every identifier its tick data
    will be stored with, and for every status. *)
Record covered (c : Validator.checked) : Prop := {
  covered_data td ptxs id :
    Tick.qubicToProto (Validator.checked_tickData c) = Ok (Some td) →
    Tx.qubicToProto (Validator.checked_validTxs c) = Ok ptxs →
    id ∈ pb.TickData_TransactionIds td → ∃ ptx, ptx ∈ ptxs ∧ pb.Transaction_TxId ptx = id;
  covered_statuses ptxs st :
    Tx.qubicToProto (Validator.checked_validTxs c) = Ok ptxs →
    st ∈ pb.TickTransactionsStatus_Transactions (Validator.checked_approvedTxs c) →
    ∃ ptx, ptx ∈ ptxs ∧ pb.Transaction_TxId ptx = pb.TransactionStatus_TxId st
}.

Lemma qubicToProto_transaction_ids d td : Tick.qubicToProto d = Ok (Some td) →
  Tick.digestsToIdentities (types.TickData_TransactionDigests d) =
    Ok (pb.TickData_TransactionIds td).
Proof.
  unfold Tick.qubicToProto. destruct (TickData_IsEmpty d); [done|].
  intros (ids & H%wrap_Ok & [= <-])%bind_Ok. done.
Qed.

(** The node's answers are values of Go's types: a digest has 32 bytes. *)
Definition answers_wf (qu : Client) : Prop := ∀ n td,
  Client_GetTickData qu n = Ok td → Forall (is_array 32) (types.TickData_TransactionDigests td).

Lemma check_covered qu arb n d db c db' : answers_wf qu →
  Validator.check qu arb n d db = (Ok c, db') → covered c.
Proof.
  intros Hwf. unfold Validator.check. intros E. apply mbind_M_Ok in E as (votes & db1 & _ & E).
  case_bool_decide; [done|]. apply mbind_M_Ok in E as (first & db2 & _ & E).
  do 5 (apply mbind_M_Ok in E as (? & ? & _ & E)).
  apply mbind_M_Ok in E as ([[td txs] st] & db3 & E1 & [= <- <-]).
  case_bool_decide as Hzero.
  - apply lift_success in E1 as [E1 _]. unfold Validator.check_tick in E1.
    apply bind_Ok in E1 as (td' & Htd'%wrap_Ok & E1). apply bind_Ok in E1 as (? & _ & E1).
    apply bind_Ok in E1 as (? & _ & E1). apply bind_Ok in E1 as (ts & _ & E1).
    apply bind_Ok in E1 as (vs & Hv%wrap_Ok & E1).
    apply bind_Ok in E1 as (? & _ & E1). apply bind_Ok in E1 as (tts & Hst%wrap_Ok & E1). inv_ok.
    simplify_eq. split; cbn [Validator.checked_tickData Validator.checked_validTxs Validator.checked_approvedTxs].
    + intros tdp ptxs id Htd%qubicToProto_transaction_ids Hptxs Hid.
      apply (digestsToIdentities_elem _ [] _ Htd) in Hid as [?%elem_of_nil|(dg & Hdg & Hnz & Hid)]; [done|].
      destruct (Validate_covers _ _ _ _ (Hwf _ _ Htd') Hv dg Hdg Hnz) as (tx & b & Htx & Hb & Hh).
      destruct (qubicToProto_ids _ _ Hptxs tx Htx) as (ptx & d' & Hp & Hd' & Hpid).
      exists ptx. split; [done|]. rewrite (Transaction_Digest_hash _ _ Hb) in Hd'. congruence.
    + intros ptxs st' Hptxs Hin.
      destruct (TxStatus_Validate_ids _ _ _ Hst st' Hin) as (tx & dg & Htx & Hdg & Hid).
      destruct (qubicToProto_ids _ _ Hptxs tx Htx) as (ptx & d' & Hp & Hd' & Hpid).
      exists ptx. split; [done|]. congruence.
  - injection E1 as <- <- <- <-. split; cbn [Validator.checked_tickData Validator.checked_approvedTxs].
    + intros tdp ptxs id Htd%qubicToProto_transaction_ids _ Hid. exfalso.
      apply (digestsToIdentities_elem _ [] _ Htd) in Hid as [?%elem_of_nil|(dg & Hdg & Hnz & _)]; [done|].
      apply Hnz. simpl in Hdg. by apply elem_of_replicate in Hdg as [-> _].
    + intros ptxs st' _ Hin. by apply elem_of_nil in Hin.
Qed.

(** ** The records of a tick *)
Record archived m (t : Z) : Prop := {
  archived_data : ∃ td, stored m (tickDataKey t) td ∧ ∀ id, id ∈ pb.TickData_TransactionIds td →
    is_Some (m !! ([Keys.Transaction] ++ string_bytes id));
  archived_quorum : is_Some (m !! quorumTickDataKey t);
  archived_statuses : ∃ tts, stored m (tickTxStatusKey (uint64 t)) tts ∧
    ∀ st, st ∈ pb.TickTransactionsStatus_Transactions tts →
    is_Some (m !! ([Keys.Transaction] ++ string_bytes (pb.TransactionStatus_TxId st)));
  archived_chain : is_Some (m !! chainDigestKey t);
  archived_store : t < 13752150 ∨ is_Some (m !! storeDigestKey t)
}.

Lemma stored_present {A} {PM : ProtoMsg A} m k (a : A) : stored m k a → is_Some (m !! k).
Proof. intros (b & Hb & _). by exists b. Qed.

Lemma tick_stored_archived m n c : tick_stored m n c → covered c → archived m n.
Proof.
  intros [(q & _ & Hq) (td & Htd & Sd) (ptxs & Hp & Sp) [Ss _] (f & prev & d & _ & _ & Hd) Hst] [Hc Hcs].
  assert (Hpresent : ∀ ptx, ptx ∈ ptxs → is_Some (m !! ([Keys.Transaction] ++ string_bytes (pb.Transaction_TxId ptx)))).
  { intros ptx Hin. destruct (Sp ptx Hin) as (ptx' & _ & _ & Hs). exact (stored_present _ _ _ Hs). }
  split; [|exact (stored_present _ _ _ Hq)| |by eexists|done].
  - eexists. split; [exact Sd|]. intros id. destruct td as [td|]; simpl; [|by intros ?%elem_of_nil].
    intros Hid. destruct (Hc td ptxs id Htd Hp Hid) as (ptx & Hin & <-). by apply Hpresent.
  - eexists. split; [exact Ss|]. intros st Hin. destruct (Hcs ptxs st Hp Hin) as (ptx & Hp' & <-).
    by apply Hpresent.
Qed.

(** What keeps the records of [t] and the presence of transactions keeps [t]
    archived. *)
Lemma archived_agree m m' t :
  (∀ k, k ∈ tick_records t → m' !! k = m !! k) →
  (∀ k, key_kind k = Some Keys.Transaction → is_Some (m !! k) → is_Some (m' !! k)) →
  archived m t → archived m' t.
Proof.
  intros Hr Ht [(td & Sd & Hids) H1 (tts & Ss & Hsts) H3 H4]. unfold tick_records in Hr.
  split; [|rewrite Hr; [done|set_solver]| |rewrite Hr; [done|set_solver]|].
  - exists td. split; [eapply stored_agree; [|exact Sd]; apply Hr; set_solver|]. auto.
  - exists tts. split; [eapply stored_agree; [|exact Ss]; apply Hr; set_solver|]. auto.
  - destruct H4 as [H4|H4]; [by left|right]. rewrite Hr; [done|set_solver].
Qed.

(** ** The status update touches the bookkeeping only *)
Definition bookkeeping_kinds : list Z :=
  [LastProcessedTick; LastProcessedTickPerEpoch; Keys.SkippedTicksInterval; ProcessedTickIntervals].

Lemma writes_processStatus last next :
  writes_only (on (own_keys [] bookkeeping_kinds)) (Processor.processStatus last next).
Proof.
  unfold Processor.processStatus, Processor.processSkippedTicks, AppendProcessedTickInterval,
    SetSkippedTicksInterval, GetSkippedTicksInterval, getProcessedTickIntervalsPerEpoch,
    SetProcessedTickIntervalPerEpoch.
  apply writes_bind; [frame_steps; own_key|]. intros _. apply writes_wrap.
  unfold SetLastProcessedTick, getProcessedTickIntervalsPerEpoch, SetProcessedTickIntervalPerEpoch.
  eapply frame_bind; [apply frame_Batch_Set; [apply batch_owned_new|own_key]|]. intros b Hb.
  apply writes_bind_lift. intros s _.
  eapply frame_bind; [apply frame_Batch_Set; [done|own_key]|]. intros b' Hb'.
  apply writes_bind; [by apply writes_wrap, writes_Commit|]. intros _. frame_steps; own_key.
Qed.

Lemma tick_records_not_bookkeeping t k : k ∈ tick_records t → ¬ own_keys [] bookkeeping_kinds k.
Proof.
  unfold tick_records. set_unfold. intros Hk. destruct_or! Hk; subst k; not_own.
Qed.

Lemma transaction_not_erasable k : key_kind k = Some Keys.Transaction → ¬ erasable k.
Proof. unfold erasable. intros -> [[=]|[=]]. Qed.

(** ** Passes *)

(** What a pass over tick [n] writes leaves the other ticks archived. *)
Lemma tick_writes_archived {A} (c : M DB A) n db t : writes_only typed_write c →
  writes_only (on (own_keys (tick_records n) shared_kinds)) c →
  is_uint32 n → is_uint32 t → n ≠ t → archived (contents db) t → archived (contents (c db).2) t.
Proof.
  intros Hty Hw Hn Ht Hnt. apply archived_agree.
  - intros k Hk. eapply tick_writes_unchanged; [exact Hw|]. right. by exists t.
  - intros k Hk Hs. apply typed_writes_keep; [exact Hty| |done]. by apply transaction_not_erasable.
Qed.

Lemma processStatus_archived last next db t : archived (contents db) t →
  archived (contents (Processor.processStatus last next db).2) t.
Proof.
  pose proof (λ k, frame_outside _ _ _ db k (writes_processStatus last next)) as Hf.
  apply archived_agree.
  - intros k Hk. apply Hf. by eapply tick_records_not_bookkeeping.
  - intros k Hk. rewrite Hf; [done|]. by eapply not_own_keys; [exact Hk|done|apply not_elem_of_nil].
Qed.

Definition complete m (a : archive) : Prop := ∀ e t, processed_in a e t → archived m t.

Context (arb : bytes) (dis : bool).

Lemma process_complete client db a :
  healthy db → represents (contents db) a → archive_valid a → archive_ok a →
  (∀ info, Client_GetTickInfo client = Ok info → node_sane info a) → answers_wf client →
  complete (contents db) a →
  let '(o, db') := Processor.process_with arb dis client db in
  match o with
  | Ok _ => ∀ info, Client_GetTickInfo client = Ok info →
      complete (contents db')
        (update_status (last_tick info a) (next_tick info (last_tick info a)) a)
  | _ => complete (contents db') a
  end.
Proof.
  intros Hh Hrep Hval Hok Hinfo Hwf Hcomp.
  pose proof (process_cases arb dis client db a Hh Hrep Hval Hok Hinfo) as H.
  destruct (Processor.process_with _ _ client db) as [o db'].
  destruct H as [(_ & Hc & Ho & _)|(info & Hi & Hle & o2 & db2 & Ev & _ & _ & H)].
  { destruct o as [u|e|]; [by destruct (Ho u)|by rewrite Hc..]. }
  specialize (Hinfo info Hi). destruct (step_valid a info Hok Hval Hinfo Hle) as [[Hn _] Hlt].
  rewrite last_tick_number in Hlt. set (n := pb.ProcessedTick_TickNumber _) in *.
  assert (Hother : ∀ e t, processed_in a e t → archived (contents db2) t).
  { intros e t Hp. pose proof (ok_bounds _ Hok _ _ Hp) as Ht.
    pose proof (tick_writes_archived _ n db t
      (typed_ValidateTick client arb (types.TickInfo_InitialTick info) n dis)
      (writes_ValidateTick client arb (types.TickInfo_InitialTick info) n dis) Hn) as Hv.
    rewrite Ev in Hv. apply Hv; [unfold is_uint32 in *; lia|lia|].
    by eapply Hcomp. }
  destruct H as [(_ & Ho & ->)|(-> & -> & Eps & _)].
  { destruct o as [u|e|]; [by destruct (Ho u)|exact Hother..]. }
  intros info' Hi'. assert (info' = info) as -> by congruence. intros e t Hp.
  pose proof (processStatus_archived (last_tick info a) (next_tick info (last_tick info a)) db2 t)
    as Hs. rewrite Eps in Hs. apply Hs.
  apply (step_processed info a e t Hok Hinfo Hle) in Hp as [Hp|[_ ->]]; [by eapply Hother|].
  apply ValidateTick_stored in Ev as (c & db0 & Ec & Hts).
  eapply tick_stored_archived; [exact Hts|]. by eapply check_covered.
Qed.

Lemma run_complete passes db : healthy db → contents db = ∅ → reports_consistent passes →
  (∀ client, Ok client ∈ passes → answers_wf client) →
  let db' := Processor.run arb dis passes db in
  healthy db' ∧ ∃ a, represents (contents db') a ∧ archive_valid a ∧ archive_ok a ∧
    complete (contents db') a.
Proof.
  intros Hh He Hcon Hwf.
  destruct (run_invariant arb dis complete passes passes db empty_archive)
    as (Hh' & a & Hr & _ & Hv & Hrep & Hcomp); try done.
  - intros client Hin db' a. intros. apply process_complete; auto.
  - rewrite He. apply represents_empty.
  - apply rtc_refl.
  - intros e t (l & i & Hl & _). simpl in Hl. by rewrite lookup_empty in Hl.
  - split; [done|]. exists a. split_and!; try done. by apply archive_ok_reachable.
Qed.

(** C11: On a database that was empty at first and does not fail, whatever nodes the
    loop is handed and however passes end, as long as the nodes' tick reports are in
    range and consistent with each other ([reports_consistent]: a later initial tick
    never comes with an earlier epoch) and their tick data lists 32-byte digests: every
    tick of a processed interval has its complete record.  Tick data, quorum data,
    statuses and the chain digest are stored, from tick 13752150 on the store digest as
    well, and a transaction under every identifier the tick data lists. *)
Theorem run_archives passes db : healthy db → contents db = ∅ → reports_consistent passes →
  (∀ client, Ok client ∈ passes → answers_wf client) →
  ∃ a, represents (contents (Processor.run arb dis passes db)) a ∧ archive_ok a ∧
    ∀ e t, processed_in a e t → archived (contents (Processor.run arb dis passes db)) t.
Proof.
  intros Hh He Hcon Hwf. destruct (run_complete passes db Hh He Hcon Hwf)
    as (_ & a & Hrep & _ & Hok & Hc). by exists a.
Qed.
End Complete.
