(* ===== verification/Liveness.v ===== *)
(** * Progress: good passes advance the archive

    [good_pass client db]: the node is at or past the next tick, its answers
    pass validation, and what validation found can be encoded.  On a database
    that does not fail such a pass succeeds: nothing the archiver stored before
    stands in its way.  So however many other passes come in between, every
    good pass moves the archive at least one tick on. *)

From stdpp Require Import sorting base strings numbers pretty gmap list.
From S2P Require Import Prelude GoLib Types Platform Keys Store StoreLogic Frame Success Utils.
From S2P Require Import Archive Progress Typed Reads Archived Complete.
From S2P Require Import ValidatorProofs Processor ProcessorProofs.
From S2P Require Computors Quorum Tick Tx TxStatus Chain ChainProofs Validator.

Local Open Scope Z_scope.

(** ** Total correctness on one database *)
Section Succeeds.
Context {P : Pebble} {PL : PebbleLaws P}.

Definition succeeds {A} (db : DB) (c : M DB A) (Q : A → DB → Prop) : Prop :=
  ∃ a db', c db = (Ok a, db') ∧ healthy db' ∧ Q a db'.

Lemma succeeds_bind {A B} db (c : M DB A) (k : A → M DB B) Q S :
  succeeds db c Q →
  (∀ a db', healthy db' → c db = (Ok a, db') → Q a db' → succeeds db' (k a) S) →
  succeeds db (c ≫= k) S.
Proof.
  intros (a & db1 & E & Hh & HQ) Hk. destruct (Hk a db1 Hh E HQ) as (b & db2 & E2 & Hh2 & HS).
  exists b, db2. split; [|done]. unfold mbind, M_bind. by rewrite E.
Qed.

Lemma succeeds_lift {A} db (o : outcome A) a Q : healthy db → o = Ok a → Q a db →
  succeeds db (lift o) Q.
Proof. intros Hh -> HQ. by exists a, db. Qed.

Lemma succeeds_wrap {A} db msg (c : M DB A) Q : succeeds db c Q → succeeds db (mwrap msg c) Q.
Proof.
  intros (a & db1 & E & H). exists a, db1. split; [|done]. by apply wrap_success.
Qed.

Lemma succeeds_runs {A} db (c : M DB A) a m' Q : healthy db → runs (contents db) c (Ok a) m' →
  (∀ db', contents db' = m' → Q a db') → succeeds db c Q.
Proof.
  intros Hh Hr HQ. destruct (Hr db Hh eq_refl) as (db' & E & Hh' & Hc).
  exists a, db'. split_and!; [done|done|by apply HQ].
Qed.

Lemma succeeds_yields {A} db (c : M DB A) (Q : A → Prop) : healthy db →
  yields (contents db) c (λ o, ∃ a, o = Ok a ∧ Q a) →
  succeeds db c (λ a db', contents db' = contents db ∧ Q a).
Proof.
  intros Hh (o & Hr & a & -> & HQ). by eapply succeeds_runs.
Qed.

Lemma succeeds_Set db k v : healthy db →
  succeeds db (pebble_Set k v) (λ _ db', contents db' = <[k := v]> (contents db)).
Proof. intros Hh. by eapply succeeds_runs; [|apply runs_Set|]. Qed.

Lemma succeeds_Commit db b : healthy db → succeeds db (pebble_Commit b) (λ _ _, True).
Proof. intros Hh. by eapply succeeds_runs; [|apply runs_Commit|]. Qed.

Lemma succeeds_mono {A} db (c : M DB A) (Q S : A → DB → Prop) :
  succeeds db c Q → (∀ a db', c db = (Ok a, db') → Q a db' → S a db') → succeeds db c S.
Proof. intros (a & db' & E & Hh & HQ) HS. exists a, db'. auto. Qed.

Lemma succeeds_foldM {A B} (f : B → A → M DB B) (Q : B → Prop) acc l db : healthy db → Q acc →
  (∀ acc x db, x ∈ l → healthy db → Q acc → succeeds db (f acc x) (λ b _, Q b)) →
  succeeds db (foldM f acc l) (λ b _, Q b).
Proof.
  revert acc db. induction l as [|x l IH]; intros acc db Hh Hacc Hf; simpl.
  { by exists acc, db. }
  eapply succeeds_bind; [by apply Hf; [left|..]|]. intros b db' Hh' _ Hb.
  apply IH; [done|done|]. intros. apply Hf; [by right|done|done].
Qed.

(** The shape of every setter. *)
Lemma succeeds_setter {A} {PM : ProtoMsg A} db k msg msg' (x : A) b : healthy db →
  Marshal x = Ok b →
  succeeds db (serialized ← lift (wrap msg (Marshal x)); mwrap msg' (pebble_Set k serialized))
    (λ _ db', contents db' = <[k := b]> (contents db)).
Proof. intros Hh Hb. by eapply succeeds_runs; [|by apply runs_set_message|]. Qed.
End Succeeds.

(** Keys that are not those of the empty ticks. *)
Ltac away := intros k [Hk|Hk]; (eapply not_own_keys; [exact Hk|done|key_other Hk]).

Section Storing.
Context {P : Pebble} {PL : PebbleLaws P} {PR : Protobuf} {PRL : ProtobufLaws PR}.
Context {R : GoRuntime} {RL : GoRuntimeLaws R} {K : K12} {KL : K12Laws K} {N : NodeConnector}.
Implicit Types m : gmap bytes bytes.

Definition encodes {A} {PM : ProtoMsg A} (a : A) : Prop := ∃ b, Marshal a = Ok b.

(** The messages built from what validation found can be encoded: the
    conversions succeed, numbers fit, strings are UTF-8. *)
Record storable (n : Z) (c : Validator.checked) : Prop := {
  storable_votes : ∃ q, Quorum.qubicToProtoStored (Validator.checked_votes c) = Ok q ∧ encodes q;
  storable_full : ∃ q, Quorum.qubicToProto (Validator.checked_votes c) = Ok q ∧
    encodes (pb.MkLastTickQuorumDataPerEpochIntervals (Some {[0 := q]}));
  storable_data : ∃ td, Tick.qubicToProto (Validator.checked_tickData c) = Ok td ∧
    match td with Some td => encodes td | None => True end;
  storable_txs : ∃ ptxs, Tx.qubicToProto (Validator.checked_validTxs c) = Ok ptxs ∧
    Forall encodes ptxs;
  storable_transfers : ∃ ptxs groups,
    Tx.removeNonTransferTransactionsAndConvert (Validator.checked_validTxs c) = Ok ptxs ∧
    Tx.createTransferTransactionsIdentityMap ptxs = Ok groups ∧
    map_Forall (λ id txs, encodes (pb.MkTransferTransactionsPerTick n id txs)) groups;
  storable_status : encodes (Validator.checked_approvedTxs c) ∧
    Forall encodes (pb.TickTransactionsStatus_Transactions (Validator.checked_approvedTxs c));
  storable_digests : Forall (λ tx, ∃ d, Transaction_Digest tx = Ok d) (Validator.checked_validTxs c)
}.

(** ** The parts of storing succeed *)
Lemma Quorum_Store_succeeds db n votes q f : healthy db → well_typed (contents db) →
  Quorum.qubicToProtoStored votes = Ok q → encodes q → Quorum.qubicToProto votes = Ok f →
  encodes (pb.MkLastTickQuorumDataPerEpochIntervals (Some {[0 := f]})) →
  succeeds db (Quorum.Store n votes) (λ _ _, True).
Proof.
  intros Hh Ht Hq [b Hb] Hf [bf Hbf]. unfold Quorum.Store.
  eapply succeeds_bind; [by eapply succeeds_lift with (Q := λ q' _, q' = q)|].
  intros ? db1 Hh1 [_ ->]%lift_success ->.
  eapply succeeds_bind; [by apply succeeds_wrap, succeeds_setter with (b := b)|].
  intros [] db2 Hh2 E2%wrap_success _.
  assert (Ht2 : well_typed (contents db2)).
  { pose proof (typed_writes_preserve _ db (typed_SetQuorumTickData n q) Ht) as H.
    by rewrite E2 in H. }
  eapply succeeds_bind; [by eapply succeeds_lift with (Q := λ f' _, f' = f)|].
  intros ? db3 Hh3 [_ ->]%lift_success ->. apply succeeds_wrap.
  unfold SetQuorumDataForCurrentEpochInterval.
  eapply succeeds_bind.
  { apply succeeds_wrap, succeeds_yields with (Q := λ _, True); [done|].
    eapply yields_mono; [by apply yields_getProcessedTickIntervalsPerEpoch|].
    intros o (a & ->). exists a. by split. }
  intros ptie db3 Hh4 _ [Hc3 _]. cbn zeta.
  eapply succeeds_bind.
  { apply succeeds_wrap, succeeds_yields with (Q := λ l, ∃ qs,
      l = pb.MkLastTickQuorumDataPerEpochIntervals (Some qs) ∧ proto_valid l); [done|].
    eapply yields_mono;
      [apply valid_GetLastTickQuorumDataListPerEpochInterval; by rewrite Hc3|].
    intros o (qs & -> & Hqs). eexists. split; [done|]. by exists qs. }
  intros ? db4 Hh5 _ [Hc4 (qs & -> & Hqs)].
  eapply succeeds_bind; [by eapply succeeds_lift with (Q := λ w _, w = qs)|].
  intros ? db5 Hh6 _ ->. apply succeeds_wrap. unfold SetLastTickQuorumDataPerEpochIntervals.
  set (i := int32 _). assert (Hi : - 2 ^ 31 ≤ i < 2 ^ 31) by apply int32_bounds.
  apply Marshal_refuses in Hbf.
  destruct (Marshal_valid _ (LastTickQuorumDataPerEpochIntervals_insert_valid qs i 0 f Hi Hqs Hbf))
    as [b' Hb'].
  eapply succeeds_mono; [by apply succeeds_setter with (b := b')|done].
Qed.

Lemma Tick_Store_succeeds db n d td : healthy db → Tick.qubicToProto d = Ok td →
  match td with Some td => encodes td | None => True end →
  succeeds db (Tick.Store n d) (λ _ _, True).
Proof.
  intros Hh Hd He. unfold Tick.Store. rewrite Hd.
  eapply succeeds_bind; [by eapply succeeds_lift with (Q := λ td' _, td' = td)|].
  intros ? db1 Hh1 _ ->. apply succeeds_wrap. unfold SetTickData. destruct td as [td|].
  - destruct He as [b Hb]. eapply succeeds_mono; [by apply succeeds_setter with (b := b)|done].
  - rewrite Marshal_nil_ok. eapply succeeds_bind; [by eapply succeeds_lift with (Q := λ b _, b = [])|].
    intros ? db2 Hh2 _ ->. eapply succeeds_mono; [by apply succeeds_wrap, succeeds_Set|done].
Qed.

Lemma Tx_Store_succeeds db n txs ptxs tr groups : healthy db → Tx.qubicToProto txs = Ok ptxs →
  Forall encodes ptxs → Tx.removeNonTransferTransactionsAndConvert txs = Ok tr →
  Tx.createTransferTransactionsIdentityMap tr = Ok groups →
  map_Forall (λ id txs, encodes (pb.MkTransferTransactionsPerTick n id txs)) groups →
  succeeds db (Tx.Store n txs) (λ _ _, True).
Proof.
  intros Hh Hp He Htr Hg Hge. unfold Tx.Store, Tx.storeTickTransactions, SetTransactions.
  rewrite Hp. eapply succeeds_bind.
  { apply succeeds_wrap. eapply succeeds_bind;
      [by eapply succeeds_lift with (Q := λ p _, p = ptxs)|].
    intros ? db1 Hh1 _ ->. apply succeeds_wrap. eapply succeeds_bind.
    - apply (succeeds_foldM _ (λ _, True)); [done|done|]. intros b tx db2 Hin Hh2 _.
      unfold SetTransactions_step. rewrite Forall_forall in He. destruct (He tx Hin) as [v Hv].
      destruct (Batch_Set_ok b ([Keys.Transaction] ++ string_bytes (pb.Transaction_TxId tx)) v)
        as (b' & Hb' & _).
      exists b', db2. split_and!; [|done|done]. rewrite Hv. simpl in Hb'.
      unfold mbind, M_bind, lift. simpl. by rewrite Hb'.
    - intros b db2 Hh2 _ _. by apply succeeds_wrap, succeeds_Commit. }
  intros [] db1 Hh1 _ _. apply succeeds_wrap. unfold Tx.storeTransferTransactions.
  eapply succeeds_bind; [eapply succeeds_lift with (Q := λ p _, p = tr); [done| |done]; by rewrite Htr|].
  intros ? db2 Hh2 _ ->.
  eapply succeeds_bind; [eapply succeeds_lift with (Q := λ p _, p = groups); [done| |done]; by rewrite Hg|].
  intros ? db3 Hh3 _ ->.
  eapply succeeds_mono; [apply (succeeds_foldM _ (λ _, True)); [done|done|]|done].
  intros [] [id l] db4 Hin Hh4 _. rewrite map_range_perm in Hin. apply elem_of_map_to_list in Hin.
  destruct (Hge id l Hin) as [b Hb]. apply succeeds_wrap. unfold PutTransferTransactionsPerTick.
  eapply succeeds_mono; [by apply succeeds_setter with (b := b)|done].
Qed.

Lemma TxStatus_Store_succeeds db n tts : healthy db → encodes tts →
  Forall encodes (pb.TickTransactionsStatus_Transactions tts) →
  succeeds db (TxStatus.Store n tts) (λ _ _, True).
Proof.
  intros Hh [v Hv] He. unfold TxStatus.Store, SetTickTransactionsStatus. apply succeeds_wrap.
  rewrite Hv. eapply succeeds_bind; [by eapply succeeds_lift with (Q := λ p _, p = v)|].
  intros ? db1 Hh1 _ ->.
  destruct (Batch_Set_ok NewBatch (tickTxStatusKey (uint64 n)) v) as (b & Hb & _). rewrite Hb.
  eapply succeeds_bind; [by eapply succeeds_lift with (Q := λ p _, p = b)|].
  intros ? db2 Hh2 _ ->. eapply succeeds_bind.
  - apply (succeeds_foldM _ (λ _, True)); [done|done|]. intros b' st db3 Hin Hh3 _.
    unfold SetTickTransactionsStatus_step. rewrite Forall_forall in He. destruct (He st Hin) as [w Hw].
    destruct (Batch_Set_ok b' (txStatusKey (pb.TransactionStatus_TxId st)) w) as (b2 & Hb2 & _).
    exists b2, db3. split_and!; [|done|done]. rewrite Hw.
    unfold mbind, M_bind, lift. simpl. by rewrite Hb2.
  - intros b' db3 Hh3 _ _. by apply succeeds_wrap, succeeds_Commit.
Qed.

(** Where the chain of an epoch starts, or goes on from the tick before. *)
Lemma ComputeAndSave_succeeds db i n v : healthy db →
  n = i ∨ is_Some (contents db !! chainDigestKey (uint32 (n - 1))) →
  succeeds db (Chain.ComputeAndSave i n v) (λ _ _, True).
Proof.
  intros Hh Hprev. unfold Chain.ComputeAndSave. eapply succeeds_bind.
  - apply succeeds_wrap. instantiate (1 := λ _ _, True). unfold Chain.getPrevChainDigest.
    case_bool_decide as Hi; [by eexists _, db|]. destruct Hprev as [?|[d Hd]]; [done|].
    eapply succeeds_runs; [done| |done].
    runs_step (runs_wrapped; eapply runs_map_err; [by apply runs_Get_Some|done]). apply runs_ret.
  - intros prev db1 Hh1 _ _. eapply succeeds_bind.
    + rewrite ChainProofs.computeCurrentTickDigest_link.
      by eapply succeeds_lift with (Q := λ _ _, True).
    + intros d db2 Hh2 _ _. unfold PutChainDigest. apply succeeds_wrap, succeeds_wrap.
      eapply succeeds_mono; [by apply succeeds_Set|done].
Qed.

(** A missing store digest of the tick before counts as zero. *)
Lemma ComputeStoreAndSave_succeeds db i n txs tts : healthy db → encodes tts →
  Forall (λ tx, ∃ d, Transaction_Digest tx = Ok d) txs →
  succeeds db (Chain.ComputeStoreAndSave i n txs tts) (λ _ _, True).
Proof.
  intros Hh [b Hb] Hd. unfold Chain.ComputeStoreAndSave. case_bool_decide; [by eexists _, db|].
  eapply succeeds_bind.
  - apply succeeds_wrap. instantiate (1 := λ _ _, True). unfold Chain.getPrevStoreDigest.
    case_bool_decide; [by eexists _, db|].
    destruct (contents db !! storeDigestKey (uint32 (n - 1))) as [v|] eqn:E;
      (eapply succeeds_runs; [done| |done]).
    + runs_step (eapply runs_attempt; [eapply runs_map_err; [by apply runs_Get_Some|done]|done]).
      apply runs_ret.
    + runs_step (eapply runs_attempt; [eapply runs_map_err; [by apply runs_Get_None|done]|done]).
      apply runs_ret.
  - intros prev db1 Hh1 _ _. rewrite Forall_forall in Hd.
    destruct (ChainProofs.digests_collected txs [] Hd) as (ds & _ & Hds).
    eapply succeeds_bind with (Q := λ _ _, True).
    + unfold Chain.computeCurrentTickStoreDigest, Chain.Store_Digest, Chain.Store_MarshallBinary.
      cbn [Chain.Store_ValidTxs Chain.Store_TickTxsStatus]. rewrite Hds. ok_step. rewrite Hb. ok_step.
      rewrite K12Hash_hash_of. by eapply succeeds_lift.
    + intros d db2 Hh2 _ _. unfold PutStoreDigest. apply succeeds_wrap, succeeds_wrap.
      eapply succeeds_mono; [by apply succeeds_Set|done].
Qed.

(** An epoch with a count of empty ticks has a list of them. *)
Definition lists_present m : Prop := ∀ e,
  is_Some (m !! emptyTicksPerEpochKey e) → is_Some (m !! emptyTickListPerEpochKey e).

Lemma list_key_of_count e e' : emptyTicksPerEpochKey e = emptyTicksPerEpochKey e' →
  emptyTickListPerEpochKey e = emptyTickListPerEpochKey e'.
Proof.
  unfold emptyTicksPerEpochKey, emptyTickListPerEpochKey, BigEndian_AppendUint64.
  by intros ->%app_inv_head.
Qed.

(** Writing the list, before or after the count. *)
Lemma lists_present_list m e v : lists_present m →
  lists_present (<[emptyTickListPerEpochKey e := v]> m).
Proof.
  intros Hm e' He'. rewrite lookup_insert_ne in He' by auto with keys.
  apply Hm in He'. destruct (decide (emptyTickListPerEpochKey e = emptyTickListPerEpochKey e')) as [->|].
  - rewrite lookup_insert_eq. by eexists.
  - by rewrite lookup_insert_ne.
Qed.

Lemma lists_present_count m e v : lists_present m → is_Some (m !! emptyTickListPerEpochKey e) →
  lists_present (<[emptyTicksPerEpochKey e := v]> m).
Proof.
  intros Hm He e' He'. rewrite lookup_insert_ne by auto with keys.
  destruct (decide (emptyTicksPerEpochKey e = emptyTicksPerEpochKey e')) as [Heq|Hne].
  - by rewrite <-(list_key_of_count _ _ Heq).
  - rewrite lookup_insert_ne in He' by done. by apply Hm.
Qed.

Lemma lists_present_agree m m' :
  (∀ k, key_kind k = Some EmptyTicksPerEpoch ∨ key_kind k = Some EmptyTickListPerEpoch →
        m' !! k = m !! k) → lists_present m → lists_present m'.
Proof.
  intros Hag Hm e. rewrite !Hag by auto. apply Hm.
Qed.

(** What recording an empty tick reads. *)
Lemma runs_count m e : well_typed m →
  ∃ r c, runs m (mattempt (GetEmptyTicksForEpoch e)) (Ok r) m ∧
    (r = inl c ∧ is_Some (m !! emptyTicksPerEpochKey e) ∨ r = inr PebbleErrNotFound ∧ c = 0).
Proof.
  intros Ht. destruct (m !! emptyTicksPerEpochKey e) as [v|] eqn:E.
  - assert (Hv : ∃ c, LittleEndian_Uint32 v = Ok c).
    { pose proof (Ht _ _ E) as Hty. typed_inv Hty. apply Uint32_Put_found. }
    destruct Hv as [c Hc]. exists (inl c), c. split; [|left; split; [done|by eexists]].
    apply (runs_attempt _ _ _ (Ok c)); [|done]. unfold GetEmptyTicksForEpoch.
    runs_step (eapply runs_map_err; [by apply runs_Get_Some|done]). rewrite Hc. apply runs_lift.
  - exists (inr PebbleErrNotFound), 0. split; [|by right].
    apply (runs_attempt _ _ _ (Err PebbleErrNotFound)); [|done].
    apply runs_bind_err. eapply runs_map_err; [by apply runs_Get_None|done].
Qed.

Lemma runs_list m e : well_typed m → is_Some (m !! emptyTickListPerEpochKey e) →
  ∃ l, runs m (GetEmptyTickListPerEpoch e) (Ok l) m.
Proof.
  intros Ht [v Hv]. pose proof (Ht _ _ Hv) as Hty. eexists. unfold GetEmptyTickListPerEpoch.
  runs_step (eapply runs_map_err; [by apply runs_Get_Some|done]).
  rewrite bool_decide_false; [apply runs_ret|]. intros Hne. apply Hne.
  typed_inv Hty. apply encoded_ticks_mod.
Qed.

(** Counting an empty tick: the list is there to be extended. *)
Lemma record_empty_tick_succeeds db e n : healthy db → well_typed (contents db) →
  lists_present (contents db) →
  succeeds db (Validator.record_empty_tick e n) (λ _ db', lists_present (contents db')).
Proof.
  intros Hh Ht Hl. unfold Validator.record_empty_tick.
  destruct (runs_count _ e Ht) as (r & c & Hr & Hc). set (m := contents db) in *.
  eapply succeeds_bind; [by eapply succeeds_runs with (Q := λ r' db', r' = r ∧ contents db' = m)|].
  intros ? db1 Hh1 _ [-> Hc1]. eapply succeeds_bind with (Q := λ c' db', c' = c ∧ contents db' = m).
  { destruct Hc as [[-> _]|[-> ->]]; [by exists c, db1|by exists 0, db1]. }
  intros ? db2 Hh2 _ [-> Hc2].
  eapply succeeds_bind with (Q := λ _ db', well_typed (contents db') ∧ lists_present (contents db') ∧
    is_Some (contents db' !! emptyTickListPerEpochKey e)).
  { case_bool_decide as Hz.
    - apply succeeds_wrap. unfold SetEmptyTickListPerEpoch. apply succeeds_wrap.
      eapply succeeds_mono; [by apply succeeds_Set|]. intros [] db3 _ ->. rewrite Hc2. split_and!.
      + apply map_Forall_insert_2; [apply (typed_EmptyTickList e [])|done].
      + by apply lists_present_list.
      + rewrite lookup_insert_eq. by eexists.
    - exists tt, db2. rewrite Hc2. split_and!; try done.
      destruct Hc as [[_ Hs]|[_ ?]]; [by apply Hl|done]. }
  intros [] db3 Hh3 _ (Ht3 & Hl3 & Hs3). eapply succeeds_bind with (Q := λ _ db',
    well_typed (contents db') ∧ lists_present (contents db') ∧
    is_Some (contents db' !! emptyTickListPerEpochKey e)).
  { apply succeeds_wrap. unfold SetEmptyTicksForEpoch. apply succeeds_wrap.
    eapply succeeds_mono; [by apply succeeds_Set|]. intros [] db4 _ ->. split_and!.
    - apply map_Forall_insert_2; [apply typed_EmptyTicks|done].
    - by apply lists_present_count.
    - by rewrite lookup_insert_ne by auto with keys. }
  intros [] db4 Hh4 _ (Ht4 & Hl4 & Hs4). apply succeeds_wrap.
  unfold AppendEmptyTickToEmptyTickListPerEpoch. destruct (runs_list _ e Ht4 Hs4) as [l Hrl].
  eapply succeeds_bind; [apply succeeds_wrap;
    by eapply succeeds_runs with (Q := λ _ db', contents db' = contents db4)|].
  intros l' db5 Hh5 _ Hc5. apply succeeds_wrap. unfold SetEmptyTickListPerEpoch.
  apply succeeds_wrap. eapply succeeds_mono; [by apply succeeds_Set|].
  intros [] db6 _ ->. rewrite Hc5. by apply lists_present_list.
Qed.

(** ** Storing succeeds *)
Lemma succeeds_then {A B} db (c : M DB A) (k : A → M DB B) own S :
  well_typed (contents db) → writes_only typed_write c → writes_only (on own) c →
  succeeds db c (λ _ _, True) →
  (∀ a db', healthy db' → well_typed (contents db') →
     (∀ x, ¬ own x → contents db' !! x = contents db !! x) → succeeds db' (k a) S) →
  succeeds db (c ≫= k) S.
Proof.
  intros Ht Htw Hw Hc Hk. eapply succeeds_bind; [exact Hc|]. intros a db' Hh' E _. apply Hk.
  - done.
  - pose proof (typed_writes_preserve _ db Htw Ht) as H. by rewrite E in H.
  - intros x Hx. by eapply unchanged.
Qed.

Lemma store_tick_succeeds db i n c : healthy db → well_typed (contents db) →
  lists_present (contents db) → n = i ∨ is_Some (contents db !! chainDigestKey (uint32 (n - 1))) →
  storable n c →
  succeeds db (Validator.store_tick i n c) (λ _ _, True).
Proof.
  intros Hh Ht Hl Hprev [(q & Hq & Heq) (f & Hf & Hef) (td & Htd & Hetd) (ptxs & Hp & Hep)
    (tr & gr & Htr & Hgr & Heg) [Hst Hest] Hdg].
  unfold Validator.store_tick.
  eapply succeeds_then; [done|apply writes_wrap, typed_Quorum_Store|apply writes_wrap, writes_Quorum_Store
    |by apply succeeds_wrap; eapply Quorum_Store_succeeds|]. intros [] db1 Hh1 Ht1 F1.
  eapply succeeds_then; [done|apply writes_wrap, typed_Tick_Store|apply writes_wrap, writes_Tick_Store
    |by apply succeeds_wrap; eapply Tick_Store_succeeds|]. intros [] db2 Hh2 Ht2 F2.
  eapply succeeds_then; [done|apply writes_wrap, typed_Tx_Store|apply writes_wrap, writes_Tx_Store
    |by apply succeeds_wrap; eapply Tx_Store_succeeds|]. intros [] db3 Hh3 Ht3 F3.
  eapply succeeds_then; [done|apply writes_wrap, writes_wrap, typed_SetTickTransactionsStatus
    |apply writes_wrap, writes_TxStatus_Store
    |by apply succeeds_wrap, TxStatus_Store_succeeds|]. intros [] db4 Hh4 Ht4 F4.
  assert (Hfirst : ∃ first, index (Validator.checked_votes c) 0 = Ok first).
  { unfold Quorum.qubicToProtoStored in Hq. apply bind_Ok in Hq as (first & Hfirst & _). by exists first. }
  destruct Hfirst as [first Hfirst].
  eapply succeeds_bind; [by eapply succeeds_lift with (Q := λ v db', db' = db4)|].
  intros v db5 Hh5 _ ->.
  eapply succeeds_then; [done|apply writes_wrap, typed_ComputeAndSave|apply writes_wrap, writes_ComputeAndSave
    |apply succeeds_wrap, ComputeAndSave_succeeds; [done|]|].
  { destruct Hprev as [?|Hprev]; [by left|right]. by rewrite F4, F3, F2, F1 by not_own. }
  intros [] db5 Hh6 Ht5 F5.
  eapply succeeds_then; [done|apply writes_wrap, typed_ComputeStoreAndSave
    |apply writes_wrap, writes_ComputeStoreAndSave
    |by apply succeeds_wrap, ComputeStoreAndSave_succeeds|]. intros [] db6 Hh7 Ht6 F6.
  eapply succeeds_bind with (Q := λ _ db', db' = db6).
  { unfold Tick.CheckIfTickIsEmpty. rewrite Htd. by eapply succeeds_lift. }
  intros isEmpty db7 Hh8 _ ->. destruct isEmpty; [|by exists tt, db6].
  eapply succeeds_mono; [apply record_empty_tick_succeeds; [done|done|]|done].
  eapply lists_present_agree; [|exact Hl]. intros k [Hk|Hk];
    (rewrite F6, F5, F4, F3, F2, F1; [done|eapply not_own_keys; [exact Hk|done|key_other Hk]..]).
Qed.

(** ** Every pass keeps the lists of empty ticks with their counts *)
Definition sound m : Prop := well_typed m ∧ lists_present m.

Definition keeps {A} (c : M DB A) : Prop := ∀ db, healthy db → sound (contents db) →
  healthy (c db).2 ∧ sound (contents (c db).2).

Lemma keeps_bind {A B} (c : M DB A) (k : A → M DB B) :
  keeps c → (∀ a, keeps (k a)) → keeps (c ≫= k).
Proof.
  intros Hc Hk db Hh Hs. destruct (Hc db Hh Hs) as [Hh1 Hs1]. unfold mbind, M_bind.
  destruct (c db) as [[a|e|] db1]; simpl in *; [by apply Hk|done|done].
Qed.

Lemma keeps_wrap {A} msg (c : M DB A) : keeps c → keeps (mwrap msg c).
Proof. intros Hc db Hh Hs. rewrite mwrap_run. by apply Hc. Qed.

Lemma keeps_lift {A} (o : outcome A) : keeps (lift o).
Proof. by intros db Hh Hs. Qed.

(** Typed writes away from the two kinds. *)
Lemma keeps_writes {A} (c : M DB A) keys kinds : writes_only typed_write c →
  writes_only (on (own_keys keys kinds)) c →
  (∀ k, key_kind k = Some EmptyTicksPerEpoch ∨ key_kind k = Some EmptyTickListPerEpoch →
        ¬ own_keys keys kinds k) → keeps c.
Proof.
  intros Ht Hw Hk db Hh [Hs Hl]. destruct (Hw db) as (Hh' & _). split; [by auto|]. split.
  - by apply typed_writes_preserve.
  - eapply lists_present_agree; [|exact Hl]. intros k Hkk. eapply frame_outside; [exact Hw|auto].
Qed.

Lemma keeps_succeeds {A} (c : M DB A) : writes_only typed_write c →
  (∀ db, healthy db → sound (contents db) → succeeds db c (λ _ db', lists_present (contents db'))) →
  keeps c.
Proof.
  intros Ht Hc db Hh Hs. destruct (Hc db Hh Hs) as (a & db' & E & Hh' & Hl).
  pose proof (typed_writes_preserve _ db Ht (proj1 Hs)) as Hty. rewrite E in Hty |- *. by split.
Qed.

Lemma keeps_record_empty_tick e n : keeps (Validator.record_empty_tick e n).
Proof.
  apply keeps_succeeds; [apply typed_record_empty_tick|].
  intros db Hh [Ht Hl]. by apply record_empty_tick_succeeds.
Qed.

(** A step with its two write frames, typed and located. *)
Ltac keep_part typed located := eapply keeps_writes; [apply typed|apply located|away].

Lemma keeps_ValidateTick qu arb i n d : keeps (Validator.ValidateTick qu arb i n d).
Proof.
  unfold Validator.ValidateTick, Validator.store_tick.
  apply keeps_bind; [keep_part typed_check writes_check|]. intros c.
  apply keeps_bind; [apply keeps_wrap; keep_part typed_Quorum_Store writes_Quorum_Store|intros _].
  apply keeps_bind; [apply keeps_wrap; keep_part typed_Tick_Store writes_Tick_Store|intros _].
  apply keeps_bind; [apply keeps_wrap; keep_part typed_Tx_Store writes_Tx_Store|intros _].
  apply keeps_bind; [apply keeps_wrap; keep_part typed_TxStatus_Store writes_TxStatus_Store|intros _].
  apply keeps_bind; [apply keeps_lift|intros first].
  apply keeps_bind; [apply keeps_wrap; keep_part typed_ComputeAndSave writes_ComputeAndSave|intros _].
  apply keeps_bind;
    [apply keeps_wrap; keep_part typed_ComputeStoreAndSave writes_ComputeStoreAndSave|intros _].
  apply keeps_bind; [apply keeps_lift|intros []; [apply keeps_record_empty_tick|apply keeps_lift]].
Qed.

Lemma keeps_process_with arb dis client : keeps (process_with arb dis client).
Proof.
  unfold process_with. apply keeps_bind; [apply keeps_lift|intros info].
  apply keeps_bind.
  { apply keeps_wrap. eapply (keeps_writes _ [] []); [| |away].
    - unfold getLastProcessedTick, GetLastProcessedTick. frame_steps.
    - unfold getLastProcessedTick, GetLastProcessedTick. frame_steps. }
  intros last. apply keeps_bind; [apply keeps_lift|intros next].
  case_bool_decide; [apply keeps_lift|].
  apply keeps_bind; [apply keeps_wrap, keeps_ValidateTick|intros _]. apply keeps_wrap.
  keep_part typed_processStatus writes_processStatus.
Qed.

(** ** Good passes *)
Context {TL : TransactionLaws N}.
Context (arb : bytes) (dis : bool).

(** The node's epoch has begun and its tick is not behind the next one; its
    answers about that tick pass validation, and what validation finds can be
    encoded. *)
Definition good_pass (client : Client) (db : DB) : Prop := ∃ info last next c db1,
  Client_GetTickInfo client = Ok info ∧ 1 ≤ types.TickInfo_InitialTick info ∧
  getLastProcessedTick info db = (Ok last, db) ∧ getNextProcessingTick last info = Ok next ∧
  pb.ProcessedTick_TickNumber next ≤ types.TickInfo_Tick info ∧
  Validator.check client arb (pb.ProcessedTick_TickNumber next) dis db = (Ok c, db1) ∧
  storable (pb.ProcessedTick_TickNumber next) c.

(** The tick before the next one has its chain digest, or there is none. *)
Lemma next_tick_chained m a info : complete m a → archive_ok a → node_sane info a →
  1 ≤ types.TickInfo_InitialTick info →
  let n := pb.ProcessedTick_TickNumber (next_tick info (last_tick info a)) in
  n = types.TickInfo_InitialTick info ∨ is_Some (m !! chainDigestKey (uint32 (n - 1))).
Proof.
  intros Hc Hok Hsane Hinit n. unfold n, next_tick. case_bool_decide as Hi; [by left|]. right. simpl.
  rewrite last_tick_number in *. pose proof (last_number_nonneg a Hok) as H0.
  replace (last_number a + 1 - 1) with (last_number a) by lia.
  unfold last_number in *. destruct (ar_last a) as [pt|] eqn:E; [|lia].
  destruct (ok_last _ Hok pt E) as (Hb & _ & _ & l & i & Hl & Hlast & Hi').
  rewrite uint32_small by lia. eapply archived_chain, (Hc (pb.ProcessedTick_Epoch pt)).
  exists l, i. split; [done|]. assert (Hin : i ∈ l) by (by apply last_Some_elem_of).
  split; [done|]. destruct (ok_epoch _ Hok _ _ Hl) as (_ & Hne & _).
  rewrite Forall_forall in Hne. specialize (Hne i Hin). unfold interval_nonempty in Hne.
  unfold in_interval. lia.
Qed.

Lemma good_pass_step client db a : healthy db → represents (contents db) a → archive_valid a →
  archive_ok a → (∀ info, Client_GetTickInfo client = Ok info → node_sane info a) →
  sound (contents db) → complete (contents db) a → good_pass client db →
  (process_with arb dis client db).1 = Ok tt.
Proof.
  intros Hh Hrep Hval Hok Hinfo [Ht Hl] Hcomp (info & last & next & c & db1 & Hi & Hinit & Hlast &
    Hnext & Hle & Hcheck & Hst).
  pose proof (process_cases arb dis client db a Hh Hrep Hval Hok Hinfo) as H.
  specialize (Hinfo info Hi).
  rewrite (getLastProcessedTick_archive db a info Hh Hrep) in Hlast. injection Hlast as <-.
  rewrite getNextProcessingTick_next in Hnext by done. injection Hnext as <-.
  destruct (process_with arb dis client db) as [o db']. simpl.
  destruct H as [(_ & _ & _ & Hlt)|(info' & Hi' & _ & o2 & db2 & Ev & _ & _ & H)].
  { specialize (Hlt info Hi). lia. }
  assert (info' = info) as -> by congruence.
  destruct H as [(Ho2 & _)|(_ & -> & _)]; [exfalso|done].
  unfold Validator.ValidateTick, mbind, M_bind in Ev. rewrite Hcheck in Ev.
  pose proof (frame_outside _ _ _ db (chainDigestKey (uint32
    (pb.ProcessedTick_TickNumber (next_tick info (last_tick info a)) - 1)))
    (writes_check client arb (pb.ProcessedTick_TickNumber (next_tick info (last_tick info a))) dis))
    as Hf. rewrite Hcheck in Hf. simpl in Hf.
  pose proof (keeps_writes _ _ _
    (typed_check client arb (pb.ProcessedTick_TickNumber (next_tick info (last_tick info a))) dis)
    (writes_check client arb (pb.ProcessedTick_TickNumber (next_tick info (last_tick info a))) dis)
    ltac:(away) db Hh (conj Ht Hl)) as Hk. rewrite Hcheck in Hk. destruct Hk as [Hh1 [Ht1 Hl1]].
  destruct (store_tick_succeeds db1 (types.TickInfo_InitialTick info)
    (pb.ProcessedTick_TickNumber (next_tick info (last_tick info a))) c Hh1 Ht1 Hl1)
    as ([] & db3 & E3 & _); [|done|].
  - destruct (next_tick_chained _ a info Hcomp Hok Hinfo Hinit) as [?|Hs]; [by left|right].
    rewrite Hf by not_own. exact Hs.
  - simpl in Ht1, E3. rewrite E3 in Ev. injection Ev as <- <-. by destruct (Ho2 tt).
Qed.

(** ** The loop *)

(** What is enough to serve requests, and what the loop maintains besides, for the
    reports of all its passes. *)
Record serving (all : list (outcome Client)) (db : DB) (a : archive) : Prop := {
  serving_healthy : healthy db;
  serving_represents : represents (contents db) a;
  serving_valid : archive_valid a;
  serving_ok : archive_ok a;
  serving_typed : well_typed (contents db);
  serving_complete : complete (contents db) a;
  serving_reported : last_reported all a
}.

Record running (all : list (outcome Client)) (db : DB) (a : archive) : Prop := {
  running_serving : serving all db a;
  running_lists : lists_present (contents db)
}.

Lemma running_sound all db a : running all db a → sound (contents db).
Proof. intros [Hs Hl]. split; [apply Hs|done]. Qed.

Lemma serving_sane all db a client : reports_consistent all → serving all db a → Ok client ∈ all →
  ∀ info, Client_GetTickInfo client = Ok info → node_sane info a.
Proof.
  intros Hcon Hr Hin info Hi. eapply reported_sane; [done|by apply Hr|by exists client].
Qed.

(** The same archive in another database. *)
Lemma serving_agree all db db' a : serving all db a → healthy db' → well_typed (contents db') →
  (∀ k x, key_kind k = Some x → bookkeeping_kind x → contents db' !! k = contents db !! k) →
  (∀ e t, processed_in a e t → archived (contents db) t → archived (contents db') t) →
  serving all db' a.
Proof.
  intros [Hh Hrep Hval Hok Ht Hc Hl] Hh' Ht' Hbook Harch. split; try done.
  - by eapply represents_agree.
  - intros e t Hp. eapply Harch; [done|]. by eapply Hc.
Qed.

(** One pass, whatever its outcome. *)
Lemma serving_pass all client db a : reports_consistent all → Ok client ∈ all → answers_wf client →
  serving all db a →
  let '(o, db') := process_with arb dis client db in
  ∃ a', serving all db' a' ∧ last_number a ≤ last_number a' ∧
        (o = Ok tt → last_number a < last_number a') ∧
        (∀ e t, processed_in a e t → processed_in a' e t) ∧ (a' = a ∨ step a a').
Proof.
  intros Hcon Hin Hwf Hr. pose proof (serving_sane all db a client Hcon Hr Hin) as Hsane.
  destruct Hr as [Hh Hrep Hval Hok Ht Hc Hl].
  pose proof (process_step arb dis client db a Hh Hrep Hval Hok Hsane) as Hstep.
  pose proof (process_complete arb dis client db a Hh Hrep Hval Hok Hsane Hwf Hc) as Hcomp.
  pose proof (typed_writes_preserve _ db (typed_process_with arb dis client) Ht) as Ht'.
  destruct (process_with arb dis client db) as [o db']. destruct Hstep as [Hh' Hstep].
  destruct o as [[]|e|]; [|exists a; split_and!; done || lia || by left..].
  destruct Hstep as (info & Hi & Hle & Hst & Hrep' & Hval'). eexists.
  split; [split; [done|exact Hrep'|done|by eapply archive_ok_step|done|by apply Hcomp|]|].
  - apply last_reported_step; [done|by exists client].
  - destruct (step_valid a info Hok Hval (Hsane info Hi) Hle) as [_ Hlt].
    rewrite last_tick_number in Hlt. rewrite update_status_last_number.
    split; [lia|]. split; [lia|]. split; [|by right]. intros e t Hp. apply step_processed; auto.
Qed.

Lemma running_pass all client db a : reports_consistent all → Ok client ∈ all → answers_wf client →
  running all db a →
  let '(o, db') := process_with arb dis client db in
  ∃ a', running all db' a' ∧ last_number a ≤ last_number a' ∧
        (o = Ok tt → last_number a < last_number a').
Proof.
  intros Hcon Hin Hwf Hr. pose proof (running_serving _ _ _ Hr) as Hs.
  pose proof (serving_pass all client db a Hcon Hin Hwf Hs) as Hp.
  destruct (keeps_process_with arb dis client db (serving_healthy _ _ _ Hs)
    (running_sound _ _ _ Hr)) as [_ [_ Hl]].
  destruct (process_with arb dis client db) as [o db'].
  destruct Hp as (a' & Hs' & Hle & Hlt & _). exists a'. by split; [split|].
Qed.

Lemma good_pass_running all client db a : reports_consistent all → Ok client ∈ all →
  running all db a → good_pass client db → (process_with arb dis client db).1 = Ok tt.
Proof.
  intros Hcon Hin Hr Hg. pose proof (running_sound _ _ _ Hr) as Hs. destruct Hr as [Hr _].
  eapply good_pass_step; [apply Hr..|by eapply serving_sane|done|apply Hr|done].
Qed.

(** At least [k] of the passes are good when their turn comes, and none
    before the last of them panics. *)
Inductive good_passes : nat → list (outcome Client) → DB → Prop :=
| good_done passes db : good_passes 0 passes db
| good_next k client passes db : good_pass client db →
    good_passes k passes (process_with arb dis client db).2 →
    good_passes (S k) (Ok client :: passes) db
| good_later k client passes db : (process_with arb dis client db).1 ≠ Panic →
    good_passes k passes (process_with arb dis client db).2 →
    good_passes k (Ok client :: passes) db
| good_unconnected k e passes db : good_passes k passes db →
    good_passes k (Err e :: passes) db.

Lemma run_cons_client client passes db : (process_with arb dis client db).1 ≠ Panic →
  run arb dis (Ok client :: passes) db = run arb dis passes (process_with arb dis client db).2.
Proof. cbn [run processOneByOne]. by destruct (process_with arb dis client db) as [[[]|e|] db']. Qed.

(** What every pass keeps while the archive grows, the loop keeps. *)
Lemma run_maintains (I : DB → archive → Prop) passes :
  (∀ client db a, Ok client ∈ passes → I db a →
    ∃ a', I (process_with arb dis client db).2 a' ∧ last_number a ≤ last_number a') →
  ∀ db a, I db a → ∃ a', I (run arb dis passes db) a' ∧ last_number a ≤ last_number a'.
Proof.
  induction passes as [|get passes IH]; intros Hpass db a Hr; [by exists a|].
  specialize (IH (λ client db a Hin, Hpass client db a ltac:(by right))).
  destruct get as [client|e|]; simpl; [|by apply IH|by exists a].
  destruct (Hpass client db a ltac:(by left) Hr) as (a1 & Hr1 & Hle1).
  destruct (process_with arb dis client db) as [[u|e|] db']; [| |by exists a1].
  all: destruct (IH db' a1 Hr1) as (a2 & Hr2 & Hle2); exists a2; split; [done|lia].
Qed.

Lemma run_running all passes db a : reports_consistent all →
  (∀ client, Ok client ∈ all → answers_wf client) → (∀ x, x ∈ passes → x ∈ all) →
  running all db a →
  ∃ a', running all (run arb dis passes db) a' ∧ last_number a ≤ last_number a'.
Proof.
  intros Hcon Hwf Hsub. apply (run_maintains (running all)). intros client db' a' Hin Hr.
  pose proof (running_pass all client db' a' Hcon (Hsub _ Hin) (Hwf client (Hsub _ Hin)) Hr) as Hp.
  destruct (process_with arb dis client db') as [o db1]. destruct Hp as (a1 & H1 & Hle & _). by exists a1.
Qed.

Lemma run_serving all passes db a : reports_consistent all →
  (∀ client, Ok client ∈ all → answers_wf client) → (∀ x, x ∈ passes → x ∈ all) →
  serving all db a →
  ∃ a', serving all (run arb dis passes db) a' ∧ last_number a ≤ last_number a'.
Proof.
  intros Hcon Hwf Hsub. apply (run_maintains (serving all)). intros client db' a' Hin Hr.
  pose proof (serving_pass all client db' a' Hcon (Hsub _ Hin) (Hwf client (Hsub _ Hin)) Hr) as Hp.
  destruct (process_with arb dis client db') as [o db1]. destruct Hp as (a1 & H1 & Hle & _). by exists a1.
Qed.

Lemma good_passes_advance all k passes db a : reports_consistent all →
  (∀ client, Ok client ∈ all → answers_wf client) → (∀ x, x ∈ passes → x ∈ all) →
  running all db a → good_passes k passes db →
  ∃ a', running all (run arb dis passes db) a' ∧ last_number a + Z.of_nat k ≤ last_number a'.
Proof.
  intros Hcon Hwf Hsub Hr Hg. revert a Hsub Hr.
  induction Hg as [passes db|k client passes db Hgood Hg IH|k client passes db Hnp Hg IH
    |k e passes db Hg IH]; intros a Hsub Hr.
  - destruct (run_running all passes db a Hcon Hwf Hsub Hr) as (a' & ? & ?). exists a'. split; [done|lia].
  - assert (Hin : Ok client ∈ all) by (apply Hsub; by left).
    assert (Hok : (process_with arb dis client db).1 = Ok tt)
      by eauto using good_pass_running.
    rewrite run_cons_client by (by rewrite Hok).
    pose proof (running_pass all client db a Hcon Hin (Hwf client Hin) Hr) as Hp.
    destruct (process_with arb dis client db) as [o db']. simpl in *.
    destruct Hp as (a1 & Hr1 & _ & Hlt). specialize (Hlt Hok).
    destruct (IH a1) as (a2 & Hr2 & Hle); [intros; apply Hsub; by right|done|].
    exists a2. split; [done|lia].
  - assert (Hin : Ok client ∈ all) by (apply Hsub; by left). rewrite run_cons_client by done.
    pose proof (running_pass all client db a Hcon Hin (Hwf client Hin) Hr) as Hp.
    destruct (process_with arb dis client db) as [o db']. simpl in *.
    destruct Hp as (a1 & Hr1 & Hle1 & _).
    destruct (IH a1) as (a2 & Hr2 & Hle); [intros; apply Hsub; by right|done|].
    exists a2. split; [done|lia].
  - apply IH; [intros; apply Hsub; by right|done].
Qed.

Lemma running_empty all db : healthy db → contents db = ∅ → running all db empty_archive.
Proof.
  intros Hh He. split; [split|]; rewrite ?He; try done.
  - apply represents_empty.
  - apply archive_ok_empty.
  - intros e t (l & i & Hl & _). simpl in Hl. by rewrite lookup_empty in Hl.
  - intros e. rewrite !lookup_empty. by intros [??].
Qed.

(** A pass whose node is far enough and whose answers pass validation and
    can be encoded succeeds on a database the loop maintains, and the database
    then represents the archive one step on: nothing stored before can stand
    in its way. *)
Theorem good_pass_advances all client db a : reports_consistent all → Ok client ∈ all →
  running all db a → good_pass client db →
  ∃ info db', Client_GetTickInfo client = Ok info ∧
    process_with arb dis client db = (Ok tt, db') ∧
    let a' := update_status (last_tick info a) (next_tick info (last_tick info a)) a in
    represents (contents db') a' ∧ last_number a < last_number a'.
Proof.
  intros Hcon Hin Hr Hg. pose proof (running_serving _ _ _ Hr) as Hs.
  pose proof (serving_sane all db a client Hcon Hs Hin) as Hsane.
  assert (Hok : (process_with arb dis client db).1 = Ok tt)
    by eauto using good_pass_running.
  pose proof (process_step arb dis client db a) as Hstep.
  destruct (process_with arb dis client db) as [o db']. simpl in Hok. subst o.
  destruct Hstep as (_ & info & Hi & Hle & _ & Hrep & _); [by destruct Hs..|exact Hsane|].
  exists info, db'. split; [done|]. split; [done|]. split; [exact Hrep|].
  destruct (step_valid a info (serving_ok _ _ _ Hs) (serving_valid _ _ _ Hs) (Hsane info Hi) Hle)
    as [_ Hlt].
  rewrite update_status_last_number, <-(last_tick_number info a). apply Hlt.
Qed.

(** C10: Progress: starting from an empty database that does not fail, with nodes whose
    tick reports are in range and consistent with each other ([reports_consistent]) and
    whose tick data lists 32-byte digests, after passes of which [k] were good when
    their turn came the archive has reached at least tick [k], however many others
    failed in between; so with enough good passes it reaches any tick. *)
Theorem run_progress k passes db : healthy db → contents db = ∅ → reports_consistent passes →
  (∀ client, Ok client ∈ passes → answers_wf client) → good_passes k passes db →
  ∃ a, represents (contents (run arb dis passes db)) a ∧ archive_ok a ∧ Z.of_nat k ≤ last_number a.
Proof.
  intros Hh He Hcon Hwf Hg.
  destruct (good_passes_advance passes k passes db empty_archive Hcon Hwf (λ x Hx, Hx)
    (running_empty passes db Hh He) Hg) as (a & Hr & Hle).
  exists a. split_and!; [apply (running_serving _ _ _ Hr)..|]. unfold last_number in Hle at 1. simpl in Hle. lia.
Qed.
End Storing.
