(* ===== verification/Cut.v ===== *)
(** * A computation cut short after some of its writes

    A process may be killed between any two writes.  [Cut P] is the database
    [P] with a number of writes left: the write after the last one takes the
    process down.  A computation of the models is defined over any database, so over
    [Cut P] it is the same code, killed after so many writes; [written] is the
    database it leaves.  [agrees]: with enough writes left it is the whole
    computation, and with fewer it is killed when there are none left.  What is
    proved of a computation for every database, failing or not (its frame,
    the types of what it writes) holds of the states in between. *)

From stdpp Require Import sorting base strings numbers pretty gmap list.
From S2P Require Import Prelude GoLib Types Platform Keys Store Frame.
From S2P Require Computors Quorum Tick Tx TxStatus Chain Validator.
From S2P Require Import Processor.

Local Open Scope Z_scope.

Section Cut.
Context {P : Pebble}.

(** A write, if there is one left; one that fails is not counted. *)
Definition spend (w : outcome DB) (n : nat) : outcome (DB * nat) :=
  match w, n with
  | Ok db, S n => Ok (db, n)
  | Ok _, O => Panic
  | Err e, _ => Err e
  | Panic, _ => Panic
  end.

Definition Cut : Pebble := {|
  DB := DB * nat;
  db_Get d key := db_Get d.1 key;
  db_Set d key value := spend (db_Set d.1 key value) d.2;
  db_Delete d key := spend (db_Delete d.1 key) d.2;
  Batch := Batch;
  NewBatch := NewBatch;
  Batch_Set := Batch_Set;
  Batch_Commit d batch := spend (Batch_Commit d.1 batch) d.2;
  db_NewIter d lower upper := db_NewIter d.1 lower upper
|}.

Lemma spend_Ok w n d : spend w n = Ok d → w = Ok d.1.
Proof. destruct w, n; try discriminate. by intros [= <-]. Qed.

(** It is a database that may fail at any write. *)
Definition CutLaws `{PL : !PebbleLaws P} : PebbleLaws Cut.
Proof.
  refine (Build_PebbleLaws Cut (λ d, contents (P := P) d.1) (λ _, False) (@batch_writes P PL)
    _ _ _ _ _ _ _ _ _ _ _ _ _); try done.
  - intros d k v. exact (db_Get_sound (P := P) d.1 k v).
  - intros d k e. exact (db_Get_not_found (P := P) d.1 k e).
  - intros d k v d' E%spend_Ok. exact (db_Set_sound (P := P) d.1 k v d'.1 E).
  - intros d k d' E%spend_Ok. exact (db_Delete_sound (P := P) d.1 k d'.1 E).
  - exact (Batch_Set_sound (P := P)).
  - exact (NewBatch_writes (P := P)).
  - intros d b d' E%spend_Ok. exact (Batch_Commit_sound (P := P) d.1 b d'.1 E).
  - exact (Batch_Set_total (P := P)).
Defined.

(** What [c] has written after [n] writes, at the most. *)
Definition written {A} (c : M (DB (Pebble := Cut)) A) (n : nat) (db : DB) : DB := (c (db, n)).2.1.

(** ** The same computation *)
Context {PL : PebbleLaws P}.

(** [c] makes [cost] writes on [db]. *)
Record agrees_at {A} (c : M DB A) (c' : M (DB (Pebble := Cut)) A) (db : DB) (cost : nat) : Prop := {
  agrees_whole n : c' (db, cost + n)%nat = ((c db).1, ((c db).2, n));
  agrees_cut n : (n < cost)%nat → (c' (db, n)).1 = Panic ∧ (c' (db, n)).2.2 = 0%nat;
  agrees_none : written c' 0 db = db;
  agrees_healthy n : healthy db → healthy (written c' n db)
}.

Definition agrees {A} (c : M DB A) (c' : M (DB (Pebble := Cut)) A) : Prop :=
  ∀ db, ∃ cost, agrees_at c c' db cost.

(** At most [b] writes on any database. *)
Definition at_most (b : nat) {A} (c : M DB A) (c' : M (DB (Pebble := Cut)) A) : Prop :=
  ∀ db, ∃ cost, (cost ≤ b)%nat ∧ agrees_at c c' db cost.

Lemma at_most_agrees b {A} (c : M DB A) c' : at_most b c c' → agrees c c'.
Proof. intros Hc db. destruct (Hc db) as (cost & _ & H). by exists cost. Qed.

Lemma at_most_weaken b b' {A} (c : M DB A) c' : (b ≤ b')%nat → at_most b c c' → at_most b' c c'.
Proof. intros Hb Hc db. destruct (Hc db) as (cost & Hcost & H). exists cost. split; [lia|done]. Qed.

Lemma at_most_free b {A} (c : M DB A) (c' : M (DB (Pebble := Cut)) A) :
  (∀ db n, c' (db, n) = ((c db).1, ((c db).2, n))) → (∀ db, (c db).2 = db) → at_most b c c'.
Proof.
  intros Hc Hr db. exists 0%nat. split; [lia|].
  split; [intros n; apply Hc|lia|..]; unfold written; [by rewrite Hc, Hr|].
  intros n Hh. by rewrite Hc, Hr.
Qed.

Lemma at_most_lift b {A} (o : outcome A) : at_most b (lift o) (lift o).
Proof. by apply at_most_free. Qed.

Lemma at_most_Get b k : at_most b (pebble_Get k) (pebble_Get (P := Cut) k).
Proof. by apply at_most_free. Qed.

Lemma agrees_lift {A} (o : outcome A) : agrees (lift o) (lift o).
Proof. apply (at_most_agrees 0), at_most_lift. Qed.

Lemma agrees_ret {A} (a : A) : agrees (mret a) (mret a).
Proof. apply (agrees_lift (Ok a)). Qed.

Lemma agrees_Get k : agrees (pebble_Get k) (pebble_Get (P := Cut) k).
Proof. apply (at_most_agrees 0), at_most_Get. Qed.

Lemma agrees_NewIter lo hi : agrees (pebble_NewIter lo hi) (pebble_NewIter (P := Cut) lo hi).
Proof. by apply (at_most_agrees 0), at_most_free. Qed.

Lemma at_most_write (w : DB → outcome DB) (w' : DB * nat → outcome (DB * nat)) :
  (∀ db n, w' (db, n) = spend (w db) n) → (∀ db, healthy db → ∃ db', w db = Ok db' ∧ healthy db') →
  at_most 1 (db_write w) (db_write (P := Cut) w').
Proof.
  intros Hw Hh db. destruct (w db) as [db'|e|] eqn:E.
  - exists 1%nat. split; [done|]. split.
    + intros n. unfold db_write. by rewrite Hw, E.
    + intros n Hn. assert (n = 0%nat) as -> by lia. unfold db_write. by rewrite Hw, E.
    + unfold written, db_write. by rewrite Hw, E.
    + intros n Hdb. destruct (Hh db Hdb) as (db1 & E1 & H1). assert (db1 = db') as -> by congruence.
      unfold written, db_write. rewrite Hw, E. by destruct n.
  - exists 0%nat. split; [lia|]. split; [|lia|..]; try intros n; unfold written, db_write; rewrite Hw, E; done.
  - exists 0%nat. split; [lia|]. split; [|lia|..]; try intros n; unfold written, db_write; rewrite Hw, E; done.
Qed.

Lemma at_most_Set k v : at_most 1 (pebble_Set k v) (pebble_Set (P := Cut) k v).
Proof. apply at_most_write; [done|]. intros db. apply db_Set_healthy. Qed.

Lemma at_most_Commit b : at_most 1 (pebble_Commit b) (pebble_Commit (P := Cut) b).
Proof. apply at_most_write; [done|]. intros db. apply Batch_Commit_healthy. Qed.

Lemma agrees_Set k v : agrees (pebble_Set k v) (pebble_Set (P := Cut) k v).
Proof. apply (at_most_agrees 1), at_most_Set. Qed.

Lemma agrees_Delete k : agrees (pebble_Delete k) (pebble_Delete (P := Cut) k).
Proof. apply (at_most_agrees 1), at_most_write; [done|]. intros db. apply db_Delete_healthy. Qed.

Lemma agrees_Commit b : agrees (pebble_Commit b) (pebble_Commit (P := Cut) b).
Proof. apply (at_most_agrees 1), at_most_Commit. Qed.

(** The writes of [c], and those of what follows if it returns. *)
Lemma agrees_at_bind {A B} (c : M DB A) c' (k : A → M DB B) k' db m m2 :
  agrees_at c c' db m → (∀ a, (c db).1 = Ok a → agrees_at (k a) (k' a) (c db).2 m2) →
  agrees_at (c ≫= k) (c' ≫= k') db (match (c db).1 with Ok _ => m + m2 | _ => m end)%nat.
Proof.
  intros [Hw Hcut H0 Hh] Hk.
  assert (Hstop : ∀ n, (n < m)%nat → (c' ≫= k') (db, n) = (Panic, (c' (db, n)).2)).
  { intros n Hn. destruct (Hcut n Hn) as [Hp _]. unfold mbind, M_bind.
    destruct (c' (db, n)) as [o d]. simpl in Hp. by subst o. }
  assert (Hgo : ∀ n, (c' ≫= k') (db, m + n)%nat =
    match (c db).1 with Ok a => k' a ((c db).2, n) | Err e => (Err e, ((c db).2, n))
      | Panic => (Panic, ((c db).2, n)) end).
  { intros n. unfold mbind, M_bind. rewrite Hw. by destruct (c db).1. }
  destruct (c db) as [[a|e|] db1] eqn:E; simpl in *.
  2-3: split;
    [intros n; rewrite Hgo; unfold mbind, M_bind; by rewrite E
    |intros n Hn; rewrite (Hstop n Hn); split; [done|by apply Hcut]
    |unfold written in *; destruct (decide (0 < m)%nat) as [Hn|Hn];
       [by rewrite (Hstop _ Hn)|assert (m = 0%nat) as -> by lia;
        specialize (Hgo 0%nat); simpl in Hgo; rewrite Hgo; simpl;
        specialize (Hw 0%nat); simpl in Hw; by rewrite Hw in H0]
    |intros n Hdb; unfold written; destruct (decide (n < m)%nat) as [Hn|Hn];
       [rewrite (Hstop n Hn); by apply Hh
       |replace n with (m + (n - m))%nat by lia; rewrite Hgo; simpl;
        specialize (Hh (m + (n - m))%nat Hdb); unfold written in Hh; by rewrite Hw in Hh]].
  destruct (Hk a eq_refl) as [Hw2 Hcut2 H02 Hh2]. split.
  - intros n. rewrite <-Nat.add_assoc, Hgo. unfold mbind, M_bind. by rewrite E, Hw2.
  - intros n Hn. destruct (decide (n < m)%nat) as [Hlt|Hge].
    + rewrite (Hstop n Hlt). split; [done|]. by apply Hcut.
    + replace n with (m + (n - m))%nat by lia. rewrite Hgo. apply Hcut2. lia.
  - unfold written in *. destruct (decide (0 < m)%nat) as [Hlt|Hge]; [by rewrite (Hstop _ Hlt)|].
    assert (m = 0%nat) as -> by lia. specialize (Hgo 0%nat). simpl in Hgo. rewrite Hgo, H02.
    specialize (Hw 0%nat). simpl in Hw. by rewrite Hw in H0.
  - intros n Hdb. unfold written. destruct (decide (n < m)%nat) as [Hlt|Hge].
    + rewrite (Hstop n Hlt). by apply Hh.
    + replace n with (m + (n - m))%nat by lia. rewrite Hgo. apply Hh2.
      specialize (Hh m Hdb). unfold written in Hh. rewrite <-(Nat.add_0_r m), Hw in Hh. exact Hh.
Qed.

Lemma agrees_bind {A B} (c : M DB A) c' (k : A → M DB B) k' :
  agrees c c' → (∀ a, agrees (k a) (k' a)) → agrees (c ≫= k) (c' ≫= k').
Proof.
  intros Hc Hk db. destruct (Hc db) as [m Hm].
  assert (∃ m2, ∀ a, (c db).1 = Ok a → agrees_at (k a) (k' a) (c db).2 m2) as [m2 Hm2].
  { destruct (c db).1 as [a|e|]; [|by exists 0%nat..]. destruct (Hk a (c db).2) as [m2 Hm2].
    exists m2. by intros ? [= <-]. }
  eexists. by apply agrees_at_bind.
Qed.

(** It ends, after some number of writes. *)
Lemma agrees_ends {A} (c : M DB A) c' db : agrees c c' → ∃ n, written c' n db = (c db).2.
Proof.
  intros Hc. destruct (Hc db) as [n [Hw _ _ _]]. exists n. unfold written.
  specialize (Hw 0%nat). by rewrite Nat.add_0_r in Hw; rewrite Hw.
Qed.

(** A result transformed, a panic staying one. *)
Lemma agrees_at_map {A B} (g : outcome A → outcome B) (c : M DB A) c' (d : M DB B) d' db m :
  d db = (g (c db).1, (c db).2) → (∀ n, d' (db, n) = (g (c' (db, n)).1, (c' (db, n)).2)) →
  g Panic = Panic → agrees_at c c' db m → agrees_at d d' db m.
Proof.
  intros Hd Hd' Hg [Hw Hcut H0 Hh]. split.
  - intros n. by rewrite Hd, Hd', Hw.
  - intros n Hn. destruct (Hcut n Hn) as [Hp Hz]. specialize (Hd' n).
    destruct (c' (db, n)) as [o e]. simpl in *. by rewrite Hd', Hp.
  - unfold written. by rewrite Hd'.
  - intros n Hdb. unfold written. rewrite Hd'. by apply Hh.
Qed.

Lemma agrees_at_map_err {A} f (c : M DB A) c' db m :
  agrees_at c c' db m → agrees_at (mmap_err f c) (mmap_err f c') db m.
Proof.
  apply (agrees_at_map (map_err f)); [unfold mmap_err; by destruct (c db)|intros n; unfold mmap_err; by destruct (c' (db, n))|done].
Qed.

Lemma agrees_at_attempt {A} (c : M DB A) c' db m :
  agrees_at c c' db m → agrees_at (mattempt c) (mattempt c') db m.
Proof.
  apply (agrees_at_map attempt); [unfold mattempt; by destruct (c db)|intros n; unfold mattempt; by destruct (c' (db, n))|done].
Qed.

Lemma agrees_map_err {A} f (c : M DB A) c' : agrees c c' → agrees (mmap_err f c) (mmap_err f c').
Proof. intros Hc db. destruct (Hc db) as [m Hm]. exists m. by apply agrees_at_map_err. Qed.

Lemma agrees_attempt {A} (c : M DB A) c' : agrees c c' → agrees (mattempt c) (mattempt c').
Proof. intros Hc db. destruct (Hc db) as [m Hm]. exists m. by apply agrees_at_attempt. Qed.

Lemma at_most_map_err b {A} f (c : M DB A) c' : at_most b c c' → at_most b (mmap_err f c) (mmap_err f c').
Proof.
  intros Hc db. destruct (Hc db) as (m & Hb & Hm). exists m. split; [done|]. by apply agrees_at_map_err.
Qed.

Lemma at_most_attempt b {A} (c : M DB A) c' : at_most b c c' → at_most b (mattempt c) (mattempt c').
Proof.
  intros Hc db. destruct (Hc db) as (m & Hb & Hm). exists m. split; [done|]. by apply agrees_at_attempt.
Qed.

Lemma at_most_bind b1 b2 {A B} (c : M DB A) c' (k : A → M DB B) k' :
  at_most b1 c c' → (∀ a, at_most b2 (k a) (k' a)) → at_most (b1 + b2) (c ≫= k) (c' ≫= k').
Proof.
  intros Hc Hk db. destruct (Hc db) as (m & Hm & Hat).
  assert (∃ m2, (m2 ≤ b2)%nat ∧ ∀ a, (c db).1 = Ok a → agrees_at (k a) (k' a) (c db).2 m2)
    as (m2 & Hm2 & Hat2).
  { destruct (c db).1 as [a|e|]; [|exists 0%nat; split; [lia|done]..].
    destruct (Hk a (c db).2) as (m2 & Hm2 & Hat2). exists m2. split; [done|]. by intros ? [= <-]. }
  eexists. split; [|by apply agrees_at_bind]. destruct (c db).1; lia.
Qed.

Lemma agrees_foldM {A B} (f : B → A → M DB B) f' acc l :
  (∀ acc x, agrees (f acc x) (f' acc x)) → agrees (foldM f acc l) (foldM f' acc l).
Proof.
  intros Hf. revert acc. induction l as [|x l IH]; intros acc; simpl; [apply agrees_ret|].
  apply agrees_bind; [apply Hf|]. intros b. apply IH.
Qed.
End Cut.

Create HintDb agrees.

Ltac agrees_step :=
  match goal with
  | |- agrees (_ ≫= _) _ => apply agrees_bind; [|intros ?]
  | |- agrees (mret _) _ => apply agrees_ret
  | |- agrees (lift _) _ => apply agrees_lift
  | |- agrees (throw _) _ => apply agrees_lift
  | |- agrees (mwrap _ _) _ => apply agrees_map_err
  | |- agrees (mmap_err _ _) _ => apply agrees_map_err
  | |- agrees (mattempt _) _ => apply agrees_attempt
  | |- agrees (pebble_Get _) _ => apply agrees_Get
  | |- agrees (pebble_NewIter _ _) _ => apply agrees_NewIter
  | |- agrees (pebble_Set _ _) _ => apply agrees_Set
  | |- agrees (pebble_Delete _) _ => apply agrees_Delete
  | |- agrees (pebble_Commit _) _ => apply agrees_Commit
  | |- agrees (forM_ _ _) _ => apply agrees_foldM; intros ? ?
  | |- agrees (foldM _ _ _) _ => apply agrees_foldM; intros ? ?
  | |- agrees (match ?x with _ => _ end) _ => destruct x
  | |- agrees _ _ => solve [auto with agrees]
  end.
Ltac agrees_steps := repeat agrees_step.

Ltac at_most_step :=
  match goal with
  | |- at_most 0 (_ ≫= _) _ => apply (at_most_bind 0 0); [|intros ?]
  | |- at_most 1 (_ ≫= _) _ => apply (at_most_bind 0 1); [|intros ?]
  | |- at_most _ (lift _) _ => apply at_most_lift
  | |- at_most _ (mret ?a) _ => apply (at_most_lift _ (Ok a))
  | |- at_most _ (throw _) _ => apply at_most_lift
  | |- at_most _ (mwrap _ _) _ => apply at_most_map_err
  | |- at_most _ (mmap_err _ _) _ => apply at_most_map_err
  | |- at_most _ (mattempt _) _ => apply at_most_attempt
  | |- at_most _ (pebble_Get _) _ => apply at_most_Get
  | |- at_most 1 (pebble_Set _ _) _ => apply at_most_Set
  | |- at_most _ (match ?x with _ => _ end) _ => destruct x
  end.

(** ** The operations that write *)
Section Agrees.
Context {P : Pebble} {PL : PebbleLaws P} {PR : Protobuf} {R : GoRuntime} {K : K12} {N : NodeConnector}.

Lemma agrees_Quorum_Store n votes : agrees (Quorum.Store n votes) (Quorum.Store (P := Cut) n votes).
Proof.
  unfold Quorum.Store, SetQuorumTickData, SetQuorumDataForCurrentEpochInterval,
    getProcessedTickIntervalsPerEpoch, GetLastTickQuorumDataListPerEpochInterval,
    SetLastTickQuorumDataPerEpochIntervals. agrees_steps.
Qed.

Lemma agrees_Tick_Store n d : agrees (Tick.Store n d) (Tick.Store (P := Cut) n d).
Proof. unfold Tick.Store, SetTickData. agrees_steps. Qed.

Lemma agrees_Tx_Store n txs : agrees (Tx.Store n txs) (Tx.Store (P := Cut) n txs).
Proof.
  unfold Tx.Store, Tx.storeTickTransactions, Tx.storeTransferTransactions,
    PutTransferTransactionsPerTick, SetTransactions, SetTransactions_step. agrees_steps.
Qed.

Lemma agrees_TxStatus_Store n s : agrees (TxStatus.Store n s) (TxStatus.Store (P := Cut) n s).
Proof.
  unfold TxStatus.Store, SetTickTransactionsStatus, SetTickTransactionsStatus_step. agrees_steps.
Qed.

Lemma agrees_ComputeAndSave i n v :
  agrees (Chain.ComputeAndSave i n v) (Chain.ComputeAndSave (P := Cut) i n v).
Proof.
  unfold Chain.ComputeAndSave, Chain.getPrevChainDigest, GetChainDigest, PutChainDigest. agrees_steps.
Qed.

Lemma agrees_ComputeStoreAndSave i n txs s :
  agrees (Chain.ComputeStoreAndSave i n txs s) (Chain.ComputeStoreAndSave (P := Cut) i n txs s).
Proof.
  unfold Chain.ComputeStoreAndSave, Chain.getPrevStoreDigest, GetStoreDigest, PutStoreDigest. agrees_steps.
Qed.

Lemma agrees_record_empty_tick e n :
  agrees (Validator.record_empty_tick e n) (Validator.record_empty_tick (P := Cut) e n).
Proof.
  unfold Validator.record_empty_tick, GetEmptyTicksForEpoch, SetEmptyTickListPerEpoch,
    SetEmptyTicksForEpoch, AppendEmptyTickToEmptyTickListPerEpoch, GetEmptyTickListPerEpoch,
    SetEmptyTickListPerEpoch. agrees_steps.
Qed.

Lemma agrees_check qu arb n d :
  agrees (Validator.check qu arb n d) (Validator.check (P := Cut) qu arb n d).
Proof.
  unfold Validator.check, Validator.get_computors, Computors.Get, GetComputors, Computors.Store,
    SetComputors, Validator.get_targetTickVoteSignature, GetTargetTickVoteSignature,
    SetTargetTickVoteSignature. agrees_steps.
Qed.

Hint Resolve agrees_Quorum_Store agrees_Tick_Store agrees_Tx_Store agrees_TxStatus_Store
  agrees_ComputeAndSave agrees_ComputeStoreAndSave agrees_record_empty_tick agrees_check : agrees.

Lemma agrees_ValidateTick qu arb i n d :
  agrees (Validator.ValidateTick qu arb i n d) (Validator.ValidateTick (P := Cut) qu arb i n d).
Proof. unfold Validator.ValidateTick, Validator.store_tick. agrees_steps. Qed.

Lemma agrees_CalculateEmptyTicks_epochs epochs :
  agrees (Tick.CalculateEmptyTicks_epochs epochs) (Tick.CalculateEmptyTicks_epochs (P := Cut) epochs).
Proof.
  induction epochs as [|e epochs IH]; simpl; [apply agrees_ret|].
  unfold GetEmptyTicksForEpoch, Tick.CalculateEmptyTicksForEpoch, GetProcessedTickIntervals,
    SetEmptyTicksForEpoch, SetEmptyTickListPerEpoch, Tick.CalculateEmptyTicks_interval,
    Tick.CalculateEmptyTicks_tick, GetTickData.
  repeat first [exact IH | agrees_step].
Qed.

Hint Resolve agrees_CalculateEmptyTicks_epochs : agrees.

Lemma agrees_prepare_empty_ticks reset :
  agrees (Tick.prepare_empty_ticks reset) (Tick.prepare_empty_ticks (P := Cut) reset).
Proof.
  unfold Tick.prepare_empty_ticks, Tick.ResetEmptyTicksForAllEpochs,
    Tick.CalculateEmptyTicksForAllEpochs, GetLastProcessedTicksPerEpoch,
    DeleteEmptyTicksKeyForEpoch, DeleteEmptyTickListKeyForEpoch. agrees_steps.
Qed.

(** *** The status update *)
Lemma at_most_getIntervals e :
  at_most 0 (getProcessedTickIntervalsPerEpoch e) (getProcessedTickIntervalsPerEpoch (P := Cut) e).
Proof. unfold getProcessedTickIntervalsPerEpoch. repeat at_most_step. Qed.

Lemma at_most_setIntervals e l :
  at_most 1 (SetProcessedTickIntervalPerEpoch e l) (SetProcessedTickIntervalPerEpoch (P := Cut) e l).
Proof. unfold SetProcessedTickIntervalPerEpoch. repeat at_most_step. Qed.

Lemma at_most_AppendProcessedTickInterval e i :
  at_most 1 (AppendProcessedTickInterval e i) (AppendProcessedTickInterval (P := Cut) e i).
Proof.
  unfold AppendProcessedTickInterval.
  repeat first [apply at_most_setIntervals | apply at_most_getIntervals | at_most_step].
Qed.

Lemma at_most_SetSkippedTicksInterval s :
  at_most 1 (SetSkippedTicksInterval s) (SetSkippedTicksInterval (P := Cut) s).
Proof. unfold SetSkippedTicksInterval, GetSkippedTicksInterval. repeat at_most_step. Qed.

Lemma agrees_SetLastProcessedTick pt :
  agrees (SetLastProcessedTick pt) (SetLastProcessedTick (P := Cut) pt).
Proof.
  unfold SetLastProcessedTick, getProcessedTickIntervalsPerEpoch, SetProcessedTickIntervalPerEpoch.
  agrees_steps.
Qed.

Lemma agrees_processSkippedTicks last next :
  agrees (processSkippedTicks last next) (processSkippedTicks (P := Cut) last next).
Proof.
  unfold processSkippedTicks. agrees_steps;
    [eapply at_most_agrees, at_most_AppendProcessedTickInterval
    |eapply at_most_agrees, at_most_SetSkippedTicksInterval].
Qed.

Lemma agrees_processStatus last next :
  agrees (processStatus last next) (processStatus (P := Cut) last next).
Proof.
  unfold processStatus. agrees_steps; [apply agrees_processSkippedTicks|apply agrees_SetLastProcessedTick].
Qed.

Lemma agrees_process_with arb dis client :
  agrees (process_with arb dis client) (process_with (P := Cut) arb dis client).
Proof.
  unfold process_with, getLastProcessedTick, GetLastProcessedTick.
  agrees_steps; [apply agrees_ValidateTick|apply agrees_processStatus].
Qed.
End Agrees.
