(* ===== verification/Restarts.v ===== *)
(** * Start-up and restarts

    A life of the archiver is one run of main.go: it brings the tables of
    empty ticks up to date and lets the processor run, until it is shut down or
    killed, at the start, between two passes or after any number of the writes of a
    pass (Cut.v).  What the processor maintains, start-up maintains too, and so does
    every life that does not end in the middle of a status update: the lives of an
    archiver on one database, each with its own options and nodes, are as good as
    one. *)

From stdpp Require Import sorting base strings numbers pretty gmap list.
From S2P Require Import Prelude GoLib Types Platform Keys Store StoreLogic Frame Success Utils.
From S2P Require Import Archive Progress Typed Reads Archived Complete Liveness Cut.
From S2P Require Import StoreProofs ValidatorProofs Processor ProcessorProofs.
From S2P Require Tick Main.

Local Open Scope Z_scope.

Section Restarts.
Context {P : Pebble} {PL : PebbleLaws P} {PR : Protobuf} {PRL : ProtobufLaws PR}.
Context {R : GoRuntime} {RL : GoRuntimeLaws R} {K : K12} {KL : K12Laws K} {N : NodeConnector}.
Context {TL : TransactionLaws N}.

(** ** What start-up writes *)
Definition empty_tick_kinds : list Z := [EmptyTicksPerEpoch; EmptyTickListPerEpoch].

Lemma writes_CalculateEmptyTicks_epochs epochs :
  writes_only (on (own_keys [] empty_tick_kinds)) (Tick.CalculateEmptyTicks_epochs epochs).
Proof.
  induction epochs as [|e epochs IH]; simpl; [apply writes_ret|].
  unfold GetEmptyTicksForEpoch, Tick.CalculateEmptyTicksForEpoch, GetProcessedTickIntervals,
    SetEmptyTicksForEpoch, SetEmptyTickListPerEpoch, Tick.CalculateEmptyTicks_interval,
    Tick.CalculateEmptyTicks_tick, GetTickData.
  repeat first [exact IH | frame_step];
    (eapply own_keys_kind; [reflexivity|vm_compute; reflexivity]).
Qed.

Lemma writes_prepare_empty_ticks reset :
  writes_only (on (own_keys [] empty_tick_kinds)) (Tick.prepare_empty_ticks reset).
Proof.
  unfold Tick.prepare_empty_ticks, Tick.ResetEmptyTicksForAllEpochs,
    Tick.CalculateEmptyTicksForAllEpochs, GetLastProcessedTicksPerEpoch,
    DeleteEmptyTicksKeyForEpoch, DeleteEmptyTickListKeyForEpoch.
  repeat first [apply writes_CalculateEmptyTicks_epochs | frame_step];
    (eapply own_keys_kind; [reflexivity|vm_compute; reflexivity]).
Qed.

(** ** It keeps lists and counts together *)
Lemma keeps_attempt {A} (c : M DB A) : keeps c → keeps (mattempt c).
Proof.
  intros Hc db Hh Hs. specialize (Hc db Hh Hs). unfold mattempt. by destruct (c db) as [[a|e|] db'].
Qed.

Lemma keeps_foldM {A B} (f : B → A → M DB B) acc l :
  (∀ acc x, keeps (f acc x)) → keeps (foldM f acc l).
Proof.
  intros Hf. revert acc. induction l as [|x l IH]; intros acc; simpl; [apply keeps_lift|].
  apply keeps_bind; [apply Hf|]. intros b. apply IH.
Qed.

(** Computations that write nothing. *)
Definition silent {A} (c : M DB A) : Prop := writes_only (λ _ _, False) c.

Lemma keeps_silent {A} (c : M DB A) : silent c → keeps c.
Proof.
  intros Hc db Hh Hs. destruct (Hc db) as (Hh' & Hw & _). split; [by auto|].
  assert (contents (c db).2 = contents db) as ->; [|done].
  apply map_eq. intros k. by destruct (Hw k).
Qed.

Lemma silent_CalculateEmptyTicksForEpoch e : silent (Tick.CalculateEmptyTicksForEpoch e).
Proof.
  unfold silent, Tick.CalculateEmptyTicksForEpoch, GetProcessedTickIntervals,
    Tick.CalculateEmptyTicks_interval, Tick.CalculateEmptyTicks_tick, GetTickData.
  frame_steps.
Qed.

Lemma keeps_runs {A} (c : M DB A) (f : gmap bytes bytes → gmap bytes bytes) : writes_only typed_write c →
  (∀ m, ∃ a, runs m c (Ok a) (f m)) → (∀ m, lists_present m → lists_present (f m)) → keeps c.
Proof.
  intros Ht Hr Hf. apply keeps_succeeds; [done|]. intros db Hh [_ Hl].
  destruct (Hr (contents db)) as [a Ha]. eapply succeeds_runs; [done|exact Ha|]. intros db' ->. by apply Hf.
Qed.

(** A count is deleted before its list, and written before it. *)
Lemma keeps_delete e : keeps
  (_ ← mwrap "deleting empty tick key" (DeleteEmptyTicksKeyForEpoch e);
   mwrap "deleting empty tick list key" (DeleteEmptyTickListKeyForEpoch e)).
Proof.
  eapply (keeps_runs _ (λ m, delete (emptyTickListPerEpochKey e) (delete (emptyTicksPerEpochKey e) m))).
  - unfold DeleteEmptyTicksKeyForEpoch, DeleteEmptyTickListKeyForEpoch. frame_steps;
      simpl; unfold erasable; auto.
  - intros m. eexists. unfold DeleteEmptyTicksKeyForEpoch, DeleteEmptyTickListKeyForEpoch.
    runs_step (runs_wrapped; runs_wrapped; apply runs_Delete). runs_wrapped. runs_wrapped. apply runs_Delete.
  - intros m Hl e' [v Hv]. rewrite lookup_delete_ne in Hv by auto with keys.
    apply lookup_delete_Some in Hv as [Hne Hv].
    rewrite lookup_delete_ne; [rewrite lookup_delete_ne by auto with keys; apply Hl; by exists v|].
    intros Heq. apply Hne. revert Heq.
    unfold emptyTicksPerEpochKey, emptyTickListPerEpochKey, BigEndian_AppendUint64.
    by intros ->%app_inv_head.
Qed.

Lemma keeps_write e n l : keeps
  (_ ← mwrap "saving emptyTickCount to database" (SetEmptyTicksForEpoch e n);
   mwrap "saving empty tick list to database" (SetEmptyTickListPerEpoch e l)).
Proof.
  eapply (keeps_runs _ (λ m, <[emptyTickListPerEpochKey e := encoded_list l]>
    (<[emptyTicksPerEpochKey e := LittleEndian_PutUint32 n]> m))).
  - unfold SetEmptyTicksForEpoch, SetEmptyTickListPerEpoch. frame_steps; simpl; eauto with typed.
  - intros m. eexists. unfold SetEmptyTicksForEpoch, SetEmptyTickListPerEpoch.
    runs_step (runs_wrapped; runs_wrapped; apply runs_Set). runs_wrapped. runs_wrapped. apply runs_Set.
  - intros m Hl. rewrite insert_insert_ne by auto with keys.
    apply lists_present_count; [by apply lists_present_list|]. rewrite lookup_insert_eq. by eexists.
Qed.

Lemma keeps_then {A} (c d : M DB unit) (k : M DB A) :
  keeps (_ ← c; d) → keeps k → keeps (_ ← c; _ ← d; k).
Proof.
  intros Hcd Hk db Hh Hs. destruct (Hcd db Hh Hs) as [Hh' Hs']. unfold mbind, M_bind in *.
  destruct (c db) as [[[]|e|] db1]; [|done..]. destruct (d db1) as [[[]|e|] db2]; [by apply Hk|done..].
Qed.

Lemma keeps_CalculateEmptyTicks_epochs epochs : keeps (Tick.CalculateEmptyTicks_epochs epochs).
Proof.
  induction epochs as [|e epochs IH]; simpl; [apply keeps_lift|].
  apply keeps_bind; [apply keeps_attempt, keeps_silent; unfold silent, GetEmptyTicksForEpoch; frame_steps|].
  intros [n|err]; [apply keeps_lift|]. destruct (negb _); [apply keeps_lift|].
  apply keeps_bind; [apply keeps_wrap, keeps_silent, silent_CalculateEmptyTicksForEpoch|].
  intros l. apply keeps_then; [apply keeps_write|exact IH].
Qed.

Lemma keeps_prepare_empty_ticks reset : keeps (Tick.prepare_empty_ticks reset).
Proof.
  assert (He : silent GetLastProcessedTicksPerEpoch)
    by (unfold silent, GetLastProcessedTicksPerEpoch; frame_steps).
  assert (Hr : keeps Tick.ResetEmptyTicksForAllEpochs).
  { unfold Tick.ResetEmptyTicksForAllEpochs.
    apply keeps_bind; [by apply keeps_wrap, keeps_silent|]. intros epochs.
    apply keeps_foldM. intros _ e. apply keeps_delete. }
  unfold Tick.prepare_empty_ticks, Tick.CalculateEmptyTicksForAllEpochs.
  apply keeps_bind; [destruct reset; [by apply keeps_wrap|apply keeps_lift]|]. intros _.
  apply keeps_wrap, keeps_bind; [by apply keeps_wrap, keeps_silent|]. intros epochs.
  apply keeps_CalculateEmptyTicks_epochs.
Qed.

(** ** It keeps what the processor relies on *)
Lemma prepare_outside reset db k x : key_kind k = Some x →
  bool_decide (x ∈ empty_tick_kinds) = false →
  contents (Tick.prepare_empty_ticks reset db).2 !! k = contents db !! k.
Proof.
  intros Hk Hx. eapply frame_outside; [apply writes_prepare_empty_ticks|].
  by eapply not_own_keys; [exact Hk|exact Hx|apply not_elem_of_nil].
Qed.

Lemma prepare_records reset db t k : k ∈ tick_records t →
  contents (Tick.prepare_empty_ticks reset db).2 !! k = contents db !! k.
Proof.
  unfold tick_records. rewrite !elem_of_cons, elem_of_nil.
  intros [->|[->|[->|[->|[->|[]]]]]]; (eapply prepare_outside; [reflexivity|vm_compute; reflexivity]).
Qed.

Lemma prepare_archived reset db t : archived (contents db) t →
  archived (contents (Tick.prepare_empty_ticks reset db).2) t.
Proof.
  apply archived_agree.
  - intros k Hk. by eapply prepare_records.
  - intros k Hk. by rewrite (prepare_outside reset db k _ Hk).
Qed.

Lemma serving_prepare all reset db a : serving all db a →
  serving all (Tick.prepare_empty_ticks reset db).2 a.
Proof.
  intros Hs. eapply serving_agree; [done| | | |].
  - apply (writes_prepare_empty_ticks reset db), Hs.
  - apply typed_writes_preserve; [apply typed_prepare_empty_ticks|apply Hs].
  - intros k x Hk Hx. eapply prepare_outside; [exact Hk|]. by destruct Hx as [->|[->|[->| ->]]].
  - intros e t _. apply prepare_archived.
Qed.

End Restarts.

Section Lives.
Context {P : Pebble} {PL : PebbleLaws P} {PR : Protobuf} {PRL : ProtobufLaws PR}.
Context {R : GoRuntime} {RL : GoRuntimeLaws R} {K : K12} {KL : K12Laws K} {N : NodeConnector}.
Context {TL : TransactionLaws N}.

(** ** It keeps it wherever it is killed, and so does the storing of a tick *)
Lemma serving_killed_start all reset n db a : serving all db a →
  serving all (written (Tick.prepare_empty_ticks (P := Cut) reset) n db) a.
Proof.
  intros Hs. eapply serving_agree; [done| | | |].
  - destruct (agrees_prepare_empty_ticks reset db) as (cost & [_ _ _ Hh]). apply Hh, Hs.
  - apply (typed_writes_preserve (P := Cut) (PL := CutLaws) (Tick.prepare_empty_ticks (P := Cut) reset) (db, n));
      [apply (typed_prepare_empty_ticks (P := Cut) (PL := CutLaws))|apply Hs].
  - intros k x Hk Hx. apply (prepare_outside (P := Cut) (PL := CutLaws) reset (db, n) k x Hk).
    by destruct Hx as [->|[->|[->| ->]]].
  - intros e t _. exact (prepare_archived (P := Cut) (PL := CutLaws) reset (db, n) t).
Qed.

(** What a pass finds out before it validates the next tick. *)
Definition upcoming (client : Client) (db : DB) :
    outcome (types.TickInfo * pb.ProcessedTick * pb.ProcessedTick) :=
  tickInfo ← wrap "getting tick info" (Client_GetTickInfo client);
  lastTick ← wrap "getting last processed tick" (getLastProcessedTick tickInfo db).1;
  nextTick ← wrap "getting next processing tick" (getNextProcessingTick lastTick tickInfo);
  if bool_decide (types.TickInfo_Tick tickInfo < pb.ProcessedTick_TickNumber nextTick)
  then Err (newTickInTheFutureError (pb.ProcessedTick_TickNumber nextTick) (types.TickInfo_Tick tickInfo))
  else Ok (tickInfo, lastTick, nextTick).

(** It is the first part of the pass. *)
Lemma process_with_upcoming arb dis client db :
  process_with arb dis client db =
  match upcoming client db with
  | Ok (tickInfo, lastTick, nextTick) =>
      (_ ← mwrap "validating tick" (Validator.ValidateTick client arb
         (types.TickInfo_InitialTick tickInfo) (pb.ProcessedTick_TickNumber nextTick) dis);
       mwrap "processing status for lastTick and nextTick" (processStatus lastTick nextTick)) db
  | Err e => (Err e, db)
  | Panic => (Panic, db)
  end.
Proof.
  unfold process_with, upcoming. unfold mbind at 1, M_bind at 1, lift at 1.
  destruct (Client_GetTickInfo client) as [info|e|]; [|done..]. ok_step.
  unfold mbind at 1, M_bind at 1. rewrite mwrap_run, getLastProcessedTick_reads.
  destruct (getLastProcessedTick info db).1 as [last|e|]; [|done..]. cbn.
  unfold mbind at 1, M_bind at 1, lift at 1.
  destruct (getNextProcessingTick last info) as [next|e|]; [|done..]. ok_step. cbn.
  by case_bool_decide.
Qed.

Lemma upcoming_archive all client db a info last next : reports_consistent all → Ok client ∈ all →
  serving all db a → upcoming client db = Ok (info, last, next) →
  Client_GetTickInfo client = Ok info ∧ node_sane info a ∧ last = last_tick info a ∧
  next = next_tick info last ∧ valid_tick next ∧ last_number a < pb.ProcessedTick_TickNumber next.
Proof.
  intros Hcon Hin Hr. unfold upcoming. destruct (Client_GetTickInfo client) as [i|e|] eqn:Hi; [|done..].
  pose proof (serving_sane all db a client Hcon Hr Hin i Hi) as Hsane.
  destruct Hr as [Hh Hrep Hval Hok _ _ _]. simpl.
  rewrite (getLastProcessedTick_archive db a i Hh Hrep). simpl.
  rewrite getNextProcessingTick_next by done. simpl.
  destruct (bool_decide_reflect (types.TickInfo_Tick i <
    pb.ProcessedTick_TickNumber (next_tick i (last_tick i a)))) as [|Hle]; [done|]. intros [= <- <- <-].
  destruct (step_valid a i Hok Hval Hsane) as [Hv Hlt]; [lia|]. rewrite last_tick_number in Hlt.
  split_and!; done || apply Hlt.
Qed.

Lemma serving_killed_storing all client arb dis info last next n db a :
  reports_consistent all → Ok client ∈ all → serving all db a →
  upcoming client db = Ok (info, last, next) →
  serving all (written (Validator.ValidateTick (P := Cut) client arb (types.TickInfo_InitialTick info)
    (pb.ProcessedTick_TickNumber next) dis) n db) a.
Proof.
  intros Hcon Hin Hr Hup. destruct (upcoming_archive _ _ _ _ _ _ _ Hcon Hin Hr Hup)
    as (_ & _ & _ & _ & [Hn _] & Hlt).
  set (num := pb.ProcessedTick_TickNumber next) in *. eapply serving_agree; [done| | | |].
  - destruct (agrees_ValidateTick client arb (types.TickInfo_InitialTick info) num dis db)
      as (cost & [_ _ _ Hh]). apply Hh, Hr.
  - apply (typed_writes_preserve (P := Cut) (PL := CutLaws)
      (Validator.ValidateTick (P := Cut) client arb (types.TickInfo_InitialTick info) num dis) (db, n));
      [apply (typed_ValidateTick (P := Cut) (PL := CutLaws))|apply Hr].
  - intros k x Hk Hx. apply (tick_writes_unchanged (P := Cut) (PL := CutLaws) _ num (db, n) k
      (writes_ValidateTick (P := Cut) (PL := CutLaws) _ _ _ _ _)).
    left. exists x. by destruct Hx as [->|[->|[->| ->]]]; set_solver.
  - intros e t Hp. pose proof (ok_bounds _ (serving_ok _ _ _ Hr) _ _ Hp) as Hb.
    apply (tick_writes_archived (P := Cut) (PL := CutLaws) _ num (db, n) t
      (typed_ValidateTick (P := Cut) (PL := CutLaws) _ _ _ _ _)
      (writes_ValidateTick (P := Cut) (PL := CutLaws) _ _ _ _ _)); unfold is_uint32 in *; lia.
Qed.

(** ** Lives *)

(** How a life ends: between two passes (or because start-up or a pass ended
    it); or it is killed after so many writes of what start-up does with the empty
    ticks, of the validating and storing of the next tick, or of the status update
    that follows. *)
Inductive ending :=
| BetweenPasses
| KilledStarting (writes : nat)
| KilledStoring (client : Client) (writes : nat)
| KilledUpdating (client : Client) (writes : nat).

Record life := MkLife {
  life_config : Main.config;
  life_pool : outcome (list (outcome Client));
  life_ending : ending
}.

(** The nodes it was handed. *)
Definition life_passes (l : life) : list (outcome Client) :=
  match life_pool l with Ok passes => passes | _ => [] end ++
  match life_ending l with
  | KilledStoring client _ | KilledUpdating client _ => [Ok client]
  | _ => []
  end.

(** The last pass of a life, which does not come to its end. *)
Definition last_pass (arb : bytes) (dis : bool) (e : ending) (db : DB) : DB :=
  match e with
  | KilledStoring client n =>
      match upcoming client db with
      | Ok (tickInfo, _, nextTick) =>
          written (Validator.ValidateTick (P := Cut) client arb (types.TickInfo_InitialTick tickInfo)
            (pb.ProcessedTick_TickNumber nextTick) dis) n db
      | _ => db
      end
  | KilledUpdating client n =>
      match upcoming client db with
      | Ok (tickInfo, lastTick, nextTick) =>
          match Validator.ValidateTick client arb (types.TickInfo_InitialTick tickInfo)
            (pb.ProcessedTick_TickNumber nextTick) dis db with
          | (Ok _, db) => written (processStatus (P := Cut) lastTick nextTick) n db
          | (_, db) => db
          end
      | _ => db
      end
  | _ => db
  end.

Definition live (db : DB) (l : life) : DB :=
  match life_ending l with
  | KilledStarting n =>
      written (Tick.prepare_empty_ticks (P := Cut) (Main.cfg_ResetEmptyTickKeys (life_config l))) n db
  | e =>
      let '(o, db) := Main.run_main (life_config l) (life_pool l) db in
      match o, Identity_ToPubKey (Main.cfg_ArbitratorIdentity (life_config l)) false with
      | Ok _, Ok arb => last_pass arb (Main.cfg_DisableTransactionStatusAddon (life_config l)) e db
      | _, _ => db
      end
  end.

Definition run_lives (lives : list life) (db : DB) : DB := foldl live db lives.

(** No life ends in the middle of a status update. *)
Definition spared (l : life) : Prop :=
  match life_ending l with KilledUpdating _ _ => False | _ => True end.

Lemma serving_last_pass all arb dis e db a : reports_consistent all →
  match e with KilledStoring client _ => Ok client ∈ all | KilledUpdating _ _ => False | _ => True end →
  serving all db a → serving all (last_pass arb dis e db) a.
Proof.
  intros Hcon He Hr. destruct e as [|n|client n|client n]; [done|done| |done]. simpl.
  destruct (upcoming client db) as [[[info last] next]|e|] eqn:Hup; [|done..].
  by eapply serving_killed_storing.
Qed.

Lemma serving_run_main all cfg pool db a : reports_consistent all →
  (∀ client, Ok client ∈ all → answers_wf client) →
  (match pool with Ok passes => passes | _ => [] end) ⊆ all → serving all db a →
  ∃ a', serving all (Main.run_main cfg pool db).2 a' ∧ last_number a ≤ last_number a'.
Proof.
  intros Hcon Hwf Hsub Hr. pose proof (serving_prepare all (Main.cfg_ResetEmptyTickKeys cfg) db a Hr) as Hp.
  unfold Main.run_main, mbind, M_bind, lift.
  destruct (Tick.prepare_empty_ticks _ db) as [[[]|e|] db1]; simpl in Hp; [|by exists a..].
  destruct pool as [passes|e|]; simpl in *; [|by exists a..].
  destruct (Identity_ToPubKey _ _) as [arb|e|]; simpl; [|by exists a..].
  by apply run_serving.
Qed.

Lemma serving_live all l db a : reports_consistent all →
  (∀ client, Ok client ∈ all → answers_wf client) → life_passes l ⊆ all → spared l →
  serving all db a → ∃ a', serving all (live db l) a' ∧ last_number a ≤ last_number a'.
Proof.
  intros Hcon Hwf Hsub Hsp Hr. unfold live. destruct l as [cfg pool e].
  unfold life_passes, spared in *. cbn [life_config life_pool life_ending] in *.
  assert (Hrun : ∃ a', serving all (Main.run_main cfg pool db).2 a' ∧ last_number a ≤ last_number a').
  { apply serving_run_main; [done|done| |done]. intros x Hx. apply Hsub, elem_of_app. by left. }
  assert (He : match e with KilledStoring client _ => Ok client ∈ all | KilledUpdating _ _ => False | _ => True end).
  { destruct e; [done|done| |done]. apply Hsub, elem_of_app. right. by left. }
  destruct Hrun as (a' & Hr' & Hle).
  assert (Hlast : serving all (let '(o, db) := Main.run_main cfg pool db in
      match o, Identity_ToPubKey (Main.cfg_ArbitratorIdentity cfg) false with
      | Ok _, Ok arb => last_pass arb (Main.cfg_DisableTransactionStatusAddon cfg) e db
      | _, _ => db
      end) a').
  { destruct (Main.run_main cfg pool db) as [[u|err|] db']; simpl in Hr'; [|done..].
    destruct (Identity_ToPubKey _ _); [|done..]. by apply serving_last_pass. }
  destruct e as [|n|client n|client n]; [by exists a'| |by exists a'|done].
  exists a. split; [by apply serving_killed_start|done].
Qed.

Lemma run_lives_serving lives db : healthy db → contents db = ∅ →
  reports_consistent (lives ≫= life_passes) →
  (∀ client, Ok client ∈ lives ≫= life_passes → answers_wf client) → Forall spared lives →
  ∃ a, serving (lives ≫= life_passes) (run_lives lives db) a.
Proof.
  intros Hh He Hcon Hwf Hsp. set (all := lives ≫= life_passes) in *.
  assert (Hsub : ∀ l, l ∈ lives → life_passes l ⊆ all).
  { intros l Hl x Hx. apply list_elem_of_bind. by exists l. }
  clearbody all. pose proof (running_serving _ _ _ (running_empty all db Hh He)) as Hr. revert Hr.
  generalize empty_archive. clear Hh He. unfold run_lives.
  revert db. induction Hsp as [|l lives Hl Hsp IH]; intros db a Hr; simpl; [by exists a|].
  destruct (serving_live all l db a Hcon Hwf) as (a1 & Hr1 & _); [apply Hsub; by left|done|done|].
  eapply IH; [intros; apply Hsub; by right|exact Hr1].
Qed.
End Lives.
