(* ===== verification/Middleware.v ===== *)
(** * rpc/middleware.go: the interceptor that admits processed ticks only

    Requests that name a tick are answered with an error unless the tick was
    processed.  The interceptor sees the store through the interface
    [ProcessedTicksStore]; its theorems are proved against that interface, and
    the pebble store discharges it. *)

From stdpp Require Import sorting base strings numbers pretty gmap list.
From S2P Require Import Prelude GoLib Types Platform Keys Store StoreLogic Archive Progress.
From S2P Require Import TickProofs.
From S2P Require Tick.

Local Open Scope Z_scope.

(** ** The interface *)
Class ProcessedTicksStore (S : Type) := {
  pts_GetLastProcessedTick : M S pb.ProcessedTick;
  pts_GetProcessedTickIntervals : M S (list pb.ProcessedTickIntervalsPerEpoch)
}.

(** [serves s a]: the store [s] answers for the well-formed archive [a]. *)
Class ProcessedTicksStoreLaws (S : Type) `{ProcessedTicksStore S} := {
  serves : S → archive → Prop;
  serves_ok s a : serves s a → archive_ok a;
  serves_last s a : serves s a →
    ∃ s', pts_GetLastProcessedTick s =
            (match ar_last a with Some pt => Ok pt | None => Err ErrNotFound end, s') ∧ serves s' a;
  serves_intervals s a : serves s a →
    ∃ l s', pts_GetProcessedTickIntervals s = (Ok l, s') ∧ interval_list a l ∧ serves s' a
}.

(** The requests the type switch tells apart. *)
Inductive request :=
| GetTickRequestV2 (TickNumber : Z)
| GetTickTransactionsRequest (TickNumber : Z)
| GetTickDataRequest (TickNumber : Z)
| GetQuorumTickDataRequest (TickNumber : Z)
| GetTickApprovedTransactionsRequest (TickNumber : Z)
| GetChainHashRequest (TickNumber : Z)
| GetTickTransactionsRequestV2 (TickNumber : Z) (Transfers Approved : bool)
| OtherRequest.

Section Interceptor.
Context {S : Type} {T : ProcessedTicksStore S} {G : GrpcStatus}.

(** A status with a detail, or the internal error when that fails. *)
Definition status_with (st : error) (detail : Z) : error :=
  match status_WithDetails st detail with
  | Ok st => st
  | _ => StatusError Internal "creating custom status" None
  end.

Definition checkTickWithinArchiverIntervals (tickNumber : Z) : M S unit :=
  lastProcessedTick ← mmap_err
    (λ _, StatusError Internal "failed to get last processed tick" None)
    pts_GetLastProcessedTick;
  if bool_decide (tickNumber > pb.ProcessedTick_TickNumber lastProcessedTick)
  then throw (status_with
    (StatusError FailedPrecondition "requested tick number is greater than last processed tick" None)
    (pb.ProcessedTick_TickNumber lastProcessedTick))
  else
    processedTickIntervalsPerEpoch ← mmap_err
      (λ _, StatusError Internal "getting processed tick intervals per epoch" None)
      pts_GetProcessedTickIntervals;
    let '(wasSkipped, nextAvailableTick) :=
      Tick.WasSkippedByArchive tickNumber processedTickIntervalsPerEpoch in
    if wasSkipped : bool
    then throw (status_with
      (StatusError OutOfRange "provided tick number was skipped by the system" None)
      nextAvailableTick)
    else mret tt.

(** The tick a request names, if the switch checks it. *)
Definition checked_tick (req : request) : option Z :=
  match req with
  | GetTickRequestV2 t | GetTickTransactionsRequest t | GetTickDataRequest t
  | GetQuorumTickDataRequest t | GetTickApprovedTransactionsRequest t
  | GetChainHashRequest t | GetTickTransactionsRequestV2 t _ _ => Some t
  | OtherRequest => None
  end.

Definition GetInterceptor {A} (req : request) (handler : request → M S A) : M S A :=
  _ ← mwrap "invalid tick number"
    (match checked_tick req with
     | Some t => checkTickWithinArchiverIntervals t
     | None => mret tt
     end);
  handler req.

(** ** What the interceptor admits *)
Context {TL : ProcessedTicksStoreLaws S} {GL : GrpcStatusLaws G}.

Lemma status_with_ok c msg d : status_with (StatusError c msg None) d = StatusError c msg (Some d).
Proof. unfold status_with. by rewrite status_WithDetails_ok. Qed.

(** The answer the check gives for a tick of the archive. *)
Definition verdict (a : archive) (t : Z) (o : outcome unit) : Prop :=
  (o = Ok tt ∧ ∃ e, processed_in a e t) ∨
  (ar_last a = None ∧ o = Err (StatusError Internal "failed to get last processed tick" None)) ∨
  (ar_last a ≠ None ∧ last_number a < t ∧ o = Err (StatusError FailedPrecondition
     "requested tick number is greater than last processed tick" (Some (last_number a)))) ∨
  (∃ n, skipped a t ∧ t < n ∧ (∃ e, processed_in a e n) ∧
        (∀ t' e, t ≤ t' < n → ¬ processed_in a e t') ∧
        o = Err (StatusError OutOfRange "provided tick number was skipped by the system" (Some n))).

Lemma check_verdict s a t : serves s a → 1 ≤ t →
  ∃ o s', checkTickWithinArchiverIntervals t s = (o, s') ∧ serves s' a ∧ verdict a t o.
Proof.
  intros Hs Ht. pose proof (serves_ok s a Hs) as Hok.
  destruct (serves_last s a Hs) as (s1 & E1 & Hs1).
  unfold checkTickWithinArchiverIntervals, mbind at 1, M_bind at 1, mmap_err at 1. rewrite E1.
  destruct (ar_last a) as [pt|] eqn:Elast; cbn [map_err].
  2: { exists (Err (StatusError Internal "failed to get last processed tick" None)), s1.
       split; [done|]. split; [done|]. right. by left. }
  assert (Hn : pb.ProcessedTick_TickNumber pt = last_number a)
    by (unfold last_number; by rewrite Elast).
  rewrite Hn. case_bool_decide as Hgt.
  { rewrite status_with_ok. eexists _, s1. split; [done|]. split; [done|].
    right. right. left. split; [congruence|]. split; [lia|done]. }
  destruct (serves_intervals s1 a Hs1) as (l & s2 & E2 & Hl & Hs2).
  unfold mbind at 1, M_bind at 1, mmap_err at 1. rewrite E2. cbn [map_err].
  pose proof (WasSkipped_answer a l Hok Hl t Ht) as Hw.
  destruct (Tick.WasSkippedByArchive t l) as [[] n].
  - rewrite status_with_ok. eexists _, s2. split; [done|]. split; [done|].
    right. right. right. exists n. destruct Hw as (? & ? & ? & ?). done.
  - exists (Ok tt), s2. split; [done|]. split; [done|]. left. split; [done|].
    destruct Hw as [_ [?|?]]; [done|lia].
Qed.

(** A verdict other than acceptance is an error about an unprocessed tick. *)
Lemma verdict_cases a t o : archive_ok a → verdict a t o →
  (o = Ok tt ∧ ∃ e, processed_in a e t) ∨ (∃ e, o = Err e ∧ ∀ ep, ¬ processed_in a ep t).
Proof.
  intros Hok [[-> Hp]|[[Hnone ->]|[(_ & Hlt & ->)|(n & Hsk & _ & _ & _ & ->)]]]; [by left|right..];
    eexists; (split; [done|]); intros ep Hp.
  - apply (ok_bounds a Hok) in Hp. unfold last_number in Hp. rewrite Hnone in Hp. lia.
  - apply (ok_bounds a Hok) in Hp. lia.
  - by eapply (ok_exclusive a Hok).
Qed.

(** C14: For a request that names a tick from 1 on, the interceptor runs the
    handler exactly when the tick was processed; a tick after the last
    processed one and a skipped tick are answered with the status and the
    detail (last processed tick, next processed tick) that say so. *)
Theorem GetInterceptor_admits_processed {A} s a req t (handler : request → M S A) :
  serves s a → checked_tick req = Some t → 1 ≤ t →
  ∃ s', serves s' a ∧
  (((∃ e, processed_in a e t) ∧ GetInterceptor req handler s = handler req s') ∨
   (∃ e, GetInterceptor req handler s = (Err (WrapError "invalid tick number" e), s') ∧
         (∀ ep, ¬ processed_in a ep t) ∧ verdict a t (Err e))).
Proof.
  intros Hs Hreq Ht. destruct (check_verdict s a t Hs Ht) as (o & s' & E & Hs' & Hv).
  exists s'. split; [done|]. unfold GetInterceptor. rewrite Hreq.
  unfold mbind, M_bind, mwrap, mmap_err. rewrite E.
  destruct (verdict_cases a t o (serves_ok s a Hs) Hv) as [[-> Hp]|(e & -> & Hn)];
    [by left|right; by exists e].
Qed.
End Interceptor.

(** ** The pebble store implements the interface *)
Section PebbleStore.
Context {P : Pebble} {PL : PebbleLaws P} {PR : Protobuf} {PRL : ProtobufLaws PR}.

#[export] Instance pebble_ticks : ProcessedTicksStore DB := {|
  pts_GetLastProcessedTick := GetLastProcessedTick;
  pts_GetProcessedTickIntervals := GetProcessedTickIntervals
|}.

Definition pebble_serves (db : DB) (a : archive) : Prop :=
  healthy db ∧ represents (contents db) a ∧ archive_ok a.

#[export] Instance pebble_ticks_laws : ProcessedTicksStoreLaws DB.
Proof.
  refine {| serves := pebble_serves |}.
  - by intros db a (_ & _ & ?).
  - intros db a (Hh & Hr & Hok). destruct (runs_GetLastProcessedTick _ a Hr db Hh eq_refl)
      as (db' & E & Hh' & Hc). exists db'. split; [exact E|]. unfold pebble_serves. by rewrite Hc.
  - intros db a (Hh & Hr & Hok).
    destruct (runs_GetProcessedTickIntervals _ a Hr) as (l & Hrun & Hl).
    { intros e. by apply archive_ok_small. }
    destruct (Hrun db Hh eq_refl) as (db' & E & Hh' & Hc).
    exists l, db'. split; [exact E|]. split; [done|]. unfold pebble_serves. by rewrite Hc.
Defined.
End PebbleStore.
