(* ===== verification/Rpc.v ===== *)
(** * rpc/rpc_server.go: the request handlers

    Each handler is a computation over the database that ends in the response
    or in an error; a response with one field is that field, and a nil message
    is [None].  Status texts are the constant part of the source's format
    strings.  The network is an interface ([HttpClient]). *)

From stdpp Require Import sorting base strings numbers pretty gmap list.
From S2P Require Import Prelude GoLib Types Platform Keys Store Paging.
From S2P Require Import Middleware.
From S2P Require Quorum Tick.

Local Open Scope Z_scope.

Record TransactionInfo := MkTransactionInfo {
  TransactionInfo_timestamp : Z;
  TransactionInfo_moneyFlew : bool
}.

Record Server := MkServer {
  Server_syncThreshold : Z;
  Server_chainTickFetchUrl : string
}.

(** [status.Errorf(c, msg, ...)] *)
Definition status_error (c : code) (msg : string) : error := StatusError c msg None.

(** [if errors.Is(err, store.ErrNotFound) { return NotFound }; return Internal] *)
Definition not_found_status (missing failed : string) (err : error) : error :=
  if errors_Is err ErrNotFound then status_error NotFound missing
  else status_error Internal failed.

(** [return status.Errorf(codes.Internal, msg, err)] *)
Definition internal_status (msg : string) (_ : error) : error := status_error Internal msg.

(** The address of the send-many contract, as the source spells it. *)
Definition sendManyAddress : string :=
  "EAAAAAAAAAAAAAAAAAAAAAAAAAAAAAAAAAAAAAAAAAAAAAAAAAAAAAAAVWRF".

Section Rpc.
Context {P : Pebble} {PR : Protobuf} {R : GoRuntime} {K : K12} {N : NodeConnector}.
Context {G : GrpcStatus} {H : HttpClient}.

Definition getTransactionInfo (transactionId : string) (tickNumber : Z) : M DB TransactionInfo :=
  tickData ← mwrap "getting tick data" (Store.GetTickData tickNumber);
  r ← mattempt (Store.GetTransactionStatus transactionId);
  match r with
  | inr err =>
      if errors_Is err ErrNotFound
      then mret (MkTransactionInfo (pb.TickData_Timestamp tickData) false)
      else throw (WrapError "getting transaction status" err)
  | inl txStatus =>
      mret (MkTransactionInfo (pb.TickData_Timestamp tickData)
              (pb.TransactionStatus_MoneyFlew txStatus))
  end.

(** The comparison with [emptyTd] is of pointers and never holds. *)
Definition GetTickData (TickNumber : Z) : M DB (option pb.TickData) :=
  tickData ← mmap_err (not_found_status "tick data not found" "getting tick data")
    (Store.GetTickData TickNumber);
  if Tick.CheckIfTickIsEmptyProto (Some tickData) then mret None else mret (Some tickData).

Definition GetTickTransactions (TickNumber : Z) : M DB (list pb.Transaction) :=
  mmap_err (not_found_status "tick transactions for specified tick not found"
                             "getting tick transactions")
    (Store.GetTickTransactions TickNumber).

Definition GetTickTransferTransactions (TickNumber : Z) : M DB (list pb.Transaction) :=
  mmap_err (not_found_status "tick transfer transactions for specified tick not found"
                             "getting tick transactions")
    (Store.GetTickTransferTransactions TickNumber).

Definition GetTransaction (TxId : string) : M DB pb.Transaction :=
  mmap_err (not_found_status "transaction not found" "getting transaction")
    (Store.GetTransaction TxId).

(** The quorum data of the last tick: the stored fields only. *)
Definition unreconstructed (tickData : pb.QuorumTickDataStored) : pb.QuorumTickData :=
  pb.MkQuorumTickData (pb.QuorumTickDataStored_QuorumTickStructure_ tickData)
    (foldl (λ m '(id, diff), <[id :=
        pb.MkQuorumDiff EmptyString EmptyString EmptyString EmptyString
          (pb.QuorumDiffStored_ExpectedNextTickTxDigestHex diff)
          (pb.QuorumDiffStored_SignatureHex diff) EmptyString]> m) ∅
       (map_range (map_to_list (pb.QuorumTickDataStored_QuorumDiffPerComputor tickData)))).

(** From the stored votes of the tick and of the next one. *)
Definition reconstructed (TickNumber : Z) : M DB pb.QuorumTickData :=
  let nextTick := uint32 (TickNumber + 1) in
  nextTickQuorumData ← mmap_err (λ err,
      if errors_Is err ErrNotFound then status_error Internal "quorum data for next tick was not found"
      else status_error Internal "getting tick data")
    (Store.GetQuorumTickData nextTick);
  currentTickQuorumData ← mmap_err (λ err,
      if errors_Is err ErrNotFound then status_error Internal "quorum data for  tick was not found"
      else status_error Internal "getting tick data")
    (Store.GetQuorumTickData TickNumber);
  computors ← mmap_err (internal_status "getting computor list")
    (Store.GetComputors (pb.QuorumTickStructure_Epoch
       (pb.QuorumTickDataStored_QuorumTickStructure_ currentTickQuorumData)));
  lift (map_err (internal_status "reconstructing quorum data")
    (Quorum.ReconstructQuorumData currentTickQuorumData nextTickQuorumData computors)).

Definition GetQuorumTickData (TickNumber : Z) : M DB (option pb.QuorumTickData) :=
  lastProcessedTick ← mmap_err (internal_status "getting last processed tick")
    GetLastProcessedTick;
  if bool_decide (TickNumber > pb.ProcessedTick_TickNumber lastProcessedTick)
  then throw (status_with
    (status_error FailedPrecondition "requested tick number is greater than last processed tick")
    (pb.ProcessedTick_TickNumber lastProcessedTick))
  else
    processedTickIntervalsPerEpoch ← mmap_err
      (internal_status "getting processed tick intervals per epoch") GetProcessedTickIntervals;
    epoch ← lift (map_err (internal_status "getting tick epoch")
      (Tick.GetTickEpoch TickNumber processedTickIntervalsPerEpoch));
    '(lastTickFlag, index) ← lift (map_err
      (internal_status "checking if tick is last tick in it's epoch")
      (Tick.IsTickLastInAnyEpochInterval TickNumber epoch processedTickIntervalsPerEpoch));
    if lastTickFlag : bool then
      lastQuorumDataPerEpochInterval ← mmap_err
        (internal_status "getting quorum data for last processed tick")
        (GetLastTickQuorumDataListPerEpochInterval epoch);
      mret (pb.LastTickQuorumDataPerEpochIntervals_QuorumDataPerInterval
              lastQuorumDataPerEpochInterval ≫= λ m, m !! int32 index)
    else
      let '(wasSkipped, nextAvailableTick) :=
        Tick.WasSkippedByArchive TickNumber processedTickIntervalsPerEpoch in
      if wasSkipped : bool
      then throw (status_with
        (status_error OutOfRange "provided tick number was skipped by the system")
        nextAvailableTick)
      else if bool_decide (TickNumber = pb.ProcessedTick_TickNumber lastProcessedTick) then
        tickData ← mmap_err
          (not_found_status "quorum tick data not found" "getting quorum tick data")
          (Store.GetQuorumTickData TickNumber);
        mret (Some (unreconstructed tickData))
      else
        data ← reconstructed TickNumber;
        mret (Some data).

Definition GetComputors (Epoch : Z) : M DB pb.Computors :=
  mmap_err (not_found_status "computors not found" "getting computors")
    (Store.GetComputors Epoch).

(** Without any skipped interval the answer has the first two fields only. *)
Definition GetStatus : M DB pb.GetStatusResponse :=
  lastProcessedTick ← mmap_err (internal_status "getting last processed tick")
    GetLastProcessedTick;
  lastProcessedTicksPerEpoch ← mmap_err (internal_status "getting last processed tick")
    GetLastProcessedTicksPerEpoch;
  r ← mattempt GetSkippedTicksInterval;
  match r with
  | inr err =>
      if errors_Is err ErrNotFound
      then mret (pb.MkGetStatusResponse lastProcessedTick lastProcessedTicksPerEpoch [] [] ∅)
      else throw (status_error Internal "getting skipped ticks")
  | inl skippedTicks =>
      ptie ← mmap_err (internal_status "getting processed tick intervals")
        GetProcessedTickIntervals;
      emptyTickForCurrentEpoch ← mmap_err
        (internal_status "getting empty ticks for current epoch")
        (GetEmptyTicksForEpoch (pb.ProcessedTick_Epoch lastProcessedTick));
      mret (pb.MkGetStatusResponse lastProcessedTick lastProcessedTicksPerEpoch
              (pb.SkippedTicksIntervalList_SkippedTicks skippedTicks) ptie
              {[pb.ProcessedTick_Epoch lastProcessedTick := emptyTickForCurrentEpoch]})
  end.

Definition fetchChainTick (url : string) : outcome Z :=
  req ← wrap "creating new request" (http_NewRequest url);
  res ← wrap "getting chain tick from node fetcher" (http_Do req);
  body ← wrap "reading response body" (io_ReadAll res);
  tickNumber ← wrap "unmarshalling response" (json_max_tick body);
  if bool_decide (tickNumber = 0)
  then Err (ErrorString "response has no chain tick or chain tick is 0")
  else Ok tickNumber.

Definition GetHealthCheck (s : Server) : M DB bool :=
  lastProcessedTick ← mmap_err (internal_status "getting last processed tick")
    GetLastProcessedTick;
  chainTick ← lift (map_err (internal_status "fetching network tick")
    (fetchChainTick (Server_chainTickFetchUrl s)));
  let difference := int64 (chainTick - pb.ProcessedTick_TickNumber lastProcessedTick) in
  if bool_decide (difference > Server_syncThreshold s)
  then throw (status_error Internal "processor is behind network by ticks")
  else mret true.

Definition GetLatestTick (s : Server) : M DB Z :=
  chainTick ← lift (map_err (internal_status "fetching chain tick")
    (fetchChainTick (Server_chainTickFetchUrl s)));
  mret (uint32 chainTick).

Definition GetTransferTransactionsPerTick (Identity : string) (StartTick EndTick : Z) :
    M DB (list pb.TransferTransactionsPerTick) :=
  mmap_err (internal_status "getting transfer transactions")
    (GetTransactionsForEntity Identity (uint64 StartTick) (uint64 EndTick)).

Definition recomputeSendManyMoneyFlew (tx : pb.Transaction) : outcome bool :=
  decodedInput ← map_err (internal_status "decoding tx input")
    (hex_DecodeString (pb.Transaction_InputHex tx));
  sendmanypayload ← map_err (internal_status "unmarshalling payload")
    (SendMany_UnmarshallBinary decodedInput);
  if bool_decide (pb.Transaction_Amount tx < SendMany_GetTotalAmount sendmanypayload)
  then Ok false else Ok true.

(** [tx.InputType == 1 && tx.InputSize == 1000 && tx.DestId == ...] *)
Definition is_send_many (tx : pb.Transaction) : bool :=
  bool_decide (pb.Transaction_InputType tx = 1 ∧ pb.Transaction_InputSize tx = 1000 ∧
               pb.Transaction_DestId tx = sendManyAddress).

Definition copy_of (tx : pb.Transaction) : pb.Transaction :=
  pb.MkTransaction (pb.Transaction_SourceId tx) (pb.Transaction_DestId tx)
    (pb.Transaction_Amount tx) (pb.Transaction_TickNumber tx) (pb.Transaction_InputType tx)
    (pb.Transaction_InputSize tx) (pb.Transaction_InputHex tx) (pb.Transaction_SignatureHex tx)
    (pb.Transaction_TxId tx).

Definition approved_step (approvedTxs : list pb.Transaction) (txStatus : pb.TransactionStatus) :
    M DB (list pb.Transaction) :=
  if bool_decide (pb.TransactionStatus_MoneyFlew txStatus = false) then mret approvedTxs
  else
    tx ← mwrap "getting tx from archiver" (Store.GetTransaction (pb.TransactionStatus_TxId txStatus));
    if is_send_many tx then
      moneyFlew ← lift (map_err (internal_status "recomputeSendManyMoneyFlew")
        (recomputeSendManyMoneyFlew tx));
      if bool_decide (moneyFlew = false) then mret approvedTxs
      else mret (approvedTxs ++ [copy_of tx])
    else mret (approvedTxs ++ [copy_of tx]).

Definition GetTickApprovedTransactions (TickNumber : Z) : M DB (list pb.Transaction) :=
  tts ← mmap_err (not_found_status "tick transactions status data not found for tick"
                                   "getting tick transactions status")
    (GetTickTransactionsStatus (uint64 TickNumber));
  foldM approved_step [] (pb.TickTransactionsStatus_Transactions tts).

(** The checks on the identifier: it must be the one of its public key. *)
Definition check_tx_id (TxId : string) : outcome unit :=
  pubKey ← map_err (λ _, status_error InvalidArgument "invalid tx id format")
    (Identity_ToPubKey TxId true);
  let pubkeyFixed := copy_into (zero_array 32) pubKey in
  id ← map_err (λ _, status_error InvalidArgument "invalid tx id format")
    (Identity_FromPubKey pubkeyFixed true);
  if bool_decide (id ≠ TxId) then Err (status_error InvalidArgument "invalid tx id format")
  else Ok tt.

Definition GetTransactionStatus (TxId : string) : M DB pb.TransactionStatus :=
  _ ← lift (check_tx_id TxId);
  tx ← mmap_err (not_found_status "tx status for specified tx id not found" "getting tx status")
    (Store.GetTransaction TxId);
  lastProcessedTick ← mmap_err (internal_status "getting last processed tick")
    GetLastProcessedTick;
  if bool_decide (pb.Transaction_TickNumber tx > pb.ProcessedTick_TickNumber lastProcessedTick)
  then throw (status_error NotFound "tx status for specified tx id not found")
  else if bool_decide (pb.Transaction_Amount tx ≤ 0)
  then throw (status_error NotFound "tx status for specified tx id not found")
  else
    r ← mattempt (Store.GetTransactionStatus TxId);
    match r with
    | inr err =>
        if errors_Is err ErrNotFound
        then mret (pb.MkTransactionStatus (pb.Transaction_TxId tx) false)
        else throw (status_error Internal "getting tx status")
    | inl txStatus =>
        if bool_decide (pb.TransactionStatus_MoneyFlew txStatus = false)
        then mret (pb.MkTransactionStatus (pb.Transaction_TxId tx) false)
        else if is_send_many tx then
          moneyFlew ← lift (map_err (internal_status "recomputeSendManyMoneyFlew")
            (recomputeSendManyMoneyFlew tx));
          mret (pb.MkTransactionStatus (pb.Transaction_TxId tx) moneyFlew)
        else mret txStatus
    end.

Definition GetChainHash (TickNumber : Z) : M DB string :=
  hash ← mmap_err (not_found_status "chain hash for specified tick not found" "getting chain hash")
    (GetChainDigest TickNumber);
  mret (hex_EncodeToString hash).

Definition GetStoreHash (TickNumber : Z) : M DB string :=
  hash ← mmap_err (not_found_status "store hash for specified tick not found" "getting store hash")
    (GetStoreDigest TickNumber);
  mret (hex_EncodeToString hash).
End Rpc.
