(* ===== verification/RpcV2.v ===== *)
(** * rpc/v2_endpoints.go: the second version of the API

    Handlers over the database, pagination included.  [GetEpochTickListV2] has
    a loop over a 32-bit counter that does not end when the bound is the
    largest one, so it takes fuel: [None] means it ran out. *)

From stdpp Require Import sorting base strings numbers pretty gmap list.
From S2P Require Import Prelude GoLib Types Platform Keys Store Paging.
From S2P Require Import Rpc.

Local Open Scope Z_scope.

Definition maxPageSize : Z := 250.
Definition defaultPageSize : Z := 100.

(** ** getPaginationInformation *)
Definition getPaginationInformation (totalRecords pageNumber pageSize : Z) :
    outcome pb.Pagination :=
  if bool_decide (pageNumber < 1) then Err (ErrorString "invalid page number")
  else if bool_decide (pageSize < 1) then Err (ErrorString "invalid page size")
  else if bool_decide (totalRecords < 0) then Err (ErrorString "invalid number of total records")
  else
    let totalPages := Z.quot totalRecords pageSize in
    let totalPages := if bool_decide (Z.rem totalRecords pageSize ≠ 0)
                      then totalPages + 1 else totalPages in
    let nextPage := int64 (pageNumber + 1) in
    let nextPage := if bool_decide (nextPage > totalPages) then -1 else nextPage in
    let previousPage := pageNumber - 1 in
    let previousPage := if bool_decide (previousPage = 0) then -1 else previousPage in
    Ok {| pb.Pagination_TotalRecords := int32 totalRecords;
          pb.Pagination_CurrentPage := int32 (Z.min totalRecords pageNumber);
          pb.Pagination_TotalPages := int32 totalPages;
          pb.Pagination_PageSize := int32 pageSize;
          pb.Pagination_NextPage := int32 nextPage;
          pb.Pagination_PreviousPage := int32 (Z.min totalPages previousPage) |}.

(** ** The page of a list, as both list endpoints compute it *)
Definition select_page {A} (l : list A) (page pageSize : Z) :
    outcome (pb.Pagination * list A) :=
  let len := Z.of_nat (length l) in
  let pageCount := Z.quot len pageSize in
  let pageCount := if bool_decide (Z.rem len pageSize ≠ 0) then pageCount + 1 else pageCount in
  let currentPage := if bool_decide (page ≤ 0) then 1 else page in
  if bool_decide (currentPage > pageCount)
  then Err (status_error NotFound "cannot find specified page")
  else
    let startingIndex := (currentPage - 1) * pageSize in
    let endingIndex := startingIndex + pageSize in
    let endingIndex := if bool_decide (endingIndex > len) then len else endingIndex in
    selectedTicks ← slice l startingIndex endingIndex;
    let nextPage := if bool_decide (currentPage = pageCount) then -1 else currentPage + 1 in
    let previousPage := if bool_decide (currentPage = 1) then -1 else currentPage - 1 in
    Ok ({| pb.Pagination_TotalRecords := int32 len;
           pb.Pagination_CurrentPage := int32 currentPage;
           pb.Pagination_TotalPages := int32 pageCount;
           pb.Pagination_PageSize := pageSize;
           pb.Pagination_NextPage := int32 nextPage;
           pb.Pagination_PreviousPage := int32 previousPage |}, selectedTicks).

(** ** The ticks of an epoch *)

(** [for i := initial; i <= last; i++] over [uint32]. *)
Fixpoint mark_interval (fuel : nat) (i last : Z) (tickMap : gmap Z bool) : option (gmap Z bool) :=
  if bool_decide (i ≤ last) then
    match fuel with
    | O => None
    | S fuel => mark_interval fuel (uint32 (i + 1)) last (<[i := false]> tickMap)
    end
  else Some tickMap.

Fixpoint mark_intervals (fuel : nat) (l : list pb.ProcessedTickInterval) (tickMap : gmap Z bool) :
    option (gmap Z bool) :=
  match l with
  | [] => Some tickMap
  | interval :: l =>
      tickMap ← mark_interval fuel (pb.ProcessedTickInterval_InitialProcessedTick interval)
                  (pb.ProcessedTickInterval_LastProcessedTick interval) tickMap;
      mark_intervals fuel l tickMap
  end.

Definition mark_empty (tickMap : gmap Z bool) (tickNumber : Z) : gmap Z bool :=
  match tickMap !! tickNumber with
  | Some _ => <[tickNumber := true]> tickMap
  | None => tickMap
  end.

(** The comparison of [slices.SortFunc]. *)
Definition tick_order (desc : bool) (a b : pb.TickStatus) : Prop :=
  if desc then pb.TickStatus_TickNumber b ≤ pb.TickStatus_TickNumber a
  else pb.TickStatus_TickNumber a ≤ pb.TickStatus_TickNumber b.

#[export] Instance tick_order_dec desc : RelDecision (tick_order desc).
Proof. intros a b. unfold tick_order. destruct desc; apply _. Defined.

(** The last entry of the epoch in the list of intervals; nil if there is none. *)
Definition intervals_for_epoch (Epoch : Z) (intervals : list pb.ProcessedTickIntervalsPerEpoch) :
    list pb.ProcessedTickInterval :=
  foldl (λ found interval,
      if bool_decide (pb.ProcessedTickIntervalsPerEpoch_Epoch interval ≠ Epoch) then found
      else pb.ProcessedTickIntervalsPerEpoch_Intervals interval) [] intervals.

Section RpcV2.
Context {P : Pebble} {PR : Protobuf} {R : GoRuntime} {K : K12} {N : NodeConnector}.
Context {G : GrpcStatus} {H : HttpClient}.

Definition GetTickQuorumDataV2 (TickNumber : Z) : M DB (option pb.QuorumTickData) :=
  GetQuorumTickData TickNumber.

Definition GetTickChainHashV2 (TickNumber : Z) : M DB string := GetChainHash TickNumber.

Definition GetTickStoreHashV2 (TickNumber : Z) : M DB string := GetStoreHash TickNumber.

Definition transaction_data (transaction : pb.Transaction) (transactionInfo : TransactionInfo) :
    pb.TransactionData :=
  pb.MkTransactionData transaction (TransactionInfo_timestamp transactionInfo)
    (TransactionInfo_moneyFlew transactionInfo).

(** The loop's body in the two endpoints that keep every transaction. *)
Definition with_info_step (transactions : list pb.TransactionData) (transaction : pb.Transaction) :
    M DB (list pb.TransactionData) :=
  transactionInfo ← mmap_err (internal_status "failed to get transaction info")
    (getTransactionInfo (pb.Transaction_TxId transaction) (pb.Transaction_TickNumber transaction));
  mret (transactions ++ [transaction_data transaction transactionInfo]).

(** The loop's body in the endpoint that keeps those whose money flew. *)
Definition approved_info_step (transactions : list pb.TransactionData)
    (transaction : pb.Transaction) : M DB (list pb.TransactionData) :=
  transactionInfo ← mmap_err (internal_status "failed to get transaction info")
    (getTransactionInfo (pb.Transaction_TxId transaction) (pb.Transaction_TickNumber transaction));
  if bool_decide (TransactionInfo_moneyFlew transactionInfo = false) then mret transactions
  else mret (transactions ++ [transaction_data transaction transactionInfo]).

Definition GetAllTickTransactionsV2 (TickNumber : Z) : M DB (list pb.TransactionData) :=
  txs ← mmap_err (not_found_status "tick transactions for specified tick not found"
                                   "getting tick transactions")
    (Store.GetTickTransactions TickNumber);
  foldM with_info_step [] txs.

Definition GetTransferTickTransactionsV2 (TickNumber : Z) : M DB (list pb.TransactionData) :=
  txs ← mmap_err (not_found_status "tick transfer transactions for specified tick not found"
                                   "getting tick transactions")
    (Store.GetTickTransferTransactions TickNumber);
  foldM with_info_step [] txs.

Definition GetApprovedTickTransactionsV2 (TickNumber : Z) : M DB (list pb.TransactionData) :=
  txs ← mmap_err (not_found_status "tick transfer transactions for specified tick not found"
                                   "getting tick transactions")
    (Store.GetTickTransferTransactions TickNumber);
  foldM approved_info_step [] txs.

Definition GetTickTransactionsV2 (TickNumber : Z) (Transfers Approved : bool) :
    M DB (list pb.TransactionData) :=
  if Approved then GetApprovedTickTransactionsV2 TickNumber
  else if Transfers then GetTransferTickTransactionsV2 TickNumber
  else GetAllTickTransactionsV2 TickNumber.

Definition GetTransactionV2 (TxId : string) : M DB pb.TransactionData :=
  tx ← mmap_err (not_found_status "transaction not found" "getting transaction")
    (Store.GetTransaction TxId);
  transactionInfo ← mmap_err (internal_status "getting transaction info")
    (getTransactionInfo (pb.Transaction_TxId tx) (pb.Transaction_TickNumber tx));
  mret (transaction_data tx transactionInfo).

Definition GetSendManyTransactionV2 (TxId : string) : M DB pb.SendManyTransactionData :=
  transaction ← mmap_err (not_found_status "transaction not found" "getting transaction")
    (Store.GetTransaction TxId);
  if bool_decide (pb.Transaction_InputType transaction ≠ 1 ∨
                  pb.Transaction_DestId transaction ≠ QutilAddress)
  then throw (status_error NotFound "request transaction is not of send-many type")
  else
    transactionInfo ← mmap_err (internal_status "getting transaction info")
      (getTransactionInfo (pb.Transaction_TxId transaction)
         (pb.Transaction_TickNumber transaction));
    rawPayload ← lift (map_err (internal_status "failed to decode raw payload")
      (hex_DecodeString (pb.Transaction_InputHex transaction)));
    sendManyPayload ← lift (map_err (internal_status "failed to unmarshall payload data")
      (SendMany_UnmarshallBinary rawPayload));
    transfers ← lift (map_err (internal_status "getting send many transfers")
      (SendMany_GetTransfers sendManyPayload));
    let sendManyTransfers := (λ '(dest, amount), pb.MkSendManyTransfer dest amount) <$> transfers in
    mret (pb.MkSendManyTransactionData
      {| pb.SendManyTransaction_SourceId := pb.Transaction_SourceId transaction;
         pb.SendManyTransaction_TickNumber := pb.Transaction_TickNumber transaction;
         pb.SendManyTransaction_Transfers := sendManyTransfers;
         pb.SendManyTransaction_TotalAmount := SendMany_GetTotalAmount sendManyPayload;
         pb.SendManyTransaction_SignatureHex := pb.Transaction_SignatureHex transaction;
         pb.SendManyTransaction_TxId := pb.Transaction_TxId transaction |}
      (TransactionInfo_timestamp transactionInfo) (TransactionInfo_moneyFlew transactionInfo)).

(** ** Transfers of an identity in a tick range *)
Definition transfer_step (tickTransactions : list pb.TransactionData) (transaction : pb.Transaction) :
    M DB (list pb.TransactionData) :=
  transactionInfo ← mmap_err (internal_status "when getting transaction info for tx id")
    (getTransactionInfo (pb.Transaction_TxId transaction) (pb.Transaction_TickNumber transaction));
  mret (tickTransactions ++ [transaction_data transaction transactionInfo]).

Definition per_tick_step (totalTransactions : list pb.PerTickIdentityTransfers)
    (transactionsPerTick : pb.TransferTransactionsPerTick) :
    M DB (list pb.PerTickIdentityTransfers) :=
  tickTransactions ← foldM transfer_step []
    (pb.TransferTransactionsPerTick_Transactions transactionsPerTick);
  mret (totalTransactions ++
    [pb.MkPerTickIdentityTransfers
       (pb.TransferTransactionsPerTick_TickNumber transactionsPerTick)
       (pb.TransferTransactionsPerTick_Identity transactionsPerTick) tickTransactions]).

Definition GetIdentityTransfersInTickRangeV2 (Identity : string) (StartTick EndTick : Z)
    (ScOnly Desc : bool) (Page PageSize : Z) :
    M DB (pb.Pagination * list pb.PerTickIdentityTransfers) :=
  if bool_decide (PageSize > maxPageSize)
  then throw (status_error InvalidArgument "Invalid page size")
  else
    let pageSize := if bool_decide (PageSize = 0) then defaultPageSize else PageSize in
    let pageNumber := Z.max 0 (Page - 1) in
    '(txs, totalCount) ← mmap_err (internal_status "getting transfer transactions")
      (GetTransactionsForEntityPaged Identity (uint64 StartTick) (uint64 EndTick)
         (MkPageable (uint32 pageNumber) pageSize) (MkSortable Desc) (MkFilterable ScOnly));
    totalTransactions ← foldM per_tick_step [] txs;
    pagination ← lift (map_err (internal_status "creating pagination info")
      (getPaginationInformation totalCount (pageNumber + 1) pageSize));
    mret (pagination, totalTransactions).

(** ** Empty ticks and ticks of an epoch *)

(** [if errors.Is(err, pebble.ErrNotFound) { return NotFound }; return Internal] *)
Definition empty_list_status (err : error) : error :=
  if errors_Is err PebbleErrNotFound
  then status_error NotFound "no empty ticks found for epoch"
  else status_error Internal "getting empty tick list".

Definition GetEmptyTickListV2 (Epoch Page PageSize : Z) : M DB (pb.Pagination * list Z) :=
  if bool_decide (PageSize ≤ 0)
  then throw (status_error FailedPrecondition "page size must be at least 1")
  else
    emptyTicks ← mmap_err empty_list_status (GetEmptyTickListPerEpoch Epoch);
    lift (select_page emptyTicks Page PageSize).

Definition GetEpochTickListV2 (fuel : nat) (Epoch Page PageSize : Z) (Desc : bool) :
    M DB (option (pb.Pagination * list pb.TickStatus)) :=
  if bool_decide (PageSize ≤ 0)
  then throw (status_error FailedPrecondition "page size must be at least 1")
  else
    intervals ← mmap_err (internal_status "failed to get tick intervals")
      GetProcessedTickIntervals;
    let processedTickIntervalsForEpoch := intervals_for_epoch Epoch intervals in
    if bool_decide (length processedTickIntervalsForEpoch = 0%nat)
    then throw (status_error Internal "no processed tick intervals found for epoch")
    else
      emptyTicksForEpoch ← mmap_err empty_list_status (GetEmptyTickListPerEpoch Epoch);
      match mark_intervals fuel processedTickIntervalsForEpoch ∅ with
      | None => mret None
      | Some tickMap =>
          let tickMap := foldl mark_empty tickMap emptyTicksForEpoch in
          let result := (λ '(tickNumber, isEmpty), pb.MkTickStatus tickNumber isEmpty) <$>
                          map_range (map_to_list tickMap) in
          let result := merge_sort (tick_order Desc) result in
          page ← lift (select_page result Page PageSize);
          mret (Some page)
      end.
End RpcV2.
