(* ===== verification/PaginationProofs.v ===== *)
(** * rpc: pagination theorems

    The pagination record of a paged answer; the pages of the two list endpoints
    partition the list; the loop over a 32-bit tick counter. *)

From stdpp Require Import sorting base strings numbers pretty gmap list.
From S2P Require Import Prelude GoLib Types Platform Keys Store Paging StoreLogic StoreProofs.
From S2P Require Import Rpc RpcV2.

Local Open Scope Z_scope.

(** The number of pages of size [s] that hold [n] records. *)
Definition page_count (n s : Z) : Z := (n + s - 1) / s.

Lemma page_count_code n s : 0 ≤ n → 1 ≤ s →
  (if bool_decide (Z.rem n s ≠ 0) then Z.quot n s + 1 else Z.quot n s) = page_count n s.
Proof.
  intros Hn Hs. rewrite Z.quot_div_nonneg, Z.rem_mod_nonneg by lia. unfold page_count.
  pose proof (Z.div_mod n s ltac:(lia)) as Hd. pose proof (Z.mod_pos_bound n s ltac:(lia)) as Hm.
  case_bool_decide as Hr.
  - replace (n + s - 1) with ((n / s + 1) * s + (n mod s - 1)) by lia.
    rewrite Z.div_add_l, (Z.div_small (n mod s - 1)) by lia. lia.
  - replace (n + s - 1) with (n / s * s + (s - 1)) by lia.
    rewrite Z.div_add_l, (Z.div_small (s - 1)) by lia. lia.
Qed.

(** The page count is the least number of pages with room for all records. *)
Lemma page_count_spec n s : 0 ≤ n → 1 ≤ s →
  n ≤ page_count n s * s ∧ (page_count n s - 1) * s < n ∨ n = 0 ∧ page_count n s = 0.
Proof.
  intros Hn Hs. unfold page_count.
  pose proof (Z.div_mod (n + s - 1) s ltac:(lia)). pose proof (Z.mod_pos_bound (n + s - 1) s ltac:(lia)).
  destruct (decide (n = 0)) as [->|]; [right|left; nia].
  split; [done|]. apply Z.div_small. lia.
Qed.

Lemma page_count_bound n s : 0 ≤ n → 1 ≤ s → 0 ≤ page_count n s ≤ n.
Proof. intros Hn Hs. destruct (page_count_spec n s Hn Hs); nia. Qed.

(** C39: The pagination record: it is refused exactly for a page below 1, a size
    below 1 or a negative total; otherwise the page count is the least number of
    pages with room for all records, the next page is the following one or -1
    after the last page, and the previous page is the preceding one, at most the
    page count, or -1 on the first page. *)
Theorem getPaginationInformation_exact n p s : n < 2 ^ 31 → p < 2 ^ 31 - 1 → s < 2 ^ 31 →
  getPaginationInformation n p s =
  if decide (p < 1) then Err (ErrorString "invalid page number")
  else if decide (s < 1) then Err (ErrorString "invalid page size")
  else if decide (n < 0) then Err (ErrorString "invalid number of total records")
  else Ok (pb.MkPagination n (Z.min n p) (page_count n s) s
             (if decide (p < page_count n s) then p + 1 else -1)
             (if decide (p = 1) then -1 else Z.min (page_count n s) (p - 1))).
Proof.
  intros Hn Hp Hs. unfold getPaginationInformation.
  destruct (decide (p < 1)); [by rewrite bool_decide_true|].
  rewrite (bool_decide_false (p < 1)) by done.
  destruct (decide (s < 1)); [by rewrite bool_decide_true|].
  rewrite (bool_decide_false (s < 1)) by done.
  destruct (decide (n < 0)); [by rewrite bool_decide_true|].
  rewrite (bool_decide_false (n < 0)) by done.
  rewrite page_count_code by lia. pose proof (page_count_bound n s ltac:(lia) ltac:(lia)).
  rewrite (int64_small (p + 1)) by lia. do 2 f_equal.
  - apply int32_small. lia.
  - apply int32_small. lia.
  - apply int32_small. lia.
  - apply int32_small. lia.
  - destruct (decide (p < page_count n s)).
    + rewrite bool_decide_false by lia. apply int32_small. lia.
    + rewrite bool_decide_true by lia. by apply int32_small.
  - destruct (decide (p = 1)) as [->|].
    + rewrite bool_decide_true by lia. rewrite Z.min_r by lia. by apply int32_small.
    + rewrite bool_decide_false by lia. apply int32_small. lia.
Qed.

(** ** Pages of a list *)

(** Page [p], from 1, of size [s]. *)
Definition chunk {A} (l : list A) (p s : Z) : list A :=
  take (Z.to_nat s) (drop (Z.to_nat ((p - 1) * s)) l).

Definition page_info (n p s : Z) : pb.Pagination :=
  pb.MkPagination n p (page_count n s) s
    (if decide (p = page_count n s) then -1 else p + 1) (if decide (p = 1) then -1 else p - 1).

Lemma select_page_eq {A} (l : list A) p s : Z.of_nat (length l) < 2 ^ 31 - 1 → 1 ≤ s → 1 ≤ p →
  select_page l p s =
  if decide (p ≤ page_count (Z.of_nat (length l)) s)
  then Ok (page_info (Z.of_nat (length l)) p s, chunk l p s)
  else Err (status_error NotFound "cannot find specified page").
Proof.
  intros Hl Hs Hp. unfold select_page. set (n := Z.of_nat (length l)) in *.
  rewrite page_count_code by lia. rewrite (bool_decide_false (p ≤ 0)) by lia.
  pose proof (page_count_bound n s ltac:(lia) Hs) as Hb.
  destruct (decide (p ≤ page_count n s)) as [Hle|Hgt].
  2: { by rewrite bool_decide_true by lia. }
  rewrite bool_decide_false by lia.
  assert (Hstart : 0 ≤ (p - 1) * s < n) by (destruct (page_count_spec n s) as [[? ?]|[? ?]]; nia).
  set (e := if bool_decide ((p - 1) * s + s > n) then n else (p - 1) * s + s).
  assert (He : (p - 1) * s ≤ e ≤ n) by (unfold e; case_bool_decide; lia).
  assert (Hslice : slice l ((p - 1) * s) e =
    Ok (take (Z.to_nat (e - (p - 1) * s)) (drop (Z.to_nat ((p - 1) * s)) l)))
    by (unfold slice; rewrite bool_decide_true; [done|lia]).
  rewrite Hslice. ok_step. do 2 f_equal.
  - unfold page_info. f_equal; try (apply int32_small; lia).
    + case_bool_decide; [rewrite decide_True by lia|rewrite decide_False by lia]; apply int32_small; lia.
    + case_bool_decide; [rewrite decide_True by lia|rewrite decide_False by lia]; apply int32_small; lia.
  - unfold chunk, e. case_bool_decide.
    + rewrite !take_ge; [done|..]; rewrite length_drop; lia.
    + by replace ((p - 1) * s + s - (p - 1) * s) with s by lia.
Qed.

Lemma chunks_concat {A} (l : list A) s k : 1 ≤ s →
  concat ((λ i, chunk l (Z.of_nat i + 1) s) <$> seq 0 k) = take (k * Z.to_nat s) l.
Proof.
  intros Hs. induction k as [|k IH]; [done|].
  rewrite seq_S, fmap_app, concat_app, IH. simpl. rewrite app_nil_r. unfold chunk.
  replace (Z.to_nat ((Z.of_nat k + 1 - 1) * s)) with (k * Z.to_nat s)%nat by lia.
  rewrite take_take_drop. f_equal. lia.
Qed.

(** Both list endpoints page the same way: page 1 to page [page_count] are
    answered with consecutive pieces of the list, each of the page size and the last
    one of what is left, which together are the whole list; every later page with
    "not found", and a page number below 1 as page 1. *)
Lemma select_page_pages {A} (l : list A) s :
  Z.of_nat (length l) < 2 ^ 31 - 1 → 1 ≤ s →
  ∃ pages : list (list A),
    Z.of_nat (length pages) = page_count (Z.of_nat (length l)) s ∧ concat pages = l ∧
    (∀ i page, pages !! i = Some page →
       Z.of_nat (length page) = Z.min s (Z.of_nat (length l) - Z.of_nat i * s) ∧
       select_page l (Z.of_nat i + 1) s =
         Ok (page_info (Z.of_nat (length l)) (Z.of_nat i + 1) s, page)) ∧
    (∀ p, Z.of_nat (length pages) < p → 1 ≤ p →
       select_page l p s = Err (status_error NotFound "cannot find specified page")) ∧
    (∀ p, p ≤ 0 → select_page l p s = select_page l 1 s).
Proof.
  intros Hl Hs. set (n := Z.of_nat (length l)) in *. set (c := page_count n s).
  pose proof (page_count_bound n s ltac:(lia) Hs) as Hb. fold c in Hb.
  exists ((λ i, chunk l (Z.of_nat i + 1) s) <$> seq 0 (Z.to_nat c)).
  rewrite length_fmap, length_seq, Z2Nat.id by lia. split; [done|].
  split; [|split; [|split]].
  - rewrite chunks_concat by done.
    apply take_ge. destruct (page_count_spec n s) as [[? ?]|[? ?]]; unfold c; nia.
  - intros i page Hi. apply list_lookup_fmap_Some in Hi as (i' & -> & Hi).
    apply lookup_seq in Hi as [-> Hi]. rewrite Nat.add_0_l. split.
    + unfold chunk. rewrite length_take, length_drop.
      assert (Z.of_nat i * s < n) by (destruct (page_count_spec n s) as [[? ?]|[? ?]]; unfold c in *; nia).
      replace (Z.of_nat i + 1 - 1) with (Z.of_nat i) by lia. lia.
    + rewrite select_page_eq by lia. fold n c. by rewrite decide_True by lia.
  - intros p Hp Hp1. rewrite select_page_eq by lia. fold n c. by rewrite decide_False by lia.
  - intros p Hp. unfold select_page. by rewrite (bool_decide_true (p ≤ 0)), (bool_decide_false (1 ≤ 0)) by lia.
Qed.

(** ** The ticks of an epoch *)

(** The loop marks every tick of the interval, given fuel for each. *)
Lemma mark_interval_ticks fuel i last m : 0 ≤ i → last < 2 ^ 32 - 1 →
  last - i < Z.of_nat fuel →
  ∃ m', mark_interval fuel i last m = Some m' ∧
        ∀ t, m' !! t = if decide (i ≤ t ≤ last) then Some false else m !! t.
Proof.
  revert i m. induction fuel as [|fuel IH]; intros i m Hi Hlast Hfuel; simpl.
  { rewrite bool_decide_false by lia. exists m. split; [done|]. intros t.
    by rewrite decide_False by lia. }
  case_bool_decide.
  - rewrite uint32_small by lia.
    destruct (IH (i + 1) (<[i := false]> m)) as (m' & E & Hm'); [lia..|].
    exists m'. split; [done|]. intros t. rewrite Hm'.
    destruct (decide (t = i)) as [->|Hne].
    + rewrite decide_False by lia. rewrite decide_True by lia. apply lookup_insert_eq.
    + rewrite lookup_insert_ne by done.
      destruct (decide (i + 1 ≤ t ≤ last)); [rewrite decide_True by lia|rewrite decide_False by lia]; done.
  - exists m. split; [done|]. intros t. by rewrite decide_False by lia.
Qed.

(** An interval that ends at the largest tick number is a loop that never
    ends: no amount of fuel is enough. *)
Theorem mark_interval_diverges fuel i m : 0 ≤ i < 2 ^ 32 →
  mark_interval fuel i (2 ^ 32 - 1) m = None.
Proof.
  revert i m. induction fuel as [|fuel IH]; intros i m Hi; simpl;
    rewrite bool_decide_true by lia; [done|].
  apply IH. unfold uint32. apply Z.mod_pos_bound. lia.
Qed.

Lemma mark_empty_lookup m L t :
  foldl mark_empty m L !! t = (λ b, b || bool_decide (t ∈ L)) <$> m !! t.
Proof.
  revert m. induction L as [|x L IH]; intros m; simpl.
  { destruct (m !! t) as [b|]; simpl; [by rewrite orb_false_r|done]. }
  rewrite IH. unfold mark_empty. destruct (m !! x) as [b|] eqn:E.
  - destruct (decide (x = t)) as [->|Hne].
    + rewrite lookup_insert_eq, E. simpl. f_equal. symmetry.
      rewrite bool_decide_true by by left. apply orb_true_r.
    + rewrite lookup_insert_ne by done. destruct (m !! t); simpl; [|done]. do 2 f_equal.
      apply bool_decide_ext. rewrite elem_of_cons. naive_solver.
  - destruct (m !! t) eqn:E'; simpl; [|done]. do 2 f_equal. apply bool_decide_ext.
    rewrite elem_of_cons. naive_solver.
Qed.
