(* ===== verification/RpcProofs.v ===== *)
(** * rpc: theorems about the handlers

    What the handlers answer on a database that represents an archive. *)

From stdpp Require Import sorting base strings numbers pretty gmap list.
From S2P Require Import Prelude GoLib Types Platform Keys Store Paging StoreLogic Success Archive Progress.
From S2P Require Import Frame StoreProofs TickProofs EmptyTicksProofs PaginationProofs Middleware.
From S2P Require Import Rpc RpcV2.
From S2P Require Computors Quorum QuorumProofs Tick.

Local Open Scope Z_scope.

Section RpcProofs.
Context {P : Pebble} {PL : PebbleLaws P} {PR : Protobuf} {PRL : ProtobufLaws PR}.
Context {R : GoRuntime} {RL : GoRuntimeLaws R} {K : K12} {KL : K12Laws K}.
Context {N : NodeConnector} {NL : NodeConnectorLaws N} {G : GrpcStatus} {GL : GrpcStatusLaws G}.
Context {H : HttpClient}.
Implicit Types m : gmap bytes bytes.

Lemma runs_GetIntervals m a : represents m a → archive_ok a →
  ∃ l, runs m GetProcessedTickIntervals (Ok l) m ∧ interval_list a l.
Proof.
  intros Hrep Hok. apply runs_GetProcessedTickIntervals; [done|].
  intros e. by apply archive_ok_small.
Qed.

Lemma runs_status {A} m (c : M DB A) (f : error → error) a :
  runs m c (Ok a) m → runs m (mmap_err f c) (Ok a) m.
Proof. intros. by eapply runs_map_err. Qed.

(** ** Empty ticks *)

(** On a database that records the list [L] of empty ticks of the epoch, the
    pages of [GetEmptyTickListV2] from 1 to the page count are consecutive
    pieces that make up [L], and any further page is "not found". *)
Theorem GetEmptyTickListV2_pages m e L s : Forall is_uint32 L →
  m !! emptyTickListPerEpochKey e = Some (encoded_list L) →
  Z.of_nat (length L) < 2 ^ 31 - 1 → 1 ≤ s →
  ∃ pages : list (list Z),
    Z.of_nat (length pages) = page_count (Z.of_nat (length L)) s ∧ concat pages = L ∧
    (∀ i page, pages !! i = Some page →
       runs m (GetEmptyTickListV2 e (Z.of_nat i + 1) s)
         (Ok (page_info (Z.of_nat (length L)) (Z.of_nat i + 1) s, page)) m) ∧
    (∀ p, Z.of_nat (length pages) < p →
       runs m (GetEmptyTickListV2 e p s)
         (Err (status_error NotFound "cannot find specified page")) m).
Proof.
  intros HL Hm Hlen Hs. destruct (select_page_pages L s Hlen Hs) as (pages & H1 & H2 & H3 & H4 & _).
  assert (Hrun : ∀ p, runs m (GetEmptyTickListV2 e p s) (select_page L p s) m).
  { intros p. unfold GetEmptyTickListV2. rewrite bool_decide_false by lia.
    runs_step (apply runs_status; by apply runs_GetEmptyTickList). apply runs_lift. }
  exists pages. split; [done|]. split; [done|]. split.
  - intros i page Hi. destruct (H3 i page Hi) as [_ <-]. apply Hrun.
  - intros p Hp. rewrite <-(H4 p Hp) by lia. apply Hrun.
Qed.

(** ** The ticks of an epoch *)
Lemma intervals_for_epoch_list a l e : interval_list a l →
  intervals_for_epoch e l = default [] (ar_intervals a !! e).
Proof.
  intros Hl. unfold intervals_for_epoch.
  assert (Hgen : ∀ k acc, (∀ p, p ∈ k → ar_intervals a !! pb.ProcessedTickIntervalsPerEpoch_Epoch p =
      Some (pb.ProcessedTickIntervalsPerEpoch_Intervals p)) →
    foldl (λ found interval,
      if bool_decide (pb.ProcessedTickIntervalsPerEpoch_Epoch interval ≠ e) then found
      else pb.ProcessedTickIntervalsPerEpoch_Intervals interval) acc k =
    if decide (e ∈ pb.ProcessedTickIntervalsPerEpoch_Epoch <$> k)
    then default [] (ar_intervals a !! e) else acc).
  { induction k as [|p k IH]; intros acc Hk; [done|]. rewrite fmap_cons. cbn [foldl].
    rewrite IH by (intros; apply Hk; by right).
    destruct (decide (e ∈ _ <$> k)) as [Hin|Hin].
    - by rewrite decide_True by by right.
    - destruct (decide (pb.ProcessedTickIntervalsPerEpoch_Epoch p = e)) as [Hp|Hp].
      + rewrite bool_decide_false by naive_solver. rewrite decide_True by (rewrite Hp; by left).
        rewrite <-Hp. by rewrite (Hk p) by by left.
      + rewrite bool_decide_true by done. rewrite decide_False; [done|].
        rewrite elem_of_cons. naive_solver. }
  rewrite Hgen by apply Hl. destruct (decide _) as [|Hn]; [done|].
  destruct (ar_intervals a !! e) as [l'|] eqn:E; [|done]. destruct Hn.
  apply list_elem_of_fmap. exists (pb.MkProcessedTickIntervalsPerEpoch e l').
  split; [done|]. by apply Hl.
Qed.

(** All intervals of an epoch are marked. *)
Lemma mark_intervals_ticks fuel l (tm : gmap Z bool) T :
  Forall (λ i, 1 ≤ pb.ProcessedTickInterval_InitialProcessedTick i ∧
               pb.ProcessedTickInterval_LastProcessedTick i ≤ T) l →
  T < 2 ^ 32 - 1 → T ≤ Z.of_nat fuel →
  ∃ tm', mark_intervals fuel l tm = Some tm' ∧
        ∀ t b, tm' !! t = Some b ↔ (∃ i, i ∈ l ∧ in_interval t i) ∧ b = false ∨
                 (∀ i, i ∈ l → ¬ in_interval t i) ∧ tm !! t = Some b.
Proof.
  intros Hl HT Hf. revert tm. induction Hl as [|i l [Hi1 Hi2] Hl IH]; intros tm; simpl.
  { exists tm. split; [done|]. intros t b. set_solver. }
  destruct (mark_interval_ticks fuel (pb.ProcessedTickInterval_InitialProcessedTick i)
    (pb.ProcessedTickInterval_LastProcessedTick i) tm) as (tm1 & E1 & Hm1); [lia..|].
  destruct (IH tm1) as (tm' & E' & Hm'). exists tm'. rewrite E1. split; [exact E'|].
  intros t b. rewrite Hm', Hm1. setoid_rewrite elem_of_cons.
  destruct (decide (pb.ProcessedTickInterval_InitialProcessedTick i ≤ t ≤
                    pb.ProcessedTickInterval_LastProcessedTick i)) as [Hit|Hit].
  - split.
    + intros [[(j & Hj & Hjt) ->]|[Hno [= <-]]]; left; split; eauto.
    + intros [[_ ->]|[Hno _]]; [|by destruct (Hno i); [left|]].
      destruct (existsb (Tick.tick_in_interval t) l) eqn:Ex.
      * apply existsb_exists in Ex as (j & Hj%list_elem_of_In & Hjt%bool_decide_eq_true). left. eauto.
      * right. split; [|done]. intros j Hj Hjt.
        assert (existsb (Tick.tick_in_interval t) l = true); [|congruence].
        apply existsb_exists. exists j. split; [by apply list_elem_of_In|].
        by apply bool_decide_eq_true.
  - split.
    + intros [[(j & Hj & Hjt) ->]|[Hno Hmt]]; [left; split; eauto|]. right. split; [|done].
      intros j [->|Hj]; [done|by apply Hno].
    + intros [[(j & [->|Hj] & Hjt) ->]|[Hno Hmt]]; [done|left; eauto|right]. split; [|done].
      intros j Hj. apply Hno. by right.
Qed.

(** The order of the answer, with no tick twice. *)
Definition tick_before (desc : bool) (x y : pb.TickStatus) : Prop :=
  if desc then pb.TickStatus_TickNumber y < pb.TickStatus_TickNumber x
  else pb.TickStatus_TickNumber x < pb.TickStatus_TickNumber y.

#[local] Instance tick_order_trans desc : Transitive (tick_order desc).
Proof. intros x y z. unfold tick_order. destruct desc; lia. Qed.
#[local] Instance tick_order_total desc : Total (tick_order desc).
Proof. intros x y. unfold tick_order. destruct desc; lia. Qed.

Lemma tick_order_strict desc (l : list pb.TickStatus) :
  NoDup (pb.TickStatus_TickNumber <$> l) → StronglySorted (tick_order desc) l →
  StronglySorted (tick_before desc) l.
Proof.
  intros Hnd Hs. induction Hs as [|x l Hs IH Hx]; [constructor|].
  rewrite fmap_cons in Hnd. apply NoDup_cons in Hnd as [Hxl Hnd]. constructor; [by apply IH|].
  rewrite Forall_forall in *. intros y Hy. specialize (Hx y Hy).
  assert (pb.TickStatus_TickNumber x ≠ pb.TickStatus_TickNumber y).
  { intros Heq. apply Hxl. rewrite Heq. by apply list_elem_of_fmap_2. }
  unfold tick_order, tick_before in *. destruct desc; lia.
Qed.

Definition statuses (tickMap : gmap Z bool) : list pb.TickStatus :=
  (λ '(tickNumber, isEmpty), pb.MkTickStatus tickNumber isEmpty) <$>
    map_range (map_to_list tickMap).

Lemma elem_of_statuses tm t b : pb.MkTickStatus t b ∈ statuses tm ↔ tm !! t = Some b.
Proof.
  unfold statuses. rewrite map_range_perm, list_elem_of_fmap. split.
  - intros ([t' b'] & [= -> ->] & Hin). by apply elem_of_map_to_list.
  - intros Hin. exists (t, b). split; [done|]. by apply elem_of_map_to_list.
Qed.

Lemma statuses_NoDup tm : NoDup (pb.TickStatus_TickNumber <$> statuses tm).
Proof.
  unfold statuses. rewrite map_range_perm, <-list_fmap_compose.
  erewrite list_fmap_ext; [apply NoDup_fst_map_to_list|]. by intros ? [].
Qed.

(** The map the handler builds, with enough fuel. *)
Lemma epoch_tick_map m a e l L fuel : archive_ok a → ar_intervals a !! e = Some l →
  last_number a ≤ Z.of_nat fuel →
  ∃ tm, mark_intervals fuel l ∅ = Some tm ∧
    ∀ t b, foldl mark_empty tm L !! t = Some b ↔ processed_in a e t ∧ b = bool_decide (t ∈ L).
Proof.
  intros Hok Hl Hf. pose proof (last_number_lt a Hok) as Hlt.
  destruct (mark_intervals_ticks fuel l ∅ (last_number a)) as (tm & E & Htm); [|done..|].
  { apply Forall_forall. intros i Hi. by destruct (interval_bounds a e l i Hok Hl Hi) as (_ & ? & ?). }
  exists tm. split; [done|]. intros t b.
  assert (Hp : processed_in a e t ↔ tm !! t = Some false).
  { rewrite Htm, lookup_empty. unfold processed_in. rewrite Hl. naive_solver. }
  assert (Hb : ∀ b, tm !! t = Some b → b = false).
  { intros b'. rewrite Htm, lookup_empty. naive_solver. }
  rewrite mark_empty_lookup, Hp. destruct (tm !! t) as [b'|]; simpl; [|naive_solver].
  rewrite (Hb b' eq_refl). simpl. naive_solver.
Qed.

(** Not more ticks than there are up to the last one. *)
Lemma processed_length a e (result : list pb.TickStatus) : archive_ok a →
  NoDup (pb.TickStatus_TickNumber <$> result) →
  (∀ st, st ∈ result → processed_in a e (pb.TickStatus_TickNumber st)) →
  Z.of_nat (length result) ≤ last_number a.
Proof.
  intros Hok Hnd Hp. pose proof (last_number_nonneg a Hok) as Hlast.
  assert (Hsub : pb.TickStatus_TickNumber <$> result ⊆+ seqZ 1 (last_number a)).
  { apply NoDup_submseteq; [done|]. intros t (st & -> & Hst)%list_elem_of_fmap.
    apply elem_of_seqZ. pose proof (ok_bounds _ Hok _ _ (Hp _ Hst)). lia. }
  apply submseteq_length in Hsub. rewrite length_fmap, length_seqZ in Hsub. lia.
Qed.

(** With fuel for every tick, every request for the epoch's ticks selects a page of one
    list, the same for every page. *)
Lemma GetEpochTickListV2_selects m a e L fuel desc s :
  represents m a → archive_ok a → is_Some (ar_intervals a !! e) →
  Forall is_uint32 L → m !! emptyTickListPerEpochKey e = Some (encoded_list L) →
  last_number a ≤ Z.of_nat fuel → 1 ≤ s →
  ∃ result, StronglySorted (tick_before desc) result ∧ NoDup (pb.TickStatus_TickNumber <$> result) ∧
    (∀ t b, pb.MkTickStatus t b ∈ result ↔ processed_in a e t ∧ b = bool_decide (t ∈ L)) ∧
    ∀ p, runs m (GetEpochTickListV2 fuel e p s desc) (Some <$> select_page result p s) m.
Proof.
  intros Hrep Hok [l Hl] HL Hm Hf Hs.
  destruct (runs_GetIntervals m a Hrep Hok) as (ivs & Hrun & Hivs).
  destruct (epoch_tick_map m a e l L fuel Hok Hl Hf) as (tm & E & Htm).
  set (tickMap := foldl mark_empty tm L).
  assert (Hnd : NoDup (pb.TickStatus_TickNumber <$> merge_sort (tick_order desc) (statuses tickMap)))
    by (rewrite merge_sort_Permutation; apply statuses_NoDup).
  exists (merge_sort (tick_order desc) (statuses tickMap)). split; [|split; [done|split]].
  - apply tick_order_strict; [done|apply (StronglySorted_merge_sort _ _)].
  - intros t b. rewrite merge_sort_Permutation, elem_of_statuses. apply Htm.
  - intros p. unfold GetEpochTickListV2. rewrite bool_decide_false by lia.
    runs_step (apply runs_status; exact Hrun).
    rewrite (intervals_for_epoch_list a ivs e Hivs), Hl. simpl default.
    destruct (ok_epoch a Hok e l Hl) as (Hne & _ & _).
    rewrite (bool_decide_false (length l = 0%nat)) by (by intros ?%length_zero_iff_nil).
    runs_step (apply runs_status; by apply runs_GetEmptyTickList).
    rewrite E. fold tickMap. fold (statuses tickMap).
    destruct (select_page _ p s) as [page|err|]; simpl.
    + runs_step (apply runs_lift). apply runs_ret.
    + apply runs_bind_err, runs_lift.
    + apply runs_bind_panic, runs_lift.
Qed.

(** C35: On the record of an epoch, with less than 2^31 - 1 ticks and fuel for every
    tick, the pages of [GetEpochTickListV2] from 1 to the page count, one after the
    other, list the ticks processed in the epoch, each once and in the requested order,
    marked empty exactly when they are in the stored list of empty ticks; each page
    has the page size, the last one what is left; every later page is "not found",
    and a page number below 1 is answered as page 1. *)
Theorem GetEpochTickListV2_exact m a e L fuel desc s :
  represents m a → archive_ok a → is_Some (ar_intervals a !! e) →
  Forall is_uint32 L → m !! emptyTickListPerEpochKey e = Some (encoded_list L) →
  last_number a ≤ Z.of_nat fuel → last_number a < 2 ^ 31 - 1 → 1 ≤ s →
  ∃ pages : list (list pb.TickStatus),
    let n := Z.of_nat (length (concat pages)) in
    StronglySorted (tick_before desc) (concat pages) ∧
    (∀ t b, pb.MkTickStatus t b ∈ concat pages ↔ processed_in a e t ∧ b = bool_decide (t ∈ L)) ∧
    Z.of_nat (length pages) = page_count n s ∧
    (∀ i page, pages !! i = Some page →
       Z.of_nat (length page) = Z.min s (n - Z.of_nat i * s) ∧
       runs m (GetEpochTickListV2 fuel e (Z.of_nat i + 1) s desc)
         (Ok (Some (page_info n (Z.of_nat i + 1) s, page))) m) ∧
    (∀ p, Z.of_nat (length pages) < p → 1 ≤ p →
       runs m (GetEpochTickListV2 fuel e p s desc)
         (Err (status_error NotFound "cannot find specified page")) m) ∧
    (∀ p o, p ≤ 0 → runs m (GetEpochTickListV2 fuel e 1 s desc) o m →
       runs m (GetEpochTickListV2 fuel e p s desc) o m).
Proof.
  intros Hrep Hok He HL Hm Hf Hlast Hs.
  destruct (GetEpochTickListV2_selects m a e L fuel desc s) as (result & Hsort & Hnd & Hin & Hrun); [done..|].
  assert (Hlen : Z.of_nat (length result) ≤ last_number a).
  { apply (processed_length a e); [done..|]. intros [t b] Hst. by apply Hin in Hst as [? _]. }
  destruct (select_page_pages result s ltac:(lia) Hs) as (pages & Hpages & <- & Hpage & Hlate & Hfirst).
  exists pages. cbn zeta. split; [done|]. split; [done|]. split; [done|]. split; [|split].
  - intros i page Hi. destruct (Hpage i page Hi) as [Hsize E]. split; [done|].
    specialize (Hrun (Z.of_nat i + 1)). by rewrite E in Hrun.
  - intros p Hp Hp1. specialize (Hrun p). by rewrite Hlate in Hrun.
  - intros p o Hp Ho. pose proof (Hrun 1) as H1. specialize (Hrun p).
    rewrite (Hfirst p Hp) in Hrun. intros db Hh Hc.
    destruct (Ho db Hh Hc) as (db1 & E1 & _), (H1 db Hh Hc) as (db2 & E2 & _).
    rewrite E1 in E2. injection E2 as -> ->. by apply Hrun.
Qed.

(** ** The status of the archive *)
Lemma runs_status_prefix m a pt sk : represents m a → archive_ok a →
  ar_last a = Some pt → ar_skipped a = Some sk →
  ∃ l, interval_list a l ∧ ∀ o n,
    runs m (mmap_err (internal_status "getting empty ticks for current epoch")
              (GetEmptyTicksForEpoch (pb.ProcessedTick_Epoch pt))) n m →
    o = match n with
        | Ok n => Ok (pb.MkGetStatusResponse pt (ar_lastPerEpoch a) sk l
                        {[pb.ProcessedTick_Epoch pt := n]})
        | Err err => Err err
        | Panic => Panic
        end →
    runs m GetStatus o m.
Proof.
  intros Hrep Hok Hpt Hsk. destruct (runs_GetIntervals m a Hrep Hok) as (l & Hrun & Hl).
  exists l. split; [done|]. intros o n Hn ->. unfold GetStatus.
  pose proof (runs_GetLastProcessedTick m a Hrep) as Hlast. rewrite Hpt in Hlast.
  runs_step (apply runs_status; exact Hlast).
  runs_step (apply runs_status; by apply runs_visited).
  pose proof (rep_skipped m a Hrep) as Hs. rewrite Hsk in Hs.
  runs_step (eapply runs_attempt; [unfold GetSkippedTicksInterval; by apply runs_get_stored|done]).
  simpl. runs_step (apply runs_status; exact Hrun).
  destruct n as [n|err|].
  - runs_step (exact Hn). apply runs_ret.
  - by apply runs_bind_err.
  - by apply runs_bind_panic.
Qed.

(** Once ticks were skipped, [GetStatus] reports the archive: the last tick,
    the last tick of each epoch, the skipped and the processed intervals, and
    the count of empty ticks of the last epoch, provided that count exists. *)
Theorem GetStatus_reports m a pt sk n : represents m a → archive_ok a →
  ar_last a = Some pt → ar_skipped a = Some sk → is_uint32 n →
  m !! emptyTicksPerEpochKey (pb.ProcessedTick_Epoch pt) = Some (LittleEndian_PutUint32 n) →
  ∃ l, interval_list a l ∧
    runs m GetStatus (Ok (pb.MkGetStatusResponse pt (ar_lastPerEpoch a) sk l
                            {[pb.ProcessedTick_Epoch pt := n]})) m.
Proof.
  intros Hrep Hok Hpt Hsk Hn Hm. destruct (runs_status_prefix m a pt sk Hrep Hok Hpt Hsk) as (l & Hl & Hrun).
  exists l. split; [done|]. apply (Hrun _ (Ok n)); [|done].
  apply runs_status. by apply runs_GetEmptyTicks.
Qed.

(** While the last epoch has no count of empty ticks yet, as from its first
    tick until its first empty one, [GetStatus] is answered with an internal
    error although everything else it reports is there. *)
Theorem GetStatus_without_count m a pt sk : represents m a → archive_ok a →
  ar_last a = Some pt → ar_skipped a = Some sk →
  m !! emptyTicksPerEpochKey (pb.ProcessedTick_Epoch pt) = None →
  runs m GetStatus (Err (status_error Internal "getting empty ticks for current epoch")) m.
Proof.
  intros Hrep Hok Hpt Hsk Hm. destruct (runs_status_prefix m a pt sk Hrep Hok Hpt Hsk) as (l & Hl & Hrun).
  apply (Hrun _ (Err (status_error Internal "getting empty ticks for current epoch"))); [|done].
  eapply runs_map_err; [by apply runs_GetEmptyTicks_missing|done].
Qed.

(** ** Quorum data *)

(** A tick of an epoch that ends none of its intervals is not the last one. *)
Lemma inner_tick a e l t : archive_ok a → ar_intervals a !! e = Some l → processed_in a e t →
  (∀ i, i ∈ l → pb.ProcessedTickInterval_LastProcessedTick i ≠ t) → 1 ≤ t < last_number a.
Proof.
  intros Hok Hl Hp Hno. pose proof (ok_bounds a Hok e t Hp) as Hb.
  destruct (decide (t = last_number a)) as [Ht|]; [exfalso|lia].
  unfold last_number in Ht, Hb. destruct (ar_last a) as [pt|] eqn:E; [|lia].
  destruct (ok_last a Hok pt E) as (_ & _ & _ & l' & i & Hl' & Hi & Hit).
  assert (e = pb.ProcessedTick_Epoch pt) as ->.
  { apply (processed_epoch_unique a Hok e _ t Hp). exists l', i. split; [done|].
    apply last_Some_elem_of in Hi. split; [done|].
    destruct (interval_bounds a _ _ _ Hok Hl' Hi) as (Hne & _ & _).
    unfold interval_nonempty, in_interval in *. lia. }
  rewrite Hl' in Hl. injection Hl as <-. apply last_Some_elem_of in Hi.
  apply (Hno i Hi). congruence.
Qed.

(** C17: For a processed tick that ends none of its epoch's intervals, with the
    stored votes of the tick and of the next one and the computors of its epoch
    in the database, [GetQuorumTickData] answers with the full quorum data of
    the votes that were stored, under the conditions of the reconstruction: the votes
    are of epoch 151 or later, each carries the right salts ([salted], the hash of the
    voter's key and the next tick's digest, which the archiver's validation does not
    check), each voter's key is in the list and not zero, the list has its keys before
    its unused slots ([well_formed]), and the fields of the next tick's first vote have
    their sizes. *)
Theorem GetQuorumTickData_serves m a e l t votes nvotes nv comps pcomps cur nxt :
  represents m a → archive_ok a → ar_intervals a !! e = Some l → processed_in a e t →
  (∀ i, i ∈ l → pb.ProcessedTickInterval_LastProcessedTick i ≠ t) →
  Computors.well_formed comps → Computors.qubicToProto comps = Ok pcomps →
  nvotes !! 0%nat = Some nv → QuorumProofs.vote_wf (Quorum.to_vote nv) →
  (∀ v, v ∈ votes → types.QuorumTickVote_Epoch v >= 151 ∧
     ∃ key, index (types.Computors_PubKeys comps) (types.QuorumTickVote_ComputorIndex v) = Ok key ∧
            key ≠ zero_array 32 ∧ QuorumProofs.salted key v nv) →
  Quorum.qubicToProtoStored votes = Ok cur → Quorum.qubicToProtoStored nvotes = Ok nxt →
  stored m (quorumTickDataKey t) cur → stored m (quorumTickDataKey (t + 1)) nxt →
  stored m (computorsKey (pb.QuorumTickStructure_Epoch
    (pb.QuorumTickDataStored_QuorumTickStructure_ cur))) pcomps →
  ∃ full, Quorum.qubicToProto votes = Ok full ∧
          runs m (GetQuorumTickData t) (Ok (Some full)) m.
Proof.
  intros Hrep Hok Hl Hp Hno Hwf Hpc Hnv Hvwf Hvotes Hcur Hnxt Scur Snxt Scomps.
  destruct (QuorumProofs.ReconstructQuorumData_full votes nvotes nv comps pcomps cur nxt
    Hwf Hpc Hnv Hvwf Hvotes Hcur Hnxt) as (full & Hfull & Hrec).
  exists full. split; [done|]. pose proof (inner_tick a e l t Hok Hl Hp Hno) as Ht.
  pose proof (last_number_lt a Hok) as Hlt.
  destruct (runs_GetIntervals m a Hrep Hok) as (ivs & Hrun & Hivs).
  assert (Hlast : ∃ pt, ar_last a = Some pt ∧ pb.ProcessedTick_TickNumber pt = last_number a).
  { unfold last_number in *. destruct (ar_last a) as [pt|]; [by exists pt|lia]. }
  destruct Hlast as (pt & Hpt & Hnum).
  pose proof (runs_GetLastProcessedTick m a Hrep) as Hgl. rewrite Hpt in Hgl.
  unfold GetQuorumTickData. runs_step (apply runs_status; exact Hgl).
  rewrite Hnum, bool_decide_false by lia. runs_step (apply runs_status; exact Hrun).
  rewrite (proj2 (GetTickEpoch_iff a ivs Hok Hivs t e) Hp). runs_step (apply runs_lift).
  pose proof (IsTickLast_cases a ivs Hok Hivs t e) as Hcases.
  destruct (Tick.IsTickLastInAnyEpochInterval t e ivs) as [[[] i]|err|];
    [destruct Hcases as (l' & x & Hl' & Hx & _ & Hxt)|destruct Hcases as (_ & _)|congruence|congruence].
  { rewrite Hl in Hl'. injection Hl' as <-. apply list_elem_of_lookup_2 in Hx. by destruct (Hno x Hx). }
  runs_step (apply runs_lift). pose proof (WasSkipped_answer a ivs Hok Hivs t ltac:(lia)) as Hw.
  destruct (Tick.WasSkippedByArchive t ivs) as [[] n].
  { destruct Hw as (Hsk & _). by destruct (ok_exclusive a Hok e t Hp). }
  rewrite bool_decide_false by lia. unfold reconstructed. rewrite uint32_small by lia.
  eapply runs_bind; [|apply runs_ret].
  runs_step (apply runs_status; by apply runs_get_stored).
  runs_step (apply runs_status; by apply runs_get_stored).
  runs_step (apply runs_status; by apply runs_get_stored).
  rewrite Hrec. apply runs_lift.
Qed.

(** ** Tick data *)

(** The tick data the validator stores is what [GetTickData] answers with,
    and nothing for an empty tick. *)
Theorem GetTickData_serves_stored m t data td : Tick.qubicToProto data = Ok td →
  (∀ td', td = Some td' → proto_valid td' ∧ td' ≠ pb.emptyTickData) →
  ∃ m', runs m (Tick.Store t data) (Ok tt) m' ∧ runs m' (Rpc.GetTickData t) (Ok td) m' ∧
        ∀ k, k ≠ tickDataKey t → m' !! k = m !! k.
Proof.
  intros Hq Hvalid.
  assert (∃ b td', match td with Some td => Marshal td | None => Marshal_nil (A := pb.TickData) end = Ok b ∧
    Unmarshal b = Ok td' ∧ td = if proto_Equal td' pb.emptyTickData then None else Some td')
    as (b & td' & Hb & Hu & Htd).
  { destruct td as [td|].
    - destruct (Hvalid td eq_refl) as [Hv Hne]. destruct (Marshal_valid td Hv) as [b Hb].
      exists b, td. split; [done|]. split.
      + pose proof (Unmarshal_Marshal td b Hv Hb) as Hu. by rewrite TickData_norm in Hu.
      + destruct (proto_Equal td pb.emptyTickData) eqn:E; [|done].
        by apply proto_Equal_spec in E.
    - exists [], pb.emptyTickData. split; [apply Marshal_nil_ok|]. split.
      + pose proof (Unmarshal_Marshal (A := pb.TickData) _ _ proto_zero_valid Marshal_zero) as Hu.
        by rewrite proto_norm_zero, TickData_zero_eq in Hu.
      + by rewrite (proj2 (proto_Equal_spec _ _) eq_refl). }
  exists (<[tickDataKey t := b]> m). split; [|split].
  - unfold Tick.Store. rewrite Hq. runs_step (apply runs_lift). runs_wrapped.
    unfold SetTickData. rewrite Hb. runs_step (apply runs_lift). runs_wrapped. apply runs_Set.
  - unfold Rpc.GetTickData.
    runs_step (apply runs_status; apply runs_get_stored; by apply stored_insert).
    simpl. rewrite Htd. destruct (proto_Equal td' pb.emptyTickData); apply runs_ret.
  - intros k Hk. by apply lookup_insert_ne.
Qed.

(** ** Payments to many *)

(** A transaction that pays many: an input of type 1 and 1000 bytes, sent to the
    contract's address. *)
Definition pays_many (tx : pb.Transaction) : Prop :=
  pb.Transaction_InputType tx = 1 ∧ pb.Transaction_InputSize tx = 1000 ∧
  pb.Transaction_DestId tx = sendManyAddress.

(** The total that the payments in its input add up to. *)
Definition input_total (tx : pb.Transaction) (total : Z) : Prop := ∃ input payload,
  hex_DecodeString (pb.Transaction_InputHex tx) = Ok input ∧
  SendMany_UnmarshallBinary input = Ok payload ∧ SendMany_GetTotalAmount payload = total.

Definition decodable (tx : pb.Transaction) : Prop := pays_many tx → ∃ total, input_total tx total.

(** Whether an approved transaction counts as one: one that pays many counts if its
    amount covers the total. *)
Definition paid (tx : pb.Transaction) : Prop :=
  pays_many tx → ∃ total, input_total tx total ∧ total ≤ pb.Transaction_Amount tx.

Lemma is_send_many_pays tx : is_send_many tx = true ↔ pays_many tx.
Proof. unfold is_send_many. by rewrite bool_decide_eq_true. Qed.

(** The code's recomputation compares the two. *)
Lemma recompute_total tx b : recomputeSendManyMoneyFlew tx = Ok b ↔
  ∃ total, input_total tx total ∧ b = bool_decide (total ≤ pb.Transaction_Amount tx).
Proof.
  unfold recomputeSendManyMoneyFlew, input_total. split.
  - intros (input & Ei%map_err_Ok & (payload & Ep%map_err_Ok & E)%bind_Ok)%bind_Ok.
    eexists. split; [by exists input, payload|].
    revert E. case_bool_decide; intros [= <-]; symmetry;
      [apply bool_decide_eq_false_2|apply bool_decide_eq_true_2]; lia.
  - intros (total & (input & payload & -> & Ep & <-) & ->). simpl. rewrite Ep. simpl.
    repeat case_bool_decide; done || lia.
Qed.

Lemma decodable_recompute tx :
  decodable tx ↔ (is_send_many tx = true → ∃ b, recomputeSendManyMoneyFlew tx = Ok b).
Proof.
  unfold decodable. rewrite is_send_many_pays. split; intros Hd Hm; specialize (Hd Hm).
  - destruct Hd as [total Ht]. eexists. apply recompute_total. by exists total.
  - destruct Hd as (b & (total & Ht & _)%recompute_total). by exists total.
Qed.

Lemma paid_recompute tx :
  paid tx ↔ (is_send_many tx = true → recomputeSendManyMoneyFlew tx = Ok true).
Proof.
  unfold paid. rewrite is_send_many_pays. split; intros Hp Hm; specialize (Hp Hm).
  - destruct Hp as (total & Ht & Hle). apply recompute_total. exists total. by rewrite bool_decide_eq_true_2.
  - apply recompute_total in Hp as (total & Ht & Hle). exists total. split; [done|].
    by eapply bool_decide_eq_true.
Qed.

#[export] Instance paid_dec tx : Decision (paid tx).
Proof.
  refine (cast_if (decide (is_send_many tx = true → recomputeSendManyMoneyFlew tx = Ok true)));
    by rewrite paid_recompute.
Defined.

(** ** Transaction status *)
(** What must be stored for an answer that says the money flew: the transaction, with a
    positive amount, and a status that says so; and if it pays many, the amount
    covers the total of the payments its input decodes to. *)
Definition money_flew m (id : string) : Prop :=
  ∃ tx st, stored m ([Transaction] ++ string_bytes id) tx ∧ 0 < pb.Transaction_Amount tx ∧
    stored m (txStatusKey id) st ∧ pb.TransactionStatus_MoneyFlew st = true ∧
    (pays_many tx → ∃ total, input_total tx total ∧ total ≤ pb.Transaction_Amount tx).

(** C36: On any database, when [GetTransactionStatus] answers that the money of a
    transaction flew, the transaction is stored with a positive amount and a
    status that says so, and if it pays many (input type 1, 1000 bytes, to the
    send-many address), its input decodes to payments of which the total is at most the
    amount. *)
Theorem GetTransactionStatus_sound db id st db' :
  Rpc.GetTransactionStatus id db = (Ok st, db') → pb.TransactionStatus_MoneyFlew st = true →
  db' = db ∧ money_flew (contents db) id.
Proof.
  intros (u & db1 & Eid & E)%mbind_M_Ok Hst. unfold lift in Eid. injection Eid as _ <-.
  apply mbind_M_Ok in E as (tx & db2 & Etx%map_err_success & E).
  assert (Htx : db2 = db ∧ stored (contents db) ([Transaction] ++ string_bytes id) tx).
  { unfold Store.GetTransaction in Etx. apply mbind_M_Ok in Etx as (k & db3 & Ek & Etx).
    unfold lift in Ek. injection Ek as <- <-. by apply getter_success in Etx. }
  destruct Htx as [-> Htx].
  apply mbind_M_Ok in E as (pt & db3 & Ept%map_err_success & E).
  apply getter_success in Ept as [-> _]. case_bool_decide; [done|]. case_bool_decide as Hamt; [done|].
  apply mbind_M_Ok in E as (r & db4 & Er & E). unfold mattempt in Er.
  destruct (Store.GetTransactionStatus id db) as [o db5] eqn:Est.
  destruct o as [st'|err|]; cbn [attempt] in Er; [| |done]; injection Er as <- <-.
  2: { destruct (errors_Is err ErrNotFound); [|done]. by injection E as <- <-. }
  apply getter_success in Est as [-> Hst'].
  case_bool_decide as Hflew; [by injection E as <- <-|].
  assert (Hf : pb.TransactionStatus_MoneyFlew st' = true) by (by destruct (pb.TransactionStatus_MoneyFlew st')).
  destruct (is_send_many tx) eqn:Hsm.
  - apply mbind_M_Ok in E as (b & db6 & Eb & E). unfold lift in Eb. injection Eb as Eb <-.
    apply map_err_Ok in Eb. injection E as <- <-. simpl in Hst. subst b. split; [done|].
    exists tx, st'. split_and!; [done|lia|done..|]. by apply paid_recompute.
  - injection E as <- <-. split; [done|]. exists tx, st'. split_and!; [done|lia|done..|].
    apply paid_recompute. congruence.
Qed.
End RpcProofs.
