(* ===== verification/Service.v ===== *)
(** * The service: from a call to a handler

    [handle] is the service table of archive.proto as the generated code
    dispatches it, one constructor of [call] per method, each with its own type
    of answer.  [serve] puts the interceptor in front, as [Server.Start] does:
    it sees the request's message type ([request_of]), not the method. *)

From stdpp Require Import sorting base strings numbers pretty gmap list.
From S2P Require Import Prelude GoLib Types Platform Keys Store Paging Middleware Rpc RpcV2.

Local Open Scope Z_scope.

Inductive call :=
| CallGetTickQuorumDataV2 (TickNumber : Z)
| CallGetTickChainHashV2 (TickNumber : Z)
| CallGetTickStoreHashV2 (TickNumber : Z)
| CallGetTickTransactionsV2 (TickNumber : Z) (Transfers Approved : bool)
| CallGetTransactionV2 (TxId : string)
| CallGetSendManyTransactionV2 (TxId : string)
| CallGetIdentityTransfersInTickRangeV2 (Identity : string) (StartTick EndTick : Z)
    (ScOnly Desc : bool) (Page PageSize : Z)
| CallGetEpochTickListV2 (Epoch Page PageSize : Z) (Desc : bool)
| CallGetEmptyTickListV2 (Epoch Page PageSize : Z)
| CallGetTickData (TickNumber : Z)
| CallGetQuorumTickData (TickNumber : Z)
| CallGetTickTransactions (TickNumber : Z)
| CallGetTickTransferTransactions (TickNumber : Z)
| CallGetTickApprovedTransactions (TickNumber : Z)
| CallGetChainHash (TickNumber : Z)
| CallGetStoreHash (TickNumber : Z)
| CallGetTransaction (TxId : string)
| CallGetTransactionStatus (TxId : string)
| CallGetTransferTransactionsPerTick (Identity : string) (StartTick EndTick : Z)
| CallGetComputors (Epoch : Z)
| CallGetStatus
| CallGetLatestTick
| CallGetHealthCheck.

Definition response (c : call) : Type :=
  match c with
  | CallGetTickQuorumDataV2 _ | CallGetQuorumTickData _ => option pb.QuorumTickData
  | CallGetTickChainHashV2 _ | CallGetTickStoreHashV2 _ => string
  | CallGetChainHash _ | CallGetStoreHash _ => string
  | CallGetTickTransactionsV2 _ _ _ => list pb.TransactionData
  | CallGetTransactionV2 _ => pb.TransactionData
  | CallGetSendManyTransactionV2 _ => pb.SendManyTransactionData
  | CallGetIdentityTransfersInTickRangeV2 _ _ _ _ _ _ _ =>
      (pb.Pagination * list pb.PerTickIdentityTransfers)%type
  | CallGetEpochTickListV2 _ _ _ _ => option (pb.Pagination * list pb.TickStatus)
  | CallGetEmptyTickListV2 _ _ _ => (pb.Pagination * list Z)%type
  | CallGetTickData _ => option pb.TickData
  | CallGetTickTransactions _ | CallGetTickTransferTransactions _
  | CallGetTickApprovedTransactions _ => list pb.Transaction
  | CallGetTransaction _ => pb.Transaction
  | CallGetTransactionStatus _ => pb.TransactionStatus
  | CallGetTransferTransactionsPerTick _ _ _ => list pb.TransferTransactionsPerTick
  | CallGetComputors _ => pb.Computors
  | CallGetStatus => pb.GetStatusResponse
  | CallGetLatestTick => Z
  | CallGetHealthCheck => bool
  end.

(** The message types several methods share: [GetTickTransactionsRequest],
    [GetChainHashRequest] and [GetTickRequestV2]. *)
Definition request_of (c : call) : request :=
  match c with
  | CallGetTickQuorumDataV2 t | CallGetTickChainHashV2 t | CallGetTickStoreHashV2 t =>
      GetTickRequestV2 t
  | CallGetTickTransactionsV2 t tr ap => GetTickTransactionsRequestV2 t tr ap
  | CallGetTickData t => GetTickDataRequest t
  | CallGetQuorumTickData t => GetQuorumTickDataRequest t
  | CallGetTickTransactions t | CallGetTickTransferTransactions t => GetTickTransactionsRequest t
  | CallGetTickApprovedTransactions t => GetTickApprovedTransactionsRequest t
  | CallGetChainHash t | CallGetStoreHash t => GetChainHashRequest t
  | CallGetTransactionV2 _ | CallGetSendManyTransactionV2 _
  | CallGetIdentityTransfersInTickRangeV2 _ _ _ _ _ _ _ | CallGetEpochTickListV2 _ _ _ _
  | CallGetEmptyTickListV2 _ _ _ | CallGetTransaction _ | CallGetTransactionStatus _
  | CallGetTransferTransactionsPerTick _ _ _ | CallGetComputors _
  | CallGetStatus | CallGetLatestTick | CallGetHealthCheck => OtherRequest
  end.

(** The tick a method is about, by its parameters. *)
Definition tick_of (c : call) : option Z :=
  match c with
  | CallGetTickQuorumDataV2 t | CallGetTickChainHashV2 t | CallGetTickStoreHashV2 t
  | CallGetTickTransactionsV2 t _ _ | CallGetTickData t | CallGetQuorumTickData t
  | CallGetTickTransactions t | CallGetTickTransferTransactions t
  | CallGetTickApprovedTransactions t | CallGetChainHash t | CallGetStoreHash t => Some t
  | _ => None
  end.

Section Service.
Context {P : Pebble} {PR : Protobuf} {R : GoRuntime} {K : K12} {N : NodeConnector}.
Context {G : GrpcStatus} {H : HttpClient}.
(** [fuel] bounds the loop of [GetEpochTickListV2]. *)
Variables (s : Server) (fuel : nat).

Definition handle (c : call) : M DB (response c) :=
  match c with
  | CallGetTickQuorumDataV2 t => GetTickQuorumDataV2 t
  | CallGetTickChainHashV2 t => GetTickChainHashV2 t
  | CallGetTickStoreHashV2 t => GetTickStoreHashV2 t
  | CallGetTickTransactionsV2 t tr ap => GetTickTransactionsV2 t tr ap
  | CallGetTransactionV2 id => GetTransactionV2 id
  | CallGetSendManyTransactionV2 id => GetSendManyTransactionV2 id
  | CallGetIdentityTransfersInTickRangeV2 id lo hi sc desc p sz =>
      GetIdentityTransfersInTickRangeV2 id lo hi sc desc p sz
  | CallGetEpochTickListV2 e p sz desc => GetEpochTickListV2 fuel e p sz desc
  | CallGetEmptyTickListV2 e p sz => GetEmptyTickListV2 e p sz
  | CallGetTickData t => GetTickData t
  | CallGetQuorumTickData t => GetQuorumTickData t
  | CallGetTickTransactions t => GetTickTransactions t
  | CallGetTickTransferTransactions t => GetTickTransferTransactions t
  | CallGetTickApprovedTransactions t => GetTickApprovedTransactions t
  | CallGetChainHash t => GetChainHash t
  | CallGetStoreHash t => GetStoreHash t
  | CallGetTransaction id => GetTransaction id
  | CallGetTransactionStatus id => GetTransactionStatus id
  | CallGetTransferTransactionsPerTick id lo hi => GetTransferTransactionsPerTick id lo hi
  | CallGetComputors e => GetComputors e
  | CallGetStatus => GetStatus
  | CallGetLatestTick => GetLatestTick s
  | CallGetHealthCheck => GetHealthCheck s
  end.

(** The interceptor's part of serving a call: what it does before it hands on
    to the handler. *)
Definition let_through (c : call) : M DB unit :=
  GetInterceptor (request_of c) (λ _, mret tt).

Definition serve (c : call) : M DB (response c) :=
  GetInterceptor (request_of c) (λ _, handle c).
End Service.
