(* ===== verification/Startup.v ===== *)
(** * main.go: the process

    [run] of main.go from the command line to its end: the options, the
    database with its tuning, then [run_main], and the loop that waits for a
    signal or for one of the goroutines to fail.  The libraries that parse the
    options, open the database and connect the pool are an interface. *)

From stdpp Require Import sorting base strings numbers pretty gmap list.
From S2P Require Import Prelude GoLib Types Platform Keys Store Rpc.
From S2P Require Import Main.

Local Open Scope Z_scope.

(** ** Options *)

(** Durations in nanoseconds. *)
Record ServerConfig := MkServerConfig {
  Server_ReadTimeout : Z;
  Server_WriteTimeout : Z;
  Server_ShutdownTimeout : Z;
  Server_HttpHost : string;
  Server_GrpcHost : string;
  Server_ProfilingHost : string;
  Server_NodeSyncThreshold : Z;
  Server_ChainTickFetchUrl : string
}.

Record PoolSettings := MkPoolSettings {
  Pool_NodeFetcherUrl : string;
  Pool_NodeFetcherTimeout : Z;
  Pool_InitialCap : Z;
  Pool_MaxIdle : Z;
  Pool_MaxCap : Z;
  Pool_IdleTimeout : Z
}.

Record QubicConfig := MkQubicConfig {
  Qubic_NodePort : string;
  Qubic_StorageFolder : string;
  Qubic_ProcessTickTimeout : Z;
  Qubic_DisableTransactionStatusAddon : bool;
  Qubic_ArbitratorIdentity : string
}.

Record settings := MkSettings {
  cfg_Server : ServerConfig;
  cfg_Pool : PoolSettings;
  cfg_Qubic : QubicConfig;
  cfg_Store_ResetEmptyTickKeys : bool
}.

(** What [conf.Parse] may say: the options, a request for help or for the
    version, or an error. *)
Inductive parsed :=
| Parsed (cfg : settings)
| ErrHelpWanted
| ErrVersionWanted
| ParseError (e : error).

(** [qubic.PoolConfig] *)
Record PoolConfig := MkPoolConfig {
  PoolConfig_InitialCap : Z;
  PoolConfig_MaxCap : Z;
  PoolConfig_MaxIdle : Z;
  PoolConfig_IdleTimeout : Z;
  PoolConfig_NodeFetcherUrl : string;
  PoolConfig_NodeFetcherTimeout : Z;
  PoolConfig_NodePort : string
}.

(** ** The tuning of the database: levels have no filter policy *)
Inductive CompressionType := NoCompression | ZstdCompression.

Record LevelOptions := MkLevelOptions {
  Level_BlockRestartInterval : Z;
  Level_BlockSize : Z;
  Level_BlockSizeThreshold : Z;
  Level_Compression : CompressionType;
  Level_IndexBlockSize : Z;
  Level_TargetFileSize : Z
}.

Definition l1Options : LevelOptions := MkLevelOptions 16 4096 90 NoCompression 4096 268435456.

(** [TargetFileSize] is an [int64]. *)
Definition next_level (above : LevelOptions) : LevelOptions :=
  MkLevelOptions 16 4096 90 ZstdCompression 4096 (int64 (Level_TargetFileSize above * 10)).

Definition l2Options : LevelOptions := next_level l1Options.
Definition l3Options : LevelOptions := next_level l2Options.
Definition l4Options : LevelOptions := next_level l3Options.

Record Options := MkOptions { Levels : list LevelOptions; MemTableSize : Z }.

Definition pebbleOptions : Options :=
  MkOptions [l1Options; l2Options; l3Options; l4Options] 268435456.

Class MainRuntime {P : Pebble} {N : NodeConnector} := {
  conf_Parse : list string → string → parsed;
  conf_Usage : outcome string;
  conf_VersionString : outcome string;
  conf_String : settings → outcome string;
  pebble_Open : string → Options → outcome DB;
  (** the clients the pool hands out, one per pass *)
  NewPoolConnection : PoolConfig → outcome (list (outcome Client))
}.

(** ** Waiting *)

(** What arrives on the channels [shutdown], [pprofErrors] and [procErrors]. *)
Inductive event :=
| Shutdown
| ProfilingError (e : error)
| ProcessorStopped (err : option error).

(** [None] while nothing that ends the process has arrived. *)
Fixpoint wait (events : list event) : option (outcome unit) :=
  match events with
  | [] => None
  | Shutdown :: _ => Some (Err (ErrorString "shutting down"))
  | ProfilingError _ :: events => wait events
  | ProcessorStopped (Some err) :: _ => Some (Err (WrapError "archiver error" err))
  | ProcessorStopped None :: _ => Some (Ok tt)
  end.

Section Startup.
Context {P : Pebble} {PR : Protobuf} {R : GoRuntime} {K : K12} {N : NodeConnector}.
Context {MR : MainRuntime}.

Definition prefix : string := "QUBIC_ARCHIVER".

Definition pool_config (cfg : settings) : PoolConfig :=
  MkPoolConfig (Pool_InitialCap (cfg_Pool cfg)) (Pool_MaxCap (cfg_Pool cfg))
    (Pool_MaxIdle (cfg_Pool cfg)) (Pool_IdleTimeout (cfg_Pool cfg))
    (Pool_NodeFetcherUrl (cfg_Pool cfg)) (Pool_NodeFetcherTimeout (cfg_Pool cfg))
    (Qubic_NodePort (cfg_Qubic cfg)).

(** [rpc.NewServer], its fields that the handlers read. *)
Definition rpc_server (cfg : settings) : Server :=
  MkServer (Server_NodeSyncThreshold (cfg_Server cfg)) (Server_ChainTickFetchUrl (cfg_Server cfg)).

(** The options [run_main] depends on. *)
Definition main_config (cfg : settings) : config :=
  MkConfig (Qubic_DisableTransactionStatusAddon (cfg_Qubic cfg))
    (Qubic_ArbitratorIdentity (cfg_Qubic cfg)) (cfg_Store_ResetEmptyTickKeys cfg).

(** With the options parsed and the database open. *)
Definition run_open (cfg : settings) (events : list event) (db : DB) : option (outcome unit) * DB :=
  match run_main (main_config cfg) (NewPoolConnection (pool_config cfg)) db with
  | (Ok _, db') => (wait events, db')
  | (Err e, db') => (Some (Err e), db')
  | (Panic, db') => (Some Panic, db')
  end.

(** The result of [run], unless the process is still running, and the database
    if it was opened. *)
Definition run (args : list string) (events : list event) : option (outcome unit) * option DB :=
  match conf_Parse args prefix with
  | ErrHelpWanted =>
      (Some (_ ← wrap "generating config usage" conf_Usage; Ok tt), None)
  | ErrVersionWanted =>
      (Some (_ ← wrap "generating config version" conf_VersionString; Ok tt), None)
  | ParseError err => (Some (Err (WrapError "parsing config" err)), None)
  | Parsed cfg =>
      match (_ ← wrap "generating config for output" (conf_String cfg);
             wrap "opening db with zstd compression"
               (pebble_Open (Qubic_StorageFolder (cfg_Qubic cfg)) pebbleOptions)) with
      | Ok db => let '(o, db') := run_open cfg events db in (o, Some db')
      | Err e => (Some (Err e), None)
      | Panic => (Some Panic, None)
      end
  end.

(** ** How a process ends *)

Lemma wait_ok events : wait events = Some (Ok tt) → ProcessorStopped None ∈ events.
Proof.
  induction events as [|[|e|[e|]] events IH]; simpl; [done|done| |done|].
  - intros Hw. right. by apply IH.
  - intros _. by left.
Qed.

(** Without an error a process ends only when it was asked for help or for its
    version, or when the processor came to an end, which its loop never does. *)
Lemma run_exits args events db :
  run args events = (Some (Ok tt), db) →
  (conf_Parse args prefix = ErrHelpWanted ∨ conf_Parse args prefix = ErrVersionWanted) ∧ db = None ∨
  ProcessorStopped None ∈ events.
Proof.
  unfold run, run_open. destruct (conf_Parse args prefix) as [cfg| | |e].
  - destruct (wrap "generating config for output" _ ≫= _) as [db0|e|]; [|done..].
    destruct (run_main _ _ db0) as [[u|e|] db1]; [|done..]. intros [= Hw _]. right. by apply wait_ok.
  - destruct conf_Usage; [|done..]. intros [= <-]. left. by split; [left|].
  - destruct conf_VersionString; [|done..]. intros [= <-]. left. by split; [right|].
  - done.
Qed.

(** Every level's files are ten times as large as those of the level above,
    within the range of the type. *)
Lemma file_sizes : Level_TargetFileSize <$> Levels pebbleOptions =
  [268435456; 2684354560; 26843545600; 268435456000].
Proof. reflexivity. Qed.

(** What a process leaves behind is what [run_main] leaves, on the database it
    opened. *)
Lemma run_database args events o db' :
  run args events = (o, Some db') →
  ∃ cfg db, conf_Parse args prefix = Parsed cfg ∧
    pebble_Open (Qubic_StorageFolder (cfg_Qubic cfg)) pebbleOptions = Ok db ∧
    db' = (run_main (main_config cfg) (NewPoolConnection (pool_config cfg)) db).2.
Proof.
  unfold run, run_open. destruct (conf_Parse args prefix) as [cfg| | |e]; [|done..].
  destruct (conf_String cfg) as [s|e|]; simpl; [|done..].
  destruct (pebble_Open _ _) as [db|e|] eqn:Eo; simpl; [|done..]. intros H. exists cfg, db.
  split; [done|]. split; [done|].
  by destruct (run_main _ _ db) as [[u|e|] db1]; injection H as _ <-.
Qed.
End Startup.
