(* ===== verification/Reader.v ===== *)
(** * What a computation reads, one access at a time

    A handler is a function of the database it finds.  In the program it is a
    sequence of calls of pebble, between which other goroutines write.  A
    [reader] is that sequence: one [access] of the database, and what follows it
    for each of its outcomes.  [Reader c] derives it from the definition of
    [c], and proves that undisturbed it is [c].  [weave] runs it while the
    database changes between the accesses; [always] is what holds of it
    whatever these changes are. *)

From stdpp Require Import sorting base strings numbers pretty gmap list.
From S2P Require Import Prelude GoLib Types Platform Keys Store Paging.
From S2P Require Import Middleware Rpc RpcV2 Service Progress.

Local Open Scope Z_scope.

(** ** Accesses and readers *)
Section Readers.
Context {P : Pebble}.

(** The calls of pebble that read.  An iterator sees one state of the database,
    from its creation to its end. *)
Inductive access :=
| AccessGet (key : bytes)
| AccessIter (lower upper : bytes).

Definition accessed (a : access) : Type :=
  match a with
  | AccessGet _ => bytes
  | AccessIter _ _ => list (bytes * outcome bytes)
  end.

Definition perform (a : access) (db : DB) : outcome (accessed a) :=
  match a with
  | AccessGet key => db_Get db key
  | AccessIter lower upper => db_NewIter db lower upper
  end.

Inductive reader (A : Type) : Type :=
| Done (o : outcome A)
| Access (a : access) (k : outcome (accessed a) → reader A).
Global Arguments Done {A} o.
Global Arguments Access {A} a k.

(** All accesses on the same database. *)
Fixpoint run_reader {A} (r : reader A) (db : DB) : outcome A :=
  match r with
  | Done o => o
  | Access a k => run_reader (k (perform a db)) db
  end.

(** Whether there is an access to come, and what is left after it. *)
Definition is_access {A} (r : reader A) : bool :=
  match r with Done _ => false | Access _ _ => true end.

Definition after_access {A} (r : reader A) (db : DB) : reader A :=
  match r with Done o => Done o | Access a k => k (perform a db) end.

(** One after the other. *)
Fixpoint andThen {A B} (r : reader A) (k : outcome A → reader B) : reader B :=
  match r with
  | Done o => k o
  | Access a k' => Access a (λ o, andThen (k' o) k)
  end.

Lemma run_andThen {A B} (r : reader A) (k : outcome A → reader B) db :
  run_reader (andThen r k) db = run_reader (k (run_reader r db)) db.
Proof. induction r as [o|a k' IH]; simpl; [done|apply IH]. Qed.

(** The rest of a sequence, after a value. *)
Definition on_value {A B} (k : A → reader B) (o : outcome A) : reader B :=
  match o with Ok a => k a | Err e => Done (Err e) | Panic => Done Panic end.

(** ** The accesses of a computation *)
Class Reader {A} (c : M DB A) := {
  accesses : reader A;
  accesses_run db : c db = (run_reader accesses db, db)
}.
Global Arguments accesses {A} c {_}.

(** It leaves the database as it is. *)
Lemma reader_reads {A} (c : M DB A) `{!Reader c} db : (c db).2 = db.
Proof. by rewrite accesses_run. Qed.

#[export] Program Instance reader_lift {A} (o : outcome A) : Reader (lift o) :=
  {| accesses := Done o |}.
Next Obligation. done. Qed.

#[export] Program Instance reader_ret {A} (a : A) : Reader (mret a) := {| accesses := Done (Ok a) |}.
Next Obligation. done. Qed.

#[export] Program Instance reader_throw {A} e : Reader (throw (A := A) e) :=
  {| accesses := Done (Err e) |}.
Next Obligation. done. Qed.

#[export] Program Instance reader_Get key : Reader (pebble_Get key) :=
  {| accesses := Access (AccessGet key) Done |}.
Next Obligation. done. Qed.

#[export] Program Instance reader_NewIter lower upper : Reader (pebble_NewIter lower upper) :=
  {| accesses := Access (AccessIter lower upper) Done |}.
Next Obligation. done. Qed.

#[export] Program Instance reader_bind {A B} (c : M DB A) (k : A → M DB B)
    `{!Reader c, !∀ a, Reader (k a)} : Reader (c ≫= k) :=
  {| accesses := andThen (accesses c) (on_value (λ a, accesses (k a))) |}.
Next Obligation.
  intros A B c k Hc Hk db. unfold mbind, M_bind. rewrite (accesses_run (c := c)), run_andThen.
  destruct (run_reader _ _) as [a|e|]; simpl; [apply accesses_run|done..].
Qed.

#[export] Program Instance reader_map_err {A} f (c : M DB A) `{!Reader c} : Reader (mmap_err f c) :=
  {| accesses := andThen (accesses c) (λ o, Done (map_err f o)) |}.
Next Obligation. intros A f c Hc db. unfold mmap_err. by rewrite accesses_run, run_andThen. Qed.

#[export] Program Instance reader_attempt {A} (c : M DB A) `{!Reader c} : Reader (mattempt c) :=
  {| accesses := andThen (accesses c) (λ o, Done (attempt o)) |}.
Next Obligation. intros A c Hc db. unfold mattempt. by rewrite accesses_run, run_andThen. Qed.

Fixpoint loop {A B} (f : B → A → reader B) (acc : B) (l : list A) : reader B :=
  match l with
  | [] => Done (Ok acc)
  | x :: l => andThen (f acc x) (on_value (λ acc, loop f acc l))
  end.

#[export] Program Instance reader_foldM {A B} (f : B → A → M DB B) acc l
    `{!∀ acc x, Reader (f acc x)} : Reader (foldM f acc l) :=
  {| accesses := loop (λ acc x, accesses (f acc x)) acc l |}.
Next Obligation.
  intros A B f acc l Hf db. revert acc. induction l as [|x l IH]; intros acc; [done|]. simpl.
  unfold mbind, M_bind. rewrite (accesses_run (c := f acc x)), run_andThen.
  destruct (run_reader _ _) as [b|e|]; simpl; [apply IH|done..].
Qed.

#[export] Instance reader_wrap {A} msg (c : M DB A) `{!Reader c} : Reader (mwrap msg c) :=
  reader_map_err _ c.
End Readers.

(** A case analysis reads what its branches read. *)
#[export] Hint Extern 5 (Reader (match ?x with _ => _ end)) => destruct x : typeclass_instances.
#[export] Hint Extern 5 (Reader (let '_ := ?x in _)) => destruct x : typeclass_instances.

(** ** The accesses of the store's and the service's operations *)
Ltac reader_of := intros; cbv beta zeta; typeclasses eauto.

Section Operations.
Context {P : Pebble} {PR : Protobuf} {R : GoRuntime} {K : K12} {N : NodeConnector}.
Context {G : GrpcStatus} {H : HttpClient}.

#[export] Instance reader_GetTickData t : Reader (Store.GetTickData t).
Proof. unfold Store.GetTickData. reader_of. Defined.

#[export] Instance reader_GetQuorumTickData t : Reader (Store.GetQuorumTickData t).
Proof. unfold Store.GetQuorumTickData. reader_of. Defined.

#[export] Instance reader_GetComputors e : Reader (Store.GetComputors e).
Proof. unfold Store.GetComputors. reader_of. Defined.

#[export] Instance reader_GetTransaction id : Reader (Store.GetTransaction id).
Proof. unfold Store.GetTransaction. reader_of. Defined.

#[export] Instance reader_GetTickTransactions t : Reader (Store.GetTickTransactions t).
Proof. unfold Store.GetTickTransactions. reader_of. Defined.

#[export] Instance reader_GetTickTransferTransactions t : Reader (Store.GetTickTransferTransactions t).
Proof. unfold Store.GetTickTransferTransactions. reader_of. Defined.

#[export] Instance reader_GetProcessedTickIntervals : Reader GetProcessedTickIntervals.
Proof. unfold GetProcessedTickIntervals. reader_of. Defined.

#[export] Instance reader_GetLastProcessedTick : Reader GetLastProcessedTick.
Proof. unfold GetLastProcessedTick. reader_of. Defined.

#[export] Instance reader_GetLastProcessedTicksPerEpoch : Reader GetLastProcessedTicksPerEpoch.
Proof. unfold GetLastProcessedTicksPerEpoch. reader_of. Defined.

#[export] Instance reader_GetSkippedTicksInterval : Reader GetSkippedTicksInterval.
Proof. unfold GetSkippedTicksInterval. reader_of. Defined.

#[export] Instance reader_GetChainDigest t : Reader (GetChainDigest t).
Proof. unfold GetChainDigest. reader_of. Defined.

#[export] Instance reader_GetStoreDigest t : Reader (GetStoreDigest t).
Proof. unfold GetStoreDigest. reader_of. Defined.

#[export] Instance reader_GetTickTransactionsStatus t : Reader (GetTickTransactionsStatus t).
Proof. unfold GetTickTransactionsStatus. reader_of. Defined.

#[export] Instance reader_GetTransactionStatus id : Reader (Store.GetTransactionStatus id).
Proof. unfold Store.GetTransactionStatus. reader_of. Defined.

#[export] Instance reader_GetEmptyTicksForEpoch e : Reader (GetEmptyTicksForEpoch e).
Proof. unfold GetEmptyTicksForEpoch. reader_of. Defined.

#[export] Instance reader_GetEmptyTickListPerEpoch e : Reader (GetEmptyTickListPerEpoch e).
Proof. unfold GetEmptyTickListPerEpoch. reader_of. Defined.

#[export] Instance reader_GetLastTickQuorumData e : Reader (GetLastTickQuorumDataListPerEpochInterval e).
Proof. unfold GetLastTickQuorumDataListPerEpochInterval. reader_of. Defined.

#[export] Instance reader_paged id lo hi page sort fl :
  Reader (GetTransactionsForEntityPaged id lo hi page sort fl).
Proof. unfold GetTransactionsForEntityPaged. reader_of. Defined.

#[export] Instance reader_getTransactionInfo id t : Reader (getTransactionInfo id t).
Proof. unfold getTransactionInfo. reader_of. Defined.

#[export] Instance reader_reconstructed t : Reader (reconstructed t).
Proof. unfold reconstructed. reader_of. Defined.

#[export] Instance reader_approved_step acc st : Reader (approved_step acc st).
Proof. unfold approved_step. reader_of. Defined.

#[export] Instance reader_with_info_step acc tx : Reader (with_info_step acc tx).
Proof. unfold with_info_step. reader_of. Defined.

#[export] Instance reader_approved_info_step acc tx : Reader (approved_info_step acc tx).
Proof. unfold approved_info_step. reader_of. Defined.

#[export] Instance reader_transfer_step acc tx : Reader (transfer_step acc tx).
Proof. unfold transfer_step. reader_of. Defined.

#[export] Instance reader_per_tick_step acc txs : Reader (per_tick_step acc txs).
Proof. unfold per_tick_step. reader_of. Defined.

#[export] Instance reader_check t : Reader (checkTickWithinArchiverIntervals (S := DB) t).
Proof.
  unfold checkTickWithinArchiverIntervals. simpl pts_GetLastProcessedTick.
  simpl pts_GetProcessedTickIntervals. reader_of.
Defined.

(** What a method reads, and what serving a call reads. *)
#[export] Instance reader_handle srv fuel c : Reader (handle srv fuel c).
Proof.
  destruct c; simpl; unfold GetTickQuorumDataV2, GetTickChainHashV2, GetTickStoreHashV2,
    GetTickTransactionsV2, GetAllTickTransactionsV2, GetTransferTickTransactionsV2,
    GetApprovedTickTransactionsV2, GetTransactionV2, GetSendManyTransactionV2,
    GetIdentityTransfersInTickRangeV2, GetEpochTickListV2, GetEmptyTickListV2, Rpc.GetTickData,
    Rpc.GetQuorumTickData, Rpc.GetTickTransactions, Rpc.GetTickTransferTransactions,
    Rpc.GetTickApprovedTransactions, GetChainHash, GetStoreHash, Rpc.GetTransaction,
    Rpc.GetTransactionStatus, GetTransferTransactionsPerTick, GetTransactionsForEntity,
    Rpc.GetComputors, Rpc.GetStatus, GetLatestTick, GetHealthCheck; reader_of.
Defined.

#[export] Instance reader_let_through c : Reader (let_through c).
Proof. unfold let_through, GetInterceptor. reader_of. Defined.

#[export] Instance reader_serve srv fuel c : Reader (serve srv fuel c).
Proof. unfold serve, GetInterceptor. reader_of. Defined.
End Operations.

(** ** At most one access *)
Section OneAccess.
Context {P : Pebble}.

Definition no_access {A} (r : reader A) : Prop := ∃ o, r = Done o.

Definition one_access {A} (r : reader A) : Prop :=
  match r with
  | Done _ => True
  | Access a k => ∀ o, no_access (k o)
  end.

Lemma no_access_done {A} (o : outcome A) : no_access (Done o).
Proof. by exists o. Qed.

Lemma no_access_andThen {A B} (r : reader A) (k : outcome A → reader B) :
  no_access r → (∀ o, no_access (k o)) → no_access (andThen r k).
Proof. intros [o ->] Hk. apply Hk. Qed.

Lemma no_access_on_value {A B} (k : A → reader B) o :
  (∀ a, no_access (k a)) → no_access (on_value k o).
Proof. intros Hk. destruct o; simpl; [apply Hk|apply no_access_done..]. Qed.


Lemma no_access_loop {A B} (f : B → A → reader B) acc l :
  (∀ acc x, no_access (f acc x)) → no_access (loop f acc l).
Proof.
  intros Hf. revert acc. induction l as [|x l IH]; intros acc; simpl; [apply no_access_done|].
  apply no_access_andThen; [done|]. intros o. by apply no_access_on_value.
Qed.

Lemma no_access_one {A} (r : reader A) : no_access r → one_access r.
Proof. by intros [o ->]. Qed.

Lemma one_access_andThen {A B} (r : reader A) (k : outcome A → reader B) :
  one_access r → (∀ o, no_access (k o)) → one_access (andThen r k).
Proof.
  intros Hr Hk. destruct r as [o|a k']; simpl in *; [by apply no_access_one|].
  intros o. by apply no_access_andThen.
Qed.
End OneAccess.

Ltac access_step :=
  match goal with
  | |- no_access (Done _) => apply no_access_done
  | |- no_access (andThen _ _) => apply no_access_andThen; [|intros ?]
  | |- no_access (on_value _ _) => apply no_access_on_value; intros ?
  | |- no_access (loop _ _ _) => apply no_access_loop; intros ? ?
  | |- no_access (accesses (match ?x with _ => _ end)) => destruct x; simpl
  | |- one_access (accesses (match ?x with _ => _ end)) => destruct x; simpl
  | |- one_access (andThen _ _) => apply one_access_andThen; [|intros ?]
  | |- one_access (on_value _ _) => apply no_access_one
  | |- ∀ _, no_access _ => intros ?
  end.
Ltac access_steps := simpl; repeat access_step; try done.

(** ** Accesses among the steps of others *)
Section Weave.
Context {P : Pebble} {S : Type} (db_of : S → DB) (env : S → S → Prop).

(** From state [s] to state [s'], the others stepping before every access. *)
Inductive weave {A} : reader A → S → outcome A → S → Prop :=
| weave_done o s : weave (Done o) s o s
| weave_access a k s s1 o s' : rtc env s s1 →
    weave (k (perform a (db_of s1))) s1 o s' → weave (Access a k) s o s'.

(** Whatever the others do, [Q] holds of the outcome and the state at the last
    access. *)
Fixpoint always {A} (r : reader A) (s : S) (Q : outcome A → S → Prop) : Prop :=
  match r with
  | Done o => Q o s
  | Access a k => ∀ s1, rtc env s s1 → always (k (perform a (db_of s1))) s1 Q
  end.

Lemma always_weave {A} (r : reader A) s o s' Q : always r s Q → weave r s o s' → Q o s'.
Proof. intros Ha Hw. induction Hw as [o s|a k s s1 o s' Hs _ IH]; [done|]. by apply IH, Ha. Qed.

Lemma weave_steps {A} (r : reader A) s o s' : weave r s o s' → rtc env s s'.
Proof. induction 1; [apply rtc_refl|by etrans]. Qed.

(** Nobody else stepping, it is the computation. *)
Lemma weave_undisturbed {A} (r : reader A) s : weave r s (run_reader r (db_of s)) s.
Proof.
  induction r as [o|a k IH]; simpl; [constructor|]. eapply weave_access; [apply rtc_refl|]. apply IH.
Qed.

(** All the steps of the others between the first access and the second. *)
Lemma weave_split {A} (r : reader A) s s1 :
  is_access r = true → is_access (after_access r (db_of s)) = true → rtc env s s1 →
  weave r s (run_reader (after_access r (db_of s)) (db_of s1)) s1.
Proof.
  destruct r as [o|a k]; [done|]. intros _ H2 Hs. apply (weave_access a k s s); [apply rtc_refl|]. simpl in *.
  destruct (k (perform a (db_of s))) as [o|a' k']; [done|].
  eapply weave_access; [exact Hs|]. exact (weave_undisturbed (k' (perform a' (db_of s1))) s1).
Qed.

Lemma weave_serves {A} (c : M DB A) `{!Reader c} s : weave (accesses c) s (c (db_of s)).1 s.
Proof. rewrite (accesses_run (c := c)). apply weave_undisturbed. Qed.

Lemma always_mono {A} (r : reader A) s (Q Q' : outcome A → S → Prop) :
  (∀ o s', rtc env s s' → Q o s' → Q' o s') → always r s Q → always r s Q'.
Proof.
  revert s. induction r as [o|a k IH]; intros s HQ; simpl; [by apply HQ, rtc_refl|].
  intros Ha s1 Hs1. eapply IH; [|by apply Ha]. intros o s' Hs'. apply HQ. by etrans.
Qed.

Lemma always_True {A} (r : reader A) s : always r s (λ _ _, True).
Proof. revert s. induction r as [o|a k IH]; intros s; simpl; [done|]. intros s1 _. apply IH. Qed.

Lemma always_andThen {A B} (r : reader A) (k : outcome A → reader B) s Q :
  always r s (λ o s1, always (k o) s1 Q) → always (andThen r k) s Q.
Proof. revert s. induction r as [o|a k' IH]; intros s; simpl; [done|]. intros Ha s1 Hs1. by apply IH, Ha. Qed.

Lemma always_bind {A B} (c : M DB A) (k : A → M DB B) `{!Reader c, !∀ a, Reader (k a)} s Q :
  always (accesses c) s (λ o s1,
    match o with
    | Ok a => always (accesses (k a)) s1 Q
    | Err e => Q (Err e) s1
    | Panic => Q Panic s1
    end) →
  always (accesses (c ≫= k)) s Q.
Proof. intros Ha. apply always_andThen. eapply always_mono; [|exact Ha]. by intros [a|e|] s'. Qed.

Lemma always_map_err {A} f (c : M DB A) `{!Reader c} s Q :
  always (accesses c) s (λ o s1, Q (map_err f o) s1) → always (accesses (mmap_err f c)) s Q.
Proof. intros Ha. by apply always_andThen. Qed.

Lemma always_foldM {A B} (f : B → A → M DB B) `{!∀ acc x, Reader (f acc x)} acc x l s Q :
  always (accesses (f acc x)) s (λ o s1,
    match o with
    | Ok acc => always (accesses (foldM f acc l)) s1 Q
    | Err e => Q (Err e) s1
    | Panic => Q Panic s1
    end) →
  always (accesses (foldM f acc (x :: l))) s Q.
Proof. intros Ha. apply always_andThen. eapply always_mono; [|exact Ha]. by intros [b|e|] s'. Qed.

Lemma always_one_access {A} (c : M DB A) `{!Reader c} s : one_access (accesses c) →
  always (accesses c) s (λ o s', c (db_of s') = (o, db_of s')).
Proof.
  intros H1. assert (Hrun : ∀ db, c db = (run_reader (accesses c) db, db)) by apply accesses_run.
  destruct (accesses c) as [o|a k]; simpl in *; [apply Hrun|].
  intros s1 _. destruct (H1 (perform a (db_of s1))) as [o' Ho]. rewrite Ho. simpl. by rewrite Hrun, Ho.
Qed.
End Weave.
