(* ===== verification/ServiceProofs.v ===== *)
(** * The service: theorems

    No call changes the database; a call about a tick is answered from an
    archive that processed the tick or not at all; and on a typed database no
    call panics, so no request takes the process down. *)

From stdpp Require Import sorting base strings numbers pretty gmap list.
From S2P Require Import Prelude GoLib Types Platform Keys Store StoreLogic Paging.
From S2P Require Import Archive Progress Middleware Rpc RpcV2 RpcProofs Typed Reads Service Reader.
From S2P Require Quorum Tick.

Local Open Scope Z_scope.

(** What library functions that report failures with an error do not do. *)
Class LibraryReturns (N : NodeConnector) (H : HttpClient) : Prop := {
  ToPubKey_returns id lower : Identity_ToPubKey id lower ≠ Panic;
  FromPubKey_returns pk lower : Identity_FromPubKey pk lower ≠ Panic;
  SendMany_Unmarshall_returns b : SendMany_UnmarshallBinary b ≠ Panic;
  SendMany_GetTransfers_returns p : SendMany_GetTransfers p ≠ Panic;
  http_NewRequest_returns url : http_NewRequest url ≠ Panic;
  http_Do_returns r : http_Do r ≠ Panic;
  io_ReadAll_returns r : io_ReadAll r ≠ Panic;
  json_max_tick_returns b : json_max_tick b ≠ Panic
}.

Section Calm.
Context {P : Pebble} {PL : PebbleLaws P}.
Context (m : gmap bytes bytes).

(** No panic, and the contents as they were. *)
Definition calm {A} (c : M DB A) : Prop := yields m c not_panic.

Lemma calm_bind {A B} (c : M DB A) (k : A → M DB B) :
  calm c → (∀ a, calm (k a)) → calm (c ≫= k).
Proof. intros Hc Hk. eapply yields_bind; [exact Hc|intros; apply Hk|done|by intros []]. Qed.

Lemma calm_lift {A} (o : outcome A) : o ≠ Panic → calm (lift o).
Proof. intros H. by apply yields_lift. Qed.

Lemma calm_ret {A} (a : A) : calm (mret a).
Proof. by apply yields_lift. Qed.

Lemma calm_map_err {A} f (c : M DB A) : calm c → calm (mmap_err f c).
Proof. intros Hc. eapply yields_map_err; [exact Hc|]. by intros []. Qed.

Lemma calm_attempt {A B} (c : M DB A) (k : A + error → M DB B) :
  calm c → (∀ r, calm (k r)) → calm (mattempt c ≫= k).
Proof. intros Hc Hk. eapply yields_attempt; [exact Hc|intros; apply Hk..|by intros []]. Qed.

Lemma calm_foldM {A B} (f : B → A → M DB B) acc l :
  (∀ acc x, calm (f acc x)) → calm (foldM f acc l).
Proof. intros Hf. apply yields_foldM. intros; apply Hf. Qed.

Lemma calm_found_or {A} e (c : M DB A) : yields m c (found_or e) → calm c.
Proof. intros H. eapply yields_mono; [exact H|]. by intros o [(a & ->)| ->]. Qed.

Lemma calm_found_with {A} e (Q : A → Prop) (c : M DB A) :
  yields m c (λ o, (∃ a, o = Ok a ∧ Q a) ∨ o = Err e) → calm c.
Proof. intros H. eapply yields_mono; [exact H|]. by intros o [(a & -> & _)| ->]. Qed.

Lemma calm_found {A} (c : M DB A) : yields m c found → calm c.
Proof. intros H. eapply yields_mono; [exact H|]. by intros o (a & ->). Qed.
End Calm.

Lemma bind_not_panic {A B} (o : outcome A) (k : A → outcome B) :
  o ≠ Panic → (∀ a, k a ≠ Panic) → (o ≫= k) ≠ Panic.
Proof. destruct o; naive_solver. Qed.

Lemma map_err_not_panic {A} f (o : outcome A) : o ≠ Panic → map_err f o ≠ Panic.
Proof. by rewrite map_err_Panic. Qed.

Lemma foldO_not_panic {A B} (f : B → A → outcome B) acc l :
  (∀ acc x, x ∈ l → f acc x ≠ Panic) → foldO f acc l ≠ Panic.
Proof.
  revert acc. induction l as [|x l IH]; intros acc Hf; [done|]. simpl.
  apply bind_not_panic; [apply Hf; by left|]. intros. apply IH. intros. apply Hf. by right.
Qed.

#[export] Hint Resolve ToPubKey_returns FromPubKey_returns SendMany_Unmarshall_returns
  SendMany_GetTransfers_returns http_NewRequest_returns http_Do_returns io_ReadAll_returns
  json_max_tick_returns : calm.

(** One structural step towards the absence of panics. *)
Ltac calm_step :=
  match goal with
  | |- calm _ (mattempt _ ≫= _) => apply calm_attempt; [|intros ?]
  | |- calm _ (_ ≫= _) => apply calm_bind; [|intros ?]
  | |- calm _ (mret _) => apply calm_ret
  | |- calm _ (throw _) => apply calm_lift; discriminate
  | |- calm _ (lift _) => apply calm_lift
  | |- calm _ (mmap_err _ _) => apply calm_map_err
  | |- calm _ (mwrap _ _) => apply calm_map_err
  | |- calm _ (foldM _ _ _) => apply calm_foldM; intros ? ?
  | |- calm _ (match ?x with _ => _ end) => destruct x
  | |- (_ ≫= _) ≠ Panic => apply bind_not_panic; [|intros ?]
  | |- map_err _ _ ≠ Panic => apply map_err_not_panic
  | |- wrap _ _ ≠ Panic => apply map_err_not_panic
  | |- Ok _ ≠ Panic => discriminate
  | |- Err _ ≠ Panic => discriminate
  | |- (match ?x with _ => _ end) ≠ Panic => destruct x
  end.
Ltac calm_steps := repeat calm_step; eauto with calm.

(** ** Pure functions that do not panic *)
Lemma hex_Decode_returns s : hex_DecodeString s ≠ Panic.
Proof. unfold hex_DecodeString. calm_steps. Qed.

Lemma select_page_returns {A} (l : list A) p sz : 1 ≤ sz → select_page l p sz ≠ Panic.
Proof.
  intros Hs. unfold select_page. set (n := Z.of_nat (length l)). assert (0 ≤ n) by lia.
  pose proof (Z.quot_rem n sz ltac:(lia)) as Hqr.
  pose proof (Z.rem_bound_pos n sz ltac:(lia) ltac:(lia)) as Hr.
  set (count := if bool_decide (Z.rem n sz ≠ 0) then _ else _).
  assert (Hc : (count - 1) * sz ≤ n).
  { unfold count. case_bool_decide; nia. }
  set (cur := if bool_decide (p ≤ 0) then 1 else p).
  assert (1 ≤ cur) by (unfold cur; case_bool_decide; lia).
  case_bool_decide as Hcur; [done|]. assert ((cur - 1) * sz ≤ n) by nia.
  apply bind_not_panic; [|done]. unfold slice.
  rewrite bool_decide_true; [done|]. case_bool_decide; nia.
Qed.

Lemma getPaginationInformation_returns n p s : getPaginationInformation n p s ≠ Panic.
Proof. unfold getPaginationInformation. calm_steps. Qed.

Lemma GetTickEpoch_returns t l : Tick.GetTickEpoch t l ≠ Panic.
Proof.
  unfold Tick.GetTickEpoch. case_bool_decide; [done|]. clear.
  induction l; simpl; [done|]. by destruct (existsb _ _).
Qed.

Lemma IsTickLast_returns t e l : Tick.IsTickLastInAnyEpochInterval t e l ≠ Panic.
Proof.
  unfold Tick.IsTickLastInAnyEpochInterval. calm_steps.
  induction l; simpl; [done|]. by case_bool_decide.
Qed.

Section Handlers.
Context {P : Pebble} {PL : PebbleLaws P} {PR : Protobuf} {PRL : ProtobufLaws PR}.
Context {R : GoRuntime} {RL : GoRuntimeLaws R} {K : K12} {KL : K12Laws K} {N : NodeConnector}.
Context {G : GrpcStatus} {H : HttpClient} {L : LibraryReturns N H}.
Context (m : gmap bytes bytes) (Htyped : well_typed m).

Lemma calm_TickData n : calm m (Store.GetTickData n).
Proof. eapply calm_found_or, yields_GetTickData, Htyped. Qed.
Lemma calm_QuorumTickData n : calm m (Store.GetQuorumTickData n).
Proof. eapply calm_found_or, yields_GetQuorumTickData, Htyped. Qed.
Lemma calm_Computors e : calm m (Store.GetComputors e).
Proof. eapply calm_found_or, yields_GetComputors, Htyped. Qed.
Lemma calm_Transaction id : calm m (Store.GetTransaction id).
Proof. eapply calm_found_with, yields_GetTransaction, Htyped. Qed.
Lemma calm_LastProcessedTick : calm m GetLastProcessedTick.
Proof. eapply calm_found_or, yields_GetLastProcessedTick, Htyped. Qed.
Lemma calm_SkippedTicks : calm m GetSkippedTicksInterval.
Proof. eapply calm_found_or, yields_GetSkippedTicksInterval, Htyped. Qed.
Lemma calm_TickTransactionsStatus n : calm m (GetTickTransactionsStatus n).
Proof. eapply calm_found_or, yields_GetTickTransactionsStatus, Htyped. Qed.
Lemma calm_TransactionStatus id : calm m (Store.GetTransactionStatus id).
Proof. eapply calm_found_with, yields_GetTransactionStatus, Htyped. Qed.
Lemma calm_EmptyTicks e : calm m (GetEmptyTicksForEpoch e).
Proof. eapply calm_found_or, yields_GetEmptyTicksForEpoch, Htyped. Qed.
Lemma calm_EmptyTickList e : calm m (GetEmptyTickListPerEpoch e).
Proof. eapply calm_found_or, yields_GetEmptyTickListPerEpoch, Htyped. Qed.
Lemma calm_Intervals : calm m GetProcessedTickIntervals.
Proof. apply calm_found, yields_GetProcessedTickIntervals, Htyped. Qed.
Lemma calm_LastTicksPerEpoch : calm m GetLastProcessedTicksPerEpoch.
Proof. apply calm_found, yields_GetLastProcessedTicksPerEpoch, Htyped. Qed.

Lemma calm_LastQuorumData e : calm m (GetLastTickQuorumDataListPerEpochInterval e).
Proof.
  eapply yields_mono; [by apply yields_GetLastTickQuorumDataListPerEpochInterval|].
  by intros o (q & ->).
Qed.

Lemma calm_ChainDigest n : calm m (GetChainDigest n).
Proof. eapply calm_found_with, yields_GetChainDigest, Htyped. Qed.

Lemma calm_StoreDigest n : calm m (GetStoreDigest n).
Proof. eapply calm_found_with, yields_GetStoreDigest, Htyped. Qed.

Lemma calm_paged id lo hi page sort fl :
  calm m (GetTransactionsForEntityPaged id lo hi page sort fl).
Proof. apply calm_found, yields_GetTransactionsForEntityPaged, Htyped. Qed.

Hint Resolve calm_TickData calm_QuorumTickData calm_Computors calm_Transaction
  calm_LastProcessedTick calm_SkippedTicks calm_TickTransactionsStatus calm_TransactionStatus
  calm_EmptyTicks calm_EmptyTickList calm_Intervals calm_LastTicksPerEpoch calm_LastQuorumData
  calm_ChainDigest calm_StoreDigest calm_paged hex_Decode_returns select_page_returns
  getPaginationInformation_returns GetTickEpoch_returns IsTickLast_returns : calm.

Lemma calm_TickTransactions t : calm m (Store.GetTickTransactions t).
Proof. unfold Store.GetTickTransactions. calm_steps. Qed.

Lemma calm_TickTransferTransactions t : calm m (Store.GetTickTransferTransactions t).
Proof. unfold Store.GetTickTransferTransactions. calm_steps. Qed.

Lemma calm_TransactionInfo id t : calm m (getTransactionInfo id t).
Proof. unfold getTransactionInfo. calm_steps. Qed.

Lemma recompute_returns tx : recomputeSendManyMoneyFlew tx ≠ Panic.
Proof. unfold recomputeSendManyMoneyFlew. calm_steps. Qed.

Lemma check_tx_id_returns id : check_tx_id id ≠ Panic.
Proof. unfold check_tx_id. calm_steps. Qed.

Lemma fetchChainTick_returns url : fetchChainTick url ≠ Panic.
Proof. unfold fetchChainTick. calm_steps. Qed.

Hint Resolve calm_TickTransactions calm_TickTransferTransactions calm_TransactionInfo
  recompute_returns check_tx_id_returns fetchChainTick_returns : calm.

Lemma K12Hash_returns b : Utils.K12Hash b ≠ Panic.
Proof. by destruct (Utils.K12Hash_total b) as (d & -> & _). Qed.

Hint Resolve K12Hash_returns : calm.

(** The one place where stored contents could take a handler down: a vote's
    computor index beyond the identities stored for the vote's epoch. *)
Definition votes_match : Prop := ∀ n q c id,
  stored m (quorumTickDataKey n) q →
  stored m (computorsKey (pb.QuorumTickStructure_Epoch
    (pb.QuorumTickDataStored_QuorumTickStructure_ q))) c →
  is_Some (pb.QuorumTickDataStored_QuorumDiffPerComputor q !! id) →
  0 ≤ id < Z.of_nat (length (pb.Computors_Identities c)).

Lemma ReconstructQuorumData_returns q q' c :
  (∀ id, is_Some (pb.QuorumTickDataStored_QuorumDiffPerComputor q !! id) →
         0 ≤ id < Z.of_nat (length (pb.Computors_Identities c))) →
  Quorum.ReconstructQuorumData q q' c ≠ Panic.
Proof.
  intros Hids. unfold Quorum.ReconstructQuorumData. calm_steps.
  apply foldO_not_panic. intros acc [id diff] Hin. rewrite map_range_perm in Hin.
  apply elem_of_map_to_list in Hin. unfold Quorum.reconstruct_step, Quorum.reconstruct_diff,
    Quorum.reconstructShortSaltedDigest.
  destruct (index_in_range (pb.Computors_Identities c) id) as [s Hs]; [by apply Hids|].
  rewrite Hs. ok_step. calm_steps.
Qed.

Lemma calm_reconstructed t : votes_match → calm m (reconstructed t).
Proof.
  intros Hmatch. unfold reconstructed. calm_step; [calm_steps|].
  eapply yields_bind.
  - eapply yields_map_err; [by apply stored_GetQuorumTickData|].
    intros o Ho. instantiate (1 := λ o, o ≠ Panic ∧ ∀ q, o = Ok q → stored m (quorumTickDataKey t) q).
    destruct Ho as [(q & -> & Hq)| ->]; simpl; naive_solver.
  - intros q [_ Hq]. specialize (Hq q eq_refl). eapply yields_bind.
    + eapply yields_map_err; [by apply stored_GetComputors|].
      intros o Ho. instantiate (1 := λ o, o ≠ Panic ∧ ∀ c, o = Ok c → stored m (computorsKey
        (pb.QuorumTickStructure_Epoch (pb.QuorumTickDataStored_QuorumTickStructure_ q))) c).
      destruct Ho as [(c & -> & Hc)| ->]; simpl; naive_solver.
    + intros c [_ Hc]. specialize (Hc c eq_refl). apply (calm_lift m), map_err_not_panic.
      apply ReconstructQuorumData_returns. intros id. by apply (Hmatch t q c id).
    + done.
    + by intros [].
  - done.
  - by intros [].
Qed.

Lemma calm_QuorumTickData_handler t : votes_match → calm m (Rpc.GetQuorumTickData t).
Proof.
  intros Hmatch. unfold Rpc.GetQuorumTickData. calm_steps. by apply calm_reconstructed.
Qed.

(** The two endpoints that page through a list refuse a page size below 1. *)
Lemma calm_GetEmptyTickListV2 e p sz : calm m (GetEmptyTickListV2 e p sz).
Proof.
  unfold GetEmptyTickListV2. case_bool_decide; calm_steps. apply select_page_returns. lia.
Qed.

Lemma calm_GetEpochTickListV2 fuel e p sz desc : calm m (GetEpochTickListV2 fuel e p sz desc).
Proof.
  unfold GetEpochTickListV2. case_bool_decide; calm_steps. apply select_page_returns. lia.
Qed.

Lemma calm_handle srv fuel c : votes_match → calm m (handle srv fuel c).
Proof.
  intros Hmatch. destruct c; simpl; unfold GetTickQuorumDataV2, GetTickChainHashV2,
    GetTickStoreHashV2, GetChainHash, GetStoreHash, GetTickTransactionsV2,
    GetApprovedTickTransactionsV2, GetTransferTickTransactionsV2, GetAllTickTransactionsV2,
    with_info_step, approved_info_step, GetTransactionV2, GetSendManyTransactionV2,
    GetIdentityTransfersInTickRangeV2, per_tick_step, transfer_step, Rpc.GetTickData, Rpc.GetTickTransactions, Rpc.GetTickTransferTransactions,
    Rpc.GetTickApprovedTransactions, approved_step, Rpc.GetTransaction, Rpc.GetTransactionStatus,
    GetTransferTransactionsPerTick, GetTransactionsForEntity, Rpc.GetComputors, Rpc.GetStatus,
    GetLatestTick, GetHealthCheck; auto using calm_QuorumTickData_handler,
    calm_GetEmptyTickListV2, calm_GetEpochTickListV2; calm_steps.
Qed.

Lemma calm_check t : calm m (checkTickWithinArchiverIntervals (S := DB) t).
Proof.
  unfold checkTickWithinArchiverIntervals. simpl pts_GetLastProcessedTick.
  simpl pts_GetProcessedTickIntervals. calm_steps.
Qed.

Lemma calm_serve srv fuel c : votes_match → calm m (serve srv fuel c).
Proof.
  intros Hmatch. unfold serve, GetInterceptor.
  apply calm_bind; [|intros _; by apply calm_handle].
  apply calm_map_err. destruct (checked_tick _); [apply calm_check|apply calm_ret].
Qed.
End Handlers.

Section Service.
Context {P : Pebble} {PR : Protobuf} {R : GoRuntime} {K : K12} {N : NodeConnector}.
Context {G : GrpcStatus} {H : HttpClient}.
Variables (srv : Server) (fuel : nat).

(** The interceptor looks at every method that is about a tick. *)
Lemma checked_tick_of c : checked_tick (request_of c) = tick_of c.
Proof. by destruct c. Qed.

Lemma handle_reads c db : (handle srv fuel c db).2 = db.
Proof. exact (reader_reads _ db). Qed.

Lemma check_reads t db : (checkTickWithinArchiverIntervals (S := DB) t db).2 = db.
Proof. exact (reader_reads _ db). Qed.

Lemma let_through_reads c db : (let_through c db).2 = db.
Proof. exact (reader_reads _ db). Qed.

(** No request changes the database: whatever method is called with
    whatever parameters, on any database, and whether the call is refused,
    answered or fails, the database is as it was. *)
Lemma serve_reads_only c db : (serve srv fuel c db).2 = db.
Proof. exact (reader_reads _ db). Qed.

Context {PL : PebbleLaws P} {PRL : ProtobufLaws PR}.

(** On a database whose values have the types of their keys, no request
    makes the server panic: every method ends in a response or an error, for
    any parameters.  The one condition on the contents is that the computor
    indices of stored votes lie within the list stored for their epoch. *)
Theorem serve_never_panics {RL : GoRuntimeLaws R} {KL : K12Laws K} {L : LibraryReturns N H} c db :
  healthy db → well_typed (contents db) → votes_match (contents db) →
  (serve srv fuel c db).1 ≠ Panic.
Proof.
  intros Hh Ht Hmatch. destruct (calm_serve _ Ht srv fuel c Hmatch) as (o & Hr & Ho).
  destruct (Hr db Hh eq_refl) as (db' & E & _). by rewrite E.
Qed.

(** What a request sees of the bookkeeping is the archive [a]: the last tick, and
    the interceptor's verdict on every tick.  A database that represents [a]
    shows it, and so does one in the middle of a status update (Stages.v). *)
Record shows (db : DB) (a : archive) : Prop := {
  shows_healthy : healthy db;
  shows_ok : archive_ok a;
  shows_last : GetLastProcessedTick db =
    (match ar_last a with Some pt => Ok pt | None => Err ErrNotFound end, db);
  shows_check t : 1 ≤ t →
    ∃ o, checkTickWithinArchiverIntervals t db = (o, db) ∧ verdict a t o
}.

Lemma last_processed_represents db a : healthy db → represents (contents db) a →
  GetLastProcessedTick db =
    (match ar_last a with Some pt => Ok pt | None => Err ErrNotFound end, db).
Proof.
  intros Hh Hr. destruct (runs_GetLastProcessedTick _ a Hr _ Hh eq_refl) as (db' & E & _).
  pose proof (accesses_run (c := GetLastProcessedTick) db). congruence.
Qed.

Lemma pebble_serves_shows {GL : GrpcStatusLaws G} db a : pebble_serves db a → shows db a.
Proof.
  intros Hs. split; [apply Hs|apply Hs|by apply last_processed_represents; apply Hs|].
  intros t Ht. destruct (check_verdict (TL := pebble_ticks_laws) db a t Hs Ht) as (o & db' & E & _ & Hv).
  pose proof (check_reads t db) as Hr. rewrite E in Hr. simpl in Hr. subst db'. by exists o.
Qed.

Lemma let_through_cases c t db a : shows db a → tick_of c = Some t → 1 ≤ t →
  ((∃ e, processed_in a e t) ∧ let_through c db = (Ok tt, db)) ∨
  (∃ e, let_through c db = (Err (WrapError "invalid tick number" e), db) ∧
        (∀ ep, ¬ processed_in a ep t) ∧ verdict a t (Err e)).
Proof.
  intros Hs Hc Ht. destruct (shows_check _ _ Hs t Ht) as (o & E & Hv).
  unfold let_through, GetInterceptor. rewrite checked_tick_of, Hc.
  unfold mbind, M_bind, mwrap, mmap_err. rewrite E.
  destruct (verdict_cases a t o (shows_ok _ _ Hs) Hv) as [[-> Hp]|(e & -> & Hn)];
    [by left|right; by exists e].
Qed.

(** Serving a call is admitting it and then handling it. *)
Lemma serve_let_through c db : serve srv fuel c db = (let_through c ≫= λ _, handle srv fuel c) db.
Proof.
  unfold serve, let_through, GetInterceptor, mbind, M_bind.
  by destruct (mwrap _ _ db) as [[[]|e|] db'].
Qed.

Lemma serve_cases c t db a : shows db a → tick_of c = Some t → 1 ≤ t →
  ((∃ e, processed_in a e t) ∧ serve srv fuel c db = handle srv fuel c db) ∨
  (∃ e, serve srv fuel c db = (Err (WrapError "invalid tick number" e), db) ∧
        (∀ ep, ¬ processed_in a ep t) ∧ verdict a t (Err e)).
Proof.
  intros Hs Hc Ht. rewrite serve_let_through. unfold mbind, M_bind.
  destruct (let_through_cases c t db a Hs Hc Ht) as [[Hp ->]|(e & -> & Hr)]; [by left|right; by exists e].
Qed.

(** A method that is about a tick, on a database that represents an
    archive: the handler answers exactly when the tick was processed; for any
    other tick the call is refused with the interceptor's verdict, whichever
    method it is, and no handler runs. *)
Theorem serve_admits {GL : GrpcStatusLaws G} c t db a :
  pebble_serves db a → tick_of c = Some t → 1 ≤ t →
  ((∃ e, processed_in a e t) ∧ serve srv fuel c db = handle srv fuel c db) ∨
  (∃ e, serve srv fuel c db = (Err (WrapError "invalid tick number" e), db) ∧
        (∀ ep, ¬ processed_in a ep t) ∧ verdict a t (Err e)).
Proof. intros Hs. by apply serve_cases, pebble_serves_shows. Qed.
End Service.
