(* ===== verification/Stages.v ===== *)
(** * The status update, write by write

    [processStatus] makes two to four writes, and only the two of the last
    processed ticks are one batch.  [stages] says what the contents can be
    when a computation is cut short after any number of its writes (Cut.v), and
    [steady] how they change from one cut to a later one.  In the middle of
    a status update the database does not represent an archive in the sense of
    Archive.v, but it still shows requests one: the one before the update up to
    the write of the last processed tick, and the one after it from then on. *)

From stdpp Require Import sorting base strings numbers pretty gmap list.
From S2P Require Import Prelude GoLib Types Platform Keys Store StoreLogic Frame Success Utils.
From S2P Require Import Archive Progress Typed TickProofs Complete ValidatorProofs.
From S2P Require Import Processor ProcessorProofs Cut Middleware Service Reader ServiceProofs.
From S2P Require Tick.

Local Open Scope Z_scope.

Section Stages.
Context {P : Pebble} {PL : PebbleLaws P}.
Implicit Types Q : gmap bytes bytes → Prop.

(** ** The contents at every cut *)
Definition stages {A} (c : M DB A) (c' : M (DB (Pebble := Cut)) A) (m : gmap bytes bytes) Q : Prop :=
  ∀ db n, healthy db → contents db = m → Q (contents (written c' n db)).

Lemma stages_bind {A B} (c : M DB A) c' (k : A → M DB B) k' a m m1 Q : agrees c c' →
  runs m c (Ok a) m1 → stages c c' m Q → stages (k a) (k' a) m1 Q → stages (c ≫= k) (c' ≫= k') m Q.
Proof.
  intros Hc Hr Hs Hk db n Hh Hm. destruct (Hc db) as [cost [Hw Hcut _ _]].
  destruct (Hr db Hh Hm) as (db1 & E & Hh1 & Hm1). specialize (Hs db n Hh Hm).
  unfold written, mbind, M_bind in *. destruct (decide (n < cost)%nat) as [Hn|Hn].
  - destruct (Hcut n Hn) as [Hp _]. destruct (c' (db, n)) as [o d]. simpl in *. by subst o.
  - specialize (Hw (n - cost)%nat). replace (cost + (n - cost))%nat with n in Hw by lia.
    rewrite Hw, E. simpl. by apply Hk.
Qed.

(** One write: before it and after it. *)
Lemma at_most_1_written {A} (c : M DB A) c' n db : at_most 1 c c' →
  written c' n db = db ∨ written c' n db = (c db).2.
Proof.
  intros Hc. destruct (Hc db) as (cost & Hcost & [Hw _ H0 _]). unfold written in *.
  destruct n as [|n]; [by left|right].
  replace (S n) with (cost + (S n - cost))%nat by lia. by rewrite Hw.
Qed.

Lemma stages_single {A} (c : M DB A) c' o m m' Q :
  at_most 1 c c' → runs m c o m' → Q m → Q m' → stages c c' m Q.
Proof.
  intros Hc Hr Hm Hm' db n Hh <-. destruct (Hr db Hh eq_refl) as (db' & E & _ & <-).
  destruct (at_most_1_written c c' n db Hc) as [-> | ->]; [done|]. by rewrite E.
Qed.

Lemma stages_map_err {A} f (c : M DB A) c' m Q : stages c c' m Q → stages (mmap_err f c) (mmap_err f c') m Q.
Proof.
  intros Hc db n Hh Hm. specialize (Hc db n Hh Hm). unfold written, mmap_err in *.
  by destruct (c' (db, n)).
Qed.

(** ** From one cut to a later one *)
Implicit Types W : bytes → option bytes → Prop.

Definition steady W {A} (c : M DB A) (c' : M (DB (Pebble := Cut)) A) : Prop :=
  agrees c c' ∧ ∀ db n1 n2 k, (n1 ≤ n2)%nat →
    contents (written c' n2 db) !! k = contents (written c' n1 db) !! k ∨
    W k (contents (written c' n2 db) !! k).

Lemma steady_single W {A} (c : M DB A) c' : at_most 1 c c' → writes_only W c → steady W c c'.
Proof.
  intros Hc Hw. split; [by eapply at_most_agrees|]. intros db n1 n2 k Hn.
  destruct (Hc db) as (cost & Hcost & [Hwhole _ H0 _]). unfold written in *.
  assert (H1 : ∀ n, (1 ≤ n)%nat → (c' (db, n)).2.1 = (c db).2).
  { intros n Hn1. replace n with (cost + (n - cost))%nat by lia. by rewrite Hwhole. }
  destruct n2 as [|n2]; [left; by replace n1 with 0%nat by lia|]. rewrite (H1 (S n2)) by lia.
  destruct n1 as [|n1]; [rewrite H0; apply Hw|left; by rewrite (H1 (S n1)) by lia].
Qed.

Lemma steady_bind W {A B} (c : M DB A) c' (k : A → M DB B) k' :
  steady W c c' → (∀ a, (∃ db, (c db).1 = Ok a) → steady W (k a) (k' a)) →
  (∀ a, agrees (k a) (k' a)) → steady W (c ≫= k) (c' ≫= k').
Proof.
  intros [Hc Hs] Hk Hka. split; [by apply agrees_bind|]. intros db n1 n2 x Hn.
  destruct (Hc db) as [m [Hw Hcut _ _]].
  assert (Hstop : ∀ n, (n < m)%nat → written (c' ≫= k') n db = written c' n db).
  { intros n Hnm. destruct (Hcut n Hnm) as [Hp _]. unfold written, mbind, M_bind.
    destruct (c' (db, n)) as [o d]. simpl in Hp. by subst o. }
  assert (Hgo : ∀ n, (m ≤ n)%nat → written (c' ≫= k') n db =
    match (c db).1 with Ok a => written (k' a) (n - m) (c db).2 | _ => written c' n db end).
  { intros n Hmn. unfold written, mbind, M_bind. specialize (Hw (n - m)%nat).
    replace (m + (n - m))%nat with n in Hw by lia. rewrite Hw. by destruct (c db).1. }
  destruct (decide (n2 < m)%nat) as [H2|H2]; [rewrite !Hstop by lia; by apply Hs|].
  rewrite (Hgo n2) by lia. destruct (decide (n1 < m)%nat) as [H1|H1].
  - rewrite (Hstop n1) by done. destruct (c db).1 as [a|e|] eqn:E; [|by apply Hs..].
    destruct (Hs db n1 m x ltac:(lia)) as [Hx|Hx]; destruct (Hk a ltac:(by exists db)) as [Hk1 Hk2];
      (assert (Hm : written c' m db = (c db).2)
        by (unfold written; specialize (Hw 0%nat); rewrite Nat.add_0_r in Hw; by rewrite Hw));
      destruct (Hk1 (c db).2) as [m2 [_ _ H0 _]];
      (destruct (Hk2 (c db).2 0%nat (n2 - m)%nat x ltac:(lia)) as [Hy|Hy]; [rewrite Hy, H0, <-Hm|by right]).
    + by left.
    + by right.
  - rewrite (Hgo n1) by lia. destruct (c db).1 as [a|e|] eqn:E; [|by apply Hs..].
    destruct (Hk a ltac:(by exists db)) as [_ Hk2]. apply Hk2. lia.
Qed.

Lemma steady_map_err W {A} f (c : M DB A) c' : steady W c c' → steady W (mmap_err f c) (mmap_err f c').
Proof.
  intros [Hc Hs]. split; [by apply agrees_map_err|]. intros db n1 n2 k Hn.
  assert (E : ∀ n, written (mmap_err f c') n db = written c' n db)
    by (intros n; unfold written, mmap_err; by destruct (c' (db, n))).
  rewrite !E. by apply Hs.
Qed.
End Stages.

Section Update.
Context {P : Pebble} {PL : PebbleLaws P} {PR : Protobuf} {PRL : ProtobufLaws PR}.

(** ** The archive at each of its cuts *)

(** The batch first, then the intervals. *)
Lemma stages_SetLastProcessedTick m a pt Q : represents m a → archive_valid a → valid_tick pt →
  (∀ x, represents x a → Q x) → (∀ x, represents x (with_last pt a) → Q x) →
  (∀ x, represents x (set_last pt a) → Q x) →
  stages (SetLastProcessedTick pt) (SetLastProcessedTick (P := Cut) pt) m Q.
Proof.
  intros Hrep Hval [Ht He] Q0 Q1 Q2.
  pose proof (ProcessedTick_valid _ _ Ht He) as Hv. destruct pt as [t e]; simpl in *.
  destruct (Marshal_valid _ Hv) as [b Hb]. pose proof (Unmarshal_Marshal _ _ Hv Hb) as Hu.
  rewrite ProcessedTick_norm in Hu.
  destruct (Batch_Set_ok NewBatch (lastProcessedTickKeyPerEpoch e) (LittleEndian_PutUint32 t))
    as (b1 & E1 & W1).
  destruct (Batch_Set_ok b1 lastProcessedTickKey b) as (b2 & E2 & W2).
  rewrite W1, NewBatch_writes in W2.
  pose proof (represents_with_last m a (pb.MkProcessedTick t e) b Hrep (conj Ht He) Hu) as Hrep1.
  simpl in Hrep1. set (m1 := <[_ := b]> _) in Hrep1.
  destruct (runs_setIntervals m1 (with_last (pb.MkProcessedTick t e) a) e
    (extended t (default [] (ar_intervals a !! e)))) as (m' & Hset & Hrep'); [done..| |].
  { apply extended_valid; [done|]. destruct (ar_intervals a !! e) eqn:E; simpl; [|constructor].
    by eapply valid_intervals. }
  assert (Hlift : ∀ {A} (o : outcome A), stages (lift o) (lift o) m Q).
  { intros A o. eapply stages_single; [apply at_most_lift|apply runs_lift|by apply Q0..]. }
  unfold SetLastProcessedTick. cbn [pb.ProcessedTick_TickNumber pb.ProcessedTick_Epoch].
  change (@Batch_Set Cut) with (@Batch_Set P). change (@NewBatch Cut) with (@NewBatch P).
  rewrite E1. eapply stages_bind; [apply agrees_lift|by apply runs_lift|apply Hlift|].
  rewrite Hb. eapply stages_bind; [apply agrees_lift|by apply runs_lift|apply Hlift|].
  cbn [wrap map_err]. rewrite E2. eapply stages_bind; [apply agrees_lift|by apply runs_lift|apply Hlift|].
  assert (Hcommit : runs m (mwrap "committing batch" (pebble_Commit b2)) (Ok tt) m1).
  { runs_wrapped. pose proof (runs_Commit m b2) as Hc. by rewrite W2 in Hc. }
  eapply stages_bind; [apply agrees_map_err, agrees_Commit|exact Hcommit| |].
  { eapply stages_single; [apply at_most_map_err, at_most_Commit|exact Hcommit|by apply Q0|by apply Q1]. }
  eapply (stages_bind _ _ _ _ _ m1).
  - apply agrees_map_err. eapply at_most_agrees, at_most_getIntervals.
  - runs_wrapped. by apply (runs_getIntervals m1 _ e Hrep1).
  - eapply stages_single; [|runs_wrapped; by apply (runs_getIntervals m1 _ e Hrep1)|by apply Q1..].
    apply at_most_map_err. eapply at_most_weaken, at_most_getIntervals. lia.
  - cbn [pb.ProcessedTickIntervalsPerEpoch_Intervals pb.ProcessedTickIntervalsPerEpoch_Epoch].
    simpl (ar_intervals _). destruct (default [] (ar_intervals a !! e)) as [|i l] eqn:El;
      (eapply stages_single;
        [apply at_most_map_err, at_most_setIntervals|runs_wrapped; exact Hset|by apply Q1|apply Q2];
       unfold set_last; simpl; rewrite El; exact Hrep').
Qed.
(** What requests see in the middle: the last tick of one archive, and the
    intervals of the same, or of the other when that makes no difference to
    them.  Without skipped ticks the last tick is written before its interval, with
    skipped ticks the interval is written before the last tick. *)
Definition midway (a : archive) (last next : pb.ProcessedTick) (b : archive) : Prop :=
  let a' := update_status last next a in
  let adjacent := pb.ProcessedTick_TickNumber next - pb.ProcessedTick_TickNumber last = 1 in
  (ar_last b = ar_last a ∧
     (ar_intervals b = ar_intervals a ∨ ¬ adjacent ∧ ar_intervals b = ar_intervals a')) ∨
  (ar_last b = Some next ∧
     (ar_intervals b = ar_intervals a' ∨ adjacent ∧ ar_intervals b = ar_intervals a)).

Lemma stages_processStatus m a last next : represents m a → archive_valid a → valid_tick next →
  0 ≤ pb.ProcessedTick_TickNumber last < pb.ProcessedTick_TickNumber next →
  stages (processStatus last next) (processStatus (P := Cut) last next) m
    (λ x, ∃ b, represents x b ∧ midway a last next b).
Proof.
  intros Hrep Hval [Ht He] Hlt. unfold is_uint32 in Ht, He. unfold midway, update_status, processStatus, processSkippedTicks.
  set (l := pb.ProcessedTick_TickNumber last) in *. set (n := pb.ProcessedTick_TickNumber next) in *.
  rewrite (uint32_small (n - l)) by lia. destruct (bool_decide_reflect (n - l = 1)) as [Hadj|Hadj].
  - eapply stages_bind; [apply agrees_map_err, agrees_ret|runs_wrapped; apply runs_ret| |].
    { eapply stages_single; [apply at_most_map_err, (at_most_lift _ (Ok tt))|runs_wrapped; apply runs_ret|..];
        exists a; auto. }
    apply stages_map_err, (stages_SetLastProcessedTick m a next); [done|done|done|intros x Hx..].
    + exists a. auto.
    + exists (with_last next a). split; [done|]. right. split; [done|]. by right.
    + exists (set_last next a). split; [done|]. right. split; [done|]. by left.
  - rewrite (bool_decide_false (n - l = 0)) by lia.
    set (i := pb.MkProcessedTickInterval n n). set (s := pb.MkSkippedTicksInterval (l + 1) (n - 1)).
    assert (Hi : valid_interval i) by (unfold valid_interval, is_uint32; simpl; lia).
    assert (Hs : valid_skipped s) by (unfold valid_skipped, is_uint32; simpl; lia).
    destruct (runs_AppendProcessedTickInterval m a (pb.ProcessedTick_Epoch next) i)
      as (m1 & Hrun1 & Hrep1); [done..|].
    set (a1 := append_interval (pb.ProcessedTick_Epoch next) i a) in *.
    assert (Hval1 : archive_valid a1) by (by apply append_interval_valid).
    destruct (runs_SetSkippedTicksInterval m1 a1 s Hrep1 Hval1 Hs) as (m2 & Hrun2 & Hrep2).
    set (a2 := record_skipped s a1) in *.
    assert (Hval2 : archive_valid a2) by (by apply record_skipped_valid).
    assert (Hsame : ar_intervals (set_last next a2) = ar_intervals a2).
    { unfold set_last. simpl. fold n. rewrite lookup_insert_eq. simpl.
      by rewrite extended_fresh, insert_insert_eq. }
    rewrite !uint32_small by lia. fold i s a1 a2.
    assert (H0 : ∃ b, represents m b ∧ midway a last next b) by (exists a; unfold midway; auto).
    assert (H1 : ∃ b, represents m1 b ∧ midway a last next b).
    { exists a1. split; [done|]. unfold midway, update_status. fold l n.
      rewrite bool_decide_false by done. fold i s a1 a2. rewrite Hsame. auto. }
    assert (H2 : ∃ b, represents m2 b ∧ midway a last next b).
    { exists a2. split; [done|]. unfold midway, update_status. fold l n.
      rewrite bool_decide_false by done. fold i s a1 a2. rewrite Hsame. auto. }
    unfold midway, update_status in H0, H1, H2. fold l n in H0, H1, H2.
    rewrite bool_decide_false in H0, H1, H2 by done. fold i s a1 a2 in H0, H1, H2.
    eapply stages_bind.
    + apply agrees_map_err, agrees_bind; [|intros _]; apply agrees_map_err; eapply at_most_agrees;
        [apply at_most_AppendProcessedTickInterval|apply at_most_SetSkippedTicksInterval].
    + runs_wrapped. runs_step (runs_wrapped; exact Hrun1). runs_wrapped. exact Hrun2.
    + apply stages_map_err. eapply (stages_bind _ _ _ _ _ m m1).
      * apply agrees_map_err. eapply at_most_agrees, at_most_AppendProcessedTickInterval.
      * runs_wrapped. exact Hrun1.
      * apply stages_map_err. by eapply stages_single; [apply at_most_AppendProcessedTickInterval|exact Hrun1|..].
      * apply stages_map_err. by eapply stages_single; [apply at_most_SetSkippedTicksInterval|exact Hrun2|..].
    + apply stages_map_err, (stages_SetLastProcessedTick m2 a2 next); [done|done|done|intros x Hx..].
      * exists a2. split; [done|]. left. split; [done|]. right. by rewrite Hsame.
      * exists (with_last next a2). split; [done|]. right. split; [done|]. left. by rewrite Hsame.
      * exists (set_last next a2). split; [done|]. right. auto.
Qed.

(** ** The last processed tick *)

(** The bookkeeping keys; and if the last processed tick, then to [next]. *)
Definition sets_last (next : pb.ProcessedTick) (k : bytes) (v : option bytes) : Prop :=
  own_keys [] bookkeeping_kinds k ∧
  (k = lastProcessedTickKey → ∃ b, v = Some b ∧ Unmarshal b = Ok next).

Lemma sets_last_other next x k v : key_kind k = Some x → x ≠ LastProcessedTick →
  x ∈ bookkeeping_kinds → sets_last next k v.
Proof.
  intros Hk Hx Hin. split; [by eapply own_keys_kind; [exact Hk|apply bool_decide_eq_true]|].
  intros ->. by injection Hk as <-.
Qed.

Ltac agrees_all := unfold getProcessedTickIntervalsPerEpoch, SetProcessedTickIntervalPerEpoch; agrees_steps.
Ltac other_key := eapply sets_last_other; [reflexivity|by vm_compute|unfold bookkeeping_kinds; set_solver].

Lemma steady_lift W {A} (o : outcome A) : steady W (lift o) (lift o).
Proof. apply steady_single; [apply at_most_lift|apply writes_lift]. Qed.

Lemma steady_bind_lift W {A B} msg (o : outcome A) (k : A → M DB B) k' :
  (∀ a, o = Ok a → steady W (k a) (k' a)) → (∀ a, agrees (k a) (k' a)) →
  steady W (lift (wrap msg o) ≫= k) (lift (wrap msg o) ≫= k').
Proof.
  intros Hk Hka. apply steady_bind; [apply steady_lift| |done].
  intros a (db & E%wrap_Ok). by apply Hk.
Qed.

Lemma steady_SetLastProcessedTick next :
  steady (sets_last next) (SetLastProcessedTick next) (SetLastProcessedTick (P := Cut) next).
Proof.
  unfold SetLastProcessedTick. change (@Batch_Set Cut) with (@Batch_Set P).
  change (@NewBatch Cut) with (@NewBatch P).
  apply steady_bind_lift; [intros b1 E1|intros; agrees_all].
  apply steady_bind_lift; [intros s Es|intros; agrees_all].
  apply steady_bind_lift; [intros b2 E2|intros; agrees_all].
  apply steady_bind; [|intros _ _|intros; agrees_all].
  { apply steady_map_err, steady_single; [apply at_most_Commit|]. apply writes_Commit.
    eapply batch_owned_set; [eapply batch_owned_set; [apply batch_owned_new| |exact E1]| |exact E2].
    - other_key.
    - split; [by eapply own_keys_kind|]. intros _. exists s. split; [done|].
      rewrite <-(ProcessedTick_norm next). by apply Marshal_Unmarshal. }
  apply steady_bind; [|intros ptie _|intros; agrees_all].
  - apply steady_map_err, steady_single; [eapply at_most_weaken, at_most_getIntervals; lia|].
    unfold getProcessedTickIntervalsPerEpoch. frame_steps.
  - apply steady_map_err, steady_single; [apply at_most_setIntervals|].
    unfold SetProcessedTickIntervalPerEpoch. frame_steps; other_key.
Qed.

Lemma steady_processStatus last next :
  steady (sets_last next) (processStatus last next) (processStatus (P := Cut) last next).
Proof.
  unfold processStatus, processSkippedTicks.
  apply steady_bind; [|intros _ _; apply steady_map_err, steady_SetLastProcessedTick
    |intros _; apply agrees_map_err, agrees_SetLastProcessedTick].
  apply steady_map_err. case_bool_decide; [apply steady_single; [apply (at_most_lift _ (Ok tt))|apply writes_ret]|].
  case_bool_decide; [apply steady_lift|].
  apply steady_bind; [|intros _ _|intros _; apply agrees_map_err; eapply at_most_agrees, at_most_SetSkippedTicksInterval];
    apply steady_map_err, steady_single.
  - apply at_most_AppendProcessedTickInterval.
  - unfold AppendProcessedTickInterval, getProcessedTickIntervalsPerEpoch,
      SetProcessedTickIntervalPerEpoch. frame_steps; other_key.
  - apply at_most_SetSkippedTicksInterval.
  - unfold SetSkippedTicksInterval, GetSkippedTicksInterval. frame_steps; other_key.
Qed.
End Update.

(** ** What requests see *)
Section Shown.
Context {P : Pebble} {PL : PebbleLaws P} {PR : Protobuf} {PRL : ProtobufLaws PR}.
Context {R : GoRuntime} {K : K12} {N : NodeConnector}.
Context {G : GrpcStatus} {GL : GrpcStatusLaws G} {H : HttpClient}.

(** The outcome of the interceptor's check, given what it reads. *)
Definition check_outcome (last : option pb.ProcessedTick)
    (l : list pb.ProcessedTickIntervalsPerEpoch) (t : Z) : outcome unit :=
  match last with
  | None => Err (StatusError Internal "failed to get last processed tick" None)
  | Some pt =>
      if bool_decide (t > pb.ProcessedTick_TickNumber pt)
      then Err (StatusError FailedPrecondition
        "requested tick number is greater than last processed tick" (Some (pb.ProcessedTick_TickNumber pt)))
      else match Tick.WasSkippedByArchive t l with
        | (true, n) => Err (StatusError OutOfRange "provided tick number was skipped by the system" (Some n))
        | (false, _) => Ok tt
        end
  end.

Lemma check_represents db b t : healthy db → represents (contents db) b →
  (∀ e, is_Some (ar_intervals b !! e) → 0 ≤ e < 0x31000000) →
  ∃ l, interval_list b l ∧
    checkTickWithinArchiverIntervals t db = (check_outcome (ar_last b) l t, db).
Proof.
  intros Hh Hr Hsmall. destruct (runs_GetProcessedTickIntervals _ b Hr Hsmall) as (l & Hrun & Hl).
  exists l. split; [done|]. destruct (Hrun db Hh eq_refl) as (db' & E & _).
  pose proof (reader_reads GetProcessedTickIntervals db) as E'. rewrite E in E'. simpl in E'. subst db'.
  unfold checkTickWithinArchiverIntervals, mbind at 1, M_bind at 1, mmap_err at 1.
  simpl pts_GetLastProcessedTick. simpl pts_GetProcessedTickIntervals.
  rewrite (last_processed_represents db b Hh Hr). unfold check_outcome.
  destruct (ar_last b) as [pt|]; cbn [map_err]; [|done].
  case_bool_decide; [by rewrite status_with_ok|]. unfold mbind, M_bind, mmap_err.
  change (pts_GetProcessedTickIntervals db) with (GetProcessedTickIntervals db). rewrite E.
  cbn [map_err]. destruct (Tick.WasSkippedByArchive t l) as [[] n]; [by rewrite status_with_ok|done].
Qed.

Lemma interval_list_same a b l : ar_intervals b = ar_intervals a → interval_list b l → interval_list a l.
Proof. intros E [H1 H2]. split; [done|]. intros p. by rewrite H2, E. Qed.

(** The last tick was processed. *)
Lemma last_processed a pt : archive_ok a → ar_last a = Some pt → ∃ e, processed_in a e (last_number a).
Proof.
  intros Hok E. destruct (ok_last _ Hok pt E) as (_ & _ & _ & l & i & Hl & Hi & Hend).
  exists (pb.ProcessedTick_Epoch pt), l, i. split; [done|].
  assert (Hin : i ∈ l) by (by apply last_Some_elem_of). split; [done|].
  destruct (ok_epoch _ Hok _ _ Hl) as (_ & Hne & _). rewrite Forall_forall in Hne.
  specialize (Hne i Hin). unfold in_interval, interval_nonempty, last_number in *. rewrite E. lia.
Qed.

(** The check on the intervals of the same archive. *)
Lemma check_outcome_verdict a l t : archive_ok a → interval_list a l → 1 ≤ t →
  verdict a t (check_outcome (ar_last a) l t).
Proof.
  intros Hok Hl Ht. unfold check_outcome, verdict. pose proof (WasSkipped_answer a l Hok Hl t Ht) as Hw.
  destruct (ar_last a) as [pt|] eqn:E; [|by right; left].
  assert (Hn : pb.ProcessedTick_TickNumber pt = last_number a) by (unfold last_number; by rewrite E).
  rewrite Hn. case_bool_decide; [right; right; left; split; [done|]; split; [lia|done]|].
  destruct (Tick.WasSkippedByArchive t l) as [[] n]; [do 3 right; exists n; destruct Hw as (? & ? & ? & ?); done|left].
  split; [done|]. destruct Hw as [_ [?|?]]; [done|lia].
Qed.

Section Midway.
Context (a : archive) (last next : pb.ProcessedTick).
Let a' := update_status last next a.
Let n := pb.ProcessedTick_TickNumber next.
Context (Hok : archive_ok a) (Hok' : archive_ok a').
Context (Hlast : pb.ProcessedTick_TickNumber last = last_number a) (Hlt : last_number a < n).
Context (Hadds : ∀ e t, processed_in a' e t ↔ processed_in a e t ∨ (e = pb.ProcessedTick_Epoch next ∧ t = n)).

Lemma next_last : ar_last a' = Some next ∧ last_number a' = n.
Proof.
  assert (E : ar_last a' = Some next) by (unfold a', update_status; by case_bool_decide).
  split; [done|]. unfold last_number. by rewrite E.
Qed.

(** The new interval is there before the last tick: as if it were not. *)
Lemma verdict_appended l t : interval_list a' l → 1 ≤ t → verdict a t (check_outcome (ar_last a) l t).
Proof.
  intros Hl Ht. pose proof (WasSkipped_answer a' l Hok' Hl t Ht) as Hw. unfold check_outcome, verdict.
  destruct (ar_last a) as [pt|] eqn:E; [|by right; left].
  assert (Hn : pb.ProcessedTick_TickNumber pt = last_number a) by (unfold last_number; by rewrite E).
  rewrite Hn. destruct (bool_decide_reflect (t > last_number a)) as [Hgt|Hle];
    [right; right; left; split; [done|]; split; [lia|done]|].
  destruct (Tick.WasSkippedByArchive t l) as [[] m].
  - destruct Hw as (_ & Htm & [em Hm] & Hno). do 3 right. exists m.
    destruct (last_processed a pt Hok E) as [el Hlp].
    assert (Hml : m ≤ last_number a).
    { destruct (decide (m ≤ last_number a)); [done|exfalso].
      apply (Hno (last_number a) el); [lia|]. apply Hadds. by left. }
    assert (Hnot : ∀ t' e, t ≤ t' < m → ¬ processed_in a e t')
      by (intros t' e Ht' Hp; apply (Hno t' e Ht'), Hadds; by left).
    split_and!; [|done| |done|done].
    + destruct (ok_cover _ Hok t) as [[e Hp]|Hs]; [lia| |done]. by destruct (Hnot t e); [lia|].
    + exists em. apply Hadds in Hm as [Hm|[_ ->]]; [done|lia].
  - left. split; [done|]. destruct Hw as [_ [[e [Hp|[_ ->]]%Hadds]|Hgt]]; [by exists e|lia|].
    rewrite (proj2 next_last) in Hgt. lia.
Qed.

(** The last tick is there before its interval: as if that were there, since
    a tick behind every interval is let through. *)
Lemma verdict_ahead l t : n = last_number a + 1 → interval_list a l → 1 ≤ t →
  verdict a' t (check_outcome (Some next) l t).
Proof.
  intros Hadj Hl Ht. pose proof (WasSkipped_answer a l Hok Hl t Ht) as Hw.
  destruct next_last as [El En]. unfold check_outcome, verdict. fold n.
  destruct (bool_decide_reflect (t > n)) as [Hgt|Hle].
  { right. right. left. rewrite El, En. split; [done|]. split; [lia|done]. }
  destruct (Tick.WasSkippedByArchive t l) as [[] m].
  - destruct Hw as (Hs & Htm & [em Hm] & Hno). do 3 right. exists m.
    pose proof (ok_bounds _ Hok _ _ Hm) as Hb. split_and!; [|done| | |done].
    + destruct (ok_cover _ Hok' t) as [[e Hp]|?]; [rewrite En; lia| |done].
      apply Hadds in Hp as [Hp|[_ ->]]; [by destruct (ok_exclusive _ Hok e t)|lia].
    + exists em. apply Hadds. by left.
    + intros t' e Ht' [Hp|[_ ->]]%Hadds; [by apply (Hno t' e)|lia].
  - left. split; [done|]. destruct Hw as [_ [[e Hp]|Hgt]].
    + exists e. apply Hadds. by left.
    + exists (pb.ProcessedTick_Epoch next). apply Hadds. right. split; [done|lia].
Qed.

(** In the middle of a status update the database shows the archive before it
    as long as the last tick is that one's, and the archive after it from then
    on. *)
Lemma midway_shows db b : healthy db → represents (contents db) b → midway a last next b →
  (ar_last b = ar_last a ∧ shows db a) ∨ (ar_last b = Some next ∧ shows db a').
Proof.
  intros Hh Hrep Hmid. destruct next_last as [El En].
  assert (Hsmall : ∀ e, is_Some (ar_intervals b !! e) → 0 ≤ e < 0x31000000).
  { assert (Ha : ar_intervals b = ar_intervals a ∨ ar_intervals b = ar_intervals a')
      by (destruct Hmid as [[_ [?|[_ ?]]]|[_ [?|[_ ?]]]]; auto).
    intros e. destruct Ha as [-> | ->]; [by apply archive_ok_small|by apply (archive_ok_small a')]. }
  assert (Hshow : ∀ c, ar_last b = ar_last c → archive_ok c →
    (∀ l t, interval_list b l → 1 ≤ t → verdict c t (check_outcome (ar_last b) l t)) → shows db c).
  { intros c Hc Hokc Hv. split; [done|done| |].
    - rewrite (last_processed_represents db b) by done. by rewrite Hc.
    - intros t Ht. destruct (check_represents db b t Hh Hrep Hsmall) as (l & Hl & E).
      eexists. split; [exact E|]. by apply Hv. }
  unfold midway in Hmid. fold a' in Hmid. rewrite Hlast in Hmid. fold n in Hmid.
  destruct Hmid as [[Hb Hi]|[Hb Hi]]; [left|right]; (split; [done|]).
  - apply Hshow; [done|done|]. intros l t Hl Ht. rewrite Hb.
    destruct Hi as [Hi|[_ Hi]]; apply (interval_list_same _ _ _ Hi) in Hl.
    + by apply check_outcome_verdict.
    + by apply verdict_appended.
  - apply Hshow; [by rewrite Hb|done|]. intros l t Hl Ht. rewrite Hb.
    destruct Hi as [Hi|[Hadj Hi]]; apply (interval_list_same _ _ _ Hi) in Hl.
    + rewrite <-El. by apply check_outcome_verdict.
    + apply verdict_ahead; [lia|done|done].
Qed.
End Midway.
End Shown.
