(* ===== verification/Votes.v ===== *)
(** * Stored votes and stored computor lists match

    A node's computor list has one key for each computor of the network, and
    none of them is zero.  As long as nodes report such lists, every stored
    list has as many identities as the network has computors, and every stored
    vote carries the index of one of them.  That is the one condition under
    which no request makes the server panic, so it holds after every run. *)

From stdpp Require Import sorting base strings numbers pretty gmap list.
From S2P Require Import Prelude GoLib Types Platform Keys Store StoreLogic Frame Success Utils.
From S2P Require Import Typed Reads Cut Restarts QuorumProofs ValidatorProofs Middleware Rpc Service ServiceProofs.
From S2P Require Computors Quorum Tick Tx TxStatus Chain Validator Processor ProcessorProofs Complete Main.

Local Open Scope Z_scope.

Section Votes.
Context {P : Pebble} {PL : PebbleLaws P} {PR : Protobuf} {PRL : ProtobufLaws PR}.
Context {R : GoRuntime} {RL : GoRuntimeLaws R} {K : K12} {KL : K12Laws K}.
Context {N : NodeConnector} {NL : NodeConnectorLaws N}.
Implicit Types m : gmap bytes bytes.

(** ** The invariant *)

(** One key for each computor. *)
Definition full (keys : list bytes) : Prop :=
  length keys = NumberOfComputors ∧ Forall Computors.is_key keys.

Definition full_list (c : pb.Computors) : Prop :=
  ∃ keys, full keys ∧ Forall2 Computors.identity_of keys (pb.Computors_Identities c).

Definition votes_known (q : pb.QuorumTickDataStored) : Prop := ∀ id,
  is_Some (pb.QuorumTickDataStored_QuorumDiffPerComputor q !! id) →
  0 ≤ id < Z.of_nat NumberOfComputors.

Definition good_entry (k v : bytes) : Prop :=
  (∀ n q, k = quorumTickDataKey n → Unmarshal v = Ok q → votes_known q) ∧
  (∀ e c, k = computorsKey e → Unmarshal v = Ok c → full_list c).

Definition good_contents m : Prop := map_Forall good_entry m.

Lemma good_votes_match m : good_contents m → votes_match m.
Proof.
  intros Hm n q c id (b & Hb & Eq) (bc & Hbc & Ec) Hid.
  destruct (proj2 (Hm _ _ Hbc) _ _ eq_refl Ec) as (keys & [Hlen _] & Hids).
  rewrite <-(Forall2_length _ _ _ Hids), Hlen.
  exact (proj1 (Hm _ _ Hb) _ _ eq_refl Eq id Hid).
Qed.

(** ** Writes that keep it *)
Definition good_write (k : bytes) (o : option bytes) : Prop :=
  match o with Some v => good_entry k v | None => True end.

(** What is true of the result, and the invariant afterwards. *)
Definition good {A} (c : M DB A) (Q : A → Prop) : Prop := ∀ db, good_contents (contents db) →
  good_contents (contents (c db).2) ∧ ∀ a, (c db).1 = Ok a → Q a.

Lemma good_bind {A B} (c : M DB A) (k : A → M DB B) Q S :
  good c Q → (∀ a, Q a → good (k a) S) → good (c ≫= k) S.
Proof.
  intros Hc Hk db Hm. destruct (Hc db Hm) as [Hm1 Ha]. unfold mbind, M_bind.
  destruct (c db) as [[a|e|] db1]; simpl in *; [by apply Hk; [apply Ha|]|by split..].
Qed.

Lemma good_lift {A} (o : outcome A) (Q : A → Prop) : (∀ a, o = Ok a → Q a) → good (lift o) Q.
Proof. by intros HQ db Hm. Qed.

Lemma good_lift_wrap {A} msg (o : outcome A) (Q : A → Prop) :
  (∀ a, o = Ok a → Q a) → good (lift (wrap msg o)) Q.
Proof. intros HQ. apply good_lift. by intros a ?%wrap_Ok%HQ. Qed.

Lemma good_wrap {A} msg (c : M DB A) Q : good c Q → good (mwrap msg c) Q.
Proof.
  intros Hc db Hm. destruct (Hc db Hm) as [Hm1 Ha]. rewrite ProcessorProofs.mwrap_run.
  split; [done|]. simpl. intros a. destruct (c db) as [[b|e|] db1]; simpl in *; naive_solver.
Qed.

Lemma good_writes {A} (c : M DB A) : writes_only good_write c → good c (λ _, True).
Proof.
  intros Hc db Hm. split; [|done]. destruct (Hc db) as (_ & Hw & _). intros k v Hk.
  destruct (Hw k) as [E|H]; [apply Hm; congruence|]. by rewrite Hk in H.
Qed.

(** Writes to other kinds of keys. *)
Lemma good_elsewhere {A} (c : M DB A) keys kinds : writes_only (on (own_keys keys kinds)) c →
  (∀ k, key_kind k = Some QuorumData ∨ key_kind k = Some ComputorList → ¬ own_keys keys kinds k) →
  good c (λ _, True).
Proof.
  intros Hc Hk. apply good_writes. eapply frame_consequence; [exact Hc| |done].
  intros k [v|] Hown; [|done]. simpl. split; intros ? ? ->; destruct (λ Hkk, Hk _ Hkk Hown); auto.
Qed.

(** ** The parts of a pass *)
Lemma pubKeysToIdentities_full comps p : full (types.Computors_PubKeys comps) →
  Computors.qubicToProto comps = Ok p → full_list p.
Proof.
  intros [Hlen Hk] (ids & Hids%wrap_Ok & [= <-])%bind_Ok.
  exists (types.Computors_PubKeys comps). split; [done|]. simpl.
  destruct (Computors.keys_identities _ Hk) as [ids' Hids'].
  pose proof (Computors.pubKeysToIdentities_app _ ids' 0 [] Hk Hids') as E.
  simpl in E. rewrite app_nil_r in E. unfold Computors.pubKeysToIdentities in Hids.
  by assert (ids = ids') as -> by congruence.
Qed.

Lemma protoToQubic_full p comps : full_list p → Computors.protoToQubic p = Ok comps →
  full (types.Computors_PubKeys comps).
Proof.
  intros (keys & [Hlen Hk] & Hids) (pks & Hpks%wrap_Ok & (sig & _ & [= <-])%bind_Ok)%bind_Ok. simpl.
  pose proof (Computors.identitiesToPubKeys_fill keys _ [] 0 Hids) as E.
  rewrite Nat.add_0_r, Hlen, app_nil_r in E. simpl in E.
  unfold Computors.identitiesToPubKeys in Hpks. change (imap pair ?l) with (imap (λ i, pair i) l) in Hpks.
  by assert (pks = keys) as -> by congruence.
Qed.

Lemma good_Computors_Store e comps : full (types.Computors_PubKeys comps) →
  good (Computors.Store e comps) (λ _, True).
Proof.
  intros Hf. unfold Computors.Store. eapply good_bind; [by apply good_lift_wrap with (Q := λ p, full_list p);
    intros p; apply pubKeysToIdentities_full|]. intros p Hp. apply good_wrap, good_writes.
  unfold SetComputors. frame_steps. simpl. split.
  - intros n q Hk. symmetry in Hk. exfalso. revert Hk. key_ne.
  - intros e' c _ Hc. erewrite Marshal_Unmarshal in Hc by eassumption.
    rewrite Computors_norm in Hc. by injection Hc as <-.
Qed.

(** A node's list has a key for each computor. *)
Definition full_computors (client : Client) : Prop := ∀ comps,
  Client_GetComputors client = Ok comps → full (types.Computors_PubKeys comps).

(** From the store or from the node, the list is full. *)
Lemma good_get_computors client e : full_computors client →
  good (Validator.get_computors client e) (λ comps, full (types.Computors_PubKeys comps)).
Proof.
  intros Hc. unfold Validator.get_computors.
  eapply good_bind with (Q := λ r, ∀ comps, r = inl comps → full (types.Computors_PubKeys comps)).
  - intros db Hm. split.
    { refine (proj1 (good_elsewhere _ [] [] _ _ db Hm)).
      - unfold Computors.Get, Store.GetComputors. frame_steps.
      - intros k _ [H|(? & _ & H)]; by apply elem_of_nil in H. }
    intros r E comps ->. destruct (mattempt (Computors.Get e) db) as [o db'] eqn:Er. simpl in E. subst o.
    apply attempt_success in Er as [(? & [= <-] & E)|(? & [=] & _)].
    unfold Computors.Get in E. apply mbind_M_Ok in E as (p & db1 & Ep%wrap_success & [Eq%wrap_Ok _]%lift_success).
    unfold Store.GetComputors in Ep. apply getter_success in Ep as [-> (b & Hb & Eb)].
    eapply protoToQubic_full; [|exact Eq]. exact (proj2 (Hm _ _ Hb) _ _ eq_refl Eb).
  - intros [comps|err] Hr; [apply good_lift; intros ? [= <-]; by apply Hr|].
    destruct (negb _); [by apply good_lift|]. by apply good_lift_wrap.
Qed.

Lemma loop_known f comps target votes acc acc' :
  foldO (Quorum.quorumTickSigVerify_step f comps target) acc votes = Ok acc' →
  Forall (index_known comps) votes.
Proof.
  revert acc. induction votes as [|v votes IH]; intros acc; [by constructor|]. cbn [foldO].
  intros (acc1 & E1 & E)%bind_Ok. constructor; [|by eapply IH].
  assert (Decision (index_known comps v)) as [?|Hn] by (unfold index_known; apply _); [done|].
  by rewrite (step_unknown f comps target acc v Hn) in E1.
Qed.

(** Votes that validation returns carry indices of the list. *)
Lemma Validate_known f votes comps target aligned :
  Quorum.Validate f votes comps target = Ok aligned → Forall (index_known comps) aligned.
Proof.
  unfold Quorum.Validate. case_bool_decide; [done|]. intros (al & _ & E)%bind_Ok.
  case_bool_decide; [done|]. apply bind_Ok in E as ([] & E%wrap_Ok & [= <-]).
  unfold Quorum.quorumTickSigVerify in E. apply bind_Ok in E as (acc & E & _). by eapply loop_known.
Qed.

Definition known_votes (votes : list types.QuorumTickVote) : Prop :=
  Forall (λ v, 0 ≤ types.QuorumTickVote_ComputorIndex v < Z.of_nat NumberOfComputors) votes.

Lemma good_check client arb n d : full_computors client →
  good (Validator.check client arb n d) (λ c, known_votes (Validator.checked_votes c)).
Proof.
  intros Hc. unfold Validator.check.
  eapply good_bind; [by apply good_lift_wrap with (Q := λ _, True)|]. intros votes _.
  case_bool_decide; [by apply good_lift|].
  eapply good_bind; [by apply good_lift with (Q := λ _, True)|]. intros first _.
  eapply good_bind; [by apply good_get_computors|]. intros comps Hf.
  eapply good_bind; [by apply good_lift_wrap with (Q := λ _, True)|]. intros _ _.
  eapply good_bind; [by apply good_wrap, good_Computors_Store|]. intros _ _.
  eapply good_bind.
  { apply (good_elsewhere _ [] [TargetTickVoteSignature]).
    - unfold Validator.get_targetTickVoteSignature, GetTargetTickVoteSignature,
        SetTargetTickVoteSignature. frame_steps; own_key.
    - intros k [Hk|Hk]; (eapply not_own_keys; [exact Hk|done|key_other Hk]). }
  intros target _.
  eapply good_bind with (Q := known_votes).
  { apply good_lift_wrap. intros aligned Ha%Validate_known. unfold known_votes.
    eapply Forall_impl; [exact Ha|]. intros v. unfold index_known. by rewrite (proj1 Hf). }
  intros aligned Ha. eapply good_bind with (Q := λ _, True); [|intros [[td txs] st] _; by apply good_lift; intros ? [= <-]].
  case_bool_decide; by apply good_lift.
Qed.

Lemma qubicToProtoStored_known votes q : known_votes votes →
  Quorum.qubicToProtoStored votes = Ok q → votes_known q.
Proof.
  intros Hv (first & _ & [= <-])%bind_Ok id. simpl. rewrite proto_by_index, lookup_fmap.
  intros [x Hx]. destruct (votes_by_index votes !! id) as [v|] eqn:E; [|done].
  apply votes_by_index_Some in E as [Hin <-]. unfold known_votes in Hv. rewrite Forall_forall in Hv.
  by apply Hv.
Qed.

(** A step that writes other kinds of keys. *)
Ltac elsewhere located :=
  eapply good_elsewhere;
    [located|intros k [Hk|Hk]; (eapply not_own_keys; [exact Hk|done|key_other Hk])].

Lemma good_Quorum_Store n votes : known_votes votes → good (Quorum.Store n votes) (λ _, True).
Proof.
  intros Hv. unfold Quorum.Store.
  eapply good_bind with (Q := votes_known);
    [by apply good_lift; intros q; apply qubicToProtoStored_known|]. intros q Hq.
  eapply good_bind.
  { apply good_wrap, good_writes. unfold SetQuorumTickData. frame_steps. simpl. split.
    - intros n' q' _ Hq'. erewrite Marshal_Unmarshal in Hq' by eassumption.
      rewrite QuorumTickDataStored_norm in Hq'. by injection Hq' as <-.
    - intros e c Hk. exfalso. revert Hk. key_ne. }
  intros _ _. eapply good_bind; [by apply good_lift with (Q := λ _, True)|]. intros full' _.
  apply good_wrap. elsewhere ltac:(apply writes_SetQuorumDataForCurrentEpochInterval).
Qed.

Lemma good_store_tick i n c : known_votes (Validator.checked_votes c) →
  good (Validator.store_tick i n c) (λ _, True).
Proof.
  intros Hv. unfold Validator.store_tick.
  eapply good_bind; [by apply good_wrap, good_Quorum_Store|]. intros _ _.
  eapply good_bind; [apply good_wrap; elsewhere ltac:(apply writes_Tick_Store)|]. intros _ _.
  eapply good_bind; [apply good_wrap; elsewhere ltac:(apply writes_Tx_Store)|]. intros _ _.
  eapply good_bind; [apply good_wrap; elsewhere ltac:(apply writes_TxStatus_Store)|]. intros _ _.
  eapply good_bind; [by apply good_lift with (Q := λ _, True)|]. intros first _.
  eapply good_bind; [apply good_wrap; elsewhere ltac:(apply writes_ComputeAndSave)|]. intros _ _.
  eapply good_bind; [apply good_wrap; elsewhere ltac:(apply writes_ComputeStoreAndSave)|]. intros _ _.
  eapply good_bind; [by apply good_lift with (Q := λ _, True)|]. intros [] _; [|by apply good_lift].
  elsewhere ltac:(apply writes_record_empty_tick).
Qed.

Lemma good_process_with arb dis client : full_computors client →
  good (Processor.process_with arb dis client) (λ _, True).
Proof.
  intros Hc. unfold Processor.process_with.
  eapply good_bind; [by apply good_lift with (Q := λ _, True)|]. intros info _.
  eapply good_bind.
  { apply good_wrap. apply (good_elsewhere _ [] []).
    - unfold Processor.getLastProcessedTick, GetLastProcessedTick. frame_steps.
    - intros k _ [H|(? & _ & H)]; by apply elem_of_nil in H. }
  intros last _. eapply good_bind; [by apply good_lift with (Q := λ _, True)|]. intros next _.
  case_bool_decide; [by apply good_lift|].
  eapply good_bind; [apply good_wrap|intros _ _; apply good_wrap;
    elsewhere ltac:(apply Complete.writes_processStatus)].
  unfold Validator.ValidateTick. eapply good_bind; [by apply good_check|].
  intros c Hv. by apply good_store_tick.
Qed.

Lemma good_run arb dis passes db : (∀ client, Ok client ∈ passes → full_computors client) →
  good_contents (contents db) → good_contents (contents (Processor.run arb dis passes db)).
Proof.
  revert db. induction passes as [|get passes IH]; intros db Hc Hm; [done|].
  assert (Hc' : ∀ client, Ok client ∈ passes → full_computors client)
    by (intros; apply Hc; by right).
  destruct get as [client|e|]; simpl; [|by apply IH|done].
  destruct (good_process_with arb dis client (Hc client ltac:(by left)) db Hm) as [Hm' _].
  destruct (Processor.process_with arb dis client db) as [[u|e|] db']; simpl in *; [by apply IH..|done].
Qed.

Lemma good_prepare reset : good (Tick.prepare_empty_ticks reset) (λ _, True).
Proof. elsewhere ltac:(apply writes_prepare_empty_ticks). Qed.

Lemma good_processStatus last next : good (Processor.processStatus last next) (λ _, True).
Proof. elsewhere ltac:(apply Complete.writes_processStatus). Qed.

Lemma good_ValidateTick client arb i n d : full_computors client →
  good (Validator.ValidateTick client arb i n d) (λ _, True).
Proof.
  intros Hc. unfold Validator.ValidateTick. eapply good_bind; [by apply good_check|].
  intros c Hv. by apply good_store_tick.
Qed.

Lemma good_run_main cfg pool db :
  (∀ client, Ok client ∈ match pool with Ok passes => passes | _ => [] end → full_computors client) →
  good_contents (contents db) → good_contents (contents (Main.run_main cfg pool db).2).
Proof.
  intros Hc Hm. unfold Main.run_main, mbind at 1, M_bind at 1.
  destruct (good_prepare (Main.cfg_ResetEmptyTickKeys cfg) db Hm) as [Hm' _].
  destruct (Tick.prepare_empty_ticks _ db) as [[u|e|] db1]; simpl in Hm'; [|done..].
  destruct pool as [passes|e|]; simpl; [|done..].
  destruct (Identity_ToPubKey _ _) as [arb|e|]; simpl; [|done..]. by apply good_run.
Qed.
End Votes.

(** ** Cut short, and over any lives *)
Section Lives.
Context {P : Pebble} {PL : PebbleLaws P} {PR : Protobuf} {PRL : ProtobufLaws PR}.
Context {R : GoRuntime} {RL : GoRuntimeLaws R} {K : K12} {KL : K12Laws K}.
Context {N : NodeConnector} {NL : NodeConnectorLaws N}.

(** What holds of every database holds of what a killed computation leaves. *)
Lemma good_written {A} (c : M (DB (Pebble := Cut)) A) Q n db : good (P := Cut) (PL := CutLaws) c Q →
  good_contents (contents db) → good_contents (contents (written c n db)).
Proof. intros Hc Hm. by destruct (Hc (db, n) Hm). Qed.

Lemma good_last_pass arb dis e db :
  match e with KilledStoring client _ | KilledUpdating client _ => full_computors client | _ => True end →
  good_contents (contents db) → good_contents (contents (last_pass arb dis e db)).
Proof.
  intros He Hm. destruct e as [|n|client n|client n]; [done|done|..]; simpl;
    (destruct (upcoming client db) as [[[info last] next]|err|]; [|done..]).
  - eapply good_written; [|done]. by apply (good_ValidateTick (P := Cut) (PL := CutLaws)).
  - destruct (good_ValidateTick client arb (types.TickInfo_InitialTick info)
      (pb.ProcessedTick_TickNumber next) dis He db Hm) as [Hm' _].
    destruct (Validator.ValidateTick _ _ _ _ _ db) as [[u|err|] db']; [|done..].
    eapply good_written; [|done]. apply (good_processStatus (P := Cut) (PL := CutLaws)).
Qed.

Lemma good_live l db : (∀ client, Ok client ∈ life_passes l → full_computors client) →
  good_contents (contents db) → good_contents (contents (live db l)).
Proof.
  intros Hc Hm. destruct l as [cfg pool e]. unfold live. cbn [life_config life_pool life_ending].
  assert (Hrun : good_contents (contents (let '(o, db) := Main.run_main cfg pool db in
      match o, Identity_ToPubKey (Main.cfg_ArbitratorIdentity cfg) false with
      | Ok _, Ok arb => last_pass arb (Main.cfg_DisableTransactionStatusAddon cfg) e db
      | _, _ => db
      end))).
  { pose proof (good_run_main cfg pool db) as Hr.
    destruct (Main.run_main cfg pool db) as [o db']. simpl in Hr.
    assert (Hm' : good_contents (contents db')).
    { apply Hr; [|done]. intros client Hin. apply Hc, elem_of_app. by left. }
    destruct o as [u|err|]; [|done..]. destruct (Identity_ToPubKey _ _); [|done..].
    apply good_last_pass; [|done].
    destruct e; try done; apply Hc, elem_of_app; right; by left. }
  destruct e as [|n|client n|client n]; [exact Hrun| |exact Hrun..].
  eapply good_written; [|done]. apply (good_prepare (P := Cut) (PL := CutLaws)).
Qed.

Lemma good_lives lives db : (∀ client, Ok client ∈ lives ≫= life_passes → full_computors client) →
  good_contents (contents db) → good_contents (contents (run_lives lives db)).
Proof.
  intros Hc. revert db. induction lives as [|l lives IH]; intros db Hm; [done|].
  apply IH; [|apply good_live; [|done]]; intros client Hin; apply Hc; simpl; apply elem_of_app; auto.
Qed.

(** *** Health and types *)
Lemma healthy_typed_written {A} (c : M DB A) (c' : M (DB (Pebble := Cut)) A) n db : agrees c c' →
  writes_only (P := Cut) (PL := CutLaws) typed_write c' →
  healthy db ∧ well_typed (contents db) → healthy (written c' n db) ∧ well_typed (contents (written c' n db)).
Proof.
  intros Hag Hc [Hh Ht]. split.
  - destruct (Hag db) as (cost & [_ _ _ Hn]). by apply Hn.
  - exact (typed_writes_preserve (P := Cut) (PL := CutLaws) c' (db, n) Hc Ht).
Qed.

Lemma healthy_typed_after {A} (c : M DB A) db : writes_only typed_write c →
  healthy db ∧ well_typed (contents db) → healthy (c db).2 ∧ well_typed (contents (c db).2).
Proof.
  intros Hc [Hh Ht]. split; [by apply (Hc db)|by apply typed_writes_preserve].
Qed.

Lemma healthy_typed_live l db : healthy db ∧ well_typed (contents db) →
  healthy (live db l) ∧ well_typed (contents (live db l)).
Proof.
  intros Hd. destruct l as [cfg pool e]. unfold live. cbn [life_config life_pool life_ending].
  pose proof (healthy_typed_after _ db (typed_run_main cfg pool) Hd) as Hr.
  assert (Hrun : ∀ e, let d := (let '(o, db) := Main.run_main cfg pool db in
      match o, Identity_ToPubKey (Main.cfg_ArbitratorIdentity cfg) false with
      | Ok _, Ok arb => last_pass arb (Main.cfg_DisableTransactionStatusAddon cfg) e db
      | _, _ => db
      end) in healthy d ∧ well_typed (contents d)).
  { clear e. intros e. destruct (Main.run_main cfg pool db) as [[u|err|] db1]; [|done..].
    simpl in Hr. destruct (Identity_ToPubKey _ _) as [arb|err|]; [|done..].
    destruct e as [|n|client n|client n]; [done|done|..]; simpl;
      (destruct (upcoming client db1) as [[[info last] next]|err|]; [|done..]).
    - eapply healthy_typed_written; [apply agrees_ValidateTick| |done].
      apply (typed_ValidateTick (P := Cut) (PL := CutLaws)).
    - match goal with |- context[Validator.ValidateTick ?q ?a ?i ?t ?d db1] =>
        pose proof (healthy_typed_after _ db1 (typed_ValidateTick q a i t d) Hr) as Hv;
        destruct (Validator.ValidateTick q a i t d db1) as [[v|err|] db2] end; [|done..].
      eapply healthy_typed_written; [apply agrees_processStatus| |done].
      apply (typed_processStatus (P := Cut) (PL := CutLaws)). }
  destruct e as [|n|client n|client n]; [apply (Hrun BetweenPasses)| |apply Hrun..].
  eapply healthy_typed_written; [apply agrees_prepare_empty_ticks| |done].
  apply (typed_prepare_empty_ticks (P := Cut) (PL := CutLaws)).
Qed.
End Lives.

(** ** The service after any lives *)
Section Robust.
Context {P : Pebble} {PL : PebbleLaws P} {PR : Protobuf} {PRL : ProtobufLaws PR}.
Context {R : GoRuntime} {RL : GoRuntimeLaws R} {K : K12} {KL : K12Laws K}.
Context {N : NodeConnector} {NL : NodeConnectorLaws N}.
Context {G : GrpcStatus} {H : HttpClient} {L : LibraryReturns N H}.

Lemma never_panics srv fuel c db : healthy db → well_typed (contents db) →
  good_contents (contents db) → (serve srv fuel c db).1 ≠ Panic.
Proof. intros Hh Ht Hg. apply (serve_never_panics srv fuel); [done|done|]. by apply good_votes_match. Qed.

Lemma run_never_panics srv fuel c arb dis passes db : healthy db → contents db = ∅ →
  (∀ client, Ok client ∈ passes → full_computors client) →
  (serve srv fuel c (Processor.run arb dis passes db)).1 ≠ Panic.
Proof.
  intros Hh He Hc. assert (Hty : well_typed (contents db)) by (rewrite He; apply map_Forall_empty).
  apply never_panics.
  - destruct (typed_start_processor arb (Main.MkConfig dis "" false) passes db) as (Hh' & _). by apply Hh'.
  - by apply run_typed.
  - apply good_run; [done|]. rewrite He. apply map_Forall_empty.
Qed.

Lemma lives_healthy_typed lives db : healthy db ∧ well_typed (contents db) →
  healthy (run_lives lives db) ∧ well_typed (contents (run_lives lives db)).
Proof.
  revert db. induction lives as [|l lives IH]; intros db Hd; [done|]. by apply IH, healthy_typed_live.
Qed.

(** C27: Whatever lives the archiver has had on a database that was empty at
    first and does not fail, each ending between two passes or killed after any number
    of the writes of its start-up, of the storing of a tick or of a status update, and
    whatever the nodes answered, as long as the computor lists they reported have a
    non-zero key for each computor: no request makes the server panic, whatever its
    parameters. *)
Theorem lives_never_panic srv fuel c lives db : healthy db → contents db = ∅ →
  (∀ client, Ok client ∈ lives ≫= life_passes → full_computors client) →
  (serve srv fuel c (run_lives lives db)).1 ≠ Panic.
Proof.
  intros Hh He Hc. assert (Hty : well_typed (contents db)) by (rewrite He; apply map_Forall_empty).
  destruct (lives_healthy_typed lives db (conj Hh Hty)) as [Hh' Hty'].
  apply never_panics; [done|done|]. apply good_lives; [done|]. rewrite He. apply map_Forall_empty.
Qed.
End Robust.
