(* ===== verification/Served.v ===== *)
(** * From the nodes to the answers

    The composition of the parts: the processor fills the database, and the
    service answers from it.  After any run, a request about a processed tick
    is answered from the tick's record, and a request about any other tick is
    refused. *)

From stdpp Require Import sorting base strings numbers pretty gmap list.
From S2P Require Import Prelude GoLib Types Platform Keys Store StoreLogic Utils.
From S2P Require Import Archive Progress Typed Reads Archived Complete Middleware Rpc RpcProofs.
From S2P Require Import ProcessorProofs Liveness Restarts Service ServiceProofs.
From S2P Require Tick Main Processor.

Local Open Scope Z_scope.

Section Served.
Context {P : Pebble} {PL : PebbleLaws P} {PR : Protobuf} {PRL : ProtobufLaws PR}.
Context {R : GoRuntime} {K : K12} {KL : K12Laws K} {N : NodeConnector} {TL : TransactionLaws N}.
Context {G : GrpcStatus} {GL : GrpcStatusLaws G} {H : HttpClient}.
Variables (srv : Server) (fuel : nat).

(** The answers about tick [t]: its data, its transactions in the order of its
    identifiers, those of them that transfer something, its approved
    transactions in the order of their statuses, its chain digest and its
    store digest. *)
Record answered (db : DB) (t : Z) : Prop := {
  answered_data : ∃ td, stored (contents db) (tickDataKey t) td ∧
    serve srv fuel (CallGetTickData t) db =
      (Ok (if proto_Equal td pb.emptyTickData then None else Some td), db) ∧
    ∃ txs, serve srv fuel (CallGetTickTransactions t) db = (Ok txs, db) ∧
      pb.Transaction_TxId <$> txs = pb.TickData_TransactionIds td ∧
    serve srv fuel (CallGetTickTransferTransactions t) db =
      (Ok (filter (λ tx, 0 < pb.Transaction_Amount tx) txs), db);
  answered_approved : ∃ tts txs, stored (contents db) (tickTxStatusKey (uint64 t)) tts ∧
    pb.Transaction_TxId <$> txs = pb.TransactionStatus_TxId <$>
      filter pb.TransactionStatus_MoneyFlew (pb.TickTransactionsStatus_Transactions tts) ∧
    (Forall decodable txs → serve srv fuel (CallGetTickApprovedTransactions t) db =
       (Ok (filter paid txs), db));
  answered_chain : ∃ d, contents db !! chainDigestKey t = Some d ∧ is_array 32 d ∧
    serve srv fuel (CallGetChainHash t) db = (Ok (hex_EncodeToString d), db) ∧
    serve srv fuel (CallGetTickChainHashV2 t) db = (Ok (hex_EncodeToString d), db);
  (** store digests begin with this tick *)
  answered_store : 13752150 ≤ t → ∃ d, contents db !! storeDigestKey t = Some d ∧ is_array 32 d ∧
    serve srv fuel (CallGetStoreHash t) db = (Ok (hex_EncodeToString d), db) ∧
    serve srv fuel (CallGetTickStoreHashV2 t) db = (Ok (hex_EncodeToString d), db)
}.

(** Every call about tick [t] is refused. *)
Definition refused (db : DB) (a : archive) (t : Z) : Prop := ∀ c, tick_of c = Some t →
  ∃ e, serve srv fuel c db = (Err (WrapError "invalid tick number" e), db) ∧ verdict a t (Err e).

Section Contents.
Context (m : gmap bytes bytes) (Htyped : well_typed m).

Lemma runs_GetTransaction_present id : is_Some (m !! ([Keys.Transaction] ++ string_bytes id)) →
  ∃ tx, runs m (Store.GetTransaction id) (Ok tx) m ∧ pb.Transaction_TxId tx = id.
Proof.
  intros [v Hv]. pose proof (Htyped _ _ Hv) as Ht. typed_inv Ht. simpl in *.
  match goal with E : string_bytes _ = string_bytes _ |- _ => apply string_bytes_inj in E; subst end.
  eexists. split; [|reflexivity]. unfold Store.GetTransaction.
  runs_step (apply (runs_lift m (Ok _))). apply runs_get_stored. by exists v.
Qed.

(** Transactions with the identifiers that are listed. *)
Definition fetched (ids : list string) (txs : list pb.Transaction) : Prop :=
  Forall2 (λ id tx, runs m (Store.GetTransaction id) (Ok tx) m ∧ pb.Transaction_TxId tx = id) ids txs.

Lemma all_fetched ids :
  (∀ id, id ∈ ids → is_Some (m !! ([Keys.Transaction] ++ string_bytes id))) → ∃ txs, fetched ids txs.
Proof.
  induction ids as [|id ids IH]; intros Hids; [by exists []; constructor|].
  destruct (runs_GetTransaction_present id) as (tx & Htx); [apply Hids; by left|].
  destruct IH as [txs Htxs]; [intros; apply Hids; by right|].
  exists (tx :: txs). by constructor.
Qed.

Lemma fetched_ids ids txs : fetched ids txs → pb.Transaction_TxId <$> txs = ids.
Proof. induction 1 as [|id tx ids txs [_ <-] _ IH]; [done|]. by rewrite fmap_cons, IH. Qed.

Lemma runs_transactions ids txs acc : fetched ids txs →
  runs m (foldM (λ txs txID,
      tx ← mmap_err (keep_not_found "getting tx for id") (Store.GetTransaction txID);
      mret (txs ++ [tx])) acc ids) (Ok (acc ++ txs)) m.
Proof.
  intros Hf. revert acc. induction Hf as [|id tx ids txs [Htx _] _ IH]; intros acc.
  { rewrite app_nil_r. apply runs_ret. }
  simpl. runs_step (runs_step (by eapply runs_map_err); apply runs_ret).
  specialize (IH (acc ++ [tx])). by rewrite <-app_assoc in IH.
Qed.

Lemma runs_transfers ids txs acc : fetched ids txs →
  runs m (foldM (λ txs txID,
      tx ← mmap_err (keep_not_found "getting tx for id") (Store.GetTransaction txID);
      if bool_decide (pb.Transaction_Amount tx ≤ 0) then mret txs else mret (txs ++ [tx])) acc ids)
    (Ok (acc ++ filter (λ tx, 0 < pb.Transaction_Amount tx) txs)) m.
Proof.
  intros Hf. revert acc. induction Hf as [|id tx ids txs [Htx _] _ IH]; intros acc.
  { rewrite app_nil_r. apply runs_ret. }
  simpl. destruct (bool_decide_reflect (pb.Transaction_Amount tx ≤ 0)) as [Hle|Hgt].
  - runs_step (runs_step (by eapply runs_map_err); rewrite bool_decide_true by done; apply runs_ret).
    rewrite filter_cons_False by lia. apply IH.
  - runs_step (runs_step (by eapply runs_map_err); rewrite bool_decide_false by done; apply runs_ret).
    rewrite filter_cons_True by lia. specialize (IH (acc ++ [tx])). by rewrite <-app_assoc in IH.
Qed.

(** The tick data first, then the transactions. *)
Lemma runs_GetTickTransactions t td txs : stored m (tickDataKey t) td →
  fetched (pb.TickData_TransactionIds td) txs →
  runs m (Store.GetTickTransactions t) (Ok txs) m ∧
  runs m (Store.GetTickTransferTransactions t)
    (Ok (filter (λ tx, 0 < pb.Transaction_Amount tx) txs)) m.
Proof.
  intros Htd Hf. split.
  - unfold Store.GetTickTransactions.
    runs_step (eapply runs_map_err; [by apply runs_get_stored|done]). exact (runs_transactions _ _ [] Hf).
  - unfold Store.GetTickTransferTransactions.
    runs_step (eapply runs_map_err; [by apply runs_get_stored|done]). exact (runs_transfers _ _ [] Hf).
Qed.

Lemma copy_of_same tx : copy_of tx = tx.
Proof. by destruct tx. Qed.

Lemma runs_approved sts txs acc :
  fetched (pb.TransactionStatus_TxId <$> filter pb.TransactionStatus_MoneyFlew sts) txs →
  Forall decodable txs →
  runs m (foldM approved_step acc sts) (Ok (acc ++ filter paid txs)) m.
Proof.
  revert txs acc. induction sts as [|st sts IH]; intros txs acc Hf Hd.
  { inversion Hf; subst. rewrite app_nil_r. apply runs_ret. }
  simpl. destruct (pb.TransactionStatus_MoneyFlew st) eqn:Hflew.
  - rewrite filter_cons_True, fmap_cons in Hf by (by rewrite Hflew).
    apply Forall2_cons_inv_l in Hf as (tx & txs' & [Htx _] & Hf & ->).
    apply Forall_cons in Hd as [Hdtx Hd].
    assert (Hstep : runs m (approved_step acc st) (Ok (acc ++ filter paid [tx])) m).
    { unfold approved_step. rewrite bool_decide_false by (by rewrite Hflew).
      runs_step (runs_wrapped; exact Htx). rewrite copy_of_same. rewrite decodable_recompute in Hdtx.
      destruct (is_send_many tx) eqn:Hmany.
      - destruct (Hdtx eq_refl) as [b Hb]. rewrite Hb. runs_step (apply (runs_lift m (Ok b))).
        destruct b; [rewrite bool_decide_false by done|rewrite bool_decide_true by done].
        + rewrite filter_cons_True by (apply paid_recompute; by rewrite Hb). apply runs_ret.
        + rewrite filter_cons_False, filter_nil, app_nil_r
            by (rewrite paid_recompute, Hb, Hmany; naive_solver). apply runs_ret.
      - rewrite filter_cons_True by (apply paid_recompute; by rewrite Hmany). apply runs_ret. }
    runs_step (exact Hstep).
    specialize (IH txs' (acc ++ filter paid [tx]) Hf Hd). rewrite <-app_assoc in IH.
    change (tx :: txs') with ([tx] ++ txs'). by rewrite filter_app.
  - rewrite filter_cons_False in Hf by (rewrite Hflew; intros []).
    runs_step (unfold approved_step; rewrite Hflew, bool_decide_true by done; apply runs_ret). by apply IH.
Qed.
End Contents.

(** An outcome on the contents, read off the database itself. *)
Lemma runs_handle c db (o : outcome (response c)) m' : healthy db →
  runs (contents db) (handle srv fuel c) o m' → handle srv fuel c db = (o, db).
Proof.
  intros Hh Hr. destruct (Hr db Hh eq_refl) as (db' & E & _).
  pose proof (handle_reads srv fuel c db) as Hd. rewrite E in Hd. simpl in Hd. by subst.
Qed.

(** A stored digest, read and written in hexadecimal. *)
Ltac runs_hash Hd :=
  runs_step (eapply runs_map_err; [eapply runs_map_err; [by apply runs_Get_Some|done]|done]);
  apply runs_ret.

Lemma archived_answered db a t : shows db a → well_typed (contents db) →
  1 ≤ t → (∃ e, processed_in a e t) → archived (contents db) t → answered db t.
Proof.
  intros Hs Ht Ht1 Hp [(td & Htd & Hids) _ (tts & Htts & Hsts) Hc Hst]. assert (Hh : healthy db) by apply Hs.
  assert (Hserve : ∀ c o m', tick_of c = Some t → runs (contents db) (handle srv fuel c) o m' →
    serve srv fuel c db = (o, db)).
  { intros c o m' Htc Hr. destruct (serve_cases srv fuel c t db a Hs Htc Ht1) as [[_ ->]|(e & _ & Hn & _)].
    - by eapply runs_handle.
    - destruct Hp as [ep Hp]. by destruct (Hn ep). }
  split.
  - exists td. split; [done|]. split.
    + apply (Hserve (CallGetTickData t) _ (contents db) eq_refl). simpl. unfold Rpc.GetTickData.
      runs_step (eapply runs_map_err; [by apply runs_get_stored|done]). simpl.
      destruct (proto_Equal td pb.emptyTickData); apply runs_ret.
    + destruct (all_fetched _ Ht _ Hids) as [txs Hf].
      destruct (runs_GetTickTransactions _ t td txs Htd Hf) as [Hr1 Hr2].
      exists txs. split; [|split; [by eapply fetched_ids|]].
      * apply (Hserve (CallGetTickTransactions t) _ (contents db) eq_refl). by eapply runs_map_err.
      * apply (Hserve (CallGetTickTransferTransactions t) _ (contents db) eq_refl). by eapply runs_map_err.
  - destruct (all_fetched _ Ht (pb.TransactionStatus_TxId <$> filter pb.TransactionStatus_MoneyFlew
      (pb.TickTransactionsStatus_Transactions tts))) as [txs Hf].
    { intros id (st & -> & [_ Hst']%list_elem_of_filter)%list_elem_of_fmap. by apply Hsts. }
    exists tts, txs. split; [done|]. split; [by eapply fetched_ids|]. intros Hd.
    apply (Hserve (CallGetTickApprovedTransactions t) _ (contents db) eq_refl). simpl.
    unfold GetTickApprovedTransactions.
    runs_step (eapply runs_map_err; [by apply runs_get_stored|done]).
    exact (runs_approved _ _ _ [] Hf Hd).
  - destruct Hc as [d Hd]. exists d. split; [done|]. split.
    { pose proof (Ht _ _ Hd) as Hty. by typed_inv Hty. }
    assert (Hr : runs (contents db) (GetChainHash t) (Ok (hex_EncodeToString d)) (contents db)).
    { unfold GetChainHash, GetChainDigest. runs_hash Hd. }
    split; [apply (Hserve (CallGetChainHash t) _ (contents db) eq_refl Hr)|].
    apply (Hserve (CallGetTickChainHashV2 t) _ (contents db) eq_refl Hr).
  - intros Hfrom. destruct Hst as [?|[d Hd]]; [lia|]. exists d. split; [done|]. split.
    { pose proof (Ht _ _ Hd) as Hty. by typed_inv Hty. }
    assert (Hr : runs (contents db) (GetStoreHash t) (Ok (hex_EncodeToString d)) (contents db)).
    { unfold GetStoreHash, GetStoreDigest. runs_hash Hd. }
    split; [apply (Hserve (CallGetStoreHash t) _ (contents db) eq_refl Hr)|].
    apply (Hserve (CallGetTickStoreHashV2 t) _ (contents db) eq_refl Hr).
Qed.

(** Either the one or the other. *)
Lemma served_or_refused db a t : shows db a → well_typed (contents db) →
  complete (contents db) a → 1 ≤ t →
  (∃ e, processed_in a e t) ∧ answered db t ∨ (∀ e, ¬ processed_in a e t) ∧ refused db a t.
Proof.
  intros Hs Hty Hc Ht.
  destruct (serve_cases srv fuel (CallGetTickData t) t db a Hs eq_refl Ht)
    as [[Hp _]|(_ & _ & Hn & _)].
  - left. split; [done|]. destruct Hp as [e Hp]. eapply archived_answered; eauto.
  - right. split; [done|]. intros c Hct.
    destruct (serve_cases srv fuel c t db a Hs Hct Ht) as [[[e Hp] _]|(e & E & _ & Hv)].
    + by destruct (Hn e).
    + by exists e.
Qed.

(** From the nodes to the answers.  Whatever nodes the processor was
    handed, starting from an empty database that does not fail: about every
    tick of a processed interval the service answers with the stored tick data,
    with its transactions, one for each identifier and in their order, and with
    its chain and store digests; about every other tick it refuses every call, with the
    verdict that says why. *)
Lemma run_serves arb dis passes db : healthy db → contents db = ∅ → reports_consistent passes →
  (∀ client, Ok client ∈ passes → answers_wf client) →
  let db' := Processor.run arb dis passes db in
  ∃ a, represents (contents db') a ∧ archive_ok a ∧ ∀ t, 1 ≤ t →
    ((∃ e, processed_in a e t) ∧ answered db' t) ∨
    ((∀ e, ¬ processed_in a e t) ∧ refused db' a t).
Proof.
  intros Hh He Hcon Hwf db'.
  destruct (run_complete arb dis passes db Hh He Hcon Hwf) as (Hh' & a & Hrep & _ & Hok & Hc).
  fold db' in Hh', Hrep, Hc. exists a. split; [done|]. split; [done|]. intros t Ht.
  assert (Hty : well_typed (contents db')) by (apply run_typed; rewrite He; apply map_Forall_empty).
  by apply served_or_refused; [apply pebble_serves_shows|..].
Qed.

Context {RL : GoRuntimeLaws R}.

(** What start-up and the passes maintain is enough to serve. *)
Lemma serving_pebble_serves all db a : serving all db a → pebble_serves db a.
Proof. intros Hr. split; [apply Hr|]. split; apply Hr. Qed.

Lemma serving_serves all db a t : serving all db a → 1 ≤ t →
  (∃ e, processed_in a e t) ∧ answered db t ∨ (∀ e, ¬ processed_in a e t) ∧ refused db a t.
Proof.
  intros [Hh Hrep _ Hok Hty Hc _] Ht. by apply served_or_refused; [apply pebble_serves_shows|..].
Qed.

Lemma lives_served lives db : healthy db → contents db = ∅ →
  reports_consistent (lives ≫= life_passes) →
  (∀ client, Ok client ∈ lives ≫= life_passes → answers_wf client) → Forall spared lives →
  let db' := run_lives lives db in
  ∃ a, represents (contents db') a ∧ archive_ok a ∧ ∀ t, 1 ≤ t →
    ((∃ e, processed_in a e t) ∧ answered db' t) ∨
    ((∀ e, ¬ processed_in a e t) ∧ refused db' a t).
Proof.
  intros Hh He Hcon Hwf Hsp db'. destruct (run_lives_serving lives db Hh He Hcon Hwf Hsp) as [a Hr].
  exists a. split; [apply Hr|]. split; [apply Hr|]. intros t Ht. by eapply serving_serves.
Qed.

(** C3: From the nodes to the answers.  Take any lives of the archiver on a database
    that was empty at first and whose operations do not fail, each life with its own
    options, start-up and nodes, and ending between two passes, or killed after any
    number of the writes of its start-up or of the validating and storing of a tick,
    but not in the middle of a status update ([spared]).  Assume that what the nodes
    report is consistent over all the lives ([reports_consistent]: the numbers are in
    range, and a later initial tick never comes with an earlier epoch), and that the
    digests they list in a tick's data have 32 bytes ([answers_wf]).  Then the database represents a
    well-formed archive, and about every tick of a processed interval the service
    answers with the stored tick data, with its transactions, one for each identifier
    and in their order, with those of them that transfer something, with its chain
    digest of 32 bytes and, from tick 13752150 on, with its store digest of 32
    bytes; and, if the payments to many among its approved transactions decode
    ([decodable]), with the approved ones of which the amount covers the payments.
    About every other tick it refuses every call, with the verdict that says why. *)
Theorem lives_serve lives db : healthy db → contents db = ∅ →
  reports_consistent (lives ≫= life_passes) →
  (∀ client, Ok client ∈ lives ≫= life_passes → answers_wf client) → Forall spared lives →
  let db' := run_lives lives db in
  ∃ a, represents (contents db') a ∧ archive_ok a ∧ ∀ t, 1 ≤ t →
    ((∃ e, processed_in a e t) ∧ answered db' t) ∨
    ((∀ e, ¬ processed_in a e t) ∧ refused db' a t).
Proof. apply lives_served. Qed.
End Served.
