(* ===== verification/System.v ===== *)
(** * The archiver as a system of steps

    In the program the processor's goroutine and the requests' goroutines share
    the database and nothing orders them, and the process may be killed at any
    moment.  Here what start-up does with the empty ticks, what a pass does to
    validate and store its tick, and the status update at its end are broken
    into their single writes, and a request into the interceptor's check and the
    handler; a step of the system is one of these, of any of the parties, or
    the end of the process.

    The relation takes the phases in which the process may go down.  What holds
    wherever that is: the last processed tick only grows, and nothing that was
    recorded of a tick up to it is changed again. *)

From stdpp Require Import sorting base strings numbers pretty gmap list.
From S2P Require Import Prelude GoLib Types Platform Keys Store StoreLogic Frame Success Utils.
From S2P Require Import Archive Progress TickProofs Typed Reads Archived Complete Liveness Restarts Cut.
From S2P Require Import ValidatorProofs Processor ProcessorProofs.
From S2P Require Import Middleware Rpc RpcProofs Service ServiceProofs Stages Served.
From S2P Require Tick Validator.

Local Open Scope Z_scope.

(** ** The work between two decisions *)
Section Work.
Context {P : Pebble} {PR : Protobuf} {R : GoRuntime} {K : K12} {N : NodeConnector}.
Variables (arb : bytes) (dis : bool).

(** What start-up does with the empty ticks, and what a pass does with its tick;
    [last] and [next] are what the pass computed. *)
Inductive work :=
| Preparing (reset : bool)
| Validating (client : Client) (info : types.TickInfo) (last next : pb.ProcessedTick).

Definition do_work (w : work) : M DB unit :=
  match w with
  | Preparing reset => Tick.prepare_empty_ticks reset
  | Validating client info last next =>
      Validator.ValidateTick client arb (types.TickInfo_InitialTick info)
        (pb.ProcessedTick_TickNumber next) dis
  end.
End Work.

Section System.
Context {P : Pebble} {PL : PebbleLaws P} {PR : Protobuf} {PRL : ProtobufLaws PR}.
Context {R : GoRuntime} {RL : GoRuntimeLaws R} {K : K12} {KL : K12Laws K}.
Context {N : NodeConnector} {TL : TransactionLaws N}.
Context {G : GrpcStatus} {GL : GrpcStatusLaws G} {H : HttpClient}.
Variables (arb : bytes) (dis : bool) (srv : Server) (fuel : nat).
(** The clients the pool may hand out, in any order and number. *)
Variable clients : list (outcome Client).

(** ** The system *)

(** The database after [n] writes of some work on [db]. *)
Definition progress (w : work) (n : nat) (db : DB) : DB :=
  written (do_work (P := Cut) arb dis w) n db.

(** The database after [n] writes of the status update on [db]. *)
Definition updated (last next : pb.ProcessedTick) (n : nat) (db : DB) : DB :=
  written (processStatus (P := Cut) last next) n db.

Lemma agrees_do_work w : agrees (do_work arb dis w) (do_work (P := Cut) arb dis w).
Proof. destruct w; [apply agrees_prepare_empty_ticks|apply agrees_ValidateTick]. Qed.

(** No process; between passes; in the middle of some work, with the database it
    began with and the writes so far; or in the middle of the status update, in the
    same way. *)
Inductive phase :=
| Stopped
| Idle
| Working (w : work) (from : DB) (writes : nat)
| Updating (client : Client) (info : types.TickInfo) (last next : pb.ProcessedTick)
    (from : DB) (writes : nat).

(** The server is started when start-up is done with the empty ticks. *)
Definition accepting (ph : phase) : bool :=
  match ph with Stopped | Working (Preparing _) _ _ => false | _ => true end.

(** Not between two writes of a status update. *)
Definition settled (ph : phase) : Prop :=
  match ph with Updating _ _ _ _ _ (S _) => False | _ => True end.

(** The database, the pass, and the requests between check and handler. *)
Record system := MkSystem {
  sys_db : DB;
  sys_phase : phase;
  sys_pending : list call
}.

(** The tick a node is asked about: [last] and [next] are what the pass computed. *)
Record begins (client : Client) (info : types.TickInfo) (last next : pb.ProcessedTick) (db : DB) :
    Prop := {
  begins_client : Ok client ∈ clients;
  begins_info : Client_GetTickInfo client = Ok info;
  begins_last : getLastProcessedTick info db = (Ok last, db);
  begins_next : getNextProcessingTick last info = Ok next;
  begins_reached : pb.ProcessedTick_TickNumber next ≤ types.TickInfo_Tick info
}.

(** A panic ends the process, and with it the requests it was serving. *)
Definition resume {A} (o : outcome A) (db : DB) (ph : phase) (p : list call) : system :=
  match o with Panic => MkSystem db Stopped [] | _ => MkSystem db ph p end.

(** The steps; the process may go down in the phases [goes_down]. *)
Inductive sys_step (goes_down : phase → Prop) : system → system → Prop :=
| start_begins reset db :
    sys_step goes_down (MkSystem db Stopped []) (MkSystem db (Working (Preparing reset) db 0) [])
| start_ends reset from n db : do_work arb dis (Preparing reset) from = (Ok tt, db) →
    sys_step goes_down (MkSystem db (Working (Preparing reset) from n) []) (MkSystem db Idle [])
| start_fails reset from n o db : do_work arb dis (Preparing reset) from = (o, db) → o ≠ Ok tt →
    sys_step goes_down (MkSystem db (Working (Preparing reset) from n) []) (MkSystem db Stopped [])
| process_killed db ph p : goes_down ph →
    sys_step goes_down (MkSystem db ph p) (MkSystem db Stopped [])
| work_writes w from n db p :
    sys_step goes_down (MkSystem db (Working w from n) p)
      (MkSystem (progress w (S n) from) (Working w from (S n)) p)
| pass_begins client info last next db p : begins client info last next db →
    sys_step goes_down (MkSystem db Idle p)
      (MkSystem db (Working (Validating client info last next) db 0) p)
| pass_stores client info last next from n db p :
    do_work arb dis (Validating client info last next) from = (Ok tt, db) →
    sys_step goes_down (MkSystem db (Working (Validating client info last next) from n) p)
      (MkSystem db (Updating client info last next db 0) p)
| pass_stops client info last next from n o db p :
    do_work arb dis (Validating client info last next) from = (o, db) → o ≠ Ok tt →
    sys_step goes_down (MkSystem db (Working (Validating client info last next) from n) p)
      (resume o db Idle p)
| update_writes client info last next from n db p :
    sys_step goes_down (MkSystem db (Updating client info last next from n) p)
      (MkSystem (updated last next (S n) from) (Updating client info last next from (S n)) p)
| pass_ends client info last next from n o db p : processStatus last next from = (o, db) →
    sys_step goes_down (MkSystem db (Updating client info last next from n) p) (resume o db Idle p)
| request_admitted c db db' ph p : accepting ph = true → let_through c db = (Ok tt, db') →
    sys_step goes_down (MkSystem db ph p) (MkSystem db' ph (c :: p))
| request_handled c o db db' ph p1 p2 : handle srv fuel c db = (o, db') → (o = Panic → goes_down ph) →
    sys_step goes_down (MkSystem db ph (p1 ++ c :: p2)) (resume o db' ph (p1 ++ p2)).

(** What work may begin with. *)
Definition work_begins (w : work) (from : DB) : Prop :=
  match w with
  | Preparing _ => True
  | Validating client info last next => begins client info last next from
  end.

(** ** Wherever the process goes down *)

(** The number the database holds as the last processed tick's. *)
Definition last_stored (m : gmap bytes bytes) : Z :=
  match m !! lastProcessedTickKey with
  | Some v =>
      match Unmarshal (A := pb.ProcessedTick) v with
      | Ok pt => pb.ProcessedTick_TickNumber pt
      | _ => 0
      end
  | None => 0
  end.

Record sane (db : DB) : Prop := {
  sane_healthy : healthy db;
  sane_typed : well_typed (contents db);
  sane_last : 0 ≤ last_stored (contents db) < 2 ^ 32 - 1
}.

Lemma GetLastProcessedTick_stored db : healthy db → well_typed (contents db) →
  (∃ pt, GetLastProcessedTick db = (Ok pt, db) ∧
     pb.ProcessedTick_TickNumber pt = last_stored (contents db)) ∨
  (GetLastProcessedTick db = (Err ErrNotFound, db) ∧ last_stored (contents db) = 0).
Proof.
  intros Hh Ht. unfold GetLastProcessedTick, last_stored, mbind, M_bind, mmap_err, pebble_Get, lift.
  rewrite (db_Get_healthy db) by done.
  destruct (contents db !! lastProcessedTickKey) as [v|] eqn:E; simpl; [left|by right].
  pose proof (Ht _ _ E) as Hty. typed_inv Hty. destruct H0 as [pt Hpt]. exists pt. by rewrite Hpt.
Qed.

(** Numbers in range, for any of the nodes. *)
Definition reports_in_range : Prop := ∀ info, report clients info →
  0 ≤ types.TickInfo_InitialTick info < 2 ^ 32 ∧ 0 ≤ types.TickInfo_Tick info < 2 ^ 32 - 1.

(** The tick of a pass comes after the last one. *)
Lemma begins_after client info last next db : reports_in_range → sane db →
  begins client info last next db →
  pb.ProcessedTick_TickNumber last = last_stored (contents db) ∧
  last_stored (contents db) < pb.ProcessedTick_TickNumber next < 2 ^ 32 - 1.
Proof.
  intros Hrange Hs [Hin Hi Hlast Hnext Hle].
  destruct (Hrange info) as [Hinit Htick]; [by exists client|].
  assert (El : pb.ProcessedTick_TickNumber last = last_stored (contents db)).
  { revert Hlast. unfold getLastProcessedTick, mattempt, mbind, M_bind.
    destruct (GetLastProcessedTick_stored db (sane_healthy _ Hs) (sane_typed _ Hs)) as [(pt & -> & Hn)|[-> Hn]]; simpl.
    - by intros [= <-].
    - intros [= <-]. by rewrite Hn. }
  split; [done|]. pose proof (sane_last _ Hs) as Hb. unfold getNextProcessingTick in Hnext.
  rewrite El in Hnext. destruct (bool_decide_reflect (types.TickInfo_InitialTick info > last_stored (contents db)));
    injection Hnext as <-; cbn [pb.ProcessedTick_TickNumber] in *; [lia|].
  rewrite uint32_small in * by lia. lia.
Qed.

(** What work leaves as it is. *)
Section Progress.
Context (w : work) (from : DB) (Hrange : reports_in_range) (Hs : sane from) (Hb : work_begins w from).

(** It writes values of the right types, *)
Lemma typed_do_work n : well_typed (contents (progress w n from)).
Proof.
  apply (typed_writes_preserve (P := Cut) (PL := CutLaws) (do_work (P := Cut) arb dis w) (from, n));
    [|apply Hs].
  destruct w; [apply (typed_prepare_empty_ticks (P := Cut) (PL := CutLaws))
    |apply (typed_ValidateTick (P := Cut) (PL := CutLaws))].
Qed.

(** nothing of the bookkeeping, *)
Lemma bookkeeping_do_work n k x : key_kind k = Some x → bookkeeping_kind x →
  contents (progress w n from) !! k = contents from !! k.
Proof.
  intros Hk Hx. destruct w as [reset|client info last next].
  - apply (prepare_outside (P := Cut) (PL := CutLaws) reset (from, n) k x Hk).
    by destruct Hx as [->|[->|[->| ->]]].
  - apply (tick_writes_unchanged (P := Cut) (PL := CutLaws) _ (pb.ProcessedTick_TickNumber next) (from, n) k
      (writes_ValidateTick (P := Cut) (PL := CutLaws) _ _ _ _ _)).
    left. exists x. by destruct Hx as [->|[->|[->| ->]]]; set_solver.
Qed.

Lemma last_stored_do_work n : last_stored (contents (progress w n from)) = last_stored (contents from).
Proof.
  unfold last_stored. rewrite (bookkeeping_do_work n lastProcessedTickKey LastProcessedTick);
    [done|done|by left].
Qed.

Lemma progress_healthy n : healthy (progress w n from).
Proof. destruct (agrees_do_work w from) as (cost & [_ _ _ Hh]). apply Hh, Hs. Qed.

Lemma sane_do_work n : sane (progress w n from).
Proof.
  split; [apply progress_healthy|apply typed_do_work|]. rewrite last_stored_do_work. apply Hs.
Qed.

(** and no record of a tick up to the last one, *)
Lemma records_do_work n t k : 1 ≤ t ≤ last_stored (contents from) → k ∈ tick_records t →
  contents (progress w n from) !! k = contents from !! k.
Proof.
  intros Ht Hk. destruct w as [reset|client info last next].
  - exact (prepare_records (P := Cut) (PL := CutLaws) reset (from, n) t k Hk).
  - destruct (begins_after _ _ _ _ _ Hrange Hs Hb) as [_ Hn]. pose proof (sane_last _ Hs).
    apply (tick_writes_unchanged (P := Cut) (PL := CutLaws) _ (pb.ProcessedTick_TickNumber next) (from, n) k
      (writes_ValidateTick (P := Cut) (PL := CutLaws) _ _ _ _ _)).
    right. exists t. unfold is_uint32. split_and!; done || lia.
Qed.

(** wherever it is cut. *)
Lemma archived_do_work n t : 1 ≤ t ≤ last_stored (contents from) → archived (contents from) t →
  archived (contents (progress w n from)) t.
Proof.
  intros Ht. destruct w as [reset|client info last next].
  - exact (prepare_archived (P := Cut) (PL := CutLaws) reset (from, n) t).
  - destruct (begins_after _ _ _ _ _ Hrange Hs Hb) as [_ Hn]. pose proof (sane_last _ Hs).
    apply (tick_writes_archived (P := Cut) (PL := CutLaws) _ (pb.ProcessedTick_TickNumber next) (from, n) t
      (typed_ValidateTick (P := Cut) (PL := CutLaws) _ _ _ _ _)
      (writes_ValidateTick (P := Cut) (PL := CutLaws) _ _ _ _ _)); unfold is_uint32; lia.
Qed.
End Progress.

Lemma progress_begins w db : progress w 0 db = db.
Proof. destruct (agrees_do_work w db) as (cost & [_ _ H0 _]). exact H0. Qed.

Lemma updated_begins last next db : updated last next 0 db = db.
Proof. destruct (agrees_processStatus last next db) as (cost & [_ _ H0 _]). exact H0. Qed.

(** Work that nothing disturbs is the whole of it. *)
Lemma do_work_progress w from o db : do_work arb dis w from = (o, db) → ∃ n, progress w n from = db.
Proof. intros E. destruct (agrees_ends _ _ from (agrees_do_work w)) as [n Hn]. exists n. by rewrite E in Hn. Qed.

Lemma processStatus_updated last next from o db : processStatus last next from = (o, db) →
  ∃ n, updated last next n from = db.
Proof.
  intros E. destruct (agrees_ends _ _ from (agrees_processStatus last next)) as [n Hn]. exists n.
  by rewrite E in Hn.
Qed.

(** The status update keeps to the bookkeeping. *)
Section Updated.
Context (last next : pb.ProcessedTick) (from : DB) (Hs : sane from).
Context (Hnext : last_stored (contents from) < pb.ProcessedTick_TickNumber next < 2 ^ 32 - 1).

Lemma updated_later n1 n2 k : (n1 ≤ n2)%nat →
  contents (updated last next n2 from) !! k = contents (updated last next n1 from) !! k ∨
  sets_last next k (contents (updated last next n2 from) !! k).
Proof. apply steady_processStatus. Qed.

(** The last tick is the old one, and at some point the new one. *)
Lemma last_stored_updated n1 n2 : (n1 ≤ n2)%nat →
  last_stored (contents (updated last next n2 from)) = last_stored (contents (updated last next n1 from)) ∨
  last_stored (contents (updated last next n2 from)) = pb.ProcessedTick_TickNumber next.
Proof.
  intros Hn. unfold last_stored.
  destruct (updated_later n1 n2 lastProcessedTickKey Hn) as [->|[_ Hl]]; [by left|right].
  destruct (Hl eq_refl) as (b & -> & Hb). by rewrite Hb.
Qed.

Lemma records_updated n t k : k ∈ tick_records t →
  contents (updated last next n from) !! k = contents from !! k.
Proof.
  intros Hk. destruct (updated_later 0 n k) as [E|[Ho _]]; [lia|by rewrite updated_begins in E|].
  by destruct (tick_records_not_bookkeeping t k Hk).
Qed.

Lemma updated_archived n t : archived (contents from) t →
  archived (contents (updated last next n from)) t.
Proof.
  apply archived_agree; [intros k; apply records_updated|].
  intros k Hk Hs'. destruct (updated_later 0 n k) as [->|[Ho _]]; [lia|by rewrite updated_begins|].
  exfalso. revert Ho. by eapply not_own_keys; [exact Hk|done|apply not_elem_of_nil].
Qed.

Lemma sane_updated n : sane (updated last next n from).
Proof.
  split.
  - destruct (agrees_processStatus last next from) as (cost & [_ _ _ Hh]). apply Hh, Hs.
  - apply (typed_writes_preserve (P := Cut) (PL := CutLaws) (processStatus (P := Cut) last next) (from, n));
      [apply (typed_processStatus (P := Cut) (PL := CutLaws))|apply Hs].
  - pose proof (sane_last _ Hs).
    destruct (last_stored_updated 0 n) as [-> | ->]; [lia|rewrite updated_begins; lia|lia].
Qed.
End Updated.

(** Where a step leads from a sane database, and what it keeps. *)
Definition phase_sane (db : DB) (ph : phase) : Prop :=
  match ph with
  | Stopped | Idle => True
  | Working w from n => sane from ∧ work_begins w from ∧ db = progress w n from
  | Updating client info last next from n => sane from ∧
      last_stored (contents from) < pb.ProcessedTick_TickNumber next < 2 ^ 32 - 1 ∧
      db = updated last next n from
  end.

Definition sys_sane (s : system) : Prop := sane (sys_db s) ∧ phase_sane (sys_db s) (sys_phase s).

(** The last tick grows, and the records of the ticks up to it stay. *)
Definition grows (m m' : gmap bytes bytes) : Prop := last_stored m ≤ last_stored m' ∧
  ∀ t k, 1 ≤ t ≤ last_stored m → k ∈ tick_records t → m' !! k = m !! k.

Lemma grows_refl m : grows m m.
Proof. by split. Qed.

Lemma grows_trans m1 m2 m3 : grows m1 m2 → grows m2 m3 → grows m1 m3.
Proof.
  intros [H1 R1] [H2 R2]. split; [lia|]. intros t k Ht Hk. rewrite (R2 t k); [by apply (R1 t)|lia|done].
Qed.

Lemma resume_sane {A} (o : outcome A) db ph p : sane db → phase_sane db ph → sys_sane (resume o db ph p).
Proof. by destruct o. Qed.

Lemma sys_db_resume {A} (o : outcome A) db ph p : sys_db (resume o db ph p) = db.
Proof. by destruct o. Qed.

Section Anyhow.
Context (goes_down : phase → Prop) (Hrange : reports_in_range).

Lemma sane_step s s' : sys_sane s → sys_step goes_down s s' →
  sys_sane s' ∧ grows (contents (sys_db s)) (contents (sys_db s')).
Proof.
  intros [Hs Hph] Hstep. destruct Hstep as
    [reset db|reset from n db E|reset from n o db E Ho|db ph p Hdown|w from n db p
    |client info last next db p Hb|client info last next from n db p E
    |client info last next from n o db p E Ho|client info last next from n db p
    |client info last next from n o db' p E
    |c db db' ph p Hup Ea|c o db db' ph p1 p2 Eh Hdown];
    rewrite ?sys_db_resume; cbn [sys_db sys_phase phase_sane] in *.
  - split; [|apply grows_refl]. split; [done|]. cbn [sys_db sys_phase phase_sane]. by rewrite progress_begins.
  - by split; [|apply grows_refl].
  - by split; [|apply grows_refl].
  - by split; [|apply grows_refl].
  - destruct Hph as (Hf & Hb & ->). split; [by split; [apply sane_do_work|]|].
    split; [by rewrite !last_stored_do_work|]. intros t k Ht Hk.
    rewrite last_stored_do_work in Ht by done. by rewrite !(λ n, records_do_work w from Hrange Hf Hb n t k Ht Hk).
  - split; [|apply grows_refl]. split; [done|]. cbn [sys_db sys_phase phase_sane]. by rewrite progress_begins.
  - destruct Hph as (Hf & Hb & ->). split; [|apply grows_refl]. split; [done|].
    cbn [sys_db sys_phase phase_sane]. rewrite updated_begins. split; [done|]. split; [|done].
    rewrite last_stored_do_work by done. by eapply begins_after.
  - split; [by apply resume_sane|apply grows_refl].
  - destruct Hph as (Hf & Hn & ->). split; [by split; [apply sane_updated|]|].
    split; [|intros t k Ht Hk; by rewrite !(λ n, records_updated last next from n t k Hk)].
    pose proof (last_stored_updated last next from n (S n) ltac:(lia)).
    pose proof (last_stored_updated last next from 0 n ltac:(lia)) as H0'. rewrite updated_begins in H0'. lia.
  - split; [by apply resume_sane|apply grows_refl].
  - pose proof (let_through_reads c db) as Hd. rewrite Ea in Hd. simpl in Hd. subst db'.
    by split; [|apply grows_refl].
  - pose proof (handle_reads srv fuel c db) as Hd. rewrite Eh in Hd. simpl in Hd. subst db'.
    split; [by apply resume_sane|apply grows_refl].
Qed.

Lemma sane_steps s s' : sys_sane s → rtc (sys_step goes_down) s s' →
  sys_sane s' ∧ grows (contents (sys_db s)) (contents (sys_db s')).
Proof.
  intros Hs Hsteps. induction Hsteps as [s|s s1 s' Hstep _ IH]; [split; [done|apply grows_refl]|].
  destruct (sane_step s s1 Hs Hstep) as [Hs1 H1]. destruct (IH Hs1) as [Hs' H2].
  split; [done|by eapply grows_trans].
Qed.
End Anyhow.

Lemma sane_start db : healthy db → contents db = ∅ → sys_sane (MkSystem db Stopped []).
Proof.
  intros Hh He. split; [|done]. split; [done|simpl; rewrite He; apply map_Forall_empty|].
  simpl. unfold last_stored. rewrite He, lookup_empty. lia.
Qed.

(** ** A system left alone *)

(** A pass is its work and then the status update. *)
Lemma process_with_begins client info last next db : begins client info last next db →
  process_with arb dis client db =
  (_ ← mwrap "validating tick" (do_work arb dis (Validating client info last next));
   mwrap "processing status for lastTick and nextTick" (processStatus last next)) db.
Proof.
  intros [_ Hi Hlast Hnext Hle]. unfold process_with, mbind at 1, M_bind at 1, lift at 1.
  rewrite Hi. ok_step. unfold mbind at 1, M_bind at 1. rewrite mwrap_run, Hlast.
  cbn [fst snd map_err]. unfold mbind at 1, M_bind at 1, lift at 1. rewrite Hnext. ok_step.
  by rewrite bool_decide_false by lia.
Qed.

(** Undisturbed, work and passes are what they are by themselves. *)
Section Undisturbed.
Context (goes_down : phase → Prop).

Lemma undisturbed_writes w from n p :
  rtc (sys_step goes_down) (MkSystem from (Working w from 0) p) (MkSystem (progress w n from) (Working w from n) p).
Proof.
  induction n as [|n IH]; [rewrite progress_begins; apply rtc_refl|].
  eapply rtc_r; [exact IH|]. apply work_writes.
Qed.

Lemma undisturbed_updates client info last next from n p :
  rtc (sys_step goes_down) (MkSystem from (Updating client info last next from 0) p)
    (MkSystem (updated last next n from) (Updating client info last next from n) p).
Proof.
  induction n as [|n IH]; [rewrite updated_begins; apply rtc_refl|].
  eapply rtc_r; [exact IH|]. apply update_writes.
Qed.

Lemma undisturbed_work w from o db p : do_work arb dis w from = (o, db) →
  ∃ n, rtc (sys_step goes_down) (MkSystem from (Working w from 0) p) (MkSystem db (Working w from n) p).
Proof. intros E. destruct (do_work_progress _ _ _ _ E) as [n <-]. exists n. apply undisturbed_writes. Qed.

Lemma undisturbed_start reset db db' : Tick.prepare_empty_ticks reset db = (Ok tt, db') →
  rtc (sys_step goes_down) (MkSystem db Stopped []) (MkSystem db' Idle []).
Proof.
  intros E. destruct (undisturbed_work (Preparing reset) db _ _ [] E) as [n Hn].
  eapply rtc_l; [apply (start_begins _ reset)|]. eapply rtc_r; [exact Hn|]. by apply start_ends.
Qed.

Lemma undisturbed_pass client info last next db db' p : begins client info last next db →
  process_with arb dis client db = (Ok tt, db') →
  rtc (sys_step goes_down) (MkSystem db Idle p) (MkSystem db' Idle p).
Proof.
  intros Hb. rewrite (process_with_begins _ _ _ _ _ Hb).
  intros ([] & db1 & Ev%wrap_success & Es%wrap_success)%mbind_M_Ok.
  destruct (undisturbed_work _ _ _ _ p Ev) as [n Hn].
  destruct (processStatus_updated _ _ _ _ _ Es) as [m Hm].
  eapply rtc_l; [by apply pass_begins|]. etrans; [exact Hn|].
  eapply rtc_l; [by apply pass_stores|]. etrans; [apply (undisturbed_updates _ _ _ _ _ m)|].
  rewrite Hm. apply rtc_once. exact (pass_ends _ _ _ _ _ _ _ _ _ _ Es).
Qed.
End Undisturbed.
End System.
