(* ===== verification/Interleave.v ===== *)
(** * Requests while the processor writes, and kills between any two writes

    When the process does not go down between two writes of a status update, every
    state the steps of System.v reach shows a well-formed archive, also between
    these writes, and every request the interceptor let through finds the complete
    record of its tick. *)

From stdpp Require Import sorting base strings numbers pretty gmap list.
From S2P Require Import Prelude GoLib Types Platform Keys Store StoreLogic Frame Success Utils.
From S2P Require Import Archive Progress TickProofs Typed Reads Archived Complete Liveness Restarts Cut.
From S2P Require Import ValidatorProofs Processor ProcessorProofs.
From S2P Require Import Middleware Rpc RpcProofs Service ServiceProofs Stages Served System.
From S2P Require Tick Validator.

Local Open Scope Z_scope.

Section System.
Context {P : Pebble} {PL : PebbleLaws P} {PR : Protobuf} {PRL : ProtobufLaws PR}.
Context {R : GoRuntime} {RL : GoRuntimeLaws R} {K : K12} {KL : K12Laws K}.
Context {N : NodeConnector} {TL : TransactionLaws N}.
Context {G : GrpcStatus} {GL : GrpcStatusLaws G} {H : HttpClient}.
Variables (arb : bytes) (dis : bool) (srv : Server) (fuel : nat).
Variable clients : list (outcome Client).
Context (Hcon : reports_consistent clients).
Context (Hwf : ∀ client, Ok client ∈ clients → answers_wf client).

Local Abbreviation do_work := (do_work arb dis).
Local Abbreviation progress := (progress arb dis).
Local Abbreviation begins := (begins clients).
Local Abbreviation work_begins := (work_begins clients).
Local Abbreviation sys_step := (sys_step arb dis srv fuel clients).
Local Abbreviation step_settled := (sys_step settled).

Lemma consistent_in_range : reports_in_range clients.
Proof. intros info Hi. by destruct (reports_range _ Hcon info Hi) as (? & ? & _). Qed.

(** What is enough to serve: [serving] without the whole of the bookkeeping. *)
Record shown (db : DB) (a : archive) : Prop := {
  shown_shows : shows db a;
  shown_valid : archive_valid a;
  shown_typed : well_typed (contents db);
  shown_complete : complete (contents db) a;
  shown_reported : last_reported clients a
}.

Lemma serving_shown db a : serving clients db a → shown db a.
Proof.
  intros Hr. split; [|by apply Hr..]. by eapply pebble_serves_shows, serving_pebble_serves.
Qed.

Lemma shown_serving db a : shown db a → represents (contents db) a → serving clients db a.
Proof. intros [[Hh Hok _ _] Hv Ht Hc Hl] Hr. by split. Qed.

Lemma last_stored_shown db a : shown db a → last_stored (contents db) = last_number a.
Proof.
  intros [Hs _ Ht _ _]. pose proof (shows_last _ _ Hs) as El. unfold last_number.
  destruct (GetLastProcessedTick_stored db (shows_healthy _ _ Hs) Ht) as [(pt & E & <-)|[E ->]];
    rewrite E in El; destruct (ar_last a); congruence.
Qed.

Lemma shown_sane db a : shown db a → sane db.
Proof.
  intros Hs. split; [apply Hs|apply Hs|]. rewrite (last_stored_shown db a Hs).
  pose proof (shows_ok _ _ (shown_shows _ _ Hs)) as Hok.
  pose proof (last_number_nonneg a Hok). pose proof (last_number_lt a Hok). lia.
Qed.

(** A tick of the archive lies before the last one. *)
Lemma processed_stored db a e t : shown db a → processed_in a e t →
  1 ≤ t ≤ last_stored (contents db).
Proof.
  intros Hs Hp. rewrite (last_stored_shown db a Hs). by eapply (ok_bounds _ (shows_ok _ _ (shown_shows _ _ Hs))).
Qed.

Lemma serving_do_work w from a n : serving clients from a → work_begins w from →
  serving clients (progress w n from) a.
Proof.
  intros Hr Hb. pose proof (serving_shown _ _ Hr) as Hs. pose proof (shown_sane _ _ Hs) as Hsane.
  eapply serving_agree; [exact Hr|by apply progress_healthy|by eapply typed_do_work| |].
  - intros k x. by eapply bookkeeping_do_work; [apply consistent_in_range|..].
  - intros e t Hp. eapply archived_do_work; [apply consistent_in_range|done|done|by eapply processed_stored].
Qed.

(** *** The status update *)

(** What a pass that stored its tick is about to do. *)
Record stores (client : Client) (info : types.TickInfo) (last next : pb.ProcessedTick)
    (from : DB) (a : archive) : Prop := {
  stores_serving : serving clients from a;
  stores_last : pb.ProcessedTick_TickNumber last = last_number a;
  stores_valid : valid_tick next;
  stores_after : last_number a < pb.ProcessedTick_TickNumber next < 2 ^ 32 - 1;
  stores_step : step a (update_status last next a);
  stores_adds e t : processed_in (update_status last next a) e t ↔
    processed_in a e t ∨ (e = pb.ProcessedTick_Epoch next ∧ t = pb.ProcessedTick_TickNumber next);
  stores_complete : complete (contents from) (update_status last next a);
  stores_ends : ∃ db', processStatus last next from = (Ok tt, db') ∧
    serving clients db' (update_status last next a)
}.

Lemma begins_archive client info last next db a : serving clients db a →
  begins client info last next db →
  node_sane info a ∧ last = last_tick info a ∧ next = next_tick info last.
Proof.
  intros Hr [Hin Hi Hlast Hnext Hle].
  pose proof (serving_sane clients db a client Hcon Hr Hin info Hi) as Hsane. split; [done|].
  destruct Hr as [Hh Hrep Hval Hok _ _ _].
  rewrite (getLastProcessedTick_archive db a info Hh Hrep) in Hlast. injection Hlast as <-.
  split; [done|]. rewrite getNextProcessingTick_next in Hnext by done. by injection Hnext.
Qed.

Lemma pass_stored client info last next from db a : serving clients from a →
  begins client info last next from →
  do_work (Validating client info last next) from = (Ok tt, db) →
  stores client info last next db a.
Proof.
  intros Hr Hb E. destruct (begins_archive _ _ _ _ _ _ Hr Hb) as (Hsane & -> & ->).
  pose proof (begins_client _ _ _ _ _ _ Hb) as Hin. pose proof (begins_reached _ _ _ _ _ _ Hb) as Hle.
  destruct (do_work_progress _ _ _ _ _ _ E) as [n Hn].
  assert (Hdb : serving clients db a) by (rewrite <-Hn; by apply serving_do_work).
  destruct (step_valid a info (serving_ok _ _ _ Hr) (serving_valid _ _ _ Hr) Hsane Hle) as [Hv Hlt].
  rewrite last_tick_number in Hlt.
  set (last := last_tick info a) in *. set (next := next_tick info last) in *.
  assert (El : pb.ProcessedTick_TickNumber last = last_number a) by apply last_tick_number.
  destruct (runs_processStatus _ a last next (serving_represents _ _ _ Hdb) (serving_valid _ _ _ Hdb) Hv)
    as (m' & Hrun & _); [lia|].
  destruct (Hrun db (serving_healthy _ _ _ Hdb) eq_refl) as (db' & Es & _).
  pose proof (process_step arb dis client from a (serving_healthy _ _ _ Hr) (serving_represents _ _ _ Hr)
    (serving_valid _ _ _ Hr) (serving_ok _ _ _ Hr) (serving_sane _ _ _ _ Hcon Hr Hin)) as Hstep.
  pose proof (process_complete arb dis client from a (serving_healthy _ _ _ Hr) (serving_represents _ _ _ Hr)
    (serving_valid _ _ _ Hr) (serving_ok _ _ _ Hr) (serving_sane _ _ _ _ Hcon Hr Hin) (Hwf client Hin)
    (serving_complete _ _ _ Hr)) as Hcomp.
  pose proof (typed_writes_preserve _ from (typed_process_with arb dis client) (serving_typed _ _ _ Hr)) as Ht.
  assert (Ep : process_with arb dis client from = (Ok tt, db')).
  { rewrite (process_with_begins _ _ _ _ _ _ _ _ Hb). unfold mbind, M_bind. rewrite mwrap_run, E. cbn.
    by rewrite mwrap_run, Es. }
  rewrite Ep in Hstep, Hcomp, Ht. destruct Hstep as (Hh' & info' & Hi' & _ & Hstep & Hrep' & Hval').
  assert (info' = info) as -> by (pose proof (begins_info _ _ _ _ _ _ Hb); congruence).
  specialize (Hcomp info Hi'). fold last next in Hstep, Hrep', Hval', Hcomp. split; [done|done|done| |done| | |].
  - split; [lia|]. destruct Hsane as (_ & ? & _). lia.
  - intros e t. by apply step_processed; [apply Hr|..].
  - intros e t Hp. specialize (Hcomp e t Hp). revert Hcomp. apply archived_agree.
    + intros k Hk. pose proof (frame_outside _ _ _ db k (writes_processStatus last next)
        (tick_records_not_bookkeeping t k Hk)) as Hf. by rewrite Es in Hf.
    + intros k Hk. pose proof (frame_outside _ _ _ db k (writes_processStatus last next)) as Hf.
      rewrite Es in Hf. simpl in Hf. rewrite Hf; [done|].
      by eapply not_own_keys; [exact Hk|done|apply not_elem_of_nil].
  - exists db'. split; [done|]. split; [done|done|done|by eapply archive_ok_step; [apply Hr|]|done|done|].
    apply last_reported_step; [apply Hr|by exists client].
Qed.

(** At every cut of the update the database shows the archive before it or the
    one after it, and which of them its last tick says. *)
Lemma updated_shown client info last next from a n : stores client info last next from a →
  let db := updated last next n from in
  (last_stored (contents db) = last_number a ∧ shown db a) ∨
  (last_stored (contents db) = pb.ProcessedTick_TickNumber next ∧ shown db (update_status last next a)).
Proof.
  intros [Hr Hlast Hnext Hlt Hstep Hadds Hcomp (db' & Es & Hr')] db.
  assert (Hsane : sane from) by (by eapply shown_sane, serving_shown).
  assert (Hstored : last_stored (contents from) = last_number a) by (by apply last_stored_shown, serving_shown).
  assert (Hdb : sane db) by (apply sane_updated; [done|lia]).
  pose proof (last_number_nonneg a (serving_ok _ _ _ Hr)) as H0.
  destruct (stages_processStatus _ a last next (serving_represents _ _ _ Hr) (serving_valid _ _ _ Hr) Hnext
    ltac:(lia) from n (serving_healthy _ _ _ Hr) eq_refl) as (b & Hb & Hmid).
  destruct (midway_shows a last next (serving_ok _ _ _ Hr) (serving_ok _ _ _ Hr') Hlast ltac:(lia) Hadds
    db b (sane_healthy _ Hdb) Hb Hmid) as [[Eb Hs]|[Eb Hs]].
  - left. assert (Hd : shown db a).
    { split; [done|apply Hr|apply Hdb| |apply Hr]. intros e t Hp. apply updated_archived.
      by eapply (serving_complete _ _ _ Hr). }
    split; [|done]. by apply last_stored_shown.
  - right. assert (Hd : shown db (update_status last next a)).
    { split; [done|apply Hr'|apply Hdb| |apply Hr']. intros e t Hp. apply updated_archived.
      by eapply Hcomp. }
    split; [|done]. rewrite (last_stored_shown _ _ Hd). apply update_status_last_number.
Qed.

(** *** Invariant *)
Definition phase_ok (db : DB) (a : archive) (ph : phase) : Prop :=
  match ph with
  | Stopped | Idle => True
  | Working w from n => serving clients from a ∧ work_begins w from ∧ db = progress w n from
  | Updating client info last next from n => ∃ a0, stores client info last next from a0 ∧
      db = updated last next n from ∧
      (a = a0 ∧ last_stored (contents db) = last_number a0 ∨ a = update_status last next a0)
  end.

Record sys_ok (s : system) (a : archive) : Prop := {
  sys_shown : shown (sys_db s) a;
  sys_represents : settled (sys_phase s) → represents (contents (sys_db s)) a;
  sys_phase_ok : phase_ok (sys_db s) a (sys_phase s);
  sys_admitted c t : c ∈ sys_pending s → tick_of c = Some t → 1 ≤ t → ∃ e, processed_in a e t
}.

Lemma sys_serving s a : sys_ok s a → settled (sys_phase s) → serving clients (sys_db s) a.
Proof. intros [Hs Hr _ _] Hph. by apply shown_serving, Hr. Qed.

Lemma serving_sys_ok db ph p a : serving clients db a → phase_ok db a ph →
  (∀ c t, c ∈ p → tick_of c = Some t → 1 ≤ t → ∃ e, processed_in a e t) → sys_ok (MkSystem db ph p) a.
Proof. intros Hr Hph Hp. split; [by apply serving_shown|intros _; apply Hr|done|done]. Qed.

Lemma stopped_ok db a : serving clients db a → sys_ok (MkSystem db Stopped []) a.
Proof. intros Hr. apply serving_sys_ok; [done|done|]. intros c t Hc. by apply elem_of_nil in Hc. Qed.

Lemma work_begins_ok w db a : serving clients db a → work_begins w db →
  phase_ok db a (Working w db 0).
Proof. intros Hs Hb. split; [done|]. split; [done|]. by rewrite progress_begins. Qed.

Lemma phase_ok_sane db a ph : phase_ok db a ph → phase_sane arb dis clients db ph.
Proof.
  destruct ph as [| |w from n|client info last next from n]; [done|done| |].
  - intros (Hr & Hb & E). split; [by eapply shown_sane, serving_shown|done].
  - intros (a0 & Hst & E & _). pose proof (stores_serving _ _ _ _ _ _ Hst) as Hr.
    split; [by eapply shown_sane, serving_shown|]. split; [|done].
    rewrite (last_stored_shown from a0) by (by apply serving_shown). apply Hst.
Qed.

Lemma sys_ok_sane s a : sys_ok s a → sys_sane arb dis clients s.
Proof. intros Hs. split; [eapply shown_sane, Hs|eapply phase_ok_sane, Hs]. Qed.

(** *** It is kept *)
Lemma resume_ok {A} (o : outcome A) db ph p a : (o = Panic → settled ph) →
  sys_ok (MkSystem db ph p) a → sys_ok (resume o db ph p) a.
Proof. intros Ho Hs. destruct o; [done|done|]. apply stopped_ok, (sys_serving _ _ Hs), Ho. done. Qed.

(** The next state shows the same archive, or the one after a step. *)
Definition advances (a : archive) (s' : system) : Prop :=
  ∃ a', sys_ok s' a' ∧ (∀ e t, processed_in a e t → processed_in a' e t) ∧ (a' = a ∨ step a a').

Ltac same_archive a := exists a; split; [|by split; [|left]].

(** One of the writes of a status update is the one with which the archive advances. *)
Lemma update_writes_ok client info last next from n p db a :
  sys_ok (MkSystem db (Updating client info last next from n) p) a →
  advances a (MkSystem (updated last next (S n) from) (Updating client info last next from (S n)) p).
Proof.
  intros [Hsh _ Hph Hp]. cbn [sys_db sys_phase sys_pending] in *.
  destruct Hph as (a0 & Hst & -> & Ha). pose proof (updated_shown _ _ _ _ _ _ (S n) Hst) as Hnext.
  pose proof (stores_after _ _ _ _ _ _ Hst) as Hlt. pose proof (stores_adds _ _ _ _ _ _ Hst) as Hadds.
  set (a1 := update_status last next a0) in *.
  assert (Hgrow : last_stored (contents (updated last next (S n) from)) =
      last_stored (contents (updated last next n from)) ∨
    last_stored (contents (updated last next (S n) from)) = pb.ProcessedTick_TickNumber next)
    by (apply last_stored_updated; lia).
  assert (Hdone : a = a1 → last_stored (contents (updated last next n from)) = pb.ProcessedTick_TickNumber next).
  { intros ->. rewrite (last_stored_shown _ _ Hsh). apply update_status_last_number. }
  destruct Hnext as [[En Hn]|[En Hn]].
  + assert (a = a0) as -> by (destruct Ha as [[-> _]|Ha]; [done|specialize (Hdone Ha); lia]).
    same_archive a0. split; [done|done| |done]. exists a0. auto.
  + exists a1. split; [|destruct Ha as [[-> _]| ->]].
    * split; [done|done| |].
      { exists a0. auto. }
      intros c t Hc Htc H1. destruct (Hp c t Hc Htc H1) as [e He]. exists e.
      destruct Ha as [[-> _]| ->]; [apply Hadds; by left|done].
    * split; [intros e t He; apply Hadds; by left|]. right. apply Hst.
    * split; [done|by left].
Qed.

Lemma pass_ends_ok client info last next from n p db a o db' :
  sys_ok (MkSystem db (Updating client info last next from n) p) a →
  processStatus last next from = (o, db') → advances a (resume o db' Idle p).
Proof.
  intros [_ _ Hph Hp] E. cbn [sys_db sys_phase sys_pending] in *.
  destruct Hph as (a0 & Hst & _ & Ha). pose proof (stores_adds _ _ _ _ _ _ Hst) as Hadds.
  destruct (stores_ends _ _ _ _ _ _ Hst) as (db1 & E1 & Hr1). rewrite E1 in E.
  injection E as <- Edb. rewrite <-Edb. set (a1 := update_status last next a0) in *.
  exists a1. split; [|destruct Ha as [[-> _]| ->]].
  + apply serving_sys_ok; [done|done|]. intros c t Hc Htc H1. destruct (Hp c t Hc Htc H1) as [e He].
    exists e. destruct Ha as [[-> _]| ->]; [apply Hadds; by left|done].
  + split; [intros e t He; apply Hadds; by left|]. right. apply Hst.
  + split; [done|by left].
Qed.

Lemma sys_ok_step s s' a : sys_ok s a → step_settled s s' →
  advances a s'.
Proof.
  intros Hs Hstep. pose proof Hs as [Hsh Hrep Hph Hp]. destruct Hstep as
    [reset db|reset from n db E|reset from n o db E Ho|db ph p Hdown|w from n db p
    |client info last next db p Hb|client info last next from n db p E
    |client info last next from n o db p E Ho|client info last next from n db p
    |client info last next from n o db p E
    |c db db' ph p Hup Ea|c o db db' ph p1 p2 Eh Hdown];
    cbn [sys_db sys_phase sys_pending] in *.
  - same_archive a. apply serving_sys_ok; [by apply shown_serving, Hrep|by apply work_begins_ok, I; apply shown_serving, Hrep|done].
  - same_archive a. apply serving_sys_ok; [by apply shown_serving, Hrep|done|done].
  - same_archive a. apply stopped_ok. by apply shown_serving, Hrep.
  - same_archive a. apply stopped_ok. by apply shown_serving, Hrep.
  - destruct Hph as (Hf & Hb & _). same_archive a.
    apply serving_sys_ok; [by apply serving_do_work|by split_and!|done].
  - assert (Hr : serving clients db a) by (by apply shown_serving, Hrep). same_archive a.
    apply serving_sys_ok; [done|by apply work_begins_ok|done].
  - destruct Hph as (Hf & Hb & _). assert (Hr : serving clients db a) by (by apply shown_serving, Hrep).
    same_archive a. apply serving_sys_ok; [done| |done]. exists a.
    split; [exact (pass_stored _ _ _ _ _ _ _ Hf Hb E)|]. rewrite updated_begins. split; [done|].
    left. split; [done|].
    by apply last_stored_shown.
  - same_archive a. apply resume_ok; [done|]. apply serving_sys_ok; [by apply shown_serving, Hrep|done|done].
  - by eapply update_writes_ok.
  - by eapply pass_ends_ok.
  - pose proof (let_through_reads c db) as Hd. rewrite Ea in Hd. simpl in Hd. subst db'.
    same_archive a. split; [done|done|done|]. intros c' t [->|Hc]%elem_of_cons Ht H1; [|by eapply Hp].
    destruct (let_through_cases c t db a (shown_shows _ _ Hsh) Ht H1)
      as [[? _]|(e & E & _)]; [done|]. by rewrite E in Ea.
  - pose proof (handle_reads srv fuel c db) as Hd. rewrite Eh in Hd. simpl in Hd. subst db'.
    same_archive a. apply resume_ok; [done|]. split; [done|done|done|]. intros c' t Hc. apply (Hp c' t).
    apply elem_of_app in Hc as [?|?]; apply elem_of_app; [by left|right; by right].
Qed.

(** Many steps. *)
Lemma sys_ok_steps s s' a : sys_ok s a → rtc step_settled s s' →
  ∃ a', sys_ok s' a' ∧ ∀ e t, processed_in a e t → processed_in a' e t ∧
    ∀ k, k ∈ tick_records t → contents (sys_db s') !! k = contents (sys_db s) !! k.
Proof.
  intros Hs Hsteps. destruct (sane_steps _ _ _ _ _ settled consistent_in_range s s' (sys_ok_sane _ _ Hs) Hsteps)
    as [_ [_ Hrec]].
  assert (∃ a', sys_ok s' a' ∧ ∀ e t, processed_in a e t → processed_in a' e t) as (a' & Hs' & Hmono).
  { clear Hrec. revert a Hs. induction Hsteps as [s|s s1 s' Hstep _ IH]; intros a Hs; [by exists a|].
    destruct (sys_ok_step s s1 a Hs Hstep) as (a1 & Hs1 & H1 & _).
    destruct (IH a1 Hs1) as (a' & Hs' & H2). exists a'. auto. }
  exists a'. split; [done|]. intros e t Hp. split; [by apply Hmono|]. intros k Hk.
  apply (Hrec t k); [|done]. by eapply processed_stored; [apply Hs|].
Qed.

(** No step touches the records of a processed tick. *)
Lemma sys_step_records s s' a e t k : sys_ok s a → step_settled s s' → processed_in a e t →
  k ∈ tick_records t → contents (sys_db s') !! k = contents (sys_db s) !! k.
Proof.
  intros Hs Hstep Hp Hk. destruct (sane_step _ _ _ _ _ settled consistent_in_range s s'
    (sys_ok_sane _ _ Hs) Hstep) as [_ [_ Hrec]].
  apply (Hrec t k); [|done]. by eapply processed_stored; [apply Hs|].
Qed.

Lemma reachable_ok db s : healthy db → contents db = ∅ →
  rtc step_settled (MkSystem db Stopped []) s → ∃ a, sys_ok s a.
Proof.
  intros Hh He Hsteps.
  destruct (sys_ok_steps (MkSystem db Stopped []) s empty_archive) as (a & Hs & _);
    [by apply stopped_ok, (running_serving _ _ _ (running_empty _ _ Hh He))|done|by exists a].
Qed.

Lemma shown_serves db a t : shown db a → 1 ≤ t →
  (∃ e, processed_in a e t) ∧ answered srv fuel db t ∨ (∀ e, ¬ processed_in a e t) ∧ refused srv fuel db a t.
Proof. intros Hs Ht. by apply served_or_refused; [apply Hs..|]. Qed.

(** C6: Take any interleaving of a processor with requests on a database that
    was empty at first and does not fail, where the nodes' reports are in range
    and consistent with each other ([reports_consistent]), their tick data lists
    32-byte digests, and the process is killed and started again any
    number of times: at any moment, also between two writes of a pass or of a
    start, but not between two writes of the status update at the end of a pass.  At
    every moment, also between two writes of a status update, requests are shown a
    well-formed archive, which the database represents whenever no
    status update is going on; a request that was let through, however long
    ago, is about a processed tick of it, its handler answers as if the check were
    made now, and the tick's record is there: its data, transactions, statuses and
    chain digest, and from tick 13752150 on its store digest; and a new request about a
    tick from 1 on is answered or refused as [lives_serve] says. *)
Theorem interleaved_requests db s : healthy db → contents db = ∅ →
  rtc step_settled (MkSystem db Stopped []) s →
  ∃ a, archive_ok a ∧ (settled (sys_phase s) → represents (contents (sys_db s)) a) ∧
    (∀ c t, c ∈ sys_pending s → tick_of c = Some t → 1 ≤ t →
       (∃ e, processed_in a e t) ∧
       handle srv fuel c (sys_db s) = serve srv fuel c (sys_db s) ∧
       answered srv fuel (sys_db s) t) ∧
    (∀ t, 1 ≤ t → (∃ e, processed_in a e t) ∧ answered srv fuel (sys_db s) t ∨
       (∀ e, ¬ processed_in a e t) ∧ refused srv fuel (sys_db s) a t).
Proof.
  intros Hh He Hsteps. destruct (reachable_ok db s Hh He Hsteps) as [a [Hs Hrep _ Hp]].
  pose proof (shown_shows _ _ Hs) as Hshows. exists a. split; [apply Hshows|]. split; [done|]. split.
  - intros c t Hin Ht H1. pose proof (Hp c t Hin Ht H1) as Hpr. split; [done|]. split.
    + destruct (serve_cases srv fuel c t _ a Hshows Ht H1) as [[_ ->]|(e & _ & Hn & _)]; [done|].
      destruct Hpr as [ep Hpr]. by destruct (Hn ep).
    + destruct Hpr as [ep Hpr]. apply (archived_answered srv fuel _ a t Hshows (shown_typed _ _ Hs) H1);
        [by exists ep|by eapply (shown_complete _ _ Hs)].
  - intros t H1. by apply shown_serves.
Qed.
End System.

(** ** Answers are final *)
Section Final.
Context {P : Pebble} {PL : PebbleLaws P} {PR : Protobuf} {PRL : ProtobufLaws PR}.
Context {R : GoRuntime} {RL : GoRuntimeLaws R} {K : K12} {KL : K12Laws K}.
Context {N : NodeConnector} {TL : TransactionLaws N}.
Context {G : GrpcStatus} {GL : GrpcStatusLaws G} {H : HttpClient}.
Variables (arb : bytes) (dis : bool) (srv : Server) (fuel : nat).
Variable clients : list (outcome Client).

(** The methods whose answer is one record of a tick. *)
Definition record_of (c : call) : option bytes :=
  match c with
  | CallGetTickData t => Some (tickDataKey t)
  | CallGetChainHash t | CallGetTickChainHashV2 t => Some (chainDigestKey t)
  | CallGetStoreHash t | CallGetTickStoreHashV2 t => Some (storeDigestKey t)
  | _ => None
  end.

Lemma record_of_tick c k : record_of c = Some k → ∃ t, tick_of c = Some t ∧ k ∈ tick_records t.
Proof.
  unfold tick_records. destruct c; intros [= <-]; (eexists; split; [reflexivity|]); set_solver.
Qed.

Lemma handle_record c k db db' : record_of c = Some k → healthy db → healthy db' →
  contents db' !! k = contents db !! k →
  (handle srv fuel c db').1 = (handle srv fuel c db).1.
Proof.
  intros Hk Hh Hh' E. assert (Hget : db_Get db' k = db_Get db k) by (by rewrite !db_Get_healthy, E).
  destruct c; try discriminate Hk; injection Hk as <-; simpl; unfold Rpc.GetTickData, Store.GetTickData, RpcV2.GetTickChainHashV2,
    RpcV2.GetTickStoreHashV2, GetChainHash, GetStoreHash, GetChainDigest, GetStoreDigest,
    mmap_err, mwrap, mbind, M_bind, pebble_Get, lift; rewrite Hget;
    destruct (map_err _ _) as [v|e|]; try done.
  destruct (wrap _ (Unmarshal v)) as [td|e|]; [|done..]. simpl. by destruct (proto_Equal _ _).
Qed.

(** A request that is let through is not about a tick behind the last one. *)
Lemma let_through_stored c t db : sane db → let_through c db = (Ok tt, db) → tick_of c = Some t →
  t ≤ last_stored (contents db).
Proof.
  intros Hs E Hc. revert E. unfold let_through, GetInterceptor. rewrite checked_tick_of, Hc.
  intros ([] & db1 & Ec%wrap_success & _)%mbind_M_Ok. revert Ec.
  unfold checkTickWithinArchiverIntervals. simpl pts_GetLastProcessedTick.
  intros (pt & db2 & El & Ec)%mbind_M_Ok. revert El. unfold mmap_err.
  destruct (GetLastProcessedTick_stored db (sane_healthy _ Hs) (sane_typed _ Hs))
    as [(pt' & -> & <-)|[-> _]]; [|done]. intros [= <- <-]. revert Ec. case_bool_decide; [done|lia].
Qed.

Lemma let_through_outcome c t db : healthy db → well_typed (contents db) → tick_of c = Some t →
  let_through c db = (Ok tt, db) ∨ ∃ e, let_through c db = (Err (WrapError "invalid tick number" e), db).
Proof.
  intros Hh Ht Hc. destruct (calm_check (contents db) Ht t) as (o & Hr & Ho).
  destruct (Hr db Hh eq_refl) as (db' & E & _).
  pose proof (check_reads t db) as Hd. rewrite E in Hd. simpl in Hd. subst db'.
  unfold let_through, GetInterceptor. rewrite checked_tick_of, Hc. unfold mbind, M_bind.
  rewrite mwrap_run, E. destruct o as [[]|e|]; [by left|right; by exists e|done].
Qed.

Lemma settled_steps (goes_down : phase → Prop) s s' : (∀ ph, goes_down ph → settled ph) →
  rtc (sys_step arb dis srv fuel clients goes_down) s s' →
  rtc (sys_step arb dis srv fuel clients settled) s s'.
Proof.
  intros Hdown. induction 1 as [s|s s1 s' Hstep _ IH]; [apply rtc_refl|].
  eapply rtc_l; [|exact IH]. destruct Hstep; econstructor; eauto.
Qed.

(** C7: Answers are final.  Let a request for the data, the chain hash or the
    store hash of a tick from 1 on be answered on a database that was empty at first and
    does not fail, after any interleaving of passes, requests, restarts and
    kills, where the nodes report numbers in range.  Wherever the process is
    killed, also in the middle of a status update, every later request for it is
    answered the same, or refused by the interceptor, but never answered
    otherwise; and when the nodes' reports are consistent with each other
    ([reports_consistent]), their tick data lists 32-byte digests and the process is not taken down between two writes of a status update, it is
    answered the same. *)
Theorem answers_final goes_down db s s' c k t msg : healthy db → contents db = ∅ →
  reports_in_range clients →
  rtc (sys_step arb dis srv fuel clients goes_down) (MkSystem db Stopped []) s →
  rtc (sys_step arb dis srv fuel clients goes_down) s s' →
  record_of c = Some k → tick_of c = Some t → 1 ≤ t →
  serve srv fuel c (sys_db s) = (Ok msg, sys_db s) →
  (serve srv fuel c (sys_db s') = (Ok msg, sys_db s') ∨
   ∃ e, serve srv fuel c (sys_db s') = (Err (WrapError "invalid tick number" e), sys_db s')) ∧
  (reports_consistent clients → (∀ client, Ok client ∈ clients → answers_wf client) →
   (∀ ph, goes_down ph → settled ph) →
   serve srv fuel c (sys_db s') = (Ok msg, sys_db s')).
Proof.
  intros Hh He Hrange Hsteps Hsteps' Hk Ht H1 Hserve.
  destruct (sane_steps _ _ _ _ _ goes_down Hrange _ _ (sane_start arb dis clients db Hh He) Hsteps) as [Hs _].
  destruct (sane_steps _ _ _ _ _ goes_down Hrange _ _ Hs Hsteps') as [[Hs' _] [_ Hrec]]. destruct Hs as [Hs _].
  destruct (record_of_tick c k Hk) as (t' & Ht' & Hin). assert (t' = t) as -> by congruence.
  rewrite serve_let_through in Hserve. unfold mbind, M_bind in Hserve.
  destruct (let_through_outcome c t _ (sane_healthy _ Hs) (sane_typed _ Hs) Ht) as [E|[e E]];
    rewrite E in Hserve; [|done].
  pose proof (let_through_stored c t _ Hs E Ht) as Hle.
  pose proof (handle_record c k _ _ Hk (sane_healthy _ Hs) (sane_healthy _ Hs') (Hrec t k (conj H1 Hle) Hin)) as Heq.
  rewrite Hserve in Heq. simpl in Heq.
  assert (Hsame : handle srv fuel c (sys_db s') = (Ok msg, sys_db s')).
  { pose proof (handle_reads srv fuel c (sys_db s')) as Hd.
    destruct (handle srv fuel c (sys_db s')) as [o db']. simpl in *. by subst. }
  assert (Hweak : serve srv fuel c (sys_db s') = (Ok msg, sys_db s') ∨
    ∃ e, serve srv fuel c (sys_db s') = (Err (WrapError "invalid tick number" e), sys_db s')).
  { rewrite serve_let_through. unfold mbind, M_bind.
    destruct (let_through_outcome c t _ (sane_healthy _ Hs') (sane_typed _ Hs') Ht) as [->|[e ->]];
      [by left|right; by exists e]. }
  split; [done|]. intros Hcon Hwf Hdown. apply (settled_steps _ _ _ Hdown) in Hsteps, Hsteps'.
  destruct (reachable_ok _ _ _ _ _ Hcon Hwf db s Hh He Hsteps) as [a Ha].
  destruct (sys_ok_steps _ _ _ _ _ Hcon Hwf s s' a Ha Hsteps') as (a' & Ha' & Hkeep).
  destruct (let_through_cases c t _ a (shown_shows _ _ _ (sys_shown _ _ _ _ _ Ha)) Ht H1)
    as [[[ep Hp] _]|(e & E' & _)]; [|by rewrite E in E'].
  destruct (serve_cases srv fuel c t _ a' (shown_shows _ _ _ (sys_shown _ _ _ _ _ Ha')) Ht H1)
    as [[_ ->]|(_ & _ & Hn & _)]; [done|]. by destruct (Hn ep (proj1 (Hkeep ep t Hp))).
Qed.
End Final.
