(* ===== verification/Ledger.v ===== *)
(** * The archiver as an append-only ledger

    What the archiver promises to those who ask it, without nodes, passes,
    writes, keys and restarts: a ledger of ticks that only grows, by one tick at a
    time, behind the last one.  The system of System.v implements it, as long as it is
    not taken down in the middle of a status update: each of its steps, whoever's it
    is, leaves the ledger as it is or appends one tick, and at every moment the
    answers are those of the ledger. *)

From stdpp Require Import sorting base strings numbers pretty gmap list.
From S2P Require Import Prelude GoLib Types Platform Keys Store StoreLogic Utils.
From S2P Require Import Archive Progress Typed Reads Archived Complete Liveness Restarts.
From S2P Require Import ValidatorProofs ProcessorProofs.
From S2P Require Import Middleware Rpc RpcProofs Service ServiceProofs Served System Interleave.

Local Open Scope Z_scope.

(** ** The ledger *)

(** The bookkeeping, and for each tick its data and chain digest. *)
Record ledger := MkLedger {
  ledger_archive : archive;
  ledger_ticks : gmap Z (pb.TickData * bytes)
}.

Definition empty_ledger : ledger := MkLedger empty_archive ∅.

Inductive ledger_step : ledger → ledger → Prop :=
| append_tick a a' ticks record : step a a' →
    (∀ t, is_Some (ticks !! t) → t < last_number a') →
    ledger_step (MkLedger a ticks) (MkLedger a' (<[last_number a' := record]> ticks)).

(** A ledger only grows. *)
Lemma ledger_steps_grow L L' : rtc ledger_step L L' → ledger_ticks L ⊆ ledger_ticks L'.
Proof.
  induction 1 as [L|L L1 L' Hstep _ IH]; [done|]. etrans; [|exact IH].
  destruct Hstep as [a a' ticks r _ Hlt]. simpl. apply insert_subseteq.
  destruct (ticks !! last_number a') as [r'|] eqn:E; [|done].
  specialize (Hlt (last_number a') ltac:(by eexists)). lia.
Qed.

(** What a step of the archive adds. *)
Lemma step_adds a a' : archive_ok a → archive_valid a → step a a' →
  last_number a < last_number a' ∧ (∃ e, processed_in a' e (last_number a')) ∧
  ∀ e t, processed_in a' e t → processed_in a e t ∨ t = last_number a'.
Proof.
  intros Hok Hval Hstep. destruct Hstep as [a info Hsane Hle].
  destruct (step_valid a info Hok Hval Hsane Hle) as [_ Hlt]. rewrite last_tick_number in Hlt.
  rewrite update_status_last_number. split; [lia|]. split.
  - exists (pb.ProcessedTick_Epoch (next_tick info (last_tick info a))).
    apply step_processed; [done..|]. by right.
  - intros e t [?|[_ ->]]%step_processed; [by left|by right|done..].
Qed.

(** ** The system implements it *)
Section Refines.
Context {P : Pebble} {PL : PebbleLaws P} {PR : Protobuf} {PRL : ProtobufLaws PR}.
Context {R : GoRuntime} {RL : GoRuntimeLaws R} {K : K12} {KL : K12Laws K}.
Context {N : NodeConnector} {TL : TransactionLaws N}.
Context {G : GrpcStatus} {GL : GrpcStatusLaws G} {H : HttpClient}.
Variables (arb : bytes) (dis : bool) (srv : Server) (fuel : nat).
Variable clients : list (outcome Client).
Context (Hcon : reports_consistent clients).
Context (Hwf : ∀ client, Ok client ∈ clients → answers_wf client).

Local Abbreviation step_settled := (sys_step arb dis srv fuel clients settled).
Local Abbreviation sys_ok := (sys_ok arb dis clients).

(** What the keys of tick [t] hold. *)
Definition recorded (db : DB) (t : Z) (td : pb.TickData) (d : bytes) : Prop :=
  stored (contents db) (tickDataKey t) td ∧ contents db !! chainDigestKey t = Some d.

(** The ledger has exactly the processed ticks, as the database records them. *)
Record implements (s : system) (L : ledger) : Prop := {
  impl_ok : sys_ok s (ledger_archive L);
  impl_processed t : is_Some (ledger_ticks L !! t) ↔ ∃ e, processed_in (ledger_archive L) e t;
  impl_recorded t td d : ledger_ticks L !! t = Some (td, d) → recorded (sys_db s) t td d
}.

(** What can be asked of a ledger: the data of a tick (none for an empty one)
    and its chain digest; and about a tick that it does not have, nothing. *)
Definition ledger_answers (L : ledger) (db : DB) : Prop := ∀ t, 1 ≤ t →
  match ledger_ticks L !! t with
  | Some (td, d) =>
      serve srv fuel (CallGetTickData t) db =
        (Ok (if proto_Equal td pb.emptyTickData then None else Some td), db) ∧
      serve srv fuel (CallGetChainHash t) db = (Ok (hex_EncodeToString d), db)
  | None => refused srv fuel db (ledger_archive L) t
  end.

Lemma implements_answers s L : implements s L → ledger_answers L (sys_db s).
Proof.
  intros [Hok Hpr Hrec] t Ht. specialize (Hpr t).
  destruct (shown_serves srv fuel clients (sys_db s) _ t (sys_shown _ _ _ _ _ Hok) Ht)
    as [[Hp Ha]|[Hn Hr]]; destruct (ledger_ticks L !! t) as [[td d]|] eqn:E.
  - destruct (Hrec t td d E) as [(b & Hb & Hu) Hd].
    destruct Ha as [(td' & (b' & Hb' & Hu') & Hdata & _) _ (d' & Hd' & _ & Hchain & _) _].
    assert (td' = td) as -> by congruence. assert (d' = d) as -> by congruence. done.
  - apply Hpr in Hp as [? [=]].
  - destruct (proj1 Hpr) as [e He]; [by eexists|]. by destruct (Hn e).
  - done.
Qed.

Lemma implements_start db : healthy db → contents db = ∅ →
  implements (MkSystem db Stopped []) empty_ledger.
Proof.
  intros Hh He. split; simpl.
  - by apply stopped_ok, (running_serving _ _ _ (running_empty _ _ Hh He)).
  - intros t. rewrite lookup_empty. split; [by intros []|]. intros [e Hp].
    pose proof (ok_bounds _ archive_ok_empty _ _ Hp) as Hb. unfold last_number in Hb. simpl in Hb. lia.
  - intros t td d. by rewrite lookup_empty.
Qed.

(** The records of the ticks stay as they are in a step. *)
Lemma recorded_step s s' a e t td d : sys_ok s a → step_settled s s' → processed_in a e t →
  recorded (sys_db s) t td d → recorded (sys_db s') t td d.
Proof.
  intros Hok Hstep Hp. unfold recorded, stored.
  assert (Hkeep : ∀ k, k ∈ tick_records t → contents (sys_db s') !! k = contents (sys_db s) !! k)
    by (intros; by eapply (sys_step_records arb dis srv fuel clients)).
  rewrite !Hkeep by (unfold tick_records; set_solver). done.
Qed.

(** A tick the archive says was processed has its records. *)
Lemma processed_recorded s a e t : sys_ok s a → processed_in a e t →
  ∃ td d, recorded (sys_db s) t td d.
Proof.
  intros Hok Hp. destruct (shown_complete _ _ _ (sys_shown _ _ _ _ _ Hok) e t Hp)
    as [(td & Htd & _) _ _ [d Hd] _]. by exists td, d.
Qed.

(** The simulation. *)
Lemma implements_step s s' L : implements s L → step_settled s s' →
  ∃ L', (L' = L ∨ ledger_step L L') ∧ implements s' L'.
Proof.
  destruct L as [a ticks]. intros [Hok Hpr Hrec] Hstep. simpl in *.
  assert (Hkept : ∀ t td d, ticks !! t = Some (td, d) → recorded (sys_db s') t td d).
  { intros t td d Et. destruct (proj1 (Hpr t)) as [e Hp]; [by eexists|].
    eapply recorded_step; eauto. }
  destruct (sys_ok_step _ _ _ _ _ Hcon Hwf s s' a Hok Hstep) as (a' & Hok' & Hmono & [->|Ha]).
  { exists (MkLedger a ticks). split; [by left|]. by split. }
  pose proof (sys_shown _ _ _ _ _ Hok) as Hr. pose proof (shows_ok _ _ (shown_shows _ _ _ Hr)) as Hokay.
  destruct (step_adds a a' Hokay (shown_valid _ _ _ Hr) Ha) as (Hlt & [e Hp] & Hnew).
  destruct (processed_recorded s' a' e _ Hok' Hp) as (td & d & Htd).
  exists (MkLedger a' (<[last_number a' := (td, d)]> ticks)). split.
  - right. constructor; [done|]. intros t [e' Hp']%Hpr.
    pose proof (ok_bounds _ Hokay _ _ Hp'). lia.
  - split; simpl; [done|..].
    + intros t. destruct (decide (t = last_number a')) as [->|Hne].
      { rewrite lookup_insert_eq. split; [by exists e|by eexists]. }
      rewrite lookup_insert_ne by done. rewrite Hpr. split; intros [e' Hp']; exists e'; [by apply Hmono|].
      by destruct (Hnew e' t Hp').
    + intros t td' d'. rewrite lookup_insert_Some. intros [[<- [= <- <-]]|[_ Et]]; [done|]. by apply Hkept.
Qed.

Lemma implements_steps s s' L : implements s L → rtc step_settled s s' →
  ∃ L', rtc ledger_step L L' ∧ implements s' L'.
Proof.
  intros Hs Hsteps. revert L Hs. induction Hsteps as [s|s s1 s' Hstep _ IH]; intros L Hs.
  { exists L. by split; [apply rtc_refl|]. }
  destruct (implements_step s s1 L Hs Hstep) as (L1 & Hl & Hs1).
  destruct (IH L1 Hs1) as (L' & HL & Hs'). exists L'. split; [|done].
  destruct Hl as [->|Hl]; [done|by eapply rtc_l].
Qed.

(** C5: The archiver implements an append-only ledger.  Take any interleaving of
    passes, requests, failed passes, kills and starts, write by write, that
    leads from an empty database that does not fail to one moment, and from there to a
    later one, where the nodes' reports are in range and consistent with each other
    ([reports_consistent]), their tick data lists 32-byte digests, and the process is never taken down between two writes of the status update
    at the end of a pass.  There is a ledger at each of the two moments, the later one
    grown out of the earlier one by appending ticks behind the last; at either
    moment, also between two writes of a status update, the service answers about
    every tick as its ledger says, and so what the earlier ledger has of a tick is
    answered at the later moment as well. *)
Theorem system_refines_ledger db s s' : healthy db → contents db = ∅ →
  rtc step_settled (MkSystem db Stopped []) s → rtc step_settled s s' →
  ∃ L L', rtc ledger_step empty_ledger L ∧ rtc ledger_step L L' ∧
    (settled (sys_phase s) → represents (contents (sys_db s)) (ledger_archive L)) ∧
    (settled (sys_phase s') → represents (contents (sys_db s')) (ledger_archive L')) ∧
    ledger_answers L (sys_db s) ∧ ledger_answers L' (sys_db s') ∧
    ledger_ticks L ⊆ ledger_ticks L'.
Proof.
  intros Hh He Hs Hs'.
  destruct (implements_steps _ _ _ (implements_start db Hh He) Hs) as (L & HL & Hi).
  destruct (implements_steps _ _ _ Hi Hs') as (L' & HL' & Hi'). exists L, L'.
  split_and!; [done|done|apply Hi|apply Hi'|by apply implements_answers..|by apply ledger_steps_grow].
Qed.
End Refines.
