(* ===== verification/Torn.v ===== *)
(** * Requests whose reads are interleaved with everything else

    In Interleave.v a handler is one step.  Here the accesses of a request to the
    database, the interceptor's first, are one by one interleaved with the steps
    of the system: between any two of them a pass may make some of its writes,
    those of the status update included, fail, or the process be killed (not between
    two writes of a status update) and started again.  A method that
    reads one record answers as if it had been served at the moment of its last
    access; one that reads a list and then each of its entries answers with
    exactly the entries of the list. *)

From stdpp Require Import sorting base strings numbers pretty gmap list.
From S2P Require Import Prelude GoLib Types Platform Keys Store StoreLogic Utils.
From S2P Require Import Archive Progress Typed Reads Archived Complete Liveness Restarts.
From S2P Require Import ValidatorProofs ProcessorProofs.
From S2P Require Import Middleware Rpc RpcV2 RpcProofs Service ServiceProofs Served System Interleave Ledger Reader.

Local Open Scope Z_scope.

Section Torn.
Context {P : Pebble} {PL : PebbleLaws P} {PR : Protobuf} {PRL : ProtobufLaws PR}.
Context {R : GoRuntime} {RL : GoRuntimeLaws R} {K : K12} {KL : K12Laws K}.
Context {N : NodeConnector} {TL : TransactionLaws N}.
Context {G : GrpcStatus} {GL : GrpcStatusLaws G} {H : HttpClient}.
Variables (arb : bytes) (dis : bool) (srv : Server) (fuel : nat).
Variable clients : list (outcome Client).
Context (Hcon : reports_consistent clients).
Context (Hwf : ∀ client, Ok client ∈ clients → answers_wf client).

Local Abbreviation sys_step := (sys_step arb dis srv fuel clients settled).
Local Abbreviation sys_ok := (sys_ok arb dis clients).
Local Abbreviation torn := (weave sys_db sys_step).
Local Abbreviation always := (always sys_db sys_step).

(** The methods whose handler reads the database at most once. *)
Definition reads_once (c : call) : bool :=
  match c with
  | CallGetTickData _ | CallGetChainHash _ | CallGetTickChainHashV2 _ | CallGetStoreHash _
  | CallGetTickStoreHashV2 _ | CallGetTransaction _ | CallGetComputors _
  | CallGetEmptyTickListV2 _ _ _ | CallGetTransferTransactionsPerTick _ _ _
  | CallGetLatestTick | CallGetHealthCheck => true
  | _ => false
  end.

Lemma reads_once_handle c : reads_once c = true → one_access (accesses (handle srv fuel c)).
Proof.
  destruct c; try discriminate; intros _; access_steps.
  - unfold GetEmptyTickListV2. access_steps.
  - unfold Paging.GetTransactionsForEntityPaged, reader_paged. access_steps.
Qed.

(** ** The interceptor *)

(** The archive grows. *)
Lemma sys_ok_later s s' a : sys_ok s a → rtc sys_step s s' →
  ∃ a', sys_ok s' a' ∧ last_number a ≤ last_number a' ∧
    ∀ e t, processed_in a e t → processed_in a' e t ∧
      ∀ k, k ∈ tick_records t → contents (sys_db s') !! k = contents (sys_db s) !! k.
Proof.
  intros Hs Hsteps. revert a Hs. induction Hsteps as [s|s s1 s' Hstep _ IH]; intros a Hs.
  { exists a. split; [done|]. by split; [lia|]. }
  destruct (sys_ok_step _ _ _ _ _ Hcon Hwf s s1 a Hs Hstep) as (a1 & Hs1 & H1 & Ha).
  destruct (IH a1 Hs1) as (a' & Hs' & Hle & H2). exists a'. split; [done|]. split.
  - destruct Ha as [->|Ha]; [done|]. pose proof (sys_shown _ _ _ _ _ Hs) as Hr.
    destruct (step_adds a a1 (shows_ok _ _ (shown_shows _ _ _ Hr)) (shown_valid _ _ _ Hr) Ha) as [? _]. lia.
  - intros e t Hp. destruct (H2 e t (H1 e t Hp)) as [Hp' Hk]. split; [done|]. intros k Hin.
    rewrite (Hk k Hin). by eapply (sys_step_records arb dis srv fuel clients).
Qed.

Lemma sys_shows s a : sys_ok s a → shows (sys_db s) a.
Proof. intros Hs. apply (shown_shows clients), Hs. Qed.

(** The check, with the system's steps before each of its two accesses, ends as
    the check made at the second one. *)
Lemma always_check s a t : sys_ok s a →
  always (accesses (checkTickWithinArchiverIntervals (S := DB) t)) s (λ o s',
    checkTickWithinArchiverIntervals t (sys_db s') = (o, sys_db s')).
Proof.
  intros Hs. apply always_bind, always_map_err.
  eapply always_mono; [|apply (always_one_access _ _ GetLastProcessedTick); by access_steps].
  intros o s1 Hs1 E1. unfold checkTickWithinArchiverIntervals, mbind, M_bind, mmap_err.
  simpl pts_GetLastProcessedTick. simpl pts_GetProcessedTickIntervals.
  destruct o as [pt|e|]; cbn [map_err]; [|by rewrite E1..].
  destruct (bool_decide_reflect (t > pb.ProcessedTick_TickNumber pt)) as [Hgt|Hle].
  { simpl. rewrite E1. simpl. by rewrite bool_decide_true. }
  apply always_bind, always_map_err.
  eapply always_mono; [|apply (always_one_access _ _ GetProcessedTickIntervals); by access_steps].
  intros o s2 Hs2 E2. cbv beta in E2.
  assert (Hlast : ∃ pt2, GetLastProcessedTick (sys_db s2) = (Ok pt2, sys_db s2) ∧
    ¬ t > pb.ProcessedTick_TickNumber pt2).
  { destruct (sys_ok_later s s1 a Hs Hs1) as (a1 & Hok1 & _).
    destruct (sys_ok_later s1 s2 a1 Hok1 Hs2) as (a2 & Hok2 & Hn & _).
    rewrite (shows_last _ _ (sys_shows s1 a1 Hok1)) in E1. rewrite (shows_last _ _ (sys_shows s2 a2 Hok2)).
    unfold last_number in Hn. destruct (ar_last a1) as [pt1|] eqn:El1; [injection E1 as ->|done].
    destruct (ar_last a2) as [pt2|] eqn:El; [exists pt2; split; [done|lia]|].
    apply (ok_last _ (shows_ok _ _ (sys_shows s1 a1 Hok1))) in El1 as [? _].
    unfold last_number in Hn. lia. }
  destruct Hlast as (pt2 & E & Hle2).
  destruct o as [l|e|]; cbn [map_err];
    [destruct (Tick.WasSkippedByArchive t l) as [[] n] eqn:Ew|..]; simpl;
    rewrite E; cbn [map_err]; rewrite bool_decide_false by done; unfold mbind, M_bind;
    rewrite E2; simpl; by rewrite ?Ew.
Qed.

(** What is left to do once the check let a request about tick [t] through. *)
Lemma always_serve s a c t Q : sys_ok s a → tick_of c = Some t → 1 ≤ t →
  (∀ s1 a1 e, rtc sys_step s s1 → sys_ok s1 a1 → processed_in a1 e t →
     always (accesses (handle srv fuel c)) s1 Q) →
  (∀ s1 o, rtc sys_step s s1 → serve srv fuel c (sys_db s1) = (o, sys_db s1) →
     (∃ a1, sys_ok s1 a1 ∧ ∀ e, ¬ processed_in a1 e t) → Q o s1) →
  always (accesses (serve srv fuel c)) s Q.
Proof.
  intros Hs Hc Ht Hlet Href.
  assert (Hcheck : always (accesses (checkTickWithinArchiverIntervals (S := DB) t)) s (λ o s1,
    match map_err (WrapError "invalid tick number") o with
    | Ok _ => always (accesses (handle srv fuel c)) s1 Q
    | Err e => Q (Err e) s1
    | Panic => Q Panic s1
    end)).
  { eapply always_mono; [|exact (always_check s a t Hs)]. intros o s1 Hs1 Eo. cbv beta in Eo.
    destruct (sys_ok_later s s1 a Hs Hs1) as (a1 & Hok1 & _).
    pose proof (sys_shows _ _ Hok1) as Hps.
    assert (Hserve : serve srv fuel c (sys_db s1) =
      match o with
      | Ok _ => handle srv fuel c (sys_db s1)
      | Err e => (Err (WrapError "invalid tick number" e), sys_db s1)
      | Panic => (Panic, sys_db s1)
      end).
    { unfold serve, GetInterceptor. rewrite checked_tick_of, Hc. unfold mbind, M_bind.
      rewrite mwrap_run, Eo. by destruct o. }
    destruct (shows_check _ _ Hps t Ht) as (o' & E & Hv). rewrite Eo in E. injection E as <-.
    destruct (verdict_cases a1 t o (shows_ok _ _ Hps) Hv) as [[-> [ep Hp]]|(e & -> & Hn)]; simpl.
    - by eapply Hlet.
    - apply Href; [done|done|by exists a1]. }
  unfold serve, GetInterceptor. apply always_bind, always_map_err.
  pose proof (checked_tick_of c) as Hck. rewrite Hc in Hck.
  destruct (checked_tick (request_of c)); [by injection Hck as ->|done].
Qed.

(** ** One record *)

Lemma always_reads_once s a c : sys_ok s a → reads_once c = true →
  (∀ t, tick_of c = Some t → 1 ≤ t) →
  always (accesses (serve srv fuel c)) s (λ o s', serve srv fuel c (sys_db s') = (o, sys_db s')).
Proof.
  intros Hs Hc Ht. assert (Hhandle : ∀ s1, always (accesses (handle srv fuel c)) s1
    (λ o s', handle srv fuel c (sys_db s') = (o, sys_db s')))
    by (intros; by apply always_one_access, reads_once_handle).
  destruct (tick_of c) as [t|] eqn:E.
  - eapply always_serve; [done|done|by apply Ht| |by intros].
    intros s1 a1 e Hs1 Hok1 Hp. eapply always_mono; [|apply Hhandle]. intros o s2 Hs2 Eo.
    destruct (sys_ok_later s1 s2 a1 Hok1 Hs2) as (a2 & Hok2 & _ & Hkeep).
    pose proof (sys_shows _ _ Hok2) as Hps.
    destruct (serve_cases srv fuel c t _ a2 Hps E (Ht t eq_refl)) as [[_ ->]|(_ & _ & Hn & _)]; [done|].
    by destruct (Hn e (proj1 (Hkeep e t Hp))).
  - destruct c; try discriminate; exact (Hhandle s).
Qed.

(** ** Records behind a list *)

(** A transaction the record of tick [t] refers to. *)
Definition listed (db : DB) (t : Z) (id : string) : Prop :=
  (∃ td, stored (contents db) (tickDataKey t) td ∧ id ∈ pb.TickData_TransactionIds td) ∨
  (∃ tts st, stored (contents db) (tickTxStatusKey (uint64 t)) tts ∧
     st ∈ pb.TickTransactionsStatus_Transactions tts ∧ id = pb.TransactionStatus_TxId st).

Lemma stored_same {A} {PM : ProtoMsg A} m k (x y : A) : stored m k x → stored m k y → x = y.
Proof. intros (b & Hb & Hx) (b' & Hb' & Hy). congruence. Qed.

(** Tick [t] is processed, and [id] listed. *)
Definition at_tick (t : Z) (s : system) : Prop := ∃ a e, sys_ok s a ∧ processed_in a e t.

Lemma at_tick_later t s s' : at_tick t s → rtc sys_step s s' → at_tick t s' ∧
  ∀ k, k ∈ tick_records t → contents (sys_db s') !! k = contents (sys_db s) !! k.
Proof.
  intros (a & e & Hs & Hp) Hsteps. destruct (sys_ok_later s s' a Hs Hsteps) as (a' & Hs' & _ & Hk).
  destruct (Hk e t Hp) as [Hp' Hrec]. split; [by exists a', e|done].
Qed.

Lemma stored_later {A} {PM : ProtoMsg A} t s s' k (x : A) : at_tick t s → rtc sys_step s s' →
  k ∈ tick_records t → stored (contents (sys_db s)) k x ↔ stored (contents (sys_db s')) k x.
Proof.
  intros Ht Hsteps Hk. unfold stored. by rewrite (proj2 (at_tick_later t s s' Ht Hsteps) k Hk).
Qed.

Lemma listed_later t s s' id : at_tick t s → rtc sys_step s s' →
  listed (sys_db s) t id → listed (sys_db s') t id.
Proof.
  intros Ht Hsteps [(td & Htd & Hin)|(tts & st & Htts & Hin & Hid)]; [left; exists td|right; exists tts, st].
  - split; [|done]. apply (stored_later t s s'); [done|done|unfold tick_records; set_solver|done].
  - split; [|done]. apply (stored_later t s s'); [done|done|unfold tick_records; set_solver|done].
Qed.

Lemma at_tick_archived t s : at_tick t s → archived (contents (sys_db s)) t.
Proof. intros (a & e & Hs & Hp). by eapply (shown_complete _ _ _ (sys_shown _ _ _ _ _ Hs)). Qed.

(** A listed transaction is read as one with its identifier. *)
Lemma always_GetTransaction t s id : at_tick t s → listed (sys_db s) t id →
  always (accesses (Store.GetTransaction id)) s (λ o s', ∃ tx, o = Ok tx ∧ pb.Transaction_TxId tx = id).
Proof.
  intros Ht Hl. eapply always_mono; [|apply always_one_access; by access_steps].
  intros o s1 Hs1 Eo. cbv beta in Eo. destruct (at_tick_later t s s1 Ht Hs1) as [Ht1 _].
  pose proof (listed_later t s s1 id Ht Hs1 Hl) as Hl1.
  destruct (at_tick_archived t s1 Ht1) as [(td & Htd & Hids) _ (tts & Htts & Hsts) _ _]. clear Hl.
  assert (Hp : is_Some (contents (sys_db s1) !! ([Keys.Transaction] ++ string_bytes id))).
  { destruct Hl1 as [(td' & Htd' & Hin)|(tts' & st & Htts' & Hin & ->)].
    - rewrite (stored_same _ _ _ _ Htd' Htd) in Hin. by apply Hids.
    - rewrite (stored_same _ _ _ _ Htts' Htts) in Hin. by apply Hsts. }
  destruct Ht1 as (a1 & e & Hok1 & _). pose proof (sys_shown _ _ _ _ _ Hok1) as Hr.
  destruct (runs_GetTransaction_present _ (shown_typed _ _ _ Hr) id Hp) as (tx & Hrun & Hid).
  destruct (Hrun (sys_db s1) (shows_healthy _ _ (shown_shows _ _ _ Hr)) eq_refl) as (db' & E & _).
  rewrite E in Eo. injection Eo as <- _. by exists tx.
Qed.

(** A loop over a list, whatever happens between the accesses of its body. *)
Lemma always_each {A B Y} (f : B → A → M DB B) `{!∀ acc x, Reader (f acc x)}
    (I : A → system → Prop) (rel : A → Y → Prop) (add : B → Y → B) (bad : A → Prop) l acc s :
  (∀ x s s', rtc sys_step s s' → I x s → I x s') →
  (∀ acc x s, I x s → always (accesses (f acc x)) s (λ o _,
     (∃ y, rel x y ∧ o = Ok (add acc y)) ∨ (bad x ∧ ∀ b, o ≠ Ok b))) →
  (∀ x, x ∈ l → I x s) →
  always (accesses (foldM f acc l)) s (λ o _,
    (∃ ys, Forall2 rel l ys ∧ o = Ok (foldl add acc ys)) ∨
    ((∃ x, x ∈ l ∧ bad x) ∧ ∀ b, o ≠ Ok b)).
Proof.
  intros Hlater Hf. revert acc s. induction l as [|x l IH]; intros acc s HI.
  { left. exists []. by split; [constructor|]. }
  apply always_foldM. eapply always_mono; [|apply Hf, HI; by left].
  intros o s1 Hs1 [(y & Hy & ->)|[Hbad Ho]].
  - eapply always_mono; [|apply (IH (add acc y) s1)].
    + intros o s2 _ [(ys & Hys & ->)|[(x' & Hin & Hbad) Ho]].
      * left. exists (y :: ys). by split; [constructor|].
      * right. split; [|done]. exists x'. by split; [right|].
    + intros x' Hin. eapply Hlater; [done|]. apply HI. by right.
  - destruct o as [b|e|]; [by destruct (Ho b)|..]; right;
      (split; [exists x; by split; [left|]|done]).
Qed.

(** The methods that read a list of the tick and then what it lists. *)
Definition reads_list (c : call) : bool :=
  match c with
  | CallGetTickTransactions _ | CallGetTickTransferTransactions _
  | CallGetTickApprovedTransactions _ => true
  | _ => false
  end.

(** What they answer: the transactions of the tick's identifiers,
    those of them that transfer something, and the approved ones; where a
    payment to many cannot be decoded, the last method fails. *)
Definition lists (db : DB) (c : call) : outcome (response c) → Prop :=
  match c with
  | CallGetTickTransactions t => λ o, ∃ td txs, stored (contents db) (tickDataKey t) td ∧
      pb.Transaction_TxId <$> txs = pb.TickData_TransactionIds td ∧ o = Ok txs
  | CallGetTickTransferTransactions t => λ o, ∃ td txs, stored (contents db) (tickDataKey t) td ∧
      pb.Transaction_TxId <$> txs = pb.TickData_TransactionIds td ∧
      o = Ok (filter (λ tx, 0 < pb.Transaction_Amount tx) txs)
  | CallGetTickApprovedTransactions t => λ o, ∃ tts, stored (contents db) (tickTxStatusKey (uint64 t)) tts ∧
      ((∃ txs, pb.Transaction_TxId <$> txs = pb.TransactionStatus_TxId <$>
          filter pb.TransactionStatus_MoneyFlew (pb.TickTransactionsStatus_Transactions tts) ∧
        o = Ok (filter paid txs)) ∨
       ((∃ tx, pb.Transaction_TxId tx ∈ pb.TransactionStatus_TxId <$>
           pb.TickTransactionsStatus_Transactions tts ∧ ¬ decodable tx) ∧ ∀ txs, o ≠ Ok txs))
  | _ => λ _, False
  end.

Lemma foldl_snoc {A} (txs acc : list A) : foldl (λ l tx, l ++ [tx]) acc txs = acc ++ txs.
Proof.
  revert acc. induction txs as [|tx txs IH]; intros acc; simpl; [by rewrite app_nil_r|].
  by rewrite IH, <-app_assoc.
Qed.

Lemma foldl_filter {A} (Q : A → Prop) `{!∀ x, Decision (Q x)} (txs acc : list A) :
  foldl (λ l tx, if decide (Q tx) then l ++ [tx] else l) acc txs = acc ++ filter Q txs.
Proof.
  revert acc. induction txs as [|tx txs IH]; intros acc; [by rewrite app_nil_r|]. simpl.
  rewrite IH, filter_cons. destruct (decide (Q tx)); [by rewrite <-app_assoc|done].
Qed.

Lemma Forall2_ids ids txs : Forall2 (λ id tx, pb.Transaction_TxId tx = id) ids txs →
  pb.Transaction_TxId <$> txs = ids.
Proof. induction 1 as [|id tx ids txs <- _ IH]; [done|]. by rewrite fmap_cons, IH. Qed.

Lemma always_transactions {B} (f : B → string → M DB B) `{!∀ acc x, Reader (f acc x)}
    (add : B → pb.Transaction → B) t s acc ids :
  (∀ acc id s, at_tick t s → listed (sys_db s) t id →
     always (accesses (f acc id)) s (λ o _, ∃ tx, pb.Transaction_TxId tx = id ∧ o = Ok (add acc tx))) →
  at_tick t s → (∀ id, id ∈ ids → listed (sys_db s) t id) →
  always (accesses (foldM f acc ids)) s (λ o _,
    ∃ txs, pb.Transaction_TxId <$> txs = ids ∧ o = Ok (foldl add acc txs)).
Proof.
  intros Hf Ht Hids. eapply always_mono; [|apply (always_each f
    (λ id s, at_tick t s ∧ listed (sys_db s) t id) (λ id tx, pb.Transaction_TxId tx = id) add (λ _, False))].
  - intros o s' _ [(txs & Htxs & ->)|[(x & _ & []) _]]. exists txs. split; [by apply Forall2_ids|done].
  - intros id s0 s1 Hs1 [Hat Hl]. split; [by eapply at_tick_later|by eapply listed_later].
  - intros acc' id s0 [Hat Hl]. eapply always_mono; [|by apply Hf]. intros o _ _ (tx & Htx & ->).
    left. by exists tx.
  - auto.
Qed.

(** A record of the tick is read as it is stored. *)
Lemma always_stored {A} {PM : ProtoMsg A} (c : M DB A) `{!Reader c} t s k (x : A) :
  at_tick t s → k ∈ tick_records t → one_access (accesses c) →
  stored (contents (sys_db s)) k x →
  (∀ m, stored m k x → runs m c (Ok x) m) →
  always (accesses c) s (λ o s', o = Ok x ∧ stored (contents (sys_db s')) k x ∧ at_tick t s').
Proof.
  intros Ht Hk H1 Hx Hruns. eapply always_mono; [|by apply always_one_access].
  intros o s1 Hs1 Eo. cbv beta in Eo. destruct (at_tick_later t s s1 Ht Hs1) as [Ht1 _].
  rewrite (stored_later t s s1 k x Ht Hs1 Hk) in Hx. split_and!; [|done|done].
  destruct Ht1 as (a1 & e & Hok1 & _). pose proof (sys_shown _ _ _ _ _ Hok1) as Hr.
  destruct (Hruns _ Hx (sys_db s1) (shows_healthy _ _ (shown_shows _ _ _ Hr)) eq_refl) as (db' & E & _). congruence.
Qed.

Lemma always_GetTickData t s td : at_tick t s → stored (contents (sys_db s)) (tickDataKey t) td →
  always (accesses (Store.GetTickData t)) s (λ o s',
    o = Ok td ∧ stored (contents (sys_db s')) (tickDataKey t) td ∧ at_tick t s').
Proof.
  intros Ht Htd. apply always_stored; [done|unfold tick_records; set_solver|by access_steps|done|].
  intros m Hm. by apply runs_get_stored.
Qed.

Lemma always_statuses t s tts : at_tick t s →
  stored (contents (sys_db s)) (tickTxStatusKey (uint64 t)) tts →
  always (accesses (GetTickTransactionsStatus (uint64 t))) s (λ o s',
    o = Ok tts ∧ stored (contents (sys_db s')) (tickTxStatusKey (uint64 t)) tts ∧ at_tick t s').
Proof.
  intros Ht Htts. apply always_stored; [done|unfold tick_records; set_solver|by access_steps|done|].
  intros m Hm. by apply runs_get_stored.
Qed.

Lemma ids_listed db t td id : stored (contents db) (tickDataKey t) td →
  id ∈ pb.TickData_TransactionIds td → listed db t id.
Proof. intros Htd Hin. left. by exists td. Qed.

(** The two loops over the tick's identifiers. *)
Lemma always_GetTickTransactions t s td : at_tick t s →
  stored (contents (sys_db s)) (tickDataKey t) td →
  always (accesses (Store.GetTickTransactions t)) s (λ o _,
    ∃ txs, pb.Transaction_TxId <$> txs = pb.TickData_TransactionIds td ∧ o = Ok txs) ∧
  always (accesses (Store.GetTickTransferTransactions t)) s (λ o _,
    ∃ txs, pb.Transaction_TxId <$> txs = pb.TickData_TransactionIds td ∧
      o = Ok (filter (λ tx, 0 < pb.Transaction_Amount tx) txs)).
Proof.
  intros Ht Htd. split; apply always_bind, always_map_err;
    (eapply always_mono; [|by apply always_GetTickData]); intros o s1 _ (-> & Htd1 & Ht1); cbn [map_err].
  - eapply always_mono; [|apply (always_transactions _ (λ l tx, l ++ [tx]) t)].
    + intros o s2 _ (txs & Hids & ->). exists txs. by rewrite foldl_snoc.
    + intros acc id s2 Ht2 Hl2. apply always_bind, always_map_err.
      eapply always_mono; [|by eapply always_GetTransaction]. intros o s3 _ (tx & -> & Hid). by exists tx.
    + done.
    + intros id. by apply ids_listed.
  - eapply always_mono; [|apply (always_transactions _
      (λ l tx, if decide (0 < pb.Transaction_Amount tx) then l ++ [tx] else l) t)].
    + intros o s2 _ (txs & Hids & ->). exists txs. by rewrite foldl_filter.
    + intros acc id s2 Ht2 Hl2. apply always_bind, always_map_err.
      eapply always_mono; [|by eapply always_GetTransaction]. intros o s3 _ (tx & -> & Hid).
      cbn [map_err]. destruct (bool_decide_reflect (pb.Transaction_Amount tx ≤ 0)); exists tx;
        (split; [done|]); [rewrite decide_False by lia|rewrite decide_True by lia]; done.
    + done.
    + intros id. by apply ids_listed.
Qed.

(** One status of the list: nothing, or the transaction if it counts. *)
Definition add_approved (l : list pb.Transaction) (o : option pb.Transaction) : list pb.Transaction :=
  match o with Some tx => if decide (paid tx) then l ++ [tx] else l | None => l end.

Definition approves (st : pb.TransactionStatus) (o : option pb.Transaction) : Prop :=
  match o with
  | Some tx => pb.TransactionStatus_MoneyFlew st = true ∧ pb.Transaction_TxId tx = pb.TransactionStatus_TxId st
  | None => pb.TransactionStatus_MoneyFlew st = false
  end.

Lemma always_approved_step t s acc st : at_tick t s → listed (sys_db s) t (pb.TransactionStatus_TxId st) →
  always (accesses (approved_step acc st)) s (λ o _,
    (∃ y, approves st y ∧ o = Ok (add_approved acc y)) ∨
    ((∃ tx, pb.Transaction_TxId tx = pb.TransactionStatus_TxId st ∧ ¬ decodable tx) ∧ ∀ b, o ≠ Ok b)).
Proof.
  intros Ht Hl. unfold approved_step, reader_approved_step.
  destruct (bool_decide_reflect (pb.TransactionStatus_MoneyFlew st = false)) as [Hflew|Hflew].
  { left. by exists None. }
  apply not_false_is_true in Hflew. apply always_bind, always_map_err.
  eapply always_mono; [|by eapply always_GetTransaction]. intros o s1 _ (tx & -> & Hid).
  cbn [map_err]. rewrite copy_of_same.
  destruct (is_send_many tx) eqn:Hmany.
  - apply always_bind. simpl.
    destruct (recomputeSendManyMoneyFlew tx) as [b|e|] eqn:Hb; simpl.
    + destruct (bool_decide_reflect (b = false)) as [->|Hflown]; left; exists (Some tx); (split; [done|]); simpl.
      * rewrite decide_False; [done|]. rewrite paid_recompute, Hmany, Hb. naive_solver.
      * apply not_false_is_true in Hflown as ->. rewrite decide_True; [done|by apply paid_recompute].
    + right. split; [|done]. exists tx. split; [done|]. rewrite decodable_recompute, Hmany, Hb. naive_solver.
    + right. split; [|done]. exists tx. split; [done|]. rewrite decodable_recompute, Hmany, Hb. naive_solver.
  - left. exists (Some tx). split; [done|]. simpl. rewrite decide_True; [done|]. apply paid_recompute. congruence.
Qed.

Lemma approved_txs sts ys : Forall2 approves sts ys →
  ∃ txs, pb.Transaction_TxId <$> txs =
      pb.TransactionStatus_TxId <$> filter pb.TransactionStatus_MoneyFlew sts ∧
    ∀ acc, foldl add_approved acc ys = acc ++ filter paid txs.
Proof.
  induction 1 as [|st y sts ys Hy _ (txs & Hids & IH)].
  { exists []. split; [done|]. intros acc. by rewrite app_nil_r. }
  destruct y as [tx|]; simpl in Hy.
  - destruct Hy as [Hflew Hid]. exists (tx :: txs).
    rewrite filter_cons_True, !fmap_cons, Hids, Hid by (by rewrite Hflew). split; [done|].
    intros acc. simpl. rewrite IH, filter_cons. destruct (decide (paid tx)); [by rewrite <-app_assoc|done].
  - exists txs. rewrite filter_cons_False by (rewrite Hy; intros []). split; [done|exact IH].
Qed.

Lemma always_lists c t s : reads_list c = true → tick_of c = Some t → at_tick t s →
  always (accesses (handle srv fuel c)) s (λ o s', lists (sys_db s') c o).
Proof.
  intros Hl Hc Ht. destruct (at_tick_archived t s Ht) as [(td & Htd & _) _ (tts & Htts & _) _ _].
  assert (Htd' : ∀ s', rtc sys_step s s' → stored (contents (sys_db s')) (tickDataKey t) td).
  { intros s' Hs'. eapply (stored_later t s s'); [done|done|unfold tick_records; set_solver|done]. }
  destruct c; try discriminate Hl; injection Hc as ->; simpl handle.
  - apply always_map_err. eapply always_mono; [|by apply always_GetTickTransactions].
    intros o s1 Hs1 (txs & Hids & ->). exists td, txs. auto.
  - apply always_map_err. eapply always_mono; [|by apply always_GetTickTransactions].
    intros o s1 Hs1 (txs & Hids & ->). exists td, txs. auto.
  - apply always_bind, always_map_err.
    eapply always_mono; [|by apply always_statuses]. intros o s1 _ (-> & Htts1 & Ht1). cbn [map_err].
    eapply always_mono; [|apply (always_each approved_step
      (λ st s, at_tick t s ∧ listed (sys_db s) t (pb.TransactionStatus_TxId st)) approves add_approved
      (λ st, ∃ tx, pb.Transaction_TxId tx = pb.TransactionStatus_TxId st ∧ ¬ decodable tx))].
    + intros o s2 Hs2 Ho. exists tts. split.
      { apply (stored_later t s1 s2); [done|done|unfold tick_records; set_solver|done]. }
      destruct Ho as [(ys & Hys & ->)|[(st & Hin & tx & Hid & Hd) Ho]].
      * left. destruct (approved_txs _ _ Hys) as (txs & Hids & Hfold). exists txs. by rewrite Hfold.
      * right. split; [|done]. exists tx. split; [|done]. rewrite Hid. by apply list_elem_of_fmap_2.
    + intros st s2 s3 Hs3 [Hat Hlist]. split; [by eapply at_tick_later|by eapply listed_later].
    + intros acc st s2 [Hat Hlist]. by eapply always_approved_step.
    + intros st Hin. split; [done|]. right. by exists tts, st.
Qed.

(** C9: Lists have no holes.  A request for the transactions of a tick from 1 on reads
    the list of identifiers and then every transaction by itself.  Let the
    system step in between in any way, write by write, on a database that was
    empty at first and does not fail, with reports in range and consistent with
    each other ([reports_consistent]), 32-byte digests in the nodes' tick data, and the
    process not taken down between two writes of a status update:
    the request is refused as it would be at its last access, which is right
    for the archive requests are shown then, or it is answered with one transaction
    for each identifier of the tick's stored list, in order (only those that
    transfer something, or were approved, where the method asks for these; the last
    fails where a payment to many cannot be decoded). *)
Theorem lists_complete db s s' c t o : healthy db → contents db = ∅ →
  rtc sys_step (MkSystem db Stopped []) s → reads_list c = true → tick_of c = Some t → 1 ≤ t →
  torn (accesses (serve srv fuel c)) s o s' →
  (∃ e, o = Err e ∧ serve srv fuel c (sys_db s') = (Err e, sys_db s') ∧
     ∃ a, shows (sys_db s') a ∧ ∀ e, ¬ processed_in a e t) ∨
  lists (sys_db s') c o.
Proof.
  intros Hh He Hsteps Hlist Hc Ht Hw.
  destruct (reachable_ok _ _ _ _ _ Hcon Hwf db s Hh He Hsteps) as [a Hs].
  refine (always_weave _ _ _ _ _ _ (λ o s', (∃ e, o = Err e ∧
    serve srv fuel c (sys_db s') = (Err e, sys_db s') ∧
    ∃ a, shows (sys_db s') a ∧ ∀ e, ¬ processed_in a e t) ∨ lists (sys_db s') c o) _ Hw).
  eapply always_serve; [done..| |].
  - intros s1 a1 e Hs1 Hok1 Hp. eapply always_mono; [|apply (always_lists c t s1 Hlist Hc); by exists a1, e].
    intros o1 s2 _ Hl. by right.
  - intros s1 o1 Hs1 Eo (a1 & Hok1 & Hn). left.
    pose proof (sys_shows _ _ Hok1) as Hps.
    destruct (serve_cases srv fuel c t _ a1 Hps Hc Ht) as [[[e Hp] _]|(e & E & _)]; [by destruct (Hn e)|].
    rewrite Eo in E. injection E as ->. exists (WrapError "invalid tick number" e).
    split_and!; [done|done|]. by exists a1.
Qed.

(** C8: Requests are atomic.  Let the accesses of a request for a record (the
    data or a digest of a tick, a transaction, a computor list, a list of
    empty ticks, an identity's transfers, the latest tick, the health) be interleaved
    in any way with the single writes of passes, their status updates included, with other
    requests, failed passes, kills and starts, on a database that was empty at
    first and does not fail, with reports in range and consistent with each other
    ([reports_consistent]), 32-byte digests in the nodes' tick data, and the process not taken down between two writes of a status update: the request is
    answered, or refused, as it would be if it were served in one piece at the
    moment of its last access. *)
Theorem requests_atomic db s s' c o : healthy db → contents db = ∅ →
  rtc sys_step (MkSystem db Stopped []) s → reads_once c = true →
  (∀ t, tick_of c = Some t → 1 ≤ t) →
  torn (accesses (serve srv fuel c)) s o s' →
  rtc sys_step s s' ∧ serve srv fuel c (sys_db s') = (o, sys_db s').
Proof.
  intros Hh He Hsteps Hc Ht Hw. split; [by eapply weave_steps|].
  destruct (reachable_ok _ _ _ _ _ Hcon Hwf db s Hh He Hsteps) as [a Hs].
  exact (always_weave _ _ _ _ _ _ _ (always_reads_once s a c Hs Hc Ht) Hw).
Qed.
End Torn.
