(* ===== verification/Gateway.v ===== *)
(** * protobuff/archive.pb.gw.go: the HTTP gateway

    [Server.Start] puts a reverse proxy in front of the gRPC server: the path of
    an HTTP request is matched against the patterns of the service's methods,
    its variables become fields of the request message, the query fills in the
    others, and the method is called over gRPC.  One [pattern_], one [request_]
    and one [handle_] definition per method, as in the generated file, which
    also has variants that call the server directly (GatewayLocal.v). *)

From stdpp Require Import sorting base strings numbers pretty gmap list.
From S2P Require Import Prelude GoLib Types Platform Keys Store Paging Middleware Rpc RpcV2 Service.

Local Open Scope Z_scope.

(** ** net/http and grpc-gateway's runtime *)

(** A request: method, components of the path, and what parsing the query
    yields. *)
Record http_request := MkRequest {
  request_Method : string;
  request_Path : list string;
  request_ParseForm : outcome (list (string * string))
}.

(** The compiled form of a path template: opcodes with operands, and the
    strings they refer to. *)
Record Pattern := NewPattern { pattern_ops : list Z; pattern_pool : list string }.

Class GatewayRuntime := {
  (** the variables of the template, if the components match it *)
  Pattern_Match : Pattern → list string → option (gmap string string);
  runtime_Uint32 : string → outcome Z;
  runtime_String : string → outcome string;
  (** the fields of the message the query names, but for those in the path *)
  runtime_PopulateQueryParameters : call → list (string * string) → list string → outcome call;
  (** the metadata of the HTTP request, for the gRPC call of this name with this
      path template *)
  runtime_AnnotateContext : http_request → string → string → outcome unit;
  (** the same for a server in the same process *)
  runtime_AnnotateIncomingContext : http_request → string → string → outcome unit;
  (** the status that a caller over gRPC receives for an error of a method *)
  grpc_status : error → error;
  (** which of the registered handlers gets the request *)
  ServeMux_select : list (string * Pattern) → string → list string →
    option (nat * gmap string string)
}.

(** ** The patterns *)
Definition pattern_GetTickQuorumDataV2 : Pattern :=
  NewPattern [2; 0; 2; 1; 1; 0; 4; 1; 5; 2; 2; 3] ["v2"; "ticks"; "tick_number"; "quorum-data"].

Definition pattern_GetTickChainHashV2 : Pattern :=
  NewPattern [2; 0; 2; 1; 1; 0; 4; 1; 5; 2; 2; 3] ["v2"; "ticks"; "tick_number"; "hash"].

Definition pattern_GetTickStoreHashV2 : Pattern :=
  NewPattern [2; 0; 2; 1; 1; 0; 4; 1; 5; 2; 2; 3] ["v2"; "ticks"; "tick_number"; "store-hash"].

Definition pattern_GetTickTransactionsV2 : Pattern :=
  NewPattern [2; 0; 2; 1; 1; 0; 4; 1; 5; 2; 2; 3] ["v2"; "ticks"; "tick_number"; "transactions"].

Definition pattern_GetTransactionV2 : Pattern :=
  NewPattern [2; 0; 2; 1; 1; 0; 4; 1; 5; 2] ["v2"; "transactions"; "tx_id"].

Definition pattern_GetSendManyTransactionV2 : Pattern :=
  NewPattern [2; 0; 2; 1; 1; 0; 4; 1; 5; 2; 2; 3] ["v2"; "transactions"; "tx_id"; "sendmany"].

Definition pattern_GetIdentityTransfersInTickRangeV2 : Pattern :=
  NewPattern [2; 0; 2; 1; 1; 0; 4; 1; 5; 2; 2; 3] ["v2"; "identities"; "identity"; "transfers"].

Definition pattern_GetEpochTickListV2 : Pattern :=
  NewPattern [2; 0; 2; 1; 1; 0; 4; 1; 5; 2; 2; 3] ["v2"; "epochs"; "epoch"; "ticks"].

Definition pattern_GetEmptyTickListV2 : Pattern :=
  NewPattern [2; 0; 2; 1; 1; 0; 4; 1; 5; 2; 2; 3] ["v2"; "epochs"; "epoch"; "empty-ticks"].

Definition pattern_GetTickData : Pattern :=
  NewPattern [2; 0; 2; 1; 1; 0; 4; 1; 5; 2; 2; 3] ["v1"; "ticks"; "tick_number"; "tick-data"].

Definition pattern_GetQuorumTickData : Pattern :=
  NewPattern [2; 0; 2; 1; 1; 0; 4; 1; 5; 2; 2; 3] ["v1"; "ticks"; "tick_number"; "quorum-tick-data"].

Definition pattern_GetTickTransactions : Pattern :=
  NewPattern [2; 0; 2; 1; 1; 0; 4; 1; 5; 2; 2; 3] ["v1"; "ticks"; "tick_number"; "transactions"].

Definition pattern_GetTickTransferTransactions : Pattern :=
  NewPattern [2; 0; 2; 1; 1; 0; 4; 1; 5; 2; 2; 3] ["v1"; "ticks"; "tick_number"; "transfer-transactions"].

Definition pattern_GetTickApprovedTransactions : Pattern :=
  NewPattern [2; 0; 2; 1; 1; 0; 4; 1; 5; 2; 2; 3] ["v1"; "ticks"; "tick_number"; "approved-transactions"].

Definition pattern_GetChainHash : Pattern :=
  NewPattern [2; 0; 2; 1; 1; 0; 4; 1; 5; 2; 2; 3] ["v1"; "ticks"; "tick_number"; "chain-hash"].

Definition pattern_GetStoreHash : Pattern :=
  NewPattern [2; 0; 2; 1; 1; 0; 4; 1; 5; 2; 2; 3] ["v1"; "ticks"; "tick_number"; "store-hash"].

Definition pattern_GetTransaction : Pattern :=
  NewPattern [2; 0; 2; 1; 1; 0; 4; 1; 5; 2] ["v1"; "transactions"; "tx_id"].

Definition pattern_GetTransactionStatus : Pattern :=
  NewPattern [2; 0; 2; 1; 1; 0; 4; 1; 5; 2] ["v1"; "tx-status"; "tx_id"].

Definition pattern_GetTransferTransactionsPerTick : Pattern :=
  NewPattern [2; 0; 2; 1; 1; 0; 4; 1; 5; 2; 2; 3] ["v1"; "identities"; "identity"; "transfer-transactions"].

Definition pattern_GetComputors : Pattern :=
  NewPattern [2; 0; 2; 1; 1; 0; 4; 1; 5; 2; 2; 3] ["v1"; "epochs"; "epoch"; "computors"].

Definition pattern_GetStatus : Pattern :=
  NewPattern [2; 0; 2; 1] ["v1"; "status"].

Definition pattern_GetLatestTick : Pattern :=
  NewPattern [2; 0; 2; 1] ["v1"; "latestTick"].

Definition pattern_GetHealthCheck : Pattern :=
  NewPattern [2; 0; 2; 1] ["v1"; "healthcheck"].

Section Gateway.
Context {GW : GatewayRuntime} {P : Pebble}.

(** An answer of some method. *)
Definition answer : Type := { c : call & response c }.

(** The gRPC connection to the server. *)
Definition client_conn : Type := ∀ c : call, M DB (response c).

Definition request_func : Type :=
  client_conn → http_request → gmap string string → M DB answer.

Definition invoke (client : client_conn) (c : call) : M DB answer :=
  msg ← client c; mret (existT c msg).

(** The variables of the path, as every method reads them. *)
Definition path_value (pathParams : gmap string string) (name : string) : outcome string :=
  match pathParams !! name with
  | Some val => Ok val
  | None => Err (StatusError InvalidArgument "missing parameter" None)
  end.

Definition type_mismatch (err : error) : error :=
  StatusError InvalidArgument "type mismatch, parameter" None.

Definition path_uint32 (pathParams : gmap string string) (name : string) : outcome Z :=
  val ← path_value pathParams name; map_err type_mismatch (runtime_Uint32 val).

Definition path_string (pathParams : gmap string string) (name : string) : outcome string :=
  val ← path_value pathParams name; map_err type_mismatch (runtime_String val).

(** [status.Errorf(codes.InvalidArgument, "%v", err)] *)
Definition invalid_argument (err : error) : error := StatusError InvalidArgument "" None.

Definition query_parameters (req : http_request) (protoReq : call) (filter : list string) :
    outcome call :=
  form ← map_err invalid_argument (request_ParseForm req);
  map_err invalid_argument (runtime_PopulateQueryParameters protoReq form filter).

(** ** The methods *)
Definition request_GetTickQuorumDataV2 : request_func := λ client req pathParams,
  tick_number ← lift (path_uint32 pathParams "tick_number");
  invoke client (CallGetTickQuorumDataV2 tick_number).

Definition request_GetTickChainHashV2 : request_func := λ client req pathParams,
  tick_number ← lift (path_uint32 pathParams "tick_number");
  invoke client (CallGetTickChainHashV2 tick_number).

Definition request_GetTickStoreHashV2 : request_func := λ client req pathParams,
  tick_number ← lift (path_uint32 pathParams "tick_number");
  invoke client (CallGetTickStoreHashV2 tick_number).

Definition request_GetTickTransactionsV2 : request_func := λ client req pathParams,
  tick_number ← lift (path_uint32 pathParams "tick_number");
  protoReq ← lift (query_parameters req (CallGetTickTransactionsV2 tick_number false false)
    ["tick_number"]);
  invoke client protoReq.

Definition request_GetTransactionV2 : request_func := λ client req pathParams,
  tx_id ← lift (path_string pathParams "tx_id");
  invoke client (CallGetTransactionV2 tx_id).

Definition request_GetSendManyTransactionV2 : request_func := λ client req pathParams,
  tx_id ← lift (path_string pathParams "tx_id");
  invoke client (CallGetSendManyTransactionV2 tx_id).

Definition request_GetIdentityTransfersInTickRangeV2 : request_func := λ client req pathParams,
  identity ← lift (path_string pathParams "identity");
  protoReq ← lift (query_parameters req (CallGetIdentityTransfersInTickRangeV2 identity 0 0 false false 0 0)
    ["identity"]);
  invoke client protoReq.

Definition request_GetEpochTickListV2 : request_func := λ client req pathParams,
  epoch ← lift (path_uint32 pathParams "epoch");
  protoReq ← lift (query_parameters req (CallGetEpochTickListV2 epoch 0 0 false) ["epoch"]);
  invoke client protoReq.

Definition request_GetEmptyTickListV2 : request_func := λ client req pathParams,
  epoch ← lift (path_uint32 pathParams "epoch");
  protoReq ← lift (query_parameters req (CallGetEmptyTickListV2 epoch 0 0) ["epoch"]);
  invoke client protoReq.

Definition request_GetTickData : request_func := λ client req pathParams,
  tick_number ← lift (path_uint32 pathParams "tick_number");
  invoke client (CallGetTickData tick_number).

Definition request_GetQuorumTickData : request_func := λ client req pathParams,
  tick_number ← lift (path_uint32 pathParams "tick_number");
  invoke client (CallGetQuorumTickData tick_number).

Definition request_GetTickTransactions : request_func := λ client req pathParams,
  tick_number ← lift (path_uint32 pathParams "tick_number");
  invoke client (CallGetTickTransactions tick_number).

Definition request_GetTickTransferTransactions : request_func := λ client req pathParams,
  tick_number ← lift (path_uint32 pathParams "tick_number");
  invoke client (CallGetTickTransferTransactions tick_number).

Definition request_GetTickApprovedTransactions : request_func := λ client req pathParams,
  tick_number ← lift (path_uint32 pathParams "tick_number");
  invoke client (CallGetTickApprovedTransactions tick_number).

Definition request_GetChainHash : request_func := λ client req pathParams,
  tick_number ← lift (path_uint32 pathParams "tick_number");
  invoke client (CallGetChainHash tick_number).

Definition request_GetStoreHash : request_func := λ client req pathParams,
  tick_number ← lift (path_uint32 pathParams "tick_number");
  invoke client (CallGetStoreHash tick_number).

Definition request_GetTransaction : request_func := λ client req pathParams,
  tx_id ← lift (path_string pathParams "tx_id");
  invoke client (CallGetTransaction tx_id).

Definition request_GetTransactionStatus : request_func := λ client req pathParams,
  tx_id ← lift (path_string pathParams "tx_id");
  invoke client (CallGetTransactionStatus tx_id).

Definition request_GetTransferTransactionsPerTick : request_func := λ client req pathParams,
  identity ← lift (path_string pathParams "identity");
  protoReq ← lift (query_parameters req (CallGetTransferTransactionsPerTick identity 0 0)
    ["identity"]);
  invoke client protoReq.

Definition request_GetComputors : request_func := λ client req pathParams,
  epoch ← lift (path_uint32 pathParams "epoch");
  invoke client (CallGetComputors epoch).

Definition request_GetStatus : request_func := λ client req pathParams,
  invoke client CallGetStatus.

Definition request_GetLatestTick : request_func := λ client req pathParams,
  invoke client CallGetLatestTick.

Definition request_GetHealthCheck : request_func := λ client req pathParams,
  invoke client CallGetHealthCheck.

(** ** The handlers *)
Record route := MkRoute {
  route_method : string;
  route_pattern : Pattern;
  route_rpcMethodName : string;
  route_pathPattern : string;
  route_handler : request_func
}.

(** The body of every handler: an error goes to [runtime.HTTPError], a message
    is forwarded. *)
Definition Handle (meth : string) (pattern : Pattern) (rpcMethodName pathPattern : string)
    (request : request_func) : route :=
  MkRoute meth pattern rpcMethodName pathPattern (λ client req pathParams,
    _ ← lift (runtime_AnnotateContext req rpcMethodName pathPattern);
    request client req pathParams).

Definition handle_GetTickQuorumDataV2 : route :=
  Handle "GET" pattern_GetTickQuorumDataV2
    "/qubic.archiver.archive.pb.ArchiveService/GetTickQuorumDataV2"
    "/v2/ticks/{tick_number}/quorum-data"
    request_GetTickQuorumDataV2.

Definition handle_GetTickChainHashV2 : route :=
  Handle "GET" pattern_GetTickChainHashV2
    "/qubic.archiver.archive.pb.ArchiveService/GetTickChainHashV2"
    "/v2/ticks/{tick_number}/hash"
    request_GetTickChainHashV2.

Definition handle_GetTickStoreHashV2 : route :=
  Handle "GET" pattern_GetTickStoreHashV2
    "/qubic.archiver.archive.pb.ArchiveService/GetTickStoreHashV2"
    "/v2/ticks/{tick_number}/store-hash"
    request_GetTickStoreHashV2.

Definition handle_GetTickTransactionsV2 : route :=
  Handle "GET" pattern_GetTickTransactionsV2
    "/qubic.archiver.archive.pb.ArchiveService/GetTickTransactionsV2"
    "/v2/ticks/{tick_number}/transactions"
    request_GetTickTransactionsV2.

Definition handle_GetTransactionV2 : route :=
  Handle "GET" pattern_GetTransactionV2
    "/qubic.archiver.archive.pb.ArchiveService/GetTransactionV2"
    "/v2/transactions/{tx_id}"
    request_GetTransactionV2.

Definition handle_GetSendManyTransactionV2 : route :=
  Handle "GET" pattern_GetSendManyTransactionV2
    "/qubic.archiver.archive.pb.ArchiveService/GetSendManyTransactionV2"
    "/v2/transactions/{tx_id}/sendmany"
    request_GetSendManyTransactionV2.

Definition handle_GetIdentityTransfersInTickRangeV2 : route :=
  Handle "GET" pattern_GetIdentityTransfersInTickRangeV2
    "/qubic.archiver.archive.pb.ArchiveService/GetIdentityTransfersInTickRangeV2"
    "/v2/identities/{identity}/transfers"
    request_GetIdentityTransfersInTickRangeV2.

Definition handle_GetEpochTickListV2 : route :=
  Handle "GET" pattern_GetEpochTickListV2
    "/qubic.archiver.archive.pb.ArchiveService/GetEpochTickListV2"
    "/v2/epochs/{epoch}/ticks"
    request_GetEpochTickListV2.

Definition handle_GetEmptyTickListV2 : route :=
  Handle "GET" pattern_GetEmptyTickListV2
    "/qubic.archiver.archive.pb.ArchiveService/GetEmptyTickListV2"
    "/v2/epochs/{epoch}/empty-ticks"
    request_GetEmptyTickListV2.

Definition handle_GetTickData : route :=
  Handle "GET" pattern_GetTickData
    "/qubic.archiver.archive.pb.ArchiveService/GetTickData"
    "/v1/ticks/{tick_number}/tick-data"
    request_GetTickData.

Definition handle_GetQuorumTickData : route :=
  Handle "GET" pattern_GetQuorumTickData
    "/qubic.archiver.archive.pb.ArchiveService/GetQuorumTickData"
    "/v1/ticks/{tick_number}/quorum-tick-data"
    request_GetQuorumTickData.

Definition handle_GetTickTransactions : route :=
  Handle "GET" pattern_GetTickTransactions
    "/qubic.archiver.archive.pb.ArchiveService/GetTickTransactions"
    "/v1/ticks/{tick_number}/transactions"
    request_GetTickTransactions.

Definition handle_GetTickTransferTransactions : route :=
  Handle "GET" pattern_GetTickTransferTransactions
    "/qubic.archiver.archive.pb.ArchiveService/GetTickTransferTransactions"
    "/v1/ticks/{tick_number}/transfer-transactions"
    request_GetTickTransferTransactions.

Definition handle_GetTickApprovedTransactions : route :=
  Handle "GET" pattern_GetTickApprovedTransactions
    "/qubic.archiver.archive.pb.ArchiveService/GetTickApprovedTransactions"
    "/v1/ticks/{tick_number}/approved-transactions"
    request_GetTickApprovedTransactions.

Definition handle_GetChainHash : route :=
  Handle "GET" pattern_GetChainHash
    "/qubic.archiver.archive.pb.ArchiveService/GetChainHash"
    "/v1/ticks/{tick_number}/chain-hash"
    request_GetChainHash.

Definition handle_GetStoreHash : route :=
  Handle "GET" pattern_GetStoreHash
    "/qubic.archiver.archive.pb.ArchiveService/GetStoreHash"
    "/v1/ticks/{tick_number}/store-hash"
    request_GetStoreHash.

Definition handle_GetTransaction : route :=
  Handle "GET" pattern_GetTransaction
    "/qubic.archiver.archive.pb.ArchiveService/GetTransaction"
    "/v1/transactions/{tx_id}"
    request_GetTransaction.

Definition handle_GetTransactionStatus : route :=
  Handle "GET" pattern_GetTransactionStatus
    "/qubic.archiver.archive.pb.ArchiveService/GetTransactionStatus"
    "/v1/tx-status/{tx_id}"
    request_GetTransactionStatus.

Definition handle_GetTransferTransactionsPerTick : route :=
  Handle "GET" pattern_GetTransferTransactionsPerTick
    "/qubic.archiver.archive.pb.ArchiveService/GetTransferTransactionsPerTick"
    "/v1/identities/{identity}/transfer-transactions"
    request_GetTransferTransactionsPerTick.

Definition handle_GetComputors : route :=
  Handle "GET" pattern_GetComputors
    "/qubic.archiver.archive.pb.ArchiveService/GetComputors"
    "/v1/epochs/{epoch}/computors"
    request_GetComputors.

Definition handle_GetStatus : route :=
  Handle "GET" pattern_GetStatus
    "/qubic.archiver.archive.pb.ArchiveService/GetStatus"
    "/v1/status"
    request_GetStatus.

Definition handle_GetLatestTick : route :=
  Handle "GET" pattern_GetLatestTick
    "/qubic.archiver.archive.pb.ArchiveService/GetLatestTick"
    "/v1/latestTick"
    request_GetLatestTick.

Definition handle_GetHealthCheck : route :=
  Handle "GET" pattern_GetHealthCheck
    "/qubic.archiver.archive.pb.ArchiveService/GetHealthCheck"
    "/v1/healthcheck"
    request_GetHealthCheck.

Definition RegisterArchiveServiceHandlerClient : list route :=
  [handle_GetTickQuorumDataV2;
   handle_GetTickChainHashV2;
   handle_GetTickStoreHashV2;
   handle_GetTickTransactionsV2;
   handle_GetTransactionV2;
   handle_GetSendManyTransactionV2;
   handle_GetIdentityTransfersInTickRangeV2;
   handle_GetEpochTickListV2;
   handle_GetEmptyTickListV2;
   handle_GetTickData;
   handle_GetQuorumTickData;
   handle_GetTickTransactions;
   handle_GetTickTransferTransactions;
   handle_GetTickApprovedTransactions;
   handle_GetChainHash;
   handle_GetStoreHash;
   handle_GetTransaction;
   handle_GetTransactionStatus;
   handle_GetTransferTransactionsPerTick;
   handle_GetComputors;
   handle_GetStatus;
   handle_GetLatestTick;
   handle_GetHealthCheck].

(** [mux.ServeHTTP]: [None] when no handler matches. *)
Definition ServeHTTP (mux : list route) (client : client_conn) (req : http_request) :
    M DB (option answer) :=
  match ServeMux_select ((λ r, (route_method r, route_pattern r)) <$> mux)
          (request_Method req) (request_Path req) with
  | Some (i, pathParams) =>
      match mux !! i with
      | Some r => a ← route_handler r client req pathParams; mret (Some a)
      | None => mret None
      end
  | None => mret None
  end.
End Gateway.

Section Server.
Context {GW : GatewayRuntime} {P : Pebble} {PR : Protobuf} {R : GoRuntime} {K : K12}.
Context {N : NodeConnector} {G : GrpcStatus} {H : HttpClient}.
Variables (s : Server) (fuel : nat).

(** The server at the other end of the connection. *)
Definition connection : client_conn := λ c, mmap_err grpc_status (serve s fuel c).

(** The gateway in front of the server, as [Server.Start] connects them. *)
Definition gateway (req : http_request) : M DB (option answer) :=
  ServeHTTP RegisterArchiveServiceHandlerClient connection req.
End Server.
