(* ===== verification/GatewayProofs.v ===== *)
(** * archive.pb.gw.go: theorems

    Every method of the service has one path, no two methods share one, and a
    request for it calls the method with what the path and the query say. *)

From stdpp Require Import sorting base strings numbers pretty gmap list.
From S2P Require Import Prelude GoLib Types Platform Keys Store Paging Middleware Rpc RpcV2 Service.
From S2P Require Import Gateway.

Local Open Scope Z_scope.

(** ** Paths and templates *)

(** Characters that are neither separators nor escapes in a path. *)
Definition plain_char (c : Z) : Prop :=
  48 ≤ c ≤ 57 ∨ 65 ≤ c ≤ 90 ∨ 97 ≤ c ≤ 122 ∨ c = 45 ∨ c = 95.

Definition plain (s : string) : Prop := s ≠ ""%string ∧ Forall plain_char (string_bytes s).

(** The decimal form of a number. *)
Definition decimal (n : Z) : string := pretty (Z.to_N n).

(** A path template: two literals, maybe a variable, maybe a literal. *)
Record template := MkTemplate {
  template_root : string;
  template_kind : string;
  template_variable : option string;
  template_leaf : option string
}.

Definition opt_list {A} (o : option A) : list A := match o with Some a => [a] | None => [] end.

(** Its compiled form. *)
Definition compiled (tm : template) : Pattern :=
  NewPattern ([2; 0; 2; 1] ++ (if template_variable tm then [1; 0; 4; 1; 5; 2] else []) ++
              (if template_leaf tm then [2; if template_variable tm then 3 else 2] else []))
    ([template_root tm; template_kind tm] ++ opt_list (template_variable tm) ++
     opt_list (template_leaf tm)).

(** The components it stands for, with a value for the variable. *)
Definition instance (tm : template) (v : string) : list string :=
  [template_root tm; template_kind tm] ++ (if template_variable tm then [v] else []) ++
  opt_list (template_leaf tm).

(** The template as the gRPC metadata spells it. *)
Definition template_string (tm : template) : string :=
  "/" +:+ template_root tm +:+ "/" +:+ template_kind tm +:+
  match template_variable tm with Some x => "/{" +:+ x +:+ "}" | None => "" end +:+
  match template_leaf tm with Some l => "/" +:+ l | None => "" end.

Definition bindings (tm : template) (v : string) : gmap string string :=
  match template_variable tm with Some x => {[x := v]} | None => ∅ end.

(** ** The templates of the service *)
Definition tick_template (root leaf : string) : template :=
  MkTemplate root "ticks" (Some "tick_number") (Some leaf).

Definition templates : list template :=
  [tick_template "v2" "quorum-data"; tick_template "v2" "hash"; tick_template "v2" "store-hash";
   tick_template "v2" "transactions"; MkTemplate "v2" "transactions" (Some "tx_id") None;
   MkTemplate "v2" "transactions" (Some "tx_id") (Some "sendmany");
   MkTemplate "v2" "identities" (Some "identity") (Some "transfers");
   MkTemplate "v2" "epochs" (Some "epoch") (Some "ticks");
   MkTemplate "v2" "epochs" (Some "epoch") (Some "empty-ticks");
   tick_template "v1" "tick-data"; tick_template "v1" "quorum-tick-data";
   tick_template "v1" "transactions"; tick_template "v1" "transfer-transactions";
   tick_template "v1" "approved-transactions"; tick_template "v1" "chain-hash";
   tick_template "v1" "store-hash"; MkTemplate "v1" "transactions" (Some "tx_id") None;
   MkTemplate "v1" "tx-status" (Some "tx_id") None;
   MkTemplate "v1" "identities" (Some "identity") (Some "transfer-transactions");
   MkTemplate "v1" "epochs" (Some "epoch") (Some "computors");
   MkTemplate "v1" "status" None None; MkTemplate "v1" "latestTick" None None;
   MkTemplate "v1" "healthcheck" None None].

(** The path of a method with its parameters. *)
Definition path_of (c : call) : list string :=
  match c with
  | CallGetTickQuorumDataV2 t => ["v2"; "ticks"; decimal t; "quorum-data"]
  | CallGetTickChainHashV2 t => ["v2"; "ticks"; decimal t; "hash"]
  | CallGetTickStoreHashV2 t => ["v2"; "ticks"; decimal t; "store-hash"]
  | CallGetTickTransactionsV2 t _ _ => ["v2"; "ticks"; decimal t; "transactions"]
  | CallGetTransactionV2 id => ["v2"; "transactions"; id]
  | CallGetSendManyTransactionV2 id => ["v2"; "transactions"; id; "sendmany"]
  | CallGetIdentityTransfersInTickRangeV2 id _ _ _ _ _ _ => ["v2"; "identities"; id; "transfers"]
  | CallGetEpochTickListV2 e _ _ _ => ["v2"; "epochs"; decimal e; "ticks"]
  | CallGetEmptyTickListV2 e _ _ => ["v2"; "epochs"; decimal e; "empty-ticks"]
  | CallGetTickData t => ["v1"; "ticks"; decimal t; "tick-data"]
  | CallGetQuorumTickData t => ["v1"; "ticks"; decimal t; "quorum-tick-data"]
  | CallGetTickTransactions t => ["v1"; "ticks"; decimal t; "transactions"]
  | CallGetTickTransferTransactions t => ["v1"; "ticks"; decimal t; "transfer-transactions"]
  | CallGetTickApprovedTransactions t => ["v1"; "ticks"; decimal t; "approved-transactions"]
  | CallGetChainHash t => ["v1"; "ticks"; decimal t; "chain-hash"]
  | CallGetStoreHash t => ["v1"; "ticks"; decimal t; "store-hash"]
  | CallGetTransaction id => ["v1"; "transactions"; id]
  | CallGetTransactionStatus id => ["v1"; "tx-status"; id]
  | CallGetTransferTransactionsPerTick id _ _ => ["v1"; "identities"; id; "transfer-transactions"]
  | CallGetComputors e => ["v1"; "epochs"; decimal e; "computors"]
  | CallGetStatus => ["v1"; "status"]
  | CallGetLatestTick => ["v1"; "latestTick"]
  | CallGetHealthCheck => ["v1"; "healthcheck"]
  end.

(** The place of a method in the registration. *)
Definition method_number (c : call) : nat :=
  match c with
  | CallGetTickQuorumDataV2 _ => 0
  | CallGetTickChainHashV2 _ => 1
  | CallGetTickStoreHashV2 _ => 2
  | CallGetTickTransactionsV2 _ _ _ => 3
  | CallGetTransactionV2 _ => 4
  | CallGetSendManyTransactionV2 _ => 5
  | CallGetIdentityTransfersInTickRangeV2 _ _ _ _ _ _ _ => 6
  | CallGetEpochTickListV2 _ _ _ _ => 7
  | CallGetEmptyTickListV2 _ _ _ => 8
  | CallGetTickData _ => 9
  | CallGetQuorumTickData _ => 10
  | CallGetTickTransactions _ => 11
  | CallGetTickTransferTransactions _ => 12
  | CallGetTickApprovedTransactions _ => 13
  | CallGetChainHash _ => 14
  | CallGetStoreHash _ => 15
  | CallGetTransaction _ => 16
  | CallGetTransactionStatus _ => 17
  | CallGetTransferTransactionsPerTick _ _ _ => 18
  | CallGetComputors _ => 19
  | CallGetStatus => 20
  | CallGetLatestTick => 21
  | CallGetHealthCheck => 22
  end%nat.

(** The variable of its path. *)
Definition value_of (c : call) : string := default "" (path_of c !! 2%nat).

(** The message before the query is looked at, and the fields it may not set. *)
Definition path_part (c : call) : call :=
  match c with
  | CallGetTickTransactionsV2 t _ _ => CallGetTickTransactionsV2 t false false
  | CallGetIdentityTransfersInTickRangeV2 id _ _ _ _ _ _ =>
      CallGetIdentityTransfersInTickRangeV2 id 0 0 false false 0 0
  | CallGetEpochTickListV2 e _ _ _ => CallGetEpochTickListV2 e 0 0 false
  | CallGetEmptyTickListV2 e _ _ => CallGetEmptyTickListV2 e 0 0
  | CallGetTransferTransactionsPerTick id _ _ => CallGetTransferTransactionsPerTick id 0 0
  | c => c
  end.

(** The variable of a path that has a query, the query's fields being those it
    does not name. *)
Definition query_variable (c : call) : option string :=
  match c with
  | CallGetTickTransactionsV2 _ _ _ => Some "tick_number"
  | CallGetIdentityTransfersInTickRangeV2 _ _ _ _ _ _ _
  | CallGetTransferTransactionsPerTick _ _ _ => Some "identity"
  | CallGetEpochTickListV2 _ _ _ _ | CallGetEmptyTickListV2 _ _ _ => Some "epoch"
  | _ => None
  end.

(** ** What the gateway relies on *)
Class GatewayLaws (GW : GatewayRuntime) : Prop := {
  (** A compiled template matches its instances and binds its variable. *)
  Pattern_Match_instance tm v : Forall plain (instance tm v) →
    Pattern_Match (compiled tm) (instance tm v) = Some (bindings tm v);
  Pattern_Match_only tm comps : Forall plain comps → is_Some (Pattern_Match (compiled tm) comps) →
    ∃ v, comps = instance tm v;
  runtime_Uint32_decimal n : is_uint32 n → runtime_Uint32 (decimal n) = Ok n;
  runtime_Uint32_total s : runtime_Uint32 s ≠ Panic;
  runtime_String_same s : runtime_String s = Ok s;
  (** Of the message, the query sets fields that the path does not. *)
  runtime_PopulateQueryParameters_keeps c x form c' : query_variable c = Some x →
    runtime_PopulateQueryParameters c form [x] = Ok c' → path_part c' = path_part c;
  runtime_PopulateQueryParameters_total c form filter :
    runtime_PopulateQueryParameters c form filter ≠ Panic;
  (** The handler is one whose pattern matches, if the method has one. *)
  ServeMux_select_matches handlers meth comps i ps :
    ServeMux_select handlers meth comps = Some (i, ps) →
    ∃ m pat, handlers !! i = Some (m, pat) ∧ Pattern_Match pat comps = Some ps;
  ServeMux_select_some handlers meth comps i pat :
    handlers !! i = Some (meth, pat) → is_Some (Pattern_Match pat comps) →
    is_Some (ServeMux_select handlers meth comps)
}.

(** ** The requests *)

(** Parameters that a path can carry: numbers of 32 bits, plain strings. *)
Definition expressible (c : call) : Prop :=
  match c with
  | CallGetTransactionV2 id | CallGetSendManyTransactionV2 id | CallGetTransaction id
  | CallGetTransactionStatus id | CallGetIdentityTransfersInTickRangeV2 id _ _ _ _ _ _
  | CallGetTransferTransactionsPerTick id _ _ => plain id
  | CallGetEpochTickListV2 e _ _ _ | CallGetEmptyTickListV2 e _ _ | CallGetComputors e => is_uint32 e
  | CallGetStatus | CallGetLatestTick | CallGetHealthCheck => True
  | c => ∃ t, tick_of c = Some t ∧ is_uint32 t
  end.

(** The fields that are not in the path are the query's. *)
Definition completed {GW : GatewayRuntime} (c : call) (req : http_request) : Prop :=
  ∀ x, query_variable c = Some x → ∃ form, request_ParseForm req = Ok form ∧
    runtime_PopulateQueryParameters (path_part c) form [x] = Ok c.

(** A request for the call: the path is the call's, and the query completes the
    message. *)
Record requests {GW : GatewayRuntime} (c : call) (req : http_request) : Prop := {
  requests_method : request_Method req = "GET";
  requests_path : request_Path req = path_of c;
  requests_context rpcMethodName pathPattern :
    runtime_AnnotateContext req rpcMethodName pathPattern = Ok tt;
  requests_query : completed c req
}.

(** How the value of a variable is read: the numbers are those in decimal. *)
Definition reads {GW : GatewayRuntime} (tm : template) (v v' : string) : Prop :=
  match template_variable tm with
  | Some x =>
      if bool_decide (x = "tick_number" ∨ x = "epoch")
      then ∃ n, runtime_Uint32 v = Ok n ∧ v' = decimal n
      else runtime_String v = Ok v'
  | None => True
  end.

(** What a request asks for, its numbers written in any way that is understood. *)
Record asks {GW : GatewayRuntime} (c : call) (req : http_request) : Prop := {
  asks_path : ∃ tm v v', templates !! method_number c = Some tm ∧
    request_Path req = instance tm v ∧ path_of c = instance tm v' ∧ reads tm v v';
  asks_query : completed c req
}.

(** ** Plain strings *)
#[export] Instance plain_char_dec c : Decision (plain_char c).
Proof. unfold plain_char. apply _. Defined.

#[export] Instance plain_dec s : Decision (plain s).
Proof. unfold plain. apply _. Defined.

Lemma pretty_N_char_plain x : (x < 10)%N →
  plain_char (Z.of_N (Ascii.N_of_ascii (pretty_N_char x))).
Proof.
  intros Hx. apply (bool_decide_unpack _).
  by destruct x as [|[[[[]|[]|]|[[]|[]|]|]|[[[]|[]|]|[[]|[]|]|]|]].
Qed.

Lemma pretty_N_go_plain x s : Forall plain_char (string_bytes s) →
  Forall plain_char (string_bytes (pretty_N_go x s)).
Proof.
  revert s. induction (N.lt_wf_0 x) as [x _ IH]. intros s Hs.
  destruct (decide (x = 0)%N) as [->|Hx]; [by rewrite pretty_N_go_0|].
  rewrite pretty_N_go_step by lia. apply IH; [apply N.div_lt; lia|].
  constructor; [|done]. apply pretty_N_char_plain. by apply N.mod_lt.
Qed.

Lemma decimal_plain n : plain (decimal n).
Proof.
  unfold decimal, pretty, pretty_N. case_decide as Hn; [by apply (bool_decide_unpack _); vm_compute|].
  split; [|apply pretty_N_go_plain; constructor].
  destruct (decide (Z.to_N n = 0)%N) as [|Hz]; [done|]. intros E.
  rewrite pretty_N_go_step in E by lia. revert E. clear.
  generalize (Z.to_N n `div` 10)%N as x. intros x.
  assert (G : ∀ x s, s ≠ ""%string → pretty_N_go x s ≠ ""%string).
  { clear. intros x. induction (N.lt_wf_0 x) as [x _ IH]. intros s Hs.
    destruct (decide (x = 0)%N) as [->|Hx]; [by rewrite pretty_N_go_0|].
    rewrite pretty_N_go_step by lia. apply IH; [apply N.div_lt; lia|done]. }
  by apply G.
Qed.

(** ** The templates do not overlap *)
Lemma path_instance c : ∃ tm,
  templates !! method_number c = Some tm ∧ path_of c = instance tm (value_of c).
Proof. destruct c; eexists; split; reflexivity. Qed.

(** Two templates no path is an instance of. *)
Definition apart (tm tm' : template) : bool :=
  bool_decide (template_root tm ≠ template_root tm' ∨ template_kind tm ≠ template_kind tm' ∨
    length (instance tm "") ≠ length (instance tm' "")) ||
  match template_leaf tm, template_leaf tm' with
  | Some l, Some l' => bool_decide (l ≠ l')
  | _, _ => false
  end.

Lemma length_instance tm v v' : length (instance tm v) = length (instance tm v').
Proof. unfold instance. by destruct (template_variable tm). Qed.

Lemma last_instance tm v l : template_leaf tm = Some l → last (instance tm v) = Some l.
Proof.
  unfold instance. intros ->. change (opt_list (Some l)) with [l]. by rewrite !app_assoc, last_snoc.
Qed.

Lemma apart_instances tm tm' v v' : apart tm tm' = true → instance tm v ≠ instance tm' v'.
Proof.
  unfold apart. rewrite orb_true_iff, bool_decide_eq_true. intros H E.
  assert (Hlen := f_equal length E). rewrite (length_instance tm v ""), (length_instance tm' v' "") in Hlen.
  assert (Hlast := f_equal last E). unfold instance in E. injection E as Hr Hk _.
  destruct H as [[?|[?|?]]|H]; [done..|].
  destruct (template_leaf tm) as [l|] eqn:Hl, (template_leaf tm') as [l'|] eqn:Hl'; try done.
  rewrite (last_instance _ _ _ Hl), (last_instance _ _ _ Hl') in Hlast.
  apply bool_decide_eq_true in H. congruence.
Qed.

Lemma templates_apart i j tm tm' : templates !! i = Some tm → templates !! j = Some tm' →
  i ≠ j → apart tm tm' = true.
Proof.
  assert (H : forallb (λ p, forallb (λ q, bool_decide (p.1 = q.1) || apart p.2 q.2)
    (imap pair templates)) (imap pair templates) = true) by (vm_compute; reflexivity).
  rewrite forallb_forall in H. intros Hi Hj Hij.
  assert (Hel : ∀ k t, templates !! k = Some t → In (k, t) (imap pair templates)).
  { intros k t Hk. apply list_elem_of_In, (list_elem_of_lookup_2 _ k).
    by rewrite list_lookup_imap, Hk. }
  specialize (H _ (Hel i tm Hi)). rewrite forallb_forall in H. specialize (H _ (Hel j tm' Hj)).
  simpl in H. by rewrite bool_decide_false in H.
Qed.

Lemma path_plain c : expressible c → Forall plain (path_of c).
Proof.
  assert (Hlit : ∀ s, bool_decide (plain s) = true → plain s) by (intros s; apply bool_decide_eq_true).
  intros Hc. destruct c; simpl in *;
    repeat first [apply Forall_nil; exact I | apply Forall_cons; split];
    first [by apply Hlit | apply decimal_plain | exact Hc].
Qed.

(** ** Which method gets the request *)
Section Routing.
Context {GW : GatewayRuntime} {GL : GatewayLaws GW} {P : Pebble}.

Let table : list (string * Pattern) :=
  (λ r, (route_method r, route_pattern r)) <$> RegisterArchiveServiceHandlerClient.

Lemma table_templates : table = (λ tm, ("GET"%string, compiled tm)) <$> templates.
Proof. reflexivity. Qed.

(** The patterns are the compiled forms of the path templates next to them. *)
Lemma routes_documented :
  route_pathPattern <$> RegisterArchiveServiceHandlerClient = template_string <$> templates.
Proof. reflexivity. Qed.

Lemma table_lookup i m pat : table !! i = Some (m, pat) →
  ∃ tm, templates !! i = Some tm ∧ m = "GET"%string ∧ pat = compiled tm.
Proof.
  rewrite table_templates, list_lookup_fmap, fmap_Some. intros (tm & Htm & [= -> ->]). by exists tm.
Qed.

(** Whatever is selected, the path is one of its template's. *)
Lemma select_template meth comps i ps : Forall plain comps →
  ServeMux_select table meth comps = Some (i, ps) →
  ∃ tm v, templates !! i = Some tm ∧ comps = instance tm v ∧ ps = bindings tm v.
Proof.
  intros Hp Hs. apply ServeMux_select_matches in Hs as (m & pat & Hi & Hm).
  apply table_lookup in Hi as (tm & Htm & _ & ->).
  destruct (Pattern_Match_only tm comps Hp) as [v ->]; [by exists ps|].
  rewrite Pattern_Match_instance in Hm by done. injection Hm as <-. by exists tm, v.
Qed.

(** No two methods share a path. *)
Lemma select_path c : expressible c →
  ∃ tm, templates !! method_number c = Some tm ∧
    ServeMux_select table "GET" (path_of c) = Some (method_number c, bindings tm (value_of c)).
Proof.
  intros Hc. destruct (path_instance c) as (tm & Htm & Hpath). exists tm. split; [done|].
  pose proof (path_plain c Hc) as Hp.
  assert (Hi : table !! method_number c = Some ("GET"%string, compiled tm))
    by (by rewrite table_templates, list_lookup_fmap, Htm).
  destruct (ServeMux_select_some table "GET" (path_of c) _ _ Hi) as [[i ps] Hs].
  { rewrite Hpath in *. rewrite Pattern_Match_instance by done. by eexists. }
  rewrite Hs. pose proof (select_template _ _ _ _ Hp Hs) as (tm' & v & Htm' & Hpath' & ->).
  destruct (decide (i = method_number c)) as [->|Hn].
  - rewrite Htm in Htm'. injection Htm' as <-. do 2 f_equal.
    rewrite Hpath in Hpath'. unfold instance, bindings in *.
    destruct (template_variable tm); [|done]. by injection Hpath' as ->.
  - destruct (apart_instances tm' tm v (value_of c)); [|congruence].
    by eapply templates_apart.
Qed.
End Routing.

(** ** From the request to the call *)
Section Gateway.
Context {GW : GatewayRuntime} {GL : GatewayLaws GW} {P : Pebble}.

Lemma path_uint32_bound (x : string) n : is_uint32 n → path_uint32 {[x := decimal n]} x = Ok n.
Proof.
  intros Hn. unfold path_uint32, path_value. rewrite lookup_singleton_eq. cbn.
  by rewrite runtime_Uint32_decimal.
Qed.

Lemma path_string_bound (x v : string) : path_string {[x := v]} x = Ok v.
Proof.
  unfold path_string, path_value. rewrite lookup_singleton_eq. cbn. by rewrite runtime_String_same.
Qed.

Lemma query_parameters_requested c req x : requests c req → query_variable c = Some x →
  query_parameters req (path_part c) [x] = Ok c.
Proof.
  intros [_ _ _ Hq] Hx. destruct (Hq x Hx) as (form & Hf & Hp). unfold query_parameters.
  rewrite Hf. cbn. by rewrite Hp.
Qed.

(** The tick of a call that a path can carry. *)
Lemma expressible_tick c t : tick_of c = Some t → is_uint32 t → expressible c.
Proof. destruct c; cbn; intros [= ->] Ht; by exists t. Qed.

Lemma route_reaches client c req tm : templates !! method_number c = Some tm →
  expressible c → requests c req →
  ∃ r, RegisterArchiveServiceHandlerClient !! method_number c = Some r ∧
    ∀ db, route_handler r client req (bindings tm (value_of c)) db = invoke client c db.
Proof.
  intros Htm Hc Hreq.
  assert (Hctx := requests_context _ _ Hreq).
  assert (Hq := λ x, query_parameters_requested c req x Hreq).
  destruct c; injection Htm as <-; (eexists; split; [reflexivity|]); intros db;
    cbn -[path_uint32 path_string query_parameters invoke lift mbind];
    unfold mbind, M_bind; unfold lift at 1; rewrite Hctx;
    lazymatch goal with |- ?l = _ => let l' := eval red in l in change l with l' end;
    unfold mbind, M_bind, lift; try reflexivity;
    rewrite ?path_string_bound, ?path_uint32_bound by first [exact Hc | by destruct Hc as (? & [= <-] & ?)];
    try reflexivity; specialize (Hq _ eq_refl); cbn [path_part] in Hq; by rewrite Hq.
Qed.

(** An answer as HTTP forwards it. *)
Definition forwarded {c : call} (o : outcome (response c)) : outcome (option answer) :=
  match o with Ok msg => Ok (Some (existT c msg)) | Err e => Err e | Panic => Panic end.

Lemma ServeHTTP_reaches client c req db : expressible c → requests c req →
  ServeHTTP RegisterArchiveServiceHandlerClient client req db =
    (forwarded (client c db).1, (client c db).2).
Proof.
  intros Hc Hreq. destruct (select_path c Hc) as (tm & Htm & Hs).
  destruct (route_reaches client c req tm Htm Hc Hreq) as (r & Hr & Hroute).
  unfold ServeHTTP. rewrite (requests_method _ _ Hreq), (requests_path _ _ Hreq), Hs, Hr.
  unfold mbind, M_bind. rewrite Hroute. unfold invoke, mbind, M_bind.
  by destruct (client c db) as [[msg|e|] db'].
Qed.

(** A request_ function either makes one call or refuses on its own. *)
Definition refusal (o : outcome (option answer)) : Prop :=
  o = Ok None ∨ ∃ details, o = Err (StatusError InvalidArgument details None).

Definition dispatches (f : client_conn → M DB answer) (ok : call → Prop) : Prop :=
  (∃ c, ok c ∧ ∀ client db, f client db = invoke client c db) ∨
  (∃ details, ∀ client db, f client db = (Err (StatusError InvalidArgument details None), db)).

Lemma dispatches_call (ok : call → Prop) c : ok c → dispatches (λ client, invoke client c) ok.
Proof. left. by exists c. Qed.

Lemma dispatches_lift {A} (o : outcome A) (k : A → client_conn → M DB answer) ok :
  (∃ a, o = Ok a ∧ dispatches (k a) ok) ∨
  (∃ details, o = Err (StatusError InvalidArgument details None)) →
  dispatches (λ client, a ← lift o; k a client) ok.
Proof.
  intros [(a & -> & [(c & Hc & Hk)|(d & Hk)])|(d & ->)].
  - left. exists c. split; [done|]. intros. apply Hk.
  - right. exists d. intros. apply Hk.
  - right. by exists d.
Qed.

Lemma dispatches_uint32 (x v : string) k ok :
  (∀ n, runtime_Uint32 v = Ok n → dispatches (k n) ok) →
  dispatches (λ client, n ← lift (path_uint32 {[x := v]} x); k n client) ok.
Proof.
  intros Hk. apply (dispatches_lift _ k). unfold path_uint32, path_value.
  rewrite lookup_singleton_eq. cbn. pose proof (runtime_Uint32_total v).
  destruct (runtime_Uint32 v) as [n|e|]; [left; eauto|right; by eexists|done].
Qed.

Lemma dispatches_string (x v : string) (k : string → client_conn → M DB answer) ok :
  dispatches (k v) ok → dispatches (λ client, s ← lift (path_string {[x := v]} x); k s client) ok.
Proof. intros Hk. apply (dispatches_lift _ k). left. rewrite path_string_bound. eauto. Qed.

Lemma dispatches_query req c x (k : call → client_conn → M DB answer) ok :
  request_ParseForm req ≠ Panic → query_variable c = Some x → path_part c = c →
  (∀ c', path_part c' = c → completed c' req → dispatches (k c') ok) →
  dispatches (λ client, c' ← lift (query_parameters req c [x]); k c' client) ok.
Proof.
  intros Hf Hx Hc Hk. apply (dispatches_lift _ k). unfold query_parameters.
  destruct (request_ParseForm req) as [form|e|] eqn:Ef; [|by right; eexists|done]. cbn.
  pose proof (runtime_PopulateQueryParameters_total c form [x]).
  destruct (runtime_PopulateQueryParameters c form [x]) as [c'|e|] eqn:Ep; [|by right; eexists|done].
  assert (Hp := runtime_PopulateQueryParameters_keeps _ _ _ _ Hx Ep). rewrite Hc in Hp.
  left. exists c'. split; [done|]. apply Hk; [done|]. intros y Hy. exists form. split; [done|].
  assert (query_variable c' = query_variable c) as Eq by (rewrite <-Hp; by destruct c').
  rewrite Hp. congruence.
Qed.

Ltac route_step :=
  cbv beta delta [
    request_GetTickQuorumDataV2 request_GetTickChainHashV2 request_GetTickStoreHashV2
    request_GetTickTransactionsV2 request_GetTransactionV2 request_GetSendManyTransactionV2
    request_GetIdentityTransfersInTickRangeV2 request_GetEpochTickListV2
    request_GetEmptyTickListV2 request_GetTickData request_GetQuorumTickData
    request_GetTickTransactions request_GetTickTransferTransactions
    request_GetTickApprovedTransactions request_GetChainHash request_GetStoreHash
    request_GetTransaction request_GetTransactionStatus
    request_GetTransferTransactionsPerTick request_GetComputors request_GetStatus
    request_GetLatestTick request_GetHealthCheck];
  cbn [bindings template_variable tick_template].

Ltac route_done :=
  split; [reflexivity|]; split; [first [assumption | by intros ? [=]]|];
  eexists; split; [reflexivity|]; cbn; try reflexivity; try (by eexists); by apply runtime_String_same.

(** Each route calls its own method, with the value of its variable. *)
Lemma route_dispatches req i tm v : templates !! i = Some tm →
  (∀ m p, runtime_AnnotateContext req m p = Ok tt) → request_ParseForm req ≠ Panic →
  ∃ r, RegisterArchiveServiceHandlerClient !! i = Some r ∧
    dispatches (λ client, route_handler r client req (bindings tm v))
      (λ c, method_number c = i ∧ completed c req ∧
         ∃ v', path_of c = instance tm v' ∧ reads tm v v').
Proof.
  intros Htm Hctx Hf.
  do 23 try (destruct i as [|i]; [injection Htm as <-; (eexists; split; [reflexivity|]);
    apply (dispatches_lift _ (λ _ client, _)); left; exists tt; split; [apply Hctx|]|]);
    try done.
  all: route_step.
  all: first [apply dispatches_uint32; intros n Hn | apply dispatches_string | idtac].
  all: first [apply dispatches_call; route_done
    | apply dispatches_query; [done..|]; intros c Hc Hq; apply dispatches_call;
      destruct c; try discriminate Hc; injection Hc as [= ->]; route_done].
  Unshelve. all: exact v.
Qed.

(** Dispatch, in full: a request asks for one call, which is made, or for
    none, and then the service is not reached and nothing changes. *)
Lemma ServeHTTP_dispatches req : Forall plain (request_Path req) →
  (∀ m p, runtime_AnnotateContext req m p = Ok tt) → request_ParseForm req ≠ Panic →
  (∃ c, asks c req ∧ ∀ client db,
     ServeHTTP RegisterArchiveServiceHandlerClient client req db =
       (forwarded (client c db).1, (client c db).2)) ∨
  (∃ o, refusal o ∧ ∀ client db,
     ServeHTTP RegisterArchiveServiceHandlerClient client req db = (o, db)).
Proof.
  intros Hp Hctx Hf. unfold ServeHTTP.
  destruct (ServeMux_select _ _ _) as [[i ps]|] eqn:Hs;
    [|right; exists (Ok None); split; [by left|done]].
  apply select_template in Hs as (tm & v & Htm & Hpath & ->); [|done].
  destruct (route_dispatches req i tm v Htm Hctx Hf) as (r & -> & [(c & (<- & Hq & v' & Hv) & Hc)|(d & Hd)]).
  - left. exists c. split; [split; [by exists tm, v, v'|done]|]. intros client db.
    unfold mbind, M_bind. rewrite Hc. unfold invoke, mbind, M_bind.
    by destruct (client c db) as [[msg|e|] db'].
  - right. exists (Err (StatusError InvalidArgument d None)). split; [right; by exists d|].
    intros client db. unfold mbind, M_bind. by rewrite Hd.
Qed.
End Gateway.
