(* ===== verification/GatewayServed.v ===== *)
(** * From the nodes to the HTTP answers

    The gateway in front of the service: which HTTP request becomes which call,
    and, with the processor behind it, what the answers are. *)

From stdpp Require Import sorting base strings numbers pretty gmap list.
From S2P Require Import Prelude GoLib Types Platform Keys Store StoreLogic Utils.
From S2P Require Import Archive Progress Typed Reads Archived Complete Middleware Rpc RpcProofs.
From S2P Require Import ProcessorProofs Liveness Restarts Service ServiceProofs Served.
From S2P Require Import Gateway GatewayProofs.

Local Open Scope Z_scope.

Section Served.
Context {P : Pebble} {PL : PebbleLaws P} {PR : Protobuf} {PRL : ProtobufLaws PR}.
Context {R : GoRuntime} {K : K12} {KL : K12Laws K} {N : NodeConnector} {TL : TransactionLaws N}.
Context {G : GrpcStatus} {GL : GrpcStatusLaws G} {H : HttpClient}.
Context {GW : GatewayRuntime} {GWL : GatewayLaws GW}.
Variables (srv : Server) (fuel : nat).

Definition reply (c : call) (msg : response c) : option answer := Some (existT c msg).

(** What comes back over the connection and out of the gateway. *)
Definition http_answer {c : call} (o : outcome (response c)) : outcome (option answer) :=
  forwarded (map_err grpc_status o).

Lemma connection_serves c db :
  connection srv fuel c db = (map_err grpc_status (serve srv fuel c db).1, db).
Proof.
  unfold connection, mmap_err. pose proof (serve_reads_only srv fuel c db) as Hd.
  destruct (serve srv fuel c db) as [o db']. simpl in *. by subst.
Qed.

Lemma gateway_serves c req db : expressible c → requests c req →
  gateway srv fuel req db = (http_answer (serve srv fuel c db).1, db).
Proof.
  intros Hc Hreq. unfold gateway. by rewrite (ServeHTTP_reaches _ c), connection_serves.
Qed.

Lemma gateway_answers c req db o : expressible c → requests c req →
  serve srv fuel c db = (o, db) → gateway srv fuel req db = (http_answer o, db).
Proof. intros Hc Hreq E. by rewrite (gateway_serves c), E. Qed.

(** C20: Every method has a URL.  A GET request whose path is the one of a call
    of the service, with numbers of 32 bits in decimal and plain strings, and
    whose query gives the other fields, is answered as the service answers that
    call, an error as the status grpc makes of it, whichever of the 23 methods
    it is; the database is not changed. *)
Theorem gateway_reaches c req db : expressible c → requests c req →
  gateway srv fuel req db = (http_answer (serve srv fuel c db).1, db).
Proof. apply gateway_serves. Qed.

(** C19: What a request does is decided by the request alone: either it asks for
    one call, by a path of that method whose number the runtime can read and
    with a query that fits the message, and the service's answer to that call
    is forwarded; or it is turned away, with no route or as an invalid argument,
    whatever the server and its database. *)
Theorem gateway_dispatches req : Forall plain (request_Path req) →
  (∀ m p, runtime_AnnotateContext req m p = Ok tt) → request_ParseForm req ≠ Panic →
  (∃ c, asks c req ∧
     ∀ db, gateway srv fuel req db = (http_answer (serve srv fuel c db).1, db)) ∨
  (∃ o, refusal o ∧ ∀ db, gateway srv fuel req db = (o, db)).
Proof.
  intros Hp Hctx Hf. destruct (ServeHTTP_dispatches req Hp Hctx Hf) as [(c & Hc & E)|(o & Ho & E)].
  - left. exists c. split; [done|]. intros db. unfold gateway. by rewrite E, connection_serves.
  - right. exists o. split; [done|]. intros db. apply E.
Qed.

(** A tick as HTTP requests see it. *)
Definition http_answered (db : DB) (t : Z) : Prop := ∃ td txs d,
  stored (contents db) (tickDataKey t) td ∧
  pb.Transaction_TxId <$> txs = pb.TickData_TransactionIds td ∧
  contents db !! chainDigestKey t = Some d ∧ is_array 32 d ∧
  (∀ req, requests (CallGetTickData t) req → gateway srv fuel req db =
     (Ok (reply (CallGetTickData t) (if proto_Equal td pb.emptyTickData then None else Some td)), db)) ∧
  (∀ req, requests (CallGetTickTransactions t) req → gateway srv fuel req db =
     (Ok (reply (CallGetTickTransactions t) txs), db)) ∧
  (∀ req, requests (CallGetChainHash t) req → gateway srv fuel req db =
     (Ok (reply (CallGetChainHash t) (hex_EncodeToString d)), db)).

Definition http_refused (db : DB) (a : archive) (t : Z) : Prop :=
  ∀ c req, tick_of c = Some t → requests c req → ∃ e,
    gateway srv fuel req db =
      (Err (grpc_status (WrapError "invalid tick number" e)), db) ∧ verdict a t (Err e).

Lemma answered_http db t : is_uint32 t → answered srv fuel db t → http_answered db t.
Proof.
  intros Ht [(td & Htd & Ed & txs & Et & Hids & _) _ (d & Hd & Ha & Ec & _) _].
  exists td, txs, d. do 4 (split; [done|]).
  assert (Hx : ∀ c, tick_of c = Some t → expressible c) by (intros c Hc; by eapply expressible_tick).
  repeat split; intros req Hreq.
  - by rewrite (gateway_answers (CallGetTickData t) req db _ (Hx (CallGetTickData t) eq_refl) Hreq Ed).
  - by rewrite (gateway_answers (CallGetTickTransactions t) req db _ (Hx (CallGetTickTransactions t) eq_refl) Hreq Et).
  - by rewrite (gateway_answers (CallGetChainHash t) req db _ (Hx (CallGetChainHash t) eq_refl) Hreq Ec).
Qed.

Lemma refused_http db a t : is_uint32 t → refused srv fuel db a t → http_refused db a t.
Proof.
  intros Ht Hr c req Hc Hreq. destruct (Hr c Hc) as (e & E & Hv). exists e. split; [|done].
  by rewrite (gateway_answers c req db _ (expressible_tick c t Hc Ht) Hreq E).
Qed.

Context {RL : GoRuntimeLaws R}.

(** C4: From the nodes to the URLs.  As in the claim about the service's answers after
    the lives of the archiver: any lives on a database that was empty at first and
    whose operations do not fail, none of them killed in the middle of a status
    update, with reports that are consistent over all the lives
    ([reports_consistent]: numbers in range, and no later initial tick with an
    earlier epoch) and 32-byte digests in the nodes' tick data.  Then a request
    for /v1/ticks/t/tick-data, /v1/ticks/t/transactions or /v1/ticks/t/chain-hash is
    answered, when tick t is in a processed interval, with the stored tick data,
    with its transactions in the order of its identifiers and with its chain digest of
    32 bytes in hexadecimal; and when it is in none, every request about it is refused
    with the reason. *)
Theorem lives_serve_http lives db : healthy db → contents db = ∅ →
  reports_consistent (lives ≫= life_passes) →
  (∀ client, Ok client ∈ lives ≫= life_passes → answers_wf client) → Forall spared lives →
  let db' := run_lives lives db in
  ∃ a, represents (contents db') a ∧ archive_ok a ∧ ∀ t, 1 ≤ t → is_uint32 t →
    ((∃ e, processed_in a e t) ∧ http_answered db' t) ∨
    ((∀ e, ¬ processed_in a e t) ∧ http_refused db' a t).
Proof.
  intros Hh He Hcon Hwf Hsp db'.
  destruct (lives_served srv fuel lives db Hh He Hcon Hwf Hsp) as (a & Hrep & Hok & Ht).
  exists a. split; [done|]. split; [done|]. intros t H1 Hu. destruct (Ht t H1) as [[Hp Ha]|[Hn Hr]].
  - left. split; [done|]. by apply answered_http.
  - right. split; [done|]. by apply refused_http.
Qed.
End Served.
