(* ===== verification/GatewayLocal.v ===== *)
(** * protobuff/archive.pb.gw.go: the gateway without a connection

    The variants that call the methods of the server object themselves.  The
    program registers the others; with these the requests would not pass the
    interceptor.  The functions differ from those of Gateway.v in what they
    call and in whose context the metadata goes to. *)

From stdpp Require Import sorting base strings numbers pretty gmap list.
From S2P Require Import Prelude GoLib Types Platform Keys Store Paging Middleware Rpc RpcV2 Service.
From S2P Require Import Gateway.

Local Open Scope Z_scope.

Section Local.
Context {GW : GatewayRuntime} {P : Pebble}.

(** ** The methods, on an [ArchiveServiceServer] *)
Definition local_request_GetTickQuorumDataV2 : request_func := λ server req pathParams,
  tick_number ← lift (path_uint32 pathParams "tick_number");
  invoke server (CallGetTickQuorumDataV2 tick_number).

Definition local_request_GetTickChainHashV2 : request_func := λ server req pathParams,
  tick_number ← lift (path_uint32 pathParams "tick_number");
  invoke server (CallGetTickChainHashV2 tick_number).

Definition local_request_GetTickStoreHashV2 : request_func := λ server req pathParams,
  tick_number ← lift (path_uint32 pathParams "tick_number");
  invoke server (CallGetTickStoreHashV2 tick_number).

Definition local_request_GetTickTransactionsV2 : request_func := λ server req pathParams,
  tick_number ← lift (path_uint32 pathParams "tick_number");
  protoReq ← lift (query_parameters req (CallGetTickTransactionsV2 tick_number false false)
    ["tick_number"]);
  invoke server protoReq.

Definition local_request_GetTransactionV2 : request_func := λ server req pathParams,
  tx_id ← lift (path_string pathParams "tx_id");
  invoke server (CallGetTransactionV2 tx_id).

Definition local_request_GetSendManyTransactionV2 : request_func := λ server req pathParams,
  tx_id ← lift (path_string pathParams "tx_id");
  invoke server (CallGetSendManyTransactionV2 tx_id).

Definition local_request_GetIdentityTransfersInTickRangeV2 : request_func := λ server req pathParams,
  identity ← lift (path_string pathParams "identity");
  protoReq ← lift (query_parameters req (CallGetIdentityTransfersInTickRangeV2 identity 0 0 false false 0 0)
    ["identity"]);
  invoke server protoReq.

Definition local_request_GetEpochTickListV2 : request_func := λ server req pathParams,
  epoch ← lift (path_uint32 pathParams "epoch");
  protoReq ← lift (query_parameters req (CallGetEpochTickListV2 epoch 0 0 false) ["epoch"]);
  invoke server protoReq.

Definition local_request_GetEmptyTickListV2 : request_func := λ server req pathParams,
  epoch ← lift (path_uint32 pathParams "epoch");
  protoReq ← lift (query_parameters req (CallGetEmptyTickListV2 epoch 0 0) ["epoch"]);
  invoke server protoReq.

Definition local_request_GetTickData : request_func := λ server req pathParams,
  tick_number ← lift (path_uint32 pathParams "tick_number");
  invoke server (CallGetTickData tick_number).

Definition local_request_GetQuorumTickData : request_func := λ server req pathParams,
  tick_number ← lift (path_uint32 pathParams "tick_number");
  invoke server (CallGetQuorumTickData tick_number).

Definition local_request_GetTickTransactions : request_func := λ server req pathParams,
  tick_number ← lift (path_uint32 pathParams "tick_number");
  invoke server (CallGetTickTransactions tick_number).

Definition local_request_GetTickTransferTransactions : request_func := λ server req pathParams,
  tick_number ← lift (path_uint32 pathParams "tick_number");
  invoke server (CallGetTickTransferTransactions tick_number).

Definition local_request_GetTickApprovedTransactions : request_func := λ server req pathParams,
  tick_number ← lift (path_uint32 pathParams "tick_number");
  invoke server (CallGetTickApprovedTransactions tick_number).

Definition local_request_GetChainHash : request_func := λ server req pathParams,
  tick_number ← lift (path_uint32 pathParams "tick_number");
  invoke server (CallGetChainHash tick_number).

Definition local_request_GetStoreHash : request_func := λ server req pathParams,
  tick_number ← lift (path_uint32 pathParams "tick_number");
  invoke server (CallGetStoreHash tick_number).

Definition local_request_GetTransaction : request_func := λ server req pathParams,
  tx_id ← lift (path_string pathParams "tx_id");
  invoke server (CallGetTransaction tx_id).

Definition local_request_GetTransactionStatus : request_func := λ server req pathParams,
  tx_id ← lift (path_string pathParams "tx_id");
  invoke server (CallGetTransactionStatus tx_id).

Definition local_request_GetTransferTransactionsPerTick : request_func := λ server req pathParams,
  identity ← lift (path_string pathParams "identity");
  protoReq ← lift (query_parameters req (CallGetTransferTransactionsPerTick identity 0 0)
    ["identity"]);
  invoke server protoReq.

Definition local_request_GetComputors : request_func := λ server req pathParams,
  epoch ← lift (path_uint32 pathParams "epoch");
  invoke server (CallGetComputors epoch).

Definition local_request_GetStatus : request_func := λ server req pathParams,
  invoke server CallGetStatus.

Definition local_request_GetLatestTick : request_func := λ server req pathParams,
  invoke server CallGetLatestTick.

Definition local_request_GetHealthCheck : request_func := λ server req pathParams,
  invoke server CallGetHealthCheck.

(** ** The handlers *)

(** The body of every handler: the metadata goes to the context of the server. *)
Definition local_Handle (meth : string) (pattern : Pattern) (rpcMethodName pathPattern : string)
    (local_request : request_func) : route :=
  MkRoute meth pattern rpcMethodName pathPattern (λ server req pathParams,
    _ ← lift (runtime_AnnotateIncomingContext req rpcMethodName pathPattern);
    local_request server req pathParams).

Definition local_handle_GetTickQuorumDataV2 : route :=
  local_Handle "GET" pattern_GetTickQuorumDataV2
    "/qubic.archiver.archive.pb.ArchiveService/GetTickQuorumDataV2"
    "/v2/ticks/{tick_number}/quorum-data"
    local_request_GetTickQuorumDataV2.

Definition local_handle_GetTickChainHashV2 : route :=
  local_Handle "GET" pattern_GetTickChainHashV2
    "/qubic.archiver.archive.pb.ArchiveService/GetTickChainHashV2"
    "/v2/ticks/{tick_number}/hash"
    local_request_GetTickChainHashV2.

Definition local_handle_GetTickStoreHashV2 : route :=
  local_Handle "GET" pattern_GetTickStoreHashV2
    "/qubic.archiver.archive.pb.ArchiveService/GetTickStoreHashV2"
    "/v2/ticks/{tick_number}/store-hash"
    local_request_GetTickStoreHashV2.

Definition local_handle_GetTickTransactionsV2 : route :=
  local_Handle "GET" pattern_GetTickTransactionsV2
    "/qubic.archiver.archive.pb.ArchiveService/GetTickTransactionsV2"
    "/v2/ticks/{tick_number}/transactions"
    local_request_GetTickTransactionsV2.

Definition local_handle_GetTransactionV2 : route :=
  local_Handle "GET" pattern_GetTransactionV2
    "/qubic.archiver.archive.pb.ArchiveService/GetTransactionV2"
    "/v2/transactions/{tx_id}"
    local_request_GetTransactionV2.

Definition local_handle_GetSendManyTransactionV2 : route :=
  local_Handle "GET" pattern_GetSendManyTransactionV2
    "/qubic.archiver.archive.pb.ArchiveService/GetSendManyTransactionV2"
    "/v2/transactions/{tx_id}/sendmany"
    local_request_GetSendManyTransactionV2.

Definition local_handle_GetIdentityTransfersInTickRangeV2 : route :=
  local_Handle "GET" pattern_GetIdentityTransfersInTickRangeV2
    "/qubic.archiver.archive.pb.ArchiveService/GetIdentityTransfersInTickRangeV2"
    "/v2/identities/{identity}/transfers"
    local_request_GetIdentityTransfersInTickRangeV2.

Definition local_handle_GetEpochTickListV2 : route :=
  local_Handle "GET" pattern_GetEpochTickListV2
    "/qubic.archiver.archive.pb.ArchiveService/GetEpochTickListV2"
    "/v2/epochs/{epoch}/ticks"
    local_request_GetEpochTickListV2.

Definition local_handle_GetEmptyTickListV2 : route :=
  local_Handle "GET" pattern_GetEmptyTickListV2
    "/qubic.archiver.archive.pb.ArchiveService/GetEmptyTickListV2"
    "/v2/epochs/{epoch}/empty-ticks"
    local_request_GetEmptyTickListV2.

Definition local_handle_GetTickData : route :=
  local_Handle "GET" pattern_GetTickData
    "/qubic.archiver.archive.pb.ArchiveService/GetTickData"
    "/v1/ticks/{tick_number}/tick-data"
    local_request_GetTickData.

Definition local_handle_GetQuorumTickData : route :=
  local_Handle "GET" pattern_GetQuorumTickData
    "/qubic.archiver.archive.pb.ArchiveService/GetQuorumTickData"
    "/v1/ticks/{tick_number}/quorum-tick-data"
    local_request_GetQuorumTickData.

Definition local_handle_GetTickTransactions : route :=
  local_Handle "GET" pattern_GetTickTransactions
    "/qubic.archiver.archive.pb.ArchiveService/GetTickTransactions"
    "/v1/ticks/{tick_number}/transactions"
    local_request_GetTickTransactions.

Definition local_handle_GetTickTransferTransactions : route :=
  local_Handle "GET" pattern_GetTickTransferTransactions
    "/qubic.archiver.archive.pb.ArchiveService/GetTickTransferTransactions"
    "/v1/ticks/{tick_number}/transfer-transactions"
    local_request_GetTickTransferTransactions.

Definition local_handle_GetTickApprovedTransactions : route :=
  local_Handle "GET" pattern_GetTickApprovedTransactions
    "/qubic.archiver.archive.pb.ArchiveService/GetTickApprovedTransactions"
    "/v1/ticks/{tick_number}/approved-transactions"
    local_request_GetTickApprovedTransactions.

Definition local_handle_GetChainHash : route :=
  local_Handle "GET" pattern_GetChainHash
    "/qubic.archiver.archive.pb.ArchiveService/GetChainHash"
    "/v1/ticks/{tick_number}/chain-hash"
    local_request_GetChainHash.

Definition local_handle_GetStoreHash : route :=
  local_Handle "GET" pattern_GetStoreHash
    "/qubic.archiver.archive.pb.ArchiveService/GetStoreHash"
    "/v1/ticks/{tick_number}/store-hash"
    local_request_GetStoreHash.

Definition local_handle_GetTransaction : route :=
  local_Handle "GET" pattern_GetTransaction
    "/qubic.archiver.archive.pb.ArchiveService/GetTransaction"
    "/v1/transactions/{tx_id}"
    local_request_GetTransaction.

Definition local_handle_GetTransactionStatus : route :=
  local_Handle "GET" pattern_GetTransactionStatus
    "/qubic.archiver.archive.pb.ArchiveService/GetTransactionStatus"
    "/v1/tx-status/{tx_id}"
    local_request_GetTransactionStatus.

Definition local_handle_GetTransferTransactionsPerTick : route :=
  local_Handle "GET" pattern_GetTransferTransactionsPerTick
    "/qubic.archiver.archive.pb.ArchiveService/GetTransferTransactionsPerTick"
    "/v1/identities/{identity}/transfer-transactions"
    local_request_GetTransferTransactionsPerTick.

Definition local_handle_GetComputors : route :=
  local_Handle "GET" pattern_GetComputors
    "/qubic.archiver.archive.pb.ArchiveService/GetComputors"
    "/v1/epochs/{epoch}/computors"
    local_request_GetComputors.

Definition local_handle_GetStatus : route :=
  local_Handle "GET" pattern_GetStatus
    "/qubic.archiver.archive.pb.ArchiveService/GetStatus"
    "/v1/status"
    local_request_GetStatus.

Definition local_handle_GetLatestTick : route :=
  local_Handle "GET" pattern_GetLatestTick
    "/qubic.archiver.archive.pb.ArchiveService/GetLatestTick"
    "/v1/latestTick"
    local_request_GetLatestTick.

Definition local_handle_GetHealthCheck : route :=
  local_Handle "GET" pattern_GetHealthCheck
    "/qubic.archiver.archive.pb.ArchiveService/GetHealthCheck"
    "/v1/healthcheck"
    local_request_GetHealthCheck.

Definition RegisterArchiveServiceHandlerServer : list route :=
  [local_handle_GetTickQuorumDataV2;
   local_handle_GetTickChainHashV2;
   local_handle_GetTickStoreHashV2;
   local_handle_GetTickTransactionsV2;
   local_handle_GetTransactionV2;
   local_handle_GetSendManyTransactionV2;
   local_handle_GetIdentityTransfersInTickRangeV2;
   local_handle_GetEpochTickListV2;
   local_handle_GetEmptyTickListV2;
   local_handle_GetTickData;
   local_handle_GetQuorumTickData;
   local_handle_GetTickTransactions;
   local_handle_GetTickTransferTransactions;
   local_handle_GetTickApprovedTransactions;
   local_handle_GetChainHash;
   local_handle_GetStoreHash;
   local_handle_GetTransaction;
   local_handle_GetTransactionStatus;
   local_handle_GetTransferTransactionsPerTick;
   local_handle_GetComputors;
   local_handle_GetStatus;
   local_handle_GetLatestTick;
   local_handle_GetHealthCheck].

(** ** The two registrations *)

Lemma local_route i : ∀ r, RegisterArchiveServiceHandlerServer !! i = Some r →
  ∃ r', RegisterArchiveServiceHandlerClient !! i = Some r' ∧
    route_method r = route_method r' ∧ route_pattern r = route_pattern r' ∧
    ∀ conn req ps db,
      runtime_AnnotateIncomingContext req (route_rpcMethodName r) (route_pathPattern r) =
        runtime_AnnotateContext req (route_rpcMethodName r') (route_pathPattern r') →
      route_handler r conn req ps db = route_handler r' conn req ps db.
Proof.
  intros r Hr.
  do 23 try (destruct i as [|i]; [injection Hr as <-; eexists; split; [reflexivity|];
    split; [reflexivity|]; split; [reflexivity|]; intros conn req ps db E; simpl in *;
    unfold mbind, M_bind, lift; rewrite E; reflexivity|]); done.
Qed.

(** Whatever answers the calls, the two registrations answer alike, if the
    metadata of the request is good for both. *)
Lemma registrations_agree conn req db :
  (∀ m p, runtime_AnnotateIncomingContext req m p = Ok tt) →
  (∀ m p, runtime_AnnotateContext req m p = Ok tt) →
  ServeHTTP RegisterArchiveServiceHandlerServer conn req db =
  ServeHTTP RegisterArchiveServiceHandlerClient conn req db.
Proof.
  intros Hi Hc. unfold ServeHTTP.
  change ((λ r, (route_method r, route_pattern r)) <$> RegisterArchiveServiceHandlerServer)
    with ((λ r, (route_method r, route_pattern r)) <$> RegisterArchiveServiceHandlerClient).
  destruct (ServeMux_select _ _ _) as [[i ps]|]; [|done].
  destruct (RegisterArchiveServiceHandlerServer !! i) as [r|] eqn:Er.
  - destruct (local_route i r Er) as (r' & -> & _ & _ & E). unfold mbind, M_bind.
    by rewrite E by (by rewrite Hi, Hc).
  - replace (RegisterArchiveServiceHandlerClient !! i) with (@None route); [done|].
    symmetry. apply lookup_ge_None. apply lookup_ge_None in Er. exact Er.
Qed.
End Local.
