(* ===== verification/Samples.v ===== *)
(** * Sample data on the concrete instances

    A node of the small network of Concrete.v, two ticks (one with a
    transaction, one empty), their votes and computors; and checks that the
    executable model runs on them. *)

From stdpp Require Import sorting base strings numbers pretty gmap list.
From S2P Require Import Prelude GoLib Types Platform Keys Store StoreLogic Concrete Utils.
From S2P Require Computors Quorum Tick Tx TxStatus Chain Validator Processor.

Local Open Scope Z_scope.

Definition sample_key (i : Z) : bytes := i :: replicate 31 1.
Definition sample_digest (i : Z) : bytes := replicate 32 i.

Definition sample_comps : types.Computors :=
  types.MkComputors 151 [sample_key 1; sample_key 2; sample_key 3; zero_array 32] (zero_array 64).

(** A transfer of 5 from the first key to the second. *)
Definition sample_tx : types.Transaction :=
  types.MkTransaction (sample_key 1) (sample_key 2) 5 10 0 0 [] (zero_array 64).

Definition sample_tick_data : types.TickData :=
  types.MkTickData 1 151 10 0 30 15 12 28 2 24 (zero_array 32)
    [hash_of (toy_MarshallBinary sample_tx); zero_array 32; zero_array 32; zero_array 32]
    [0; 7; 0; 0] (zero_array 64).

Definition sample_tx_digest : bytes :=
  match Tick.getFullDigestFromTickData sample_tick_data with Ok d => d | _ => [] end.

(** The state digests reported at a tick. *)
Definition spectrum_at (t : Z) : bytes := sample_digest (t mod 200 + 1).
Definition universe_at (t : Z) : bytes := sample_digest (t mod 200 + 2).
Definition computer_at (t : Z) : bytes := sample_digest (t mod 200 + 3).

Definition short_salt (key : bytes) (x : Z) : Z :=
  le_value (take 4 (hash_of (key ++ le_bytes 4 x))).

(** The vote of computor [i] on tick [t], salted with the next tick's digests. *)
Definition sample_vote (i t : Z) (txDigest : bytes) : types.QuorumTickVote :=
  types.MkQuorumTickVote i 151 t 0 30 15 12 28 2 24
    (1000 + t) (short_salt (sample_key (i + 1)) (1001 + t))
    (2000 + t) (short_salt (sample_key (i + 1)) (2001 + t))
    (spectrum_at t) (universe_at t) (computer_at t)
    (hash_of (sample_key (i + 1) ++ spectrum_at (t + 1)))
    (hash_of (sample_key (i + 1) ++ universe_at (t + 1)))
    (hash_of (sample_key (i + 1) ++ computer_at (t + 1)))
    txDigest (zero_array 32) (zero_array 64).

Definition sample_votes (t : Z) (txDigest : bytes) : list types.QuorumTickVote :=
  [sample_vote 0 t txDigest; sample_vote 1 t txDigest; sample_vote 2 t txDigest].

Definition votes_on (t : Z) : list types.QuorumTickVote :=
  sample_votes t (if bool_decide (t = 10) then sample_tx_digest else zero_array 32).

(** Tick 10 carries the transaction; every other tick is empty.  The epoch
    starts at tick 10. *)
Definition sample_info : types.TickInfo := types.MkTickInfo 151 20 10.

Definition sample_client : Client := {|
  Client_GetTickInfo := Ok sample_info;
  Client_GetQuorumVotes t := Ok (votes_on t);
  Client_GetComputors := Ok sample_comps;
  Client_GetSystemInfo := Ok (types.MkSystemInfo 151 1000);
  Client_GetTickData t := Ok sample_tick_data;
  Client_GetTickTransactions t := Ok [sample_tx];
  Client_GetTxStatus t :=
    Ok (types.MkTransactionStatus 20 t 1 [1] [toy_Digest sample_tx])
|}.

Definition sample_arbitrator : bytes := sample_key 9.

Definition sample_passes (n : nat) : list (outcome Client) := replicate n (Ok sample_client).

Definition empty_db : DB := fresh_db ∅.

Definition sample_run (n : nat) : DB :=
  Processor.run sample_arbitrator false (sample_passes n) empty_db.

(** Three passes process ticks 10, 11 and 12; ticks 1 to 9 are skipped. *)
Definition sample_summary (db : DB) :=
  ((GetLastProcessedTick db).1, (GetProcessedTickIntervals db).1,
   (GetSkippedTicksInterval db).1, (GetEmptyTickListPerEpoch 151 db).1,
   bool_decide ((Computors.Get 151 db).1 = Ok sample_comps)).

Example sample_run_summary : sample_summary (sample_run 3) =
  (Ok (pb.MkProcessedTick 12 151),
   Ok [pb.MkProcessedTickIntervalsPerEpoch 151 [pb.MkProcessedTickInterval 10 12]],
   Ok (pb.MkSkippedTicksIntervalList [pb.MkSkippedTicksInterval 1 9]),
   Ok [11; 12], true).
Proof. vm_compute. reflexivity. Qed.
