(* ===== verification/Reflect.v ===== *)
(** * Deciding that given contents represent a given archive

    [represents] speaks about every epoch number; on contents with finitely many
    keys it can be evaluated.  Each checker comes with the lemma that its answer
    [true] is a proof. *)

From stdpp Require Import sorting base strings numbers pretty gmap list.
From S2P Require Import Prelude GoLib Types Platform Keys Store StoreLogic Archive Progress.
From S2P Require Import Paging PagingProofs StoreProofs TickProofs EmptyTicksProofs.

Local Open Scope Z_scope.

#[export] Instance is_uint32_dec x : Decision (is_uint32 x).
Proof. unfold is_uint32. apply _. Defined.

#[export] Instance interval_nonempty_dec i : Decision (interval_nonempty i).
Proof. unfold interval_nonempty. apply _. Defined.

Section Reflect.
Context {P : Pebble} {PL : PebbleLaws P} {PR : Protobuf} {PRL : ProtobufLaws PR}.
Implicit Types m : gmap bytes bytes.

Definition stored_b {A} {PM : ProtoMsg A} {E : EqDecision A} m (k : bytes) (a : A) : bool :=
  match m !! k with Some b => bool_decide (Unmarshal b = Ok a) | None => false end.

Lemma stored_reflect {A} {PM : ProtoMsg A} {E : EqDecision A} m k (a : A) :
  stored_b m k a = true → stored m k a.
Proof.
  unfold stored_b, stored. destruct (m !! k) as [b|]; [|done].
  rewrite bool_decide_eq_true. eauto.
Qed.

(** Every entry of [m] of the kind is the key of an epoch [c] knows. *)
Definition keys_known {V} (kind : Z) (key : Z → bytes) (c : gmap Z V) m : bool :=
  forallb (λ p : bytes * bytes,
    if bool_decide (key_kind p.1 = Some kind)
    then let e := be_value (drop 1 p.1) in
         bool_decide (p.1 = key e ∧ is_uint32 e ∧ is_Some (c !! e))
    else true) (map_to_list m).

Lemma keys_known_spec {V} kind key (c : gmap Z V) m k : keys_known kind key c m = true →
  key_kind k = Some kind → is_Some (m !! k) →
  ∃ e, is_uint32 e ∧ k = key e ∧ e = be_value (drop 1 k) ∧ is_Some (c !! e).
Proof.
  intros Hb Hk [v Hv]. unfold keys_known in Hb. rewrite forallb_forall in Hb.
  specialize (Hb (k, v)). simpl in Hb. rewrite bool_decide_true in Hb by done.
  destruct (proj1 (bool_decide_eq_true _) (Hb (proj1 (list_elem_of_In _ _)
    (proj2 (elem_of_map_to_list _ _ _) Hv)))) as (? & ? & ?).
  by exists (be_value (drop 1 k)).
Qed.

Definition all_entries {V} (f : Z → V → bool) (c : gmap Z V) : bool :=
  forallb (λ p : Z * V, f p.1 p.2) (map_to_list c).

Lemma all_entries_spec {V} (f : Z → V → bool) (c : gmap Z V) e v :
  all_entries f c = true → c !! e = Some v → f e v = true.
Proof.
  unfold all_entries. rewrite forallb_forall. intros Hb Hv. apply (Hb (e, v)).
  by apply list_elem_of_In, elem_of_map_to_list.
Qed.

Definition represents_b m (a : archive) : bool :=
  match ar_last a with
  | Some pt => stored_b m lastProcessedTickKey pt
  | None => bool_decide (m !! lastProcessedTickKey = None)
  end &&
  all_entries (λ e l, stored_b m (processedTickIntervalsPerEpochKey e)
                        (pb.MkProcessedTickIntervalsPerEpoch e l)) (ar_intervals a) &&
  keys_known ProcessedTickIntervals processedTickIntervalsPerEpochKey (ar_intervals a) m &&
  match ar_skipped a with
  | Some l => stored_b m skippedTicksIntervalKey (pb.MkSkippedTicksIntervalList l)
  | None => bool_decide (m !! skippedTicksIntervalKey = None)
  end &&
  all_entries (λ e t, bool_decide (m !! lastProcessedTickKeyPerEpoch e =
                                   Some (LittleEndian_PutUint32 t))) (ar_lastPerEpoch a) &&
  keys_known LastProcessedTickPerEpoch lastProcessedTickKeyPerEpoch (ar_lastPerEpoch a) m.

(** A key that is not known is absent. *)
Lemma unknown_absent {V} kind p (c : gmap Z V) m e : kind = p →
  keys_known kind (BigEndian_AppendUint32 [p]) c m = true → is_uint32 e → c !! e = None →
  m !! BigEndian_AppendUint32 [p] e = None.
Proof.
  intros -> Hb He Hc. destruct (m !! BigEndian_AppendUint32 [p] e) as [v|] eqn:E; [|done].
  destruct (keys_known_spec _ _ _ _ (BigEndian_AppendUint32 [p] e) Hb) as (e' & He' & Hk & _ & Hs).
  - done.
  - by eexists.
  - apply append32_inj in Hk as <-; [|done..]. rewrite Hc in Hs. by destruct Hs.
Qed.

Lemma represents_reflect m a : represents_b m a = true → represents m a.
Proof.
  unfold represents_b. rewrite !andb_true_iff. intros (((((H1 & H2) & H3) & H4) & H5) & H6).
  split.
  - destruct (ar_last a); [by apply stored_reflect|by apply bool_decide_eq_true in H1].
  - intros e He. destruct (ar_intervals a !! e) as [l|] eqn:E.
    + apply stored_reflect. apply (all_entries_spec _ _ e l H2 E).
    + by eapply unknown_absent.
  - intros k Hk Hs. destruct (keys_known_spec _ _ _ _ k H3 Hk Hs) as (e & ? & ? & _). eauto.
  - destruct (ar_skipped a); [by apply stored_reflect|by apply bool_decide_eq_true in H4].
  - intros e He. destruct (ar_lastPerEpoch a !! e) as [t|] eqn:E.
    + pose proof (all_entries_spec _ _ e t H5 E) as Ht. by apply bool_decide_eq_true in Ht.
    + simpl. by eapply unknown_absent.
  - intros k Hk Hs. destruct (keys_known_spec _ _ _ _ k H6 Hk Hs) as (e & ? & ? & _). eauto.
Qed.

(** The data of every processed tick is stored and readable. *)
Definition ticks_stored_b m (a : archive) : bool :=
  all_entries (λ _ l, forallb (λ i,
    bool_decide (1 ≤ pb.ProcessedTickInterval_InitialProcessedTick i) &&
    bool_decide (interval_nonempty i) &&
    bool_decide (pb.ProcessedTickInterval_LastProcessedTick i < 2 ^ 32 - 1) &&
    forallb (λ t, match m !! tickDataKey t with
                  | Some b => match (Unmarshal b : outcome pb.TickData) with Ok _ => true | _ => false end
                  | None => false
                  end) (Tick.interval_ticks i)) l) (ar_intervals a).

Lemma ticks_stored_reflect m a : ticks_stored_b m a = true → ticks_stored m a.
Proof.
  intros Hb e t (l & i & Hl & Hi & Hit). pose proof (all_entries_spec _ _ e l Hb Hl) as Hf.
  simpl in Hf. rewrite forallb_forall in Hf. specialize (Hf i (proj1 (list_elem_of_In _ _) Hi)).
  rewrite !andb_true_iff, !bool_decide_eq_true in Hf. destruct Hf as (((H1 & H2) & H3) & Hf).
  rewrite forallb_forall in Hf. specialize (Hf t).
  destruct (m !! tickDataKey t) as [b|] eqn:E.
  - destruct (Unmarshal b) as [td|err|] eqn:Eu; [by exists td, b|..];
      discriminate Hf; apply list_elem_of_In; rewrite interval_ticks_seqZ by done;
      apply elem_of_seqZ; unfold in_interval in Hit; lia.
  - discriminate Hf. apply list_elem_of_In. rewrite interval_ticks_seqZ by done.
    apply elem_of_seqZ. unfold in_interval in Hit. lia.
Qed.

(** The transfer index, for identities of [n] characters. *)
Definition transfer_index_b m (n : nat) : bool :=
  forallb (λ p : bytes * bytes,
    if bool_decide (key_kind p.1 = Some IdentityTransferTransactions)
    then let id := bytes_string (take n (drop 1 p.1)) in
         let t := be_value (drop (1 + n) p.1) in
         bool_decide (String.length id = n ∧ is_uint32 t ∧
                      p.1 = identityTransferTransactionsPerTickKey id t) &&
         match (Unmarshal p.2 : outcome pb.TransferTransactionsPerTick) with
         | Ok _ => true
         | _ => false
         end
    else true) (map_to_list m).

Lemma transfer_index_reflect m id : transfer_index_b m (String.length id) = true →
  transfer_index m id.
Proof.
  intros Hb k Hk [v Hv]. unfold transfer_index_b in Hb. rewrite forallb_forall in Hb.
  specialize (Hb (k, v) (proj1 (list_elem_of_In _ _) (proj2 (elem_of_map_to_list _ _ _) Hv))).
  cbn [fst snd] in Hb. rewrite bool_decide_true in Hb by done.
  apply andb_true_iff in Hb as [(H1 & H2 & H3)%bool_decide_eq_true Hu].
  destruct (Unmarshal v) as [msg|err|] eqn:E; [|done..].
  eexists _, _, msg. split; [exact H1|]. split; [exact H2|]. split; [exact H3|]. by exists v.
Qed.
End Reflect.
