(* ===== verification/Witnesses.v ===== *)
(** * Instances of the theorems

    Each theorem with hypotheses, applied to the sample data of Samples.v. *)

From stdpp Require Import sorting base strings numbers pretty gmap list.
From S2P Require Import Prelude GoLib Types Platform Keys Store StoreLogic Concrete Archive.
From S2P Require Import Progress Utils Samples.
From S2P Require Computors Quorum QuorumProofs Tick Tx TxStatus Chain.
From S2P Require Validator ValidatorProofs Processor ProcessorProofs.

Local Open Scope Z_scope.

(** Closed conditions are decided by evaluation. *)
Ltac by_eval := apply (bool_decide_unpack _); vm_compute; exact I.

#[export] Instance is_array_dec n b : Decision (is_array n b).
Proof. unfold is_array, wf_bytes. apply _. Defined.

#[export] Instance fits_dec n x : Decision (fits n x).
Proof. unfold fits. apply _. Defined.

(** ** Quorum *)
Definition w_votes : list types.QuorumTickVote := sample_votes 10 sample_tx_digest.
Definition w_vote (i : Z) : types.QuorumTickVote := sample_vote i 10 sample_tx_digest.

(** The verifier of the sample network. *)
Definition w_verify : SigVerifierFunc := Validator.GoSchnorrqVerify.

Lemma w_verify_no_panic key d s : w_verify key d s ≠ Panic.
Proof. unfold w_verify, Validator.GoSchnorrqVerify. simpl. by case_bool_decide. Qed.

Definition vote_wf_b (v : Quorum.vote) : bool :=
  bool_decide (
    fits 2 (Quorum.vote_Epoch v) ∧ fits 4 (Quorum.vote_Tick v) ∧
    fits 2 (Quorum.vote_Millisecond v) ∧ fits 1 (Quorum.vote_Second v) ∧
    fits 1 (Quorum.vote_Minute v) ∧ fits 1 (Quorum.vote_Hour v) ∧ fits 1 (Quorum.vote_Day v) ∧
    fits 1 (Quorum.vote_Month v) ∧ fits 1 (Quorum.vote_Year v) ∧
    fits 4 (Quorum.vote_PreviousResourceTestingDigest v) ∧
    is_array 32 (Quorum.vote_PreviousSpectrumDigest v) ∧
    is_array 32 (Quorum.vote_PreviousUniverseDigest v) ∧
    is_array 32 (Quorum.vote_PreviousComputerDigest v) ∧ is_array 32 (Quorum.vote_TxDigest v)).

Lemma vote_wf_eval v : vote_wf_b v = true → QuorumProofs.vote_wf v.
Proof. unfold vote_wf_b. rewrite bool_decide_eq_true. intros. split; tauto. Qed.

Lemma w_votes_wf : Forall (λ v, QuorumProofs.vote_wf (Quorum.to_vote v)) w_votes.
Proof.
  apply (Forall_impl (λ v, vote_wf_b (Quorum.to_vote v) = true)); [by_eval|].
  intros v. apply vote_wf_eval.
Qed.

Lemma w_inputs_ok votes : Forall (λ v, v ∈ w_votes) votes →
  QuorumProofs.inputs_ok w_verify sample_comps votes.
Proof.
  rewrite Forall_forall. intros Hsub. split.
  - intros v Hv%Hsub. pose proof w_votes_wf as Hwf. rewrite Forall_forall in Hwf.
    split; [by apply Hwf|].
    assert (Forall (λ v, is_array 64 (types.QuorumTickVote_Signature v)) w_votes) as Hs by by_eval.
    rewrite Forall_forall in Hs. by apply Hs.
  - by_eval.
  - apply w_verify_no_panic.
Qed.

Lemma Validate_sound_witness :
  Quorum.Validate w_verify w_votes sample_comps 1000 = Ok w_votes ∧
  sublist w_votes w_votes ∧
  (MinimumQuorumVotes ≤ QuorumProofs.accepted_count w_verify sample_comps 1000 w_votes)%nat.
Proof.
  assert (E : Quorum.Validate w_verify w_votes sample_comps 1000 = Ok w_votes)
    by (vm_compute; reflexivity).
  destruct (QuorumProofs.Validate_sound w_verify sample_comps 1000 w_votes w_votes w_votes_wf E)
    as (H1 & H2 & _).
  split; [exact E|]. split; [exact H1|exact H2].
Defined.

Lemma Validate_complete_witness :
  Quorum.Validate w_verify w_votes sample_comps 1000 =
    Ok (QuorumProofs.group w_votes (QuorumProofs.vote_digest (w_vote 0))).
Proof.
  apply (QuorumProofs.Validate_complete w_verify sample_comps 1000 w_votes (w_vote 0)).
  - apply w_inputs_ok. by_eval.
  - unfold QuorumProofs.index_known. by_eval.
  - by_eval.
  - by_eval.
Defined.

(** A fourth vote, whose computor does not exist. *)
Definition w_bad_votes : list types.QuorumTickVote :=
  w_votes ++ [types.QuorumTickVote_set_ComputorIndex 4 (w_vote 0)].

Lemma w_bad_inputs_ok : QuorumProofs.inputs_ok w_verify sample_comps w_bad_votes.
Proof.
  split; [|by_eval|apply w_verify_no_panic].
  assert (Forall (λ v, vote_wf_b (Quorum.to_vote v) = true ∧
                       is_array 64 (types.QuorumTickVote_Signature v)) w_bad_votes) as H by by_eval.
  rewrite Forall_forall in H. intros v [? ?]%H. split; [by apply vote_wf_eval|done].
Qed.

Lemma Validate_index_panic_witness :
  Quorum.Validate w_verify w_bad_votes sample_comps 1000 = Panic.
Proof.
  apply (QuorumProofs.Validate_index_panic w_verify sample_comps 1000 w_bad_votes (w_vote 0)
    (types.QuorumTickVote_set_ComputorIndex 4 (w_vote 0))).
  - apply w_bad_inputs_ok.
  - by_eval.
  - by_eval.
  - by_eval.
  - unfold QuorumProofs.index_known. simpl. lia.
Defined.

Lemma Validate_duplicates_witness :
  Quorum.Validate w_verify (replicate MinimumQuorumVotes (w_vote 0)) sample_comps 1000 =
    Ok (replicate MinimumQuorumVotes (w_vote 0)).
Proof.
  apply (QuorumProofs.Validate_duplicates w_verify sample_comps 1000 (w_vote 0)).
  - apply w_inputs_ok. by_eval.
  - vm_compute. reflexivity.
Defined.

(** The votes on tick 10 rebuilt from the stored ones and those of tick 11. *)
Definition w_next : list types.QuorumTickVote := votes_on 11.

Definition stored_votes (votes : list types.QuorumTickVote) : pb.QuorumTickDataStored :=
  match Quorum.qubicToProtoStored votes with
  | Ok q => q
  | _ => pb.MkQuorumTickDataStored
           (Quorum.qubicTickStructureToProto (w_vote 0)) ∅
  end.

Definition w_pcomps : pb.Computors :=
  match Computors.qubicToProto sample_comps with Ok p => p | _ => pb.MkComputors 0 [] EmptyString end.

Lemma w_comps_wf : Computors.well_formed sample_comps.
Proof.
  split; [by_eval|]. split; [by_eval|].
  exists [sample_key 1; sample_key 2; sample_key 3], 1%nat.
  split; [reflexivity|]. split; [reflexivity|]. unfold Computors.is_key. by_eval.
Qed.

Definition salted_b (key : bytes) (v nv : types.QuorumTickVote) : bool := bool_decide (
  types.QuorumTickVote_SaltedSpectrumDigest v =
    hash_of (key ++ types.QuorumTickVote_PreviousSpectrumDigest nv) ∧
  types.QuorumTickVote_SaltedUniverseDigest v =
    hash_of (key ++ types.QuorumTickVote_PreviousUniverseDigest nv) ∧
  types.QuorumTickVote_SaltedComputerDigest v =
    hash_of (key ++ types.QuorumTickVote_PreviousComputerDigest nv) ∧
  le_bytes 4 (types.QuorumTickVote_SaltedResourceTestingDigest v) =
    take 4 (hash_of (key ++ le_bytes 4 (types.QuorumTickVote_PreviousResourceTestingDigest nv))) ∧
  le_bytes 4 (types.QuorumTickVote_SaltedTransactionBodyDigest v) =
    take 4 (hash_of (key ++ le_bytes 4 (types.QuorumTickVote_PreviousTransactionBodyDigest nv)))).

Lemma salted_eval key v nv : salted_b key v nv = true → QuorumProofs.salted key v nv.
Proof. unfold salted_b. rewrite bool_decide_eq_true. intros. split; naive_solver. Qed.

Lemma w_votes_salted v : v ∈ w_votes →
  types.QuorumTickVote_Epoch v >= 151 ∧
  ∃ key, index (types.Computors_PubKeys sample_comps) (types.QuorumTickVote_ComputorIndex v) = Ok key ∧
         key ≠ zero_array 32 ∧ QuorumProofs.salted key v (sample_vote 0 11 (zero_array 32)).
Proof.
  assert (Hs : Forall (λ v, types.QuorumTickVote_Epoch v >= 151 ∧
    index (types.Computors_PubKeys sample_comps) (types.QuorumTickVote_ComputorIndex v) =
      Ok (sample_key (types.QuorumTickVote_ComputorIndex v + 1)) ∧
    sample_key (types.QuorumTickVote_ComputorIndex v + 1) ≠ zero_array 32 ∧
    salted_b (sample_key (types.QuorumTickVote_ComputorIndex v + 1)) v
      (sample_vote 0 11 (zero_array 32)) = true) w_votes) by by_eval.
  rewrite Forall_forall in Hs. intros (H1 & H2 & H3 & H4)%Hs. split; [done|].
  eexists. split; [exact H2|]. split; [exact H3|]. by apply salted_eval.
Qed.

Lemma ReconstructQuorumData_recovers_witness :
  ∃ full, Quorum.qubicToProto w_votes = Ok full ∧
    Quorum.ReconstructQuorumData (stored_votes w_votes) (stored_votes w_next) w_pcomps = Ok full.
Proof.
  apply (QuorumProofs.ReconstructQuorumData_recovers w_votes w_next
    (sample_vote 0 11 (zero_array 32)) sample_comps w_pcomps).
  - exact w_comps_wf.
  - vm_compute. reflexivity.
  - vm_compute. reflexivity.
  - apply vote_wf_eval. vm_compute. reflexivity.
  - exact w_votes_salted.
  - vm_compute. reflexivity.
  - vm_compute. reflexivity.
Defined.

(** ** A pass over a tick *)
Lemma ValidateTick_frame_witness :
  contents (Validator.ValidateTick sample_client sample_arbitrator 10 10 false (sample_run 1)).2
    !! lastProcessedTickKey = contents (sample_run 1) !! lastProcessedTickKey.
Proof.
  apply (ValidatorProofs.ValidateTick_frame sample_client sample_arbitrator 10 10 false
    (sample_run 1) lastProcessedTickKey).
  left. exists LastProcessedTick. split; [reflexivity|by_eval].
Defined.

(** A node with too few votes. *)
Definition w_poor_client : Client := {|
  Client_GetTickInfo := Ok sample_info;
  Client_GetQuorumVotes t := Ok (take 2 (votes_on t));
  Client_GetComputors := Ok sample_comps;
  Client_GetSystemInfo := Ok (types.MkSystemInfo 151 1000);
  Client_GetTickData t := Ok sample_tick_data;
  Client_GetTickTransactions t := Ok [sample_tx];
  Client_GetTxStatus t := Ok (types.MkTransactionStatus 20 t 0 [] [])
|}.

Lemma ValidateTick_rejected_witness :
  (Validator.ValidateTick w_poor_client sample_arbitrator 10 10 false empty_db).1 =
    Err (WrapError "validating quorum" (ErrorString "not enough quorum votes")) ∧
  contents (Validator.ValidateTick w_poor_client sample_arbitrator 10 10 false empty_db).2
    !! tickDataKey 10 = contents empty_db !! tickDataKey 10.
Proof.
  apply (ValidatorProofs.ValidateTick_rejected w_poor_client sample_arbitrator 10 10 false
    empty_db).
  - vm_compute. reflexivity.
  - intros [Hin|(x & Hx & Hin)]; [revert Hin; by_eval|].
    vm_compute in Hx. injection Hx as <-. revert Hin. by_eval.
Defined.

(** A node whose first vote disagrees with the three aligned ones. *)
Definition w_misaligned : list types.QuorumTickVote :=
  sample_vote 3 10 (zero_array 32) :: w_votes.

Definition w_misaligned_client : Client := {|
  Client_GetTickInfo := Ok sample_info;
  Client_GetQuorumVotes t := Ok w_misaligned;
  Client_GetComputors := Ok sample_comps;
  Client_GetSystemInfo := Ok (types.MkSystemInfo 151 1000);
  Client_GetTickData t := Ok sample_tick_data;
  Client_GetTickTransactions t := Ok [sample_tx];
  Client_GetTxStatus t := Ok (types.MkTransactionStatus 20 t 0 [] [])
|}.

Definition w_misaligned_checked : Validator.checked :=
  Validator.MkChecked 151 w_votes Validator.zero_TickData [] (pb.MkTickTransactionsStatus []).

Lemma check_first_vote_decides_witness :
  Forall (λ v, types.QuorumTickVote_TxDigest v ≠ zero_array 32)
    (Validator.checked_votes w_misaligned_checked) ∧
  Validator.checked_tickData w_misaligned_checked = Validator.zero_TickData ∧
  Validator.checked_validTxs w_misaligned_checked = [].
Proof.
  split; [by_eval|].
  apply (ValidatorProofs.check_first_vote_decides w_misaligned_client sample_arbitrator 10 false
    empty_db
    (Validator.check w_misaligned_client sample_arbitrator 10 false empty_db).2
    (sample_vote 3 10 (zero_array 32)) w_votes).
  - reflexivity.
  - reflexivity.
  - vm_compute. reflexivity.
Defined.

(** ** The processor *)
Lemma processStatus_same_tick_witness :
  runs ∅ (Processor.processStatus (pb.MkProcessedTick 12 151) (pb.MkProcessedTick 12 151))
    (Err (WrapError "processing skipped ticks"
            (ErrorString "Next tick should not be equal to last tick"))) ∅.
Proof. apply ProcessorProofs.processStatus_same_tick. reflexivity. Defined.

Lemma w_node_sane : node_sane sample_info empty_archive.
Proof. unfold node_sane, last_tick. simpl. lia. Qed.

Lemma process_refines_witness :
  let '(o, db') := Processor.process_with sample_arbitrator false sample_client empty_db in
  healthy db' ∧
  match o with
  | Ok _ => ∃ info, Client_GetTickInfo sample_client = Ok info ∧
      pb.ProcessedTick_TickNumber (next_tick info (last_tick info empty_archive)) ≤
        types.TickInfo_Tick info ∧
      let a' := update_status (last_tick info empty_archive)
                  (next_tick info (last_tick info empty_archive)) empty_archive in
      step empty_archive a' ∧ represents (contents db') a' ∧ archive_valid a'
  | _ => represents (contents db') empty_archive
  end.
Proof.
  apply (ProcessorProofs.process_refines sample_arbitrator false sample_client empty_db
    empty_archive).
  - reflexivity.
  - apply represents_empty.
  - apply ProcessorProofs.empty_archive_valid.
  - apply archive_ok_empty.
  - intros info [= <-]. exact w_node_sane.
Defined.

Lemma w_reports n : ProcessorProofs.reports_consistent (sample_passes n).
Proof.
  assert (H : ∀ info, ProcessorProofs.report (sample_passes n) info → info = sample_info).
  { intros info (client & [Hc _]%elem_of_replicate & Hi). injection Hc as ->.
    by injection Hi as <-. }
  split.
  - intros info ->%H. simpl. lia.
  - intros i j ->%H ->%H. lia.
Qed.

Lemma run_archive_ok_witness :
  ∃ a, represents (contents (sample_run 3)) a ∧ archive_valid a ∧ reachable a ∧ archive_ok a.
Proof.
  unfold sample_run.
  exact (ProcessorProofs.run_archive_ok sample_arbitrator false (sample_passes 3) empty_db
    eq_refl eq_refl (w_reports 3)).
Defined.
