(* ===== verification/WitnessesArchive.v ===== *)
(** * Instances of the theorems about a represented archive

    The contents after three passes of the sample network, the archive they
    represent, and the theorems about the interval questions, the empty ticks
    and the handlers applied to them. *)

From stdpp Require Import sorting base strings numbers pretty gmap list.
From S2P Require Import Prelude GoLib Types Platform Keys Store StoreLogic Concrete Archive.
From S2P Require Import Progress StoreProofs TickProofs EmptyTicksProofs PaginationProofs.
From S2P Require Import Reflect Middleware Utils Rpc RpcV2 Samples Witnesses.
From S2P Require Computors Quorum QuorumProofs Tick Tx TxStatus Chain Validator RpcProofs.

Local Open Scope Z_scope.

(** ** The archive after three passes: ticks 10 to 12 of epoch 151 *)
Definition sample_contents : gmap bytes bytes := contents (sample_run 3).

Definition sample_interval : pb.ProcessedTickInterval := pb.MkProcessedTickInterval 10 12.

Definition sample_archive : archive :=
  MkArchive (Some (pb.MkProcessedTick 12 151)) {[151 := [sample_interval]]}
    (Some [pb.MkSkippedTicksInterval 1 9]) {[151 := 12]}.

Definition sample_intervals : list pb.ProcessedTickIntervalsPerEpoch :=
  [pb.MkProcessedTickIntervalsPerEpoch 151 [sample_interval]].

Lemma sample_archive_reachable : reachable sample_archive.
Proof.
  assert (Hstep : ∀ a a', node_sane sample_info a →
    pb.ProcessedTick_TickNumber (next_tick sample_info (last_tick sample_info a)) ≤ 20 →
    update_status (last_tick sample_info a) (next_tick sample_info (last_tick sample_info a)) a = a' →
    step a a') by (intros a a' Hs Hn <-; by constructor).
  set (ar := λ t, MkArchive (Some (pb.MkProcessedTick t 151))
    {[151 := [pb.MkProcessedTickInterval 10 t]]} (Some [pb.MkSkippedTicksInterval 1 9]) {[151 := t]}).
  apply rtc_l with (ar 10); [apply Hstep; [exact w_node_sane|vm_compute; congruence|reflexivity]|].
  apply rtc_l with (ar 11).
  { apply Hstep; [|vm_compute; congruence|reflexivity]. unfold node_sane, last_tick. simpl. lia. }
  apply rtc_l with (ar 12).
  { apply Hstep; [|vm_compute; congruence|reflexivity]. unfold node_sane, last_tick. simpl. lia. }
  apply rtc_refl.
Qed.

Lemma sample_archive_ok : archive_ok sample_archive.
Proof. apply archive_ok_reachable, sample_archive_reachable. Qed.

Lemma sample_interval_list : interval_list sample_archive sample_intervals.
Proof.
  split; [repeat constructor|]. intros p. simpl ar_intervals.
  rewrite lookup_singleton_Some. unfold sample_intervals. rewrite list_elem_of_singleton.
  destruct p as [e l]. simpl. naive_solver.
Qed.

(** What the sample contents hold, evaluated once. *)
Definition sample_cur : pb.QuorumTickDataStored := stored_votes w_votes.
Definition sample_nxt : pb.QuorumTickDataStored := stored_votes w_next.

Lemma sample_facts :
  represents_b sample_contents sample_archive = true ∧
  ticks_stored_b sample_contents sample_archive = true ∧
  stored_b sample_contents (quorumTickDataKey 10) sample_cur = true ∧
  stored_b sample_contents (quorumTickDataKey 11) sample_nxt = true ∧
  stored_b sample_contents (computorsKey 151) w_pcomps = true ∧
  bool_decide (sample_contents !! emptyTicksPerEpochKey 151 = Some (LittleEndian_PutUint32 2) ∧
               sample_contents !! emptyTickListPerEpochKey 151 = Some (encoded_list [11; 12])) = true.
Proof. vm_compute. split_and!; reflexivity. Qed.

Lemma sample_represents : represents sample_contents sample_archive.
Proof. exact (represents_reflect _ _ (proj1 sample_facts)). Qed.

Lemma sample_ticks_stored : ticks_stored sample_contents sample_archive.
Proof. exact (ticks_stored_reflect _ _ (proj1 (proj2 sample_facts))). Qed.

Lemma sample_records : records sample_contents 151 [11; 12].
Proof.
  destruct sample_facts as (_ & _ & _ & _ & _ & Hf). apply bool_decide_eq_true in Hf as [H1 H2].
  split; [by_eval|]. split; [exact H1|exact H2].
Qed.

Lemma sample_empty_list :
  sample_contents !! emptyTickListPerEpochKey 151 = Some (encoded_list [11; 12]).
Proof. apply sample_records. Qed.

Lemma sample_processed t : 10 ≤ t ≤ 12 → processed_in sample_archive 151 t.
Proof.
  intros Ht. exists [sample_interval], sample_interval. split; [reflexivity|].
  split; [by left|]. exact Ht.
Qed.

Lemma sample_skipped t : 1 ≤ t ≤ 9 → skipped sample_archive t.
Proof.
  intros Ht. exists [pb.MkSkippedTicksInterval 1 9], (pb.MkSkippedTicksInterval 1 9).
  split; [reflexivity|]. split; [by left|]. exact Ht.
Qed.

(** ** Questions about the intervals *)
Lemma WasSkippedByArchive_spec_witness :
  Tick.WasSkippedByArchive 4 sample_intervals = (true, 10) ∧
  skipped sample_archive 4 ∧ 4 < 10 ∧ (∃ e, processed_in sample_archive e 10) ∧
  ∀ t' e, 4 ≤ t' < 10 → ¬ processed_in sample_archive e t'.
Proof.
  split; [reflexivity|].
  exact (WasSkippedByArchive_spec sample_archive sample_intervals sample_archive_ok
    sample_interval_list 4 ltac:(lia)).
Defined.

Lemma GetTickEpoch_exact_witness : processed_in sample_archive 151 11.
Proof.
  apply (GetTickEpoch_exact sample_archive sample_intervals sample_archive_ok
    sample_interval_list 11 151). reflexivity.
Defined.

(** ** The interceptor *)
Definition sample_db : DB := fresh_db sample_contents.

Lemma sample_serves : serves sample_db sample_archive.
Proof.
  split; [reflexivity|]. split; [apply sample_represents|apply sample_archive_ok].
Qed.

Lemma GetInterceptor_admits_processed_witness :
  ∃ s', serves s' sample_archive ∧
  (((∃ e, processed_in sample_archive e 11) ∧
    GetInterceptor (GetTickDataRequest 11) (λ _, Rpc.GetTickData 11) sample_db =
      Rpc.GetTickData 11 s') ∨
   (∃ e, GetInterceptor (GetTickDataRequest 11) (λ _, Rpc.GetTickData 11)
           sample_db = (Err (WrapError "invalid tick number" e), s') ∧
         (∀ ep, ¬ processed_in sample_archive ep 11) ∧ verdict sample_archive 11 (Err e))).
Proof.
  apply (GetInterceptor_admits_processed sample_db sample_archive
    (GetTickDataRequest 11) 11 (λ _, Rpc.GetTickData 11)).
  - exact sample_serves.
  - reflexivity.
  - lia.
Defined.

(** ** Empty ticks *)
Lemma record_empty_tick_appends_witness :
  ∃ m', runs sample_contents (Validator.record_empty_tick 151 13) (Ok tt) m' ∧
        records m' 151 [11; 12; 13] ∧
        ∀ k, k ≠ emptyTicksPerEpochKey 151 → k ≠ emptyTickListPerEpochKey 151 →
             m' !! k = sample_contents !! k.
Proof.
  apply (record_empty_tick_appends sample_contents 151 13 [11; 12]).
  - left. exact sample_records.
  - by_eval.
  - by_eval.
Defined.

Lemma reset_and_calculate_rebuilds_witness :
  ∃ m', runs sample_contents (Tick.prepare_empty_ticks true) (Ok tt) m' ∧
        (∀ e, is_Some (ar_intervals sample_archive !! e) →
              recomputed sample_contents m' sample_archive e) ∧
        represents m' sample_archive ∧
        ∀ k, ¬ epoch_keys (visited_epochs sample_archive) k → m' !! k = sample_contents !! k.
Proof.
  apply (reset_and_calculate_rebuilds sample_contents sample_archive).
  - exact sample_represents.
  - exact sample_archive_ok.
  - exact sample_ticks_stored.
Defined.

Lemma empty_tick_list_roundtrip_witness :
  ∃ m', runs ∅ (_ ← SetEmptyTickListPerEpoch 151 [11];
                _ ← forM_ [12; 13] (AppendEmptyTickToEmptyTickListPerEpoch 151);
                GetEmptyTickListPerEpoch 151) (Ok [11; 12; 13]) m' ∧
        ∀ k, k ≠ emptyTickListPerEpochKey 151 → m' !! k = (∅ : gmap bytes bytes) !! k.
Proof. apply (empty_tick_list_roundtrip ∅ 151 [11] [12; 13]). by_eval. Defined.

(** Counts of empty ticks for two epochs. *)
Definition w_counts : gmap Z Z := {[151 := 2; 152 := 7]}.
Definition w_counts_contents : gmap bytes bytes :=
  {[emptyTicksPerEpochKey 151 := LittleEndian_PutUint32 2;
    emptyTicksPerEpochKey 152 := LittleEndian_PutUint32 7]}.

Lemma w_counts_table : table emptyTicksPerEpochKey EmptyTicksPerEpoch w_counts w_counts_contents.
Proof.
  assert (H1 : is_uint32 151) by by_eval. assert (H2 : is_uint32 152) by by_eval.
  split; [|split].
  - intros e He. unfold w_counts_contents, w_counts.
    destruct (decide (e = 151)) as [->|Hn1]; [by rewrite !lookup_insert_eq|].
    rewrite !(lookup_insert_ne _ 151) by done.
    rewrite lookup_insert_ne by (intros Hk; by apply append64_uint32_inj in Hk).
    destruct (decide (e = 152)) as [->|Hn2]; [by rewrite !lookup_singleton_eq|].
    rewrite !lookup_singleton_ne; [done|done|].
    intros Hk. by apply append64_uint32_inj in Hk.
  - intros k _ [v Hv]. unfold w_counts_contents in Hv.
    apply lookup_insert_Some in Hv as [[<- _]|[_ Hv]]; [by exists 151|].
    apply lookup_singleton_Some in Hv as [<- _]. by exists 152.
  - intros e t Ht. unfold w_counts in Ht.
    apply lookup_insert_Some in Ht as [[<- <-]|[_ Ht]]; [by split; by_eval|].
    apply lookup_singleton_Some in Ht as [<- <-]. split; by_eval.
Qed.

Lemma GetEmptyTicksForEpochs_exact_witness :
  runs w_counts_contents (GetEmptyTicksForEpochs 152 160)
    (Ok (epochs_between 152 160 w_counts)) w_counts_contents ∧
  epochs_between 152 160 w_counts = {[152 := 7]}.
Proof.
  split; [|vm_compute; reflexivity].
  apply (GetEmptyTicksForEpochs_exact w_counts_contents w_counts 152 160).
  - exact w_counts_table.
  - by_eval.
  - lia.
Defined.

(** ** The handlers *)
Lemma GetEmptyTickListV2_pages_witness :
  ∃ pages : list (list Z),
    Z.of_nat (length pages) = page_count 2 1 ∧ concat pages = [11; 12] ∧
    (∀ i page, pages !! i = Some page →
       runs sample_contents (GetEmptyTickListV2 151 (Z.of_nat i + 1) 1)
         (Ok (page_info 2 (Z.of_nat i + 1) 1, page)) sample_contents) ∧
    (∀ p, Z.of_nat (length pages) < p →
       runs sample_contents (GetEmptyTickListV2 151 p 1)
         (Err (status_error NotFound "cannot find specified page")) sample_contents).
Proof.
  apply (RpcProofs.GetEmptyTickListV2_pages sample_contents 151 [11; 12] 1).
  - by_eval.
  - exact sample_empty_list.
  - by_eval.
  - lia.
Defined.

Lemma getPaginationInformation_exact_witness :
  getPaginationInformation 501 3 250 = Ok (pb.MkPagination 501 3 3 250 (-1) 2).
Proof. apply (getPaginationInformation_exact 501 3 250); lia. Defined.

Lemma GetEpochTickListV2_exact_witness :
  ∃ pages : list (list pb.TickStatus),
    let n := Z.of_nat (length (concat pages)) in
    StronglySorted (RpcProofs.tick_before true) (concat pages) ∧
    (∀ t b, pb.MkTickStatus t b ∈ concat pages ↔
            processed_in sample_archive 151 t ∧ b = bool_decide (t ∈ [11; 12])) ∧
    Z.of_nat (length pages) = PaginationProofs.page_count n 2 ∧
    (∀ i page, pages !! i = Some page →
       Z.of_nat (length page) = Z.min 2 (n - Z.of_nat i * 2) ∧
       runs sample_contents (GetEpochTickListV2 12 151 (Z.of_nat i + 1) 2 true)
         (Ok (Some (PaginationProofs.page_info n (Z.of_nat i + 1) 2, page))) sample_contents) ∧
    (∀ p, Z.of_nat (length pages) < p → 1 ≤ p →
       runs sample_contents (GetEpochTickListV2 12 151 p 2 true)
         (Err (status_error NotFound "cannot find specified page")) sample_contents) ∧
    (∀ p o, p ≤ 0 → runs sample_contents (GetEpochTickListV2 12 151 1 2 true) o sample_contents →
       runs sample_contents (GetEpochTickListV2 12 151 p 2 true) o sample_contents).
Proof.
  apply (RpcProofs.GetEpochTickListV2_exact sample_contents sample_archive 151 [11; 12] 12 true 2).
  - exact sample_represents.
  - exact sample_archive_ok.
  - by eexists.
  - by_eval.
  - exact sample_empty_list.
  - by_eval.
  - by_eval.
  - lia.
Defined.

Lemma GetStatus_reports_witness :
  ∃ l, interval_list sample_archive l ∧
    runs sample_contents GetStatus (Ok (pb.MkGetStatusResponse (pb.MkProcessedTick 12 151)
      {[151 := 12]} [pb.MkSkippedTicksInterval 1 9] l {[151 := 2]})) sample_contents.
Proof.
  apply (RpcProofs.GetStatus_reports sample_contents sample_archive (pb.MkProcessedTick 12 151)
    [pb.MkSkippedTicksInterval 1 9] 2).
  - exact sample_represents.
  - exact sample_archive_ok.
  - reflexivity.
  - reflexivity.
  - by_eval.
  - apply sample_records.
Defined.

(** After the first pass no tick of the epoch was empty. *)
Definition first_contents : gmap bytes bytes := contents (sample_run 1).

Definition first_archive : archive :=
  MkArchive (Some (pb.MkProcessedTick 10 151)) {[151 := [pb.MkProcessedTickInterval 10 10]]}
    (Some [pb.MkSkippedTicksInterval 1 9]) {[151 := 10]}.

Lemma first_archive_ok : archive_ok first_archive.
Proof.
  apply archive_ok_reachable, rtc_once.
  assert (E : first_archive = update_status (last_tick sample_info empty_archive)
    (next_tick sample_info (last_tick sample_info empty_archive)) empty_archive) by reflexivity.
  rewrite E. constructor; [exact w_node_sane|]. vm_compute. congruence.
Qed.

Lemma GetStatus_without_count_witness :
  runs first_contents GetStatus
    (Err (status_error Internal "getting empty ticks for current epoch")) first_contents.
Proof.
  apply (RpcProofs.GetStatus_without_count first_contents first_archive (pb.MkProcessedTick 10 151)
    [pb.MkSkippedTicksInterval 1 9]).
  - apply represents_reflect. vm_compute. reflexivity.
  - exact first_archive_ok.
  - reflexivity.
  - reflexivity.
  - by_eval.
Defined.

Lemma GetQuorumTickData_serves_witness :
  ∃ full, Quorum.qubicToProto w_votes = Ok full ∧
          runs sample_contents (Rpc.GetQuorumTickData 10) (Ok (Some full)) sample_contents.
Proof.
  destruct sample_facts as (_ & _ & Hcur & Hnxt & Hcomps & _).
  apply (RpcProofs.GetQuorumTickData_serves sample_contents sample_archive 151 [sample_interval] 10
    w_votes w_next (sample_vote 0 11 (zero_array 32)) sample_comps w_pcomps sample_cur sample_nxt).
  - exact sample_represents.
  - exact sample_archive_ok.
  - reflexivity.
  - apply sample_processed. lia.
  - intros i ->%list_elem_of_singleton. simpl. lia.
  - exact w_comps_wf.
  - vm_compute. reflexivity.
  - vm_compute. reflexivity.
  - apply vote_wf_eval. vm_compute. reflexivity.
  - exact w_votes_salted.
  - vm_compute. reflexivity.
  - vm_compute. reflexivity.
  - exact (stored_reflect _ _ _ Hcur).
  - exact (stored_reflect _ _ _ Hnxt).
  - exact (stored_reflect _ _ _ Hcomps).
Defined.

(** The transaction of tick 10 and its identifier. *)
Definition w_tx_id : string :=
  match Transaction_ID sample_tx with Ok id => id | _ => EmptyString end.

Lemma GetTransactionStatus_sound_witness :
  ∃ st db', Rpc.GetTransactionStatus w_tx_id sample_db = (Ok st, db') ∧
            RpcProofs.money_flew (contents sample_db) w_tx_id.
Proof.
  set (r := Rpc.GetTransactionStatus w_tx_id sample_db).
  assert (E : r.1 = Ok (pb.MkTransactionStatus w_tx_id true)) by (vm_compute; reflexivity).
  exists (pb.MkTransactionStatus w_tx_id true), r.2.
  assert (Er : r = (Ok (pb.MkTransactionStatus w_tx_id true), r.2)) by (rewrite <-E; apply surjective_pairing).
  split; [exact Er|].
  exact (proj2 (RpcProofs.GetTransactionStatus_sound sample_db w_tx_id _ _ Er eq_refl)).
Defined.

Lemma GetTickData_serves_stored_witness :
  ∃ td m', Tick.qubicToProto sample_tick_data = Ok (Some td) ∧
    runs ∅ (Tick.Store 10 sample_tick_data) (Ok tt) m' ∧
    runs m' (Rpc.GetTickData 10) (Ok (Some td)) m'.
Proof.
  destruct (Tick.qubicToProto sample_tick_data) as [[td|]| |] eqn:E; [|by vm_compute in E..].
  destruct (RpcProofs.GetTickData_serves_stored ∅ 10 sample_tick_data (Some td) E) as (m' & H1 & H2 & _).
  - intros td' [= <-]. split; [exact I|]. intros ->. by vm_compute in E.
  - exists td, m'. split; [reflexivity|]. split; [exact H1|exact H2].
Defined.
