(* ===== verification/WitnessesData.v ===== *)
(** * Instances of the theorems about validated and stored data

    Tick data, transactions, computors, statuses, digest chains and paged
    transfers, on the sample network. *)

From stdpp Require Import sorting base strings numbers pretty gmap list.
From S2P Require Import Prelude GoLib Types Platform Keys Store StoreLogic Concrete Archive.
From S2P Require Import Paging PagingProofs Progress Reflect Utils Samples Witnesses WitnessesArchive.
From S2P Require Computors Tick TickProofs Tx TxProofs TxStatus TxStatusProofs Chain ChainProofs.
From S2P Require Quorum QuorumProofs.

Local Open Scope Z_scope.

(** ** Tick data *)
Lemma Tick_Validate_unique_witness :
  ∃ b b', TickData_Write (TickProofs.hashed_data sample_tick_data (w_vote 0)) = Ok b ∧
    TickData_Write (TickProofs.hashed_data sample_tick_data (w_vote 1)) = Ok b' ∧
    (b = b' ∨ k12_collision b b').
Proof.
  apply (TickProofs.Tick_Validate_unique w_verify sample_tick_data sample_tick_data (w_vote 0)
    sample_comps sample_comps).
  - by_eval.
  - vm_compute. reflexivity.
  - vm_compute. reflexivity.
Defined.

Lemma Tick_Validate_exact_witness :
  ¬ (TickData_IsEmpty (TickProofs.unmarked sample_tick_data) = true ∧
     types.QuorumTickVote_TxDigest (w_vote 0) = zero_array 32) ∧
  TickProofs.signed_with_digest w_verify (TickProofs.hashed_data sample_tick_data (w_vote 0))
    sample_comps (types.QuorumTickVote_TxDigest (w_vote 0)).
Proof.
  assert (E : Tick.Validate w_verify sample_tick_data (w_vote 0) sample_comps = Ok tt)
    by (vm_compute; reflexivity).
  destruct (proj1 (TickProofs.Tick_Validate_exact w_verify sample_tick_data (w_vote 0)
    sample_comps) E) as [[_ H]|H]; [by vm_compute in H|exact H].
Defined.

(** ** Transactions *)
Lemma w_digests_arrays : Forall (is_array 32) (types.TickData_TransactionDigests sample_tick_data).
Proof. by_eval. Qed.

Lemma Validate_exact_witness :
  ∃ ds, Forall2 (TxProofs.verified w_verify) [sample_tx] ds ∧ NoDup ds ∧
    ∀ d, d ∈ ds ↔ d ∈ types.TickData_TransactionDigests sample_tick_data ∧ d ≠ zero_array 32.
Proof.
  apply (TxProofs.Validate_exact w_verify [sample_tx] sample_tick_data [sample_tx]).
  - exact w_digests_arrays.
  - exists (hash_of (toy_MarshallBinary sample_tx)). by_eval.
  - vm_compute. reflexivity.
Defined.

Definition w_ptxs : list pb.Transaction :=
  match Tx.removeNonTransferTransactionsAndConvert [sample_tx] with Ok l => l | _ => [] end.

Lemma storeTransferTransactions_index_witness :
  ∃ m', runs ∅ (Tx.storeTransferTransactions 10 [sample_tx]) (Ok tt) m' ∧
    (∀ id, TxProofs.transfers_of id w_ptxs ≠ [] →
       stored m' (identityTransferTransactionsPerTickKey id 10)
         (TxProofs.transfers_msg 10 id (TxProofs.transfers_of id w_ptxs))) ∧
    (∀ k, (∀ id, TxProofs.transfers_of id w_ptxs ≠ [] →
             k ≠ identityTransferTransactionsPerTickKey id 10) →
       m' !! k = (∅ : gmap bytes bytes) !! k).
Proof.
  apply (TxProofs.storeTransferTransactions_index ∅ 10 [sample_tx] w_ptxs).
  - by_eval.
  - apply TxProofs.tick_transfers_kept. vm_compute. reflexivity.
  - intros id _. exact I.
Defined.

(** ** Computors *)

(** A list with an unused slot in the middle. *)
Definition w_gap_comps : types.Computors :=
  types.MkComputors 151 [sample_key 1; zero_array 32; sample_key 2; sample_key 3] (zero_array 64).

Lemma protoToQubic_qubicToProto_witness :
  ∃ p, Computors.qubicToProto w_gap_comps = Ok p ∧ Computors.protoToQubic p = Ok sample_comps.
Proof.
  assert (E : Computors.compacted w_gap_comps = sample_comps) by reflexivity.
  rewrite <-E. apply (Computors.protoToQubic_qubicToProto w_gap_comps).
  split; [by_eval|by_eval|reflexivity|by_eval].
Defined.

Lemma Computors_Store_Get_witness :
  ∃ m', runs ∅ (Computors.Store 151 sample_comps) (Ok tt) m' ∧
        runs m' (Computors.Get 151) (Ok sample_comps) m'.
Proof.
  apply (Computors.Computors_Store_Get ∅ 151 sample_comps w_pcomps).
  - exact w_comps_wf.
  - vm_compute. reflexivity.
  - exact I.
Defined.

(** ** Transaction statuses *)
Definition w_tx_status : types.TransactionStatus :=
  types.MkTransactionStatus 20 10 2 [2] [sample_digest 9; toy_Digest sample_tx].

Lemma TxStatus_Validate_exact_witness :
  ∃ ids, (∀ id, id ∈ ids ↔ TxStatusProofs.has_id [sample_tx] id) ∧
    TxStatus.Validate w_tx_status [sample_tx] = Ok (pb.MkTickTransactionsStatus
      (omap (TxStatusProofs.status_at ids [2])
            (imap pair [sample_digest 9; toy_Digest sample_tx]))).
Proof.
  apply (TxStatusProofs.TxStatus_Validate_exact w_tx_status [sample_tx]).
  - intros tx ->%list_elem_of_singleton. eexists _, _. split; [reflexivity|].
    vm_compute. reflexivity.
  - by_eval.
  - by_eval.
  - vm_compute. lia.
Defined.

(** ** Digest chains *)
Definition chain_wf_b (c : Chain.Chain) : bool := bool_decide (
  fits 2 (Chain.Chain_Epoch c) ∧ fits 4 (Chain.Chain_Tick c) ∧ fits 2 (Chain.Chain_Millisecond c) ∧
  fits 1 (Chain.Chain_Second c) ∧ fits 1 (Chain.Chain_Minute c) ∧ fits 1 (Chain.Chain_Hour c) ∧
  fits 1 (Chain.Chain_Day c) ∧ fits 1 (Chain.Chain_Month c) ∧ fits 1 (Chain.Chain_Year c) ∧
  fits 4 (Chain.Chain_PreviousResourceTestingDigest c) ∧
  fits 4 (Chain.Chain_PreviousTransactionBodyDigest c) ∧
  is_array 32 (Chain.Chain_PreviousSpectrumDigest c) ∧
  is_array 32 (Chain.Chain_PreviousUniverseDigest c) ∧
  is_array 32 (Chain.Chain_PreviousComputerDigest c) ∧ is_array 32 (Chain.Chain_TxDigest c) ∧
  is_array 32 (Chain.Chain_PreviousTickChainDigest c)).

Lemma chain_wf_eval c : chain_wf_b c = true → ChainProofs.Chain_wf c.
Proof. unfold chain_wf_b. rewrite bool_decide_eq_true. intros. split; tauto. Qed.

(** Two histories of ticks 10 and 11 that differ in the first tick. *)
Definition w_history : list types.QuorumTickVote :=
  [sample_vote 0 10 sample_tx_digest; sample_vote 0 11 (zero_array 32)].
Definition w_tampered : list types.QuorumTickVote :=
  [sample_vote 0 10 (zero_array 32); sample_vote 0 11 (zero_array 32)].

Lemma w_history_wf votes : Forall (λ v, chain_wf_b (ChainProofs.chained v) = true) votes →
  Forall (λ v, ChainProofs.Chain_wf (ChainProofs.chained v)) votes.
Proof. intros H. eapply Forall_impl; [exact H|]. intros v. apply chain_wf_eval. Qed.

Lemma chain_tamper_evident_witness :
  ∃ m1' m2', runs ∅ (ChainProofs.save_votes 10 10 w_history) (Ok tt) m1' ∧
             runs ∅ (ChainProofs.save_votes 10 10 w_tampered) (Ok tt) m2' ∧
  let last := chainDigestKey 11 in
  is_Some (m1' !! last) ∧
  (m1' !! last = m2' !! last →
   Forall2 (λ v w, ChainProofs.chained v = ChainProofs.chained w) w_history w_tampered ∨
   ChainProofs.chains_collide w_history w_tampered).
Proof.
  apply (ChainProofs.chain_tamper_evident ∅ ∅ 10 w_history w_tampered).
  - lia.
  - discriminate.
  - reflexivity.
  - vm_compute. discriminate.
  - apply w_history_wf. by_eval.
  - apply w_history_wf. by_eval.
Defined.

Definition w_second_tx : types.Transaction :=
  types.MkTransaction (sample_key 2) (sample_key 3) 1 13752151 0 0 [] (zero_array 64).

Lemma ComputeStoreAndSave_order_witness :
  Chain.ComputeStoreAndSave 13752151 13752151 [sample_tx; w_second_tx]
    (pb.MkTickTransactionsStatus []) empty_db =
  Chain.ComputeStoreAndSave 13752151 13752151 [w_second_tx; sample_tx]
    (pb.MkTickTransactionsStatus []) empty_db.
Proof.
  apply (ChainProofs.ComputeStoreAndSave_order 13752151 13752151 [sample_tx; w_second_tx]
    [w_second_tx; sample_tx] (pb.MkTickTransactionsStatus []) empty_db).
  - intros tx _. by eexists.
  - apply perm_swap.
Defined.

(** ** Paged transfers *)
Definition w_source_id : string :=
  match Identity_FromPubKey (sample_key 1) false with Ok id => id | _ => EmptyString end.

Lemma w_transfer_index : transfer_index sample_contents w_source_id.
Proof. apply transfer_index_reflect. vm_compute. reflexivity. Qed.

Lemma w_no_spare : no_spare_capacity w_source_id.
Proof. unfold no_spare_capacity. vm_compute. lia. Qed.

Lemma GetTransactionsForEntityPaged_window_witness :
  ∃ rows txs, rows_between sample_contents w_source_id 1 100 rows ∧
    runs sample_contents (GetTransactionsForEntityPaged w_source_id 1 100
              (MkPageable 0 10) (MkSortable true) (MkFilterable false))
      (Ok (txs, Z.of_nat (length (kept (MkFilterable false) (visited (MkSortable true) rows.*2)))))
      sample_contents ∧
    flat txs = window 0 10 (kept (MkFilterable false) (visited (MkSortable true) rows.*2)) ∧
    Forall (λ t, pb.TransferTransactionsPerTick_Transactions t ≠ []) txs.
Proof.
  apply (GetTransactionsForEntityPaged_window sample_contents w_source_id 1 100 0 10
    (MkSortable true) (MkFilterable false)).
  - exact w_transfer_index.
  - exact w_no_spare.
  - lia.
  - lia.
  - by_eval.
Defined.

Lemma pages_partition_witness :
  ∃ rows pages, rows_between sample_contents w_source_id 1 100 rows ∧ length pages = 3%nat ∧
    (∀ p txs, pages !! p = Some txs →
       ∃ total, runs sample_contents (GetTransactionsForEntityPaged w_source_id 1 100
         (MkPageable (Z.of_nat p) 1) (MkSortable false) (MkFilterable false))
         (Ok (txs, total)) sample_contents) ∧
    concat (flat <$> pages) =
      take 3 (kept (MkFilterable false) (visited (MkSortable false) rows.*2)).
Proof.
  apply (pages_partition sample_contents w_source_id 1 100 1 3 (MkSortable false)
    (MkFilterable false)).
  - exact w_transfer_index.
  - exact w_no_spare.
  - lia.
  - lia.
  - by_eval.
Defined.

(** Identities of 39 characters: a key prefix of 40 bytes in an array of 48. *)
Definition w_short_id : string := "AAAAAAAAAAAAAAAAAAAAAAAAAAAAAAAAAAAAAAA".

Lemma GetTransactionsForEntityPaged_aliased_witness :
  runs sample_contents (GetTransactionsForEntityPaged w_short_id 1 100
    (MkPageable 0 10) (MkSortable false) (MkFilterable false)) (Ok ([], 0)) sample_contents.
Proof.
  apply (GetTransactionsForEntityPaged_aliased sample_contents w_short_id 1 100 (MkPageable 0 10)
    (MkSortable false) (MkFilterable false)).
  vm_compute. lia.
Defined.

Definition w_row : pb.TransferTransactionsPerTick :=
  pb.MkTransferTransactionsPerTick 10 w_source_id w_ptxs.

Definition w_row_bytes : bytes :=
  match Marshal w_row with Ok b => b | _ => [] end.

Lemma page_loop_loses_error_witness :
  ∃ txs', foldO (page_step 0 10 (MkFilterable false)) (0, [], None) [Err io_error; Ok w_row_bytes] =
    Ok (0, txs', None).
Proof.
  apply (page_loop_loses_error 0 10 (MkFilterable false) 0 [] io_error w_row_bytes w_row).
  vm_compute. reflexivity.
Defined.
