(* ===== verification/WitnessesRuns.v ===== *)
(** * Instances of the theorems about whole runs and the service

    Runs of the sample network, with passes that fail in between, and the
    requests a client makes afterwards. *)

From stdpp Require Import sorting base strings numbers pretty gmap list.
From S2P Require Import Prelude GoLib Types Platform Keys Store StoreLogic Concrete Archive.
From S2P Require Import Progress Utils Typed Reads Archived Complete Liveness Restarts.
From S2P Require Import Middleware Rpc Service ServiceProofs Votes Served System Interleave Ledger Reader Torn Samples Witnesses WitnessesArchive.
From S2P Require Quorum Tick Tx Validator Processor ProcessorProofs Main.

Local Open Scope Z_scope.

(** ** Nodes *)

Definition w_passes : list (outcome Client) :=
  [Err io_error; Ok sample_client; Ok w_poor_client; Ok sample_client].

Lemma w_passes_client client : Ok client ∈ w_passes →
  client = sample_client ∨ client = w_poor_client.
Proof.
  unfold w_passes. rewrite !elem_of_cons, elem_of_nil.
  intros [?|[[= ->]|[[= ->]|[[= ->]|[]]]]]; auto; discriminate.
Qed.

Lemma w_passes_reports : ProcessorProofs.reports_consistent w_passes.
Proof.
  assert (H : ∀ info, ProcessorProofs.report w_passes info → info = sample_info).
  { intros info (client & Hc & Hi).
    destruct (w_passes_client client Hc) as [-> | ->]; by injection Hi as <-. }
  split.
  - intros info ->%H. simpl. lia.
  - intros i j ->%H ->%H. lia.
Qed.

Lemma w_passes_answers client : Ok client ∈ w_passes → answers_wf client.
Proof.
  intros Hc n td Htd. assert (td = sample_tick_data) as ->.
  { destruct (w_passes_client client Hc) as [-> | ->]; by injection Htd as <-. }
  by_eval.
Qed.

(** ** What validation finds on the sample network can be stored *)
Definition ok_and {A} (o : outcome A) (f : A → bool) : bool :=
  match o with Ok a => f a | _ => false end.

Definition encodes_b {A} {PM : ProtoMsg A} (a : A) : bool := ok_and (Marshal a) (λ _, true).

Lemma ok_and_true {A} (o : outcome A) f : ok_and o f = true → ∃ a, o = Ok a ∧ f a = true.
Proof. destruct o; [by eexists|done|done]. Qed.

Lemma encodes_eval {A} {PM : ProtoMsg A} (a : A) : encodes_b a = true → encodes a.
Proof. intros (b & Hb & _)%ok_and_true. by exists b. Qed.

Lemma forallb_Forall {A} (f : A → bool) (Q : A → Prop) l : (∀ x, f x = true → Q x) →
  forallb f l = true → Forall Q l.
Proof.
  intros H. induction l as [|x l IH]; simpl; [by constructor|].
  intros [Hx Hl]%andb_prop. constructor; auto.
Qed.

Definition storable_b (n : Z) (c : Validator.checked) : bool :=
  ok_and (Quorum.qubicToProtoStored (Validator.checked_votes c)) encodes_b &&
  (ok_and (Quorum.qubicToProto (Validator.checked_votes c)) (λ q,
     encodes_b (pb.MkLastTickQuorumDataPerEpochIntervals (Some {[0 := q]}))) &&
  (ok_and (Tick.qubicToProto (Validator.checked_tickData c)) (λ td,
     match td with Some td => encodes_b td | None => true end) &&
  (ok_and (Tx.qubicToProto (Validator.checked_validTxs c)) (forallb encodes_b) &&
  (ok_and (Tx.removeNonTransferTransactionsAndConvert (Validator.checked_validTxs c)) (λ ptxs,
     ok_and (Tx.createTransferTransactionsIdentityMap ptxs) (λ groups,
       forallb (λ g, encodes_b (pb.MkTransferTransactionsPerTick n g.1 g.2)) (map_to_list groups))) &&
  (encodes_b (Validator.checked_approvedTxs c) &&
   forallb encodes_b (pb.TickTransactionsStatus_Transactions (Validator.checked_approvedTxs c)) &&
   forallb (λ tx, ok_and (Transaction_Digest tx) (λ _, true)) (Validator.checked_validTxs c)))))).

Lemma storable_eval n c : storable_b n c = true → storable n c.
Proof.
  unfold storable_b. rewrite !andb_true_iff.
  intros ((q1 & E1 & H1)%ok_and_true & (q2 & E2 & H2)%ok_and_true & (td & E3 & H3)%ok_and_true &
    (ptxs & E4 & H4)%ok_and_true & (tr & E5 & (groups & E6 & H6)%ok_and_true)%ok_and_true &
    [H7 H8] & H9).
  split.
  - exists q1. split; [done|by apply encodes_eval].
  - exists q2. split; [done|by apply encodes_eval].
  - exists td. split; [done|]. destruct td; [by apply encodes_eval|done].
  - exists ptxs. split; [done|]. by apply (forallb_Forall _ _ _ encodes_eval).
  - exists tr, groups. split; [done|]. split; [done|]. apply map_Forall_to_list.
    eapply forallb_Forall; [|exact H6]. intros [id txs]. apply encodes_eval.
  - split; [by apply encodes_eval|]. by apply (forallb_Forall _ _ _ encodes_eval).
  - eapply forallb_Forall; [|exact H9]. intros tx (d & Hd & _)%ok_and_true. by exists d.
Qed.

(** A pass of the sample node, from an evaluated check. *)
Definition checked_at (n : Z) (db : DB) : outcome Validator.checked :=
  (Validator.check sample_client sample_arbitrator n false db).1.

(** Only the outcome has to be evaluated. *)
Lemma run_pair {A} (c : M DB A) db a : (c db).1 = Ok a → c db = (Ok a, (c db).2).
Proof. intros <-. apply surjective_pairing. Qed.

Lemma getLastProcessedTick_pair info db last :
  (Processor.getLastProcessedTick info db).1 = Ok last →
  Processor.getLastProcessedTick info db = (Ok last, db).
Proof.
  intros E. rewrite (run_pair _ _ _ E). f_equal. apply ProcessorProofs.getLastProcessedTick_reads.
Qed.

Lemma sample_good_pass db last n :
  (Processor.getLastProcessedTick sample_info db).1 = Ok last →
  Processor.getNextProcessingTick last sample_info = Ok (pb.MkProcessedTick n 151) → n ≤ 20 →
  ok_and (checked_at n db) (storable_b n) = true →
  good_pass sample_arbitrator false sample_client db.
Proof.
  intros Hlast%getLastProcessedTick_pair Hn Hle (c & Hc & Hs)%ok_and_true.
  exists sample_info, last, (pb.MkProcessedTick n 151), c,
    (Validator.check sample_client sample_arbitrator n false db).2.
  split; [done|]. split; [by vm_compute|]. split; [done|]. split; [done|].
  split; [done|]. split; [|by apply storable_eval].
  simpl. by apply run_pair.
Qed.

(** The databases after each pass. *)
Definition pass_db (client : Client) (db : DB) : DB :=
  (Processor.process_with sample_arbitrator false client db).2.

(** The database after the first good pass, evaluated once. *)
Definition w_first : DB := pass_db sample_client empty_db.
Definition w_first_value : DB := Eval vm_compute in w_first.

Lemma w_first_run :
  Processor.process_with sample_arbitrator false sample_client empty_db = (Ok tt, w_first_value).
Proof. vm_cast_no_check (eq_refl (Ok tt, w_first_value)). Qed.

Lemma w_first_eq : w_first = w_first_value.
Proof. unfold w_first, pass_db. by rewrite w_first_run. Qed.

Lemma w_good_passes : good_passes sample_arbitrator false 2 w_passes empty_db.
Proof.
  apply good_unconnected. apply good_next.
  { apply (sample_good_pass _ (pb.MkProcessedTick 0 151) 10); [vm_compute; reflexivity..|lia|].
    vm_compute. reflexivity. }
  change (Processor.process_with _ _ _ _).2 with w_first. rewrite w_first_eq. apply good_later.
  { vm_compute. discriminate. }
  apply good_next; [|apply good_done].
  apply (sample_good_pass _ (pb.MkProcessedTick 10 151) 11); [vm_compute; reflexivity..|lia|].
  vm_compute. reflexivity.
Qed.

Lemma run_progress_witness :
  ∃ a, represents (contents (Processor.run sample_arbitrator false w_passes empty_db)) a ∧
       archive_ok a ∧ 2 ≤ last_number a.
Proof.
  exact (run_progress sample_arbitrator false 2 w_passes empty_db eq_refl eq_refl w_passes_reports
    w_passes_answers w_good_passes).
Defined.

Lemma good_pass_advances_witness :
  ∃ info db', Client_GetTickInfo sample_client = Ok info ∧
    Processor.process_with sample_arbitrator false sample_client empty_db = (Ok tt, db') ∧
    let a' := update_status (last_tick info empty_archive)
      (next_tick info (last_tick info empty_archive)) empty_archive in
    represents (contents db') a' ∧ last_number empty_archive < last_number a'.
Proof.
  apply (good_pass_advances sample_arbitrator false w_passes sample_client empty_db empty_archive).
  - exact w_passes_reports.
  - unfold w_passes. set_solver.
  - exact (running_empty w_passes empty_db eq_refl eq_refl).
  - apply (sample_good_pass _ (pb.MkProcessedTick 0 151) 10); [vm_compute; reflexivity..|lia|].
    vm_compute. reflexivity.
Defined.

Lemma run_archives_witness :
  ∃ a, represents (contents (Processor.run sample_arbitrator false w_passes empty_db)) a ∧
    archive_ok a ∧ ∀ e t, processed_in a e t →
      archived (contents (Processor.run sample_arbitrator false w_passes empty_db)) t.
Proof.
  exact (run_archives sample_arbitrator false w_passes empty_db eq_refl eq_refl w_passes_reports
    w_passes_answers).
Defined.

Lemma ValidateTick_archives_witness :
  ∃ c db1, Validator.check sample_client sample_arbitrator 10 false empty_db = (Ok c, db1) ∧
    tick_stored (contents
      (Validator.ValidateTick sample_client sample_arbitrator 10 10 false empty_db).2) 10 c.
Proof.
  apply (ValidateTick_archives sample_client sample_arbitrator 10 10 false empty_db tt).
  apply run_pair. vm_compute. reflexivity.
Defined.

(** ** From the start of the process *)
Definition w_config : Main.config := Main.MkConfig false
  (match Identity_FromPubKey sample_arbitrator false with Ok id => id | _ => "" end) true.

Definition w_main : DB := (Main.run_main w_config (Ok w_passes) empty_db).2.

Definition w_main_value : DB := Eval vm_compute in w_main.

Lemma w_main_eq : w_main = w_main_value.
Proof. vm_cast_no_check (eq_refl w_main_value). Qed.

(** It does process ticks. *)
Example w_main_summary : (GetLastProcessedTick w_main).1 = Ok (pb.MkProcessedTick 11 151).
Proof. rewrite w_main_eq. vm_compute. reflexivity. Qed.

Lemma run_main_well_typed_witness : well_typed (contents w_main).
Proof.
  exact (run_main_well_typed w_config (Ok w_passes) empty_db (map_Forall_empty _)).
Defined.

Lemma run_main_getters_answer_witness : getters_answer (contents w_main).
Proof. exact (run_main_getters_answer w_config (Ok w_passes) empty_db eq_refl). Defined.

(** A second start keeps the tick data of the first. *)
Lemma run_main_keeps_witness :
  match contents w_main !! tickDataKey 10 with
  | Some v => ∃ v', contents (Main.run_main w_config (Ok w_passes) w_main).2 !! tickDataKey 10 =
      Some v' ∧ (v' = v ∨ typed_entry (tickDataKey 10) v')
  | None => False
  end.
Proof.
  destruct (contents w_main !! tickDataKey 10) as [v|] eqn:E.
  - apply (run_main_keeps w_config (Ok w_passes) w_main (tickDataKey 10) v E).
    unfold erasable. change (key_kind (tickDataKey 10)) with (Some Keys.TickData).
    by intros [[=]|[=]].
  - revert E. rewrite w_main_eq. vm_compute. discriminate.
Defined.

(** ** The service *)

(** A network on which every request fails. *)
#[export] Instance toy_http : HttpClient := {|
  Request := string;
  Response := unit;
  http_NewRequest url := Ok url;
  http_Do _ := Err io_error;
  http_StatusCode _ := 200;
  io_ReadAll _ := Ok [];
  json_max_tick _ := Ok 0;
  json_transactions _ := Ok []
|}.

#[export] Instance toy_library_returns : LibraryReturns toy_network toy_http.
Proof.
  split; simpl; intros; try done.
  - unfold toy_ToPubKey. by repeat case_match.
  - unfold toy_FromPubKey. by repeat case_match.
Qed.

(** The condition on stored votes, as a check over the entries. *)
Definition vote_matches (m : gmap bytes bytes) (k v : bytes) : bool :=
  if bool_decide (key_kind k = Some QuorumData) then
    match Unmarshal (A := pb.QuorumTickDataStored) v with
    | Ok q =>
        match m !! computorsKey (pb.QuorumTickStructure_Epoch
                (pb.QuorumTickDataStored_QuorumTickStructure_ q)) with
        | Some b =>
            match Unmarshal (A := pb.Computors) b with
            | Ok c => forallb (λ '(id, _), bool_decide (0 ≤ id < Z.of_nat (length (pb.Computors_Identities c))))
                        (map_to_list (pb.QuorumTickDataStored_QuorumDiffPerComputor q))
            | _ => true
            end
        | None => true
        end
    | _ => true
    end
  else true.

Lemma votes_match_eval m :
  forallb (λ '(k, v), vote_matches m k v) (map_to_list m) = true → votes_match m.
Proof.
  intros Hm n q c id (b & Hb & Eq) (bc & Hbc & Ec) [x Hx].
  apply (forallb_Forall _ (λ e, vote_matches m e.1 e.2 = true)) in Hm; [|by intros []].
  rewrite Forall_forall in Hm. apply elem_of_map_to_list, Hm in Hb. simpl in Hb. revert Hb.
  unfold vote_matches. rewrite bool_decide_true by done. rewrite Eq, Hbc, Ec. intros Hall.
  apply (forallb_Forall _ (λ e, 0 ≤ e.1 < Z.of_nat (length (pb.Computors_Identities c)))) in Hall;
    [|by intros [i ?] ?%bool_decide_eq_true].
  rewrite Forall_forall in Hall. apply (Hall (id, x)). by apply elem_of_map_to_list.
Qed.

Definition w_server : Server := MkServer 5 "http://node/max-tick".

Lemma serve_never_panics_witness :
  (serve w_server 20 (CallGetQuorumTickData 10) w_main).1 ≠ Panic.
Proof.
  apply (serve_never_panics w_server 20 (CallGetQuorumTickData 10) w_main).
  - exact (proj1 (typed_run_main w_config (Ok w_passes) empty_db) eq_refl).
  - unfold w_main. apply typed_writes_preserve; [apply typed_run_main|apply map_Forall_empty].
  - apply votes_match_eval. rewrite w_main_eq. vm_compute. reflexivity.
Defined.

(** A network whose four computors all have a key. *)
Definition w_full_comps : types.Computors :=
  types.MkComputors 151 [sample_key 1; sample_key 2; sample_key 3; sample_key 4] (zero_array 64).

Definition w_full_client : Client := {|
  Client_GetTickInfo := Ok sample_info;
  Client_GetQuorumVotes t := Ok (votes_on t);
  Client_GetComputors := Ok w_full_comps;
  Client_GetSystemInfo := Ok (types.MkSystemInfo 151 1000);
  Client_GetTickData t := Ok sample_tick_data;
  Client_GetTickTransactions t := Ok [sample_tx];
  Client_GetTxStatus t := Ok (types.MkTransactionStatus 20 t 1 [1] [toy_Digest sample_tx])
|}.

Lemma w_full_computors : full_computors w_full_client.
Proof.
  intros comps Hcomps. assert (comps = w_full_comps) as -> by (by injection Hcomps as <-).
  unfold full, Computors.is_key. split; [reflexivity|]. by_eval.
Qed.

(** The second life is killed in the middle of a status update. *)
Definition w_full_lives : list life :=
  [MkLife w_config (Ok [Ok w_full_client]) BetweenPasses;
   MkLife w_config (Ok [Ok w_full_client]) (KilledUpdating w_full_client 1)].

Lemma lives_never_panic_witness :
  (serve w_server 20 (CallGetQuorumTickData 10) (run_lives w_full_lives empty_db)).1 ≠ Panic.
Proof.
  apply (lives_never_panic w_server 20 (CallGetQuorumTickData 10) w_full_lives empty_db);
    [reflexivity|reflexivity|].
  intros client Hc. assert (client = w_full_client) as ->; [|exact w_full_computors].
  simpl in Hc. rewrite !elem_of_cons, elem_of_nil in Hc. by destruct Hc as [[=]|[[=]|[[=]|[]]]].
Defined.

(** The two lives did store something to ask about. *)
Example w_full_lives_answer : ∃ q,
  (serve w_server 20 (CallGetQuorumTickData 10) (run_lives w_full_lives empty_db)).1 = Ok q.
Proof. eexists. vm_compute. reflexivity. Qed.

Lemma serve_admits_witness :
  ((∃ e, processed_in sample_archive e 11) ∧
   serve w_server 20 (CallGetTickData 11) sample_db = handle w_server 20 (CallGetTickData 11) sample_db) ∨
  (∃ e, serve w_server 20 (CallGetTickData 11) sample_db =
          (Err (WrapError "invalid tick number" e), sample_db) ∧
        (∀ ep, ¬ processed_in sample_archive ep 11) ∧ verdict sample_archive 11 (Err e)).
Proof.
  apply (serve_admits w_server 20 (CallGetTickData 11) 11 sample_db sample_archive).
  - exact sample_serves.
  - reflexivity.
  - lia.
Defined.

Lemma run_serves_witness :
  ∃ a, represents (contents (Processor.run sample_arbitrator false w_passes empty_db)) a ∧
    archive_ok a ∧ ∀ t, 1 ≤ t →
    ((∃ e, processed_in a e t) ∧
     answered w_server 20 (Processor.run sample_arbitrator false w_passes empty_db) t) ∨
    ((∀ e, ¬ processed_in a e t) ∧
     refused w_server 20 (Processor.run sample_arbitrator false w_passes empty_db) a t).
Proof.
  exact (run_serves w_server 20 sample_arbitrator false w_passes empty_db eq_refl eq_refl
    w_passes_reports w_passes_answers).
Defined.

(** ** The lives of an archiver *)

(** The first life is killed when it has stored a part of its last tick; the second
    has other options; the third is killed as it starts; the fourth gets no pool. *)
Definition w_lives : list life :=
  [MkLife w_config (Ok w_passes) (KilledStoring sample_client 2);
   MkLife (Main.MkConfig true (Main.cfg_ArbitratorIdentity w_config) false) (Ok [Ok sample_client]) BetweenPasses;
   MkLife (Main.MkConfig false (Main.cfg_ArbitratorIdentity w_config) true) (Ok []) (KilledStarting 1);
   MkLife w_config (Err io_error) BetweenPasses].

Lemma w_lives_spared : Forall spared w_lives.
Proof. by repeat constructor. Qed.

Lemma w_lives_passes x : x ∈ w_lives ≫= life_passes → x ∈ w_passes.
Proof. unfold w_passes. simpl. set_solver. Qed.

Lemma w_lives_reports : ProcessorProofs.reports_consistent (w_lives ≫= life_passes).
Proof.
  destruct w_passes_reports as [H1 H2].
  assert (H : ∀ info, ProcessorProofs.report (w_lives ≫= life_passes) info →
    ProcessorProofs.report w_passes info).
  { intros info (client & Hc & Hi). exists client. split; [by apply w_lives_passes|done]. }
  split; eauto.
Qed.

Lemma lives_serve_witness :
  ∃ a, represents (contents (run_lives w_lives empty_db)) a ∧ archive_ok a ∧ ∀ t, 1 ≤ t →
    ((∃ e, processed_in a e t) ∧ answered w_server 20 (run_lives w_lives empty_db) t) ∨
    ((∀ e, ¬ processed_in a e t) ∧ refused w_server 20 (run_lives w_lives empty_db) a t).
Proof.
  exact (lives_serve w_server 20 w_lives empty_db eq_refl eq_refl w_lives_reports
    (λ client Hc, w_passes_answers client (w_lives_passes _ Hc)) w_lives_spared).
Defined.

(** ** A request after a pass was cut short *)

Lemma sample_begins db last n :
  (Processor.getLastProcessedTick sample_info db).1 = Ok last →
  Processor.getNextProcessingTick last sample_info = Ok (pb.MkProcessedTick n 151) → n ≤ 20 →
  begins w_passes sample_client sample_info last (pb.MkProcessedTick n 151) db.
Proof.
  intros Hlast%getLastProcessedTick_pair Hn Hle. split; try done. unfold w_passes. set_solver.
Qed.

Definition w_start : system := MkSystem empty_db Stopped [].

Definition w_after_first : system := MkSystem w_first Idle [].

Definition w_step : system → system → Prop := sys_step sample_arbitrator false w_server 20 w_passes settled.

Lemma w_starts : Tick.prepare_empty_ticks false empty_db = (Ok tt, empty_db).
Proof. vm_compute. reflexivity. Qed.

Lemma w_passes_once : Processor.process_with sample_arbitrator false sample_client empty_db = (Ok tt, w_first).
Proof. rewrite w_first_eq. exact w_first_run. Qed.

Lemma w_first_steps : rtc w_step w_start w_after_first.
Proof.
  etrans; [exact (undisturbed_start _ _ _ _ _ settled false empty_db empty_db w_starts)|].
  refine (undisturbed_pass _ _ _ _ _ settled sample_client sample_info (pb.MkProcessedTick 0 151)
    (pb.MkProcessedTick 10 151) empty_db w_first [] _ w_passes_once).
  apply sample_begins; [vm_compute; reflexivity..|lia].
Qed.

(** The second pass has stored the votes of its tick, and not yet its data, when
    the process is killed; after the next start a request about the first tick has
    been let through. *)
Definition w_second_work : work :=
  Validating sample_client sample_info (pb.MkProcessedTick 10 151) (pb.MkProcessedTick 11 151).

Definition w_killed : DB := progress sample_arbitrator false w_second_work 2 w_first.

Definition w_killed_value : DB := Eval vm_compute in w_killed.

Lemma w_killed_eq : w_killed = w_killed_value.
Proof. unfold w_killed. rewrite w_first_eq. vm_cast_no_check (eq_refl w_killed_value). Qed.

Definition w_restarted : DB := (Tick.prepare_empty_ticks false w_killed).2.

Definition w_later : system := MkSystem w_restarted Idle [CallGetTickData 10].

Example w_killed_between : is_Some (contents w_killed !! quorumTickDataKey 11) ∧
  contents w_killed !! tickDataKey 11 = None.
Proof.
  rewrite w_killed_eq.
  split; [apply not_eq_None_Some; vm_compute; discriminate|vm_compute; reflexivity].
Qed.

Lemma w_restarts : Tick.prepare_empty_ticks false w_killed = (Ok tt, w_restarted).
Proof.
  assert (Hp : (Tick.prepare_empty_ticks false w_killed).1 = Ok tt)
    by (rewrite w_killed_eq; vm_compute; reflexivity).
  unfold w_restarted. rewrite <-Hp. apply surjective_pairing.
Qed.

Lemma w_lets_through : let_through (CallGetTickData 10) w_restarted = (Ok tt, w_restarted).
Proof.
  assert (Ha : (let_through (CallGetTickData 10) w_restarted).1 = Ok tt)
    by (unfold w_restarted; rewrite w_killed_eq; vm_compute; reflexivity).
  rewrite (surjective_pairing (let_through _ _)), let_through_reads. by rewrite Ha.
Qed.

Lemma w_later_steps : rtc w_step w_after_first w_later.
Proof.
  eapply rtc_l; [apply (pass_begins _ _ _ _ _ settled sample_client sample_info
    (pb.MkProcessedTick 10 151) (pb.MkProcessedTick 11 151) w_first), sample_begins;
    [rewrite ?w_first_eq; vm_compute; reflexivity..|lia]|].
  etrans; [exact (undisturbed_writes _ _ _ _ _ settled w_second_work w_first 2 [])|].
  eapply rtc_l; [exact (process_killed _ _ _ _ _ settled w_killed (Working w_second_work w_first 2) [] I)|].
  etrans; [exact (undisturbed_start _ _ _ _ _ settled false w_killed w_restarted w_restarts)|].
  exact (rtc_once _ _ (request_admitted _ _ _ _ _ settled (CallGetTickData 10) w_restarted w_restarted Idle []
    eq_refl w_lets_through)).
Qed.

Lemma interleaved_requests_witness : ∃ s, rtc w_step w_start s ∧
  sys_phase s = Idle ∧ sys_pending s = [CallGetTickData 10] ∧
  ∃ a, archive_ok a ∧ (settled (sys_phase s) → represents (contents (sys_db s)) a) ∧
    (∀ c t, c ∈ sys_pending s → tick_of c = Some t → 1 ≤ t →
       (∃ e, processed_in a e t) ∧
       handle w_server 20 c (sys_db s) = serve w_server 20 c (sys_db s) ∧
       answered w_server 20 (sys_db s) t) ∧
    (∀ t, 1 ≤ t → (∃ e, processed_in a e t) ∧ answered w_server 20 (sys_db s) t ∨
       (∀ e, ¬ processed_in a e t) ∧ refused w_server 20 (sys_db s) a t).
Proof.
  assert (Hsteps : rtc w_step w_start w_later) by (etrans; [exact w_first_steps|exact w_later_steps]).
  exists w_later. split; [exact Hsteps|]. split; [reflexivity|]. split; [reflexivity|].
  exact (interleaved_requests sample_arbitrator false w_server 20 w_passes w_passes_reports
    w_passes_answers empty_db w_later eq_refl eq_refl Hsteps).
Defined.

Lemma serve_pair c (db : DB) msg : (serve w_server 20 c db).1 = Ok msg →
  serve w_server 20 c db = (Ok msg, db).
Proof.
  intros Hmsg. pose proof (serve_reads_only w_server 20 c db) as Hd.
  destruct (serve w_server 20 c db) as [o db']. simpl in *. by subst.
Qed.

Lemma answers_final_witness : ∃ s msg, rtc w_step w_after_first s ∧
  sys_pending s = [CallGetTickData 10] ∧
  serve w_server 20 (CallGetChainHash 10) w_first = (Ok msg, w_first) ∧
  serve w_server 20 (CallGetChainHash 10) (sys_db s) = (Ok msg, sys_db s).
Proof.
  assert (Hserve : ok_and (serve w_server 20 (CallGetChainHash 10) w_first).1 (λ _, true) = true)
    by (rewrite w_first_eq; vm_compute; reflexivity).
  apply ok_and_true in Hserve as (msg & Hmsg & _).
  pose proof (serve_pair _ _ _ Hmsg) as Hfirst.
  exists w_later, msg. split; [exact w_later_steps|]. split; [reflexivity|]. split; [exact Hfirst|].
  exact (proj2 (answers_final sample_arbitrator false w_server 20 w_passes settled
    empty_db w_after_first w_later (CallGetChainHash 10) _ 10 msg eq_refl eq_refl
    (consistent_in_range _ w_passes_reports) w_first_steps w_later_steps
    eq_refl eq_refl ltac:(lia) Hfirst) w_passes_reports w_passes_answers (λ _ Hp, Hp)).
Defined.

Lemma system_refines_ledger_witness : ∃ s, rtc w_step w_after_first s ∧
  sys_pending s = [CallGetTickData 10] ∧
  ∃ L L', rtc ledger_step empty_ledger L ∧ rtc ledger_step L L' ∧
    represents (contents w_first) (ledger_archive L) ∧
    represents (contents (sys_db s)) (ledger_archive L') ∧
    ledger_answers w_server 20 L w_first ∧ ledger_answers w_server 20 L' (sys_db s) ∧
    ledger_ticks L ⊆ ledger_ticks L'.
Proof.
  exists w_later. split; [exact w_later_steps|]. split; [reflexivity|].
  assert (Hh : healthy empty_db) by reflexivity.
  destruct (system_refines_ledger sample_arbitrator false w_server 20 w_passes w_passes_reports
    w_passes_answers empty_db w_after_first w_later Hh eq_refl w_first_steps w_later_steps)
    as (L & L' & HL & HL' & Hr & Hr' & Ha & Ha' & Hsub).
  exists L, L'. split_and!; [done|done|exact (Hr I)|exact (Hr' I)|done..].
Defined.

(** A request whose first access is made before the second pass begins, and
    whose others after the process was killed in the middle of it and started again. *)
Definition w_torn (c : call) (s : system) : outcome (response c) :=
  run_reader (after_access (accesses (serve w_server 20 c)) w_first) (sys_db s).

Lemma w_weave c s : rtc w_step w_after_first s →
  is_access (accesses (serve w_server 20 c)) = true →
  is_access (after_access (accesses (serve w_server 20 c)) w_first) = true →
  weave sys_db w_step (accesses (serve w_server 20 c)) w_after_first (w_torn c s) s.
Proof. intros Hs H1 H2. by apply (weave_split sys_db w_step _ w_after_first s H1 H2 Hs). Qed.

Lemma requests_atomic_witness : ∃ s, rtc w_step w_after_first s ∧
  sys_pending s = [CallGetTickData 10] ∧
  serve w_server 20 (CallGetChainHash 10) (sys_db s) = (w_torn (CallGetChainHash 10) s, sys_db s).
Proof.
  exists w_later. split; [exact w_later_steps|]. split; [reflexivity|].
  refine (proj2 (requests_atomic sample_arbitrator false w_server 20 w_passes w_passes_reports
    w_passes_answers empty_db w_after_first w_later (CallGetChainHash 10) (w_torn (CallGetChainHash 10) w_later)
    eq_refl eq_refl w_first_steps eq_refl _ (w_weave _ w_later w_later_steps _ _))).
  - intros t [= <-]. lia.
  - vm_compute. reflexivity.
  - rewrite w_first_eq. vm_compute. reflexivity.
Defined.

Lemma lists_complete_witness : ∃ s, rtc w_step w_after_first s ∧
  sys_pending s = [CallGetTickData 10] ∧
  let o := w_torn (CallGetTickTransactions 10) s in
  (∃ e, o = Err e ∧ serve w_server 20 (CallGetTickTransactions 10) (sys_db s) = (Err e, sys_db s) ∧
     ∃ a, shows (sys_db s) a ∧ ∀ e, ¬ processed_in a e 10) ∨
  lists (sys_db s) (CallGetTickTransactions 10) o.
Proof.
  exists w_later. split; [exact w_later_steps|]. split; [reflexivity|].
  refine (lists_complete sample_arbitrator false w_server 20 w_passes w_passes_reports
    w_passes_answers empty_db w_after_first w_later (CallGetTickTransactions 10) 10
    (w_torn (CallGetTickTransactions 10) w_later) eq_refl eq_refl w_first_steps eq_refl eq_refl _
    (w_weave _ w_later w_later_steps _ _)).
  - lia.
  - vm_compute. reflexivity.
  - rewrite w_first_eq. vm_compute. reflexivity.
Defined.

(** What reads several records of the bookkeeping is not atomic: a status whose
    first access comes before the second pass and whose others come after it
    says that tick 10 is the last one, and that tick 11 was processed. *)
Definition w_second : DB := Eval vm_compute in pass_db sample_client w_first_value.

Lemma w_second_run :
  Processor.process_with sample_arbitrator false sample_client w_first_value = (Ok tt, w_second).
Proof. vm_cast_no_check (eq_refl (Ok tt, w_second)). Qed.

Lemma w_second_steps : rtc w_step w_after_first (MkSystem w_second Idle []).
Proof.
  unfold w_after_first. rewrite w_first_eq.
  refine (undisturbed_pass _ _ _ _ _ settled sample_client sample_info (pb.MkProcessedTick 10 151)
    (pb.MkProcessedTick 11 151) w_first_value w_second [] _ w_second_run).
  apply sample_begins; [vm_compute; reflexivity..|lia].
Qed.

Example status_not_atomic : ∃ status s,
  weave sys_db w_step (accesses (serve w_server 20 CallGetStatus)) w_after_first (Ok status) s ∧
  pb.GetStatusResponse_LastProcessedTick status = pb.MkProcessedTick 10 151 ∧
  pb.GetStatusResponse_ProcessedTickIntervalsPerEpoch_ status =
    [pb.MkProcessedTickIntervalsPerEpoch 151 [pb.MkProcessedTickInterval 10 11]].
Proof.
  assert (Hst : ok_and (w_torn CallGetStatus (MkSystem w_second Idle [])) (λ status,
    bool_decide (pb.GetStatusResponse_LastProcessedTick status = pb.MkProcessedTick 10 151) &&
    bool_decide (pb.GetStatusResponse_ProcessedTickIntervalsPerEpoch_ status =
      [pb.MkProcessedTickIntervalsPerEpoch 151 [pb.MkProcessedTickInterval 10 11]])) = true)
    by (unfold w_torn; rewrite w_first_eq; vm_compute; reflexivity).
  apply ok_and_true in Hst as (status & Hst & [H1%bool_decide_eq_true H2%bool_decide_eq_true]%andb_prop).
  exists status, (MkSystem w_second Idle []). split; [|by split].
  rewrite <-Hst. apply w_weave; [exact w_second_steps|vm_compute; reflexivity|].
  rewrite w_first_eq. vm_compute. reflexivity.
Qed.

(** ** Writes that fail half way

    The theorems about runs assume a database that does not fail, and those about
    the represented archive that no process is killed in a status update.  These
    runs show what they would not have otherwise: the writes of a step are not
    one batch. *)

(** The pass that cannot write the last tick has appended the interval of its
    tick already; the pass that repeats it appends the same interval again. *)
Definition w_half_written : DB :=
  pass_db sample_client (MkMapDB ∅ {[lastProcessedTickKey]}).

Example repeated_pass_duplicates_interval :
  (GetProcessedTickIntervals (pass_db sample_client (fresh_db (contents w_half_written)))).1 =
    Ok [pb.MkProcessedTickIntervalsPerEpoch 151
          [pb.MkProcessedTickInterval 10 10; pb.MkProcessedTickInterval 10 10]].
Proof. vm_compute. reflexivity. Qed.

(** A process killed in a status update.  The first tick of an epoch follows the
    last tick of the one before; the last processed tick is written and the interval is
    not.  The tick is answered; after the next life's pass, whose interval begins behind
    it, the same request is refused: the tick is taken for a skipped one. *)
Definition w_adjacent_client : Client := {|
  Client_GetTickInfo := Ok (types.MkTickInfo 151 20 1);
  Client_GetQuorumVotes := Client_GetQuorumVotes sample_client;
  Client_GetComputors := Client_GetComputors sample_client;
  Client_GetSystemInfo := Client_GetSystemInfo sample_client;
  Client_GetTickData := Client_GetTickData sample_client;
  Client_GetTickTransactions := Client_GetTickTransactions sample_client;
  Client_GetTxStatus := Client_GetTxStatus sample_client
|}.

Definition w_killed_update : life := MkLife w_config (Ok []) (KilledUpdating w_adjacent_client 1).
Definition w_next_life : life := MkLife w_config (Ok [Ok w_adjacent_client]) BetweenPasses.

Example killed_update_answers :
  (GetLastProcessedTick (run_lives [w_killed_update] empty_db)).1 = Ok (pb.MkProcessedTick 1 151) ∧
  (GetProcessedTickIntervals (run_lives [w_killed_update] empty_db)).1 = Ok [] ∧
  ok_and (serve w_server 20 (CallGetChainHash 1) (run_lives [w_killed_update] empty_db)).1
    (λ _, true) = true.
Proof. vm_compute. auto. Qed.

Example killed_update_loses_tick :
  (GetProcessedTickIntervals (run_lives [w_killed_update; w_next_life] empty_db)).1 =
    Ok [pb.MkProcessedTickIntervalsPerEpoch 151 [pb.MkProcessedTickInterval 2 2]] ∧
  (serve w_server 20 (CallGetChainHash 1) (run_lives [w_killed_update; w_next_life] empty_db)).1 =
    Err (WrapError "invalid tick number"
      (StatusError OutOfRange "provided tick number was skipped by the system" (Some 2))).
Proof. vm_compute. auto. Qed.

(** Start-up writes the count of an epoch's empty ticks before their list;
    when the second write fails, later starts find the count and return, and
    no empty tick of the epoch can be recorded. *)
Definition w_count_without_list : DB :=
  (Tick.CalculateEmptyTicksForAllEpochs
    (MkMapDB (delete (emptyTicksPerEpochKey 151) (delete (emptyTickListPerEpochKey 151)
       sample_contents)) {[emptyTickListPerEpochKey 151]})).2.

Definition w_count_without_list_value : DB := Eval vm_compute in w_count_without_list.

Lemma w_count_without_list_eq : w_count_without_list = w_count_without_list_value.
Proof. vm_cast_no_check (eq_refl w_count_without_list_value). Qed.

Example count_without_list_blocks :
  (Tick.CalculateEmptyTicksForAllEpochs (fresh_db (contents w_count_without_list))).1 = Ok tt ∧
  (Processor.process_with sample_arbitrator false sample_client
     (fresh_db (contents w_count_without_list))).1 ≠ Ok tt.
Proof. rewrite w_count_without_list_eq. split; vm_compute; [reflexivity|discriminate]. Qed.
