(* ===== verification/ConcreteGateway.v ===== *)
(** * A concrete gateway runtime

    An interpreter of compiled path templates, decimal numbers, and a query
    parser, which satisfy the laws of GatewayProofs.v. *)

From stdpp Require Import sorting base strings numbers pretty gmap list.
From S2P Require Import Prelude GoLib Types Platform Keys Store Paging Middleware Rpc RpcV2 Service.
From S2P Require Import Gateway GatewayProofs.

Local Open Scope Z_scope.

(** ** Templates: a machine with a stack of the components matched so far *)
Fixpoint match_ops (ops : list Z) (pool comps stack : list string) (vars : gmap string string) :
    option (gmap string string) :=
  match ops with
  | op :: operand :: ops =>
      let name := default "" (pool !! Z.to_nat operand) in
      if op =? 1 then (* push *)
        match comps with c :: comps => match_ops ops pool comps (c :: stack) vars | [] => None end
      else if op =? 2 then (* literal *)
        match comps with
        | c :: comps =>
            if bool_decide (c = name) then match_ops ops pool comps (c :: stack) vars else None
        | [] => None
        end
      else if op =? 4 then (* concatenate the last [operand], here one *)
        if operand =? 1 then match_ops ops pool comps stack vars else None
      else if op =? 5 then (* capture *)
        match stack with
        | c :: stack => match_ops ops pool comps stack (<[name := c]> vars)
        | [] => None
        end
      else None
  | [_] => None
  | [] => if comps is [] then Some vars else None
  end.

Definition pattern_match (pat : Pattern) (comps : list string) : option (gmap string string) :=
  match_ops (pattern_ops pat) (pattern_pool pat) comps [] ∅.

Lemma pattern_match_instance tm v : pattern_match (compiled tm) (instance tm v) = Some (bindings tm v).
Proof.
  destruct tm as [r k [x|] [l|]]; unfold pattern_match; simpl; repeat rewrite bool_decide_true by done;
    simpl; rewrite ?bool_decide_true by done; done.
Qed.

Lemma pattern_match_only tm comps : is_Some (pattern_match (compiled tm) comps) →
  ∃ v, comps = instance tm v.
Proof.
  intros [vars Hv]. destruct tm as [r k [x|] [l|]]; unfold pattern_match in Hv; simpl in Hv;
    repeat (case_match; simplify_eq; simpl in * );
    repeat match goal with H : bool_decide _ = true |- _ => apply bool_decide_eq_true in H; subst end;
    simplify_eq; first [by exists "" | by eexists].
Qed.

(** ** Decimal numbers *)
Definition digit (a : Ascii.ascii) : option N :=
  let d := Ascii.N_of_ascii a in
  if bool_decide (48 ≤ d ∧ d ≤ 57)%N then Some (d - 48)%N else None.

Fixpoint parse_decimal (n : N) (s : string) : option N :=
  match s with
  | EmptyString => Some n
  | String a s => d ← digit a; parse_decimal (10 * n + d)%N s
  end.

Lemma digit_pretty x : (x < 10)%N → digit (pretty_N_char x) = Some x.
Proof. intros Hx. by destruct x as [|[[[[]|[]|]|[[]|[]|]|]|[[[]|[]|]|[[]|[]|]|]|]]. Qed.

(** Reading back what was printed, in front of [s]: by induction on the number
    that is printed. *)
Lemma parse_pretty_go x s n : ∃ m, parse_decimal n (pretty_N_go x s) = parse_decimal m s ∧
  (n = 0 → m = x)%N.
Proof.
  revert s n. induction (N.lt_wf_0 x) as [x _ IH]. intros s n.
  destruct (decide (x = 0)%N) as [->|Hx]; [exists n; by rewrite pretty_N_go_0|].
  rewrite pretty_N_go_step by lia.
  destruct (IH (x `div` 10)%N ltac:(apply N.div_lt; lia) (String (pretty_N_char (x `mod` 10)) s) n)
    as (m & -> & Hm).
  exists (10 * m + x `mod` 10)%N. split.
  - simpl. by rewrite digit_pretty by (by apply N.mod_lt).
  - intros ->. rewrite (Hm eq_refl). pose proof (N.div_mod x 10 ltac:(lia)). lia.
Qed.

Lemma parse_pretty (n : N) : parse_decimal 0 (pretty n) = Some n.
Proof.
  unfold pretty, pretty_N. case_decide as Hn; [by subst|].
  destruct (parse_pretty_go n "" 0) as (m & -> & Hm). simpl. by rewrite Hm.
Qed.

Definition syntax_error : error := ExternalError 2.

Definition parse_uint32 (s : string) : outcome Z :=
  match parse_decimal 0 s with
  | Some n => if bool_decide (s ≠ ""%string ∧ Z.of_N n < 2 ^ 32) then Ok (Z.of_N n) else Err syntax_error
  | None => Err syntax_error
  end.

Lemma parse_uint32_decimal n : is_uint32 n → parse_uint32 (decimal n) = Ok n.
Proof.
  intros [H0 H1]. unfold parse_uint32, decimal. rewrite parse_pretty, bool_decide_true.
  - by rewrite Z2N.id by done.
  - split; [|rewrite Z2N.id; [exact H1|done]]. apply (decimal_plain n).
Qed.

(** ** Queries *)
Definition bool_value (s : string) : outcome bool :=
  if bool_decide (s = "true"%string) then Ok true
  else if bool_decide (s = "false"%string) then Ok false else Err syntax_error.

(** Fields that the message does not have are ignored. *)
Definition set_field (c : call) (field value : string) : outcome call :=
  match c with
  | CallGetTickTransactionsV2 t tr ap =>
      if bool_decide (field = "transfers"%string)
      then (b ← bool_value value; Ok (CallGetTickTransactionsV2 t b ap))
      else if bool_decide (field = "approved"%string)
      then (b ← bool_value value; Ok (CallGetTickTransactionsV2 t tr b)) else Ok c
  | CallGetEpochTickListV2 e p sz desc =>
      if bool_decide (field = "page"%string)
      then (n ← parse_uint32 value; Ok (CallGetEpochTickListV2 e n sz desc))
      else if bool_decide (field = "page_size"%string)
      then (n ← parse_uint32 value; Ok (CallGetEpochTickListV2 e p n desc))
      else if bool_decide (field = "desc"%string)
      then (b ← bool_value value; Ok (CallGetEpochTickListV2 e p sz b)) else Ok c
  | c => Ok c
  end.

Fixpoint populate (c : call) (form : list (string * string)) (filter : list string) : outcome call :=
  match form with
  | (field, value) :: form =>
      if bool_decide (field ∈ filter) then populate c form filter
      else c' ← set_field c field value; populate c' form filter
  | [] => Ok c
  end.

Lemma parse_uint32_total s : parse_uint32 s ≠ Panic.
Proof. unfold parse_uint32. by repeat case_match. Qed.

Lemma bool_value_total s : bool_value s ≠ Panic.
Proof. unfold bool_value. by repeat case_match. Qed.

Lemma set_field_total c field value : set_field c field value ≠ Panic.
Proof.
  unfold set_field. pose proof (bool_value_total value). pose proof (parse_uint32_total value).
  destruct c; repeat case_match; try done; by destruct (bool_value value), (parse_uint32 value).
Qed.

Lemma set_field_path c field value c' : set_field c field value = Ok c' → path_part c' = path_part c.
Proof.
  unfold set_field. destruct c; repeat case_match; try (by intros [= <-]);
    destruct (bool_value value), (parse_uint32 value); by intros [= <-].
Qed.

Lemma populate_total c form filter : populate c form filter ≠ Panic.
Proof.
  revert c. induction form as [|[f v] form IH]; intros c; [done|]. simpl.
  case_bool_decide; [apply IH|]. pose proof (set_field_total c f v).
  destruct (set_field c f v) as [c'|e|]; [apply IH|done|done].
Qed.

Lemma populate_path c form filter c' : populate c form filter = Ok c' → path_part c' = path_part c.
Proof.
  revert c. induction form as [|[f v] form IH]; intros c; [by intros [= <-]|]. simpl.
  case_bool_decide; [apply IH|]. destruct (set_field c f v) as [c1|e|] eqn:E; [|done|done].
  intros Hc. rewrite <-(set_field_path _ _ _ _ E). by apply IH.
Qed.

(** ** The first handler that matches *)
Fixpoint select (i : nat) (handlers : list (string * Pattern)) (meth : string) (comps : list string) :
    option (nat * gmap string string) :=
  match handlers with
  | (m, pat) :: handlers =>
      match (if bool_decide (m = meth) then pattern_match pat comps else None) with
      | Some vars => Some (i, vars)
      | None => select (S i) handlers meth comps
      end
  | [] => None
  end.

Lemma select_matches i handlers meth comps j ps : select i handlers meth comps = Some (j, ps) →
  ∃ k m pat, j = (i + k)%nat ∧ handlers !! k = Some (m, pat) ∧ pattern_match pat comps = Some ps.
Proof.
  revert i. induction handlers as [|[m pat] handlers IH]; intros i; [done|]. simpl. intros E.
  destruct (if bool_decide (m = meth) then pattern_match pat comps else None) as [vars|] eqn:Ev.
  - injection E as <- <-. exists 0%nat, m, pat. split; [lia|]. split; [done|]. by case_bool_decide.
  - destruct (IH _ E) as (k & m' & pat' & -> & Hk & Hp). exists (S k), m', pat'.
    split; [lia|]. by split.
Qed.

Lemma select_some i handlers meth comps k pat : handlers !! k = Some (meth, pat) →
  is_Some (pattern_match pat comps) → is_Some (select i handlers meth comps).
Proof.
  revert i k. induction handlers as [|[m p] handlers IH]; intros i [|k]; [done|done|..]; simpl.
  - intros [= -> ->] [vars Hv]. rewrite bool_decide_true by done. rewrite Hv. by eexists.
  - intros Hk Hp. destruct (if bool_decide (m = meth) then _ else None); [by eexists|by eapply IH].
Qed.

#[export] Instance plain_gateway : GatewayRuntime := {|
  Pattern_Match := pattern_match;
  runtime_Uint32 := parse_uint32;
  runtime_String := Ok;
  runtime_PopulateQueryParameters := populate;
  grpc_status err := match err with StatusError _ _ _ => err | _ => ExternalError 6 end;
  runtime_AnnotateContext _ _ _ := Ok tt;
  runtime_AnnotateIncomingContext _ _ _ := Ok tt;
  ServeMux_select := select 0
|}.

#[export] Instance plain_gateway_laws : GatewayLaws plain_gateway.
Proof.
  split; simpl.
  - intros tm v _. apply pattern_match_instance.
  - intros tm comps _. apply pattern_match_only.
  - apply parse_uint32_decimal.
  - apply parse_uint32_total.
  - done.
  - intros c x form c' _. apply populate_path.
  - apply populate_total.
  - intros handlers meth comps i ps (k & m & pat & -> & Hk & Hp)%select_matches. by exists m, pat.
  - intros handlers meth comps i pat Hi Hp. by eapply select_some.
Qed.
