(* ===== verification/WitnessesGateway.v ===== *)
(** * Instances of the theorems about the gateway

    Requests to the gateway in front of the service, on the sample network. *)

From stdpp Require Import sorting base strings numbers pretty gmap list.
From S2P Require Import Prelude GoLib Types Platform Keys Store StoreLogic Concrete Archive.
From S2P Require Import Progress Utils Typed Reads Archived Complete Middleware Rpc Service.
From S2P Require Import Restarts Served Samples Witnesses WitnessesArchive WitnessesRuns.
From S2P Require Import Gateway GatewayProofs GatewayServed ConcreteGateway.

Local Open Scope Z_scope.

(** GET /v2/ticks/11/transactions?transfers=true&tick_number=7 *)
Definition w_request : http_request :=
  MkRequest "GET" ["v2"; "ticks"; "11"; "transactions"]
    (Ok [("transfers"%string, "true"%string); ("tick_number"%string, "7"%string)]).

Definition w_call : call := CallGetTickTransactionsV2 11 true false.

Lemma w_expressible : expressible w_call.
Proof. exists 11. split; [reflexivity|]. unfold is_uint32. lia. Qed.

Lemma w_requests : requests w_call w_request.
Proof.
  split; [reflexivity|vm_compute; reflexivity|reflexivity|].
  intros x Hx. eexists. split; [reflexivity|]. injection Hx as <-. vm_compute. reflexivity.
Qed.

Lemma gateway_reaches_witness : requests w_call w_request ∧
  gateway w_server 20 w_request w_first = (http_answer (serve w_server 20 w_call w_first).1, w_first).
Proof.
  split; [exact w_requests|].
  exact (gateway_reaches w_server 20 w_call w_request w_first w_expressible w_requests).
Defined.

(** GET /v1/ticks/4294967296/tick-data *)
Definition w_too_big : http_request :=
  MkRequest "GET" ["v1"; "ticks"; "4294967296"; "tick-data"] (Ok []).

Lemma gateway_dispatches_witness :
  (∃ c, asks c w_too_big ∧ ∀ db, gateway w_server 20 w_too_big db =
     (http_answer (serve w_server 20 c db).1, db)) ∨
  (∃ o, refusal o ∧ ∀ db, gateway w_server 20 w_too_big db = (o, db)).
Proof.
  apply (gateway_dispatches w_server 20 w_too_big);
    [apply (bool_decide_unpack _); vm_compute; exact I|reflexivity|discriminate].
Defined.

Example w_too_big_refused : (gateway w_server 20 w_too_big empty_db).1 =
  Err (StatusError InvalidArgument "type mismatch, parameter" None).
Proof. vm_compute. reflexivity. Qed.

Lemma lives_serve_http_witness :
  ∃ a, represents (contents (run_lives w_lives empty_db)) a ∧ archive_ok a ∧
    ∀ t, 1 ≤ t → is_uint32 t →
    ((∃ e, processed_in a e t) ∧ http_answered w_server 20 (run_lives w_lives empty_db) t) ∨
    ((∀ e, ¬ processed_in a e t) ∧ http_refused w_server 20 (run_lives w_lives empty_db) a t).
Proof.
  exact (lives_serve_http w_server 20 w_lives empty_db eq_refl eq_refl w_lives_reports
    (λ client Hc, w_passes_answers client (w_lives_passes _ Hc)) w_lives_spared).
Defined.
