(* ===== verification/RepositoryTests.v ===== *)
(** * The repository's tests

    Tests of the repository run on the model: the definitions are evaluated on
    the inputs of the test files, and give what the tests require.  Tests that
    need real keys, signatures or hashes are not among them. *)

From stdpp Require Import sorting base strings numbers pretty gmap list.
From S2P Require Import Prelude GoLib Types Platform Keys Store Paging Concrete Rpc RpcV2 Samples.
From S2P Require Quorum TxStatus Processor.

Local Open Scope Z_scope.

(** A test: the steps in their order, with what each has to return. *)
Definition expects {A} `{EqDecision A} (c : M DB A) (a : A) : M DB unit :=
  b ← c; if bool_decide (b = a) then mret tt else throw (ErrorString "unexpected result").

Definition passes (test : M DB unit) : bool :=
  match (test empty_db).1 with Ok _ => true | _ => false end.

(** ** rpc/v2_endpoints_test.go *)
Definition pagination (totalRecords pageNumber pageSize totalPages previousPage nextPage : Z) :=
  pb.MkPagination totalRecords pageNumber totalPages pageSize nextPage previousPage.

Example createPaginationInfo :
  (λ '(records, page), getPaginationInformation records page 100) <$>
    [(0, 1); (1, 1); (12345, 1); (12345, 10); (12345, 124); (12345, 125); (12345, 999)] =
  Ok <$> [pagination 0 0 100 0 (-1) (-1); pagination 1 1 100 1 (-1) (-1);
          pagination 12345 1 100 124 (-1) 2; pagination 12345 10 100 124 9 11;
          pagination 12345 124 100 124 123 (-1); pagination 12345 125 100 124 124 (-1);
          pagination 12345 999 100 124 124 (-1)].
Proof. reflexivity. Qed.

Example createPaginationInfo_givenInvalidArguments : ∃ e1 e2 e3,
  getPaginationInformation 12345 0 100 = Err e1 ∧ getPaginationInformation (-1) 1 100 = Err e2 ∧
  getPaginationInformation 12345 1 0 = Err e3.
Proof. do 3 eexists. split; [reflexivity|]. by split. Qed.

(** ** processor/processor_test.go *)
Example test_GetLastProcessedTick :
  passes (expects (Processor.getLastProcessedTick (types.MkTickInfo 1 100 0)) (pb.MkProcessedTick 0 1)) = true.
Proof. vm_compute. reflexivity. Qed.

Example test_GetNextProcessingTick :
  Processor.getNextProcessingTick (pb.MkProcessedTick 0 1) (types.MkTickInfo 1 105 100) =
    Ok (pb.MkProcessedTick 100 1) ∧
  Processor.getNextProcessingTick (pb.MkProcessedTick 100 1) (types.MkTickInfo 1 105 100) =
    Ok (pb.MkProcessedTick 101 1) ∧
  Processor.getNextProcessingTick (pb.MkProcessedTick 100 1) (types.MkTickInfo 2 205 200) =
    Ok (pb.MkProcessedTick 200 2).
Proof. by vm_compute. Qed.

Definition intervals (e : Z) (l : list (Z * Z)) : pb.ProcessedTickIntervalsPerEpoch :=
  pb.MkProcessedTickIntervalsPerEpoch e ((λ '(a, b), pb.MkProcessedTickInterval a b) <$> l).

Example test_ProcessStatus : passes (
  _ ← Processor.processStatus (pb.MkProcessedTick 99 1) (pb.MkProcessedTick 100 1);
  _ ← expects GetProcessedTickIntervals [intervals 1 [(100, 100)]];
  _ ← Processor.processStatus (pb.MkProcessedTick 100 1) (pb.MkProcessedTick 101 1);
  _ ← expects GetProcessedTickIntervals [intervals 1 [(100, 101)]];
  _ ← Processor.processStatus (pb.MkProcessedTick 101 1) (pb.MkProcessedTick 150 1);
  _ ← expects GetProcessedTickIntervals [intervals 1 [(100, 101); (150, 150)]];
  _ ← Processor.processStatus (pb.MkProcessedTick 150 1) (pb.MkProcessedTick 151 1);
  _ ← expects GetProcessedTickIntervals [intervals 1 [(100, 101); (150, 151)]];
  _ ← Processor.processStatus (pb.MkProcessedTick 151 1) (pb.MkProcessedTick 200 2);
  _ ← expects GetProcessedTickIntervals
        [intervals 1 [(100, 101); (150, 151)]; intervals 2 [(200, 200)]];
  _ ← Processor.processStatus (pb.MkProcessedTick 200 2) (pb.MkProcessedTick 201 2);
  expects GetProcessedTickIntervals
    [intervals 1 [(100, 101); (150, 151)]; intervals 2 [(200, 201)]]) = true.
Proof. vm_compute. reflexivity. Qed.

(** ** store/store_test.go *)
Example test_LastProcessedTicksPerEpoch : passes (
  _ ← SetLastProcessedTick (pb.MkProcessedTick 16 1);
  _ ← expects GetLastProcessedTick (pb.MkProcessedTick 16 1);
  _ ← expects GetLastProcessedTicksPerEpoch {[1 := 16]};
  _ ← SetLastProcessedTick (pb.MkProcessedTick 17 1);
  _ ← expects GetLastProcessedTick (pb.MkProcessedTick 17 1);
  _ ← expects GetLastProcessedTicksPerEpoch {[1 := 17]};
  _ ← SetLastProcessedTick (pb.MkProcessedTick 18 2);
  _ ← expects GetLastProcessedTick (pb.MkProcessedTick 18 2);
  expects GetLastProcessedTicksPerEpoch {[1 := 17; 2 := 18]}) = true.
Proof. vm_compute. reflexivity. Qed.

Example test_SkippedTicks : passes (
  _ ← SetSkippedTicksInterval (pb.MkSkippedTicksInterval 15 20);
  _ ← expects GetSkippedTicksInterval (pb.MkSkippedTicksIntervalList [pb.MkSkippedTicksInterval 15 20]);
  _ ← SetSkippedTicksInterval (pb.MkSkippedTicksInterval 25 30);
  expects GetSkippedTicksInterval (pb.MkSkippedTicksIntervalList
    [pb.MkSkippedTicksInterval 15 20; pb.MkSkippedTicksInterval 25 30])) = true.
Proof. vm_compute. reflexivity. Qed.

Example test_LastProcessedTickIntervals : passes (
  _ ← AppendProcessedTickInterval 1 (pb.MkProcessedTickInterval 100 100);
  _ ← expects (getProcessedTickIntervalsPerEpoch 1) (intervals 1 [(100, 100)]);
  _ ← SetLastProcessedTick (pb.MkProcessedTick 100 1);
  _ ← expects (getProcessedTickIntervalsPerEpoch 1) (intervals 1 [(100, 100)]);
  _ ← SetLastProcessedTick (pb.MkProcessedTick 101 1);
  _ ← expects (getProcessedTickIntervalsPerEpoch 1) (intervals 1 [(100, 101)]);
  _ ← AppendProcessedTickInterval 1 (pb.MkProcessedTickInterval 103 103);
  _ ← SetLastProcessedTick (pb.MkProcessedTick 103 1);
  _ ← expects (getProcessedTickIntervalsPerEpoch 1) (intervals 1 [(100, 101); (103, 103)]);
  _ ← SetLastProcessedTick (pb.MkProcessedTick 104 1);
  _ ← expects (getProcessedTickIntervalsPerEpoch 1) (intervals 1 [(100, 101); (103, 104)]);
  _ ← AppendProcessedTickInterval 2 (pb.MkProcessedTickInterval 200 200);
  _ ← SetLastProcessedTick (pb.MkProcessedTick 200 2);
  _ ← SetLastProcessedTick (pb.MkProcessedTick 201 2);
  _ ← expects (getProcessedTickIntervalsPerEpoch 2) (intervals 2 [(200, 201)]);
  expects GetProcessedTickIntervals
    [intervals 1 [(100, 101); (103, 104)]; intervals 2 [(200, 201)]]) = true.
Proof. vm_compute. reflexivity. Qed.

Definition empty_tick_list : list Z :=
  [16393119; 16393320; 16393310; 13390319; 16393419; 13363379; 16493319; 17393419;
   16393619; 13393319; 16798319; 15393719].

Example test_EmptyTickList : passes (
  _ ← SetEmptyTickListPerEpoch 130 empty_tick_list;
  _ ← expects (GetEmptyTickListPerEpoch 130) empty_tick_list;
  _ ← AppendEmptyTickToEmptyTickListPerEpoch 130 10000000;
  expects (GetEmptyTickListPerEpoch 130) (empty_tick_list ++ [10000000])) = true.
Proof. vm_compute. reflexivity. Qed.

(** ** store/store_paging_test.go *)
Definition idOne : string := "QJRRSSKMJRDKUDTYVNYGAMQPULKAMILQQYOWBEXUDEUWQUMNGDHQYLOAJMEB".

Definition tickOne : list pb.Transaction :=
  [pb.MkTransaction "aaa" "bbb" 15 12 0 122 "ccc" "ddd" "eee";
   pb.MkTransaction "bbb" "ccc" 25 12 666 24 "ddd" "eee" "fff"].

Definition tickTwo : list pb.Transaction :=
  [pb.MkTransaction "ccc" "ddd" 15 15 87 122 "eee" "fff" "ggg";
   pb.MkTransaction "ddd" "eee" 25 15 0 24 "fff" "ggg" "hhh";
   pb.MkTransaction "eee" "fff" 12 23 34 45 "ggg" "hhh" "iii"].

Definition for_tick (t : Z) (txs : list pb.Transaction) : pb.TransferTransactionsPerTick :=
  pb.MkTransferTransactionsPerTick t idOne txs.

(** One query: range, page, order and filter, and the transactions expected. *)
Record paging_case := MkCase {
  case_range : Z * Z;
  case_page : Z * Z;
  case_desc : bool;
  case_sc : bool;
  case_expected : list pb.TransferTransactionsPerTick
}.

Definition paging_test (c : paging_case) : M DB unit :=
  expects (r ← GetTransactionsForEntityPaged idOne (case_range c).1 (case_range c).2
             (MkPageable (case_page c).1 (case_page c).2) (MkSortable (case_desc c))
             (MkFilterable (case_sc c)); mret r.1)
    (case_expected c).

Definition paging_cases : list paging_case :=
  let one := for_tick 12 in let two := for_tick 15 in
  let part (n m : nat) (l : list pb.Transaction) := take (m - n) (drop n l) in
  [MkCase (12, 12) (0, 2) false false [one tickOne];
   MkCase (10, 20) (0, 2) false false [one tickOne];
   MkCase (15, 15) (0, 3) false false [two tickTwo];
   MkCase (15, 15) (0, 2) false false [two (part 0 2 tickTwo)%nat];
   MkCase (15, 15) (1, 1) false false [two (part 1 2 tickTwo)%nat];
   MkCase (15, 15) (1, 2) false false [two (part 2 3 tickTwo)%nat];
   MkCase (15, 15) (1, 3) false false [];
   MkCase (15, 15) (3, 1) false false [];
   MkCase (10, 20) (0, 5) false false [one tickOne; two tickTwo];
   MkCase (10, 20) (0, 5000000) false false [one tickOne; two tickTwo];
   MkCase (10, 20) (0, 3) false false [one tickOne; two (part 0 1 tickTwo)%nat];
   MkCase (10, 20) (1, 2) false false [two (part 0 2 tickTwo)%nat];
   MkCase (10, 20) (2, 2) false false [two (part 2 3 tickTwo)%nat];
   MkCase (10, 20) (1, 3) false false [two (part 1 3 tickTwo)%nat];
   MkCase (10, 20) (0, 2) true false [two (part 0 2 tickTwo)%nat];
   MkCase (10, 20) (1, 2) true false [two (part 2 3 tickTwo); one (part 0 1 tickOne)]%nat;
   MkCase (10, 20) (2, 2) true false [one (part 1 2 tickOne)]%nat;
   MkCase (10, 20) (0, 5) false true
     [one (part 1 2 tickOne); two (part 0 1 tickTwo ++ part 2 3 tickTwo)]%nat;
   MkCase (10, 20) (0, 5) true true
     [two (part 0 1 tickTwo ++ part 2 3 tickTwo); one (part 1 2 tickOne)]%nat].

Example test_TransfersPaging : passes (
  _ ← PutTransferTransactionsPerTick idOne 12 (for_tick 12 tickOne);
  _ ← PutTransferTransactionsPerTick idOne 15 (for_tick 15 tickTwo);
  forM_ paging_cases paging_test) = true.
Proof. vm_compute. reflexivity. Qed.

(** ** validator/quorum/validator_test.go, validator/txstatus/models_test.go *)
Example test_ByteSwap : Quorum.swapBytes [1; 2; 3; 4; 5; 6] = [6; 5; 4; 3; 2; 1].
Proof. reflexivity. Qed.

Definition digest (first : Z) : bytes := copy_into (zero_array 32) (seqZ first 10).

Example test_EqualSlices :
  TxStatus.equalDigests [digest 21; digest 1; digest 11] [digest 11; digest 1; digest 21] = Ok true.
Proof. vm_compute. reflexivity. Qed.
